(* ===== verification/_CoqProject ===== *)
-Q . S2P
Prelude.v
Interleaving.v
LockUtils.v
Ownership.v
OwnershipTopics.v
Leases.v
Validation.v
Storage.v
Concrete.v
StorageProps.v
RaftCluster.v
Group.v
LeaseGroup.v
FailureDetector.v
DdlTypes.v
TopicQueue.v
ConcurrentQueue.v
ConcurrentTopics.v
Subscribers.v
Spmc.v
Peer.v
PeerProps.v
ConcurrentPeer.v
Gossip.v
GossipProps.v
GossipTasks.v
GossipNetwork.v
Ddl.v
DdlProps.v
Service.v
Wal.v
WalProps.v
ConcurrentWal.v
DdlWal.v
Correlation.v
Framing.v
TcpTransport.v
TcpTransportProps.v
TcpNetwork.v
TcpNetworkProps.v
Text.v
DdlNode.v
DdlNodeProps.v
Config.v
ConfigProps.v
Floats.v
MetricsNode.v
MetricsNodeProps.v
Zmq.v
ZmqProps.v
Persistence.v
PersistenceProps.v
Registry.v
RegistryProps.v
