(* ===== verification/Prelude.v ===== *)
(** * DDL (Dumb Distributed Log): a verification development

    The program (a Rust crate under src/) keeps append-only logs, one ring
    buffer per topic, and pushes entries to subscribers.  Topics have owners: in
    Raft mode the owner map and a table of leases are a replicated state machine
    run by openraft; in gossip mode owners are agreed on by exchanging claims.
    Nodes fetch metrics from each other through a peer layer, and a durable
    variant of the log writes every entry to a write-ahead log.  Raft messages
    travel over TCP; a node program serves clients over a text protocol.  Beside
    the log, a metrics node samples, publishes and aggregates numbers over
    ZeroMQ, and a registry polls sources into queues and sample files.

    ** The parts and the files that model them

    - [Prelude]: results, machine integers, hash-map iteration orders, ordered
      maps, codecs, shared lemmas, tactics and hint databases.
    - [Interleaving]: threads over a shared state, schedules, the rule of Owicki and
      Gries and counting of threads; the files named [Concurrent...] use it.
    - [LockUtils]: poison-recovering locks (src/cluster/lock_utils.rs).  State:
      the value, the poison flag and the recovery counter.
    - [Ownership]: the replicated state machine (src/cluster/ownership_machine.rs):
      [OwnershipState] with the five tables of the source, [apply] with one
      definition per command, [query], the lease accessors and the checks of
      [Validate].  [OwnershipTopics], [Leases] and [Validation] hold its theorems.
    - [Storage]: openraft's storage (src/cluster/storage.rs, src/cluster/types.rs):
      log, vote, applied state, snapshots, and the three files with their
      temporary-file-and-rename protocol on an explicit file system.  [Concrete]
      gives instances to run it with, [StorageProps] its theorems.
    - [RaftCluster]: the calls of a cluster node and the membership types
      (src/cluster/raft_cluster.rs, src/cluster/membership.rs), and the node of
      src/cluster/raft_node.rs, which only prints.
    - [Group]: several cluster nodes over one committed log (those that [new_tcp] of
      src/cluster/raft_cluster.rs connects), with its abstract specification, a
      single owner map.  Snapshots are stamped with the end of the builder's log, as
      [build_snapshot] does.  [LeaseGroup]: what its lease calls answer.
    - [FailureDetector]: heartbeats and failure announcements (src/cluster/gossip.rs).
    - [DdlTypes]: entries, configuration, errors, topic names (src/traits/ddl.rs,
      src/peer/config.rs) and the clock (src/types.rs).
    - [TopicQueue], [Subscribers]: the ring buffer and the notification of
      subscribers under the four back-pressure modes (src/topic_queue.rs).
    - [ConcurrentQueue], [ConcurrentTopics]: pushes, read-backs and acknowledgements
      of one topic (src/topic_queue.rs and [push] of src/ddl_distributed.rs), and
      [get_or_create_topic], as the accesses of concurrent callers.
    - [Spmc]: the single-producer queue (src/queue/spmc_lockfree_queue.rs), and in
      [Shared] a consumer used by several threads.
    - [Peer], [PeerProps]: request ids, cache, circuit breaker, pending requests,
      registry, advertisements, routing, health, codec, fetcher (src/peer/).
    - [ConcurrentPeer]: the loads and stores of the circuit breaker ([Breaker]) and
      the map accesses of the cache ([Cache]) under concurrent requests.
    - [Gossip], [GossipProps], [GossipTasks]: the gossip coordinator, its messages
      and its background tasks (src/gossip.rs, src/gossip_protocol.rs);
      [GossipNetwork]: several coordinators and the messages between them.
    - [Ddl], [DdlProps]: the log service that composes queues, subscribers, Raft
      node, gossip and fetcher (src/ddl_distributed.rs).
    - [Service]: a service in Raft mode, whose Raft node is a [Group] of its own
      because [create_raft_cluster] uses the in-memory network, with its abstract
      specification: one owner map, and a bounded log per topic.
    - [Wal], [WalProps], [DdlWal]: the write-ahead log and the durable service
      (src/wal.rs, src/ddl_wal.rs); [ConcurrentWal]: concurrent appends.
    - [Correlation]: the correlation table (src/peer/correlation.rs).
    - [Framing], [TcpTransport], [TcpTransportProps]: length-prefixed frames, the
      reader and writer of a connection, and the transport with its peers
      (src/network/tcp.rs, src/network/transport_traits.rs).
    - [TcpNetwork], [TcpNetworkProps]: client and server of the Raft RPCs
      (src/network/tcp_network.rs, src/cluster/raft_router.rs).
    - [Text]: the string functions of the standard library that the parsers use.
    - [DdlNode], [DdlNodeProps]: command line, start-up and client protocol of the
      node program (src/bin/ddl-node.rs, with [new_tcp] of
      src/cluster/raft_cluster.rs).
    - [Config], [ConfigProps]: configuration (src/config.rs).
    - [Floats]: doubles as the binary64 numbers of the Standard Library's
      [SpecFloat], with Rust's comparisons and casts.
    - [MetricsNode], [MetricsNodeProps]: sampling, reception and aggregation of
      metrics (src/node.rs).
    - [Zmq], [ZmqProps]: publish and subscribe, requests, and their use by the
      metrics node (src/network/pubsub/, src/network/raft_transport.rs,
      src/network/hybrid.rs).
    - [Persistence], [PersistenceProps]: sample files (src/queue/persistence.rs).
    - [Registry], [RegistryProps]: intervals, sources and the registry of queues
      (src/queue/interval.rs, src/queue/source.rs, src/queue/registry.rs).

    Components call each other as in the source: [Storage] applies committed
    entries with [Ownership], [RaftCluster] proposes commands and reads the
    state, [Ddl] asks [RaftCluster] and [Gossip] who owns a topic before it
    pushes to a [TopicQueue] and notifies [Subscribers], and [DdlWal] wraps
    [Ddl] and [Wal].  [Group], [LeaseGroup] and [GossipNetwork] put several nodes
    together, and [Service] puts a service on its node.  [DdlNode] runs a [RaftCluster] node over [TcpNetwork],
    [Zmq] feeds [MetricsNode], which [Config] sets up, and [Registry] publishes
    to [Spmc] queues and hands samples to [Persistence].

    ** Conventions

    A [u64] or [usize] is a [Z] with its wrap-around ([u64_add]) or saturation
    ([saturating_add]) written out.  Fallible functions return [result]; state
    is passed explicitly.  Clocks, the outcome of file and network operations
    and the replies of openraft are arguments, so every theorem covers all of
    them.  Third-party code is an interface, a class with its laws and an
    instance that shows the laws can hold: [HashOrder] (hash-map iteration),
    [Codec] (serialization), [Openraft] (membership types), [Channel] (crossbeam
    channels), [CircularBuffer], [Waly], [TopicHash] (topic digests),
    [RaftTypes] and [Raft] (openraft's messages and instance), [ZmqPattern]
    (subscription matching), [Unicode] (character classes).  Shared objects
    (channels, flags, handles, one-shot cells) live in stores and are referred to
    by index, so aliasing is visible.  An
    operation is one definition; where concurrent callers share state without a
    lock around the whole operation, the [Concurrent...] files split it into its
    accesses of locks, atomics and concurrent maps, show that the accesses without
    interference are the operation ([push_alone], [create_topic_alone],
    [allow_alone], [append_alone] and the like), and quantify over every schedule.  Accesses are
    sequentially consistent: weaker memory orderings are not modelled.

    ** What the theorems show

    - State machine: it refines an abstract owner map ([topics_refinement]) with
      a consistent reverse index ([replay_index_ok]); leases exclude each other
      until their deadline ([lease_exclusive]), with the exact effect of
      acquiring and expiring ([acquire_spec], [expire_spec]) and consistent
      tables ([fresh_log_lease_index]); replicas agree whatever order their maps
      iterate in ([replay_deterministic]); validation decides exactly the
      consistency of the tables ([validate_reflects]).  Where the code departs
      from this, theorems state what it does: [stale_entry_kills_new_lease],
      [lease_id_collision], [renew_breaks_validation].
    - Storage: a restart after successful calls that lost no buffered write recovers
      vote, state and log but its membership entries ([restart_recovers]), each
      flush is atomic ([flush_atomic]), snapshots transfer the state
      ([snapshot_roundtrip]), and log and state-machine calls have the effect
      openraft expects ([log_operations], [try_get_log_entries_spec],
      [apply_to_state_machine_spec]).
    - The service as a whole: an instance in Raft mode refines one owner map and a
      bounded log per topic, and every call returns ([service_refines_logs]); owners
      never expire ([owners_do_not_expire]), and instances do not know of each
      other's claims and entries ([two_instances_accept]).
    - Cluster: a group of nodes refines a single owner map, whatever calls fail
      and however nodes lag, as long as snapshots are built by nodes that have
      applied their whole log ([group_refines_map]; [early_snapshot_skips] shows one
      that is not); committed claims are visible to
      reads ([claim_then_owns]); a lease is a lock across the nodes, as long as ids
      are fresh and nobody expires leases on its own clock ([lease_is_lock]);
      [concurrent_acquires_collide] and [local_expiration_diverges] are the
      hazards of local id allocation and local expiry, and a renewal never fails
      ([renew_always_ok]).
    - Log: the ring implements a log with back-pressure ([queue_refines_log]),
      notification that nothing obstructs delivers to every subscriber with room
      ([notify_delivers]), a batch reaches a stream with room whole
      ([stream_receives_batch]), batches equal single pushes while the ownership
      check keeps its answer ([push_batch_is_pushes]; [batch_outlives_ownership]
      shows one that changes), every outcome of a push
      ([push_outcome]), the topic limit of calls one after another ([topic_limit]);
      what consumers of the single-producer queue read ([spmc_consumer_reads]).
    - Concurrency: whatever the interleaving, pushes keep one log of consecutive ids
      ([concurrent_pushes]), topic creation exceeds its limit by less than the
      number of callers and does not deadlock ([concurrent_topic_limit]), the
      breaker counts failures exactly ([concurrent_failures]), and callers of an
      open topic share its log ([open_topic_shared]).  Concrete schedules show
      what the code does not exclude: [overlapping_acks_go_back],
      [notifications_out_of_order], [entry_lost_to_subscribers],
      [topic_limit_exceeded], [success_closes_open_breaker], [open_before_stamp],
      [cache_outgrows_capacity], [get_removes_fresh_value],
      [first_appends_open_twice], [shared_consumer_skips].
    - Durability: recovery from the write-ahead log ([wal_recovers]) and of the
      acknowledged pushes over several lives of the service ([durable_pushes]).
    - Gossip: the nodes of a network that loses, repeats and reorders messages agree
      on the best claim once it reached them ([gossip_converges]), whatever the
      order of the claims ([claims_converge]), and never go back
      ([claims_monotone]); [announce_resets_epoch], [owner_forgets_itself],
      [heartbeats_teach_nothing] and [published_data_claims] are the exceptions; a
      shutdown ends the background loops
      ([shutdown_stops_loops]).
    - Peers: circuit breaker, routing, cache bounds, request ids, and why a fetch
      that leaves the node times out ([fetch_times_out]); the failure detector
      announces each change once ([detector_alternates]); responses reach their
      requester ([complete_reaches_requester]).
    - Transport: the reader of a connection waits for nothing but room in the
      bounded incoming channel ([reader_total], [full_channel_waits]) and delivers
      the messages whose frames arrived in order, all of them when there is room
      ([tcp_delivers]); channels and connections stay within their limits
      ([transport_bounds]); broadcasts ([broadcast_spec]); messages above the
      reader's limit close the connection ([oversize_closes]).  Raft RPCs reach
      the right handler and bring its response back ([rpc_roundtrip]); serving
      terminates ([serve_total]), errors are not transported
      ([raft_error_not_transported]).
    - Node program: command lines round-trip ([args_roundtrip]) and give values in
      range ([parsed_args_wf]); a claim is visible to the client that made it
      ([client_sees_claim]); refused proposals change no table
      ([refused_session_keeps_tables]).
    - Configuration: variables of expressions ([extract_variables_spec]), the node
      table ([nodes_partition], [local_test_ports]), node detection
      ([detect_depends_on_order]).
    - Metrics: aggregation ([aggregate_tick_spec], [percentile_spec],
      [max_min_spec]), the table of remote values ([receive_tick_latest]);
      of what was published subscribers receive, unchanged and in order, what
      matches their pattern and was not dropped ([pubsub_delivers]), but the
      node's own subscriptions all fail ([node_subscribes_to_nothing]).
    - Polling: queues hold the latest results of their source
      ([registered_queue_contents]), which pausing and removing do not stop
      ([removed_source_keeps_polling]); sample files are complete when their
      thread ends and no write failed ([persist_complete]; errors are ignored, see
      [failed_write_joins_lines]), which [shutdown_all] does not bring about
      ([shutdown_all_stops_nothing]); bounds of adaptive intervals ([aimd_upper]).

    ** Bounds and fuel

    [await_leadership] makes at most ten checks in the source and is given ten.
    The loops that consume a byte stream or a socket's messages ([loop] in
    [Framing], [drain_loop] in [Zmq]) are given one iteration more than there are
    bytes or messages, and the theorems show that this is enough on every input
    ([reader_total], [serve_total], [pubsub_delivers]); the decoder of UTF-8 is
    given the length of its input.  Runs of a gossip network are shorter than 2^64
    events, so that epochs do not saturate.  Theorems bound counters below 2^64 (2^32 for
    the breaker) where the source would wrap, and state the wrapping behaviour
    where it can be reached by a call.

    ** Not modelled

    openraft itself, whose documented behaviour is the model of [Group]; iroh, whose
    topics [GossipNetwork] takes to deliver messages or not; the unused constants of src/constants.rs; TOML
    syntax; log output, signals and printed help; benchmarks and examples;
    orderings of atomics weaker than sequential consistency, and concurrency of the
    components that hold one lock for a whole operation.
    Timers and schedulers are not modelled as such: each iteration of a task is a
    step, and theorems quantify over sequences of steps. *)

From stdpp Require Export base gmap strings list fin_maps sorting pretty.
From Stdlib Require Export ZArith Lia.

#[global] Set Default Goal Selector "!".

#[local] Open Scope Z_scope.

Declare Scope ddl_scope.
Delimit Scope ddl_scope with ddl.

(** ** Results

    Rust's [Result<T, E>], with the error type first so that [result E] is a
    monad and stdpp's do-notation [x ← m; k] reads like the [?] operator. *)

Inductive result (E A : Type) : Type :=
| Ok (a : A)
| Err (e : E).

Arguments Ok {E A} a.
Arguments Err {E A} e.

#[export] Instance result_ret {E} : MRet (result E) := λ A a, Ok a.
#[export] Instance result_bind {E} : MBind (result E) := λ A B f m,
  match m with Ok a => f a | Err e => Err e end.

Definition map_err {E F A} (f : E → F) (m : result E A) : result F A :=
  match m with Ok a => Ok a | Err e => Err (f e) end.

Definition ok_or {E A} (o : option A) (e : E) : result E A :=
  match o with Some a => Ok a | None => Err e end.

Definition is_ok {E A} (m : result E A) : bool :=
  match m with Ok _ => true | Err _ => false end.

Lemma bind_Ok {E A B} (f : A → result E B) (m : result E A) b :
  (m ≫= f) = Ok b ↔ ∃ a, m = Ok a ∧ f a = Ok b.
Proof. destruct m; simpl; naive_solver. Qed.

(** ** Machine integers

    A [u64] or [usize] (the crate targets 64-bit machines) is a [Z] in
    [0 .. 2^64 - 1].  The release profile of Cargo.toml leaves overflow checks
    off, so a plain [+] wraps; [saturating_*] clamps. *)

Definition U64_MAX : Z := 2 ^ 64 - 1.
Definition u64_ok (z : Z) : Prop := 0 ≤ z ≤ U64_MAX.
Definition u64_wrap (z : Z) : Z := z `mod` 2 ^ 64.
Definition u64_add (a b : Z) : Z := u64_wrap (a + b).
Definition saturating_add (a b : Z) : Z := Z.min (a + b) U64_MAX.
Definition saturating_mul (a b : Z) : Z := Z.min (a * b) U64_MAX.
Definition saturating_sub (a b : Z) : Z := Z.max (a - b) 0.

#[export] Instance u64_ok_dec z : Decision (u64_ok z).
Proof. unfold u64_ok. apply _. Defined.

Lemma u64_wrap_small z : u64_ok z → u64_wrap z = z.
Proof. intros H. apply Z.mod_small. unfold u64_ok, U64_MAX in H. lia. Qed.

Lemma u64_wrap_range z : u64_ok (u64_wrap z).
Proof.
  unfold u64_ok, u64_wrap, U64_MAX.
  pose proof (Z.mod_pos_bound z (2 ^ 64) ltac:(lia)). lia.
Qed.

Lemma u64_add_small a b : u64_ok (a + b) → u64_add a b = (a + b).
Proof. apply u64_wrap_small. Qed.

Lemma saturating_add_range a b : u64_ok a → u64_ok b → u64_ok (saturating_add a b).
Proof. unfold u64_ok, saturating_add, U64_MAX. lia. Qed.

Lemma saturating_mul_range a b : u64_ok a → u64_ok b → u64_ok (saturating_mul a b).
Proof. unfold u64_ok, saturating_mul, U64_MAX. nia. Qed.

Lemma saturating_sub_range a b : u64_ok a → u64_ok b → u64_ok (saturating_sub a b).
Proof. unfold u64_ok, saturating_sub, U64_MAX. lia. Qed.

(** Indexing with a power-of-two mask is reduction modulo the capacity. *)
Lemma land_mask_mod (x k : Z) : 0 ≤ k → Z.land x (2 ^ k - 1) = x `mod` 2 ^ k.
Proof.
  intros Hk. rewrite <- Z.land_ones by done. by rewrite Z.ones_equiv, <- Z.sub_1_r.
Qed.

(** [usize::next_power_of_two]: the least power of two that is at least [n]. *)
Definition next_power_of_two (n : Z) : Z := 2 ^ Z.log2_up n.

Lemma next_power_of_two_ge n : 0 ≤ n → n ≤ next_power_of_two n.
Proof.
  intros Hn. unfold next_power_of_two.
  destruct (Z.le_gt_cases n 1) as [|Hgt].
  - rewrite Z.log2_up_eqn0 by lia. lia.
  - pose proof (Z.log2_up_spec n Hgt). lia.
Qed.

(** ** Iteration order of hash maps

    [std::collections::HashMap] (seeded per process) and [DashMap] promise
    nothing about the order in which they are iterated.  Every definition that
    iterates one takes an iteration order; a theorem about it holds for all of
    them. *)

Class HashOrder : Type := {
  hm_iter : ∀ {K V : Type} `{Countable K}, gmap K V → list (K * V);
  hm_iter_perm : ∀ {K V : Type} `{Countable K} (m : gmap K V),
      hm_iter m ≡ₚ map_to_list m;
}.

(** One possible order, used where a concrete run is evaluated. *)
Definition canonical_order : HashOrder :=
  {| hm_iter K V _ _ m := map_to_list m;
     hm_iter_perm K V _ _ m := Permutation_refl _ |}.

(** Another one: the reverse. *)
Program Definition reverse_order : HashOrder :=
  {| hm_iter K V _ _ m := reverse (map_to_list m) |}.
Next Obligation. intros. apply reverse_Permutation. Qed.

Section hash_order.
Context `{HashOrder}.
Context {K V : Type} `{Countable K}.
Implicit Types m : gmap K V.

Definition hm_keys m : list K := (hm_iter m).*1.
Definition hm_values m : list V := (hm_iter m).*2.

Lemma elem_of_hm_iter m k v : (k, v) ∈ hm_iter m ↔ m !! k = Some v.
Proof. by rewrite hm_iter_perm, elem_of_map_to_list. Qed.

Lemma elem_of_hm_values m v : v ∈ hm_values m ↔ ∃ k, m !! k = Some v.
Proof.
  unfold hm_values. rewrite list_elem_of_fmap. split.
  - intros ([k v'] & -> & Hin). exists k. by apply elem_of_hm_iter.
  - intros [k Hk]. exists (k, v). by rewrite elem_of_hm_iter.
Qed.

Lemma elem_of_hm_keys m k : k ∈ hm_keys m ↔ is_Some (m !! k).
Proof.
  unfold hm_keys. rewrite list_elem_of_fmap. split.
  - intros ([k' v] & -> & Hin). exists v. by apply elem_of_hm_iter.
  - intros [v Hk]. exists (k, v). by rewrite elem_of_hm_iter.
Qed.

Lemma NoDup_hm_keys m : NoDup (hm_keys m).
Proof. unfold hm_keys. rewrite hm_iter_perm. apply NoDup_fst_map_to_list. Qed.

Lemma length_hm_iter m : length (hm_iter m) = size m.
Proof. by rewrite hm_iter_perm, length_map_to_list. Qed.
End hash_order.

(** ** [Vec::retain], [HashMap::retain] and a sequence of removals *)

(** [retain(|t| t != x)] *)
Definition retain_ne {A} `{EqDecision A} (x : A) (l : list A) : list A :=
  filter (λ y, y ≠ x) l.

Lemma elem_of_retain_ne {A} `{EqDecision A} (x y : A) l :
  y ∈ retain_ne x l ↔ y ≠ x ∧ y ∈ l.
Proof. unfold retain_ne. by rewrite list_elem_of_filter. Qed.

Lemma NoDup_retain_ne {A} `{EqDecision A} (x : A) l : NoDup l → NoDup (retain_ne x l).
Proof. apply NoDup_filter. Qed.

(** Removing the keys of a list one after the other. *)
Definition delete_keys {K V} `{Countable K} (ks : list K) (m : gmap K V) : gmap K V :=
  fold_left (λ m k, delete k m) ks m.

Lemma lookup_delete_keys {K V} `{Countable K} ks (m : gmap K V) k :
  delete_keys ks m !! k = if decide (k ∈ ks) then None else m !! k.
Proof.
  unfold delete_keys. revert m. induction ks as [|k' ks IH]; intros m; simpl.
  { destruct (decide (k ∈ [])) as [Hin|]; [by apply not_elem_of_nil in Hin|done]. }
  rewrite IH. destruct (decide (k ∈ ks)), (decide (k ∈ k' :: ks)) as [Hin|Hin];
    try done; try set_solver.
  - apply elem_of_cons in Hin as [->|]; [|done]. by rewrite lookup_delete_eq.
  - apply not_elem_of_cons in Hin as [? _]. by rewrite lookup_delete_ne.
Qed.

Lemma filter_all {A} (P : A → Prop) `{∀ x, Decision (P x)} (l : list A) :
  (∀ x, x ∈ l → P x) → filter P l = l.
Proof.
  induction l as [|x l IH]; intros Hl; [done|]. rewrite filter_cons, decide_True by (apply Hl; left).
  f_equal. apply IH. intros y Hy. apply Hl. by right.
Qed.

(** A prefix extended by the next [k] elements. *)
Lemma take_more {A} (l : list A) n k :
  (n ≤ length l)%nat → take (n + length (take k (drop n l))) l = take n l ++ take k (drop n l).
Proof.
  intros Hn. rewrite length_take, length_drop. destruct (decide (k ≤ length l - n)%nat).
  - rewrite Nat.min_l by done. by rewrite take_take_drop.
  - rewrite Nat.min_r, (take_ge (drop _ _)) by (rewrite ?length_drop; lia).
    rewrite take_drop, take_ge; [done|lia].
Qed.

(** ** Ordered maps

    [std::collections::BTreeMap<u64, V>]: iteration is by ascending key. *)

Section btree.
Context {V : Type}.
Implicit Types m : gmap Z V.

Definition key_le (x y : Z * V) : Prop := x.1 ≤ y.1.

#[export] Instance key_le_dec : RelDecision key_le.
Proof. intros x y. unfold key_le. apply _. Defined.

#[export] Instance key_le_total : Total key_le.
Proof. intros x y. unfold key_le. lia. Qed.

#[export] Instance key_le_trans : Transitive key_le.
Proof. intros x y z. unfold key_le. lia. Qed.

Definition btree_iter m : list (Z * V) := merge_sort key_le (map_to_list m).
Definition btree_values m : list V := (btree_iter m).*2.

Lemma btree_iter_perm m : btree_iter m ≡ₚ map_to_list m.
Proof. apply merge_sort_Permutation. Qed.

Lemma btree_iter_sorted m : StronglySorted key_le (btree_iter m).
Proof. apply (StronglySorted_merge_sort _). Qed.

Lemma elem_of_btree_iter m k v : (k, v) ∈ btree_iter m ↔ m !! k = Some v.
Proof. by rewrite btree_iter_perm, elem_of_map_to_list. Qed.

Lemma NoDup_btree_keys m : NoDup (btree_iter m).*1.
Proof. rewrite btree_iter_perm. apply NoDup_fst_map_to_list. Qed.

Lemma btree_iter_empty : btree_iter (∅ : gmap Z V) = [].
Proof. unfold btree_iter. by rewrite map_to_list_empty. Qed.

(** [keys().next_back()] with its value: the entry with the greatest key. *)
Lemma btree_last_max m k v :
  last (btree_iter m) = Some (k, v) →
  m !! k = Some v ∧ ∀ k' v', m !! k' = Some v' → k' ≤ k.
Proof.
  intros Hl. split; [by apply elem_of_btree_iter, last_Some_elem_of|].
  intros k' v' Hk%elem_of_btree_iter. pose proof (btree_iter_sorted m) as Hs.
  apply last_Some in Hl as [l Hl]. rewrite Hl in Hk, Hs.
  apply elem_of_app in Hk as [Hk|[= -> ->]%list_elem_of_singleton]; [|done].
  exact (StronglySorted_app_1_elem_of key_le l [(k, v)] (k', v') (k, v) Hs Hk ltac:(left)).
Qed.

Lemma btree_last_None m : last (btree_iter m) = None ↔ m = ∅.
Proof.
  rewrite last_None. split.
  - intros He. apply map_eq. intros k. rewrite lookup_empty. apply eq_None_not_Some.
    intros [v Hv%elem_of_btree_iter]. rewrite He in Hv. by apply not_elem_of_nil in Hv.
  - intros ->. apply btree_iter_empty.
Qed.
End btree.

(** ** Byte strings and codecs

    The crates that turn values into bytes (oxicode, serde_json) are not part
    of the source; what the code relies on is that decoding what was encoded
    gives the value back.  Encoding may fail. *)

Abbreviation bytes := (list Z).

Class Codec (T : Type) : Type := {
  enc : T → option bytes;
  dec : bytes → option T;
  dec_enc : ∀ x b, enc x = Some b → dec b = Some x;
}.

(** A codec for any countable type, used where a concrete run is evaluated:
    the bits of the type's numbering, one byte each. *)
Fixpoint pos_bits (p : positive) : bytes :=
  match p with xH => [] | xO p => 0 :: pos_bits p | xI p => 1 :: pos_bits p end.

Fixpoint bits_pos (b : bytes) : positive :=
  match b with [] => xH | x :: b => if decide (x = 0) then xO (bits_pos b) else xI (bits_pos b) end.

Lemma bits_pos_bits p : bits_pos (pos_bits p) = p.
Proof. induction p; simpl; congruence. Qed.

(** A leading marker byte keeps encodings non-empty. *)
Program Definition bits_codec (T : Type) `{Countable T} : Codec T := {|
  enc x := Some (1 :: pos_bits (encode x));
  dec b := match b with _ :: b => decode (bits_pos b) | [] => None end |}.
Next Obligation. intros T ? ? x b [= <-]; simpl. by rewrite bits_pos_bits, decode_encode. Qed.

(** ** Automation *)

Create HintDb ddl.
Create Rewrite HintDb ddl.
#[export] Hint Resolve u64_wrap_range saturating_add_range saturating_mul_range
  saturating_sub_range NoDup_retain_ne : ddl.
#[export] Hint Rewrite @elem_of_retain_ne @lookup_delete_keys : ddl.

(** Case analysis on the innermost matches of the goal, closing the trivial
    branches. *)
Ltac case_all := repeat (case_match || case_decide); simplify_eq/=; try done.

(** Rewriting a map lookup after an update, splitting on whether the keys
    coincide. *)
Ltac map_cases i j :=
  destruct (decide (i = j)) as [->|?];
  rewrite ?lookup_insert_eq, ?lookup_delete_eq, ?lookup_alter_eq in *;
  rewrite ?lookup_insert_ne, ?lookup_delete_ne, ?lookup_alter_ne in * by done.
