(* ===== verification/Interleaving.v ===== *)
(** * Interleavings

    Threads that share a state and move one atomic action at a time.  A thread is
    a deterministic program: its local state holds what it still has to do, and
    [step i l s] is its next action, or nothing when it has ended or must wait.
    The scheduler is a list of thread indices, so a statement about every
    schedule is a statement about every interleaving, and a concrete schedule
    can be evaluated. *)

From S2P Require Import Prelude.

Section threads.
Context {S L : Type} (step : nat → L → S → option (L * S)).

Record Machine := mkMachine { shared : S; threads : list L }.

Definition run_thread (c : Machine) (i : nat) : Machine :=
  match threads c !! i with
  | Some l =>
      match step i l (shared c) with
      | Some (l', s') => mkMachine s' (<[i := l']> (threads c))
      | None => c
      end
  | None => c
  end.

Definition run_schedule (sch : list nat) (c : Machine) : Machine := foldl run_thread c sch.

Lemma run_schedule_app a b c : run_schedule (a ++ b) c = run_schedule b (run_schedule a c).
Proof. apply foldl_app. Qed.

Lemma run_schedule_ind (P : Machine → Prop) c sch :
  P c → (∀ c i, P c → P (run_thread c i)) → P (run_schedule sch c).
Proof.
  unfold run_schedule. intros Hc Hs. revert c Hc.
  induction sch as [|i sch IH]; intros c Hc; simpl; auto.
Qed.

Lemma run_thread_cases (P : Machine → Prop) c i :
  P c →
  (∀ l l' s', threads c !! i = Some l → step i l (shared c) = Some (l', s') →
     P (mkMachine s' (<[i := l']> (threads c)))) →
  P (run_thread c i).
Proof.
  intros Hc Hs. unfold run_thread. destruct (threads c !! i) as [l|] eqn:Hl; [|done].
  destruct (step i l (shared c)) as [[l' s']|] eqn:He; [|done]. by eapply Hs.
Qed.

(** One thread, undisturbed. *)
Fixpoint run_alone (n : nat) (i : nat) (l : L) (s : S) : L * S :=
  match n with
  | O => (l, s)
  | Datatypes.S n => match step i l s with Some (l', s') => run_alone n i l' s' | None => (l, s) end
  end.

Lemma run_alone_step n i l s l' s' :
  step i l s = Some (l', s') → run_alone (Datatypes.S n) i l s = run_alone n i l' s'.
Proof. simpl. by intros ->. Qed.

Lemma run_alone_schedule n i l s ls :
  ls !! i = Some l →
  run_schedule (replicate n i) (mkMachine s ls) =
    mkMachine (run_alone n i l s).2 (<[i := (run_alone n i l s).1]> ls).
Proof.
  unfold run_schedule. revert l s ls. induction n as [|n IH]; intros l s ls Hl; simpl.
  { by rewrite list_insert_id. }
  unfold run_thread at 2. simpl. rewrite Hl. destruct (step i l s) as [[l' s']|] eqn:He.
  - rewrite (IH l') by (apply list_lookup_insert_eq; by eapply lookup_lt_Some).
    by rewrite list_insert_insert_eq.
  - rewrite (IH l) by done. destruct n; simpl; [done|]. by rewrite He.
Qed.

(** The rule of Owicki and Gries, with a ghost state [g] that grows with the run:
    [J g] holds of the shared state and [A g i] of thread [i]; an action
    re-establishes both, and leaves what the other threads rely on intact. *)
Section invariants.
Context {G : Type} (J : G → S → Prop) (A : G → nat → L → S → Prop).

Definition holds_with (g : G) (c : Machine) : Prop :=
  J g (shared c) ∧ ∀ i l, threads c !! i = Some l → A g i l (shared c).

Definition preserved (R : G → G → Prop) : Prop :=
  ∀ g i l s l' s', J g s → A g i l s → step i l s = Some (l', s') →
    ∃ g', R g g' ∧ J g' s' ∧ A g' i l' s' ∧ ∀ j m, j ≠ i → A g j m s → A g' j m s'.

Lemma owicki_gries (R : G → G → Prop) `{!PreOrder R} g c sch :
  preserved R → holds_with g c → ∃ g', R g g' ∧ holds_with g' (run_schedule sch c).
Proof.
  intros Hp Hc. apply (run_schedule_ind (λ c, ∃ g', R g g' ∧ holds_with g' c)).
  { by exists g. }
  clear c Hc. intros c i (g1 & Hr & HJ & HA).
  apply (run_thread_cases (λ c, ∃ g', R g g' ∧ holds_with g' c)).
  { by exists g1. }
  intros l l' s' Hl He.
  destruct (Hp g1 i l (shared c) l' s' HJ (HA i l Hl) He) as (g2 & Hr2 & HJ2 & HA2 & Hst).
  exists g2. split; [by etrans|]. split; [done|]. simpl. intros j m.
  destruct (decide (i = j)) as [<-|Hne].
  - rewrite list_lookup_insert_eq by (by eapply lookup_lt_Some). by intros [= <-].
  - rewrite list_lookup_insert_ne by done. intros Hm. by apply Hst; [|apply HA].
Qed.
End invariants.

(** Counting threads: one action changes the count by what its thread changes. *)
Definition count (P : L → bool) (c : Machine) : nat := length (filter (λ l, P l = true) (threads c)).

Lemma count_le P c : (count P c ≤ length (threads c))%nat.
Proof. apply length_filter. Qed.

Lemma count_zero P c : (∀ i l, threads c !! i = Some l → P l = false) → count P c = 0%nat.
Proof.
  intros HP. unfold count. destruct (filter _ _) as [|l ls] eqn:E; [done|].
  assert (l ∈ filter (λ l, P l = true) (threads c)) as [Hl Hin]%list_elem_of_filter
    by (rewrite E; by left).
  apply list_elem_of_lookup in Hin as [i Hi]. by rewrite (HP i l Hi) in Hl.
Qed.

Lemma count_ext P Q c : (∀ l, l ∈ threads c → P l = Q l) → count P c = count Q c.
Proof.
  unfold count. induction (threads c) as [|l ls IH]; intros HPQ; [done|].
  rewrite !filter_cons, (HPQ l) by (by left).
  destruct (decide (Q l = true)); simpl; rewrite IH; auto; intros; apply HPQ; by right.
Qed.

Lemma filter_insert_length (P : L → bool) (ls : list L) i l l' :
  ls !! i = Some l →
  (length (filter (λ l, P l = true) (<[i := l']> ls)) + (if P l then 1 else 0) =
   length (filter (λ l, P l = true) ls) + (if P l' then 1 else 0))%nat.
Proof.
  revert i. induction ls as [|m ls IH]; intros [|i] Hl; simplify_eq/=.
  - rewrite !filter_cons. destruct (P l), (P l'); simpl; lia.
  - rewrite !filter_cons. specialize (IH i Hl). destruct (P m); simpl; lia.
Qed.

Lemma count_step P s s' ls i l l' :
  ls !! i = Some l →
  (count P (mkMachine s' (<[i := l']> ls)) + (if P l then 1 else 0) =
   count P (mkMachine s ls) + (if P l' then 1 else 0))%nat.
Proof. apply filter_insert_length. Qed.

Lemma length_run_schedule sch c : length (threads (run_schedule sch c)) = length (threads c).
Proof.
  apply (run_schedule_ind (λ c', length (threads c') = length (threads c))); [done|].
  intros c' i <-. apply (run_thread_cases (λ c, length (threads c) = length (threads c'))); [done|].
  intros l l' s' _ _. apply length_insert.
Qed.
End threads.

Arguments mkMachine {S L} _ _.
Arguments shared {S L} _.
Arguments threads {S L} _.
