(* ===== verification/LockUtils.v ===== *)
(** * Lock recovery (src/cluster/lock_utils.rs)

    [RecoverableLock<T>] wraps a standard [RwLock<T>] with a counter of poison
    recoveries.  The lock is the protected value, the poison flag the standard
    library sets when a holder panics, and the counter.  Acquiring through the
    [*_recover] methods returns the guarded value and the lock after the
    counter was bumped; [contended] says whether another holder makes a
    [try_*] call block. *)

From S2P Require Import Prelude.
#[local] Open Scope Z_scope.

(** ** Errors *)

Inductive LockError :=
| WouldBlock
| DataValidationFailed (reason : string)
| TooManyPoisons (count : Z).

Inductive ValidationError :=
| TopicCountMismatch
| OrphanedKeyLease
| DanglingLease
| LeaseIdInconsistency
| InvalidLeaseExpiration
| OwnershipCountMismatch
| Custom (msg : string).

#[export] Instance ValidationError_eq_dec : EqDecision ValidationError.
Proof. solve_decision. Defined.
#[export] Instance LockError_eq_dec : EqDecision LockError.
Proof. solve_decision. Defined.

(** [impl Display for ValidationError] *)
Definition ValidationError_fmt (e : ValidationError) : string :=
  match e with
  | TopicCountMismatch => "Topic count mismatch"
  | OrphanedKeyLease => "Orphaned key lease"
  | DanglingLease => "Dangling lease"
  | LeaseIdInconsistency => "Lease ID inconsistency"
  | InvalidLeaseExpiration => "Invalid lease expiration"
  | OwnershipCountMismatch => "Ownership count mismatch"
  | Custom msg => "Validation error: " +:+ msg
  end.

(** [impl Display for LockError] *)
Definition LockError_fmt (e : LockError) : string :=
  match e with
  | WouldBlock => "Lock acquisition would block"
  | DataValidationFailed reason => "Data validation failed: " +:+ reason
  | TooManyPoisons count => "Too many poison recoveries: " +:+ pretty count
  end.

Definition MAX_POISON_RECOVERIES : Z := 3.

(** The trait [Validate]. *)
Class Validate (T : Type) := validate : T → result ValidationError unit.

(** ** The lock *)

Record RecoverableLock (T : Type) := mkLock {
  lock_value : T;
  lock_poisoned : bool;
  poison_count : Z;
}.
Arguments mkLock {T} _ _ _.
Arguments lock_value {T} _.
Arguments lock_poisoned {T} _.
Arguments poison_count {T} _.

Section lock.
Context {T : Type} `{Validate T}.
Implicit Types l : RecoverableLock T.

Definition lock_new (value : T) : RecoverableLock T := mkLock value false 0.

(** A standard lock is its value and its poison flag. *)
Definition from_rwlock (lock : T * bool) : RecoverableLock T := mkLock lock.1 lock.2 0.
Definition into_inner l : T * bool := (lock_value l, lock_poisoned l).

(** The plain [read] and [write]: the value comes with the error too. *)
Definition lock_read l : result T T := if lock_poisoned l then Err (lock_value l) else Ok (lock_value l).
Definition lock_write l : result T T := if lock_poisoned l then Err (lock_value l) else Ok (lock_value l).

Definition reset_poison_count l : RecoverableLock T :=
  mkLock (lock_value l) (lock_poisoned l) 0.

(** A holder panics while it holds the write guard, leaving [v] behind. *)
Definition poison (v : T) l : RecoverableLock T := mkLock v true (poison_count l).

(** [poison_count.fetch_add(1)]: returns the old counter. *)
Definition fetch_add_poison l : Z * RecoverableLock T :=
  (poison_count l,
   mkLock (lock_value l) (lock_poisoned l) (u64_add (poison_count l) 1)).

Definition read_recover l : result LockError T * RecoverableLock T :=
  if lock_poisoned l then
    let '(count, l') := fetch_add_poison l in
    if bool_decide (MAX_POISON_RECOVERIES ≤ count) then (Err (TooManyPoisons count), l')
    else (Ok (lock_value l'), l')
  else (Ok (lock_value l), l).

(** The tail both write paths share once the poisoned guard was taken out:
    the data is handed over only if it validates. *)
Definition validated (v : T) : result LockError T :=
  match validate v with
  | Ok tt => Ok v
  | Err e => Err (DataValidationFailed (ValidationError_fmt e))
  end.

Definition write_recover l : result LockError T * RecoverableLock T :=
  if lock_poisoned l then
    let '(count, l') := fetch_add_poison l in
    if bool_decide (MAX_POISON_RECOVERIES ≤ count) then (Err (TooManyPoisons count), l')
    else (validated (lock_value l'), l')
  else (Ok (lock_value l), l).

Definition try_read_recover (contended : bool) l : result LockError T * RecoverableLock T :=
  if contended then (Err WouldBlock, l) else read_recover l.

Definition try_write_recover (contended : bool) l : result LockError T * RecoverableLock T :=
  if contended then (Err WouldBlock, l) else write_recover l.

(** ** Sequences of acquisitions *)

Inductive lock_call := CRead | CWrite | CTryRead (contended : bool) | CTryWrite (contended : bool).

Definition run_call (c : lock_call) l : result LockError T * RecoverableLock T :=
  match c with
  | CRead => read_recover l
  | CWrite => write_recover l
  | CTryRead b => try_read_recover b l
  | CTryWrite b => try_write_recover b l
  end.

Fixpoint run_calls (cs : list lock_call) l : list (result LockError T) * RecoverableLock T :=
  match cs with
  | [] => ([], l)
  | c :: cs =>
      let '(r, l') := run_call c l in
      let '(rs, l'') := run_calls cs l' in
      (r :: rs, l'')
  end.

(** A call that found the lock contended does not reach the poison check. *)
Definition blocked (c : lock_call) : bool :=
  match c with CTryRead b | CTryWrite b => b | _ => false end.

Lemma run_call_poisoned c l :
  lock_poisoned l = true → blocked c = false →
  0 ≤ poison_count l < U64_MAX →
  run_call c l =
    (if bool_decide (MAX_POISON_RECOVERIES ≤ poison_count l)
     then Err (TooManyPoisons (poison_count l))
     else match c with
          | CRead | CTryRead _ => Ok (lock_value l)
          | CWrite | CTryWrite _ => validated (lock_value l)
          end,
     mkLock (lock_value l) true (poison_count l + 1)).
Proof.
  intros Hp Hb Hc. destruct c as [| |[]|[]]; simplify_eq/=;
    unfold try_read_recover, try_write_recover, read_recover, write_recover,
      fetch_add_poison;
    rewrite Hp, u64_add_small by (unfold u64_ok; lia); by case_bool_decide.
Qed.

Lemma run_calls_exhausted cs l :
  lock_poisoned l = true → Forall (λ c, blocked c = false) cs →
  MAX_POISON_RECOVERIES ≤ poison_count l →
  poison_count l + Z.of_nat (length cs) ≤ U64_MAX →
  Forall (λ r, ∃ n, r = Err (TooManyPoisons n)) (run_calls cs l).1.
Proof.
  unfold MAX_POISON_RECOVERIES.
  revert l. induction cs as [|c cs IH]; intros l Hp Hb Hc Hlen; simpl; [constructor|].
  inversion Hb as [|?? Hb1 Hb2]; subst. simpl in Hlen.
  rewrite (run_call_poisoned c l) by (done || lia).
  specialize (IH (mkLock (lock_value l) true (poison_count l + 1)) eq_refl Hb2).
  simpl in IH. specialize (IH ltac:(lia) ltac:(lia)).
  destruct (run_calls cs _) as [rs l'']. simpl in *.
  constructor; [|done]. rewrite bool_decide_true by (unfold MAX_POISON_RECOVERIES; lia). eauto.
Qed.

Lemma run_calls_app cs1 cs2 l :
  (run_calls (cs1 ++ cs2) l).1 =
  (run_calls cs1 l).1 ++ (run_calls cs2 (run_calls cs1 l).2).1.
Proof.
  revert l. induction cs1 as [|c cs1 IH]; intros l; simpl; [done|].
  destruct (run_call c l) as [r l']. specialize (IH l').
  destruct (run_calls (cs1 ++ cs2) l') as [rs l2].
  destruct (run_calls cs1 l') as [rs1 l1]. simpl in *. by rewrite IH.
Qed.

Lemma run_calls_count cs l :
  lock_poisoned l = true → Forall (λ c, blocked c = false) cs →
  0 ≤ poison_count l → poison_count l + Z.of_nat (length cs) ≤ U64_MAX →
  (run_calls cs l).2 =
  mkLock (lock_value l) true (poison_count l + Z.of_nat (length cs)).
Proof.
  revert l. induction cs as [|c cs IH]; intros l Hp Hb Hc Hlen; simpl.
  { destruct l as [v p n]; simpl in *; subst. f_equal. lia. }
  inversion Hb as [|?? Hb1 Hb2]; subst. simpl in Hlen.
  rewrite (run_call_poisoned c l) by (done || lia).
  specialize (IH (mkLock (lock_value l) true (poison_count l + 1)) eq_refl Hb2).
  simpl in IH. specialize (IH ltac:(lia) ltac:(lia)).
  destruct (run_calls cs _) as [rs l'']. simpl in *. subst. f_equal. lia.
Qed.
End lock.

Section lock_properties.
Context {T : Type} `{Validate T}.

(** A lock that a panicking holder poisoned (counter still 0) can be
    acquired at most [MAX_POISON_RECOVERIES] = 3 more times, whatever the mix
    of read, write and uncontended try acquisitions: none of the first three
    fails for want of budget, and every later one fails with
    [TooManyPoisons], since recovery never clears the poison flag. *)
Theorem recovery_budget (v : T) (first later : list lock_call) :
  length first = 3%nat →
  Forall (λ c, blocked c = false) (first ++ later) →
  3 + Z.of_nat (length later) ≤ U64_MAX →
  let l := mkLock v true 0 in
  Forall (λ r, ∀ n, r ≠ Err (TooManyPoisons n)) (run_calls first l).1 ∧
  Forall (λ r, ∃ n, r = Err (TooManyPoisons n))
    (drop 3 (run_calls (first ++ later) l).1).
Proof.
  intros Hlen [Hb1 Hb2]%Forall_app Hmax. intros l.
  destruct first as [|c1 [|c2 [|c3 [|]]]]; simplify_eq/=.
  rewrite !Forall_cons in Hb1. destruct Hb1 as (H1 & H2 & H3 & _).
  unfold l. do 3 (rewrite ?run_call_poisoned by (done || (simpl; lia)); simpl).
  assert (Hnot : ∀ c n, (match c with
            | CRead | CTryRead _ => Ok v
            | CWrite | CTryWrite _ => validated v end : result LockError T)
            ≠ Err (TooManyPoisons n)).
  { intros c n. destruct c; try done; unfold validated; by destruct (validate v) as [[]|]. }
  split.
  - repeat constructor; apply Hnot.
  - pose proof (run_calls_exhausted later (mkLock v true 3)) as Hex. simpl in Hex.
    specialize (Hex eq_refl Hb2 ltac:(done) ltac:(lia)).
    change (0 + 1 + 1 + 1) with 3. destruct (run_calls later _); done.
Qed.

(** A write guard taken from a poisoned lock protects data that passed
    [validate], and the data is the one the panicking holder left. *)
Theorem write_recover_validated (l l' : RecoverableLock T) (v : T) :
  lock_poisoned l = true →
  write_recover l = (Ok v, l') →
  validate v = Ok tt ∧ v = lock_value l ∧ poison_count l < MAX_POISON_RECOVERIES.
Proof.
  intros Hp. unfold write_recover, fetch_add_poison. rewrite Hp.
  case_bool_decide as Hc; [done|]. unfold validated. simpl.
  destruct (validate (lock_value l)) as [[]|e] eqn:Hv; [|done].
  intros [= <- <-]. split_and!; [done|done|lia].
Qed.
End lock_properties.

#[local] Instance Z_nonneg_validate : Validate Z :=
  λ z, if bool_decide (0 ≤ z) then Ok tt else Err OrphanedKeyLease.

Lemma recovery_budget_witness :
  Forall (λ r, ∃ n, r = Err (TooManyPoisons n))
    (drop 3 (run_calls ([CRead; CWrite; CTryRead false] ++ [CRead; CWrite])
               (mkLock 7 true 0)).1).
Proof.
  apply (recovery_budget 7 [CRead; CWrite; CTryRead false] [CRead; CWrite]);
    [reflexivity|repeat constructor|vm_compute; discriminate].
Defined.

Lemma write_recover_validated_witness :
  validate 7 = Ok tt ∧ 7 = lock_value (mkLock 7 true 2) ∧ 2 < MAX_POISON_RECOVERIES.
Proof.
  apply (write_recover_validated (mkLock 7 true 2) (mkLock 7 true 3) 7); reflexivity.
Defined.
