(* ===== verification/Ownership.v ===== *)
(** * The ownership state machine (src/cluster/ownership_machine.rs)

    The state machine Raft replicates: which node owns which topic, and TTL
    leases on keys.  Data, commands, queries and every method of
    [OwnershipState], in the order of the source.  Time stamps are [u64]
    nanoseconds carried by the commands. *)

From S2P Require Import Prelude LockUtils.
#[local] Open Scope Z_scope.

(** ** Data *)

Abbreviation NodeId := Z (only parsing).

Record LeaseEntry := mkLease {
  le_id : Z;
  le_key : string;
  le_owner : NodeId;
  le_acquired_at : Z;
  le_ttl_secs : Z;
  le_expires_at : Z;
}.

Record LeaseInfo := mkLeaseInfo {
  li_id : Z;
  li_key : string;
  li_owner : NodeId;
  li_acquired_at : Z;
  li_expires_at : Z;
  li_ttl_secs : Z;
}.

Inductive LeaseError :=
| LeaseHeld (key : string) (owner : NodeId)
| LeaseExpired (id : Z)
| LeaseNotFound (id : Z).

#[export] Instance LeaseEntry_eq_dec : EqDecision LeaseEntry.
Proof. solve_decision. Defined.
#[export] Instance LeaseInfo_eq_dec : EqDecision LeaseInfo.
Proof. solve_decision. Defined.
#[export] Instance LeaseError_eq_dec : EqDecision LeaseError.
Proof. solve_decision. Defined.

(** [impl From<LeaseEntry> for LeaseInfo] *)
Definition LeaseInfo_from (entry : LeaseEntry) : LeaseInfo :=
  mkLeaseInfo (le_id entry) (le_key entry) (le_owner entry) (le_acquired_at entry)
    (le_expires_at entry) (le_ttl_secs entry).

Inductive OwnershipCommand :=
| ClaimTopic (topic : string) (node_id : NodeId) (timestamp : Z)
| ReleaseTopic (topic : string) (node_id : NodeId)
| TransferTopic (topic : string) (from_node to_node : NodeId)
| AcquireLease (key : string) (owner : NodeId) (lease_id ttl_secs timestamp : Z)
| RenewLease (lease_id timestamp : Z)
| ReleaseLease (key : string)
| ExpireLeases (now : Z).

Inductive OwnershipQuery :=
| GetOwner (topic : string)
| ListTopics (node_id : NodeId)
| ListAll
| GetLeaseOwner (key : string)
| ListLeases (owner : NodeId)
| GetLease (lease_id : Z).

Inductive OwnershipResponse :=
| ROwner (topic : string) (owner : option NodeId)
| RTopics (topics : list string)
| RAll (ownership : gmap string NodeId)
| RLeaseOwner (key : string) (info : option LeaseInfo)
| RLeases (leases : list LeaseInfo)
| RLeaseResult (lease : option LeaseEntry) (error : option LeaseError)
| RLeaseCount (count : nat).

Record OwnershipState := mkState {
  ownership : gmap string NodeId;
  node_topics : gmap NodeId (list string);
  leases : gmap Z LeaseEntry;
  key_leases : gmap string Z;
  next_lease_id : Z;
}.

#[export] Instance OwnershipState_eq_dec : EqDecision OwnershipState.
Proof. solve_decision. Defined.

(** [OwnershipState::new] *)
Definition new : OwnershipState := mkState ∅ ∅ ∅ ∅ 0.

(** ** Topic commands *)

Definition with_topics (s : OwnershipState) o nt : OwnershipState :=
  mkState o nt (leases s) (key_leases s) (next_lease_id s).

Definition with_leases (s : OwnershipState) ls ks next : OwnershipState :=
  mkState (ownership s) (node_topics s) ls ks next.

(** [node_topics.get_mut(n)] then [retain(|t| t != topic)]; a node without an
    entry is left alone. *)
Definition drop_topic (n : NodeId) (topic : string) (nt : gmap NodeId (list string)) :=
  alter (retain_ne topic) n nt.

(** [node_topics.entry(n).or_insert_with(Vec::new).push(topic)] *)
Definition push_topic (n : NodeId) (topic : string) (nt : gmap NodeId (list string)) :=
  <[n := default [] (nt !! n) ++ [topic]]> nt.

Definition apply_claim (topic : string) (node_id : NodeId) (s : OwnershipState) :=
  let nt := match ownership s !! topic with
            | Some prev_owner => drop_topic prev_owner topic (node_topics s)
            | None => node_topics s
            end in
  with_topics s (<[topic := node_id]> (ownership s)) (push_topic node_id topic nt).

Definition apply_release (topic : string) (node_id : NodeId) (s : OwnershipState) :=
  if decide (ownership s !! topic = Some node_id) then
    with_topics s (delete topic (ownership s)) (drop_topic node_id topic (node_topics s))
  else s.

Definition apply_transfer (topic : string) (from_node to_node : NodeId) (s : OwnershipState) :=
  if decide (ownership s !! topic = Some from_node) then
    with_topics s (<[topic := to_node]> (ownership s))
      (push_topic to_node topic (drop_topic from_node topic (node_topics s)))
  else s.

(** ** Lease commands *)

(** [timestamp.saturating_add(ttl_secs.saturating_mul(1_000_000_000))] *)
Definition lease_deadline (timestamp ttl_secs : Z) : Z :=
  saturating_add timestamp (saturating_mul ttl_secs 1000000000).

(** The guard of both acquisition paths: the lease that still holds [key] at
    [timestamp], if any. *)
Definition held_lease (s : OwnershipState) (key : string) (timestamp : Z) : option LeaseEntry :=
  existing_id ← key_leases s !! key;
  existing ← leases s !! existing_id;
  if bool_decide (timestamp < le_expires_at existing) then Some existing else None.

Definition apply_acquire (key : string) (owner : NodeId) (lease_id ttl_secs timestamp : Z)
    (s : OwnershipState) : OwnershipState :=
  match held_lease s key timestamp with
  | Some _ => s
  | None =>
      let lease := mkLease lease_id key owner timestamp ttl_secs
                     (lease_deadline timestamp ttl_secs) in
      with_leases s (<[lease_id := lease]> (leases s)) (<[key := lease_id]> (key_leases s))
        (if bool_decide (next_lease_id s ≤ lease_id) then u64_add lease_id 1
         else next_lease_id s)
  end.

Definition renewed (timestamp : Z) (lease : LeaseEntry) : LeaseEntry :=
  if bool_decide (timestamp < le_expires_at lease) then
    mkLease (le_id lease) (le_key lease) (le_owner lease) (le_acquired_at lease)
      (le_ttl_secs lease) (lease_deadline timestamp (le_ttl_secs lease))
  else lease.

Definition apply_renew (lease_id timestamp : Z) (s : OwnershipState) : OwnershipState :=
  with_leases s (alter (renewed timestamp) lease_id (leases s)) (key_leases s)
    (next_lease_id s).

Definition apply_release_lease (key : string) (s : OwnershipState) : OwnershipState :=
  match key_leases s !! key with
  | Some lease_id =>
      with_leases s (delete lease_id (leases s)) (delete key (key_leases s)) (next_lease_id s)
  | None => s
  end.

Section iteration.
Context `{HashOrder}.

(** The keys of the leases whose deadline is past, in iteration order. *)
Definition expired_keys (now : Z) (s : OwnershipState) : list string :=
  le_key <$> filter (λ lease, le_expires_at lease ≤ now) (hm_values (leases s)).

(** [leases.retain(|_, lease| lease.key != key)] *)
Definition retain_other_keys (key : string) (ls : gmap Z LeaseEntry) : gmap Z LeaseEntry :=
  filter (λ kv, le_key kv.2 ≠ key) ls.

(** One round of the loop over [expired_keys]. *)
Definition drop_key (s : OwnershipState) (key : string) : OwnershipState :=
  with_leases s (retain_other_keys key (leases s)) (delete key (key_leases s))
    (next_lease_id s).

Definition apply_expire (now : Z) (s : OwnershipState) : OwnershipState :=
  fold_left drop_key (expired_keys now s) s.

(** ** [OwnershipState::apply] *)
Definition apply (cmd : OwnershipCommand) (s : OwnershipState) : OwnershipState :=
  match cmd with
  | ClaimTopic topic node_id _ => apply_claim topic node_id s
  | ReleaseTopic topic node_id => apply_release topic node_id s
  | TransferTopic topic from_node to_node => apply_transfer topic from_node to_node s
  | AcquireLease key owner lease_id ttl_secs timestamp =>
      apply_acquire key owner lease_id ttl_secs timestamp s
  | RenewLease lease_id timestamp => apply_renew lease_id timestamp s
  | ReleaseLease key => apply_release_lease key s
  | ExpireLeases now => apply_expire now s
  end.

(** ** Queries and helper methods *)

Definition get_owner (s : OwnershipState) (topic : string) : option NodeId :=
  ownership s !! topic.

Definition owns (s : OwnershipState) (topic : string) (node_id : NodeId) : bool :=
  bool_decide (ownership s !! topic = Some node_id).

Definition get_node_topics (s : OwnershipState) (node_id : NodeId) : list string :=
  default [] (node_topics s !! node_id).

Definition topic_count (s : OwnershipState) : nat := size (ownership s).

Definition get_lease_info (s : OwnershipState) (key : string) : option LeaseInfo :=
  lease_id ← key_leases s !! key;
  lease ← leases s !! lease_id;
  Some (LeaseInfo_from lease).

Definition list_leases (s : OwnershipState) (owner : NodeId) : list LeaseInfo :=
  LeaseInfo_from <$> filter (λ lease, le_owner lease = owner) (hm_values (leases s)).

Definition is_lease_valid (s : OwnershipState) (lease_id now : Z) : bool :=
  default false ((λ lease, bool_decide (now < le_expires_at lease)) <$> leases s !! lease_id).

(** [expire_leases]: the same loop as the command, and the count. *)
Definition expire_leases (now : Z) (s : OwnershipState) : nat * OwnershipState :=
  let keys := expired_keys now s in (length keys, fold_left drop_key keys s).

Definition get_lease (s : OwnershipState) (lease_id : Z) : option LeaseEntry :=
  leases s !! lease_id.

Definition lease_count (s : OwnershipState) : nat := size (leases s).

(** [next_lease_id]: hand out the counter and bump it. *)
Definition take_lease_id (s : OwnershipState) : Z * OwnershipState :=
  (next_lease_id s,
   with_leases s (leases s) (key_leases s) (u64_add (next_lease_id s) 1)).

Definition acquire_lease (key : string) (owner : NodeId) (ttl_secs timestamp : Z)
    (s : OwnershipState) : result LeaseError Z * OwnershipState :=
  match held_lease s key timestamp with
  | Some existing => (Err (LeaseHeld key (le_owner existing)), s)
  | None =>
      let '(lease_id, s1) := take_lease_id s in
      let lease := mkLease lease_id key owner timestamp ttl_secs
                     (lease_deadline timestamp ttl_secs) in
      (Ok lease_id,
       with_leases s1 (<[lease_id := lease]> (leases s1)) (<[key := lease_id]> (key_leases s1))
         (next_lease_id s1))
  end.

Definition query (s : OwnershipState) (q : OwnershipQuery) : OwnershipResponse :=
  match q with
  | GetOwner topic => ROwner topic (ownership s !! topic)
  | ListTopics node_id => RTopics (default [] (node_topics s !! node_id))
  | ListAll => RAll (ownership s)
  | GetLeaseOwner key => RLeaseOwner key (get_lease_info s key)
  | ListLeases owner => RLeases (list_leases s owner)
  | GetLease lease_id => RLeaseResult (leases s !! lease_id) None
  end.

(** ** [impl Validate for OwnershipState] *)

(** A loop over a collection that returns at the first error. *)
Fixpoint check_all {A} (check : A → result ValidationError unit) (l : list A) :
    result ValidationError unit :=
  match l with
  | [] => Ok tt
  | x :: l => check x ≫= λ _, check_all check l
  end.

Definition check_key_lease (s : OwnershipState) (kv : string * Z) :=
  if decide (is_Some (leases s !! kv.2)) then Ok tt else Err OrphanedKeyLease.

Definition check_lease_tracked (s : OwnershipState) (kv : Z * LeaseEntry) :=
  match key_leases s !! le_key kv.2 with
  | Some mapped_id =>
      if decide (mapped_id = kv.1) then Ok tt else Err LeaseIdInconsistency
  | None => Err DanglingLease
  end.

Definition check_lease_deadline (kv : Z * LeaseEntry) :=
  if decide (le_expires_at kv.2 = lease_deadline (le_acquired_at kv.2) (le_ttl_secs kv.2))
  then Ok tt else Err InvalidLeaseExpiration.

Definition check_owner_lists (s : OwnershipState) (kv : string * NodeId) :=
  match node_topics s !! kv.2 with
  | Some topics =>
      if decide (kv.1 ∈ topics) then Ok tt
      else Err (Custom ("Topic " +:+ kv.1 +:+ " owned by " +:+ pretty kv.2 +:+
                        " not in owner's topic list"))
  | None => Err (Custom ("Owner " +:+ pretty kv.2 +:+
                         " has no topic list but owns topic " +:+ kv.1))
  end.

Definition check_listed_topic (s : OwnershipState) (node_id : NodeId) (topic : string) :=
  match ownership s !! topic with
  | Some owner =>
      if decide (owner = node_id) then Ok tt
      else Err (Custom ("Topic " +:+ topic +:+ " in node " +:+ pretty node_id +:+
                        "'s list but owned by " +:+ pretty owner))
  | None => Err (Custom ("Topic " +:+ topic +:+ " in node " +:+ pretty node_id +:+
                         "'s list but has no owner"))
  end.

Definition check_node_topics (s : OwnershipState) (kv : NodeId * list string) :=
  check_all (check_listed_topic s kv.1) kv.2.

#[export] Instance OwnershipState_validate : Validate OwnershipState := λ s,
  _ ← check_all (check_key_lease s) (hm_iter (key_leases s));
  _ ← check_all (check_lease_tracked s) (hm_iter (leases s));
  _ ← check_all check_lease_deadline (hm_iter (leases s));
  _ ← check_all (check_owner_lists s) (hm_iter (ownership s));
  check_all (check_node_topics s) (hm_iter (node_topics s)).
End iteration.

(** Applying the committed commands of a log in order. *)
Definition replay `{HashOrder} (cmds : list OwnershipCommand) (s : OwnershipState) :=
  fold_left (λ s cmd, apply cmd s) cmds s.
