(* ===== verification/OwnershipTopics.v ===== *)
(** * Topic ownership: index invariant and refinement

    Properties of the topic half of the ownership state machine: the two maps
    [ownership] and [node_topics] stay inverse to each other, and the machine
    implements a plain map from topics to owners. *)

From S2P Require Import Prelude LockUtils Ownership.
#[local] Open Scope Z_scope.

(** The topic lists are duplicate free and list exactly the owned topics. *)
Record index_ok (s : OwnershipState) : Prop := {
  index_NoDup : ∀ n, NoDup (get_node_topics s n);
  index_iff : ∀ t n, t ∈ get_node_topics s n ↔ get_owner s t = Some n;
}.

(** ** Abstract specification: a map from topics to owners *)

Definition spec_apply (cmd : OwnershipCommand) (m : gmap string NodeId) : gmap string NodeId :=
  match cmd with
  | ClaimTopic t n _ => <[t := n]> m
  | ReleaseTopic t n => if decide (m !! t = Some n) then delete t m else m
  | TransferTopic t n n' => if decide (m !! t = Some n) then <[t := n']> m else m
  | _ => m
  end.

Definition spec_replay (cmds : list OwnershipCommand) (m : gmap string NodeId) :=
  fold_left (λ m cmd, spec_apply cmd m) cmds m.

(** The topics a node owns in the abstract map. *)
Definition spec_topics (m : gmap string NodeId) (n : NodeId) : gset string :=
  dom (filter (λ kv, kv.2 = n) m).

Lemma elem_of_spec_topics m n t : t ∈ spec_topics m n ↔ m !! t = Some n.
Proof.
  unfold spec_topics. rewrite elem_of_dom. unfold is_Some.
  setoid_rewrite map_lookup_filter_Some. naive_solver.
Qed.

(** ** Lists of topics per node after the two updates *)

Abbreviation topics_in nt n := (default [] (nt !! n)).

Lemma topics_in_drop nt n t m :
  topics_in (drop_topic n t nt) m =
  if decide (m = n) then retain_ne t (topics_in nt n) else topics_in nt m.
Proof.
  unfold drop_topic. case_decide as Hm; [subst|by rewrite lookup_alter_ne].
  rewrite lookup_alter_eq. by destruct (nt !! n).
Qed.

Lemma topics_in_push nt n t m :
  topics_in (push_topic n t nt) m =
  if decide (m = n) then topics_in nt n ++ [t] else topics_in nt m.
Proof.
  unfold push_topic. case_decide as Hm; [subst|by rewrite lookup_insert_ne].
  by rewrite lookup_insert_eq.
Qed.

Lemma NoDup_snoc_fresh {A} (l : list A) x : NoDup l → x ∉ l → NoDup (l ++ [x]).
Proof.
  intros Hl Hx. apply NoDup_app. split_and!; [done| |apply NoDup_singleton].
  intros y Hy ->%list_elem_of_singleton. done.
Qed.

(** The state after the topic lists and the owner map were updated. *)
Lemma index_ok_intro o nt ls ks next :
  (∀ n, NoDup (topics_in nt n)) → (∀ t n, t ∈ topics_in nt n ↔ o !! t = Some n) →
  index_ok (mkState o nt ls ks next).
Proof. intros H1 H2. split; [exact H1|exact H2]. Qed.

(** Dropping [t] from its owner's list and appending it to [n]'s: the move all
    topic commands are made of. *)
Lemma index_ok_move s t n :
  index_ok s →
  index_ok (with_topics s (<[t := n]> (ownership s))
    (push_topic n t (match ownership s !! t with
                     | Some prev => drop_topic prev t (node_topics s)
                     | None => node_topics s end))).
Proof.
  intros [Hnd Hiff]. unfold get_node_topics, get_owner in *. destruct s as [o nt ls ks nx].
  simpl in *. set (nt' := match o !! t with Some p => drop_topic p t nt | None => nt end).
  assert (Hnd' : ∀ m, NoDup (topics_in nt' m)).
  { intros m. unfold nt'. destruct (o !! t) as [p|]; [|done].
    rewrite topics_in_drop. case_decide; eauto with ddl. }
  assert (Hiff' : ∀ u m, u ∈ topics_in nt' m ↔ u ≠ t ∧ o !! u = Some m).
  { intros u m. unfold nt'. destruct (o !! t) as [p|] eqn:Hp.
    - rewrite topics_in_drop. case_decide; subst.
      + rewrite elem_of_retain_ne, Hiff. naive_solver.
      + rewrite Hiff. naive_solver.
    - rewrite Hiff. naive_solver. }
  apply index_ok_intro; simpl.
  - intros m. rewrite topics_in_push. case_decide as Hm; [subst|done].
    apply NoDup_snoc_fresh; [done|]. rewrite Hiff'. naive_solver.
  - intros u m. rewrite topics_in_push. map_cases u t.
    + case_decide; subst.
      * rewrite elem_of_app. set_solver.
      * rewrite Hiff'. naive_solver.
    + case_decide; subst; rewrite ?elem_of_app, Hiff'; set_solver.
Qed.

Lemma index_ok_release s t n :
  index_ok s → index_ok (apply_release t n s).
Proof.
  intros Hs. unfold apply_release. case_decide as Ho; [|done].
  destruct Hs as [Hnd Hiff]. unfold get_node_topics, get_owner in *.
  destruct s as [o nt ls ks nx]. apply index_ok_intro; simpl in *.
  - intros m. rewrite topics_in_drop. case_decide; eauto with ddl.
  - intros u m. rewrite topics_in_drop. case_decide; subst.
    + rewrite elem_of_retain_ne, Hiff. map_cases u t; naive_solver.
    + rewrite Hiff. map_cases u t; naive_solver.
Qed.

(** A state whose topic maps are those of an [index_ok] state. *)
Lemma index_ok_same s s' :
  ownership s' = ownership s → node_topics s' = node_topics s → index_ok s → index_ok s'.
Proof.
  intros Ho Hn [H1 H2]. unfold get_node_topics, get_owner in *.
  split; unfold get_node_topics, get_owner; by rewrite ?Ho, ?Hn.
Qed.

Section topics.
Context `{HashOrder}.

Lemma drop_keys_topics ks s :
  ownership (fold_left drop_key ks s) = ownership s ∧
  node_topics (fold_left drop_key ks s) = node_topics s.
Proof. revert s. induction ks as [|k ks IH]; intros s; [done|]. apply (IH (drop_key s k)). Qed.

(** The lease commands leave the topic maps alone. *)
Definition is_topic_cmd (cmd : OwnershipCommand) : bool :=
  match cmd with ClaimTopic _ _ _ | ReleaseTopic _ _ | TransferTopic _ _ _ => true | _ => false end.

Lemma lease_cmd_topics cmd s :
  is_topic_cmd cmd = false →
  ownership (apply cmd s) = ownership s ∧ node_topics (apply cmd s) = node_topics s.
Proof.
  destruct cmd; simpl; try done; intros _.
  - unfold apply_acquire. by destruct (held_lease _ _ _).
  - unfold apply_release_lease. by destruct (key_leases s !! key).
  - apply drop_keys_topics.
Qed.

Lemma apply_index_ok cmd s : index_ok s → index_ok (apply cmd s).
Proof.
  intros Hs. destruct (is_topic_cmd cmd) eqn:Hc.
  - destruct cmd; simplify_eq/=.
    + by apply index_ok_move.
    + by apply index_ok_release.
    + unfold apply_transfer. case_decide as Ho; [|done].
      pose proof (index_ok_move s topic to_node Hs) as Hm. by rewrite Ho in Hm.
  - destruct (lease_cmd_topics cmd s Hc). by apply (index_ok_same s).
Qed.

Lemma new_index_ok : index_ok new.
Proof. apply index_ok_intro; [intros; constructor|]. intros. simpl. set_solver. Qed.

Lemma replay_app cmds1 cmds2 s :
  replay (cmds1 ++ cmds2) s = replay cmds2 (replay cmds1 s).
Proof. unfold replay. by rewrite fold_left_app. Qed.

(** A property of states that every command preserves holds after any log. *)
Lemma replay_invariant (P : OwnershipState → Prop) cmds s :
  (∀ cmd s, P s → P (apply cmd s)) → P s → P (replay cmds s).
Proof.
  intros Hstep. unfold replay. revert s.
  induction cmds as [|cmd cmds IH]; intros s Hs; [done|]. apply IH, Hstep, Hs.
Qed.

Lemma apply_refines cmd s : ownership (apply cmd s) = spec_apply cmd (ownership s).
Proof.
  destruct (is_topic_cmd cmd) eqn:Hc.
  - destruct cmd; simplify_eq/=; try done; unfold apply_release, apply_transfer;
      by case_decide.
  - destruct (lease_cmd_topics cmd s Hc) as [-> _]. by destruct cmd.
Qed.

Lemma replay_refines cmds s :
  ownership (replay cmds s) = spec_replay cmds (ownership s).
Proof.
  unfold replay, spec_replay. revert s.
  induction cmds as [|cmd cmds IH]; intros s; simpl; [done|]. by rewrite IH, apply_refines.
Qed.

(** ** Properties *)

(** C6: after any committed log, in whatever order its hash maps are iterated,
    the reverse index [node_topics] lists, without duplicates, exactly the
    topics [ownership] maps to the node; the two never disagree. *)
Theorem replay_index_ok (cmds : list OwnershipCommand) : index_ok (replay cmds new).
Proof. apply replay_invariant; [exact apply_index_ok|exact new_index_ok]. Qed.

(** C5: the state machine implements the abstract map from topics to owners:
    after any log, [GetOwner] and [ListAll] answer from the map the abstract
    machine computes, [ListTopics] answers a duplicate-free enumeration of the
    topics the map gives the node, and [topic_count] is the map's size. *)
Theorem topics_refinement (cmds : list OwnershipCommand) (t : string) (n : NodeId) :
  let s := replay cmds new in
  let m := spec_replay cmds ∅ in
  query s (GetOwner t) = ROwner t (m !! t) ∧
  query s ListAll = RAll m ∧
  (∃ ts, query s (ListTopics n) = RTopics ts ∧ ts ≡ₚ elements (spec_topics m n)) ∧
  topic_count s = size m ∧
  owns s t n = bool_decide (m !! t = Some n).
Proof.
  intros s m. assert (Hm : ownership s = m) by apply (replay_refines cmds new).
  assert (index_ok s) as [Hnd Hiff]
    by (apply replay_invariant; [exact apply_index_ok|exact new_index_ok]).
  unfold query, topic_count, owns. rewrite Hm. split_and!; try done.
  exists (get_node_topics s n). split; [done|].
  apply NoDup_Permutation; [apply Hnd|apply NoDup_elements|].
  intros u. rewrite elem_of_elements, elem_of_spec_topics, Hiff. unfold get_owner. by rewrite Hm.
Qed.

(** A topic changes hands only as asked: after a command the owner of a
    topic is the claimer if it was claimed, the target if its owner
    transferred it, nobody if its owner released it, and otherwise who it was
    before; a release or a transfer by a node that is not the owner does
    nothing. *)
Theorem apply_owner (cmd : OwnershipCommand) (s : OwnershipState) (t : string) :
  get_owner (apply cmd s) t =
    match cmd with
    | ClaimTopic t' n _ => if decide (t' = t) then Some n else get_owner s t
    | ReleaseTopic t' n =>
        if decide (t' = t ∧ get_owner s t = Some n) then None else get_owner s t
    | TransferTopic t' n n' =>
        if decide (t' = t ∧ get_owner s t = Some n) then Some n' else get_owner s t
    | _ => get_owner s t
    end.
Proof.
  unfold get_owner. rewrite apply_refines.
  destruct cmd; simpl; repeat case_decide; destruct_and?; simplify_eq;
    rewrite ?lookup_insert_eq, ?lookup_delete_eq; try done;
    rewrite ?lookup_insert_ne, ?lookup_delete_ne by naive_solver; try done; naive_solver.
Qed.
End topics.
