(* ===== verification/Leases.v ===== *)
(** * Leases: exclusion, expiry, determinism and validation

    Properties of the lease half of the ownership state machine
    (src/cluster/ownership_machine.rs). *)

From S2P Require Import Prelude LockUtils Ownership OwnershipTopics.
#[local] Open Scope Z_scope.

(** ** Expiry, characterised without the loop *)

(** Some entry of [key] has a deadline that is past. *)
Definition key_expired (now : Z) (s : OwnershipState) (key : string) : Prop :=
  ∃ i l, leases s !! i = Some l ∧ le_key l = key ∧ le_expires_at l ≤ now.

Section expiry.
Context `{HashOrder}.

Lemma elem_of_expired_keys now s key : key ∈ expired_keys now s ↔ key_expired now s key.
Proof.
  unfold expired_keys, key_expired. rewrite list_elem_of_fmap. split.
  - intros (l & -> & [Hexp Hin]%list_elem_of_filter).
    apply elem_of_hm_values in Hin as [i Hi]. eauto.
  - intros (i & l & Hi & <- & Hexp). exists l. split; [done|].
    apply list_elem_of_filter. split; [done|]. apply elem_of_hm_values. eauto.
Qed.

Lemma drop_keys_leases ks s i :
  leases (fold_left drop_key ks s) !! i =
  l ← leases s !! i; if decide (le_key l ∈ ks) then None else Some l.
Proof.
  revert s. induction ks as [|k ks IH]; intros s; simpl.
  { by destruct (leases s !! i). }
  rewrite IH. unfold drop_key, retain_other_keys, with_leases; simpl.
  rewrite map_lookup_filter. destruct (leases s !! i) as [l|]; simpl; [|done].
  destruct (decide (le_key l = k)) as [Hk|Hk].
  - rewrite option_guard_False by (simpl; tauto). simpl. by rewrite decide_True by set_solver.
  - rewrite option_guard_True by done. simpl. apply decide_ext. set_solver.
Qed.

Lemma drop_keys_key_leases ks s k :
  key_leases (fold_left drop_key ks s) !! k =
  if decide (k ∈ ks) then None else key_leases s !! k.
Proof.
  rewrite <- lookup_delete_keys. unfold delete_keys. revert s.
  induction ks as [|k' ks IH]; intros s; simpl; [done|]. by rewrite IH.
Qed.

Lemma drop_keys_next ks s : next_lease_id (fold_left drop_key ks s) = next_lease_id s.
Proof. revert s. induction ks as [|k ks IH]; intros s; simpl; [done|]. by rewrite IH. Qed.

Lemma expire_leases_Some now s i l :
  leases (apply_expire now s) !! i = Some l ↔
  leases s !! i = Some l ∧ ¬ key_expired now s (le_key l).
Proof.
  unfold apply_expire. rewrite drop_keys_leases, <- elem_of_expired_keys.
  destruct (leases s !! i) as [l'|]; simpl; [|naive_solver]. case_decide; naive_solver.
Qed.

Lemma expire_key_leases_Some now s k i :
  key_leases (apply_expire now s) !! k = Some i ↔
  key_leases s !! k = Some i ∧ ¬ key_expired now s k.
Proof.
  unfold apply_expire. rewrite drop_keys_key_leases, <- elem_of_expired_keys.
  case_decide; naive_solver.
Qed.

(** Expiry leaves no past deadline behind, so a second pass finds nothing. *)
Lemma expire_none_left now s k : ¬ key_expired now (apply_expire now s) k.
Proof.
  intros (i & l & [Hi Hn]%expire_leases_Some & <- & Hexp). apply Hn. exists i, l. done.
Qed.

Lemma expired_keys_after now s : expired_keys now (apply_expire now s) = [].
Proof.
  destruct (expired_keys now (apply_expire now s)) as [|k ks] eqn:Hks; [done|].
  exfalso. apply (expire_none_left now s k). rewrite <- elem_of_expired_keys, Hks. left.
Qed.

Lemma expire_leases_after now s : (expire_leases now (apply_expire now s)).1 = 0%nat.
Proof. unfold expire_leases. by rewrite expired_keys_after. Qed.
End expiry.

Lemma state_ext s1 s2 :
  ownership s1 = ownership s2 → node_topics s1 = node_topics s2 →
  leases s1 = leases s2 → key_leases s1 = key_leases s2 →
  next_lease_id s1 = next_lease_id s2 → s1 = s2.
Proof. destruct s1, s2; simpl; by intros -> -> -> -> ->. Qed.

(** Two hash orders compute the same state. *)
Lemma apply_expire_order (O1 O2 : HashOrder) now s :
  @apply_expire O1 now s = @apply_expire O2 now s.
Proof.
  apply state_ext.
  1-2: unfold apply_expire; by rewrite ?(proj1 (drop_keys_topics _ _)),
         ?(proj2 (drop_keys_topics _ _)).
  - apply map_eq; intros i. apply option_eq; intros l. by rewrite !expire_leases_Some.
  - apply map_eq; intros i. apply option_eq; intros l. by rewrite !expire_key_leases_Some.
  - unfold apply_expire. by rewrite !drop_keys_next.
Qed.

Lemma apply_order (O1 O2 : HashOrder) cmd s : @apply O1 cmd s = @apply O2 cmd s.
Proof. destruct cmd; simpl; try done. apply apply_expire_order. Qed.

(** C15: replicas agree. Two replicas that apply the same committed log from the
    same state reach the same state, although each iterates its hash maps in
    an order of its own. *)
Theorem replay_deterministic (O1 O2 : HashOrder) (cmds : list OwnershipCommand)
    (s : OwnershipState) :
  @replay O1 cmds s = @replay O2 cmds s.
Proof.
  unfold replay. revert s. induction cmds as [|cmd cmds IH]; intros s; simpl; [done|].
  by rewrite (apply_order O1 O2), IH.
Qed.

(** ** The lease index *)

(** Entries sit under their own id below the counter, and a key maps to an
    entry of that key. *)
Record lease_index_ok (s : OwnershipState) : Prop := {
  lease_id_ok : ∀ i l, leases s !! i = Some l → le_id l = i ∧ i < next_lease_id s;
  key_lease_ok : ∀ k i, key_leases s !! k = Some i → ∃ l, leases s !! i = Some l ∧ le_key l = k;
}.

(** A lease id the counter has not handed out, with room to count past it. *)
Definition fresh_cmd (s : OwnershipState) (cmd : OwnershipCommand) : Prop :=
  match cmd with
  | AcquireLease _ _ lease_id _ _ => next_lease_id s ≤ lease_id < U64_MAX ∧ 0 ≤ lease_id
  | _ => True
  end.

Section index.
Context `{HashOrder}.

Fixpoint fresh_log (s : OwnershipState) (cmds : list OwnershipCommand) : Prop :=
  match cmds with
  | [] => True
  | cmd :: cmds => fresh_cmd s cmd ∧ fresh_log (apply cmd s) cmds
  end.

Lemma acquire_index_ok key owner id ttl ts s :
  next_lease_id s ≤ id < U64_MAX → 0 ≤ id → lease_index_ok s →
  lease_index_ok (apply_acquire key owner id ttl ts s).
Proof.
  intros Hid Hpos [Hl Hk]. unfold apply_acquire. destruct (held_lease s key ts); [by split|].
  rewrite bool_decide_true by lia.
  rewrite u64_add_small by (unfold u64_ok, U64_MAX in *; lia).
  split; simpl.
  - intros i l. map_cases i id.
    + intros [= <-]. simpl. lia.
    + intros [? ?]%Hl. lia.
  - intros k i. map_cases k key.
    + intros [= <-]. rewrite lookup_insert_eq. eauto.
    + intros (l & Hi & <-)%Hk. exists l. split; [|done].
      rewrite lookup_insert_ne; [done|]. apply Hl in Hi. lia.
Qed.

Lemma renew_index_ok id ts s : lease_index_ok s → lease_index_ok (apply_renew id ts s).
Proof.
  intros [Hl Hk].
  assert (Hr : ∀ l, le_id (renewed ts l) = le_id l ∧ le_key (renewed ts l) = le_key l).
  { intros l. unfold renewed. by case_bool_decide. }
  split; simpl.
  - intros i l. map_cases i id.
    + intros (l' & Hl' & ->)%fmap_Some. rewrite (proj1 (Hr l')). by apply Hl.
    + apply Hl.
  - intros k i (l & Hi & <-)%Hk. map_cases i id.
    + exists (renewed ts l). rewrite Hi. simpl. split; [done|apply Hr].
    + eauto.
Qed.

Lemma release_lease_index_ok key s :
  lease_index_ok s → lease_index_ok (apply_release_lease key s).
Proof.
  intros [Hl Hk]. unfold apply_release_lease.
  destruct (key_leases s !! key) as [id|] eqn:Hid; [|by split].
  split; simpl.
  - intros i l [_ Hi]%lookup_delete_Some. by apply Hl.
  - intros k i [Hne Hi]%lookup_delete_Some. destruct (Hk _ _ Hi) as (l & Hli & <-).
    exists l. split; [|done]. rewrite lookup_delete_ne; [done|].
    intros ->. apply Hk in Hid as (l' & ? & ?). simplify_eq.
Qed.

Lemma expire_index_ok now s : lease_index_ok s → lease_index_ok (apply_expire now s).
Proof.
  intros [Hl Hk]. split.
  - intros i l [Hi _]%expire_leases_Some. unfold apply_expire. rewrite drop_keys_next.
    by apply Hl.
  - intros k i [Hi Hn]%expire_key_leases_Some. apply Hk in Hi as (l & Hli & <-).
    exists l. split; [|done]. by apply expire_leases_Some.
Qed.

Lemma apply_lease_index cmd s :
  fresh_cmd s cmd → lease_index_ok s → lease_index_ok (apply cmd s).
Proof.
  intros Hf Hs. destruct cmd; simpl in *.
  - destruct Hs; by split.
  - unfold apply_release. case_decide; [destruct Hs; by split|done].
  - unfold apply_transfer. case_decide; [destruct Hs; by split|done].
  - destruct Hf. by apply acquire_index_ok.
  - by apply renew_index_ok.
  - by apply release_lease_index_ok.
  - by apply expire_index_ok.
Qed.

Lemma replay_lease_index cmds s :
  fresh_log s cmds → lease_index_ok s → lease_index_ok (replay cmds s).
Proof.
  revert s. induction cmds as [|cmd cmds IH]; intros s; simpl; [done|].
  intros [Hf Hfs] Hs. apply (IH (apply cmd s)); [done|]. by apply apply_lease_index.
Qed.

Lemma new_lease_index : lease_index_ok new.
Proof. split; intros ?? Hl; simpl in Hl; by rewrite lookup_empty in Hl. Qed.

(** After any log in which every lease is acquired under an id the counter
    has not handed out, each key of the index leads to a lease entry of that
    very key, each entry is stored under its own id, and the counter is above
    every stored id. *)
Theorem fresh_log_lease_index (cmds : list OwnershipCommand) :
  fresh_log new cmds → lease_index_ok (replay cmds new).
Proof. intros Hf. apply replay_lease_index; [done|apply new_lease_index]. Qed.
End index.

Lemma fresh_log_lease_index_witness :
  lease_index_ok (@replay canonical_order
    [AcquireLease "k" 1 0 10 5; AcquireLease "j" 2 1 10 6; RenewLease 0 7;
     ReleaseLease "j"; ExpireLeases 8] new).
Proof.
  apply (@fresh_log_lease_index canonical_order). simpl.
  split_and!; try done; vm_compute; congruence.
Defined.

(** ** Exclusion *)

(** Node [owner] holds [key] under lease [id] at least until [deadline]: the
    index leads to its entry, no other entry has that key, and a renewal from
    [now] on does not shorten it. *)
Record holds (s : OwnershipState) (key : string) (id : Z) (owner : NodeId)
    (now deadline : Z) : Prop := {
  holds_key : key_leases s !! key = Some id;
  holds_entry : ∃ l, leases s !! id = Some l ∧ le_key l = key ∧ le_owner l = owner ∧
    deadline ≤ le_expires_at l ∧ deadline ≤ lease_deadline now (le_ttl_secs l);
  holds_unique : ∀ i l, leases s !! i = Some l → le_key l = key → i = id;
}.

(** Commands issued between [now] and [deadline] by parties that respect the
    lease: they do not release the key and do not reuse the lease id. *)
Definition respects (key : string) (id now deadline : Z) (cmd : OwnershipCommand) : Prop :=
  match cmd with
  | AcquireLease _ _ lease_id _ ts => lease_id ≠ id ∧ now ≤ ts < deadline
  | RenewLease _ ts => now ≤ ts < deadline
  | ReleaseLease k => k ≠ key
  | ExpireLeases ts => ts < deadline
  | _ => True
  end.

Lemma lease_deadline_mono t1 t2 ttl : t1 ≤ t2 → lease_deadline t1 ttl ≤ lease_deadline t2 ttl.
Proof. unfold lease_deadline, saturating_add. lia. Qed.

Section exclusion.
Context `{HashOrder}.

Lemma holds_held s key id owner now deadline ts :
  holds s key id owner now deadline → ts < deadline →
  ∃ l, held_lease s key ts = Some l ∧ leases s !! id = Some l ∧ le_owner l = owner.
Proof.
  intros [Hk (l & Hl & Hkey & Ho & Hd & _) _] Hts. exists l.
  unfold held_lease. rewrite Hk; simpl. rewrite Hl; simpl.
  by rewrite bool_decide_true by lia.
Qed.

Lemma holds_acquire s key id owner now deadline k o i ttl ts :
  holds s key id owner now deadline → i ≠ id → ts < deadline →
  holds (apply_acquire k o i ttl ts s) key id owner now deadline.
Proof.
  intros Hh Hi Hts. destruct (decide (k = key)) as [->|Hk].
  { destruct (holds_held _ _ _ _ _ _ ts Hh Hts) as (l & Hl & _).
    unfold apply_acquire. by rewrite Hl. }
  unfold apply_acquire. destruct (held_lease s k ts); [done|].
  destruct Hh as [H1 (l & H2 & Hrest) H3]. split; simpl.
  - by rewrite lookup_insert_ne.
  - exists l. by rewrite lookup_insert_ne.
  - intros j l'. map_cases j i; [|apply H3]. intros [= <-] Heq. done.
Qed.

Lemma holds_renew s key id owner now deadline i ts :
  holds s key id owner now deadline → now ≤ ts < deadline →
  holds (apply_renew i ts s) key id owner now deadline.
Proof.
  intros [H1 (l & H2 & Hkey & Ho & Hd & Hr) H3] Hts. split; simpl.
  - done.
  - map_cases i id; [|by eauto 10].
    exists (renewed ts l). rewrite H2; simpl. split; [done|].
    pose proof (lease_deadline_mono now ts (le_ttl_secs l) ltac:(lia)).
    unfold renewed. case_bool_decide; simpl; split_and!; try done; lia.
  - intros j l'. map_cases j i; [|apply H3].
    intros (l0 & Hl0 & ->)%fmap_Some Hk. apply (H3 i l0 Hl0). revert Hk.
    unfold renewed. by case_bool_decide.
Qed.

Lemma holds_expire s key id owner now deadline ts :
  holds s key id owner now deadline → ts < deadline →
  holds (apply_expire ts s) key id owner now deadline.
Proof.
  intros [H1 (l & H2 & Hkey & Ho & Hd & Hr) H3] Hts.
  assert (¬ key_expired ts s key).
  { intros (j & l' & Hj & Hk & Hexp). pose proof (H3 _ _ Hj Hk) as ->. simplify_eq. lia. }
  split.
  - by apply expire_key_leases_Some.
  - exists l. split_and!; try done. apply expire_leases_Some. by rewrite Hkey.
  - intros j l' [Hj _]%expire_leases_Some. by apply H3.
Qed.

Lemma holds_release s key id owner now deadline k :
  holds s key id owner now deadline → k ≠ key →
  (∀ k' j, key_leases s !! k' = Some j → ∃ l, leases s !! j = Some l ∧ le_key l = k') →
  holds (apply_release_lease k s) key id owner now deadline.
Proof.
  intros [H1 (l & H2 & Hkey & Hrest) H3] Hk Hix. unfold apply_release_lease.
  destruct (key_leases s !! k) as [j|] eqn:Hj; [|by split; eauto].
  split; simpl.
  - by rewrite lookup_delete_ne.
  - exists l. split; [|done]. rewrite lookup_delete_ne; [done|]. intros ->.
    apply Hix in Hj as (l' & ? & ?). simplify_eq.
  - intros i l' [_ Hi]%lookup_delete_Some. by apply H3.
Qed.

Lemma acquire_holds s key owner id ttl ts :
  held_lease s key ts = None → (∀ i l, leases s !! i = Some l → le_key l ≠ key) →
  holds (apply_acquire key owner id ttl ts s) key id owner ts (lease_deadline ts ttl).
Proof.
  intros Hheld Hno. unfold apply_acquire. rewrite Hheld. split; simpl.
  - by rewrite lookup_insert_eq.
  - eexists. rewrite lookup_insert_eq. split_and!; done.
  - intros i l. map_cases i id; [done|]. intros Hi Hk. by apply Hno in Hi.
Qed.

Lemma holds_apply s key id owner now deadline cmd :
  lease_index_ok s → holds s key id owner now deadline →
  respects key id now deadline cmd → holds (apply cmd s) key id owner now deadline.
Proof.
  intros Hix Hh Hr. destruct cmd; simpl in *.
  - destruct Hh; by split.
  - unfold apply_release. case_decide; [destruct Hh; by split|done].
  - unfold apply_transfer. case_decide; [destruct Hh; by split|done].
  - apply holds_acquire; try done; lia.
  - by apply holds_renew.
  - apply holds_release; try done. apply Hix.
  - by apply holds_expire.
Qed.

Lemma holds_replay cmds s key id owner now deadline :
  lease_index_ok s → holds s key id owner now deadline →
  fresh_log s cmds → Forall (respects key id now deadline) cmds →
  holds (replay cmds s) key id owner now deadline.
Proof.
  unfold replay. revert s. induction cmds as [|cmd cmds IH]; intros s Hix Hh Hf Hr; simpl; [done|].
  destruct Hf as [Hf Hfs]. inversion Hr; subst.
  apply IH; [by apply apply_lease_index|by apply holds_apply|done|done].
Qed.

(** C7: mutual exclusion. Once a node holds a key until [deadline], no log of
    claims, acquisitions (by anyone, of any key, under fresh ids), renewals and
    expiry passes issued before [deadline], and no release of other keys,
    takes the key away: the index still leads to that lease, its owner is
    unchanged, and every attempt to acquire the key before [deadline] leaves
    the state as it is. *)
Theorem lease_exclusive (cmds : list OwnershipCommand) (s : OwnershipState) (key : string)
    (id : Z) (owner : NodeId) (now deadline : Z) :
  lease_index_ok s → holds s key id owner now deadline →
  fresh_log s cmds → Forall (respects key id now deadline) cmds →
  let s' := replay cmds s in
  (∃ info, query s' (GetLeaseOwner key) = RLeaseOwner key (Some info) ∧
     li_id info = id ∧ li_owner info = owner ∧ deadline ≤ li_expires_at info) ∧
  (∀ o i ttl ts, ts < deadline → apply (AcquireLease key o i ttl ts) s' = s').
Proof.
  intros Hix Hh Hf Hr s'.
  assert (Hix' : lease_index_ok s') by by apply replay_lease_index.
  assert (Hh' : holds s' key id owner now deadline) by by apply holds_replay.
  split.
  - destruct Hh' as [Hk (l & Hl & Hkey & Ho & Hd & _) _].
    exists (LeaseInfo_from l). simpl. unfold get_lease_info. rewrite Hk; simpl.
    rewrite Hl; simpl. split_and!; try done. by apply (lease_id_ok _ Hix').
  - intros o i ttl ts Hts. destruct (holds_held _ _ _ _ _ _ ts Hh' Hts) as (l & Hl & _).
    simpl. unfold apply_acquire. by rewrite Hl.
Qed.

(** C13: acquiring. While some lease holds the key at [ts] the command changes
    nothing. Otherwise the key's lease is the requester's right after the command,
    until [ts + ttl * 10^9] (saturating); when no stale entry of the key is left it is
    held in the sense of [holds], which later commands respect; and when the id is
    not in use the leases of other keys are as before. *)
Theorem acquire_spec (s : OwnershipState) (key : string) (owner : NodeId) (id ttl ts : Z) :
  let s' := apply (AcquireLease key owner id ttl ts) s in
  match held_lease s key ts with
  | Some _ => s' = s
  | None =>
      get_lease_info s' key =
        Some (mkLeaseInfo id key owner ts (lease_deadline ts ttl) ttl) ∧
      ((∀ i l, leases s !! i = Some l → le_key l ≠ key) →
       holds s' key id owner ts (lease_deadline ts ttl)) ∧
      (leases s !! id = None →
       ∀ k info, k ≠ key → get_lease_info s k = Some info → get_lease_info s' k = Some info)
  end.
Proof.
  intros s'. unfold s'; simpl. unfold apply_acquire.
  destruct (held_lease s key ts) as [l|] eqn:Hheld; [done|]. split_and!.
  - unfold get_lease_info; simpl. rewrite lookup_insert_eq; simpl. by rewrite lookup_insert_eq.
  - intros Hno. pose proof (acquire_holds s key owner id ttl ts Hheld Hno) as Hh.
    unfold apply_acquire in Hh. by rewrite Hheld in Hh.
  - intros Hfr k info Hk. unfold get_lease_info; simpl. rewrite lookup_insert_ne by done.
    destruct (key_leases s !! k) as [j|]; simpl; [|done].
    map_cases j id; [by rewrite Hfr|done].
Qed.

(** The programmatic [acquire_lease] is the replicated command under the
    id the counter holds: it fails with the holder's name exactly when the key
    is held, and otherwise returns that id; in both cases the state it leaves
    is the one [apply] computes. *)
Theorem acquire_lease_is_command (s : OwnershipState) (key : string) (owner : NodeId)
    (ttl ts : Z) :
  acquire_lease key owner ttl ts s =
    (match held_lease s key ts with
     | Some l => Err (LeaseHeld key (le_owner l))
     | None => Ok (next_lease_id s)
     end,
     apply (AcquireLease key owner (next_lease_id s) ttl ts) s).
Proof.
  unfold acquire_lease; simpl. unfold apply_acquire.
  destruct (held_lease s key ts); [done|]. simpl. by rewrite bool_decide_true.
Qed.
End exclusion.

Lemma lease_exclusive_witness :
  ∃ info, @query canonical_order
    (@replay canonical_order
      [AcquireLease "k" 2 1 10 6; AcquireLease "j" 2 2 10 6; RenewLease 0 7;
       ReleaseLease "j"; ExpireLeases 8]
      (@apply canonical_order (AcquireLease "k" 1 0 10 5) new))
    (GetLeaseOwner "k") = RLeaseOwner "k" (Some info) ∧
    li_id info = 0 ∧ li_owner info = 1 ∧ 10000000005 ≤ li_expires_at info.
Proof.
  refine (proj1 (@lease_exclusive canonical_order
    [AcquireLease "k" 2 1 10 6; AcquireLease "j" 2 2 10 6; RenewLease 0 7;
       ReleaseLease "j"; ExpireLeases 8]
    (@apply canonical_order (AcquireLease "k" 1 0 10 5) new) "k" 0 1 5 10000000005 _ _ _ _)).
  - apply apply_lease_index; [simpl; vm_compute; intuition congruence|apply new_lease_index].
  - apply (acquire_holds new "k" 1 0 10 5); [done|].
    intros i l Hi. simpl in Hi. by rewrite lookup_empty in Hi.
  - simpl; split_and!; try done; vm_compute; congruence.
  - repeat constructor; simpl; try done; lia.
Defined.

(** ** Expiry passes *)

(** No two entries share a key. *)
Definition one_entry_per_key (s : OwnershipState) : Prop :=
  ∀ i j l l', leases s !! i = Some l → leases s !! j = Some l' → le_key l = le_key l' → i = j.

Section expiry_properties.
Context `{HashOrder}.

(** C14: an expiry pass at [now]. It removes the entry and the index of every
    key that has an entry whose deadline is past, and nothing else; it keeps
    topics and the id counter. When no two entries share a key, what survives
    is exactly the leases whose deadline is after [now]; and a second pass at
    the same time expires nothing. *)
Theorem expire_spec (now : Z) (s : OwnershipState) :
  let s' := apply (ExpireLeases now) s in
  (∀ i l, leases s' !! i = Some l ↔ leases s !! i = Some l ∧ ¬ key_expired now s (le_key l)) ∧
  (∀ k i, key_leases s' !! k = Some i ↔ key_leases s !! k = Some i ∧ ¬ key_expired now s k) ∧
  (one_entry_per_key s →
   ∀ i l, leases s' !! i = Some l ↔ leases s !! i = Some l ∧ now < le_expires_at l) ∧
  ownership s' = ownership s ∧ node_topics s' = node_topics s ∧
  next_lease_id s' = next_lease_id s ∧
  (expire_leases now s').1 = 0%nat.
Proof.
  intros s'. unfold s'; simpl. split_and!.
  - intros i l. apply expire_leases_Some.
  - intros k i. apply expire_key_leases_Some.
  - intros Hone i l. rewrite expire_leases_Some. split.
    + intros [Hi Hn]. split; [done|]. apply Z.nle_gt. intros Hexp. apply Hn. by exists i, l.
    + intros [Hi Hlt]. split; [done|]. intros (j & l' & Hj & Hk & Hexp).
      pose proof (Hone _ _ _ _ Hj Hi Hk). simplify_eq. lia.
  - apply drop_keys_topics.
  - apply drop_keys_topics.
  - apply drop_keys_next.
  - apply expire_leases_after.
Qed.

(** An expired entry is not cleaned up when its key is acquired again
    (the comment in [apply] says it will be), and the next expiry pass then
    removes the new lease together with the old one, although its deadline is
    still ahead. *)
Theorem stale_entry_kills_new_lease (s : OwnershipState) (key : string) (o1 o2 : NodeId)
    (i j ttl1 ttl2 t1 t2 now : Z) :
  i ≠ j → held_lease s key t1 = None →
  lease_deadline t1 ttl1 ≤ t2 → t2 ≤ now → now < lease_deadline t2 ttl2 →
  let s2 := replay [AcquireLease key o1 i ttl1 t1; AcquireLease key o2 j ttl2 t2] s in
  is_lease_valid s2 j now = true ∧
  get_lease_info s2 key = Some (mkLeaseInfo j key o2 t2 (lease_deadline t2 ttl2) ttl2) ∧
  is_lease_valid (apply (ExpireLeases now) s2) j now = false ∧
  get_lease_info (apply (ExpireLeases now) s2) key = None.
Proof.
  intros Hij Hheld Hd1 Ht Hd2 s2.
  set (l1 := mkLease i key o1 t1 ttl1 (lease_deadline t1 ttl1)).
  set (l2 := mkLease j key o2 t2 ttl2 (lease_deadline t2 ttl2)).
  assert (Hs2 : leases s2 = <[j := l2]> (<[i := l1]> (leases s)) ∧
                key_leases s2 = <[key := j]> (<[key := i]> (key_leases s))).
  { unfold s2, replay; simpl. unfold apply_acquire at 2 4. rewrite Hheld.
    unfold apply_acquire, held_lease; simpl. rewrite lookup_insert_eq; simpl.
    rewrite lookup_insert_eq; simpl. by rewrite bool_decide_false by lia. }
  clearbody s2. destruct Hs2 as [Hls Hks].
  assert (Hexp : key_expired now s2 key).
  { exists i, l1. rewrite Hls, lookup_insert_ne, lookup_insert_eq by done. split_and!; simpl; [done|done|lia]. }
  assert (Hj : leases (apply (ExpireLeases now) s2) !! j = None).
  { destruct (leases (apply _ s2) !! j) as [l|] eqn:Hl; [|done].
    apply expire_leases_Some in Hl as [Hl Hn]. rewrite Hls, lookup_insert_eq in Hl. by simplify_eq. }
  assert (Hk : key_leases (apply (ExpireLeases now) s2) !! key = None).
  { destruct (key_leases (apply _ s2) !! key) as [l|] eqn:Hl; [|done].
    by apply expire_key_leases_Some in Hl as [_ Hn]. }
  unfold is_lease_valid, get_lease_info. rewrite Hj, Hk. split_and!; try done.
  - rewrite Hls, lookup_insert_eq. simpl. by rewrite bool_decide_true.
  - rewrite Hks, lookup_insert_eq. simpl. by rewrite Hls, lookup_insert_eq.
Qed.

(** Lease ids come from the proposer, and a second acquisition under an id
    in use overwrites the first lease: the first key then resolves to the
    second key's lease and owner. *)
Theorem lease_id_collision (s : OwnershipState) (k1 k2 : string) (o1 o2 : NodeId)
    (i ttl1 ttl2 t1 t2 : Z) :
  k1 ≠ k2 → held_lease s k1 t1 = None → key_leases s !! k2 = None →
  let s2 := replay [AcquireLease k1 o1 i ttl1 t1; AcquireLease k2 o2 i ttl2 t2] s in
  get_lease_info s2 k1 = Some (mkLeaseInfo i k2 o2 t2 (lease_deadline t2 ttl2) ttl2).
Proof.
  intros Hk H1 H2. unfold replay; simpl. unfold apply_acquire at 2. rewrite H1.
  unfold apply_acquire, held_lease; simpl. rewrite lookup_insert_ne, H2 by done. simpl.
  unfold get_lease_info; simpl. rewrite lookup_insert_ne, lookup_insert_eq by done. simpl.
  by rewrite lookup_insert_eq.
Qed.
End expiry_properties.

Lemma stale_entry_kills_new_lease_witness :
  let s2 := @replay canonical_order
    [AcquireLease "k" 1 0 1 0; AcquireLease "k" 2 1 60 2000000000] new in
  is_lease_valid s2 1 3000000000 = true ∧
  get_lease_info s2 "k" = Some (mkLeaseInfo 1 "k" 2 2000000000 62000000000 60) ∧
  is_lease_valid (@apply canonical_order (ExpireLeases 3000000000) s2) 1 3000000000 = false ∧
  get_lease_info (@apply canonical_order (ExpireLeases 3000000000) s2) "k" = None.
Proof.
  apply (@stale_entry_kills_new_lease canonical_order new "k" 1 2 0 1 1 60 0 2000000000 3000000000);
    try done; vm_compute; congruence.
Defined.

Lemma lease_id_collision_witness :
  get_lease_info (@replay canonical_order
    [AcquireLease "a" 1 0 10 5; AcquireLease "b" 2 0 10 6] new) "a" =
  Some (mkLeaseInfo 0 "b" 2 6 10000000006 10).
Proof. by apply (@lease_id_collision canonical_order new "a" "b" 1 2 0 10 10 5 6). Defined.
