(* ===== verification/Validation.v ===== *)
(** * What [OwnershipState::validate] decides

    The consistency check that guards recovery from a poisoned lock
    (src/cluster/ownership_machine.rs, [impl Validate]), against the invariants
    of [OwnershipTopics] and [Leases]. *)

From S2P Require Import Prelude LockUtils Ownership OwnershipTopics Leases.
#[local] Open Scope Z_scope.

(** The conditions the five loops check. *)
Record lease_tables_ok (s : OwnershipState) : Prop := {
  tables_key : ∀ k i, key_leases s !! k = Some i → is_Some (leases s !! i);
  tables_lease : ∀ i l, leases s !! i = Some l → key_leases s !! le_key l = Some i;
  tables_deadline : ∀ i l, leases s !! i = Some l →
    le_expires_at l = lease_deadline (le_acquired_at l) (le_ttl_secs l);
}.

Definition topic_tables_ok (s : OwnershipState) : Prop :=
  ∀ t n, t ∈ get_node_topics s n ↔ get_owner s t = Some n.

(** ** Loops that stop at the first error *)

Lemma check_all_Ok {A} (check : A → result ValidationError unit) l :
  check_all check l = Ok tt ↔ ∀ x, x ∈ l → check x = Ok tt.
Proof.
  induction l as [|x l IH]; simpl; [set_solver|].
  destruct (check x) as [[]|e] eqn:Hx; simpl.
  - rewrite IH. setoid_rewrite elem_of_cons. naive_solver.
  - split; [done|]. intros Hall. specialize (Hall x ltac:(left)). congruence.
Qed.

(** The error is one the check gave on an element. *)
Lemma check_all_Err {A} (check : A → result ValidationError unit) l e :
  check_all check l = Err e → ∃ x, x ∈ l ∧ check x = Err e.
Proof.
  induction l as [|x l IH]; simpl; [done|].
  destruct (check x) as [[]|e'] eqn:Hx; simpl.
  - intros (y & Hy & He)%IH. exists y. split; [by right|done].
  - intros [= ->]. exists x. split; [left|done].
Qed.

Lemma bind_tt {E} (m m' : result E unit) :
  (_ ← m; m') = Ok tt ↔ m = Ok tt ∧ m' = Ok tt.
Proof. destruct m as [[]|]; simpl; naive_solver. Qed.

Section validation.
Context `{HashOrder}.

Lemma check_map_Ok {K V} `{Countable K} (check : K * V → result ValidationError unit)
    (m : gmap K V) :
  check_all check (hm_iter m) = Ok tt ↔ ∀ k v, m !! k = Some v → check (k, v) = Ok tt.
Proof.
  rewrite check_all_Ok. split.
  - intros Hall k v Hkv. by apply Hall, elem_of_hm_iter.
  - intros Hall [k v] Hkv%elem_of_hm_iter. by apply Hall.
Qed.

Lemma check_key_lease_Ok s k i :
  check_key_lease s (k, i) = Ok tt ↔ is_Some (leases s !! i).
Proof. unfold check_key_lease; simpl. case_decide; naive_solver. Qed.

Lemma check_lease_tracked_Ok s i l :
  check_lease_tracked s (i, l) = Ok tt ↔ key_leases s !! le_key l = Some i.
Proof. unfold check_lease_tracked; simpl. repeat case_match; naive_solver. Qed.

Lemma check_lease_deadline_Ok i l :
  check_lease_deadline (i, l) = Ok tt ↔
  le_expires_at l = lease_deadline (le_acquired_at l) (le_ttl_secs l).
Proof. unfold check_lease_deadline; simpl. case_decide; naive_solver. Qed.

Lemma check_owner_lists_Ok s t n :
  check_owner_lists s (t, n) = Ok tt ↔ t ∈ get_node_topics s n.
Proof.
  unfold check_owner_lists, get_node_topics; simpl.
  destruct (node_topics s !! n); simpl; [case_decide; naive_solver|set_solver].
Qed.

Lemma check_listed_topic_Ok s n t :
  check_listed_topic s n t = Ok tt ↔ get_owner s t = Some n.
Proof. unfold check_listed_topic, get_owner. repeat case_match; naive_solver. Qed.

Lemma validate_Ok s :
  validate s = Ok tt ↔ lease_tables_ok s ∧ topic_tables_ok s.
Proof.
  unfold validate, OwnershipState_validate. rewrite !bind_tt, !check_map_Ok.
  setoid_rewrite check_key_lease_Ok. setoid_rewrite check_lease_tracked_Ok.
  setoid_rewrite check_lease_deadline_Ok. setoid_rewrite check_owner_lists_Ok.
  assert (Hnt : ∀ n ts, check_node_topics s (n, ts) = Ok tt ↔
                        ∀ t, t ∈ ts → get_owner s t = Some n).
  { intros n ts. unfold check_node_topics; simpl. rewrite check_all_Ok.
    by setoid_rewrite check_listed_topic_Ok. }
  setoid_rewrite Hnt. split.
  - intros (H1 & H2 & H3 & H4 & H5). split; [by split|]. intros t n. split; [|apply H4].
    unfold get_node_topics. destruct (node_topics s !! n) as [ts|] eqn:Hts; simpl; [|set_solver].
    by apply H5.
  - intros [[H1 H2 H3] H4]. split_and!; try done.
    + intros t n Ho. by apply H4.
    + intros n ts Hts t Ht. apply H4. unfold get_node_topics. by rewrite Hts.
Qed.

Lemma topic_checks_Ok s :
  topic_tables_ok s →
  check_all (check_owner_lists s) (hm_iter (ownership s)) = Ok tt ∧
  check_all (check_node_topics s) (hm_iter (node_topics s)) = Ok tt.
Proof.
  intros Ht. split; apply check_map_Ok.
  - intros t n Ho. by apply check_owner_lists_Ok, Ht.
  - intros n ts Hts. apply check_all_Ok. intros t Hin. apply check_listed_topic_Ok, Ht.
    unfold get_node_topics; simpl. by rewrite Hts.
Qed.

(** ** Properties *)

(** C39: validation accepts a state exactly when its lease tables are inverse
    to each other with every deadline equal to acquisition time plus TTL, and
    the topic lists agree with the owner map; the verdict does not depend on
    the order in which the maps are iterated. *)
Theorem validate_reflects (s : OwnershipState) :
  validate s = Ok tt ↔ lease_tables_ok s ∧ topic_tables_ok s.
Proof. exact (validate_Ok s). Qed.

(** On a state any log produces, validation never reports a topic
    inconsistency: if it fails, it fails on the lease tables. *)
Theorem validate_never_blames_topics (cmds : list OwnershipCommand) (msg : string) :
  validate (replay cmds new) ≠ Err (Custom msg).
Proof.
  set (s := replay cmds new). unfold validate, OwnershipState_validate.
  assert (index_ok s) as [_ Ht]
    by (apply replay_invariant; [exact apply_index_ok|exact new_index_ok]).
  destruct (topic_checks_Ok s Ht) as [H4 H5]. rewrite H4, H5.
  assert (Hno : ∀ {A} (check : A → result ValidationError unit) l,
    (∀ x, check x ≠ Err (Custom msg)) → check_all check l ≠ Err (Custom msg)).
  { intros A check l Hc (x & _ & Hx)%check_all_Err. by apply (Hc x). }
  assert (check_all (check_key_lease s) (hm_iter (key_leases s)) ≠ Err (Custom msg))
    by (apply Hno; intros; unfold check_key_lease; by case_decide).
  assert (check_all (check_lease_tracked s) (hm_iter (leases s)) ≠ Err (Custom msg))
    by (apply Hno; intros; unfold check_lease_tracked; repeat case_match; done).
  assert (check_all check_lease_deadline (hm_iter (leases s)) ≠ Err (Custom msg))
    by (apply Hno; intros; unfold check_lease_deadline; by case_decide).
  repeat (destruct (check_all _ _) as [[]|]; simpl in *; try congruence).
Qed.

(** Renewing a live lease at a later time breaks validation: the deadline
    moves but the acquisition time does not, so a lock poisoned afterwards can
    no longer be recovered for writing. *)
Theorem renew_breaks_validation (s : OwnershipState) (i ts : Z) (l : LeaseEntry) :
  leases s !! i = Some l →
  le_acquired_at l < ts < le_expires_at l →
  lease_deadline ts (le_ttl_secs l) < U64_MAX →
  let s' := apply (RenewLease i ts) s in
  validate s' ≠ Ok tt ∧
  ∃ e, write_recover (mkLock s' true 0) =
    (Err (DataValidationFailed (ValidationError_fmt e)), mkLock s' true 1).
Proof.
  intros Hl Hts Hmax s'.
  assert (Hbad : validate s' ≠ Ok tt).
  { intros [[_ _ Hd] _]%validate_Ok.
    assert (Hl' : leases s' !! i = Some (renewed ts l)).
    { unfold s'; simpl. by rewrite lookup_alter_eq, Hl. }
    apply Hd in Hl'. revert Hl'. unfold renewed. rewrite bool_decide_true by lia. simpl.
    revert Hmax. unfold lease_deadline, saturating_add. lia. }
  split; [done|]. destruct (validate s') as [[]|e] eqn:Hv; [done|].
  exists e. unfold write_recover; simpl. unfold validated. by rewrite Hv.
Qed.
End validation.

Lemma renew_breaks_validation_witness :
  let s' := @apply canonical_order (RenewLease 0 7)
              (@apply canonical_order (AcquireLease "k" 1 0 10 5) new) in
  @validate _ (@OwnershipState_validate canonical_order) s' ≠ Ok tt.
Proof.
  refine (proj1 (@renew_breaks_validation canonical_order _ 0 7
    (mkLease 0 "k" 1 5 10 10000000005) _ _ _)); done.
Defined.
