(* ===== verification/Storage.v ===== *)
(** * Raft storage (src/cluster/storage.rs, src/cluster/types.rs)

    [AutoqueuesRaftStorage]: the Raft log, the vote and the ownership state
    machine, in memory and on disk.  A clone of the storage copies every field
    except the ownership state, the dirty flag and the flush lock, which the
    clones share; the model keeps these apart in [Shared].  The file system is
    a map from paths to contents; each file operation takes the outcome the
    system gives it.  [Membership] and [StoredMembership] are openraft's. *)

From S2P Require Import Prelude LockUtils Ownership.
#[local] Open Scope Z_scope.

(** ** Types of openraft the storage handles *)

Class Openraft : Type := {
  Membership : Type;
  StoredMembership : Type;
  stored_membership_default : StoredMembership;
}.

Record LogId := mkLogId { lid_term : Z; lid_node : Z; lid_index : Z }.
Record Vote := mkVote { v_term : Z; v_node : Z; v_committed : bool }.

#[export] Instance LogId_eq_dec : EqDecision LogId.
Proof. solve_decision. Defined.
#[export] Instance Vote_eq_dec : EqDecision Vote.
Proof. solve_decision. Defined.

(** ** Errors *)

Inductive ErrorSubject := SubjStore | SubjSnapshot | SubjLogs | SubjVote.
Inductive ErrorVerb := VerbRead | VerbWrite.
Inductive IoKind := IoWouldBlock | IoNotFound | IoInvalidData | IoOther.

(** [StorageError::from_io_error], or the panic of an [unwrap] on a poisoned
    lock or of [BTreeMap::range] on a reversed range. *)
Inductive StorageError :=
| IoError (subject : ErrorSubject) (verb : ErrorVerb) (kind : IoKind)
| Panicked.

(** ** Files *)

(** A path: directory, file stem, extension. *)
Record path := mkPath { p_dir : string; p_stem : string; p_ext : string }.

#[export] Instance path_eq_dec : EqDecision path.
Proof. solve_decision. Defined.
#[export] Instance path_countable : Countable path.
Proof.
  apply (inj_countable' (λ p, (p_dir p, p_stem p, p_ext p))
           (λ t, mkPath t.1.1 t.1.2 t.2)). by intros [].
Defined.

Definition with_extension (p : path) (e : string) : path := mkPath (p_dir p) (p_stem p) e.

Abbreviation fs := (gmap path bytes).

(** How the steps of one write end. [WDropShort n]: the buffered writer's last
    flush happens when it is dropped, where the standard library ignores
    errors; only the first [n] bytes reach the file. *)
Inductive write_outcome :=
| WOk
| WCreateFails
| WEncodeFails (written : bytes)
| WDropShort (n : nat)
| WRenameFails.

(** Write to a temporary file, then rename it over [p]. *)
Definition write_then_rename (o : write_outcome) (subject rename_subject : ErrorSubject)
    (p : path) (encoded : option bytes) (f : fs) : result StorageError unit * fs :=
  let temp := with_extension p "tmp" in
  match o, encoded with
  | WCreateFails, _ => (Err (IoError subject VerbWrite IoOther), f)
  | WEncodeFails written, _ =>
      (Err (IoError subject VerbWrite IoInvalidData), <[temp := written]> f)
  | _, None => (Err (IoError subject VerbWrite IoInvalidData), <[temp := []]> f)
  | WRenameFails, Some b =>
      (Err (IoError rename_subject VerbWrite IoOther), <[temp := b]> f)
  | WDropShort n, Some b => (Ok tt, <[p := take n b]> (delete temp f))
  | WOk, Some b => (Ok tt, <[p := b]> (delete temp f))
  end.

(** Open a file and read it to its end; [readable] is whether the system lets
    it be read. *)
Definition read_file (readable : bool) (subject : ErrorSubject) (p : path) (f : fs) :
    result StorageError bytes :=
  match f !! p with
  | Some b => if readable then Ok b else Err (IoError subject VerbRead IoOther)
  | None => Err (IoError subject VerbRead IoNotFound)
  end.

Section storage.
Context `{Openraft} `{HashOrder}.

(** ** Log entries *)

Inductive EntryPayload :=
| Blank
| Normal (cmd : OwnershipCommand)
| MembershipChange (m : Membership).

Record Entry := mkEntry { log_id : LogId; payload : EntryPayload }.

Record SerializableLogEntry := mkSLE {
  sle_index : Z;
  sle_term : Z;
  sle_leader_id : Z;
  sle_command : option OwnershipCommand;
}.

Record SerializableVote := mkSVote { sv_term : Z; sv_node_id : Z; sv_committed : bool }.

(** [impl From<&Entry<TypeConfig>> for SerializableLogEntry] *)
Definition SerializableLogEntry_from (e : Entry) : SerializableLogEntry :=
  mkSLE (lid_index (log_id e)) (lid_term (log_id e)) (lid_node (log_id e))
    (match payload e with Normal cmd => Some cmd | _ => None end).

(** [impl From<SerializableLogEntry> for Entry<TypeConfig>] *)
Definition Entry_from (se : SerializableLogEntry) : Entry :=
  mkEntry (mkLogId (sle_term se) (sle_leader_id se) (sle_index se))
    (match sle_command se with Some cmd => Normal cmd | None => Blank end).

Record SnapshotMeta := mkMeta {
  meta_last_log_id : option LogId;
  meta_membership : StoredMembership;
  meta_snapshot_id : string;
}.

Record Snapshot := mkSnapshot { snap_meta : SnapshotMeta; snap_data : bytes }.

(** ** State *)

Record AutoqueuesRaftStorage := mkStorage {
  log : gmap Z Entry;
  log_file : option path;
  vote : option Vote;
  vote_file : option path;
  last_applied : option LogId;
  committed : option (option LogId);
  snapshot_meta : option SnapshotMeta;
  snapshot : option Snapshot;
  membership : StoredMembership;
  data_file : option path;
}.

Record Shared := mkShared {
  ownership_state : RecoverableLock OwnershipState;
  dirty : bool;
}.

(** A storage handle, what its clones share, and the disk. *)
Record World := mkWorld { w_st : AutoqueuesRaftStorage; w_sh : Shared; w_fs : fs }.

Definition set_st (st : AutoqueuesRaftStorage) (w : World) := mkWorld st (w_sh w) (w_fs w).
Definition set_fs (f : fs) (w : World) := mkWorld (w_st w) (w_sh w) f.
Definition set_dirty (b : bool) (w : World) :=
  mkWorld (w_st w) (mkShared (ownership_state (w_sh w)) b) (w_fs w).
Definition set_state (s : OwnershipState) (w : World) :=
  let l := ownership_state (w_sh w) in
  mkWorld (w_st w) (mkShared (mkLock s (lock_poisoned l) (poison_count l)) (dirty (w_sh w)))
    (w_fs w).
Definition set_log (l : gmap Z Entry) (st : AutoqueuesRaftStorage) :=
  mkStorage l (log_file st) (vote st) (vote_file st) (last_applied st) (committed st)
    (snapshot_meta st) (snapshot st) (membership st) (data_file st).
Definition set_vote (v : option Vote) (st : AutoqueuesRaftStorage) :=
  mkStorage (log st) (log_file st) v (vote_file st) (last_applied st) (committed st)
    (snapshot_meta st) (snapshot st) (membership st) (data_file st).
Definition set_last_applied (i : option LogId) (st : AutoqueuesRaftStorage) :=
  mkStorage (log st) (log_file st) (vote st) (vote_file st) i (committed st)
    (snapshot_meta st) (snapshot st) (membership st) (data_file st).
Definition set_committed (c : option (option LogId)) (st : AutoqueuesRaftStorage) :=
  mkStorage (log st) (log_file st) (vote st) (vote_file st) (last_applied st) c
    (snapshot_meta st) (snapshot st) (membership st) (data_file st).
Definition set_snapshot (m : option SnapshotMeta) (s : option Snapshot)
    (st : AutoqueuesRaftStorage) :=
  mkStorage (log st) (log_file st) (vote st) (vote_file st) (last_applied st) (committed st)
    m s (membership st) (data_file st).

(** [ownership_state.read().unwrap()] and [.write().unwrap()]: both go past the
    recovery of [RecoverableLock]. *)
Definition unwrap_state (w : World) : result StorageError OwnershipState :=
  let l := ownership_state (w_sh w) in
  if lock_poisoned l then Err Panicked else Ok (lock_value l).

(** ** Construction *)

Definition storage_new : AutoqueuesRaftStorage :=
  mkStorage ∅ None None None None None None None stored_membership_default None.

Definition shared_new : Shared := mkShared (lock_new new) false.

Definition data_file_in (dir : string) : path := mkPath dir "ownership_state" "bin".
Definition log_file_in (dir : string) : path := mkPath dir "raft_log" "dat".
Definition vote_file_in (dir : string) : path := mkPath dir "vote" "dat".

Context `{!Codec OwnershipState} `{!Codec (list SerializableLogEntry)} `{!Codec SerializableVote}.

Definition decode_or {T} `{!Codec T} (subject : ErrorSubject) (b : bytes) :
    result StorageError T :=
  ok_or (dec b) (IoError subject VerbRead IoInvalidData).

Definition load_from_file (readable : bool) (p : path) (w : World) : result StorageError World :=
  buffer ← read_file readable SubjSnapshot p (w_fs w);
  if decide (buffer = []) then Ok w
  else
    state ← decode_or SubjSnapshot buffer;
    _ ← unwrap_state w;
    Ok (set_state state w).

Definition insert_entries (entries : list Entry) (l : gmap Z Entry) : gmap Z Entry :=
  fold_left (λ l e, <[lid_index (log_id e) := e]> l) entries l.

Definition load_log_from_file (readable : bool) (p : path) (w : World) :
    result StorageError World :=
  buffer ← read_file readable SubjLogs p (w_fs w);
  entries ← decode_or SubjLogs buffer;
  Ok (set_st (set_log (insert_entries (Entry_from <$> entries) (log (w_st w))) (w_st w)) w).

(** [Vote::new] followed by [commit] when the stored flag says so. *)
Definition Vote_from (sv : SerializableVote) : Vote :=
  mkVote (sv_term sv) (sv_node_id sv) (sv_committed sv).

Definition load_vote_from_file (readable : bool) (p : path) (w : World) :
    result StorageError World :=
  buffer ← read_file readable SubjVote p (w_fs w);
  vote_data ← decode_or SubjVote buffer;
  Ok (set_st (set_vote (Some (Vote_from vote_data)) (w_st w)) w).

(** [if file.exists() { load }] *)
Definition if_exists (p : path) (load : World → result StorageError World) (w : World) :
    result StorageError World :=
  if decide (is_Some (w_fs w !! p)) then load w else Ok w.

Definition with_persistence (dir_ok : bool) (readable : path → bool) (dir : string) (f : fs) :
    result StorageError World :=
  if dir_ok then
    let dp := data_file_in dir in let lp := log_file_in dir in let vp := vote_file_in dir in
    let st := mkStorage ∅ (Some lp) None (Some vp) None None None None
                stored_membership_default (Some dp) in
    w ← if_exists dp (load_from_file (readable dp) dp) (mkWorld st shared_new f);
    w ← if_exists lp (load_log_from_file (readable lp) lp) w;
    if_exists vp (load_vote_from_file (readable vp) vp) w
  else Err (IoError SubjStore VerbWrite IoOther).

(** ** Flushing *)

(** [busy]: another flush holds the flush lock. *)
Definition flush_to_file (busy : bool) (o : write_outcome) (w : World) :
    result StorageError unit * World :=
  if busy then (Err (IoError SubjLogs VerbWrite IoWouldBlock), w)
  else match data_file (w_st w) with
  | None => (Err (IoError SubjLogs VerbWrite IoNotFound), w)
  | Some p =>
      match unwrap_state w with
      | Err e => (Err e, w)
      | Ok state =>
          let '(r, f) := write_then_rename o SubjLogs SubjLogs p (enc state) (w_fs w) in
          (r, set_fs f w)
      end
  end.

Definition flush_log_to_file (o : write_outcome) (w : World) : result StorageError unit * World :=
  match log_file (w_st w) with
  | None => (Err (IoError SubjLogs VerbWrite IoNotFound), w)
  | Some p =>
      let entries := SerializableLogEntry_from <$> btree_values (log (w_st w)) in
      let '(r, f) := write_then_rename o SubjLogs SubjLogs p (enc entries) (w_fs w) in
      (r, set_fs f w)
  end.

Definition flush_vote_to_file (o : write_outcome) (v : Vote) (w : World) :
    result StorageError unit * World :=
  match vote_file (w_st w) with
  | None => (Err (IoError SubjVote VerbWrite IoNotFound), w)
  | Some p =>
      let vote_data := mkSVote (v_term v) (v_node v) (v_committed v) in
      let '(r, f) := write_then_rename o SubjVote SubjLogs p (enc vote_data) (w_fs w) in
      (r, set_fs f w)
  end.

(** Flush, and clear the flag when it worked. *)
Definition flush_and_clean (busy : bool) (o : write_outcome) (w : World) :
    result StorageError unit * World :=
  match flush_to_file busy o w with
  | (Ok _, w') => (Ok tt, set_dirty false w')
  | (Err e, w') => (Err e, w')
  end.

Definition flush_ownership_state (busy : bool) (o : write_outcome) (w : World) :
    result StorageError unit * World :=
  if dirty (w_sh w) then flush_and_clean busy o w else (Ok tt, w).

Definition mark_dirty_and_flush (busy : bool) (o : write_outcome) (w : World) :
    result StorageError unit * World :=
  flush_and_clean busy o (set_dirty true w).

(** [impl Clone]: a second handle on the same shared state and disk; its other
    fields are copies. *)
Definition storage_clone (w : World) : World := mkWorld (w_st w) (w_sh w) (w_fs w).

(** [impl Drop]; [strong_count] counts the handles on the ownership state. *)
Definition storage_drop (strong_count : Z) (busy : bool) (o : write_outcome) (w : World) : World :=
  if bool_decide (strong_count = 1) && dirty (w_sh w) && bool_decide (is_Some (data_file (w_st w)))
  then set_dirty false (flush_to_file busy o w).2
  else w.

(** ** [impl RaftStorage] *)

(** [if self.log_file.is_some() { flush? }]; the vote is flushed under the same
    condition. *)
Definition if_persistent (flush : World → result StorageError unit * World) (w : World) :
    result StorageError unit * World :=
  match log_file (w_st w) with Some _ => flush w | None => (Ok tt, w) end.

Definition save_vote (o : write_outcome) (v : Vote) (w : World) :
    result StorageError unit * World :=
  if_persistent (flush_vote_to_file o v) (set_st (set_vote (Some v) (w_st w)) w).

Definition read_vote (w : World) : option Vote := vote (w_st w).

Definition save_committed (c : option LogId) (w : World) : World :=
  set_st (set_committed (Some c) (w_st w)) w.

Definition read_committed (w : World) : option LogId :=
  c ← committed (w_st w); c.

(** The last entry of the log, or what was last applied when it is empty. *)
Definition last_log_id (st : AutoqueuesRaftStorage) : option LogId :=
  match last (btree_iter (log st)) with
  | Some (_, e) => Some (log_id e)
  | None => last_applied st
  end.

(** [LogState { last_purged_log_id, last_log_id }] *)
Definition get_log_state (w : World) : option LogId * option LogId :=
  (last_applied (w_st w), last_log_id (w_st w)).

Definition append_to_log (o : write_outcome) (entries : list Entry) (w : World) :
    result StorageError unit * World :=
  if_persistent (flush_log_to_file o)
    (set_st (set_log (insert_entries entries (log (w_st w))) (w_st w)) w).

(** The keys that satisfy a predicate, removed one by one. *)
Definition remove_keys_where (P : Z → bool) (l : gmap Z Entry) : gmap Z Entry :=
  delete_keys (filter (λ k, P k = true) (btree_iter l).*1) l.

Definition delete_conflict_logs_since (o : write_outcome) (i : LogId) (w : World) :
    result StorageError unit * World :=
  if_persistent (flush_log_to_file o)
    (set_st (set_log (remove_keys_where (λ k, lid_index i <=? k) (log (w_st w))) (w_st w)) w).

Definition purge_logs_upto (o : write_outcome) (i : LogId) (w : World) :
    result StorageError unit * World :=
  if_persistent (flush_log_to_file o)
    (set_st (set_last_applied (Some i)
       (set_log (remove_keys_where (λ k, k <=? lid_index i) (log (w_st w))) (w_st w))) w).

Definition last_applied_state (w : World) : option LogId * StoredMembership :=
  (last_applied (w_st w), membership (w_st w)).

(** The response to a command that was just applied; for [ExpireLeases] the
    state is expired once more and that pass is what is counted. *)
Definition respond (cmd : OwnershipCommand) (s : OwnershipState) :
    OwnershipResponse * OwnershipState :=
  match cmd with
  | ClaimTopic topic _ _ | ReleaseTopic topic _ | TransferTopic topic _ _ =>
      (ROwner topic (get_owner s topic), s)
  | AcquireLease key _ _ _ _ => (RLeaseOwner key (get_lease_info s key), s)
  | RenewLease lease_id _ => (RLeaseResult (get_lease s lease_id) None, s)
  | ReleaseLease key => (RLeaseOwner key None, s)
  | ExpireLeases now => let '(count, s') := expire_leases now s in (RLeaseCount count, s')
  end.

Definition empty_response : OwnershipResponse := ROwner "" None.

(** One round of the loop: record the id, apply, respond. *)
Definition apply_entry (w : World) (s : OwnershipState) (e : Entry) :
    OwnershipResponse * OwnershipState * World :=
  let w1 := set_st (set_last_applied (Some (log_id e)) (w_st w)) w in
  match payload e with
  | Normal cmd =>
      let '(r, s') := respond cmd (apply cmd s) in (r, s', set_dirty true w1)
  | MembershipChange _ | Blank => (empty_response, s, w1)
  end.

Fixpoint apply_entries (w : World) (s : OwnershipState) (entries : list Entry) :
    list OwnershipResponse * OwnershipState * World :=
  match entries with
  | [] => ([], s, w)
  | e :: entries =>
      let '(r, s1, w1) := apply_entry w s e in
      let '(rs, s2, w2) := apply_entries w1 s1 entries in
      (r :: rs, s2, w2)
  end.

Definition apply_to_state_machine (busy : bool) (o : write_outcome) (entries : list Entry)
    (w : World) : result StorageError (list OwnershipResponse) * World :=
  match unwrap_state w with
  | Err e => (Err e, w)
  | Ok s =>
      let '(rs, s', w1) := apply_entries w s entries in
      let w2 := set_state s' w1 in
      if bool_decide (is_Some (data_file (w_st w2))) && dirty (w_sh w2) then
        match flush_and_clean busy o w2 with
        | (Ok _, w3) => (Ok rs, w3)
        | (Err e, w3) => (Err e, w3)
        end
      else (Ok rs, w2)
  end.

Definition install_snapshot (busy : bool) (o : write_outcome) (meta : SnapshotMeta)
    (data : bytes) (w : World) : result StorageError unit * World :=
  let w1 := set_st (set_snapshot (Some meta) (snapshot (w_st w)) (w_st w)) w in
  let store w := set_st (set_snapshot (snapshot_meta (w_st w)) (Some (mkSnapshot meta data))
                           (w_st w)) w in
  if decide (data = []) then (Ok tt, store w1)
  else match dec data with
  | None => (Err (IoError SubjSnapshot VerbRead IoInvalidData), w1)
  | Some state =>
      match unwrap_state w1 with
      | Err e => (Err e, w1)
      | Ok _ =>
          let w2 := set_dirty true (set_state state w1) in
          match data_file (w_st w2) with
          | None => (Ok tt, store w2)
          | Some _ =>
              match flush_and_clean busy o w2 with
              | (Ok _, w3) => (Ok tt, store w3)
              | (Err e, w3) => (Err e, w3)
              end
          end
      end
  end.

(** Snapshot data is received into an empty buffer. *)
Definition begin_receiving_snapshot : result StorageError bytes := Ok [].

Definition get_current_snapshot (w : World) : option Snapshot := snapshot (w_st w).

(** ** [impl RaftLogReader] *)

Inductive bound := Included (i : Z) | Excluded (i : Z) | Unbounded.

Definition range_start (b : bound) : Z :=
  match b with Included i => i | Excluded i => u64_add i 1 | Unbounded => 0 end.

Definition range_end (l : gmap Z Entry) (b : bound) : Z :=
  match b with
  | Included i => u64_add i 1
  | Excluded i => i
  | Unbounded => match last (btree_iter l) with Some (k, _) => u64_add k 1 | None => 0 end
  end.

(** [BTreeMap::range(start..end)] panics on a reversed range. *)
Definition try_get_log_entries (lo hi : bound) (w : World) : result StorageError (list Entry) :=
  let l := log (w_st w) in
  let start := range_start lo in
  let end' := range_end l hi in
  if bool_decide (end' < start) then Err Panicked
  else Ok (filter (λ kv, start ≤ kv.1 < end') (btree_iter l)).*2.

(** ** [impl RaftSnapshotBuilder] *)

Definition build_snapshot (now_millis : Z) (w : World) : result StorageError Snapshot * World :=
  let meta := mkMeta (last_log_id (w_st w)) (membership (w_st w))
                ("snapshot-" +:+ pretty now_millis) in
  match unwrap_state w with
  | Err e => (Err e, w)
  | Ok state =>
      match enc state with
      | None => (Err (IoError SubjSnapshot VerbWrite IoInvalidData), w)
      | Some data =>
          (Ok (mkSnapshot meta data),
           set_st (set_snapshot (Some meta) (snapshot (w_st w)) (w_st w)) w)
      end
  end.
End storage.
