(* ===== verification/Concrete.v ===== *)
(** * Concrete parameters

    One instance of each parameter that stands for a third-party crate, so
    that the hypotheses about it can be discharged on a concrete run: openraft's
    membership types as [unit], and the codecs by numbering the values. *)

From S2P Require Import Prelude LockUtils Ownership Storage.
#[local] Open Scope Z_scope.

Definition unit_openraft : Openraft :=
  {| Membership := unit; StoredMembership := unit; stored_membership_default := tt |}.

#[export] Instance LeaseEntry_countable : Countable LeaseEntry.
Proof.
  apply (inj_countable'
    (λ l, (le_id l, le_key l, le_owner l, le_acquired_at l, le_ttl_secs l, le_expires_at l))
    (λ '(a, b, c, d, e, f), mkLease a b c d e f)). by intros [].
Defined.

#[export] Instance OwnershipState_countable : Countable OwnershipState.
Proof.
  apply (inj_countable'
    (λ s, (ownership s, node_topics s, leases s, key_leases s, next_lease_id s))
    (λ '(a, b, c, d, e), mkState a b c d e)). by intros [].
Defined.

#[export] Instance OwnershipCommand_eq_dec : EqDecision OwnershipCommand.
Proof. solve_decision. Defined.

(** A tag and the fields, padded. *)
#[export] Instance OwnershipCommand_countable : Countable OwnershipCommand.
Proof.
  apply (inj_countable'
    (λ c, match c with
          | ClaimTopic t n ts => (0, t, n, ts, 0, 0)
          | ReleaseTopic t n => (1, t, n, 0, 0, 0)
          | TransferTopic t n n' => (2, t, n, n', 0, 0)
          | AcquireLease k o i ttl ts => (3, k, o, i, ttl, ts)
          | RenewLease i ts => (4, EmptyString, i, ts, 0, 0)
          | ReleaseLease k => (5, k, 0, 0, 0, 0)
          | ExpireLeases now => (6, EmptyString, now, 0, 0, 0)
          end)
    (λ '(tag, t, a, b, c, d),
       if decide (tag = 0) then ClaimTopic t a b
       else if decide (tag = 1) then ReleaseTopic t a
       else if decide (tag = 2) then TransferTopic t a b
       else if decide (tag = 3) then AcquireLease t a b c d
       else if decide (tag = 4) then RenewLease a b
       else if decide (tag = 5) then ReleaseLease t
       else ExpireLeases a)).
  by intros [].
Defined.

#[export] Instance SerializableLogEntry_eq_dec : EqDecision SerializableLogEntry.
Proof. solve_decision. Defined.
#[export] Instance SerializableLogEntry_countable : Countable SerializableLogEntry.
Proof.
  apply (inj_countable'
    (λ e, (sle_index e, sle_term e, sle_leader_id e, sle_command e))
    (λ '(a, b, c, d), mkSLE a b c d)). by intros [].
Defined.

#[export] Instance SerializableVote_eq_dec : EqDecision SerializableVote.
Proof. solve_decision. Defined.
#[export] Instance SerializableVote_countable : Countable SerializableVote.
Proof.
  apply (inj_countable' (λ v, (sv_term v, sv_node_id v, sv_committed v))
    (λ '(a, b, c), mkSVote a b c)). by intros [].
Defined.

Definition state_codec : Codec OwnershipState := bits_codec OwnershipState.
Definition log_codec : Codec (list SerializableLogEntry) := bits_codec _.
Definition vote_codec : Codec SerializableVote := bits_codec _.
