(* ===== verification/StorageProps.v ===== *)
(** * Properties of the Raft storage

    Crash safety of the file writes, durability across a restart, the log
    operations, what applying entries does and answers, and snapshots. *)

From S2P Require Import Prelude LockUtils Ownership OwnershipTopics Leases Storage Concrete.
#[local] Open Scope Z_scope.

(** ** The file writes *)

Lemma temp_ne (p : path) : p_ext p ≠ "tmp" → with_extension p "tmp" ≠ p.
Proof. destruct p; unfold with_extension; simpl. intros Hne [= Heq]. by subst. Qed.

(** After a write that does not lose its last flush, [p] holds what it held
    when the write failed, and the new bytes when it succeeded; only [p] and its
    temporary file are touched. *)
Lemma write_then_rename_spec o subj rsubj p b f r f' :
  p_ext p ≠ "tmp" → (∀ n, o ≠ WDropShort n) →
  write_then_rename o subj rsubj p b f = (r, f') →
  (∀ q, q ≠ p → q ≠ with_extension p "tmp" → f' !! q = f !! q) ∧
  match r with
  | Ok _ => ∃ bs, b = Some bs ∧ f' !! p = Some bs
  | Err _ => f' !! p = f !! p
  end.
Proof.
  intros Hext Hd Hw. pose proof (temp_ne p Hext).
  destruct o, b; simplify_eq/=; try (by destruct (Hd n)); split;
    intros; rewrite ?lookup_insert_eq, ?lookup_insert_ne, ?lookup_delete_ne by done; eauto.
Qed.

Lemma write_then_rename_ok subj rsubj p b f :
  write_then_rename WOk subj rsubj p (Some b) f =
  (Ok tt, <[p := b]> (delete (with_extension p "tmp") f)).
Proof. done. Qed.

(** ** The log as a map and as the list on disk *)

Section log.
Context `{Openraft}.

(** What survives serialisation: a membership change comes back blank. *)
Definition as_stored (e : Entry) : Entry := Entry_from (SerializableLogEntry_from e).

Lemma as_stored_spec e :
  as_stored e = mkEntry (log_id e)
    (match payload e with MembershipChange _ => Blank | p => p end).
Proof. destruct e as [[] []]; done. Qed.

(** Entries sit under their own index. *)
Definition log_keyed (l : gmap Z Entry) : Prop :=
  ∀ k e, l !! k = Some e → lid_index (log_id e) = k.

Lemma insert_entries_keyed es l : log_keyed l → log_keyed (insert_entries es l).
Proof.
  unfold insert_entries. revert l. induction es as [|e es IH]; intros l Hl; simpl; [done|].
  apply IH. intros k e'. map_cases k (lid_index (log_id e)); [congruence|apply Hl].
Qed.

Lemma insert_entries_lookup es l k :
  insert_entries es l !! k =
  match last (filter (λ e, lid_index (log_id e) = k) es) with
  | Some e => Some e | None => l !! k end.
Proof.
  unfold insert_entries. revert l. induction es as [|e es IH]; intros l; simpl; [done|].
  rewrite IH, filter_cons. case_decide as Hk.
  - subst. rewrite lookup_insert_eq.
    destruct (filter _ es) eqn:Hf; [done|]. rewrite last_cons_cons, <- Hf.
    destruct (last (filter _ es)) eqn:Hl; [done|].
    apply last_None in Hl. by rewrite Hl in Hf.
  - by rewrite lookup_insert_ne.
Qed.

(** Inserting the values of a keyed map rebuilds its image. *)
Lemma insert_values_lookup (g : Entry → Entry) (l : gmap Z Entry) k :
  (∀ e, lid_index (log_id (g e)) = lid_index (log_id e)) → log_keyed l →
  insert_entries (g <$> btree_values l) ∅ !! k = g <$> l !! k.
Proof.
  intros Hg Hk. rewrite insert_entries_lookup, lookup_empty.
  destruct (last _) as [e|] eqn:Hl.
  - apply last_Some_elem_of, list_elem_of_filter in Hl as [<- Hin].
    apply list_elem_of_fmap in Hin as (e' & -> & Hin).
    apply list_elem_of_fmap in Hin as ([k' e''] & -> & Hin%elem_of_btree_iter); simpl.
    rewrite Hg. by rewrite (Hk _ _ Hin), Hin.
  - apply last_None in Hl. destruct (l !! k) as [e|] eqn:He; simpl; [|done].
    exfalso. assert (g e ∈ filter (λ e, lid_index (log_id e) = k) (g <$> btree_values l)) as Hin.
    { apply list_elem_of_filter. split; [by rewrite Hg, (Hk _ _ He)|].
      apply list_elem_of_fmap. exists e. split; [done|].
      apply list_elem_of_fmap. exists (k, e). split; [done|]. by apply elem_of_btree_iter. }
    rewrite Hl in Hin. by apply not_elem_of_nil in Hin.
Qed.

Lemma reload_log (l : gmap Z Entry) :
  log_keyed l →
  insert_entries (Entry_from <$> (SerializableLogEntry_from <$> btree_values l)) ∅ =
  as_stored <$> l.
Proof.
  intros Hk. apply map_eq. intros k. rewrite lookup_fmap, <- list_fmap_compose.
  apply (insert_values_lookup (Entry_from ∘ SerializableLogEntry_from)); [|done].
  by intros [[] ?].
Qed.

Lemma remove_keys_where_lookup P (l : gmap Z Entry) k :
  remove_keys_where P l !! k = if P k then None else l !! k.
Proof.
  unfold remove_keys_where. rewrite lookup_delete_keys. case_decide as Hin.
  - apply list_elem_of_filter in Hin as [-> _]. done.
  - destruct (P k) eqn:HP; [|done]. destruct (l !! k) as [e|] eqn:He; [|done].
    exfalso. apply Hin. apply list_elem_of_filter. split; [done|].
    apply list_elem_of_fmap. exists (k, e). split; [done|]. by apply elem_of_btree_iter.
Qed.

Lemma remove_keys_where_keyed P (l : gmap Z Entry) :
  log_keyed l → log_keyed (remove_keys_where P l).
Proof. intros Hl k e. rewrite remove_keys_where_lookup. destruct (P k); [done|apply Hl]. Qed.
End log.

(** ** Durability *)

Section durability.
Context `{Openraft} `{HashOrder}.
Context `{!Codec OwnershipState} `{!Codec (list SerializableLogEntry)} `{!Codec SerializableVote}.

(** The data files sit in [dir] and hold what memory holds; a file that was
    never written stands for the initial value. *)
Record durable (dir : string) (w : World) : Prop := {
  dur_data_file : data_file (w_st w) = Some (data_file_in dir);
  dur_log_file : log_file (w_st w) = Some (log_file_in dir);
  dur_vote_file : vote_file (w_st w) = Some (vote_file_in dir);
  dur_unpoisoned : lock_poisoned (ownership_state (w_sh w)) = false;
  dur_keyed : log_keyed (log (w_st w));
  dur_state : match w_fs w !! data_file_in dir with
              | Some b => b ≠ [] ∧ dec b = Some (lock_value (ownership_state (w_sh w)))
              | None => lock_value (ownership_state (w_sh w)) = new
              end;
  dur_log : match w_fs w !! log_file_in dir with
            | Some b => dec b = Some (SerializableLogEntry_from <$> btree_values (log (w_st w)))
            | None => log (w_st w) = ∅
            end;
  dur_vote : match w_fs w !! vote_file_in dir with
             | Some b => ∃ sv, dec b = Some sv ∧ vote (w_st w) = Some (Vote_from sv)
             | None => vote (w_st w) = None
             end;
}.

(** The calls openraft makes that change the storage. *)
Inductive raft_op :=
| OpSaveVote (v : Vote)
| OpSaveCommitted (c : option LogId)
| OpAppend (es : list Entry)
| OpDeleteConflict (i : LogId)
| OpPurge (i : LogId)
| OpApply (es : list Entry)
| OpInstall (meta : SnapshotMeta) (data : bytes).

Definition run_op (busy : bool) (o : write_outcome) (op : raft_op) (w : World) :
    result StorageError unit * World :=
  match op with
  | OpSaveVote v => save_vote o v w
  | OpSaveCommitted c => (Ok tt, save_committed c w)
  | OpAppend es => append_to_log o es w
  | OpDeleteConflict i => delete_conflict_logs_since o i w
  | OpPurge i => purge_logs_upto o i w
  | OpApply es =>
      match apply_to_state_machine busy o es w with
      | (Ok _, w') => (Ok tt, w')
      | (Err e, w') => (Err e, w')
      end
  | OpInstall meta data => install_snapshot busy o meta data w
  end.

(** A run of calls, each of which reports success. *)
Inductive run_ok : World → list (bool * write_outcome * raft_op) → World → Prop :=
| run_ok_nil w : run_ok w [] w
| run_ok_cons w busy o op w1 ops w2 :
    run_op busy o op w = (Ok tt, w1) → run_ok w1 ops w2 →
    run_ok w ((busy, o, op) :: ops) w2.

Definition keeps_flushes (call : bool * write_outcome * raft_op) : Prop :=
  ∀ n, call.1.2 ≠ WDropShort n.

Lemma flush_to_file_ok busy o p w w' :
  data_file (w_st w) = Some p → p_ext p ≠ "tmp" → (∀ n, o ≠ WDropShort n) →
  flush_to_file busy o w = (Ok tt, w') →
  ∃ b f, enc (lock_value (ownership_state (w_sh w))) = Some b ∧ w' = set_fs f w ∧
    f !! p = Some b ∧ ∀ q, q ≠ p → q ≠ with_extension p "tmp" → f !! q = w_fs w !! q.
Proof.
  intros Hp Hext Ho. unfold flush_to_file. destruct busy; [done|]. rewrite Hp.
  destruct (unwrap_state w) as [s|] eqn:Hs; [|done].
  unfold unwrap_state in Hs. destruct (lock_poisoned _); simplify_eq.
  destruct (write_then_rename _ _ _ _ _ _) as [r f] eqn:Hw.
  apply write_then_rename_spec in Hw as [Hq Hr]; [|done|done].
  intros [= -> <-]. destruct Hr as (b & ? & ?). eauto 10.
Qed.

Lemma flush_log_ok o p w w' :
  log_file (w_st w) = Some p → p_ext p ≠ "tmp" → (∀ n, o ≠ WDropShort n) →
  flush_log_to_file o w = (Ok tt, w') →
  ∃ b f, enc (SerializableLogEntry_from <$> btree_values (log (w_st w))) = Some b ∧
    w' = set_fs f w ∧
    f !! p = Some b ∧ ∀ q, q ≠ p → q ≠ with_extension p "tmp" → f !! q = w_fs w !! q.
Proof.
  intros Hp Hext Ho. unfold flush_log_to_file. rewrite Hp.
  destruct (write_then_rename _ _ _ _ _ _) as [r f] eqn:Hw.
  apply write_then_rename_spec in Hw as [Hq Hr]; [|done|done].
  intros [= -> <-]. destruct Hr as (b & ? & ?). eauto 10.
Qed.

Lemma flush_vote_ok o v p w w' :
  vote_file (w_st w) = Some p → p_ext p ≠ "tmp" → (∀ n, o ≠ WDropShort n) →
  flush_vote_to_file o v w = (Ok tt, w') →
  ∃ b f, enc (mkSVote (v_term v) (v_node v) (v_committed v)) = Some b ∧
    w' = set_fs f w ∧
    f !! p = Some b ∧ ∀ q, q ≠ p → q ≠ with_extension p "tmp" → f !! q = w_fs w !! q.
Proof.
  intros Hp Hext Ho. unfold flush_vote_to_file. rewrite Hp.
  destruct (write_then_rename _ _ _ _ _ _) as [r f] eqn:Hw.
  apply write_then_rename_spec in Hw as [Hq Hr]; [|done|done].
  intros [= -> <-]. destruct Hr as (b & ? & ?). eauto 10.
Qed.

Lemma flush_and_clean_frame busy o w r w' :
  flush_and_clean busy o w = (r, w') →
  w_st w' = w_st w ∧ ownership_state (w_sh w') = ownership_state (w_sh w).
Proof.
  unfold flush_and_clean, flush_to_file.
  destruct busy; [by intros [= _ <-]|].
  destruct (data_file _); [|by intros [= _ <-]].
  destruct (unwrap_state w); [|by intros [= _ <-]].
  destruct (write_then_rename _ _ _ _ _ _) as [[|] f]; by intros [= _ <-].
Qed.

(** Only the log changed in memory, and the log file was rewritten. *)
Lemma durable_log_update dir w w1 w' o :
  durable dir w → (∀ n, o ≠ WDropShort n) →
  log_keyed (log (w_st w1)) → w_sh w1 = w_sh w → w_fs w1 = w_fs w →
  vote (w_st w1) = vote (w_st w) → log_file (w_st w1) = log_file (w_st w) →
  vote_file (w_st w1) = vote_file (w_st w) → data_file (w_st w1) = data_file (w_st w) →
  if_persistent (flush_log_to_file o) w1 = (Ok tt, w') → durable dir w'.
Proof.
  intros [D1 D2 D3 D4 D5 D6 D7 D8] Ho Hk Hsh Hfs Hv Hlf Hvf Hdf.
  unfold if_persistent. rewrite Hlf, D2. intros Hfl.
  apply (flush_log_ok o (log_file_in dir)) in Hfl as (b & f & He & -> & Hb & Hq);
    [|congruence|done|done].
  rewrite Hfs in Hq. split; simpl; try done; try congruence.
  - by rewrite Hq, Hsh by done.
  - rewrite Hb. by apply dec_enc.
  - by rewrite Hq, Hv by done.
Qed.

(** Applying entries touches nothing but [last_applied] and the dirty flag,
    which stays down only when no command was among them. *)
Lemma apply_entries_frame es w s rs s' w' :
  apply_entries w s es = (rs, s', w') →
  w_fs w' = w_fs w ∧ ownership_state (w_sh w') = ownership_state (w_sh w) ∧
  log (w_st w') = log (w_st w) ∧ vote (w_st w') = vote (w_st w) ∧
  log_file (w_st w') = log_file (w_st w) ∧ vote_file (w_st w') = vote_file (w_st w) ∧
  data_file (w_st w') = data_file (w_st w) ∧
  (dirty (w_sh w') = false → dirty (w_sh w) = false ∧ s' = s).
Proof.
  revert w s rs s' w'. induction es as [|e es IH]; intros w s rs s' w' Ha; simpl in Ha.
  { by simplify_eq. }
  destruct (apply_entry w s e) as [[r s1] w1] eqn:He.
  destruct (apply_entries w1 s1 es) as [[rs2 s2] w2] eqn:Hes. simplify_eq.
  apply IH in Hes as (-> & -> & -> & -> & -> & -> & -> & Hd).
  unfold apply_entry in He. destruct (payload e); simplify_eq/=; try done.
  destruct (respond _ _); simplify_eq/=. split_and!; try done. naive_solver.
Qed.

(** Encodings of the ownership state are never empty (they start with the
    number of map entries); an empty data file is skipped when loading. *)
Definition state_encodings_nonempty : Prop :=
  ∀ (s : OwnershipState) b, enc s = Some b → b ≠ [].

(** The ownership state changed in memory, and was flushed. *)
Lemma durable_state_flush dir w w1 w' busy o :
  state_encodings_nonempty →
  durable dir w → (∀ n, o ≠ WDropShort n) →
  lock_poisoned (ownership_state (w_sh w1)) = false → w_fs w1 = w_fs w →
  log (w_st w1) = log (w_st w) → vote (w_st w1) = vote (w_st w) →
  log_file (w_st w1) = log_file (w_st w) → vote_file (w_st w1) = vote_file (w_st w) →
  data_file (w_st w1) = data_file (w_st w) →
  flush_and_clean busy o w1 = (Ok tt, w') → durable dir w'.
Proof.
  intros Hne [D1 D2 D3 D4 D5 D6 D7 D8] Ho Hp Hfs Hl Hv Hlf Hvf Hdf.
  unfold flush_and_clean. destruct (flush_to_file busy o w1) as [[[]|] w2] eqn:Hfl; [|done].
  intros [= <-].
  apply (flush_to_file_ok busy o (data_file_in dir)) in Hfl as (b & f & He & -> & Hb & Hq);
    [|congruence|done|done].
  rewrite Hfs in Hq. split; simpl; try done; try congruence.
  - by rewrite Hl.
  - rewrite Hb. split; [by apply (Hne _ _ He)|by apply dec_enc].
  - by rewrite Hq, Hl by done.
  - by rewrite Hq, Hv by done.
Qed.

(** Memory changed in fields that are not persisted. *)
Lemma durable_same dir w w' :
  durable dir w → w_fs w' = w_fs w →
  ownership_state (w_sh w') = ownership_state (w_sh w) →
  log (w_st w') = log (w_st w) → vote (w_st w') = vote (w_st w) →
  log_file (w_st w') = log_file (w_st w) → vote_file (w_st w') = vote_file (w_st w) →
  data_file (w_st w') = data_file (w_st w) → durable dir w'.
Proof.
  intros [D1 D2 D3 D4 D5 D6 D7 D8] E1 E2 E3 E4 E5 E6 E7.
  split; rewrite ?E1, ?E2, ?E3, ?E4, ?E5, ?E6, ?E7; done.
Qed.

Lemma durable_apply dir w w' busy o es rs :
  state_encodings_nonempty → durable dir w → (∀ n, o ≠ WDropShort n) →
  apply_to_state_machine busy o es w = (Ok rs, w') → durable dir w'.
Proof.
  intros Hne Hd Ho. pose proof Hd as [D1 _ _ D4 _ _ _ _].
  unfold apply_to_state_machine, unwrap_state. rewrite D4.
  destruct (apply_entries w _ es) as [[rs' s'] w1] eqn:Ha.
  apply apply_entries_frame in Ha as (Hfs & Hsh & Hl & Hv & Hlf & Hvf & Hdf & Hdirty).
  simpl. rewrite Hdf, D1, bool_decide_true by eauto. simpl.
  destruct (dirty (w_sh w1)) eqn:Hdw.
  - destruct (flush_and_clean _ _ _) as [[[]|] w3] eqn:Hfl; [|done]. intros [= <- <-].
    eapply (durable_state_flush dir w); [done|done|done| | | | | | | |exact Hfl];
      simpl; congruence.
  - intros [= <- <-]. destruct (Hdirty eq_refl) as [_ ->].
    apply (durable_same dir w); try done. simpl. rewrite Hsh.
    by destruct (ownership_state (w_sh w)).
Qed.

Lemma durable_install dir w w' busy o meta data :
  state_encodings_nonempty → durable dir w → (∀ n, o ≠ WDropShort n) →
  install_snapshot busy o meta data w = (Ok tt, w') → durable dir w'.
Proof.
  intros Hne Hd Ho. pose proof Hd as [D1 _ _ D4 _ _ _ _]. unfold install_snapshot.
  case_decide; [intros [= <-]; by apply (durable_same dir w)|].
  destruct (dec data) as [s|]; [|done].
  unfold unwrap_state; simpl. rewrite D4, D1.
  destruct (flush_and_clean _ _ _) as [[[]|] w3] eqn:Hfl; [|done]. intros [= <-].
  eapply (durable_state_flush dir w) in Hfl; try done.
  by apply (durable_same dir w3).
Qed.

Lemma durable_step dir w w' busy o op :
  state_encodings_nonempty → durable dir w → (∀ n, o ≠ WDropShort n) →
  run_op busy o op w = (Ok tt, w') → durable dir w'.
Proof.
  intros Hne Hd Ho. pose proof Hd as [D1 D2 D3 D4 D5 D6 D7 D8]. destruct op; simpl.
  - unfold save_vote, if_persistent; simpl. rewrite D2. intros Hfl.
    apply (flush_vote_ok o v (vote_file_in dir)) in Hfl as (b & f & He & -> & Hb & Hq);
      [|done|done|done]. simpl in Hq.
    split; simpl; try done; [by rewrite Hq by done..|].
    rewrite Hb. eexists. split; [by apply dec_enc|]. by destruct v.
  - intros [= <-]. by apply (durable_same dir w).
  - eapply (durable_log_update dir w); try done. by apply insert_entries_keyed.
  - eapply (durable_log_update dir w); try done. by apply remove_keys_where_keyed.
  - eapply (durable_log_update dir w); try done. by apply remove_keys_where_keyed.
  - destruct (apply_to_state_machine busy o es w) as [[rs|] w1] eqn:Ha; [|done].
    intros [= <-]. by apply (durable_apply dir w w1 busy o es rs).
  - by apply durable_install.
Qed.

Lemma durable_run dir w ops w' :
  state_encodings_nonempty → durable dir w → Forall keeps_flushes ops →
  run_ok w ops w' → durable dir w'.
Proof.
  intros Hne Hd Hk Hr. induction Hr as [|w busy o op w1 ops w2 Hop Hr IH]; [done|].
  inversion Hk as [|?? Hk1 Hk2]; subst. apply IH; [|done].
  by apply (durable_step dir w w1 busy o op).
Qed.

Lemma durable_fresh dir w :
  with_persistence true (λ _, true) dir ∅ = Ok w → durable dir w.
Proof.
  unfold with_persistence, if_exists; simpl.
  rewrite !decide_False by (rewrite lookup_empty; by intros [? ?]). simpl.
  intros [= <-]. by split.
Qed.

(** Opening the directory of a durable storage. *)
Lemma reopen dir w :
  durable dir w →
  ∃ w', with_persistence true (λ _, true) dir (w_fs w) = Ok w' ∧
    log (w_st w') = as_stored <$> log (w_st w) ∧
    vote (w_st w') = vote (w_st w) ∧
    lock_value (ownership_state (w_sh w')) = lock_value (ownership_state (w_sh w)) ∧
    last_applied (w_st w') = None ∧ committed (w_st w') = None ∧
    membership (w_st w') = stored_membership_default.
Proof.
  intros [_ _ _ _ Hk D6 D7 D8]. unfold with_persistence.
  set (w0 := mkWorld _ shared_new (w_fs w)).
  set (sh1 := mkShared (mkLock (lock_value (ownership_state (w_sh w))) false 0) false).
  assert (if_exists (data_file_in dir) (load_from_file true (data_file_in dir)) w0 =
          Ok (mkWorld (w_st w0) sh1 (w_fs w))) as ->.
  { unfold if_exists, load_from_file, read_file; simpl.
    destruct (w_fs w !! data_file_in dir) as [b|].
    - rewrite decide_True by eauto. destruct D6 as [Hne Hdec]; simpl.
      rewrite decide_False by done. unfold decode_or. by rewrite Hdec.
    - rewrite decide_False by (by intros [? ?]). unfold sh1. by rewrite D6. }
  simpl. set (w1 := mkWorld _ sh1 (w_fs w)).
  assert (if_exists (log_file_in dir) (load_log_from_file true (log_file_in dir)) w1 =
          Ok (set_st (set_log (as_stored <$> log (w_st w)) (w_st w1)) w1)) as ->.
  { unfold if_exists, load_log_from_file, read_file; simpl.
    destruct (w_fs w !! log_file_in dir) as [b|].
    - rewrite decide_True by eauto. simpl. unfold decode_or. rewrite D7. simpl.
      by rewrite reload_log.
    - rewrite decide_False by (by intros [? ?]). rewrite D7, fmap_empty. done. }
  simpl. unfold if_exists, load_vote_from_file, read_file; simpl.
  destruct (w_fs w !! vote_file_in dir) as [b|].
  - rewrite decide_True by eauto. destruct D8 as (sv & Hsv & Hv). simpl.
    unfold decode_or. rewrite Hsv. simpl. eexists. split_and!; done.
  - rewrite decide_False by (by intros [? ?]). eexists. split_and!; done.
Qed.
End durability.

(** ** Applying entries *)

Section applying.
Context `{Openraft} `{HashOrder}.

(** The commands among the entries. *)
Definition commands (es : list Entry) : list OwnershipCommand :=
  omap (λ e, match payload e with Normal cmd => Some cmd | _ => None end) es.

Lemma expire_again now s : (expire_leases now (apply_expire now s)) = (0%nat, apply_expire now s).
Proof. unfold expire_leases. by rewrite expired_keys_after. Qed.

(** Answering does not change the state any further. *)
Lemma respond_state cmd s : (respond cmd (apply cmd s)).2 = apply cmd s.
Proof. destruct cmd; try done. cbn [respond apply]. by rewrite expire_again. Qed.

Lemma respond_expire now s : (respond (ExpireLeases now) (apply (ExpireLeases now) s)).1 = RLeaseCount 0.
Proof. cbn [respond apply]. by rewrite expire_again. Qed.

(** The responses, each computed on the state right after its entry. *)
Fixpoint responses (s : OwnershipState) (es : list Entry) : list OwnershipResponse :=
  match es with
  | [] => []
  | e :: es =>
      match payload e with
      | Normal cmd => (respond cmd (apply cmd s)).1 :: responses (apply cmd s) es
      | _ => empty_response :: responses s es
      end
  end.

Lemma apply_entries_spec es w s rs s' w' :
  apply_entries w s es = (rs, s', w') →
  s' = replay (commands es) s ∧ rs = responses s es ∧
  last_applied (w_st w') =
    match last es with Some e => Some (log_id e) | None => last_applied (w_st w) end.
Proof.
  revert w s rs s' w'. induction es as [|e es IH]; intros w s rs s' w' Ha; simpl in Ha.
  { by simplify_eq. }
  destruct (apply_entry w s e) as [[r s1] w1] eqn:He.
  destruct (apply_entries w1 s1 es) as [[rs2 s2] w2] eqn:Hes. simplify_eq.
  apply IH in Hes as (-> & -> & Hla). rewrite Hla, last_cons.
  assert (Hw1 : last_applied (w_st w1) = Some (log_id e)).
  { unfold apply_entry in He. destruct (payload e); simplify_eq/=; try done.
    by destruct (respond _ _); simplify_eq/=. }
  rewrite Hw1. split_and!; [| |by destruct (last es)];
    unfold apply_entry in He; unfold commands; simpl;
    destruct (payload e) as [|cmd|]; simplify_eq/=; try done;
    pose proof (respond_state cmd s) as Hst; destruct (respond cmd _); by simplify_eq/=.
Qed.

Lemma length_responses s es : length (responses s es) = length es.
Proof.
  revert s. induction es as [|e es IH]; intros s; simpl; [done|].
  destruct (payload e); simpl; by rewrite IH.
Qed.
End applying.

(** A read keeps the ascending order of the log. *)
Lemma range_sorted `{Openraft} (l : gmap Z Entry) lo hi :
  log_keyed l →
  StronglySorted Z.lt ((λ e, lid_index (log_id e)) <$>
    (filter (λ kv, lo ≤ kv.1 < hi) (btree_iter l)).*2).
Proof.
  intros Hk. pose proof (btree_iter_sorted l) as Hs. pose proof (NoDup_btree_keys l) as Hnd.
  assert (Hall : Forall (λ kv, lid_index (log_id kv.2) = kv.1) (btree_iter l)).
  { apply Forall_forall. intros [k e] Hin%elem_of_btree_iter. by apply Hk. }
  induction (btree_iter l) as [|[k e] kvs IH]; [constructor|].
  inversion Hs as [|?? Hs' Hf]; inversion Hnd as [|?? Hni Hnd']; inversion Hall as [|?? He IHall]; subst.
  rewrite filter_cons. case_decide; [|by apply IH]. simpl. constructor; [by apply IH|].
  apply Forall_forall. intros j Hj. apply list_elem_of_fmap in Hj as (e' & -> & Hj).
  apply list_elem_of_fmap in Hj as ([k' e''] & -> & [_ Hj]%list_elem_of_filter). simpl in *.
  rewrite Forall_forall in Hf. pose proof (Hf _ Hj) as Hle. unfold key_le in Hle.
  rewrite Forall_forall in IHall. pose proof (IHall _ Hj) as He''.
  assert (k ≠ k').
  { intros ->. apply Hni. apply list_elem_of_fmap. by exists (k', e''). }
  simpl in *. lia.
Qed.

Lemma if_persistent_st `{Openraft} `{HashOrder} `{!Codec (list SerializableLogEntry)} o w :
  w_st (if_persistent (flush_log_to_file o) w).2 = w_st w.
Proof.
  unfold if_persistent, flush_log_to_file. destruct (log_file (w_st w)); [|done].
  by destruct (write_then_rename _ _ _ _ _ _).
Qed.

(** ** Properties *)

Section storage_properties.
Context `{Openraft} `{HashOrder}.
Context `{!Codec OwnershipState} `{!Codec (list SerializableLogEntry)} `{!Codec SerializableVote}.

(** C8: durability across a restart. Start from an empty directory, run any
    sequence of the calls openraft makes (votes, appends, conflict deletions,
    purges, applications, snapshot installs), each reporting success, and none of them
    losing the last buffered write of a file, which would be reported as a success too.
    Opening the directory afterwards, with readable files, succeeds and gives back
    the vote, the ownership state, and the log with every index and command; only the
    membership entries of the log come back as blank ones. What was applied and
    committed, and the membership, are forgotten. *)
Theorem restart_recovers (dir : string) (w0 w : World)
    (ops : list (bool * write_outcome * raft_op)) :
  state_encodings_nonempty →
  with_persistence true (λ _, true) dir ∅ = Ok w0 →
  run_ok w0 ops w → Forall keeps_flushes ops →
  ∃ w', with_persistence true (λ _, true) dir (w_fs w) = Ok w' ∧
    log (w_st w') = as_stored <$> log (w_st w) ∧
    vote (w_st w') = vote (w_st w) ∧
    lock_value (ownership_state (w_sh w')) = lock_value (ownership_state (w_sh w)) ∧
    last_applied (w_st w') = None ∧ committed (w_st w') = None ∧
    membership (w_st w') = stored_membership_default.
Proof.
  intros Hne Hopen Hrun Hk. apply reopen. apply (durable_run dir w0 ops); try done.
  by apply durable_fresh.
Qed.

(** C17: a flush of the ownership state is atomic. However it ends (busy,
    failed to create, failed midway, failed to rename), short of losing the
    buffered writer's last flush, the data file holds either what it held
    before, when an error is reported, or an encoding that decodes to the
    current state, when success is reported; the log and vote files are
    untouched. *)
Theorem flush_atomic (busy : bool) (o : write_outcome) (dir : string) (w w' : World)
    (r : result StorageError unit) :
  data_file (w_st w) = Some (data_file_in dir) → (∀ n, o ≠ WDropShort n) →
  flush_to_file busy o w = (r, w') →
  w_fs w' !! log_file_in dir = w_fs w !! log_file_in dir ∧
  w_fs w' !! vote_file_in dir = w_fs w !! vote_file_in dir ∧
  match r with
  | Ok _ => ∃ b, w_fs w' !! data_file_in dir = Some b ∧
      dec b = Some (lock_value (ownership_state (w_sh w)))
  | Err _ => w_fs w' !! data_file_in dir = w_fs w !! data_file_in dir
  end.
Proof.
  intros Hp Ho. unfold flush_to_file. destruct busy; [by intros [= <- <-]|]. rewrite Hp.
  destruct (unwrap_state w) as [s|e] eqn:Hs; [|by intros [= <- <-]].
  unfold unwrap_state in Hs. destruct (lock_poisoned _); simplify_eq.
  destruct (write_then_rename _ _ _ _ _ _) as [r0 f] eqn:Hw.
  apply write_then_rename_spec in Hw as [Hq Hr]; [|done|done]. intros [= -> <-]. simpl.
  rewrite !Hq by done. split_and!; try done.
  destruct r; [|done]. destruct Hr as (b & Hb & Hf). exists b. split; [done|]. by apply dec_enc.
Qed.

(** But the temporary file is never flushed explicitly, and an error of the
    buffered writer when it is dropped is ignored: then the flush reports
    success, the dirty flag is cleared, and the data file is a truncated
    encoding. *)
Theorem flush_may_truncate (n : nat) (p : path) (b : bytes) (w : World) :
  data_file (w_st w) = Some p → dirty (w_sh w) = true →
  lock_poisoned (ownership_state (w_sh w)) = false →
  enc (lock_value (ownership_state (w_sh w))) = Some b →
  ∃ w', flush_ownership_state false (WDropShort n) w = (Ok tt, w') ∧
    dirty (w_sh w') = false ∧ w_fs w' !! p = Some (take n b).
Proof.
  intros Hp Hd Hl He. unfold flush_ownership_state, flush_and_clean, flush_to_file, unwrap_state.
  rewrite Hd, Hp, Hl, He. simpl. eexists. split_and!; [done|done|]. simpl.
  by rewrite lookup_insert_eq.
Qed.

Lemma apply_entries_dirty es w s rs s' w' :
  apply_entries w s es = (rs, s', w') →
  dirty (w_sh w') = dirty (w_sh w) || bool_decide (commands es ≠ []).
Proof.
  revert w s rs s' w'. induction es as [|e es IH]; intros w s rs s' w' Ha; simpl in Ha.
  { simplify_eq. by rewrite orb_false_r. }
  destruct (apply_entry w s e) as [[r s1] w1] eqn:He.
  destruct (apply_entries w1 s1 es) as [[rs2 s2] w2] eqn:Hes. simplify_eq.
  apply IH in Hes as ->. unfold apply_entry in He. destruct e as [i [|cmd|m]]; simpl in He; simplify_eq/=; try done.
  destruct (respond _ _); simplify_eq/=. by destruct (dirty (w_sh w)).
Qed.

(** A flush to the data file succeeds: no other flush is running, the state can be
    encoded, and no step that is looked at fails. *)
Definition flush_succeeds (busy : bool) (o : write_outcome) (s : OwnershipState) : bool :=
  negb busy && bool_decide (is_Some (enc s)) && match o with WOk | WDropShort _ => true | _ => false end.

Lemma flush_and_clean_result busy o w p r w' :
  data_file (w_st w) = Some p → lock_poisoned (ownership_state (w_sh w)) = false →
  flush_and_clean busy o w = (r, w') →
  let s := lock_value (ownership_state (w_sh w)) in
  is_ok r = flush_succeeds busy o s ∧ dirty (w_sh w') = (if is_ok r then false else dirty (w_sh w)) ∧
  (o = WOk → is_ok r = true → w_fs w' !! p = enc s).
Proof.
  intros Hp Hl. unfold flush_and_clean, flush_to_file, flush_succeeds, unwrap_state. rewrite Hp, Hl.
  destruct busy; simpl; [by intros [= <- <-]|].
  set (s := lock_value _). unfold write_then_rename.
  destruct o, (enc s) as [b|] eqn:He; simpl; intros [= <- <-]; simpl; split_and!; try done.
  intros _ _. by rewrite lookup_insert_eq.
Qed.

(** C16: applying a batch of committed entries to an unpoisoned storage is
    replaying their commands, in order, on the ownership state; the last applied id
    becomes the last entry's. The state is then flushed exactly when there is a data
    file and something to write (a command in the batch, or a change an earlier flush
    left). The call succeeds exactly when no flush is needed or the flush succeeds;
    then it returns one response per entry, computed on the state right after
    that entry, and nothing is left to write, with the new state in the file when no
    buffered write was lost. When the flush fails the call reports the error with the
    state already updated and still to be written. *)
Theorem apply_to_state_machine_spec (busy : bool) (o : write_outcome) (es : list Entry)
    (w : World) :
  let s := lock_value (ownership_state (w_sh w)) in
  let s' := replay (commands es) s in
  let changed := dirty (w_sh w) || bool_decide (commands es ≠ []) in
  let needed := bool_decide (is_Some (data_file (w_st w))) && changed in
  lock_poisoned (ownership_state (w_sh w)) = false →
  ∃ r w', apply_to_state_machine busy o es w = (r, w') ∧
    lock_value (ownership_state (w_sh w')) = s' ∧
    last_applied (w_st w') =
      match last es with Some e => Some (log_id e) | None => last_applied (w_st w) end ∧
    is_ok r = negb needed || flush_succeeds busy o s' ∧
    (∀ rs, r = Ok rs → rs = responses s es ∧ length rs = length es) ∧
    dirty (w_sh w') = (if needed then negb (flush_succeeds busy o s') else changed) ∧
    (∀ p, needed = true → data_file (w_st w) = Some p → o = WOk → is_ok r = true →
       w_fs w' !! p = enc s').
Proof.
  intros s s' changed needed Hp. unfold apply_to_state_machine, unwrap_state. rewrite Hp.
  destruct (apply_entries w _ es) as [[rs s1] w1] eqn:Ha.
  pose proof (apply_entries_frame _ _ _ _ _ _ Ha) as (_ & Hos & _ & _ & _ & _ & Hdf & _).
  pose proof (apply_entries_dirty _ _ _ _ _ _ Ha) as Hd. fold changed in Hd.
  apply apply_entries_spec in Ha as (-> & -> & Hla). fold s s'.
  cbn [w_st w_sh set_state dirty]. rewrite Hdf, Hd. fold needed.
  pose proof (length_responses s es) as Hlen.
  destruct needed eqn:Hb.
  - apply andb_true_iff in Hb as [[p Hp']%bool_decide_eq_true Hch].
    destruct (flush_and_clean busy o _) as [r w3] eqn:Hfl.
    pose proof Hfl as Hres. apply (flush_and_clean_result busy o _ p) in Hres as (Hok & Hdirty & Hfile);
      [|simpl; congruence|simpl; by rewrite Hos]. simpl in Hok, Hdirty, Hfile.
    apply flush_and_clean_frame in Hfl as [Hst Hsh]. rewrite <- Hok in *.
    destruct r as [[]|]; eexists _, _; rewrite ?Hst, ?Hsh, ?Hdirty; simpl;
      split_and!; try done; try congruence; try (intros; simplify_eq; naive_solver).
  - eexists _, _. simpl. split_and!; try done. naive_solver.
Qed.

(** The response to [ExpireLeases] always counts zero, however many leases
    the command expired: the state is expired before the count is taken. *)
Theorem expire_response_is_zero (busy : bool) (o : write_outcome) (i : LogId) (now : Z)
    (w w' : World) (rs : list OwnershipResponse) :
  apply_to_state_machine busy o [mkEntry i (Normal (ExpireLeases now))] w = (Ok rs, w') →
  rs = [RLeaseCount 0].
Proof.
  unfold apply_to_state_machine. destruct (unwrap_state w) as [s|]; [|done].
  destruct (apply_entries w s _) as [[rs0 s'] w1] eqn:Ha.
  apply apply_entries_spec in Ha as (_ & -> & _).
  assert (Hr : responses s [mkEntry i (Normal (ExpireLeases now))] = [RLeaseCount 0]).
  { cbn [responses payload]. by rewrite respond_expire. }
  rewrite Hr. destruct (_ && _); [|by intros [= <- _]].
  destruct (flush_and_clean _ _ _) as [[|] ?]; [by intros [= <- _]|done].
Qed.

(** C19: the log operations. Whatever the disk does, after an append each index
    holds the last entry appended for it, else what it held; after
    [delete_conflict_logs_since] exactly the indices below the given one
    remain, after [purge_logs_upto] exactly those above it, with the purge point
    recorded. *)
Theorem log_operations (o : write_outcome) (es : list Entry) (i : LogId) (w : World) (k : Z) :
  let l := log (w_st w) in
  log (w_st (append_to_log o es w).2) !! k =
    match last (filter (λ e, lid_index (log_id e) = k) es) with
    | Some e => Some e | None => l !! k end ∧
  log (w_st (delete_conflict_logs_since o i w).2) !! k =
    (if bool_decide (k < lid_index i) then l !! k else None) ∧
  log (w_st (purge_logs_upto o i w).2) !! k =
    (if bool_decide (lid_index i < k) then l !! k else None) ∧
  last_applied (w_st (purge_logs_upto o i w).2) = Some i.
Proof.
  intros l. unfold append_to_log, delete_conflict_logs_since, purge_logs_upto.
  rewrite !if_persistent_st; simpl. rewrite insert_entries_lookup, !remove_keys_where_lookup.
  split_and!; try done.
  - destruct (lid_index i <=? k) eqn:?; case_bool_decide; try done; lia.
  - destruct (k <=? lid_index i) eqn:?; case_bool_decide; try done; lia.
Qed.

(** C20: a log read. [try_get_log_entries(lo..hi)] returns the entries with an
    index of the half-open range, each once, in ascending index order, and panics on
    a reversed range. An inclusive upper bound of [u64::MAX] wraps to 0 (without
    overflow checks): a read up to it from a positive index panics, and the read of
    everything, from 0 to [u64::MAX] inclusive, returns no entry at all. *)
Theorem try_get_log_entries_spec (lo hi : Z) (w : World) :
  log_keyed (log (w_st w)) →
  (lo ≤ hi → ∃ es, try_get_log_entries (Included lo) (Excluded hi) w = Ok es ∧
     (∀ e, e ∈ es ↔ log (w_st w) !! lid_index (log_id e) = Some e ∧
                    lo ≤ lid_index (log_id e) < hi) ∧
     StronglySorted Z.lt ((λ e, lid_index (log_id e)) <$> es)) ∧
  (hi < lo → try_get_log_entries (Included lo) (Excluded hi) w = Err Panicked) ∧
  (0 < lo → try_get_log_entries (Included lo) (Included U64_MAX) w = Err Panicked) ∧
  try_get_log_entries (Included 0) (Included U64_MAX) w = Ok [].
Proof.
  intros Hk. unfold try_get_log_entries; simpl. split_and!.
  - intros Hle. rewrite bool_decide_false by lia. eexists. split; [done|]. split.
    + intros e. rewrite list_elem_of_fmap. split.
      * intros ([k e'] & -> & [Hr Hin%elem_of_btree_iter]%list_elem_of_filter). simpl in *.
        by rewrite (Hk _ _ Hin).
      * intros [He Hr]. exists (lid_index (log_id e), e). split; [done|].
        apply list_elem_of_filter. split; [done|]. by apply elem_of_btree_iter.
    + by apply range_sorted.
  - intros Hlt. by rewrite bool_decide_true.
  - intros Hlo. rewrite bool_decide_true; [done|]. exact Hlo.
  - change (u64_add U64_MAX 1) with 0. cbn. f_equal.
    induction (btree_iter (log (w_st w))) as [|kv l IH]; [done|].
    rewrite filter_cons, decide_False by lia. done.
Qed.

(** C18: snapshots carry the state machine. A snapshot built on one node and
    installed on another (both unpoisoned, the second without a data file or
    with a flush that works) makes the second node's ownership state equal to
    the first's, and the snapshot becomes the current one. *)
Theorem snapshot_roundtrip (now : Z) (w1 w1' w2 : World) (snap : Snapshot) :
  state_encodings_nonempty →
  lock_poisoned (ownership_state (w_sh w2)) = false →
  (∀ s, ∃ b, enc s = Some b) →
  build_snapshot now w1 = (Ok snap, w1') →
  ∃ w2', install_snapshot false WOk (snap_meta snap) (snap_data snap) w2 = (Ok tt, w2') ∧
    lock_value (ownership_state (w_sh w2')) = lock_value (ownership_state (w_sh w1)) ∧
    get_current_snapshot w2' = Some snap ∧ log (w_st w2') = log (w_st w2).
Proof.
  intros Hne Hp Henc. unfold build_snapshot, unwrap_state.
  destruct (lock_poisoned (ownership_state (w_sh w1))); [done|].
  set (s := lock_value (ownership_state (w_sh w1))).
  destruct (enc s) as [data|] eqn:He; [|done]. intros [= <- _].
  unfold install_snapshot; simpl. rewrite decide_False by by apply (Hne s).
  rewrite (dec_enc _ _ He). unfold unwrap_state; simpl. rewrite Hp.
  destruct (data_file (w_st w2)) as [p|] eqn:Hd.
  - unfold flush_and_clean, flush_to_file, unwrap_state; simpl. rewrite Hd, Hp; simpl.
    rewrite He. simpl. eexists. split_and!; done.
  - eexists. split_and!; done.
Qed.

(** The log state after an application. With the entries still in the log
    and nothing purged, [get_log_state] reports the last applied id as the last
    purged one, and the end of the log as its last id. *)
Theorem log_state_reports_applied_as_purged (busy : bool) (es : list Entry) (e : Entry)
    (w w' : World) (rs : list OwnershipResponse) :
  log (w_st w) !! lid_index (log_id e) = Some e →
  apply_to_state_machine busy WOk (es ++ [e]) w = (Ok rs, w') →
  (get_log_state w').1 = Some (log_id e) ∧
  log (w_st w') !! lid_index (log_id e) = Some e.
Proof.
  intros He. unfold apply_to_state_machine. destruct (unwrap_state w) as [s|]; [|done].
  destruct (apply_entries w s _) as [[rs0 s'] w1] eqn:Ha.
  pose proof (apply_entries_frame _ _ _ _ _ _ Ha) as (_ & _ & Hl & _).
  apply apply_entries_spec in Ha as (_ & _ & Hla). rewrite last_snoc in Hla.
  unfold get_log_state; simpl.
  destruct (_ && _); [|intros [= _ <-]; simpl; by rewrite Hl].
  destruct (flush_and_clean _ _ _) as [[[]|] w3] eqn:Hfl; [|done].
  apply flush_and_clean_frame in Hfl as [Hst _]. intros [= _ <-]. rewrite Hst. simpl.
  by rewrite Hl.
Qed.
End storage_properties.

(** ** Applying a log twice

    A reopened storage has forgotten what was applied while the ownership state
    is the final one, so the log is applied to it again from the start. *)

Section reapply.
Context `{HashOrder}.

(** Starting states that agree on a topic, or the empty one against any once the
    topic was claimed, end with the same owner. *)
Lemma spec_replay_agree cmds (m m' : gmap string NodeId) t :
  m !! t = m' !! t → spec_replay cmds m !! t = spec_replay cmds m' !! t.
Proof.
  unfold spec_replay. revert m m'. induction cmds as [|cmd cmds IH]; intros m m' Hm; [done|].
  apply IH. destruct cmd; simpl; try done; try (map_cases t topic; done).
  - destruct (decide (t = topic)) as [<-|Hne].
    + rewrite Hm. case_decide; [by rewrite !lookup_delete_eq|done].
    + repeat case_decide; rewrite ?lookup_delete_ne; done.
  - destruct (decide (t = topic)) as [<-|Hne].
    + rewrite Hm. case_decide; [by rewrite !lookup_insert_eq|done].
    + repeat case_decide; rewrite ?lookup_insert_ne; done.
Qed.

(** From an ownerless topic, a log either never claims it, and leaves it
    ownerless, or ends as from any other start. *)
Lemma spec_replay_unowned cmds (m m' : gmap string NodeId) t :
  m !! t = None →
  spec_replay cmds m !! t = None ∨ spec_replay cmds m !! t = spec_replay cmds m' !! t.
Proof.
  unfold spec_replay. revert m m'. induction cmds as [|cmd cmds IH]; intros m m' Hm; [by left|].
  simpl. destruct cmd as [topic n ts|topic n|topic n n'| | | |]; try (by apply IH).
  - destruct (decide (topic = t)) as [->|Hne].
    + right. apply spec_replay_agree. simpl. by rewrite !lookup_insert_eq.
    + apply IH. simpl. by rewrite lookup_insert_ne.
  - apply IH. simpl. case_decide; [|done]. apply lookup_delete_None; auto.
  - apply IH. simpl. case_decide; [|done]. rewrite lookup_insert_ne; [done|].
    intros ->. congruence.
Qed.

(** Re-applying the whole log to the state it produced leaves every topic
    with the owner it had, as a restart that kept the state but forgot the last
    applied index does, provided the log was never purged. *)
Theorem reapply_keeps_owners (cmds : list OwnershipCommand) (t : string) :
  get_owner (replay cmds (replay cmds new)) t = get_owner (replay cmds new) t.
Proof.
  unfold get_owner. rewrite !replay_refines. simpl.
  destruct (spec_replay_unowned cmds ∅ (spec_replay cmds ∅) t) as [Hn|He]; [done| |done].
  apply spec_replay_agree. by rewrite Hn.
Qed.
End reapply.

(** ** Concrete runs *)

Section concrete.
#[local] Existing Instances unit_openraft canonical_order state_codec log_codec vote_codec.

Definition sample_entry : Entry :=
  mkEntry (mkLogId 1 1 1) (Normal (AcquireLease "k" 1 0 10 5)).

Definition opened : World :=
  mkWorld (mkStorage ∅ (Some (log_file_in "d")) None (Some (vote_file_in "d")) None None None None
             stored_membership_default (Some (data_file_in "d"))) shared_new ∅.

Definition sample_ops : list (bool * write_outcome * raft_op) :=
  [(false, WOk, OpSaveVote (mkVote 1 1 true)); (false, WOk, OpAppend [sample_entry]);
   (false, WOk, OpApply [sample_entry])].

Definition ran (ops : list (bool * write_outcome * raft_op)) (w : World) : World :=
  fold_left (λ w '(busy, o, op), (run_op busy o op w).2) ops w.

Lemma sample_codec_nonempty : state_encodings_nonempty.
Proof. by intros s b [= <-]. Qed.

Lemma restart_recovers_witness :
  ∃ w', with_persistence true (λ _, true) "d" (w_fs (ran sample_ops opened)) = Ok w' ∧
    log (w_st w') = as_stored <$> log (w_st (ran sample_ops opened)) ∧
    vote (w_st w') = vote (w_st (ran sample_ops opened)) ∧
    lock_value (ownership_state (w_sh w')) =
      lock_value (ownership_state (w_sh (ran sample_ops opened))) ∧
    last_applied (w_st w') = None ∧ committed (w_st w') = None ∧ membership (w_st w') = tt.
Proof.
  apply (restart_recovers "d" opened (ran sample_ops opened) sample_ops).
  - exact sample_codec_nonempty.
  - reflexivity.
  - unfold sample_ops. repeat (econstructor; [reflexivity|]). constructor.
  - by repeat constructor.
Defined.

Lemma flush_atomic_witness :
  w_fs (flush_to_file false (WEncodeFails [1; 2]) (ran sample_ops opened)).2
    !! data_file_in "d" = w_fs (ran sample_ops opened) !! data_file_in "d".
Proof.
  refine (proj2 (proj2 (flush_atomic false (WEncodeFails [1; 2]) "d"
    (ran sample_ops opened) _ (Err (IoError SubjLogs VerbWrite IoInvalidData)) _ _ _))).
  - reflexivity.
  - done.
  - reflexivity.
Defined.

Lemma flush_may_truncate_witness :
  ∃ w', flush_ownership_state false (WDropShort 3) (set_dirty true opened) = (Ok tt, w') ∧
    dirty (w_sh w') = false ∧
    w_fs w' !! data_file_in "d" = Some (take 3 (1 :: pos_bits (encode new))).
Proof. by apply (flush_may_truncate 3 (data_file_in "d") (1 :: pos_bits (encode new))). Defined.

Lemma apply_to_state_machine_spec_witness :
  ∃ r w', apply_to_state_machine false WOk [sample_entry] opened = (r, w') ∧
    lock_value (ownership_state (w_sh w')) = replay (commands [sample_entry]) new ∧
    last_applied (w_st w') = Some (mkLogId 1 1 1) ∧ is_ok r = true ∧
    w_fs w' !! data_file_in "d" = enc (replay (commands [sample_entry]) new).
Proof.
  destruct (apply_to_state_machine_spec false WOk [sample_entry] opened eq_refl)
    as (r & w' & H1 & H2 & H3 & H4 & _ & _ & H7).
  exists r, w'. split_and!; [exact H1|exact H2|exact H3|exact H4|]. by apply H7.
Defined.

Lemma expire_response_is_zero_witness :
  (apply_to_state_machine false WOk [mkEntry (mkLogId 1 1 2) (Normal (ExpireLeases 20000000000))]
     (ran sample_ops opened)).1 = Ok [RLeaseCount 0] ∧ [RLeaseCount 0] = [RLeaseCount 0].
Proof.
  split; [reflexivity|].
  eapply (expire_response_is_zero false WOk (mkLogId 1 1 2) 20000000000 (ran sample_ops opened)).
  reflexivity.
Defined.

Lemma try_get_log_entries_spec_witness :
  try_get_log_entries (Included 1) (Included U64_MAX) (ran sample_ops opened) = Err Panicked.
Proof.
  refine (proj1 (proj2 (proj2 (try_get_log_entries_spec 1 5 (ran sample_ops opened) _))) _); [|lia].
  apply (insert_entries_keyed [sample_entry] ∅). intros k e Hk. by rewrite lookup_empty in Hk.
Defined.

Lemma snapshot_roundtrip_witness :
  ∃ w2', install_snapshot false WOk (mkMeta (Some (mkLogId 1 1 1)) stored_membership_default "snapshot-7")
      (1 :: pos_bits (encode (replay [AcquireLease "k" 1 0 10 5] new))) opened = (Ok tt, w2') ∧
    lock_value (ownership_state (w_sh w2')) =
      lock_value (ownership_state (w_sh (ran sample_ops opened))) ∧
    get_current_snapshot w2' = Some (mkSnapshot (mkMeta (Some (mkLogId 1 1 1)) stored_membership_default "snapshot-7")
      (1 :: pos_bits (encode (replay [AcquireLease "k" 1 0 10 5] new)))) ∧
    log (w_st w2') = ∅.
Proof.
  eapply (snapshot_roundtrip 7 (ran sample_ops opened) _ opened
    (mkSnapshot (mkMeta (Some (mkLogId 1 1 1)) stored_membership_default "snapshot-7")
      (1 :: pos_bits (encode (replay [AcquireLease "k" 1 0 10 5] new))))).
  - exact sample_codec_nonempty.
  - done.
  - intros s. by eexists.
  - reflexivity.
Defined.

Lemma log_state_reports_applied_as_purged_witness :
  (get_log_state (ran sample_ops opened)).1 = Some (mkLogId 1 1 1).
Proof.
  refine (proj1 (log_state_reports_applied_as_purged false [] sample_entry
    (ran (take 2 sample_ops) opened) (ran sample_ops opened) _ _ _)).
  - reflexivity.
  - reflexivity.
Defined.
End concrete.
