(* ===== verification/RaftCluster.v ===== *)
(** * The Raft cluster node (src/cluster/raft_cluster.rs, src/cluster/membership.rs)

    [RaftClusterNode] turns calls into commands, hands them to openraft and
    reads the local copy of the replicated state.  openraft is a parameter:
    each call that reaches it takes its reply, and the documented meaning of a
    committed write is that the local state machine has applied everything
    committed before it, then the command, when the call returns.  Commands
    that commit between that moment and a later read of the same call are
    given explicitly. *)

From S2P Require Import Prelude LockUtils Ownership OwnershipTopics Leases Storage StorageProps.
#[local] Open Scope Z_scope.

(** ** Membership (src/cluster/membership.rs) *)

Inductive MembershipEventType :=
| NodeJoined (node_id : Z) (addr : string)
| NodeLeft (node_id : Z)
| NodeFailed (node_id : Z)
| NodeRecovered (node_id : Z).

Record MembershipEvent := mkEvent { event_type : MembershipEventType; event_timestamp : Z }.

(** [impl Display for MembershipEventType] *)
Definition MembershipEventType_fmt (t : MembershipEventType) : string :=
  match t with
  | NodeJoined i _ => "NodeJoined(" +:+ pretty i +:+ ")"
  | NodeLeft i => "NodeLeft(" +:+ pretty i +:+ ")"
  | NodeFailed i => "NodeFailed(" +:+ pretty i +:+ ")"
  | NodeRecovered i => "NodeRecovered(" +:+ pretty i +:+ ")"
  end.

Definition node_joined (now node_id : Z) (addr : string) := mkEvent (NodeJoined node_id addr) now.
Definition node_left (now node_id : Z) := mkEvent (NodeLeft node_id) now.
Definition node_failed (now node_id : Z) := mkEvent (NodeFailed node_id) now.
Definition node_recovered (now node_id : Z) := mkEvent (NodeRecovered node_id) now.

Record NodeInfo := mkNodeInfo {
  ni_node_id : Z;
  ni_addr : string;
  ni_last_seen : Z;
  ni_is_leader : bool;
}.

Record MembershipView := mkView {
  view_nodes : gmap Z NodeInfo;
  view_leader : option Z;
  view_local_node_id : Z;
}.

Record DdlMetrics := mkMetrics {
  active_leases : nat;
  membership_size : nat;
  state_size_bytes : nat;
  state_key_count : nat;
  raft_commit_index : Z;
  raft_applied_index : Z;
  raft_leader : option Z;
  pending_writes : nat;
  pending_reads : nat;
}.

Record NodeConfig := mkNodeConfig {
  nc_node_id : Z;
  nc_host : string;
  nc_communication_port : Z;
  nc_coordination_port : Z;
}.

(** [impl Display for NodeConfig] *)
Definition NodeConfig_fmt (n : NodeConfig) : string :=
  "NodeConfig(id=" +:+ pretty (nc_node_id n) +:+ ", " +:+ nc_host n +:+ ":{comm=" +:+
  pretty (nc_communication_port n) +:+ ", coord=" +:+ pretty (nc_coordination_port n) +:+ "})".

(** [format!("{}:{}", host, coordination_port)] *)
Definition node_addr (n : NodeConfig) : string :=
  nc_host n +:+ ":" +:+ pretty (nc_coordination_port n).

(** ** The node of src/cluster/raft_node.rs, which coordinates nothing *)

Record ClusterConfig := mkClusterConfig {
  cc_node_id : Z;
  cc_peers : list string;
  cc_timeout_ms : Z;
}.

Definition ClusterConfig_default : ClusterConfig := mkClusterConfig 1 [] 1000.

Record RaftNode := mkRaftNode { rn_config : ClusterConfig }.

(** Both calls print a line and succeed. *)
Definition RaftNode_start (n : RaftNode) : string * result string unit :=
  ("Starting HPC node " +:+ pretty (cc_node_id (rn_config n)) +:+ " with " +:+
   pretty (length (cc_peers (rn_config n))) +:+ " peers", Ok tt).
Definition RaftNode_stop (n : RaftNode) : string * result string unit :=
  ("Stopping HPC node " +:+ pretty (cc_node_id (rn_config n)), Ok tt).

(** ** The node *)

Record RaftClusterNode := mkNode {
  rc_node_id : Z;
  rc_lock : RecoverableLock OwnershipState;
  rc_nodes : gmap Z NodeConfig;
  rc_events : list MembershipEvent;
  rc_initialized : bool;
}.

(** An error message, or the panic of [unwrap] on the poisoned lock. *)
Inductive ClusterError := Msg (m : string) | ClusterPanic.

(** openraft's answer to a write: refused, or committed after [before]. *)
Inductive raft_reply := Rejected (e : string) | Committed (before : list OwnershipCommand).

(** openraft's answer to any other request. *)
Abbreviation raft_answer := (result string unit).

(** What [raft.metrics()] shows. *)
Record RaftMetrics := mkRaftMetrics {
  rm_current_leader : option Z;
  rm_current_term : Z;
  rm_last_log_index : option Z;
}.

Definition node_state (n : RaftClusterNode) : OwnershipState := lock_value (rc_lock n).

Definition with_state (n : RaftClusterNode) (s : OwnershipState) : RaftClusterNode :=
  mkNode (rc_node_id n) (mkLock s (lock_poisoned (rc_lock n)) (poison_count (rc_lock n)))
    (rc_nodes n) (rc_events n) (rc_initialized n).

Definition emit (n : RaftClusterNode) (ev : MembershipEvent) : RaftClusterNode :=
  mkNode (rc_node_id n) (rc_lock n) (rc_nodes n) (rc_events n ++ [ev]) (rc_initialized n).

Definition set_initialized (n : RaftClusterNode) : RaftClusterNode :=
  mkNode (rc_node_id n) (rc_lock n) (rc_nodes n) (rc_events n) true.

(** [RaftClusterNode::new] *)
Definition cluster_new (node_id : Z) (nodes : gmap Z NodeConfig) (created : raft_answer) :
    result string RaftClusterNode :=
  match created with
  | Ok _ => Ok (mkNode node_id (lock_new new) nodes [] false)
  | Err e => Err ("Failed to create Raft: " +:+ e)
  end.

Definition initialize (now : Z) (a : raft_answer) (n : RaftClusterNode) :
    result string unit * RaftClusterNode :=
  if rc_initialized n then (Err "Already initialized", n)
  else match rc_nodes n !! rc_node_id n with
  | None => (Err ("Node " +:+ pretty (rc_node_id n) +:+ " not found in configuration"), n)
  | Some c =>
      match a with
      | Err e => (Err ("Failed to initialize Raft: " +:+ e), n)
      | Ok _ => (Ok tt, set_initialized (emit n (node_joined now (rc_node_id n) (node_addr c))))
      end
  end.

Definition add_node (a : raft_answer) (node_id : Z) (n : RaftClusterNode) : result string unit :=
  map_err (λ e, "Failed to add learner: " +:+ e) a.

Definition add_learner (now : Z) (a : raft_answer) (node_id : Z) (addr : string)
    (n : RaftClusterNode) : result string unit * RaftClusterNode :=
  match a with
  | Err e => (Err ("Failed to add learner: " +:+ e), n)
  | Ok _ => (Ok tt, emit n (node_joined now node_id addr))
  end.

Definition change_membership (a : raft_answer) : result string unit :=
  map_err (λ e, "Failed to change membership: " +:+ e) a.

Definition cluster_shutdown (now : Z) (a : raft_answer) (n : RaftClusterNode) :
    result string unit * RaftClusterNode :=
  (map_err (λ e, "Raft shutdown failed: " +:+ e) a, emit n (node_left now (rc_node_id n))).

(** ** The network of [RaftClusterNode::new] *)

(** openraft's answers to the requests of its protocol. *)
Inductive AppendEntriesResponse := AppendSuccess | AppendPartialSuccess (matching : option LogId)
| AppendConflict | AppendHigherVote (v : Vote).
Record VoteResponse := mkVoteResponse { vr_vote : Vote; vr_granted : bool; vr_last_log_id : option LogId }.
Record InstallSnapshotResponse := mkInstallResponse { ir_vote : Vote }.

(** [InMemoryNetwork] answers for every peer itself, whatever the request. *)
Definition in_memory_append_entries {R} (rpc : R) : AppendEntriesResponse := AppendSuccess.
Definition in_memory_install_snapshot {R} (rpc : R) : InstallSnapshotResponse :=
  mkInstallResponse (mkVote 0 0 false).
Definition in_memory_vote {R} (rpc : R) : VoteResponse := mkVoteResponse (mkVote 0 0 false) true None.

(** ** What [raft.metrics()] is read for *)

Definition get_leader (m : RaftMetrics) : option Z := rm_current_leader m.
Definition current_leader (m : RaftMetrics) : option Z := get_leader m.
Definition current_term (m : RaftMetrics) : Z := rm_current_term m.

Section node.
Context `{HashOrder}.

(** ** Writes *)

(** [raft.client_write(cmd)]. Applying to a poisoned state panics inside
    openraft, which then answers with an error. *)
Definition client_write (reply : raft_reply) (cmd : OwnershipCommand) (n : RaftClusterNode) :
    result string OwnershipResponse * RaftClusterNode :=
  match reply with
  | Rejected e => (Err e, n)
  | Committed before =>
      if lock_poisoned (rc_lock n) then (Err "panicked", n)
      else
        let s := apply cmd (replay before (node_state n)) in
        let '(r, s') := respond cmd s in
        (Ok r, with_state n s')
  end.

Definition propose (reply : raft_reply) (cmd : OwnershipCommand) (n : RaftClusterNode) :
    result ClusterError unit * RaftClusterNode :=
  match client_write reply cmd n with
  | (Ok _, n') => (Ok tt, n')
  | (Err e, n') => (Err (Msg ("Raft proposal failed: " +:+ e)), n')
  end.

Definition claim_topic (reply : raft_reply) (now : Z) (topic : string) (n : RaftClusterNode) :=
  propose reply (ClaimTopic topic (rc_node_id n) now) n.

Definition release_topic (reply : raft_reply) (topic : string) (n : RaftClusterNode) :=
  propose reply (ReleaseTopic topic (rc_node_id n)) n.

Definition transfer_topic (reply : raft_reply) (topic : string) (to_node : Z)
    (n : RaftClusterNode) :=
  propose reply (TransferTopic topic (rc_node_id n) to_node) n.

(** ** Reads *)

(** [ownership_state.read().unwrap()] *)
Definition read_state (n : RaftClusterNode) : result ClusterError OwnershipState :=
  if lock_poisoned (rc_lock n) then Err ClusterPanic else Ok (node_state n).

(** A clone of the replicated state, or the panic. *)
Definition get_ownership_state (n : RaftClusterNode) : result ClusterError OwnershipState := read_state n.

Definition ensure_linearizable (a : raft_answer) : result ClusterError unit :=
  map_err (λ e, Msg ("Linearizable read failed: " +:+ e)) a.

(** [lin] is the answer to the linearizability request, after which the node's
    state includes everything committed before it. *)
Definition cluster_get_owner (lin : raft_answer) (topic : string) (n : RaftClusterNode) :
    result ClusterError (option Z) :=
  _ ← ensure_linearizable lin;
  s ← read_state n;
  Ok (get_owner s topic).

Definition get_owner_local (topic : string) (n : RaftClusterNode) : result ClusterError (option Z) :=
  s ← read_state n; Ok (get_owner s topic).

Definition owns_topic (lin : raft_answer) (topic : string) (n : RaftClusterNode) : bool :=
  match cluster_get_owner lin topic n with
  | Ok (Some owner) => bool_decide (owner = rc_node_id n)
  | _ => false
  end.

Definition owns_topic_local (topic : string) (n : RaftClusterNode) : result ClusterError bool :=
  o ← get_owner_local topic n; Ok (bool_decide (o = Some (rc_node_id n))).

Definition is_leader (m : RaftMetrics) (n : RaftClusterNode) : bool :=
  bool_decide (rm_current_leader m = Some (rc_node_id n)).

Definition get_owned_topics (n : RaftClusterNode) : result ClusterError (list string) :=
  s ← read_state n; Ok (get_node_topics s (rc_node_id n)).

(** ** Leases *)

(** [after]: what commits between the acquisition and the read at the end. *)
Definition cluster_acquire_lease (reply : raft_reply) (after : list OwnershipCommand)
    (now : Z) (key : string) (ttl_secs : Z) (n : RaftClusterNode) :
    result ClusterError LeaseInfo * RaftClusterNode :=
  match read_state n with
  | Err e => (Err e, n)
  | Ok s =>
      let '(lease_id, s1) := take_lease_id s in
      let n1 := with_state n s1 in
      match propose reply (AcquireLease key (rc_node_id n) lease_id ttl_secs now) n1 with
      | (Err e, n2) => (Err e, n2)
      | (Ok _, n2) =>
          let n3 := with_state n2 (replay after (node_state n2)) in
          (ok_or (get_lease_info (node_state n3) key)
             (Msg ("Lease " +:+ pretty lease_id +:+ " was not created")), n3)
      end
  end.

Definition renew_lease (reply : raft_reply) (now lease_id : Z) (n : RaftClusterNode) :=
  propose reply (RenewLease lease_id now) n.

Definition release_lease (reply : raft_reply) (key : string) (n : RaftClusterNode) :=
  propose reply (ReleaseLease key) n.

Definition get_lease_owner (lin : raft_answer) (key : string) (n : RaftClusterNode) :
    result ClusterError (option LeaseInfo) :=
  _ ← ensure_linearizable lin;
  s ← read_state n;
  Ok (get_lease_info s key).

Definition cluster_list_leases (owner : Z) (n : RaftClusterNode) :
    result ClusterError (list LeaseInfo) :=
  s ← read_state n; Ok (list_leases s owner).

Definition cluster_expire_leases (reply : raft_reply) (now : Z) (n : RaftClusterNode) :
    result ClusterError nat * RaftClusterNode :=
  match client_write reply (ExpireLeases now) n with
  | (Ok (RLeaseCount count), n') => (Ok count, n')
  | (Ok _, n') => (Err (Msg "Unexpected response type"), n')
  | (Err e, n') => (Err (Msg ("Raft proposal failed: " +:+ e)), n')
  end.

(** One tick of the task of [start_lease_expiration]: it expires the local
    copy only; a poisoned lock makes the task panic. *)
Definition lease_expiration_tick (now : Z) (n : RaftClusterNode) : RaftClusterNode :=
  match read_state n with
  | Err _ => n
  | Ok s => with_state n (expire_leases now s).2
  end.

(** ** Monitoring *)

Definition cluster_membership (now : Z) (m : RaftMetrics) (n : RaftClusterNode) : MembershipView :=
  let leads i := bool_decide (rm_current_leader m = Some i) in
  let self := mkNodeInfo (rc_node_id n)
                (default "" (node_addr <$> rc_nodes n !! rc_node_id n)) now (leads (rc_node_id n)) in
  let nodes := fold_left (λ acc '(i, c),
      if bool_decide (i ≠ rc_node_id n)
      then <[i := mkNodeInfo i (node_addr c) now (leads i)]> acc else acc)
    (hm_iter (rc_nodes n)) {[ rc_node_id n := self ]} in
  mkView nodes (rm_current_leader m) (rc_node_id n).

Definition metrics (now : Z) (m : RaftMetrics) (n : RaftClusterNode) : DdlMetrics :=
  mkMetrics 0 (size (view_nodes (cluster_membership now m n))) 0 0
    (default 0 (rm_last_log_index m)) (default 0 (rm_last_log_index m))
    (rm_current_leader m) 0 0.

(** ** Lemmas *)

Lemma client_write_committed before cmd n :
  lock_poisoned (rc_lock n) = false →
  client_write (Committed before) cmd n =
    (Ok (respond cmd (apply cmd (replay before (node_state n)))).1,
     with_state n (replay (before ++ [cmd]) (node_state n))).
Proof.
  intros Hp. unfold client_write. rewrite Hp.
  pose proof (respond_state cmd (replay before (node_state n))) as Hs.
  destruct (respond _ _) as [r s']. simpl in *. by rewrite Hs, replay_app.
Qed.

Lemma propose_committed before cmd n :
  lock_poisoned (rc_lock n) = false →
  propose (Committed before) cmd n =
    (Ok tt, with_state n (replay (before ++ [cmd]) (node_state n))).
Proof. intros Hp. unfold propose. by rewrite client_write_committed. Qed.

Lemma node_state_with_state n s : node_state (with_state n s) = s.
Proof. done. Qed.

(** The loop of [membership] as a lookup. *)
Lemma membership_lookup now m n i :
  view_nodes (cluster_membership now m n) !! i =
  if decide (i = rc_node_id n) then
    Some (mkNodeInfo i (default "" (node_addr <$> rc_nodes n !! i)) now
            (bool_decide (rm_current_leader m = Some i)))
  else (λ c, mkNodeInfo i (node_addr c) now (bool_decide (rm_current_leader m = Some i)))
         <$> rc_nodes n !! i.
Proof.
  unfold cluster_membership; simpl. set (self := mkNodeInfo (rc_node_id n) _ _ _).
  set (f := λ acc '(i, c), if bool_decide (i ≠ rc_node_id n) then _ else acc).
  assert (Hgen : ∀ l acc, NoDup l.*1 → fold_left f l acc !! i =
    match (if decide (i = rc_node_id n) then None else list_find (λ kv, kv.1 = i) l) with
    | Some (_, (_, c)) => Some (mkNodeInfo i (node_addr c) now (bool_decide (rm_current_leader m = Some i)))
    | None => acc !! i
    end).
  { induction l as [|[j c] l IH]; intros acc Hnd; simpl; [by case_decide|].
    inversion Hnd as [|?? Hni Hnd']; subst. rewrite IH by done. clear IH.
    case_decide as Hi.
    - subst i. unfold f. case_bool_decide; [by rewrite lookup_insert_ne|done].
    - destruct (decide (j = i)) as [->|Hj].
      + replace (list_find (λ kv : Z * NodeConfig, kv.1 = i) l) with (None : option (nat * (Z * NodeConfig))).
        * unfold f. by rewrite bool_decide_true, lookup_insert_eq.
        * symmetry. apply list_find_None. apply Forall_forall. intros [i' c'] Hin; simpl.
          intros ->. apply Hni. by apply (list_elem_of_fmap_2 fst) in Hin.
      + destruct (list_find _ l) as [[? [? ?]]|]; simpl; [done|].
        unfold f. case_bool_decide; [by rewrite lookup_insert_ne|done]. }
  rewrite Hgen by apply NoDup_hm_keys. case_decide as Hi.
  - subst i. by rewrite lookup_singleton_eq.
  - destruct (list_find _ _) as [[k [j c]]|] eqn:Hf.
    + apply list_find_Some in Hf as (Hl & Hj & _). simpl in Hj. subst j.
      apply list_elem_of_lookup_2, elem_of_hm_iter in Hl. by rewrite Hl.
    + rewrite lookup_singleton_ne by done. apply list_find_None in Hf.
      destruct (rc_nodes n !! i) as [c|] eqn:Hc; [|done].
      apply elem_of_hm_iter in Hc. rewrite Forall_forall in Hf. by apply Hf in Hc.
Qed.
End node.

(** ** Properties *)

Section cluster_properties.
Context `{HashOrder}.

(** Topic calls against a committed write. A node that claims a topic, with
    everything committed before, owns it for linearizable and local reads; a
    release by the owner leaves it ownerless; a release by another node
    changes nothing; and a rejected proposal changes nothing. *)
Theorem claim_then_owns (before : list OwnershipCommand) (now : Z) (topic : string)
    (e : string) (n : RaftClusterNode) :
  lock_poisoned (rc_lock n) = false →
  (∃ n', claim_topic (Committed before) now topic n = (Ok tt, n') ∧
     owns_topic (Ok tt) topic n' = true ∧ owns_topic_local topic n' = Ok true ∧
     (∃ n'', release_topic (Committed []) topic n' = (Ok tt, n'') ∧
        cluster_get_owner (Ok tt) topic n'' = Ok None)) ∧
  (get_owner (node_state n) topic ≠ Some (rc_node_id n) →
     release_topic (Committed []) topic n = (Ok tt, n)) ∧
  claim_topic (Rejected e) now topic n = (Err (Msg ("Raft proposal failed: " +:+ e)), n).
Proof.
  intros Hp. split_and!.
  - unfold claim_topic. rewrite propose_committed by done. eexists. split; [done|].
    set (s := replay _ _). assert (Ho : get_owner s topic = Some (rc_node_id n)).
    { unfold s. rewrite replay_app. unfold get_owner; simpl. by rewrite lookup_insert_eq. }
    unfold owns_topic, owns_topic_local, cluster_get_owner, get_owner_local, read_state; simpl.
    rewrite Hp; simpl. rewrite node_state_with_state, Ho, !bool_decide_true by done.
    split_and!; [done|done|]. unfold release_topic. rewrite propose_committed by done.
    eexists. split; [done|]. unfold cluster_get_owner, read_state; simpl. rewrite Hp; simpl.
    rewrite node_state_with_state. unfold get_owner in *. unfold replay; simpl.
    unfold apply_release. rewrite node_state_with_state, decide_True by done; simpl.
    by rewrite lookup_delete_eq.
  - intros Hno. unfold release_topic. rewrite propose_committed by done. simpl.
    unfold replay; simpl. unfold apply_release, get_owner in *. rewrite decide_False by done.
    by destruct n as [? [] ? ? ?].
  - done.
Qed.

(** [acquire_lease] answers with whoever holds the key. When the key is
    held at the caller's time, the call succeeds and returns the holder's lease,
    whichever node that is, instead of the error its documentation promises;
    the caller must compare the owner itself. *)
Theorem acquire_lease_returns_holder (before : list OwnershipCommand) (now : Z) (key : string)
    (ttl_secs : Z) (n : RaftClusterNode) (l : LeaseEntry) :
  lock_poisoned (rc_lock n) = false →
  held_lease (replay before (take_lease_id (node_state n)).2) key now = Some l →
  ∃ n', cluster_acquire_lease (Committed before) [] now key ttl_secs n =
    (Ok (LeaseInfo_from l), n').
Proof.
  intros Hp Hheld. unfold cluster_acquire_lease, read_state. rewrite Hp.
  destruct (take_lease_id (node_state n)) as [id s1]. simpl in Hheld.
  rewrite propose_committed by done. simpl.
  rewrite !node_state_with_state, replay_app. unfold replay at 1; simpl.
  unfold apply_acquire. rewrite Hheld.
  assert (Hinfo : get_lease_info (replay before s1) key = Some (LeaseInfo_from l)).
  { unfold held_lease in Hheld. unfold get_lease_info.
    destruct (key_leases _ !! key) as [j|]; simpl in *; [|done].
    destruct (leases _ !! j) as [l'|]; simpl in *; [|done].
    case_bool_decide; by simplify_eq. }
  rewrite Hinfo. by eexists.
Qed.

(** Lease ids are drawn from the caller's local copy, so two nodes with the
    same state that acquire different free keys at the same time use the same
    id; once both writes commit, the first key resolves to the second node's
    lease. *)
Theorem concurrent_acquires_collide (s : OwnershipState) (n1 n2 : RaftClusterNode)
    (k1 k2 : string) (t1 t2 ttl1 ttl2 : Z) :
  node_state n1 = s → node_state n2 = s →
  lock_poisoned (rc_lock n1) = false → lock_poisoned (rc_lock n2) = false →
  k1 ≠ k2 → key_leases s !! k1 = None → key_leases s !! k2 = None →
  let id := next_lease_id s in
  let cmd1 := AcquireLease k1 (rc_node_id n1) id ttl1 t1 in
  ∃ n2', cluster_acquire_lease (Committed [cmd1]) [] t2 k2 ttl2 n2 =
      (Ok (mkLeaseInfo id k2 (rc_node_id n2) t2 (lease_deadline t2 ttl2) ttl2), n2') ∧
    (cluster_acquire_lease (Committed []) [] t1 k1 ttl1 n1).1 =
      Ok (mkLeaseInfo id k1 (rc_node_id n1) t1 (lease_deadline t1 ttl1) ttl1) ∧
    get_lease_owner (Ok tt) k1 n2' =
      Ok (Some (mkLeaseInfo id k2 (rc_node_id n2) t2 (lease_deadline t2 ttl2) ttl2)).
Proof.
  intros Hs1 Hs2 Hp1 Hp2 Hk Hk1 Hk2 id cmd1.
  assert (Hfree : ∀ (s' : OwnershipState) k t, key_leases s' !! k = None → held_lease s' k t = None)
    by (intros s' k t Hn; unfold held_lease; by rewrite Hn).
  unfold cluster_acquire_lease, read_state. rewrite Hp1, Hp2, Hs1, Hs2. simpl.
  rewrite !propose_committed by done. simpl. rewrite !node_state_with_state.
  unfold replay; simpl. unfold apply_acquire. rewrite !(Hfree (with_leases s _ _ _)) by done.
  rewrite (Hfree (with_leases _ (<[_ := _]> _) _ _)) by (simpl; by rewrite lookup_insert_ne).
  unfold get_lease_info; simpl. rewrite !lookup_insert_eq; simpl. rewrite !lookup_insert_eq; simpl.
  eexists. split_and!; [done|done|].
  unfold get_lease_owner, read_state; simpl. rewrite Hp2; simpl.
  unfold node_state, get_lease_info; simpl. rewrite lookup_insert_ne, lookup_insert_eq by done. simpl.
  by rewrite lookup_insert_eq.
Qed.

(** The background expiry task breaks replication. It expires the local
    copy without a command; if a node whose clock is behind then acquires the
    key, the replica that ran the task accepts the lease and one that did not
    refuses it, so the two disagree on the owner from the same log. *)
Theorem local_expiration_diverges (s : OwnershipState) (n1 n2 : RaftClusterNode)
    (key : string) (id : Z) (l : LeaseEntry) (o j ttl ts now : Z) :
  node_state n1 = s → node_state n2 = s →
  lock_poisoned (rc_lock n1) = false →
  key_leases s !! key = Some id → leases s !! id = Some l → le_key l = key →
  ts < le_expires_at l → le_expires_at l ≤ now →
  let cmd := AcquireLease key o j ttl ts in
  get_lease_info (apply cmd (node_state (lease_expiration_tick now n1))) key =
    Some (mkLeaseInfo j key o ts (lease_deadline ts ttl) ttl) ∧
  get_lease_info (apply cmd (node_state n2)) key = Some (LeaseInfo_from l).
Proof.
  intros Hs1 Hs2 Hp Hk Hl Hkey Hts Hnow cmd. split.
  - unfold lease_expiration_tick, read_state. rewrite Hp, Hs1. simpl.
    rewrite node_state_with_state.
    assert (Hnone : key_leases (apply_expire now s) !! key = None).
    { destruct (key_leases (apply_expire now s) !! key) eqn:He; [|done].
      apply expire_key_leases_Some in He as [_ []]. by exists id, l. }
    unfold apply_expire in Hnone. unfold apply_acquire, held_lease. rewrite Hnone; simpl.
    unfold get_lease_info; simpl. rewrite lookup_insert_eq; simpl. by rewrite lookup_insert_eq.
  - rewrite Hs2. simpl. unfold apply_acquire, held_lease. rewrite Hk; simpl. rewrite Hl; simpl.
    rewrite bool_decide_true by lia. unfold get_lease_info. rewrite Hk; simpl. by rewrite Hl.
Qed.

(** The replicated expiry always reports zero. *)
Lemma cluster_expire_counts_zero before now n :
  lock_poisoned (rc_lock n) = false →
  (cluster_expire_leases (Committed before) now n).1 = Ok 0%nat.
Proof.
  intros Hp. unfold cluster_expire_leases. rewrite client_write_committed by done.
  by rewrite respond_expire.
Qed.
End cluster_properties.

(** ** Concrete runs *)

Section concrete.
#[local] Existing Instance canonical_order.

Definition node_of (i : Z) (s : OwnershipState) : RaftClusterNode :=
  mkNode i (lock_new s) {[ i := mkNodeConfig i "localhost" 8080 9090 ]} [] true.

Definition leased : OwnershipState := replay [AcquireLease "k" 1 0 10 5] new.

Lemma claim_then_owns_witness :
  ∃ n', claim_topic (Committed [ClaimTopic "t" 2 3]) 4 "t" (node_of 1 new) = (Ok tt, n') ∧
    owns_topic (Ok tt) "t" n' = true.
Proof.
  destruct (claim_then_owns [ClaimTopic "t" 2 3] 4 "t" "e" (node_of 1 new))
    as [(n' & H1 & H2 & _) _]; [reflexivity|]. by exists n'.
Defined.

Lemma acquire_lease_returns_holder_witness :
  ∃ n', cluster_acquire_lease (Committed []) [] 7 "k" 10 (node_of 2 leased) =
    (Ok (mkLeaseInfo 0 "k" 1 5 10000000005 10), n').
Proof.
  apply (acquire_lease_returns_holder [] 7 "k" 10 (node_of 2 leased)
           (mkLease 0 "k" 1 5 10 10000000005)); reflexivity.
Defined.

Lemma concurrent_acquires_collide_witness :
  ∃ n2', cluster_acquire_lease (Committed [AcquireLease "a" 1 0 10 5]) [] 6 "b" 10 (node_of 2 new) =
    (Ok (mkLeaseInfo 0 "b" 2 6 10000000006 10), n2').
Proof.
  destruct (concurrent_acquires_collide new (node_of 1 new) (node_of 2 new) "a" "b" 5 6 10 10)
    as (n2' & H & _); try done. by exists n2'.
Defined.

Lemma local_expiration_diverges_witness :
  get_lease_info (apply (AcquireLease "k" 2 1 10 6)
    (node_state (lease_expiration_tick 20000000000 (node_of 1 leased)))) "k" =
  Some (mkLeaseInfo 1 "k" 2 6 10000000006 10).
Proof.
  refine (proj1 (local_expiration_diverges leased (node_of 1 leased) (node_of 3 leased) "k" 0
    (mkLease 0 "k" 1 5 10 10000000005) 2 1 10 6 20000000000 _ _ _ _ _ _ _ _));
    try reflexivity; by vm_compute.
Defined.
End concrete.
