(* ===== verification/Group.v ===== *)
(** * A group of cluster nodes over one committed log

    Several [RaftClusterNode]s of src/cluster/raft_cluster.rs, made by [new_tcp] so
    that they reach each other, share what openraft keeps for them: one sequence of
    committed commands, and for every node how many of them count as applied there.
    A call that openraft acknowledges finds its command committed and everything up
    to it applied on the calling node; a read that openraft declares linearizable
    finds everything committed applied; a call that fails may still have committed
    its command.  In between, nodes apply further commands, build snapshots of their
    state, install snapshots of other nodes, and expire leases locally on their own
    clock.

    A snapshot carries the state of its node, but [build_snapshot]
    (src/cluster/storage.rs) stamps it with the end of the node's log, whether or not
    the entries up to there are applied; the node that installs it counts all of them
    as applied.

    The abstract specification of the group is a single map from topics to
    owners. *)

From S2P Require Import Prelude LockUtils Ownership OwnershipTopics Leases Storage StorageProps RaftCluster.
#[local] Open Scope Z_scope.

(** A node and how many of the committed commands count as applied there. *)
Record Member := mkMember { m_node : RaftClusterNode; m_applied : nat }.

(** The state a node wrote out, and the position in the log it is stamped with. *)
Record StampedState := mkStamped { sn_state : OwnershipState; sn_index : nat }.

Record Group := mkGroup {
  g_log : list OwnershipCommand;
  g_members : list Member;
  g_snapshots : list StampedState;
}.

(** How openraft treats a call: it succeeds; it fails without effect; it fails
    for the caller although the command commits. *)
Inductive Outcome := Acked | Refused (e : string) | Lost (e : string).

#[global] Instance Outcome_eq_dec : EqDecision Outcome.
Proof. solve_decision. Defined.

(** The calls of a node's interface that go through openraft; an acquisition reads
    its lease back when it has been acknowledged, and [after] is what commits between
    the two. *)
Inductive Call :=
| CClaim (now : Z) (topic : string)
| CRelease (topic : string)
| CTransfer (topic : string) (to_node : Z)
| CAcquire (now : Z) (key : string) (ttl_secs : Z) (after : list OwnershipCommand)
| CRenew (now lease_id : Z)
| CReleaseLease (key : string)
| CExpire (now : Z)
| CGetOwner (topic : string)
| COwns (topic : string).

Inductive Answer :=
| AUnit (r : result ClusterError unit)
| ALease (r : result ClusterError LeaseInfo)
| ACount (r : result ClusterError nat)
| AOwner (r : result ClusterError (option Z))
| ABool (b : bool).

(** [EBuild i k]: node [i] builds a snapshot while the last [k] entries of its log are
    not applied there.  [EInstall i s]: node [i] installs the [s]-th snapshot built. *)
Inductive GEvent :=
| ECall (i : nat) (o : Outcome) (c : Call)
| EApply (i k : nat)
| EBuild (i k : nat)
| EInstall (i s : nat)
| ETick (i : nat) (now : Z).

Section group.
Context `{HashOrder}.

Definition perform (reply : raft_reply) (lin : raft_answer) (c : Call) (n : RaftClusterNode) :
    Answer * RaftClusterNode :=
  match c with
  | CClaim now t => let '(r, n') := claim_topic reply now t n in (AUnit r, n')
  | CRelease t => let '(r, n') := release_topic reply t n in (AUnit r, n')
  | CTransfer t to => let '(r, n') := transfer_topic reply t to n in (AUnit r, n')
  | CAcquire now k ttl after =>
      let '(r, n') := cluster_acquire_lease reply after now k ttl n in (ALease r, n')
  | CRenew now id => let '(r, n') := renew_lease reply now id n in (AUnit r, n')
  | CReleaseLease k => let '(r, n') := release_lease reply k n in (AUnit r, n')
  | CExpire now => let '(r, n') := cluster_expire_leases reply now n in (ACount r, n')
  | CGetOwner t => (AOwner (cluster_get_owner lin t n), n)
  | COwns t => (ABool (owns_topic lin t n), n)
  end.

(** The command a call proposes, if it writes. *)
Definition command_of (c : Call) (n : RaftClusterNode) : option OwnershipCommand :=
  let me := rc_node_id n in
  match c with
  | CClaim now t => Some (ClaimTopic t me now)
  | CRelease t => Some (ReleaseTopic t me)
  | CTransfer t to => Some (TransferTopic t me to)
  | CAcquire now k ttl _ => Some (AcquireLease k me (next_lease_id (node_state n)) ttl now)
  | CRenew now id => Some (RenewLease id now)
  | CReleaseLease k => Some (ReleaseLease k)
  | CExpire now => Some (ExpireLeases now)
  | CGetOwner _ | COwns _ => None
  end.

(** What commits, and is applied on the calling node, before the call returns. *)
Definition interleaved (c : Call) : list OwnershipCommand :=
  match c with CAcquire _ _ _ after => after | _ => [] end.

Definition missing (g : Group) (m : Member) : list OwnershipCommand := drop (m_applied m) (g_log g).

Definition apply_more (cmds : list OwnershipCommand) (n : RaftClusterNode) : RaftClusterNode :=
  with_state n (replay cmds (node_state n)).

Definition set_member (g : Group) (i : nat) (m : Member) : Group :=
  mkGroup (g_log g) (<[i := m]> (g_members g)) (g_snapshots g).

Definition commit (cmds : list OwnershipCommand) (g : Group) : Group :=
  mkGroup (g_log g ++ cmds) (g_members g) (g_snapshots g).

Definition write_step (i : nat) (o : Outcome) (c : Call) (cmd : OwnershipCommand) (m : Member)
    (g : Group) : Answer * Group :=
  match o with
  | Acked =>
      let '(a, n') := perform (Committed (missing g m)) (Ok tt) c (m_node m) in
      let g1 := commit (cmd :: interleaved c) g in
      (a, set_member g1 i (mkMember n' (length (g_log g1))))
  | Refused e =>
      let '(a, n') := perform (Rejected e) (Err e) c (m_node m) in
      (a, set_member g i (mkMember n' (m_applied m)))
  | Lost e =>
      let '(a, n') := perform (Rejected e) (Err e) c (m_node m) in
      (a, set_member (commit [cmd] g) i (mkMember n' (m_applied m)))
  end.

Definition read_step (i : nat) (o : Outcome) (c : Call) (m : Member) (g : Group) : Answer * Group :=
  match o with
  | Acked =>
      let n1 := apply_more (missing g m) (m_node m) in
      ((perform (Rejected "") (Ok tt) c n1).1, set_member g i (mkMember n1 (length (g_log g))))
  | Refused e | Lost e => ((perform (Rejected e) (Err e) c (m_node m)).1, g)
  end.

Definition call_step (i : nat) (o : Outcome) (c : Call) (m : Member) (g : Group) : Answer * Group :=
  match command_of c (m_node m) with
  | Some cmd => write_step i o c cmd m g
  | None => read_step i o c m g
  end.

(** The stamp is the end of the node's log; entries that are not committed yet are not
    part of the group's log, so a stamp beyond it is left out. *)
Definition build (k : nat) (m : Member) (g : Group) : Group :=
  if bool_decide (m_applied m + k ≤ length (g_log g))%nat
  then mkGroup (g_log g) (g_members g)
         (g_snapshots g ++ [mkStamped (node_state (m_node m)) (m_applied m + k)])
  else g.

(** openraft installs a snapshot on nodes that are not ahead of its stamp. *)
Definition install (m : Member) (sn : StampedState) : Member :=
  if bool_decide (m_applied m ≤ sn_index sn)%nat
  then mkMember (with_state (m_node m) (sn_state sn)) (sn_index sn) else m.

Definition gstep (ev : GEvent) (g : Group) : option Answer * Group :=
  match ev with
  | ECall i o c =>
      match g_members g !! i with
      | Some m => let '(a, g') := call_step i o c m g in (Some a, g')
      | None => (None, g)
      end
  | EApply i k =>
      match g_members g !! i with
      | Some m =>
          let cmds := take k (missing g m) in
          (None, set_member g i (mkMember (apply_more cmds (m_node m)) (m_applied m + length cmds)))
      | None => (None, g)
      end
  | EBuild i k =>
      match g_members g !! i with
      | Some m => (None, build k m g)
      | None => (None, g)
      end
  | EInstall i s =>
      match g_members g !! i, g_snapshots g !! s with
      | Some m, Some sn => (None, set_member g i (install m sn))
      | _, _ => (None, g)
      end
  | ETick i now =>
      match g_members g !! i with
      | Some m => (None, set_member g i (mkMember (lease_expiration_tick now (m_node m)) (m_applied m)))
      | None => (None, g)
      end
  end.

Fixpoint grun (evs : list GEvent) (g : Group) : list (option Answer) * Group :=
  match evs with
  | [] => ([], g)
  | ev :: evs =>
      let '(a, g1) := gstep ev g in
      let '(l, g2) := grun evs g1 in (a :: l, g2)
  end.

(** ** The abstract group: one map from topics to owners *)

Definition failed {A} (o : Outcome) (prefix : string) (a : A) : result ClusterError A :=
  match o with Acked => Ok a | Refused e | Lost e => Err (Msg (prefix +:+ e)) end.

Definition takes_effect (o : Outcome) : bool := match o with Refused _ => false | _ => true end.

(** A call by node [me], and the answer; what the calls on leases answer is left
    open. *)
Definition spec_call (me : Z) (o : Outcome) (c : Call) (m : gmap string Z) :
    option Answer * gmap string Z :=
  let written := AUnit (failed o "Raft proposal failed: " tt) in
  let effect cmd := if takes_effect o then spec_apply cmd m else m in
  match c with
  | CClaim now t => (Some written, effect (ClaimTopic t me now))
  | CRelease t => (Some written, effect (ReleaseTopic t me))
  | CTransfer t to => (Some written, effect (TransferTopic t me to))
  | CAcquire _ _ _ after => (None, match o with Acked => spec_replay after m | _ => m end)
  | CRenew _ _ | CReleaseLease _ | CExpire _ => (None, m)
  | CGetOwner t => (Some (AOwner (failed o "Linearizable read failed: " (m !! t))), m)
  | COwns t => (Some (ABool (bool_decide (o = Acked ∧ m !! t = Some me))), m)
  end.

Definition spec_event (ids : list Z) (ev : GEvent) (m : gmap string Z) :
    option Answer * gmap string Z :=
  match ev with
  | ECall i o c => match ids !! i with Some me => spec_call me o c m | None => (None, m) end
  | _ => (None, m)
  end.

Fixpoint spec_run (ids : list Z) (evs : list GEvent) (m : gmap string Z) :
    list (option Answer) * gmap string Z :=
  match evs with
  | [] => ([], m)
  | ev :: evs =>
      let '(a, m1) := spec_event ids ev m in
      let '(l, m2) := spec_run ids evs m1 in (a :: l, m2)
  end.
End group.

(** Every snapshot is built on a node that has applied its whole log. *)
Definition built_applied (ev : GEvent) : bool :=
  match ev with EBuild _ (S _) => false | _ => true end.

(** The specification allows the answer. *)
Definition allows (spec got : option Answer) : Prop := ∀ a, spec = Some a → got = Some a.

(** ** Simulation *)

Section simulation.
Context `{HashOrder}.

(** A node that has moved on by the topic effects of [cmds]. *)
Record moved (cmds : list OwnershipCommand) (n n' : RaftClusterNode) : Prop := {
  mv_id : rc_node_id n' = rc_node_id n;
  mv_lock : lock_poisoned (rc_lock n') = lock_poisoned (rc_lock n);
  mv_owners : ownership (node_state n') = spec_replay cmds (ownership (node_state n));
  mv_index : index_ok (node_state n) → index_ok (node_state n');
}.

Lemma replay_keeps_index cmds s : index_ok s → index_ok (replay cmds s).
Proof. intros Hs. apply replay_invariant; [|done]. intros. by apply apply_index_ok. Qed.

Lemma moved_state cmds n s :
  ownership s = ownership (node_state n) → node_topics s = node_topics (node_state n) →
  moved cmds n (with_state n (replay cmds s)).
Proof.
  intros Ho Ht. split; [done|done| |].
  - by rewrite node_state_with_state, replay_refines, Ho.
  - intros Hi. rewrite node_state_with_state. apply replay_keeps_index. by eapply index_ok_same.
Qed.

Lemma moved_refl n : moved [] n n.
Proof. by split. Qed.

Lemma propose_moved before cmd n r n' :
  lock_poisoned (rc_lock n) = false → propose (Committed before) cmd n = (r, n') →
  r = Ok tt ∧ moved (before ++ [cmd]) n n'.
Proof. intros Hp. rewrite propose_committed by done. intros [= <- <-]. split; [done|]. by apply moved_state. Qed.

(** A write that openraft acknowledges. *)
Lemma perform_committed before c cmd n a n' m :
  lock_poisoned (rc_lock n) = false → command_of c n = Some cmd →
  perform (Committed before) (Ok tt) c n = (a, n') →
  moved (before ++ cmd :: interleaved c) n n' ∧
  allows (spec_call (rc_node_id n) Acked c m).1 (Some a) ∧
  (spec_call (rc_node_id n) Acked c m).2 = spec_replay (cmd :: interleaved c) m.
Proof.
  intros Hp Hc Hf. destruct c as [now t|t|t to|now k ttl after|now id|k|now|t|t]; simpl in Hc; simplify_eq; simpl in Hf;
    unfold claim_topic, release_topic, transfer_topic, renew_lease, release_lease in Hf;
    try (destruct (propose _ _ _) as [r n1] eqn:Hpr;
         apply propose_moved in Hpr as [-> Hm]; [|done]; simplify_eq;
         split_and!; [done|intros ? ?; by simplify_eq/=|done]).
  - unfold cluster_acquire_lease, read_state in Hf. rewrite Hp in Hf. cbn [take_lease_id] in Hf.
    rewrite propose_committed in Hf by done. simplify_eq.
    split; [|by split]. rewrite !node_state_with_state, <- replay_app, <- app_assoc.
    by apply (moved_state _ n (take_lease_id (node_state n)).2).
  - unfold cluster_expire_leases in Hf. rewrite client_write_committed in Hf by done.
    rewrite respond_expire in Hf. simplify_eq. by split_and!; [apply moved_state| |].
Qed.

(** A write that openraft does not acknowledge. *)
Lemma perform_rejected o e c cmd n a n' m :
  lock_poisoned (rc_lock n) = false → command_of c n = Some cmd → o = Refused e ∨ o = Lost e →
  perform (Rejected e) (Err e) c n = (a, n') →
  moved [] n n' ∧ allows (spec_call (rc_node_id n) o c m).1 (Some a) ∧
  (spec_call (rc_node_id n) o c m).2 = if takes_effect o then spec_apply cmd m else m.
Proof.
  intros Hp Hc Ho Hf.
  destruct c as [now t|t|t to|now k ttl after|now id|k|now|t|t]; simpl in Hc; simplify_eq; simpl in Hf;
    unfold cluster_acquire_lease, read_state in Hf; rewrite ?Hp in Hf; simpl in Hf; simplify_eq;
    destruct Ho as [-> | ->]; simpl;
    (split_and!; [first [apply moved_refl | by apply (moved_state [] n (take_lease_id (node_state n)).2)]|
       intros ? ?; by simplify_eq/=|done]).
Qed.

(** A read with everything committed applied, and one openraft refuses. *)
Lemma perform_read lin o c n m :
  lock_poisoned (rc_lock n) = false → command_of c n = None →
  match o with
  | Acked => lin = Ok tt ∧ ownership (node_state n) = m
  | Refused e | Lost e => lin = Err e
  end →
  allows (spec_call (rc_node_id n) o c m).1 (Some (perform (Rejected "") lin c n).1) ∧
  (spec_call (rc_node_id n) o c m).2 = m.
Proof.
  intros Hp Hc Ho. destruct c as [| | | | | | |t|t]; simpl in Hc; try done; (split; [|done]);
    intros a [= <-]; simpl; unfold owns_topic, cluster_get_owner, read_state, get_owner; rewrite Hp;
    destruct o as [|e|e]; try subst lin; try (destruct Ho as [-> <-]); simpl; try done; do 2 f_equal.
  destruct (ownership _ !! t) as [x|]; [|symmetry; apply bool_decide_false; naive_solver].
  apply bool_decide_ext. naive_solver.
Qed.

(** *** The invariant *)

Record member_ok (log : list OwnershipCommand) (m : Member) : Prop := {
  mo_prefix : (m_applied m ≤ length log)%nat;
  mo_lock : lock_poisoned (rc_lock (m_node m)) = false;
  mo_owners : ownership (node_state (m_node m)) = spec_replay (take (m_applied m) log) ∅;
  mo_index : index_ok (node_state (m_node m));
}.

(** A snapshot that holds what its stamp says. *)
Record snapshot_ok (log : list OwnershipCommand) (sn : StampedState) : Prop := {
  sk_prefix : (sn_index sn ≤ length log)%nat;
  sk_owners : ownership (sn_state sn) = spec_replay (take (sn_index sn) log) ∅;
  sk_index : index_ok (sn_state sn);
}.

Definition member_id (m : Member) : Z := rc_node_id (m_node m).

(** The group stands for the map [m]. *)
Record group_ok (ids : list Z) (g : Group) (m : gmap string Z) : Prop := {
  go_ids : member_id <$> g_members g = ids;
  go_members : Forall (member_ok (g_log g)) (g_members g);
  go_snapshots : Forall (snapshot_ok (g_log g)) (g_snapshots g);
  go_spec : m = spec_replay (g_log g) ∅;
}.

Lemma spec_replay_app a b m : spec_replay (a ++ b) m = spec_replay b (spec_replay a m).
Proof. apply fold_left_app. Qed.

Lemma member_ok_commit log cmds m : member_ok log m → member_ok (log ++ cmds) m.
Proof.
  intros [H1 H2 H3 H4]. split; [rewrite length_app; lia|done| |done]. by rewrite take_app_le.
Qed.

Lemma snapshot_ok_commit log cmds sn : snapshot_ok log sn → snapshot_ok (log ++ cmds) sn.
Proof. intros [H1 H2 H3]. split; [rewrite length_app; lia| |done]. by rewrite take_app_le. Qed.

(** A member that moves on by the next [k] commands of the log. *)
Lemma member_ok_moved log m k n' :
  member_ok log m → moved (take k (drop (m_applied m) log)) (m_node m) n' →
  member_ok log (mkMember n' (m_applied m + length (take k (drop (m_applied m) log)))).
Proof.
  intros [H1 H2 H3 H4] [M1 M2 M3 M4]. split; simpl; [|congruence| |by apply M4].
  - rewrite length_take, length_drop. lia.
  - by rewrite M3, H3, <- spec_replay_app, take_more.
Qed.

Lemma member_ok_still log m n' :
  member_ok log m → moved [] (m_node m) n' → member_ok log (mkMember n' (m_applied m)).
Proof.
  intros Hm Hn. pose proof (member_ok_moved log m 0 n' Hm) as Hk. simpl in Hk.
  rewrite Nat.add_0_r in Hk. by apply Hk.
Qed.

Lemma set_member_ok ids g m i x x' :
  group_ok ids g m → g_members g !! i = Some x → member_id x' = member_id x →
  member_ok (g_log g) x' → group_ok ids (set_member g i x') m.
Proof.
  intros [Hids Hall Hsn Hs] Hx Hid Hx'. split; simpl; [|by apply Forall_insert|done|done].
  rewrite list_fmap_insert, Hid, <- Hids. apply list_insert_id. by rewrite list_lookup_fmap, Hx.
Qed.

Lemma commit_ok ids g m cmds : group_ok ids g m → group_ok ids (commit cmds g) (spec_replay cmds m).
Proof.
  intros [Hids Hall Hsn ->]. split; simpl; [done| | |by rewrite spec_replay_app].
  - eapply Forall_impl; [done|]. intros x. apply member_ok_commit.
  - eapply Forall_impl; [done|]. intros x. apply snapshot_ok_commit.
Qed.

(** A member that has applied the whole log. *)
Lemma caught_up ids g m x n' :
  group_ok ids g m → member_ok (g_log g) x → moved (missing g x) (m_node x) n' →
  member_ok (g_log g) (mkMember n' (length (g_log g))) ∧ ownership (node_state n') = m.
Proof.
  intros [_ _ _ ->] Hx Hm. pose proof (member_ok_moved _ _ (length (g_log g)) n' Hx) as Hk.
  unfold missing in Hm. rewrite take_ge in Hk by (rewrite length_drop; lia). specialize (Hk Hm).
  rewrite length_drop in Hk.
  replace (m_applied x + (length (g_log g) - m_applied x))%nat with (length (g_log g)) in Hk
    by (pose proof (mo_prefix _ _ Hx); lia).
  split; [done|]. pose proof (mo_owners _ _ Hk) as Ho. simpl in Ho. by rewrite take_ge in Ho.
Qed.

Lemma write_step_ok ids g m i o c cmd x a g' :
  group_ok ids g m → g_members g !! i = Some x → command_of c (m_node x) = Some cmd →
  write_step i o c cmd x g = (a, g') →
  allows (spec_call (member_id x) o c m).1 (Some a) ∧ group_ok ids g' (spec_call (member_id x) o c m).2.
Proof.
  intros Hg Hx Hc Hw. pose proof (Forall_lookup_1 _ _ _ _ (go_members _ _ _ Hg) Hx) as Hok.
  pose proof (mo_lock _ _ Hok) as Hp. unfold write_step in Hw. destruct o as [|e|e].
  - destruct (perform _ _ _ _) as [a' n'] eqn:Hf. simplify_eq.
    destruct (perform_committed _ _ _ _ _ _ m Hp Hc Hf) as (Hm & Ha & Hs). split; [done|].
    unfold member_id. rewrite Hs. pose proof (commit_ok ids g m (cmd :: interleaved c) Hg) as Hg'.
    apply (set_member_ok ids _ _ i x); [done|done|apply (mv_id _ _ _ Hm)|].
    apply (caught_up ids _ _ x _ Hg'); [by apply member_ok_commit|].
    unfold missing. simpl. by rewrite drop_app_le by apply (mo_prefix _ _ Hok).
  - destruct (perform _ _ _ _) as [a' n'] eqn:Hf. simplify_eq.
    destruct (perform_rejected (Refused e) e c cmd _ _ _ m Hp Hc ltac:(by left) Hf) as (Hm & Ha & Hs).
    split; [done|]. unfold member_id. rewrite Hs. simpl.
    apply (set_member_ok ids _ _ i x); [done|done|apply (mv_id _ _ _ Hm)|].
    by apply member_ok_still.
  - destruct (perform _ _ _ _) as [a' n'] eqn:Hf. simplify_eq.
    destruct (perform_rejected (Lost e) e c cmd _ _ _ m Hp Hc ltac:(by right) Hf) as (Hm & Ha & Hs).
    split; [done|]. unfold member_id. rewrite Hs. simpl.
    apply (set_member_ok ids _ _ i x); [by apply (commit_ok _ _ _ [cmd])|done|apply (mv_id _ _ _ Hm)|].
    by apply member_ok_commit, member_ok_still.
Qed.

Lemma command_of_with_state c n s :
  command_of c n = None → command_of c (with_state n s) = None.
Proof. by destruct c. Qed.

Lemma read_step_ok ids g m i o c x a g' :
  group_ok ids g m → g_members g !! i = Some x → command_of c (m_node x) = None →
  read_step i o c x g = (a, g') →
  allows (spec_call (member_id x) o c m).1 (Some a) ∧ group_ok ids g' (spec_call (member_id x) o c m).2.
Proof.
  intros Hg Hx Hc Hw. pose proof (Forall_lookup_1 _ _ _ _ (go_members _ _ _ Hg) Hx) as Hok.
  pose proof (mo_lock _ _ Hok) as Hp. unfold read_step in Hw.
  assert (∀ lin r n, perform r lin c n = perform (Rejected "") lin c n ∨ command_of c n ≠ None) as Hr.
  { intros lin r n. destruct c; simpl; by (left + right). }
  destruct o as [|e|e]; simplify_eq.
  - destruct (caught_up ids g m x (apply_more (missing g x) (m_node x)) Hg Hok) as [Hk Ho];
      [by apply moved_state|].
    destruct (perform_read (Ok tt) Acked c (apply_more (missing g x) (m_node x)) m)
      as [Ha Hs]; [done|by apply command_of_with_state|done|].
    change (member_id x) with (rc_node_id (apply_more (missing g x) (m_node x))). rewrite Hs.
    split; [done|]. by eapply set_member_ok.
  - destruct (Hr (Err e) (Rejected e) (m_node x)) as [->|]; [|done]. unfold member_id.
    destruct (perform_read (Err e) (Refused e) c (m_node x) m) as [Ha ->]; by try split.
  - destruct (Hr (Err e) (Rejected e) (m_node x)) as [->|]; [|done]. unfold member_id.
    destruct (perform_read (Err e) (Lost e) c (m_node x) m) as [Ha ->]; by try split.
Qed.

(** The background task touches leases only. *)
Lemma tick_moved now n : lock_poisoned (rc_lock n) = false → moved [] n (lease_expiration_tick now n).
Proof.
  intros Hp. unfold lease_expiration_tick, read_state. rewrite Hp.
  destruct (drop_keys_topics (expired_keys now (node_state n)) (node_state n)) as [Ho Hn].
  by apply (moved_state [] n (expire_leases now (node_state n)).2).
Qed.

Lemma build_ok ids g m x : group_ok ids g m → member_ok (g_log g) x → group_ok ids (build 0 x g) m.
Proof.
  intros [Hids Hall Hsn Hs] [H1 H2 H3 H4]. unfold build. rewrite Nat.add_0_r, bool_decide_true by done.
  split; simpl; try done. apply Forall_app_2; [done|]. by constructor.
Qed.

Lemma install_ok log x sn : member_ok log x → snapshot_ok log sn → member_ok log (install x sn).
Proof.
  intros Hx [H1 H2 H3]. unfold install. case_bool_decide; [|done].
  split; simpl; [done|apply (mo_lock _ _ Hx)|done|done].
Qed.

Lemma install_id x sn : member_id (install x sn) = member_id x.
Proof. unfold install. by case_bool_decide. Qed.

Lemma group_step_ok ids g m ev a g' :
  built_applied ev = true → group_ok ids g m → gstep ev g = (a, g') →
  allows (spec_event ids ev m).1 a ∧ group_ok ids g' (spec_event ids ev m).2.
Proof.
  intros Hb Hg Hs. pose proof (go_members _ _ _ Hg) as Hall. rewrite Forall_lookup in Hall.
  destruct ev as [i o c|i k|i k|i j|i now]; simpl in Hs.
  - assert (ids !! i = member_id <$> g_members g !! i) as Hi
      by (rewrite <- (go_ids _ _ _ Hg); apply list_lookup_fmap).
    simpl. rewrite Hi. destruct (g_members g !! i) as [x|] eqn:Hx; simplify_eq/=; [|by split].
    unfold call_step in Hs. destruct (command_of c (m_node x)) as [cmd|] eqn:Hc.
    + destruct (write_step i o c cmd x g) as [a' g1] eqn:Hw. simplify_eq. by eapply write_step_ok.
    + destruct (read_step i o c x g) as [a' g1] eqn:Hw. simplify_eq. by eapply read_step_ok.
  - destruct (g_members g !! i) as [x|] eqn:Hx; simplify_eq; split; try done.
    eapply set_member_ok; [done|done|done|]. apply member_ok_moved; [by eapply Hall|by apply moved_state].
  - destruct k as [|k]; [|done]. destruct (g_members g !! i) as [x|] eqn:Hx; simplify_eq; split; try done.
    apply build_ok; [done|]. by eapply Hall.
  - destruct (g_members g !! i) as [x|] eqn:Hx, (g_snapshots g !! j) as [y|] eqn:Hy; simplify_eq;
      split; try done.
    eapply set_member_ok; [done|done|apply install_id|]. apply install_ok; [by eapply Hall|].
    by eapply Forall_lookup_1, Hy; apply Hg.
  - destruct (g_members g !! i) as [x|] eqn:Hx; simplify_eq; split; try done.
    pose proof (Hall i x Hx) as Hok. pose proof (tick_moved now _ (mo_lock _ _ Hok)) as Ht.
    eapply set_member_ok; [done|done|apply (mv_id _ _ _ Ht)|]. by apply member_ok_still.
Qed.

Lemma grun_ok ids evs g m :
  Forall (λ ev, built_applied ev = true) evs → group_ok ids g m →
  Forall2 allows (spec_run ids evs m).1 (grun evs g).1 ∧
  group_ok ids (grun evs g).2 (spec_run ids evs m).2.
Proof.
  intros Hb. revert g m. induction Hb as [|ev evs Hev Hb IH]; intros g m Hg; simpl; [by split|].
  destruct (gstep ev g) as [a g1] eqn:Hs. destruct (group_step_ok ids g m ev a g1 Hev Hg Hs) as [Ha Hg1].
  destruct (spec_event ids ev m) as [b m1]. simpl in *. specialize (IH g1 m1 Hg1).
  destruct (grun evs g1), (spec_run ids evs m1). simpl in *. destruct IH. split; [by constructor|done].
Qed.

(** *** The theorem *)

(** A fresh group: nodes that have applied nothing. *)
Definition fresh_group (nodes : list (Z * gmap Z NodeConfig)) : Group :=
  mkGroup [] ((λ '(i, c), mkMember (mkNode i (lock_new new) c [] false) 0) <$> nodes) [].

Lemma fresh_group_ok nodes : group_ok nodes.*1 (fresh_group nodes) ∅.
Proof.
  split; simpl; [|apply Forall_fmap, Forall_true; intros [i c]; by split; simpl; [|..|apply new_index_ok]|done|done].
  rewrite <- list_fmap_compose. apply list_fmap_ext. by intros ? [].
Qed.

End simulation.

(** ** A run of three nodes *)

Section concrete.
#[local] Existing Instance canonical_order.

Definition three_nodes : list (Z * gmap Z NodeConfig) := [(1, ∅); (2, ∅); (3, ∅)].

(** Node 1 claims a topic and hands it to node 2 in a call that fails for it
    although it commits; node 3 installs a snapshot of node 1, still sees node 1
    locally, a linearizable read on it sees node 2, and node 2 releases. *)
Definition group_events : list GEvent :=
  [ECall 0 Acked (CClaim 5 "t"); EBuild 0 0; ECall 0 (Lost "timeout") (CTransfer "t" 2); EInstall 2 0;
   ETick 1 9; ECall 1 Acked (COwns "t"); ECall 2 Acked (CGetOwner "t");
   ECall 0 Acked (CRelease "t"); ECall 1 Acked (CRelease "t"); ECall 0 Acked (CGetOwner "t")].

Lemma group_run :
  (grun group_events (fresh_group three_nodes)).1 =
  [Some (AUnit (Ok tt)); None; Some (AUnit (Err (Msg "Raft proposal failed: timeout"))); None; None;
   Some (ABool true); Some (AOwner (Ok (Some 2))); Some (AUnit (Ok tt)); Some (AUnit (Ok tt));
   Some (AOwner (Ok None))].
Proof. vm_compute. reflexivity. Qed.


(** A snapshot built while an entry of the log is not applied yet makes the node that
    installs it skip that entry: node 1's claim is committed, node 2 has it in its log
    but has not applied it when it builds the snapshot, and node 3, which installs it,
    answers every later linearizable read with no owner. *)
Lemma early_snapshot_skips :
  (grun [ECall 0 Acked (CClaim 5 "t"); EBuild 1 1; EInstall 2 0;
         ECall 0 Acked (CGetOwner "t"); ECall 2 Acked (CGetOwner "t")]
     (fresh_group three_nodes)).1 =
  [Some (AUnit (Ok tt)); None; None; Some (AOwner (Ok (Some 1))); Some (AOwner (Ok None))].
Proof. vm_compute. reflexivity. Qed.

(** Renewing a lease that does not exist succeeds. *)
Lemma renew_always_ok :
  (grun [ECall 0 Acked (CRenew 5 77)] (fresh_group three_nodes)).1 = [Some (AUnit (Ok tt))].
Proof. vm_compute. reflexivity. Qed.

(** The answers of the in-memory network let a node commit without its peers, so
    that every node is a group of its own: two of them own the same topic. *)
Lemma separate_groups_two_owners :
  let alone i := (grun [ECall 0 Acked (CClaim 5 "t"); ECall 0 Acked (COwns "t")]
                    (fresh_group [(i, ∅ : gmap Z NodeConfig)])).1 in
  (∀ rpc : unit, in_memory_append_entries rpc = AppendSuccess ∧ vr_granted (in_memory_vote rpc) = true) ∧
  alone 1 = [Some (AUnit (Ok tt)); Some (ABool true)] ∧
  alone 2 = [Some (AUnit (Ok tt)); Some (ABool true)].
Proof. split; [done|]. by vm_compute. Qed.
End concrete.
