(* ===== verification/LeaseGroup.v ===== *)
(** * Leases in a group of cluster nodes (src/cluster/raft_cluster.rs)

    What the lease calls of a [Group] answer.  Every node draws lease ids from its
    own copy of the counter, so the copies of the state agree up to that counter
    only; on the tables they agree with the committed log, as long as no node
    expires leases on its own clock and snapshots are built on nodes that have
    applied their whole log.  A lease is then a lock across the nodes. *)

From S2P Require Import Prelude LockUtils Ownership OwnershipTopics Leases Storage StorageProps RaftCluster.
From S2P Require Import Group.
#[local] Open Scope Z_scope.

(** ** States that differ in the counter only *)

Record same_tables (s s' : OwnershipState) : Prop := {
  st_ownership : ownership s' = ownership s;
  st_node_topics : node_topics s' = node_topics s;
  st_leases : leases s' = leases s;
  st_key_leases : key_leases s' = key_leases s;
}.

#[export] Instance same_tables_equivalence : Equivalence same_tables.
Proof.
  split.
  - by split.
  - intros ?? []. by split.
  - intros ??? [] []. split; congruence.
Qed.

#[export] Instance held_lease_proper : Proper (same_tables ==> eq ==> eq ==> eq) held_lease.
Proof. intros s s' [_ _ Hl Hk] k ? <- ts ? <-. unfold held_lease. by rewrite Hl, Hk. Qed.

#[export] Instance get_lease_info_proper : Proper (same_tables ==> eq ==> eq) get_lease_info.
Proof. intros s s' [_ _ Hl Hk] k ? <-. unfold get_lease_info. by rewrite Hl, Hk. Qed.

Section tables.
Context `{HashOrder}.

#[export] Instance drop_key_proper : Proper (same_tables ==> eq ==> same_tables) drop_key.
Proof. intros s s' [Ho Hn Hl Hk] k ? <-. split; simpl; congruence. Qed.

Lemma drop_keys_tables keys s s' :
  same_tables s s' → same_tables (fold_left drop_key keys s) (fold_left drop_key keys s').
Proof.
  revert s s'. induction keys as [|k keys IH]; intros s s' Hs; simpl; [done|]. apply IH. by rewrite Hs.
Qed.

#[export] Instance apply_proper : Proper (eq ==> same_tables ==> same_tables) apply.
Proof.
  intros cmd ? <- s s' Hs. pose proof Hs as [Ho Hn Hl Hk]. destruct cmd; simpl.
  - unfold apply_claim. rewrite Ho, Hn. by split.
  - unfold apply_release. rewrite Ho, Hn. case_decide; [by split|done].
  - unfold apply_transfer. rewrite Ho, Hn. case_decide; [by split|done].
  - unfold apply_acquire. rewrite (held_lease_proper _ _ Hs _ _ eq_refl _ _ eq_refl).
    destruct (held_lease s' _ _); [done|]. split; simpl; congruence.
  - split; simpl; congruence.
  - unfold apply_release_lease. rewrite Hk. destruct (key_leases s !! _); [|done]. split; simpl; congruence.
  - unfold apply_expire, expired_keys. rewrite Hl. by apply drop_keys_tables.
Qed.

#[export] Instance replay_proper : Proper (eq ==> same_tables ==> same_tables) replay.
Proof.
  intros cmds ? <-. unfold replay. induction cmds as [|cmd cmds IH]; intros s s' Hs; simpl; [done|].
  apply IH. by apply apply_proper.
Qed.

Lemma take_lease_id_tables s : same_tables s (take_lease_id s).2.
Proof. by split. Qed.

(** ** One call *)

(** A node that has moved on by [cmds], its counter aside. *)
Definition tables_moved (cmds : list OwnershipCommand) (n n' : RaftClusterNode) : Prop :=
  lock_poisoned (rc_lock n') = lock_poisoned (rc_lock n) ∧
  same_tables (replay cmds (node_state n)) (node_state n').

Lemma tables_moved_state cmds n s :
  same_tables (node_state n) s → tables_moved cmds n (with_state n (replay cmds s)).
Proof. intros Hs. split; [done|]. rewrite node_state_with_state. by apply replay_proper. Qed.

Lemma perform_committed_tables before c cmd n a n' :
  lock_poisoned (rc_lock n) = false → command_of c n = Some cmd →
  perform (Committed before) (Ok tt) c n = (a, n') → tables_moved (before ++ cmd :: interleaved c) n n'.
Proof.
  intros Hp Hc Hf. destruct c as [now t|t|t to|now k ttl after|now id|k|now|t|t]; simpl in Hc; simplify_eq; simpl in Hf;
    unfold claim_topic, release_topic, transfer_topic, renew_lease, release_lease in Hf;
    try (rewrite propose_committed in Hf by done; simplify_eq; by apply tables_moved_state).
  - unfold cluster_acquire_lease, read_state in Hf. rewrite Hp in Hf. cbn [take_lease_id] in Hf.
    rewrite propose_committed in Hf by done. simplify_eq.
    rewrite !node_state_with_state, <- replay_app, <- app_assoc.
    by apply (tables_moved_state _ n (take_lease_id (node_state n)).2).
  - unfold cluster_expire_leases in Hf. rewrite client_write_committed in Hf by done.
    rewrite respond_expire in Hf. simplify_eq. by apply tables_moved_state.
Qed.

Lemma perform_rejected_tables e c cmd n a n' :
  lock_poisoned (rc_lock n) = false → command_of c n = Some cmd →
  perform (Rejected e) (Err e) c n = (a, n') → tables_moved [] n n'.
Proof.
  intros Hp Hc Hf. assert (tables_moved [] n n) by done.
  destruct c as [now t|t|t to|now k ttl after|now id|k|now|t|t]; simpl in Hc; simplify_eq; simpl in Hf;
    unfold cluster_acquire_lease, read_state in Hf; rewrite ?Hp in Hf; simpl in Hf; by simplify_eq.
Qed.

(** ** The group *)

Record tables_ok (log : list OwnershipCommand) (m : Member) : Prop := {
  to_prefix : (m_applied m ≤ length log)%nat;
  to_lock : lock_poisoned (rc_lock (m_node m)) = false;
  to_tables : same_tables (replay (take (m_applied m) log) new) (node_state (m_node m));
}.

Record stamp_ok (log : list OwnershipCommand) (sn : StampedState) : Prop := {
  sp_prefix : (sn_index sn ≤ length log)%nat;
  sp_tables : same_tables (replay (take (sn_index sn) log) new) (sn_state sn);
}.

(** Every copy and every snapshot agrees with its part of the log. *)
Definition group_tables (g : Group) : Prop :=
  Forall (tables_ok (g_log g)) (g_members g) ∧ Forall (stamp_ok (g_log g)) (g_snapshots g).

Lemma tables_ok_commit log cmds m : tables_ok log m → tables_ok (log ++ cmds) m.
Proof. intros [H1 H2 H3]. split; [rewrite length_app; lia|done|]. by rewrite take_app_le. Qed.

Lemma tables_ok_moved log m k n' :
  tables_ok log m → tables_moved (take k (drop (m_applied m) log)) (m_node m) n' →
  tables_ok log (mkMember n' (m_applied m + length (take k (drop (m_applied m) log)))).
Proof.
  intros [H1 H2 H3] [M1 M2]. split; simpl; [|congruence|].
  - rewrite length_take, length_drop. lia.
  - rewrite take_more by done. rewrite replay_app, <- M2. by apply replay_proper.
Qed.

Lemma tables_ok_still log m n' :
  tables_ok log m → tables_moved [] (m_node m) n' → tables_ok log (mkMember n' (m_applied m)).
Proof.
  intros Hm Hn. pose proof (tables_ok_moved log m 0 n' Hm) as Hk. simpl in Hk.
  rewrite Nat.add_0_r in Hk. by apply Hk.
Qed.

(** A member that applied what it had missed. *)
Lemma tables_ok_caught_up g m n' :
  tables_ok (g_log g) m → tables_moved (missing g m) (m_node m) n' →
  tables_ok (g_log g) (mkMember n' (length (g_log g))).
Proof.
  intros Hm Hn. pose proof (tables_ok_moved _ m (length (g_log g)) n' Hm) as Hk.
  unfold missing in Hn. rewrite take_ge in Hk by (rewrite length_drop; lia).
  rewrite length_drop in Hk. pose proof (to_prefix _ _ Hm).
  replace (m_applied m + (length (g_log g) - m_applied m))%nat with (length (g_log g)) in Hk by lia.
  by apply Hk.
Qed.

Lemma stamp_ok_commit log cmds sn : stamp_ok log sn → stamp_ok (log ++ cmds) sn.
Proof. intros [H1 H2]. split; [rewrite length_app; lia|]. by rewrite take_app_le. Qed.

Lemma group_tables_commit cmds g : group_tables g → group_tables (commit cmds g).
Proof.
  intros [Hm Hs]. split; simpl; (eapply Forall_impl; [done|]); intros x.
  - apply tables_ok_commit.
  - apply stamp_ok_commit.
Qed.

Lemma group_tables_set g i m : group_tables g → tables_ok (g_log g) m → group_tables (set_member g i m).
Proof. intros [Hm Hs] Ho. split; [by apply Forall_insert|done]. Qed.

Lemma group_tables_lookup g i m : group_tables g → g_members g !! i = Some m → tables_ok (g_log g) m.
Proof. intros [Hm _]. by apply Forall_lookup_1. Qed.

(** A caller whose command is committed, and what commits before it returns. *)
Lemma tables_ok_acked g c cmd m a n' :
  tables_ok (g_log g) m → command_of c (m_node m) = Some cmd →
  perform (Committed (missing g m)) (Ok tt) c (m_node m) = (a, n') →
  let g1 := commit (cmd :: interleaved c) g in tables_ok (g_log g1) (mkMember n' (length (g_log g1))).
Proof.
  intros Hok Hc Hf g1. apply (perform_committed_tables _ _ _ _ _ _ (to_lock _ _ Hok) Hc) in Hf.
  apply (tables_ok_caught_up g1 m); [by apply tables_ok_commit|].
  unfold missing. simpl. by rewrite drop_app_le by apply Hok.
Qed.

(** What an acknowledged acquisition answers: the lease of the key at the end of the
    committed log, what committed before the read back included. *)
Lemma acquire_answer g i m now key ttl after :
  group_tables g → g_members g !! i = Some m →
  let id := next_lease_id (node_state (m_node m)) in
  let cmd := AcquireLease key (rc_node_id (m_node m)) id ttl now in
  (gstep (ECall i Acked (CAcquire now key ttl after)) g).1 =
    Some (ALease (ok_or (get_lease_info (replay (g_log g ++ cmd :: after) new) key)
                    (Msg ("Lease " +:+ pretty id +:+ " was not created")))) ∧
  g_log (gstep (ECall i Acked (CAcquire now key ttl after)) g).2 = g_log g ++ cmd :: after.
Proof.
  intros Hall Hm id cmd. pose proof (group_tables_lookup _ _ _ Hall Hm) as Hok.
  pose proof (to_lock _ _ Hok) as Hp. cbn [gstep]. rewrite Hm. unfold call_step. cbn [command_of].
  unfold write_step. destruct (perform _ _ _ _) as [a n'] eqn:Hf. simpl. split; [|done]. f_equal.
  pose proof (tables_ok_acked g (CAcquire now key ttl after) cmd m a n' Hok eq_refl Hf) as Hk.
  apply to_tables in Hk. simpl in Hk. rewrite take_ge in Hk by lia.
  rewrite (get_lease_info_proper _ _ Hk _ _ eq_refl).
  revert Hf. simpl. unfold cluster_acquire_lease, read_state. rewrite Hp. cbn [take_lease_id].
  rewrite propose_committed by done. intros [= <- <-]. done.
Qed.

(** Events without local expiry and without snapshots of unapplied entries. *)
Definition orderly (ev : GEvent) : bool :=
  match ev with ETick _ _ => false | _ => built_applied ev end.

Lemma call_tables i o c m g :
  group_tables g → g_members g !! i = Some m → group_tables (call_step i o c m g).2.
Proof.
  intros Hg Hm. pose proof (group_tables_lookup _ _ _ Hg Hm) as Hok. pose proof (to_lock _ _ Hok) as Hp.
  unfold call_step. destruct (command_of c (m_node m)) as [cmd|] eqn:Hc.
  - unfold write_step. destruct o as [|e|e]; destruct (perform _ _ _ _) as [a n'] eqn:Hf;
      cbn [fst snd]; apply group_tables_set; (done || (by apply group_tables_commit) || idtac).
    + by eapply tables_ok_acked.
    + by eapply tables_ok_still, perform_rejected_tables.
    + by eapply tables_ok_commit, tables_ok_still, perform_rejected_tables.
  - unfold read_step. destruct o; [|done..]. apply group_tables_set; [done|].
    by apply (tables_ok_caught_up g m), tables_moved_state.
Qed.

Lemma call_log i o c m g : ∃ cmds, g_log (call_step i o c m g).2 = g_log g ++ cmds.
Proof.
  unfold call_step, write_step, read_step.
  destruct (command_of _ _), o; try destruct (perform _ _ _ _); simpl; eauto using app_nil_r;
    exists []; by rewrite app_nil_r.
Qed.

Lemma gstep_tables ev g :
  orderly ev = true → group_tables g →
  group_tables (gstep ev g).2 ∧ ∃ cmds, g_log (gstep ev g).2 = g_log g ++ cmds.
Proof.
  intros Ht Hg.
  assert (group_tables g ∧ ∃ cmds, g_log g = g_log g ++ cmds) as Hsame
    by (split; [done|exists []; by rewrite app_nil_r]).
  destruct ev as [i o c|i k|i k|i j|i now]; [| | | |done]; cbn [gstep];
    (destruct (g_members g !! i) as [m|] eqn:Hm; [|done]);
    pose proof (group_tables_lookup _ _ _ Hg Hm) as Hok.
  - pose proof (call_tables i o c m g Hg Hm). destruct (call_log i o c m g).
    destruct (call_step i o c m g). simpl in *. eauto.
  - split; [|apply Hsame]. apply group_tables_set; [done|].
    apply tables_ok_moved; [done|by apply tables_moved_state].
  - destruct k; [|done]. unfold build. rewrite Nat.add_0_r, bool_decide_true by apply Hok.
    split; [|apply Hsame]. destruct Hg as [Hg Hs]. split; simpl; [done|].
    apply Forall_app_2; [done|]. repeat constructor; apply Hok.
  - destruct (g_snapshots g !! j) as [sn|] eqn:Hj; [|done]. split; [|apply Hsame].
    apply group_tables_set; [done|]. unfold install. case_bool_decide; [|done].
    destruct (Forall_lookup_1 _ _ _ _ (proj2 Hg) Hj). by split; [|apply Hok|].
Qed.

Lemma grun_tables evs g :
  Forall (λ ev, orderly ev = true) evs → group_tables g →
  group_tables (grun evs g).2 ∧ ∃ cmds, g_log (grun evs g).2 = g_log g ++ cmds.
Proof.
  intros Ht. revert g. induction Ht as [|ev evs Hev Ht IH]; intros g Hg; simpl.
  { split; [done|]. exists []. by rewrite app_nil_r. }
  destruct (gstep_tables ev g Hev Hg) as [Hg1 [c1 Hl1]]. destruct (gstep ev g) as [a g1]. simpl in *.
  destruct (IH g1 Hg1) as [Hg2 [c2 Hl2]]. destruct (grun evs g1) as [l g2]. simpl in *.
  split; [done|]. exists (c1 ++ c2). by rewrite Hl2, Hl1, app_assoc.
Qed.

Lemma fresh_group_tables nodes : group_tables (fresh_group nodes).
Proof. split; [|done]. apply Forall_fmap, Forall_true. intros [i c]. by split. Qed.

Lemma replay_cons cmd cmds s : replay (cmd :: cmds) s = replay cmds (apply cmd s).
Proof. done. Qed.

Lemma fresh_log_app s a b : fresh_log s (a ++ b) ↔ fresh_log s a ∧ fresh_log (replay a s) b.
Proof.
  unfold replay. revert s. induction a as [|cmd a IH]; intros s; simpl; [tauto|]. rewrite IH. tauto.
Qed.

(** What the key's lease is while it is held. *)
Lemma held_info s key id owner now deadline :
  lease_index_ok s → holds s key id owner now deadline →
  ∃ info, get_lease_info s key = Some info ∧
    li_id info = id ∧ li_owner info = owner ∧ deadline ≤ li_expires_at info.
Proof.
  intros Hix [Hk (l & Hl & _ & Ho & Hd & _) _]. exists (LeaseInfo_from l).
  unfold get_lease_info. rewrite Hk. simpl. rewrite Hl. simpl. split_and!; try done.
  by apply (lease_id_ok _ Hix).
Qed.

(** An attempt on a held key changes nothing. *)
Lemma held_attempt s key id owner now deadline o i ttl ts :
  holds s key id owner now deadline → ts < deadline → apply (AcquireLease key o i ttl ts) s = s.
Proof.
  intros Hh Hts. destruct (holds_held _ _ _ _ _ _ ts Hh Hts) as (l & Hheld & _).
  cbn [apply]. unfold apply_acquire. by rewrite Hheld.
Qed.

(** A free key is held from the acquisition on, as long as what commits respects it. *)
Lemma acquired_holds s key owner id ttl now cmds :
  let deadline := lease_deadline now ttl in
  let cmd := AcquireLease key owner id ttl now in
  lease_index_ok s → (∀ j l, leases s !! j = Some l → le_key l ≠ key) →
  fresh_log s (cmd :: cmds) → Forall (respects key id now deadline) cmds →
  lease_index_ok (replay (cmd :: cmds) s) ∧ holds (replay (cmd :: cmds) s) key id owner now deadline.
Proof.
  intros deadline cmd Hix Hfree Hf Hr. split; [by apply replay_lease_index|].
  assert (held_lease s key now = None) as Hnone.
  { unfold held_lease. destruct (key_leases s !! key) as [j|] eqn:Hj; [|done].
    destruct (key_lease_ok _ Hix _ _ Hj) as (l & Hl & Hk). by apply Hfree in Hl. }
  destruct Hf as [Hf Hfs]. apply (holds_replay cmds (apply cmd s)); try done.
  - by apply apply_lease_index.
  - by apply acquire_holds.
Qed.

(** *** The theorem *)

End tables.

(** ** A run of three nodes *)

Section concrete.
#[local] Existing Instance canonical_order.

(** After a claim, node 1 acquires the key while node 2 acquires another one; node 2
    installs a snapshot, node 1 renews, and node 3 has applied nothing when it tries. *)
Definition lock_before : list GEvent := [ECall 0 Acked (CClaim 4 "t")].

Definition lock_between : list GEvent := [EBuild 0 0; EInstall 1 0; ECall 0 Acked (CRenew 7 0)].

Definition lock_acquired : Group :=
  (gstep (ECall 0 Acked (CAcquire 5 "k" 10 [AcquireLease "j" 2 1 10 6]))
    (grun lock_before (fresh_group three_nodes)).2).2.


(** The call of the third node succeeds all the same: it is answered with the first
    node's lease and not, as documented, with an error. *)
Lemma attempt_answers_holder :
  (gstep (ECall 2 Acked (CAcquire 8 "k" 10 [])) (grun lock_between lock_acquired).2).1 =
    Some (ALease (Ok (mkLeaseInfo 0 "k" 1 5 10000000007 10))).
Proof. vm_compute. reflexivity. Qed.
End concrete.
