(* ===== verification/FailureDetector.v ===== *)
(** * The failure detector (src/cluster/gossip.rs)

    Peers with the time of their last heartbeat, and a periodic check that
    announces each change of verdict on the membership channel.  [Instant] is a
    monotonic clock (a [Z]); the time stamps of the announcements come from the
    system clock, one reading per announcement, and are a parameter of the
    check.  The membership channel is the list of what was sent. *)

From S2P Require Import Prelude RaftCluster.
#[local] Open Scope Z_scope.

Record PeerState := mkPeerState {
  fd_last_heartbeat : Z;
  fd_addr : string;
  fd_is_failed : bool;
}.

(** Durations in milliseconds, as the defaults are written. *)
Record FailureDetectorConfig := mkDetectorConfig {
  heartbeat_timeout : Z;
  heartbeat_interval : Z;
}.

Definition DEFAULT_HEARTBEAT_TIMEOUT_MS : Z := 5000.
Definition DEFAULT_HEARTBEAT_INTERVAL_MS : Z := 1000.
Definition FailureDetectorConfig_default : FailureDetectorConfig :=
  mkDetectorConfig DEFAULT_HEARTBEAT_TIMEOUT_MS DEFAULT_HEARTBEAT_INTERVAL_MS.

Record FailureDetector := mkDetector {
  fd_peers : gmap Z PeerState;
  fd_config : FailureDetectorConfig;
  fd_sent : list MembershipEvent;
}.

Definition detector_new (config : FailureDetectorConfig) : FailureDetector :=
  mkDetector ∅ config [].

Definition with_peers (d : FailureDetector) (ps : gmap Z PeerState) : FailureDetector :=
  mkDetector ps (fd_config d) (fd_sent d).

Definition add_peer (now node_id : Z) (addr : string) (d : FailureDetector) : FailureDetector :=
  with_peers d (<[node_id := mkPeerState now addr false]> (fd_peers d)).

Definition remove_peer (node_id : Z) (d : FailureDetector) : FailureDetector :=
  with_peers d (delete node_id (fd_peers d)).

Definition record_heartbeat (now node_id : Z) (d : FailureDetector) : FailureDetector :=
  with_peers d (alter (λ p, mkPeerState now (fd_addr p) (fd_is_failed p)) node_id (fd_peers d)).

Definition get_peer_addr (node_id : Z) (d : FailureDetector) : option string :=
  fd_addr <$> fd_peers d !! node_id.

(** [Instant::duration_since] saturates at zero. *)
Definition timed_out (config : FailureDetectorConfig) (now : Z) (p : PeerState) : bool :=
  bool_decide (heartbeat_timeout config < saturating_sub now (fd_last_heartbeat p)).

(** One iteration of the loop of [check_failures]. *)
Definition check_peer (stamp : Z → Z) (now : Z) (d : FailureDetector)
    (np : Z * PeerState) : FailureDetector :=
  let '(node_id, p) := np in
  let flag b := mkPeerState (fd_last_heartbeat p) (fd_addr p) b in
  if timed_out (fd_config d) now p then
    if fd_is_failed p then d
    else mkDetector (<[node_id := flag true]> (fd_peers d)) (fd_config d)
           (fd_sent d ++ [node_failed (stamp node_id) node_id])
  else if fd_is_failed p then
    mkDetector (<[node_id := flag false]> (fd_peers d)) (fd_config d)
      (fd_sent d ++ [node_recovered (stamp node_id) node_id])
  else d.

#[global] Arguments check_peer : simpl never.

Definition is_peer_failed (node_id : Z) (d : FailureDetector) : bool :=
  default true (fd_is_failed <$> fd_peers d !! node_id).

Section detector.
Context `{HashOrder}.

Definition check_failures (stamp : Z → Z) (now : Z) (d : FailureDetector) : FailureDetector :=
  fold_left (check_peer stamp now) (hm_iter (fd_peers d)) d.

(** What wakes the task of [start_with_shutdown]: its interval, or the signal after
    which it ends.  The task of [start] has no signal. *)
Inductive wakeup := IntervalTick (stamp : Z → Z) (now : Z) | ShutdownSignal.

Fixpoint detector_task (ws : list wakeup) (d : FailureDetector) : bool * FailureDetector :=
  match ws with
  | [] => (true, d)
  | IntervalTick stamp now :: ws => detector_task ws (check_failures stamp now d)
  | ShutdownSignal :: _ => (false, d)
  end.

Definition get_failed_peers (d : FailureDetector) : list Z :=
  (filter (λ np, fd_is_failed np.2 = true) (hm_iter (fd_peers d))).*1.

Definition get_healthy_peers (d : FailureDetector) : list Z :=
  (filter (λ np, fd_is_failed np.2 = false) (hm_iter (fd_peers d))).*1.

(** ** One check *)

(** The verdicts on one node a stretch of announcements carries, in order. *)
Definition verdict (n : Z) (e : MembershipEvent) : option bool :=
  match event_type e with
  | NodeFailed m => if decide (m = n) then Some true else None
  | NodeRecovered m => if decide (m = n) then Some false else None
  | _ => None
  end.

Definition verdicts (n : Z) (es : list MembershipEvent) : list bool := omap (verdict n) es.

(** What a check should leave of a peer, and what it should announce. *)
Definition checked (config : FailureDetectorConfig) (now : Z) (p : PeerState) : PeerState :=
  mkPeerState (fd_last_heartbeat p) (fd_addr p) (timed_out config now p).

Definition announced (config : FailureDetectorConfig) (now : Z) (p : PeerState) : list bool :=
  if decide (timed_out config now p = fd_is_failed p) then [] else [timed_out config now p].

Lemma check_peer_spec stamp now d n p :
  fd_peers d !! n = Some p →
  let d' := check_peer stamp now d (n, p) in
  fd_peers d' = <[n := checked (fd_config d) now p]> (fd_peers d) ∧
  fd_config d' = fd_config d ∧
  ∃ es, fd_sent d' = fd_sent d ++ es ∧ verdicts n es = announced (fd_config d) now p ∧
    (∀ m, m ≠ n → verdicts m es = []) ∧
    Forall (λ e, event_timestamp e = stamp n) es.
Proof.
  intros Hp. unfold check_peer, checked, announced.
  destruct p as [h a f]; simpl. set (t := timed_out _ _ _).
  assert (Hsame : fd_peers d = <[n := mkPeerState h a f]> (fd_peers d)) by by rewrite insert_id.
  destruct t, f; simpl; (split; [done|]); (split; [done|]);
    first [by exists []; rewrite app_nil_r | eexists [_]; split_and!; [done|..]]; simpl.
  all: unfold verdicts; simpl; unfold verdict; simpl.
  all: try (by rewrite decide_True). all: try (by intros m Hm; rewrite decide_False by done).
  all: by repeat constructor.
Qed.

(** The loop over a list of distinct peers that are in the map as listed. *)
Lemma check_loop_spec stamp now l : ∀ d,
  NoDup l.*1 → (∀ n p, (n, p) ∈ l → fd_peers d !! n = Some p) →
  let d' := fold_left (check_peer stamp now) l d in
  fd_config d' = fd_config d ∧
  (∀ n p, (n, p) ∈ l → fd_peers d' !! n = Some (checked (fd_config d) now p)) ∧
  (∀ n, n ∉ l.*1 → fd_peers d' !! n = fd_peers d !! n) ∧
  ∃ es, fd_sent d' = fd_sent d ++ es ∧
    (∀ n p, (n, p) ∈ l → verdicts n es = announced (fd_config d) now p) ∧
    (∀ n, n ∉ l.*1 → verdicts n es = []).
Proof.
  induction l as [|[n p] l IH]; intros d; simpl.
  { intros _ _. split_and!; [done|intros ?? Hin; by apply not_elem_of_nil in Hin|done|].
    exists []. split_and!; [by rewrite app_nil_r|intros ?? Hin; by apply not_elem_of_nil in Hin|done]. }
  rewrite NoDup_cons. intros [Hn Hnd] Hin.
  assert (Hnl : ∀ m q, (m, q) ∈ l → m ≠ n).
  { intros m q Hm ->. apply Hn. apply list_elem_of_fmap. by exists (n, q). }
  destruct (check_peer_spec stamp now d n p) as (Hps & Hcfg & es1 & Hs1 & Hv1 & Ho1 & _);
    [apply Hin; left|].
  destruct (IH (check_peer stamp now d (n, p)) Hnd) as (Hc & Hl & Hr & es2 & Hs2 & Hv2 & Ho2).
  { intros m q Hm. rewrite Hps, lookup_insert_ne by (intros ->; by eapply Hnl). apply Hin. by right. }
  rewrite Hcfg in Hc, Hl, Hv2. split_and!.
  - done.
  - intros m q [[= -> ->]|Hm]%elem_of_cons; [|by apply Hl].
    by rewrite (Hr n Hn), Hps, lookup_insert_eq.
  - intros m [Hm1 Hm2]%not_elem_of_cons. rewrite (Hr m Hm2), Hps. by rewrite lookup_insert_ne.
  - exists (es1 ++ es2). split_and!; [by rewrite Hs2, Hs1, app_assoc| |].
    + intros m q [[= -> ->]|Hm]%elem_of_cons; unfold verdicts in *; rewrite omap_app.
      * by rewrite Hv1, (Ho2 n Hn), app_nil_r.
      * rewrite (Ho1 m) by (by eapply Hnl). by apply Hv2.
    + intros m [Hm1 Hm2]%not_elem_of_cons. unfold verdicts in *. rewrite omap_app.
      by rewrite (Ho1 m Hm1), (Ho2 m Hm2).
Qed.

Lemma check_failures_lookup stamp now d n :
  let d' := check_failures stamp now d in
  fd_config d' = fd_config d ∧
  fd_peers d' !! n = checked (fd_config d) now <$> fd_peers d !! n ∧
  ∃ es, fd_sent d' = fd_sent d ++ es ∧
    verdicts n es = match fd_peers d !! n with
                    | Some p => announced (fd_config d) now p | None => [] end.
Proof.
  destruct (check_loop_spec stamp now (hm_iter (fd_peers d)) d) as (Hc & Hl & Hr & es & Hs & Hv & Ho).
  { apply NoDup_hm_keys. }
  { intros m p. by rewrite elem_of_hm_iter. }
  unfold check_failures. split; [done|].
  destruct (fd_peers d !! n) as [p|] eqn:Hp; simpl.
  - apply elem_of_hm_iter in Hp. split; [by apply Hl|]. exists es. split; [done|by apply Hv].
  - assert (n ∉ (hm_iter (fd_peers d)).*1).
    { intros Hn. apply elem_of_hm_keys in Hn as [? ?]. congruence. }
    rewrite Hr by done. split; [done|]. exists es. split; [done|by apply Ho].
Qed.

(** ** Runs *)

Inductive detector_op :=
| FdAdd (now node_id : Z) (addr : string)
| FdRemove (node_id : Z)
| FdHeartbeat (now node_id : Z)
| FdCheck (stamp : Z → Z) (now : Z).

Definition detector_step (d : FailureDetector) (op : detector_op) : FailureDetector :=
  match op with
  | FdAdd now n addr => add_peer now n addr d
  | FdRemove n => remove_peer n d
  | FdHeartbeat now n => record_heartbeat now n d
  | FdCheck stamp now => check_failures stamp now d
  end.

Definition run_detector (ops : list detector_op) (d : FailureDetector) : FailureDetector :=
  fold_left detector_step ops d.

(** A node stays registered: the run neither adds nor removes it. *)
Definition leaves_registered (n : Z) (op : detector_op) : bool :=
  match op with
  | FdAdd _ m _ | FdRemove m => bool_decide (m ≠ n)
  | _ => true
  end.

(** Announcements that change the verdict each time, from [b] to [b']. *)
Fixpoint alternating (b : bool) (vs : list bool) (b' : bool) : Prop :=
  match vs with
  | [] => b' = b
  | v :: vs => v = negb b ∧ alternating v vs b'
  end.

Lemma alternating_app b vs b1 vs' b2 :
  alternating b vs b1 → alternating b1 vs' b2 → alternating b (vs ++ vs') b2.
Proof. revert b. induction vs as [|v vs IH]; simpl; intros b; [by intros ->|naive_solver]. Qed.

Lemma announced_alternating config now p :
  alternating (fd_is_failed p) (announced config now p) (timed_out config now p).
Proof.
  unfold announced. case_decide as Ht; simpl; [done|].
  by destruct (timed_out config now p), (fd_is_failed p).
Qed.

Lemma detector_step_alternates n op d p :
  fd_peers d !! n = Some p → leaves_registered n op = true →
  ∃ p' es, fd_peers (detector_step d op) !! n = Some p' ∧
    fd_sent (detector_step d op) = fd_sent d ++ es ∧
    alternating (fd_is_failed p) (verdicts n es) (fd_is_failed p').
Proof.
  intros Hp Hop. destruct op as [now m addr|m|now m|stamp now]; simpl in *.
  - apply bool_decide_eq_true in Hop. exists p, []. by rewrite app_nil_r, lookup_insert_ne.
  - apply bool_decide_eq_true in Hop. exists p, []. by rewrite app_nil_r, lookup_delete_ne.
  - destruct (decide (m = n)) as [->|Hm].
    + eexists _, []. rewrite app_nil_r, lookup_alter_eq, Hp. by split_and!.
    + exists p, []. by rewrite app_nil_r, lookup_alter_ne.
  - destruct (check_failures_lookup stamp now d n) as (_ & Hl & es & Hs & Hv).
    rewrite Hp in Hl, Hv. eexists _, es. split_and!; [exact Hl|done|].
    rewrite Hv. apply announced_alternating.
Qed.

Lemma run_detector_alternates n ops : ∀ d p,
  fd_peers d !! n = Some p → Forall (λ op, leaves_registered n op = true) ops →
  ∃ p' es, fd_peers (run_detector ops d) !! n = Some p' ∧
    fd_sent (run_detector ops d) = fd_sent d ++ es ∧
    alternating (fd_is_failed p) (verdicts n es) (fd_is_failed p').
Proof.
  induction ops as [|op ops IH]; intros d p Hp; simpl.
  { intros _. exists p, []. by rewrite app_nil_r. }
  intros [Hop Hops]%Forall_cons.
  destruct (detector_step_alternates n op d p Hp Hop) as (p1 & es1 & Hp1 & Hs1 & Ha1).
  destruct (IH _ _ Hp1 Hops) as (p2 & es2 & Hp2 & Hs2 & Ha2).
  exists p2, (es1 ++ es2). split_and!; [done|by rewrite Hs2, Hs1, app_assoc|].
  unfold verdicts. rewrite omap_app. by eapply alternating_app.
Qed.

(** C38: the detector's announcements are exact. While a registered node is
    neither added again nor removed, whatever heartbeats arrive and whenever
    checks run, the announcements about it alternate between failed and
    recovered, starting from its current verdict and ending with the one it
    has, so no failure is announced twice; a check then finds it failed exactly
    when its last heartbeat is older than the timeout, and a second check at
    the same time announces nothing. *)
Theorem detector_alternates (n : Z) (ops : list detector_op) (stamp stamp' : Z → Z) (now : Z)
    (d : FailureDetector) (p : PeerState) :
  fd_peers d !! n = Some p → Forall (λ op, leaves_registered n op = true) ops →
  let d1 := run_detector ops d in
  let d2 := check_failures stamp now d1 in
  (∃ p' es, fd_peers d1 !! n = Some p' ∧ fd_sent d1 = fd_sent d ++ es ∧
     alternating (fd_is_failed p) (verdicts n es) (fd_is_failed p') ∧
     (is_peer_failed n d2 = true ↔
      heartbeat_timeout (fd_config d1) < saturating_sub now (fd_last_heartbeat p'))) ∧
  (∃ es, fd_sent (check_failures stamp' now d2) = fd_sent d2 ++ es ∧ verdicts n es = []).
Proof.
  intros Hp Hops d1 d2.
  destruct (run_detector_alternates n ops d p Hp Hops) as (p' & es & Hp' & Hs & Ha).
  fold d1 in Hp', Hs.
  destruct (check_failures_lookup stamp now d1 n) as (Hc & Hl & _). fold d2 in Hc, Hl.
  rewrite Hp' in Hl. simpl in Hl. split.
  - exists p', es. split_and!; [done..|]. unfold is_peer_failed. rewrite Hl. simpl.
    unfold timed_out. by rewrite bool_decide_eq_true.
  - destruct (check_failures_lookup stamp' now d2 n) as (_ & _ & es2 & Hs2 & Hv2).
    exists es2. split; [done|]. rewrite Hv2, Hl, Hc. unfold announced.
    by rewrite decide_True.
Qed.
End detector.

Lemma detector_alternates_witness :
  let d0 := add_peer 0 7 "h:1" (detector_new FailureDetectorConfig_default) in
  let ops := [FdCheck id 6000; FdCheck id 7000; FdHeartbeat 7500 7; FdCheck id 8000] in
  let d1 := @run_detector canonical_order ops d0 in
  fd_sent d1 = [node_failed 7 7; node_recovered 7 7] ∧
  ∃ p' es, fd_peers d1 !! 7 = Some p' ∧ fd_sent d1 = [] ++ es ∧
    alternating false (verdicts 7 es) (fd_is_failed p').
Proof.
  split; [by vm_compute|].
  destruct (proj1 (@detector_alternates canonical_order 7
    [FdCheck id 6000; FdCheck id 7000; FdHeartbeat 7500 7; FdCheck id 8000] id id 9000
    (add_peer 0 7 "h:1" (detector_new FailureDetectorConfig_default))
    (mkPeerState 0 "h:1" false) eq_refl ltac:(by repeat constructor)))
    as (p' & es & H1 & H2 & H3 & _).
  exists p', es. split_and!; [exact H1|exact H2|exact H3].
Defined.
