(* ===== verification/DdlTypes.v ===== *)
(** * Types of the log interface (src/traits/ddl.rs)

    Entries, configuration, errors and the topic-name check.  A Rust [&str] is
    a [string] of its UTF-8 bytes. *)

From S2P Require Import Prelude.
#[local] Open Scope Z_scope.

Record Entry := mkEntry {
  e_id : Z;
  e_timestamp : Z;
  e_topic : string;
  e_payload : bytes;
}.

#[export] Instance Entry_eq_dec : EqDecision Entry.
Proof. solve_decision. Defined.

(** [Entry::new]; the clock is read by the caller of the model. *)
Definition Entry_new (now id : Z) (topic : string) (payload : bytes) : Entry :=
  mkEntry id now topic payload.

Definition Entry_with_timestamp (id timestamp : Z) (topic : string) (payload : bytes) : Entry :=
  mkEntry id timestamp topic payload.

(** The clock (src/types.rs): [t] is the system time in nanoseconds relative to
    the Unix epoch; a time before it reads as zero, and the count is cut to 64
    bits. *)
Definition now_nanos (t : Z) : Z := u64_wrap (Z.max t 0).
Definition now_millis (t : Z) : Z := u64_wrap (Z.max t 0 / 1000000).

(** Readings of the clock do not go back while its nanoseconds fit in 64 bits. *)
Lemma now_nanos_mono t t' : t ≤ t' ≤ U64_MAX → now_nanos t ≤ now_nanos t'.
Proof. intros Ht. unfold now_nanos, u64_wrap, U64_MAX in *. rewrite !Z.mod_small; lia. Qed.

Inductive BackpressureMode := Block | DropOldest | DropNewest | Error.

#[export] Instance BackpressureMode_eq_dec : EqDecision BackpressureMode.
Proof. solve_decision. Defined.

(** A stream: the channel it receives from, and the mode, kept for information. *)
Definition EntryStream : Type := Z * BackpressureMode.
Definition EntryStream_new (ch : Z) : EntryStream := (ch, DropOldest).
Definition EntryStream_with_backpressure (ch : Z) (mode : BackpressureMode) : EntryStream := (ch, mode).
Definition stream_backpressure_mode (s : EntryStream) : BackpressureMode := s.2.

(** [PeerConfig] (src/peer/config.rs), carried by the configuration. *)
Record PeerConfig := mkPeerConfig {
  request_timeout_secs : Z;
  max_retries : Z;
  pc_heartbeat_interval_secs : Z;
  circuit_breaker_threshold : Z;
  circuit_breaker_reset_secs : Z;
  cache_ttl_secs : Z;
  cache_max_entries : Z;
}.

Definition PeerConfig_default : PeerConfig := mkPeerConfig 5 3 10 5 30 60 1000.

Record DdlConfig := mkConfig {
  cfg_node_id : Z;
  cfg_peers : list string;
  cfg_owned_topics : list string;
  cfg_buffer_size : Z;
  cfg_max_topics : Z;
  cfg_gossip_enabled : bool;
  cfg_gossip_bind_addr : string;
  cfg_gossip_bootstrap : list string;
  cfg_data_dir : string;
  cfg_wal_enabled : bool;
  cfg_subscription_buffer_size : Z;
  cfg_subscription_backpressure : BackpressureMode;
  cfg_heartbeat_interval_secs : Z;
  cfg_owner_timeout_secs : Z;
  cfg_raft_enabled : bool;
  cfg_is_bootstrap : bool;
  cfg_peer_config : option PeerConfig;
}.

Definition DdlConfig_default : DdlConfig :=
  mkConfig 1 [] [] (1024 * 1024) 10000 false "0.0.0.0:0" [] "/tmp/ddl" true 1000 DropOldest
    5 30 false false None.

Inductive DdlError :=
| NotOwner (topic : string)
| TopicNotFound (topic : string)
| EntryNotFound (id : Z) (topic : string)
| BufferFull (topic : string)
| TopicLimitExceeded (max current : Z)
| Network (msg : string)
| Io (msg : string)
| Serialization (msg : string)
| SubscriberBufferFull (topic : string)
| LockPoisoned (topic : string)
| Wal (msg : string)
| InvalidTopic (msg : string)
| DdlLeaseHeld (key : string) (owner : Z)
| DdlLeaseExpired (id : Z)
| DdlLeaseNotFound (id : Z)
| PeerRequestError (msg : string).

#[export] Instance DdlError_eq_dec : EqDecision DdlError.
Proof. solve_decision. Defined.

(** [#[error(...)]]: the messages. *)
Definition DdlError_fmt (e : DdlError) : string :=
  match e with
  | NotOwner t => "Topic " +:+ t +:+ " not owned by this node"
  | TopicNotFound t => "Topic " +:+ t +:+ " not found"
  | EntryNotFound id t => "Entry " +:+ pretty id +:+ " not found in topic " +:+ t
  | BufferFull t => "Buffer full for topic " +:+ t
  | TopicLimitExceeded max current =>
      "Topic limit exceeded: max " +:+ pretty max +:+ ", current " +:+ pretty current
  | Network m => "Network error: " +:+ m
  | Io m => "IO error: " +:+ m
  | Serialization m => "Serialization error: " +:+ m
  | SubscriberBufferFull t => "Subscriber buffer full for topic " +:+ t
  | LockPoisoned t => "Lock poisoned for topic " +:+ t
  | Wal m => "WAL error: " +:+ m
  | InvalidTopic m => "Invalid topic name: " +:+ m
  | DdlLeaseHeld k o => "Lease for key " +:+ k +:+ " is held by node " +:+ pretty o
  | DdlLeaseExpired id => "Lease " +:+ pretty id +:+ " has expired"
  | DdlLeaseNotFound id => "Lease " +:+ pretty id +:+ " not found"
  | PeerRequestError m => "Peer request error: " +:+ m
  end.

(** ** Topic names *)

Fixpoint string_bytes (s : string) : list nat :=
  match s with
  | EmptyString => []
  | String c s => Ascii.nat_of_ascii c :: string_bytes s
  end.

(** [topic.contains("..")] *)
Fixpoint has_dotdot (l : list nat) : bool :=
  match l with
  | a :: (b :: _) as l' => (bool_decide (a = 46%nat) && bool_decide (b = 46%nat)) || has_dotdot l'
  | _ => false
  end.

(** [chars().any(char::is_control)] on UTF-8: the code points below 32 and 127
    are single bytes; 128 to 159 are byte 194 followed by the code point. *)
Fixpoint has_control (l : list nat) : bool :=
  match l with
  | [] => false
  | a :: l' =>
      bool_decide (a < 32)%nat || bool_decide (a = 127%nat) ||
      (bool_decide (a = 194%nat) &&
       match l' with b :: _ => bool_decide (128 <= b <= 159)%nat | [] => false end) ||
      has_control l'
  end.

Definition validate_topic (topic : string) : result DdlError unit :=
  let b := string_bytes topic in
  if bool_decide (b = []) then Err (InvalidTopic "topic name cannot be empty")
  else if bool_decide (255 < length b)%nat then
    Err (InvalidTopic ("topic name too long: " +:+ pretty (length b) +:+ " characters"))
  else if has_dotdot b then Err (InvalidTopic "topic name cannot contain '..'")
  else if has_control b then Err (InvalidTopic "topic name cannot contain control characters")
  else Ok tt.

(** What an accepted name looks like, position by position. *)
Definition topic_wf (topic : string) : Prop :=
  let b := string_bytes topic in
  (0 < length b <= 255)%nat ∧
  (∀ i, b !! i = Some 46%nat → b !! S i ≠ Some 46%nat) ∧
  (∀ i a, b !! i = Some a → (32 <= a)%nat ∧ a ≠ 127%nat) ∧
  (∀ i a, b !! i = Some 194%nat → b !! S i = Some a → ¬ (128 <= a <= 159)%nat).

Lemma has_dotdot_spec l :
  has_dotdot l = false ↔ ∀ i, l !! i = Some 46%nat → l !! S i ≠ Some 46%nat.
Proof.
  induction l as [|a [|b l] IH].
  - naive_solver.
  - split; [|done]. intros _ [|i]; simpl; [done|by destruct i].
  - change (has_dotdot (a :: b :: l)) with
      ((bool_decide (a = 46%nat) && bool_decide (b = 46%nat)) || has_dotdot (b :: l)).
    rewrite orb_false_iff, IH, andb_false_iff, !bool_decide_eq_false. split.
    + intros [Hab Hl] [|i]; simpl; [|apply Hl]. intros [= ->] [= ->]. naive_solver.
    + intros Hl. split; [|intros i; apply (Hl (S i))].
      destruct (decide (a = 46%nat)) as [->|]; [|by left]. right. intros ->. by apply (Hl 0%nat).
Qed.

Lemma has_control_spec l :
  has_control l = false ↔
  (∀ i a, l !! i = Some a → (32 <= a)%nat ∧ a ≠ 127%nat) ∧
  (∀ i a, l !! i = Some 194%nat → l !! S i = Some a → ¬ (128 <= a <= 159)%nat).
Proof.
  induction l as [|a l IH]; [by split|]. simpl.
  rewrite !orb_false_iff, IH, andb_false_iff, !bool_decide_eq_false. split.
  - intros (((H1 & H2) & H3) & H4 & H5). split.
    + intros [|i] x; simpl; [intros [= <-]; lia|apply H4].
    + intros [|i] x; simpl; [|apply H5]. intros [= ->] Hx.
      destruct H3 as [|H3]; [done|]. destruct l; simplify_eq/=.
      by apply bool_decide_eq_false in H3.
  - intros [H4 H5]. pose proof (H4 0%nat a eq_refl). split_and!.
    + lia.
    + lia.
    + destruct (decide (a = 194%nat)) as [->|]; [|by left]. right.
      destruct l as [|b l]; [done|]. apply bool_decide_eq_false. by apply (H5 0%nat b).
    + intros i x. apply (H4 (S i)).
    + intros i x. apply (H5 (S i)).
Qed.

Lemma validate_topic_wf topic : validate_topic topic = Ok tt ↔ topic_wf topic.
Proof.
  unfold validate_topic, topic_wf. set (b := string_bytes topic).
  rewrite <- has_dotdot_spec, <- has_control_spec.
  repeat case_bool_decide; subst; destruct (has_dotdot b), (has_control b);
    try (by split; [done|naive_solver]); destruct b; simpl in *; intuition (try done; try lia).
Qed.

(** A topic name is accepted exactly when it has between 1 and 255 bytes,
    no two dots in a row and no ASCII or Latin-1 control character; every
    rejection is an [InvalidTopic] error. *)
Theorem validate_topic_iff (topic : string) :
  (validate_topic topic = Ok tt ↔ topic_wf topic) ∧
  (∀ e, validate_topic topic = Err e → ∃ msg, e = InvalidTopic msg).
Proof.
  split; [apply validate_topic_wf|]. unfold validate_topic. repeat case_match; naive_solver.
Qed.
