(* ===== verification/TopicQueue.v ===== *)
(** * The topic queue (src/topic_queue.rs)

    A ring buffer with a power-of-two capacity: entries get consecutive ids,
    live in slot [id & mask], and a push is refused while the slot may hold an
    unacknowledged entry.  Operations are whole here; [ConcurrentQueue] splits
    them into their accesses of the positions and of the mutex. *)

From S2P Require Import Prelude DdlTypes.
#[local] Open Scope Z_scope.

Record TopicQueue := mkQueue {
  write_pos : Z;
  ack_pos : Z;
  entries : list (option Entry);
  entries_poisoned : bool;
  capacity : Z;
  mask : Z;
}.

(** [TopicQueue::new] *)
Definition queue_new (cap : Z) : TopicQueue :=
  let capacity := next_power_of_two cap in
  mkQueue 0 0 (replicate (Z.to_nat capacity) None) false capacity (capacity - 1).

Definition slot (q : TopicQueue) (id : Z) : nat := Z.to_nat (Z.land id (mask q)).

Definition push (now : Z) (topic : string) (payload : bytes) (q : TopicQueue) :
    result DdlError Z * TopicQueue :=
  if entries_poisoned q then (Err (LockPoisoned topic), q)
  else
    let id := write_pos q in
    if bool_decide (u64_add (ack_pos q) (capacity q) ≤ id) then (Err (BufferFull topic), q)
    else
      let entry := Entry_new now id topic payload in
      (Ok id,
       mkQueue (u64_add id 1) (ack_pos q) (<[slot q id := Some entry]> (entries q))
         (entries_poisoned q) (capacity q) (mask q)).

Definition read (id : Z) (q : TopicQueue) : option Entry :=
  if bool_decide (write_pos q ≤ id) then None
  else if entries_poisoned q then None
  else default None (entries q !! slot q id).

Definition ack (id : Z) (q : TopicQueue) : TopicQueue :=
  if bool_decide (ack_pos q < id) then
    mkQueue (write_pos q) id (entries q) (entries_poisoned q) (capacity q) (mask q)
  else q.

Definition position (q : TopicQueue) : Z := write_pos q.

(** ** Runs and the abstract log *)

Inductive queue_op := QPush (now : Z) (topic : string) (payload : bytes) | QAck (id : Z).

Definition queue_step (q : TopicQueue) (op : queue_op) : TopicQueue :=
  match op with
  | QPush now topic payload => (push now topic payload q).2
  | QAck id => ack id q
  end.

(** The abstract log: every entry accepted so far, and how far it is
    acknowledged. *)
Record Log := mkLog { pushed : list Entry; acked : Z }.

Definition log_len (l : Log) : Z := Z.of_nat (length (pushed l)).

Definition log_step (cap : Z) (l : Log) (op : queue_op) : Log :=
  match op with
  | QPush now topic payload =>
      if bool_decide (acked l + cap ≤ log_len l) then l
      else mkLog (pushed l ++ [mkEntry (log_len l) now topic payload]) (acked l)
  | QAck id => mkLog (pushed l) (Z.max (acked l) id)
  end.

(** The newest accepted entry a slot was written with: the last id below [n]
    that is congruent to [j]. *)
Definition newest (n cap j : Z) : Z := n - 1 - (n - 1 - j) `mod` cap.

(** The queue represents the log. *)
Record represents (k : Z) (l : Log) (q : TopicQueue) : Prop := {
  rep_exp : 0 ≤ k;
  rep_cap : capacity q = 2 ^ k;
  rep_mask : mask q = 2 ^ k - 1;
  rep_len : length (entries q) = Z.to_nat (2 ^ k);
  rep_ok : entries_poisoned q = false;
  rep_write : write_pos q = log_len l;
  rep_ack : ack_pos q = acked l;
  rep_ack_pos : 0 ≤ acked l;
  rep_bound : log_len l ≤ acked l + 2 ^ k;
  rep_slots : ∀ j, 0 ≤ j < 2 ^ k →
    entries q !! Z.to_nat j =
    Some (if bool_decide (0 ≤ newest (log_len l) (2 ^ k) j)
          then pushed l !! Z.to_nat (newest (log_len l) (2 ^ k) j) else None);
}.

(** ** Arithmetic of the ring *)

Lemma newest_lt n cap j : 0 < cap → newest n cap j < n.
Proof. intros Hc. unfold newest. pose proof (Z.mod_pos_bound (n - 1 - j) cap Hc). lia. Qed.

Lemma newest_congr n cap j : 0 < cap → 0 ≤ j < cap → (newest n cap j) `mod` cap = j.
Proof.
  intros Hc Hj. unfold newest.
  replace (n - 1 - (n - 1 - j) `mod` cap) with (j + cap * ((n - 1 - j) `div` cap))
    by (pose proof (Z.div_mod (n - 1 - j) cap); lia).
  rewrite Z.mul_comm, Z_mod_plus_full. by apply Z.mod_small.
Qed.

(** Within the last [cap] ids, an id is the newest of its slot. *)
Lemma newest_recent n cap id :
  0 < cap → n - cap ≤ id < n → newest n cap (id `mod` cap) = id.
Proof.
  intros Hc Hid. unfold newest.
  assert ((n - 1 - id `mod` cap) `mod` cap = n - 1 - id) as ->; [|lia].
  rewrite Zminus_mod_idemp_r. apply Z.mod_small. lia.
Qed.

(** Appending one id changes the newest of its slot only. *)
Lemma newest_snoc n cap j :
  0 < cap → 0 ≤ j < cap →
  newest (n + 1) cap j = if bool_decide (n `mod` cap = j) then n else newest n cap j.
Proof.
  intros Hc Hj. case_bool_decide as Hn.
  - subst. unfold newest. replace (n + 1 - 1) with n by lia.
    rewrite Zminus_mod_idemp_r, Z.sub_diag, Z.mod_0_l by lia. lia.
  - pose proof (newest_congr (n + 1) cap j Hc Hj) as H1.
    pose proof (newest_lt (n + 1) cap j Hc) as H2.
    assert (newest (n + 1) cap j ≠ n) by congruence.
    rewrite <- H1 at 2. symmetry. apply newest_recent; [done|].
    unfold newest in *. pose proof (Z.mod_pos_bound (n + 1 - 1 - j) cap Hc). lia.
Qed.

Lemma slot_mod k q id : 0 ≤ k → mask q = 2 ^ k - 1 → slot q id = Z.to_nat (id `mod` 2 ^ k).
Proof. intros Hk Hm. unfold slot. by rewrite Hm, land_mask_mod. Qed.

(** ** Representation *)

Lemma queue_new_represents cap :
  0 ≤ cap → represents (Z.log2_up cap) (mkLog [] 0) (queue_new cap).
Proof.
  intros Hcap. pose proof (Z.log2_up_nonneg cap).
  assert (0 < 2 ^ Z.log2_up cap) by (apply Z.pow_pos_nonneg; lia).
  unfold queue_new, next_power_of_two. split; simpl; unfold log_len; simpl; try done; try lia.
  - by rewrite length_replicate.
  - intros j Hj. rewrite bool_decide_false.
    + apply lookup_replicate. split; [done|lia].
    + pose proof (newest_lt (Z.of_nat 0) (2 ^ Z.log2_up cap) j ltac:(done)). lia.
Qed.

Lemma represents_ack k l q id :
  represents k l q → represents k (mkLog (pushed l) (Z.max (acked l) id)) (ack id q).
Proof.
  intros []. unfold ack. case_bool_decide; split; unfold log_len in *; simpl; try done; try lia.
Qed.

(** What one push does, with the representation before it. *)
Lemma represents_push k l q now topic payload :
  represents k l q → acked l + 2 ^ k ≤ U64_MAX →
  represents k (log_step (2 ^ k) l (QPush now topic payload)) (push now topic payload q).2 ∧
  (push now topic payload q).1 =
    if bool_decide (acked l + 2 ^ k ≤ log_len l) then Err (BufferFull topic)
    else Ok (log_len l).
Proof.
  intros Hr Hmax. pose proof Hr as [Hk Hc Hm Hlen Hp Hw Ha Hpos Hb Hsl].
  assert (Hc0 : 0 < 2 ^ k) by (apply Z.pow_pos_nonneg; lia).
  assert (Hl0 : 0 ≤ log_len l) by (unfold log_len; lia).
  unfold push; simpl. rewrite Hp, Ha, Hc, Hw, u64_add_small by (unfold u64_ok; lia).
  case_bool_decide as Hfull; simpl; [done|].
  rewrite u64_add_small by (unfold u64_ok; lia).
  assert (Hmod : 0 ≤ log_len l `mod` 2 ^ k < 2 ^ k) by by apply Z.mod_pos_bound.
  assert (Hlen' : log_len (mkLog (pushed l ++ [mkEntry (log_len l) now topic payload]) (acked l))
                  = log_len l + 1) by (unfold log_len; simpl; rewrite length_app; simpl; lia).
  split; [|done]. split; rewrite ?Hlen'; simpl; try done; try lia.
  - by rewrite length_insert.
  - intros j Hj. rewrite (slot_mod k), newest_snoc by done.
    destruct (decide (log_len l `mod` 2 ^ k = j)) as [Hj2|Hj2].
    + rewrite !(bool_decide_eq_true_2 _ Hj2). subst j.
      rewrite bool_decide_true, list_lookup_insert_eq by lia.
      by rewrite lookup_app_r, (proj2 (Nat.sub_0_le _ _)) by (unfold log_len; lia).
    + rewrite !(bool_decide_eq_false_2 _ Hj2).
      rewrite list_lookup_insert_ne by (intros ?%Z2Nat.inj; lia).
      rewrite Hsl by done. case_bool_decide; [|done].
      pose proof (newest_lt (log_len l) (2 ^ k) j Hc0).
      rewrite lookup_app_l by (unfold log_len in *; lia). done.
Qed.

(** Reading an id of the current window gives the entry pushed under it. *)
Lemma represents_read k l q id :
  represents k l q → log_len l - 2 ^ k ≤ id < log_len l → 0 ≤ id →
  read id q = pushed l !! Z.to_nat id.
Proof.
  intros [Hk Hc Hm Hlen Hp Hw Ha Hpos Hb Hsl] Hid Hid0.
  assert (Hc0 : 0 < 2 ^ k) by (apply Z.pow_pos_nonneg; lia).
  unfold read. rewrite Hw, Hp, bool_decide_false by lia.
  rewrite (slot_mod k), Hsl by (try done; by apply Z.mod_pos_bound).
  rewrite newest_recent by lia. by rewrite bool_decide_true by lia.
Qed.

(** ** Runs *)

Definition run_queue (ops : list queue_op) (q : TopicQueue) : TopicQueue := fold_left queue_step ops q.
Definition run_log (cap : Z) (ops : list queue_op) (l : Log) : Log := fold_left (log_step cap) ops l.

(** Acknowledged positions that leave room for one more lap below 2^64. *)
Definition acks_bounded (k : Z) (ops : list queue_op) : Prop :=
  Forall (λ op, match op with QAck id => id + 2 ^ k ≤ U64_MAX | _ => True end) ops.

Lemma run_represents k ops l q :
  acks_bounded k ops → represents k l q → acked l + 2 ^ k ≤ U64_MAX →
  represents k (run_log (2 ^ k) ops l) (run_queue ops q) ∧
  acked (run_log (2 ^ k) ops l) + 2 ^ k ≤ U64_MAX.
Proof.
  unfold run_log, run_queue. revert l q.
  induction ops as [|op ops IH]; intros l q Ha Hr Hmax; simpl; [done|].
  inversion Ha; subst. apply IH; [done| |].
  - destruct op; simpl.
    + by apply represents_push.
    + by apply represents_ack.
  - destruct op; simpl; [by case_bool_decide|lia].
Qed.

Definition ids_consecutive (es : list Entry) : Prop :=
  ∀ i e, es !! i = Some e → e_id e = Z.of_nat i.

Lemma run_log_ids cap ops l :
  ids_consecutive (pushed l) → ids_consecutive (pushed (run_log cap ops l)).
Proof.
  unfold run_log. revert l. induction ops as [|op ops IH]; intros l Hl; simpl; [done|].
  apply IH. destruct op; simpl; [|done]. case_bool_decide; [done|]. simpl.
  intros i e [Hi|[Hlen Hi]]%lookup_app_Some; [by apply Hl|].
  apply list_lookup_singleton_Some in Hi as [Hi <-]. simpl. unfold log_len. lia.
Qed.

(** C9: the ring buffer implements an append-only log with back-pressure. After
    any run of pushes and acknowledgements from an empty queue of any requested
    capacity, the position is the number of entries accepted, entries carry
    consecutive ids, at most [capacity] entries are unacknowledged, every id
    that is not acknowledged reads back exactly the entry accepted under it
    (and an id never reached reads as absent), and the next push is accepted
    with the next id exactly when fewer than [capacity] entries are
    unacknowledged. *)
Theorem queue_refines_log (cap : Z) (ops : list queue_op) :
  0 ≤ cap → acks_bounded (Z.log2_up cap) ops → next_power_of_two cap ≤ U64_MAX →
  let q := run_queue ops (queue_new cap) in
  let l := run_log (next_power_of_two cap) ops (mkLog [] 0) in
  position q = log_len l ∧
  ids_consecutive (pushed l) ∧
  log_len l ≤ acked l + next_power_of_two cap ∧
  (∀ id, acked l ≤ id → read id q = pushed l !! Z.to_nat id) ∧
  (∀ now topic payload, (push now topic payload q).1 =
     if bool_decide (acked l + next_power_of_two cap ≤ log_len l)
     then Err (BufferFull topic) else Ok (log_len l)).
Proof.
  intros Hcap Ha Hmax q l. unfold next_power_of_two in *. set (k := Z.log2_up cap) in *.
  destruct (run_represents k ops (mkLog [] 0) (queue_new cap)) as [Hr Hm];
    [done|by apply queue_new_represents|done|].
  fold l q in Hr, Hm. pose proof Hr as [Hk Hc Hma Hlen Hp Hw Hak Hpos Hb Hsl]. split_and!.
  - done.
  - by apply run_log_ids.
  - done.
  - intros id Hid. destruct (decide (id < log_len l)) as [Hlt|Hge].
    + apply (represents_read k); [done|lia|lia].
    + unfold read. rewrite Hw, bool_decide_true by lia. symmetry. apply lookup_ge_None.
      unfold log_len in *. lia.
  - intros now topic payload. by apply represents_push.
Qed.

(** Reads below the window are not refused. An id at least a whole lap
    behind the write position reads as a newer entry than the one asked for. *)
Theorem read_overwritten (cap : Z) (ops : list queue_op) (id : Z) :
  0 ≤ cap → acks_bounded (Z.log2_up cap) ops → next_power_of_two cap ≤ U64_MAX →
  let q := run_queue ops (queue_new cap) in
  0 ≤ id < position q - next_power_of_two cap →
  ∃ e, read id q = Some e ∧ id < e_id e.
Proof.
  intros Hcap Ha Hmax q. unfold next_power_of_two in *. set (k := Z.log2_up cap) in *.
  destruct (run_represents k ops (mkLog [] 0) (queue_new cap)) as [Hr Hm];
    [done|by apply queue_new_represents|done|].
  fold q in Hr. set (l := run_log (2 ^ k) ops (mkLog [] 0)) in *.
  pose proof Hr as [Hk Hc Hma Hlen Hp Hw Hak Hpos Hb Hsl].
  assert (Hc0 : 0 < 2 ^ k) by (apply Z.pow_pos_nonneg; lia).
  unfold position. rewrite Hw. intros Hid.
  set (n := newest (log_len l) (2 ^ k) (id `mod` 2 ^ k)).
  assert (Hn : log_len l - 2 ^ k ≤ n < log_len l).
  { unfold n, newest. pose proof (Z.mod_pos_bound (log_len l - 1 - id `mod` 2 ^ k) (2 ^ k) Hc0). lia. }
  destruct (lookup_lt_is_Some_2 (pushed l) (Z.to_nat n)) as [e He]; [unfold log_len in *; lia|].
  exists e. split.
  - unfold read. rewrite Hw, Hp, bool_decide_false by lia.
    rewrite (slot_mod k), Hsl by (try done; by apply Z.mod_pos_bound). fold n.
    by rewrite bool_decide_true, He by lia.
  - assert (ids_consecutive (pushed l)) as Hids by by apply run_log_ids.
    rewrite (Hids _ _ He). lia.
Qed.

(** A queue whose acknowledged position is [u64::MAX]. *)
Definition stuck (q : TopicQueue) : Prop :=
  entries_poisoned q = false ∧ ack_pos q = U64_MAX ∧ 0 < capacity q ≤ write_pos q + 1 ∧
  write_pos q < U64_MAX.

Lemma stuck_push now topic payload q :
  stuck q → push now topic payload q = (Err (BufferFull topic), q).
Proof.
  intros (E1 & E2 & E3 & E4). unfold push. rewrite E1, E2, bool_decide_true; [done|].
  unfold u64_add, u64_wrap.
  replace (U64_MAX + capacity q) with (capacity q - 1 + 1 * 2 ^ 64) by (unfold U64_MAX; lia).
  rewrite Z_mod_plus_full, Z.mod_small; unfold U64_MAX in *; lia.
Qed.

Definition ack_args_u64 (ops : list queue_op) : Prop :=
  Forall (λ op, match op with QAck id => u64_ok id | _ => True end) ops.

Lemma stuck_run ops q : stuck q → ack_args_u64 ops → run_queue ops q = q.
Proof.
  intros Hs. unfold run_queue, ack_args_u64.
  induction ops as [|op ops IH]; intros Hops; simpl; [done|].
  inversion Hops as [|?? Hop Hops']; subst. destruct op; simpl.
  - rewrite stuck_push by done. by apply IH.
  - unfold ack. destruct Hs as (_ & E2 & _).
    rewrite bool_decide_false by (unfold u64_ok in Hop; lia). by apply IH.
Qed.

(** Acknowledging an entry does not free it. On a full queue,
    acknowledging the oldest unacknowledged id leaves the queue full (the id
    after it must be acknowledged), and acknowledging [u64::MAX] makes the sum
    of position and capacity wrap, so that the queue refuses every later push,
    whatever is acknowledged. *)
Theorem ack_edge_cases (k : Z) (l : Log) (q : TopicQueue) (now : Z) (topic : string)
    (payload : bytes) :
  represents k l q → log_len l = acked l + 2 ^ k → log_len l < U64_MAX →
  (push now topic payload (ack (acked l) q)).1 = Err (BufferFull topic) ∧
  (push now topic payload (ack (acked l + 1) q)).1 = Ok (log_len l) ∧
  (∀ ops, ack_args_u64 ops →
     (push now topic payload (run_queue (QAck U64_MAX :: ops) q)).1 = Err (BufferFull topic)).
Proof.
  intros Hr Hfull Hmax. pose proof Hr as [Hk Hc Hm Hlen Hp Hw Ha Hpos Hb Hsl].
  assert (Hc0 : 0 < 2 ^ k) by (apply Z.pow_pos_nonneg; lia). split_and!.
  - pose proof (represents_ack k l q (acked l) Hr) as Hr'.
    eapply represents_push in Hr' as [_ ->]; [|simpl; lia]. simpl.
    unfold log_len in *; simpl. by rewrite bool_decide_true by lia.
  - pose proof (represents_ack k l q (acked l + 1) Hr) as Hr'.
    eapply represents_push in Hr' as [_ ->]; [|simpl; lia]. simpl.
    unfold log_len in *; simpl. by rewrite bool_decide_false by lia.
  - intros ops Hops. change (run_queue (QAck U64_MAX :: ops) q) with (run_queue ops (ack U64_MAX q)).
    assert (stuck (ack U64_MAX q)).
    { unfold ack. rewrite bool_decide_true by lia. unfold stuck; simpl. split_and!; try done; lia. }
    by rewrite stuck_run, stuck_push.
Qed.

(** ** Concrete runs *)

Definition sample_run : list queue_op :=
  [QPush 10 "t" [1]; QPush 11 "t" [2]; QPush 12 "t" [3]; QAck 2; QPush 13 "t" [4];
   QPush 14 "t" [5]].

Lemma queue_refines_log_witness :
  position (run_queue sample_run (queue_new 3)) = 5 ∧
  read 4 (run_queue sample_run (queue_new 3)) = Some (mkEntry 4 14 "t" [5]).
Proof.
  destruct (queue_refines_log 3 sample_run) as (Hp & _ & _ & Hread & _).
  - done.
  - repeat constructor; vm_compute; congruence.
  - vm_compute; congruence.
  - split; [exact Hp|]. rewrite Hread; [reflexivity|vm_compute; congruence].
Defined.

Lemma read_overwritten_witness :
  ∃ e, read 0 (run_queue sample_run (queue_new 3)) = Some e ∧ 0 < e_id e.
Proof.
  apply (read_overwritten 3 sample_run 0).
  - done.
  - repeat constructor; vm_compute; congruence.
  - vm_compute; congruence.
  - vm_compute. split; congruence.
Defined.

Lemma ack_edge_cases_witness :
  (push 9 "t" [7] (ack 0 (run_queue [QPush 8 "t" [6]] (queue_new 1)))).1 = Err (BufferFull "t").
Proof.
  refine (proj1 (ack_edge_cases 0 (run_log 1 [QPush 8 "t" [6]] (mkLog [] 0))
    (run_queue [QPush 8 "t" [6]] (queue_new 1)) 9 "t" [7] _ _ _)).
  - apply (run_represents 0 [QPush 8 "t" [6]] (mkLog [] 0) (queue_new 1)).
    + by repeat constructor.
    + by apply (queue_new_represents 1).
    + vm_compute; congruence.
  - reflexivity.
  - reflexivity.
Defined.
