(* ===== verification/ConcurrentQueue.v ===== *)
(** * Concurrent pushes and acknowledgements (src/topic_queue.rs, and the body of
    [push] in src/ddl_distributed.rs)

    The queue of a topic is shared by every caller.  [push] and the second half of
    [read] hold the mutex; [ack] and the first half of [read] only load and store
    atomics.  Here the callers are threads that move one such access at a time.
    A pushing thread then reads its entry back and hands it to the subscribers,
    outside the mutex, as the service does. *)

From S2P Require Import Prelude DdlTypes TopicQueue Interleaving.
#[local] Open Scope Z_scope.

(** The arguments of a push. *)
Record PushCall := mkCall { pc_now : Z; pc_topic : string; pc_payload : bytes }.

(** The queue, the thread that holds its mutex, and what a subscriber with room
    was sent. *)
Record QShared := mkQShared { qs_queue : TopicQueue; qs_lock : option nat; qs_sent : list Entry }.

(** Where a thread is.  A pushing thread keeps its arguments. *)
Inductive QThread :=
| PushStart (c : PushCall)
| PushLocked (c : PushCall)
| PushChecked (c : PushCall) (id : Z)
| PushStored (c : PushCall) (id : Z)
| ReadStart (c : PushCall) (id : Z)
| ReadChecked (c : PushCall) (id : Z)
| Notify (c : PushCall) (id : Z) (e : Entry)
| PushDone (c : PushCall) (r : result DdlError Z)
| AckStart (id : Z)
| AckLoaded (id current : Z)
| AckDone.

Definition entry_of (c : PushCall) (id : Z) : Entry :=
  Entry_new (pc_now c) id (pc_topic c) (pc_payload c).

Definition set_queue (s : QShared) (q : TopicQueue) : QShared := mkQShared q (qs_lock s) (qs_sent s).
Definition set_lock (s : QShared) (o : option nat) : QShared := mkQShared (qs_queue s) o (qs_sent s).

(** *** [push] *)

(** [self.entries.lock()] waits for the holder. *)
Definition push_lock (i : nat) (c : PushCall) (s : QShared) : option (QThread * QShared) :=
  match qs_lock s with
  | Some _ => None
  | None =>
      if entries_poisoned (qs_queue s) then Some (PushDone c (Err (LockPoisoned (pc_topic c))), s)
      else Some (PushLocked c, set_lock s (Some i))
  end.

(** Loading both positions; the mutex is released when the queue is full. *)
Definition push_check (c : PushCall) (s : QShared) : option (QThread * QShared) :=
  let q := qs_queue s in
  if bool_decide (u64_add (ack_pos q) (capacity q) ≤ write_pos q)
  then Some (PushDone c (Err (BufferFull (pc_topic c))), set_lock s None)
  else Some (PushChecked c (write_pos q), s).

Definition push_store (c : PushCall) (id : Z) (s : QShared) : option (QThread * QShared) :=
  let q := qs_queue s in
  Some (PushStored c id,
    set_queue s (mkQueue (write_pos q) (ack_pos q) (<[slot q id := Some (entry_of c id)]> (entries q))
                   (entries_poisoned q) (capacity q) (mask q))).

Definition push_publish (c : PushCall) (id : Z) (s : QShared) : option (QThread * QShared) :=
  let q := qs_queue s in
  Some (ReadStart c id,
    mkQShared (mkQueue (u64_add id 1) (ack_pos q) (entries q) (entries_poisoned q) (capacity q) (mask q))
      None (qs_sent s)).

(** *** [read] and the notification *)

Definition read_check (c : PushCall) (id : Z) (s : QShared) : option (QThread * QShared) :=
  if bool_decide (write_pos (qs_queue s) ≤ id) then Some (PushDone c (Ok id), s)
  else Some (ReadChecked c id, s).

Definition read_slot (c : PushCall) (id : Z) (s : QShared) : option (QThread * QShared) :=
  let q := qs_queue s in
  match qs_lock s with
  | Some _ => None
  | None =>
      if entries_poisoned q then Some (PushDone c (Ok id), s)
      else match default None (entries q !! slot q id) with
      | Some e => Some (Notify c id e, s)
      | None => Some (PushDone c (Ok id), s)
      end
  end.

Definition notify (c : PushCall) (id : Z) (e : Entry) (s : QShared) : option (QThread * QShared) :=
  Some (PushDone c (Ok id), mkQShared (qs_queue s) (qs_lock s) (qs_sent s ++ [e])).

(** *** [ack] *)

Definition ack_store (id current : Z) (s : QShared) : option (QThread * QShared) :=
  let q := qs_queue s in
  Some (AckDone,
    if bool_decide (current < id)
    then set_queue s (mkQueue (write_pos q) id (entries q) (entries_poisoned q) (capacity q) (mask q))
    else s).

Definition qstep (i : nat) (l : QThread) (s : QShared) : option (QThread * QShared) :=
  match l with
  | PushStart c => push_lock i c s
  | PushLocked c => push_check c s
  | PushChecked c id => push_store c id s
  | PushStored c id => push_publish c id s
  | ReadStart c id => read_check c id s
  | ReadChecked c id => read_slot c id s
  | Notify c id e => notify c id e s
  | AckStart id => Some (AckLoaded id (ack_pos (qs_queue s)), s)
  | AckLoaded id current => ack_store id current s
  | PushDone _ _ | AckDone => None
  end.

Definition start (cap : Z) (ls : list QThread) : Machine := mkMachine (mkQShared (queue_new cap) None []) ls.

(** ** Undisturbed, the actions are the operations *)

Lemma push_alone c s ls i :
  ls !! i = Some (PushStart c) → qs_lock s = None →
  let '(r, q') := push (pc_now c) (pc_topic c) (pc_payload c) (qs_queue s) in
  run_schedule qstep [i; i; i; i] (mkMachine s ls) =
    mkMachine (set_queue s q') (<[i := match r with
                                      | Ok id => ReadStart c id
                                      | Err e => PushDone c (Err e) end]> ls).
Proof.
  intros Hi Hlock. pose proof (run_alone_schedule qstep 4 i _ s ls Hi) as Hr. simpl replicate in Hr.
  rewrite Hr. destruct s as [q lk sent]. simpl in *. subst lk. unfold push_lock, push. simpl.
  destruct (entries_poisoned q) eqn:Ep; simpl; [done|]. unfold push_check. simpl.
  case_bool_decide; simpl; [done|]. by rewrite Ep.
Qed.

(** Likewise an acknowledgement. *)
Lemma ack_alone id s ls i :
  ls !! i = Some (AckStart id) →
  run_schedule qstep [i; i] (mkMachine s ls) =
    mkMachine (set_queue s (ack id (qs_queue s))) (<[i := AckDone]> ls).
Proof.
  intros Hi. pose proof (run_alone_schedule qstep 2 i _ s ls Hi) as Hr. simpl replicate in Hr.
  rewrite Hr. destruct s. simpl. unfold ack. by case_bool_decide.
Qed.

(** ** The invariant *)

Section invariant.
(** The ring has [2 ^ k] slots, and no caller acknowledges beyond [M]. *)
Variables k M : Z.
Hypothesis k_nonneg : 0 ≤ k.
Hypothesis M_nonneg : 0 ≤ M.
Hypothesis M_bound : M + 2 ^ k ≤ U64_MAX.

(** The log: the accepted entries in the order of their ids, each with the thread
    that pushed it. *)
Abbreviation OwnedLog := (list (nat * Entry)).

Definition owned_len (g : OwnedLog) : Z := Z.of_nat (length g).

Record shared_ok (g : OwnedLog) (s : QShared) : Prop := {
  so_cap : capacity (qs_queue s) = 2 ^ k;
  so_mask : mask (qs_queue s) = 2 ^ k - 1;
  so_len : length (entries (qs_queue s)) = Z.to_nat (2 ^ k);
  so_healthy : entries_poisoned (qs_queue s) = false;
  so_write : owned_len g - 1 ≤ write_pos (qs_queue s) ≤ owned_len g;
  so_free : qs_lock s = None → write_pos (qs_queue s) = owned_len g;
  so_ack : 0 ≤ ack_pos (qs_queue s) ≤ M;
  so_bound : owned_len g ≤ M + 2 ^ k;
  so_ids : ids_consecutive g.*2;
  so_slots : ∀ j, 0 ≤ j < 2 ^ k →
    entries (qs_queue s) !! Z.to_nat j =
    Some (if bool_decide (0 ≤ newest (owned_len g) (2 ^ k) j)
          then g.*2 !! Z.to_nat (newest (owned_len g) (2 ^ k) j) else None);
  so_sent : ∀ e, e ∈ qs_sent s → e ∈ g.*2;
}.

(** Thread [i] has pushed nothing, or exactly the entry [id]. *)
Definition pushed_none (g : OwnedLog) (i : nat) : Prop := ∀ p e, g !! p ≠ Some (i, e).

Definition pushed_one (g : OwnedLog) (i : nat) (c : PushCall) (id : Z) : Prop :=
  0 ≤ id ∧ g !! Z.to_nat id = Some (i, entry_of c id) ∧
  ∀ p e, g !! p = Some (i, e) → p = Z.to_nat id.

Definition holds_lock (i : nat) (s : QShared) (pos : Z) : Prop :=
  qs_lock s = Some i ∧ write_pos (qs_queue s) = pos.

Definition thread_ok (g : OwnedLog) (i : nat) (l : QThread) (s : QShared) : Prop :=
  match l with
  | PushStart _ => pushed_none g i
  | PushLocked _ => pushed_none g i ∧ holds_lock i s (owned_len g)
  | PushChecked _ id =>
      pushed_none g i ∧ holds_lock i s (owned_len g) ∧ id = owned_len g ∧ id < M + 2 ^ k
  | PushStored c id => pushed_one g i c id ∧ holds_lock i s id ∧ owned_len g = id + 1
  | ReadStart c id | ReadChecked c id => pushed_one g i c id ∧ id < write_pos (qs_queue s)
  | Notify c id e =>
      pushed_one g i c id ∧ e ∈ g.*2 ∧ (M ≤ id → e = entry_of c id)
  | PushDone c (Ok id) => pushed_one g i c id ∧ (M ≤ id → entry_of c id ∈ qs_sent s)
  | PushDone c (Err e) => pushed_none g i ∧ e = BufferFull (pc_topic c)
  | AckStart id | AckLoaded id _ => 0 ≤ id ≤ M
  | AckDone => True
  end.

(** *** Growth of the log *)

Definition extends (i : nat) (g g' : OwnedLog) : Prop := g' = g ∨ ∃ e, g' = g ++ [(i, e)].

Lemma pushed_none_extends i j g g' : j ≠ i → extends i g g' → pushed_none g j → pushed_none g' j.
Proof.
  intros Hne [->|[e ->]] Hn; [done|]. intros p x [Hp|[_ Hp]]%lookup_app_Some; [by apply Hn in Hp|].
  apply list_lookup_singleton_Some in Hp as [_ [= ? _]]. done.
Qed.

Lemma pushed_one_extends i j c id g g' :
  j ≠ i → extends i g g' → pushed_one g j c id → pushed_one g' j c id.
Proof.
  intros Hne [->|[e ->]] (H0 & Hl & Hu); [done|]. split_and!; [done|by apply lookup_app_l_Some|].
  intros p x [Hp|[_ Hp]]%lookup_app_Some; [by eapply Hu|].
  apply list_lookup_singleton_Some in Hp as [_ [= ? _]]. done.
Qed.

Lemma extends_entries i g g' e : extends i g g' → e ∈ g.*2 → e ∈ g'.*2.
Proof. intros [->|[x ->]]; [done|]. rewrite fmap_app. set_solver. Qed.

Lemma owned_len_snoc g x : owned_len (g ++ [x]) = owned_len g + 1.
Proof. unfold owned_len. rewrite length_app. simpl. lia. Qed.

(** What the other threads rely on. *)
Lemma thread_ok_frame g g' i j m s s' :
  j ≠ i → thread_ok g j m s → extends i g g' →
  write_pos (qs_queue s) ≤ write_pos (qs_queue s') → (∀ e, e ∈ qs_sent s → e ∈ qs_sent s') →
  (qs_lock s = Some j →
     g' = g ∧ qs_lock s' = Some j ∧ write_pos (qs_queue s') = write_pos (qs_queue s)) →
  thread_ok g' j m s'.
Proof.
  intros Hne Hm Hext Hw Hsent Hlock. unfold holds_lock in *.
  destruct m as [|c|c id|c id|c id|c id|c id e|c [id|e]|id|id cur|]; simpl in *; unfold holds_lock in *;
    try (by eapply pushed_none_extends); try done;
    try (by split; [eapply pushed_none_extends|]; naive_solver);
    try (destruct Hm as (H1 & (H2 & H3) & H4); destruct (Hlock H2) as (-> & -> & ->); done);
    try (destruct Hm as (H1 & (H2 & H3)); destruct (Hlock H2) as (-> & -> & ->); done).
  - destruct Hm as [Hp Hlt]. split; [by eapply pushed_one_extends|lia].
  - destruct Hm as [Hp Hlt]. split; [by eapply pushed_one_extends|lia].
  - destruct Hm as (Hp & He & HM). split_and!; [by eapply pushed_one_extends|by eapply extends_entries|done].
  - destruct Hm as [Hp HM]. split; [by eapply pushed_one_extends|auto].
Qed.

(** *** What the actions do *)

Lemma pow_pos : 0 < 2 ^ k.
Proof. apply Z.pow_pos_nonneg; lia. Qed.

(** The slot of an accepted id holds the newest entry of the slot: the entry
    itself when nothing acknowledged allowed to overwrite it. *)
Lemma slot_value g s id :
  shared_ok g s → 0 ≤ id < owned_len g →
  ∃ e, entries (qs_queue s) !! slot (qs_queue s) id = Some (Some e) ∧ e ∈ g.*2 ∧
    (M ≤ id → g.*2 !! Z.to_nat id = Some e).
Proof.
  intros Hs Hid. pose proof pow_pos. pose proof Hs as [_ Hm _ _ _ _ _ Hb _ Hsl _].
  assert (0 ≤ id `mod` 2 ^ k < 2 ^ k) as Hmod by (by apply Z.mod_pos_bound).
  set (w := newest (owned_len g) (2 ^ k) (id `mod` 2 ^ k)).
  assert (id ≤ w < owned_len g) as Hw.
  { unfold w. split; [|by apply newest_lt].
    pose proof (newest_congr (owned_len g) (2 ^ k) (id `mod` 2 ^ k) ltac:(done) Hmod) as Hc.
    fold w in Hc |- *. unfold w, newest in *.
    pose proof (Z.mod_pos_bound (owned_len g - 1 - id `mod` 2 ^ k) (2 ^ k) ltac:(done)).
    destruct (decide (owned_len g - 2 ^ k ≤ id)) as [Hrec|]; [|lia].
    pose proof (newest_recent (owned_len g) (2 ^ k) id ltac:(done) ltac:(lia)) as Hr.
    unfold newest in Hr. lia. }
  destruct (lookup_lt_is_Some_2 g.*2 (Z.to_nat w)) as [e He].
  { rewrite length_fmap. unfold owned_len in *. lia. }
  exists e. rewrite (slot_mod k), Hsl by done. fold w.
  rewrite bool_decide_true, He by lia. split_and!; [done|by eapply list_elem_of_lookup_2|].
  intros HM. rewrite <- He. do 2 f_equal. unfold w. symmetry. apply newest_recent; [done|lia].
Qed.

Lemma entry_of_id c id : e_id (entry_of c id) = id.
Proof. done. Qed.

(** Storing the entry extends the log. *)
Lemma push_store_ok g i c id s l' s' :
  shared_ok g s → thread_ok g i (PushChecked c id) s → push_store c id s = Some (l', s') →
  shared_ok (g ++ [(i, entry_of c id)]) s' ∧ thread_ok (g ++ [(i, entry_of c id)]) i l' s'.
Proof.
  intros Hs (Hn & [Hl Hw] & -> & Hb) [= <- <-]. pose proof pow_pos.
  pose proof Hs as [Hc Hm Hlen Hp Hwr Hf Ha Hbd Hids Hsl Hse].
  assert (0 ≤ owned_len g) by (unfold owned_len; lia).
  assert (0 ≤ owned_len g `mod` 2 ^ k < 2 ^ k) as Hmod by (by apply Z.mod_pos_bound).
  assert (length g.*2 = Z.to_nat (owned_len g)) as Hlg by (rewrite length_fmap; unfold owned_len; lia).
  split.
  - split; cbn [set_queue qs_queue capacity mask entries entries_poisoned write_pos ack_pos qs_lock qs_sent];
      rewrite ?owned_len_snoc; try done; try lia.
    + by rewrite length_insert.
    + by rewrite Hl.
    + rewrite fmap_app. intros p e [Hp'|[Hge Hp']]%lookup_app_Some; [by apply Hids|].
      apply list_lookup_singleton_Some in Hp' as [Hp' <-]. simpl. lia.
    + intros j Hj. rewrite (slot_mod k), newest_snoc, fmap_app by done.
      destruct (decide (owned_len g `mod` 2 ^ k = j)) as [Hj2|Hj2].
      * rewrite !(bool_decide_eq_true_2 _ Hj2). subst j.
        rewrite bool_decide_true, list_lookup_insert_eq by lia.
        by rewrite lookup_app_r, Hlg, Nat.sub_diag by lia.
      * rewrite !(bool_decide_eq_false_2 _ Hj2).
        rewrite list_lookup_insert_ne by (intros ?%Z2Nat.inj; lia).
        rewrite Hsl by done. case_bool_decide; [|done].
        pose proof (newest_lt (owned_len g) (2 ^ k) j ltac:(done)). by rewrite lookup_app_l by lia.
    + intros e He. rewrite fmap_app. apply elem_of_app. by left; apply Hse.
  - split_and!; [|done|by rewrite owned_len_snoc]. split_and!; [done| |].
    + rewrite lookup_app_r by (rewrite <- (length_fmap snd); lia).
      rewrite <- (length_fmap snd g), Hlg, Nat.sub_diag. done.
    + intros p e [Hp'|[Hge Hp']]%lookup_app_Some; [by apply Hn in Hp'|].
      apply list_lookup_singleton_Some in Hp' as [Hp' _]. rewrite <- (length_fmap snd g) in *. lia.
Qed.

Lemma shared_ok_lock g s o :
  shared_ok g s → (o = None → write_pos (qs_queue s) = owned_len g) → shared_ok g (set_lock s o).
Proof. intros [] Ho. by split. Qed.

Lemma prefix_extends i g g' : extends i g g' → g `prefix_of` g'.
Proof. intros [->|[e ->]]; [done|by apply prefix_app_r]. Qed.

(** A step of thread [i] that the log may record, at the hands of the holder
    of the mutex only. *)
Lemma qstep_ok g i l s l' s' :
  shared_ok g s → thread_ok g i l s → qstep i l s = Some (l', s') →
  ∃ g', extends i g g' ∧ (qs_lock s ≠ Some i → g' = g) ∧ shared_ok g' s' ∧ thread_ok g' i l' s'.
Proof.
  intros Hs Hl Hst. pose proof Hs as [Hc Hm Hlen Hp Hwr Hf Ha Hbd Hids Hsl Hse].
  destruct l as [c|c|c id|c id|c id|c id|c id e|c r|id|id cur|]; simpl in Hst; try done.
  - exists g. split; [by left|]. split; [done|]. unfold push_lock in Hst. destruct (qs_lock s) eqn:El; [done|].
    rewrite Hp in Hst. simplify_eq. split; [by apply shared_ok_lock|]. split; [done|]. split; [done|].
    by apply Hf.
  - destruct Hl as (Hn & Hlk & Hw). exists g. split; [by left|]. split; [done|]. unfold push_check in Hst.
    rewrite Hc, u64_add_small in Hst by (unfold u64_ok; pose proof pow_pos; lia).
    case_bool_decide as Hfull; simplify_eq; [split; [by apply shared_ok_lock|done]|].
    split; [done|]. unfold thread_ok, holds_lock. split_and!; [done|done|done|done|lia].
  - exists (g ++ [(i, entry_of c id)]). split; [right; by eexists|].
    split; [by destruct Hl as (_ & [? _] & _)|]. by eapply push_store_ok.
  - destruct Hl as (Ho & [Hlk Hw] & Hn). exists g. split; [by left|]. split; [done|]. unfold push_publish in Hst.
    simplify_eq. pose proof Ho as (H0 & _ & _).
    rewrite u64_add_small by (unfold u64_ok; pose proof pow_pos; lia).
    split; [split; simpl; try done; lia|]. split; [done|simpl; lia].
  - destruct Hl as (Ho & Hw). exists g. split; [by left|]. split; [done|]. unfold read_check in Hst.
    rewrite bool_decide_false in Hst by lia. by simplify_eq.
  - destruct Hl as (Ho & Hw). exists g. split; [by left|]. split; [done|]. unfold read_slot in Hst.
    destruct (qs_lock s) eqn:El; [done|]. rewrite Hp in Hst.
    destruct (slot_value g s id Hs) as (e & He & Hin & HM); [destruct Ho; lia|].
    rewrite He in Hst. simpl in Hst. simplify_eq. split; [done|]. split_and!; [done|done|].
    intros HMid. specialize (HM HMid). destruct Ho as (_ & Ho & _).
    rewrite list_lookup_fmap, Ho in HM. by simplify_eq/=.
  - destruct Hl as (Ho & Hin & HM). exists g. split; [by left|]. split; [done|]. unfold notify in Hst. simplify_eq.
    split; [split; simpl; try done|].
    + intros e' [He'|He']%elem_of_app; [auto|]. apply list_elem_of_singleton in He' as ->. done.
    + split; [done|]. intros HMid. rewrite (HM HMid). simpl. set_solver.
  - exists g. split; [by left|]. split; [done|]. by simplify_eq.
  - exists g. split; [by left|]. split; [done|]. unfold ack_store in Hst. simplify_eq. split; [|done].
    case_bool_decide; [|done]. simpl in Hl. split; simpl; try done; lia.
Qed.

Lemma qstep_rely g i j l s l' s' :
  shared_ok g s → thread_ok g i l s → qstep i l s = Some (l', s') → j ≠ i →
  write_pos (qs_queue s) ≤ write_pos (qs_queue s') ∧ (∀ e, e ∈ qs_sent s → e ∈ qs_sent s') ∧
  (qs_lock s = Some j → qs_lock s' = Some j ∧ write_pos (qs_queue s') = write_pos (qs_queue s)).
Proof.
  intros Hs Hl Hst Hne. pose proof (so_bound _ _ Hs) as Hbd.
  destruct l as [c|c|c id|c id|c id|c id|c id e|c r|id|id cur|]; simpl in Hst, Hl;
    unfold push_lock, push_check, push_store, push_publish, read_check, read_slot, notify, ack_store,
      holds_lock in *; try done;
    repeat (case_match || case_bool_decide); simplify_eq/=; split_and!; try done; try lia; try set_solver;
    try (intros ?; destruct_and?; congruence).
  destruct Hl as ((H0 & _) & (_ & Hid) & Hn). rewrite u64_add_small; unfold u64_ok; lia.
Qed.


Lemma queue_preserved : preserved qstep shared_ok thread_ok prefix.
Proof.
  intros g i l s l' s' Hs Hl Hst.
  destruct (qstep_ok g i l s l' s' Hs Hl Hst) as (g' & Hx & Hsame & Hs' & Hl').
  exists g'. split; [by eapply prefix_extends|]. split_and!; [done|done|]. intros j m Hne Hm.
  destruct (qstep_rely g i j l s l' s' Hs Hl Hst Hne) as (R1 & R2 & R3).
  apply (thread_ok_frame g g' i j m s s'); [done..|]. intros Hlk. destruct (R3 Hlk) as [-> ->].
  split_and!; [|done..]. apply Hsame. congruence.
Qed.
End invariant.

(** ** Every interleaving *)

(** Calls that have not begun; acknowledgements go up to [M]. *)
Definition startable (M : Z) (l : QThread) : Prop :=
  match l with PushStart _ => True | AckStart id => 0 ≤ id ≤ M | _ => False end.

Lemma start_ok cap M ls :
  0 ≤ cap → 0 ≤ M → Forall (startable M) ls →
  holds_with (shared_ok (Z.log2_up cap) M) (thread_ok (Z.log2_up cap) M) [] (start cap ls).
Proof.
  intros Hcap HM Hls. pose proof (Z.log2_up_nonneg cap).
  destruct (queue_new_represents cap Hcap) as [Hk Hc Hm Hlen Hp Hw Ha Hpos Hb Hsl].
  split; [split; simpl in *; try done; unfold log_len, owned_len in *; simpl in *; try lia; set_solver|].
  intros i l Hl. simpl in Hl. pose proof (Forall_lookup_1 _ _ _ _ Hls Hl) as Hs.
  by destruct l; simpl in Hs |- *.
Qed.

(** C4: any number of callers may push to a topic and acknowledge entries at the
    same time.  However their memory accesses interleave, the accepted entries
    form one log with consecutive ids; every push that reports an id is in the
    log under that id, once, and no push that reports an error is; only entries
    of the log are sent to subscribers; at most the capacity is accepted beyond
    what callers acknowledge; an entry that no caller acknowledges past is never
    overwritten, is what its id reads while nobody pushes, and has been sent to
    the subscriber when its push returns. *)
Theorem concurrent_pushes (cap M : Z) (ls : list QThread) (sch : list nat) :
  0 ≤ cap → 0 ≤ M → M + next_power_of_two cap ≤ U64_MAX → Forall (startable M) ls →
  let c := run_schedule qstep sch (start cap ls) in
  let q := qs_queue (shared c) in
  ∃ log : list (nat * Entry),
    ids_consecutive log.*2 ∧
    Z.of_nat (length log) ≤ M + next_power_of_two cap ∧
    (∀ i call id, threads c !! i = Some (PushDone call (Ok id)) →
       pushed_one log i call id ∧ (M ≤ id → entry_of call id ∈ qs_sent (shared c))) ∧
    (∀ i call e, threads c !! i = Some (PushDone call (Err e)) →
       pushed_none log i ∧ e = BufferFull (pc_topic call)) ∧
    (∀ e, e ∈ qs_sent (shared c) → e ∈ log.*2) ∧
    (qs_lock (shared c) = None →
       position q = Z.of_nat (length log) ∧
       ∀ id, M ≤ id → read id q = log.*2 !! Z.to_nat id).
Proof.
  intros Hcap HM Hmax Hls c q. pose proof (Z.log2_up_nonneg cap) as Hk.
  destruct (owicki_gries qstep _ _ _ [] (start cap ls) sch
    (queue_preserved (Z.log2_up cap) M Hk HM Hmax) (start_ok cap M ls Hcap HM Hls))
    as (g & _ & Hs & Ht). fold c in Hs, Ht. exists g.
  pose proof Hs as [_ _ _ Hp _ Hf _ Hb Hids _ Hse]. split_and!; [done|done|..].
  - intros i call id Hi. by apply (Ht i _ Hi).
  - intros i call e Hi. by apply (Ht i _ Hi).
  - done.
  - intros Hlock. specialize (Hf Hlock). split; [done|]. intros id Hid. unfold read. fold q in Hf, Hp.
    rewrite Hp, Hf. case_bool_decide as Hge.
    + symmetry. apply lookup_ge_None. rewrite length_fmap. unfold owned_len in *. lia.
    + destruct (slot_value (Z.log2_up cap) M Hk g (shared c) id Hs) as (e & He & _ & HMe); [lia|].
      fold q in He. rewrite He. simpl. by rewrite HMe.
Qed.

(** ** What interleaving can do *)

Definition call (n : Z) : PushCall := mkCall n "t" [n].

(** Two acknowledgements that overlap can leave the smaller one: the position goes
    back, and entries that were acknowledged block the queue again. *)
Lemma overlapping_acks_go_back :
  let c := run_schedule qstep [0; 1; 0; 1]%nat (start 8 [AckStart 5; AckStart 3]) in
  threads c = [AckDone; AckDone] ∧ ack_pos (qs_queue (shared c)) = 3.
Proof. vm_compute. by split. Qed.

(** Subscribers can be sent entries in another order than their ids. *)
Lemma notifications_out_of_order :
  let c := run_schedule qstep ([0; 0; 0; 0] ++ [1; 1; 1; 1; 1; 1; 1] ++ [0; 0; 0])%nat
             (start 2 [PushStart (call 7); PushStart (call 8)]) in
  threads c = [PushDone (call 7) (Ok 0); PushDone (call 8) (Ok 1)] ∧
  e_id <$> qs_sent (shared c) = [1; 0].
Proof. vm_compute. by split. Qed.

(** A push whose entry is acknowledged and overwritten before it reads it back
    sends the newer entry a second time, and its own never. *)
Lemma entry_lost_to_subscribers :
  let c := run_schedule qstep ([0; 0; 0; 0] ++ [1; 1] ++ [2; 2; 2; 2; 2; 2; 2] ++ [0; 0; 0])%nat
             (start 1 [PushStart (call 7); AckStart 1; PushStart (call 8)]) in
  threads c !! 0%nat = Some (PushDone (call 7) (Ok 0)) ∧
  e_id <$> qs_sent (shared c) = [1; 1].
Proof. vm_compute. by split. Qed.

Lemma concurrent_pushes_witness :
  let c := run_schedule qstep [0; 1; 0; 2; 0; 1; 0; 1; 2; 0; 1; 1; 1; 0; 0; 1; 1; 1]%nat
             (start 2 [PushStart (call 7); PushStart (call 8); AckStart 0]) in
  threads c = [PushDone (call 7) (Ok 0); PushDone (call 8) (Ok 1); AckDone] ∧
  entry_of (call 8) 1 ∈ qs_sent (shared c).
Proof.
  split; [vm_compute; reflexivity|].
  destruct (concurrent_pushes 2 0 [PushStart (call 7); PushStart (call 8); AckStart 0]
    [0; 1; 0; 2; 0; 1; 0; 1; 2; 0; 1; 1; 1; 0; 0; 1; 1; 1]%nat) as (log & _ & _ & Hok & _).
  - lia.
  - lia.
  - vm_compute. congruence.
  - repeat constructor; simpl; lia.
  - apply (Hok 1%nat (call 8) 1); [vm_compute; reflexivity|lia].
Defined.
