(* ===== verification/ConcurrentTopics.v ===== *)
(** * Concurrent creation of topics ([get_or_create_topic], src/ddl_distributed.rs)

    The map of topics is a sharded map: looking a key up takes its shard's lock,
    and [entry] keeps it until the value is in.  The counter of topics is an
    atomic of its own.  Each thread works through a list of topics to get or
    create, one access of the map or of the counter at a time. *)

From S2P Require Import Prelude DdlTypes TopicQueue Interleaving.
#[local] Open Scope Z_scope.

Section topics.
(** The limit, the size of a topic's buffer, and the shard of a topic. *)
Variables (max_topics buffer_size : Z) (shard : string → nat).

Record TShared := mkTShared {
  tp_topics : gmap string TopicQueue;
  tp_count : Z;
  tp_locked : gmap nat nat;
}.

(** Where a call for a topic is: its first lookup missed, it found the limit
    reached, its second lookup missed as well, it found the limit not reached,
    or it holds the shard of a vacant entry. *)
Inductive TState := Idle | Missed (t : string) | Limited (t : string) | Refused (t : string)
| Passed (t : string) | Inserting (t : string).

#[global] Instance TState_eq_dec : EqDecision TState.
Proof. solve_decision. Defined.

Record TThread := mkTThread {
  tt_state : TState;
  tt_todo : list string;
  tt_results : list (string * result DdlError unit);
}.

Definition goto (l : TThread) (st : TState) : TThread := mkTThread st (tt_todo l) (tt_results l).
Definition return_ (l : TThread) (t : string) (r : result DdlError unit) : TThread :=
  mkTThread Idle (tt_todo l) (tt_results l ++ [(t, r)]).

(** [self.topics.get(topic)]: the queue, or the next state. *)
Definition lookup_topic (l : TThread) (t : string) (missed : TState) (s : TShared) :
    option (TThread * TShared) :=
  match tp_locked s !! shard t with
  | Some _ => None
  | None => Some (if decide (is_Some (tp_topics s !! t)) then return_ l t (Ok tt) else goto l missed, s)
  end.

Definition check_limit (l : TThread) (t : string) (s : TShared) : option (TThread * TShared) :=
  Some (goto l (if bool_decide (0 < max_topics) && bool_decide (max_topics ≤ tp_count s)
                then Limited t else Passed t), s).

(** [self.topics.entry(topic)], and in a vacant entry the increment. *)
Definition enter (i : nat) (l : TThread) (t : string) (s : TShared) : option (TThread * TShared) :=
  match tp_locked s !! shard t with
  | Some _ => None
  | None =>
      if decide (is_Some (tp_topics s !! t)) then Some (return_ l t (Ok tt), s)
      else Some (goto l (Inserting t),
             mkTShared (tp_topics s) (u64_add (tp_count s) 1) (<[shard t := i]> (tp_locked s)))
  end.

Definition insert_topic (l : TThread) (t : string) (s : TShared) : option (TThread * TShared) :=
  Some (return_ l t (Ok tt),
    mkTShared (<[t := queue_new buffer_size]> (tp_topics s)) (tp_count s)
      (delete (shard t) (tp_locked s))).

Definition topic_step (i : nat) (l : TThread) (s : TShared) : option (TThread * TShared) :=
  match tt_state l with
  | Idle =>
      match tt_todo l with
      | [] => None
      | t :: todo => lookup_topic (mkTThread Idle todo (tt_results l)) t (Missed t) s
      end
  | Missed t => check_limit l t s
  | Limited t => lookup_topic l t (Refused t) s
  | Refused t => Some (return_ l t (Err (TopicLimitExceeded max_topics (tp_count s))), s)
  | Passed t => enter i l t s
  | Inserting t => insert_topic l t s
  end.

(** ** The invariant *)

Definition passed (l : TThread) : bool := match tt_state l with Passed _ => true | _ => false end.
Definition inserting (l : TThread) : bool := match tt_state l with Inserting _ => true | _ => false end.

(** What a thread knows: the limit was reached and the counter never goes down;
    the entry it holds is vacant and its shard is its own; what it reported. *)
Definition reported (s : TShared) (r : string * result DdlError unit) : Prop :=
  match r.2 with
  | Ok _ => is_Some (tp_topics s !! r.1)
  | Err e => ∃ current, e = TopicLimitExceeded max_topics current ∧ max_topics ≤ current
  end.

Definition tthread_ok (i : nat) (l : TThread) (s : TShared) : Prop :=
  Forall (reported s) (tt_results l) ∧
  match tt_state l with
  | Limited _ | Refused _ => max_topics ≤ tp_count s
  | Inserting t => tp_locked s !! shard t = Some i ∧ tp_topics s !! t = None
  | _ => True
  end.

Record topics_inv (n : nat) (c : Machine) : Prop := {
  ti_threads : length (threads c) = n;
  ti_bound : tp_count (shared c) + Z.of_nat (count passed c) ≤ max_topics + Z.of_nat n - 1;
  ti_exact : Z.of_nat (size (tp_topics (shared c)) + count inserting c) = tp_count (shared c);
  ti_ok : ∀ i l, threads c !! i = Some l → tthread_ok i l (shared c);
  ti_holder : ∀ h i, tp_locked (shared c) !! h = Some i →
    ∃ l t, threads c !! i = Some l ∧ tt_state l = Inserting t ∧ shard t = h;
}.

Hypothesis limited : 0 < max_topics.

(** What one thread's action may do to the shared state, as the others see it. *)
Record grows (i : nat) (s s' : TShared) : Prop := {
  gr_topics : ∀ t, is_Some (tp_topics s !! t) → is_Some (tp_topics s' !! t);
  gr_count : tp_count s ≤ tp_count s';
  gr_locks : ∀ h j, j ≠ i → tp_locked s !! h = Some j →
    tp_locked s' !! h = Some j ∧ ∀ t, shard t = h → tp_topics s' !! t = tp_topics s !! t;
}.

Lemma grows_refl i s : grows i s s.
Proof. by split. Qed.

Lemma tthread_ok_frame i j l s s' : j ≠ i → grows i s s' → tthread_ok j l s → tthread_ok j l s'.
Proof.
  intros Hne [Ht Hc Hl] [Hr Hst]. split.
  - eapply Forall_impl; [done|]. intros [t [[]|e]]; unfold reported; simpl; auto.
  - destruct (tt_state l); try done; try lia. destruct Hst as [Hlk Hno].
    destruct (Hl _ _ Hne Hlk) as [-> He]. by rewrite He.
Qed.

Lemma reported_grows i s s' rs : grows i s s' → Forall (reported s) rs → Forall (reported s') rs.
Proof.
  intros [Ht _ _] Hr. eapply Forall_impl; [done|].
  intros [t [[]|e]]; unfold reported; simpl; auto.
Qed.

(** An action leaves the shared state alone, or takes a vacant entry, or fills one. *)
Inductive taction (i : nat) (l : TThread) (s : TShared) : TThread → TShared → Prop :=
| Looks l' :
    inserting l = false → inserting l' = false → passed l && passed l' = false →
    (passed l' = true → tp_count s < max_topics) → tthread_ok i l' s → taction i l s l' s
| Enters t :
    tt_state l = Passed t → tp_locked s !! shard t = None → tp_topics s !! t = None →
    taction i l s (goto l (Inserting t))
      (mkTShared (tp_topics s) (u64_add (tp_count s) 1) (<[shard t := i]> (tp_locked s)))
| Inserts t :
    tt_state l = Inserting t →
    taction i l s (return_ l t (Ok tt))
      (mkTShared (<[t := queue_new buffer_size]> (tp_topics s)) (tp_count s)
         (delete (shard t) (tp_locked s))).

Lemma return_ok i l t r s :
  Forall (reported s) (tt_results l) → reported s (t, r) → tthread_ok i (return_ l t r) s.
Proof. intros Hr Ht. split; [|done]. simpl. by apply Forall_app_2, Forall_singleton. Qed.

Lemma lookup_topic_action i l l0 t st s l' s' :
  tt_results l0 = tt_results l → Forall (reported s) (tt_results l) → inserting l = false →
  (∀ td, tthread_ok i (mkTThread st td (tt_results l)) s) →
  inserting (goto l0 st) = false → passed (goto l0 st) = false →
  lookup_topic l0 t st s = Some (l', s') → taction i l s l' s'.
Proof.
  intros Hr0 Hr Hi Hst Hni Hnp Hs. unfold lookup_topic in Hs.
  destruct (tp_locked s !! shard t); [done|]. destruct (decide _) as [Ht|Ht]; simplify_eq.
  - apply Looks; [done|done|by rewrite andb_false_r|done|]. apply return_ok; [by rewrite Hr0|done].
  - apply Looks; [done|done|by rewrite Hnp, andb_false_r|by rewrite Hnp|].
    unfold goto. rewrite Hr0. apply Hst.
Qed.

Lemma tstep_action i l s l' s' : tthread_ok i l s → topic_step i l s = Some (l', s') → taction i l s l' s'.
Proof.
  intros [Hr Hst] Hs. unfold topic_step in Hs. destruct (tt_state l) as [|t|t|t|t|t] eqn:El.
  - destruct (tt_todo l) as [|t td] eqn:Et; [done|].
    eapply lookup_topic_action in Hs; unfold inserting; rewrite ?El; try done.
  - unfold check_limit in Hs. rewrite bool_decide_true in Hs by done. simplify_eq/=.
    case_bool_decide; apply Looks; unfold inserting, passed; simpl; rewrite ?El; try done; simpl; lia.
  - eapply lookup_topic_action in Hs; unfold inserting; rewrite ?El; try done.
  - simplify_eq. apply Looks; unfold inserting, passed; simpl; rewrite ?El; try done.
    apply return_ok; [done|]. by eexists.
  - unfold enter in Hs. destruct (tp_locked s !! shard t) eqn:Elk; [done|].
    destruct (decide _) as [Ht|Ht]; simplify_eq.
    + apply Looks; unfold inserting, passed; simpl; rewrite ?El; try done. by apply return_ok.
    + apply Enters; [done|done|]. by apply eq_None_not_Some.
  - unfold insert_topic in Hs. simplify_eq. by apply Inserts.
Qed.

Lemma taction_grows i l s l' s' :
  tthread_ok i l s → 0 ≤ tp_count s → tp_count s + 1 ≤ U64_MAX → taction i l s l' s' → grows i s s'.
Proof.
  intros [_ Hl] H0 Hmax [l1| t Hst Hlk Hno | t Hst]; [apply grows_refl|..]; split; simpl; try done.
  - rewrite u64_add_small; unfold u64_ok; lia.
  - intros h j Hne Hh. split; [|done]. rewrite lookup_insert_ne; [done|congruence].
  - intros t' Ht'. destruct (decide (t = t')) as [->|]; [by rewrite lookup_insert_eq|].
    by rewrite lookup_insert_ne.
  - intros h j Hne Hh. rewrite Hst in Hl. destruct Hl as [Hlk _].
    assert (shard t ≠ h) by congruence. split; [by rewrite lookup_delete_ne|].
    intros t' <-. rewrite lookup_insert_ne; [done|congruence].
Qed.

Lemma taction_ok i l s l' s' :
  tthread_ok i l s → grows i s s' → taction i l s l' s' → tthread_ok i l' s'.
Proof.
  intros [Hr Hl] Hg Ha. pose proof (reported_grows i s s' _ Hg Hr) as Hr'.
  destruct Ha as [l1| t Hst Hlk Hno | t Hst]; [done|..].
  - split; [done|]. simpl. by rewrite lookup_insert_eq.
  - apply return_ok; [done|]. unfold reported. simpl. by rewrite lookup_insert_eq.
Qed.

(** The bookkeeping of one action of thread [i]. *)
Lemma taction_bound n i l l' s s' ls :
  topics_inv n (mkMachine s ls) → max_topics + Z.of_nat n ≤ U64_MAX → ls !! i = Some l →
  taction i l s l' s' →
  let c' := mkMachine s' (<[i := l']> ls) in
  tp_count s' + Z.of_nat (count passed c') ≤ max_topics + Z.of_nat n - 1 ∧
  Z.of_nat (size (tp_topics s') + count inserting c') = tp_count s'.
Proof.
  intros Hi Hmax Hl Ha c'.
  pose proof (count_step passed s s' ls i l l' Hl) as Hp. fold c' in Hp.
  pose proof (count_step inserting s s' ls i l l' Hl) as Hn. fold c' in Hn.
  assert (count passed c' ≤ n)%nat as Hle.
  { rewrite <- (ti_threads _ _ Hi). simpl. rewrite <- (length_insert ls i l'). apply (count_le passed c'). }
  pose proof (ti_bound _ _ Hi) as Hb. pose proof (ti_exact _ _ Hi) as He.
  pose proof (ti_ok _ _ Hi i l Hl) as [_ Hok]. simpl in Hb, He, Hok.
  destruct Ha as [l' Hi1 Hi2 Hpp Hlt _ | t Hst Hlk Hno | t Hst];
    unfold passed, inserting in *; cbn [goto return_ tt_state tp_count tp_topics] in *.
  - rewrite Hi1, Hi2 in Hn. destruct (tt_state l), (tt_state l'); try done; try (split; lia);
      specialize (Hlt eq_refl); split; lia.
  - rewrite Hst in *. rewrite u64_add_small by (unfold u64_ok; lia). split; lia.
  - rewrite Hst in *. rewrite map_size_insert_None by apply Hok. split; lia.
Qed.

Lemma taction_holders i l l' s s' (ls : list TThread) :
  ls !! i = Some l → tthread_ok i l s → taction i l s l' s' →
  (∀ h j, tp_locked s !! h = Some j →
     ∃ m t, ls !! j = Some m ∧ tt_state m = Inserting t ∧ shard t = h) →
  ∀ h j, tp_locked s' !! h = Some j →
     ∃ m t, <[i := l']> ls !! j = Some m ∧ tt_state m = Inserting t ∧ shard t = h.
Proof.
  intros Hl [_ Hok] Ha Hh h j Hj. pose proof (lookup_lt_Some _ _ _ Hl).
  assert (∀ h' j', j' ≠ i → tp_locked s !! h' = Some j' →
    ∃ m t, <[i := l']> ls !! j' = Some m ∧ tt_state m = Inserting t ∧ shard t = h') as Hother.
  { intros h' j' Hne Hj'. rewrite list_lookup_insert_ne by done. by apply Hh. }
  destruct Ha as [l' Hi1 Hi2 Hpp Hlt _ | t Hst Hlk Hno | t Hst]; simpl in Hj.
  - apply Hother; [|done]. intros ->. destruct (Hh h i Hj) as (m & t & Hm & Ht & _). simplify_eq.
    unfold inserting in Hi1. by rewrite Ht in Hi1.
  - destruct (decide (shard t = h)) as [<-|Hne].
    + rewrite lookup_insert_eq in Hj. simplify_eq. rewrite list_lookup_insert_eq by done.
      by eexists _, t.
    + rewrite lookup_insert_ne in Hj by done. apply Hother; [|done]. intros ->.
      destruct (Hh h i Hj) as (m & t' & Hm & Ht & _). congruence.
  - apply lookup_delete_Some in Hj as [Hne Hj]. apply Hother; [|done]. intros ->.
    destruct (Hh h i Hj) as (m & t' & Hm & Ht & <-). rewrite Hl in Hm. simplify_eq. congruence.
Qed.

Lemma topics_inv_step n c i :
  max_topics + Z.of_nat n ≤ U64_MAX → topics_inv n c → topics_inv n (run_thread topic_step c i).
Proof.
  intros Hmax Hi. apply run_thread_cases; [done|]. intros l l' s' Hl Hst. destruct c as [s ls]. simpl in *.
  pose proof (ti_ok _ _ Hi i l Hl) as Hok. simpl in Hok.
  pose proof (tstep_action i l s l' s' Hok Hst) as Ha.
  pose proof (ti_bound _ _ Hi). pose proof (ti_exact _ _ Hi). simpl in *.
  assert (grows i s s') as Hg.
  { eapply taction_grows; [done|lia| |done].
    assert (1 ≤ Z.of_nat n) by (rewrite <- (ti_threads _ _ Hi); apply lookup_lt_Some in Hl; simpl; lia). lia. }
  destruct (taction_bound n i l l' s s' ls Hi Hmax Hl Ha) as [Hb He]. split; simpl.
  - rewrite length_insert. apply (ti_threads _ _ Hi).
  - done.
  - done.
  - intros j m. destruct (decide (i = j)) as [<-|Hne].
    + rewrite list_lookup_insert_eq by (by eapply lookup_lt_Some). intros [= <-]. by eapply taction_ok.
    + rewrite list_lookup_insert_ne by done. intros Hm. eapply tthread_ok_frame; [|done|]; [done|].
      by apply (ti_ok _ _ Hi).
  - by eapply taction_holders; [| | |apply (ti_holder _ _ Hi)].
Qed.

(** ** Every interleaving *)

Definition caller (todo : list string) : TThread := mkTThread Idle todo [].
Definition callers (todos : list (list string)) : Machine := mkMachine (mkTShared ∅ 0 ∅) (caller <$> todos).

Lemma count_callers P todos : (∀ t, P (caller t) = false) → count P (callers todos) = 0%nat.
Proof.
  intros HP. apply count_zero. intros i l Hl. simpl in Hl. rewrite list_lookup_fmap in Hl.
  destruct (todos !! i); by simplify_eq/=.
Qed.

Lemma callers_inv todos : todos ≠ [] → topics_inv (length todos) (callers todos).
Proof.
  intros Hne. split.
  - apply length_fmap.
  - rewrite count_callers by done. simpl. destruct todos; [done|]. simpl. lia.
  - rewrite count_callers by done. done.
  - intros i l Hl. simpl in Hl. rewrite list_lookup_fmap in Hl.
    destruct (todos !! i) as [td|]; simplify_eq/=. by split.
  - intros h i Hh. simpl in Hh. by rewrite lookup_empty in Hh.
Qed.

Lemma run_inv todos sch :
  todos ≠ [] → max_topics + Z.of_nat (length todos) ≤ U64_MAX →
  topics_inv (length todos) (run_schedule topic_step sch (callers todos)).
Proof.
  intros Hne Hmax. apply run_schedule_ind; [by apply callers_inv|].
  intros c i Hi. by apply topics_inv_step.
Qed.

Definition finished (l : TThread) : Prop := tt_state l = Idle ∧ tt_todo l = [].

#[global] Instance finished_dec l : Decision (finished l).
Proof. unfold finished. apply _. Defined.

(** A thread with work left moves, or waits for one that can. *)
Lemma no_deadlock n c i l :
  topics_inv n c → threads c !! i = Some l → ¬ finished l →
  ∃ j m, threads c !! j = Some m ∧ is_Some (topic_step j m (shared c)).
Proof.
  intros Hi Hl Hnf.
  assert (∀ h j, tp_locked (shared c) !! h = Some j →
    ∃ j m, threads c !! j = Some m ∧ is_Some (topic_step j m (shared c))) as Hholder.
  { intros h j Hj. destruct (ti_holder _ _ Hi h j Hj) as (m & t & Hm & Ht & _). exists j, m.
    split; [done|]. unfold topic_step. by rewrite Ht. }
  assert (∀ l0 t st, is_Some (lookup_topic l0 t st (shared c)) ∨
    ∃ h j, tp_locked (shared c) !! h = Some j) as Hlk.
  { intros l0 t st. unfold lookup_topic. destruct (tp_locked _ !! _) eqn:E; [right; eauto|by left]. }
  destruct (tt_state l) as [|t|t|t|t|t] eqn:El.
  - destruct (tt_todo l) as [|t td] eqn:Et; [by destruct Hnf|].
    destruct (Hlk (mkTThread Idle td (tt_results l)) t (Missed t)) as [Hs|(h & j & Hj)]; [|by eapply Hholder].
    exists i, l. unfold topic_step. by rewrite El, Et.
  - exists i, l. unfold topic_step. by rewrite El.
  - destruct (Hlk l t (Refused t)) as [Hs|(h & j & Hj)]; [|by eapply Hholder].
    exists i, l. unfold topic_step. by rewrite El.
  - exists i, l. unfold topic_step. by rewrite El.
  - destruct (tp_locked (shared c) !! shard t) as [j|] eqn:Ej; [by eapply Hholder|].
    exists i, l. unfold topic_step, enter. rewrite El, Ej. by destruct (decide _).
  - exists i, l. unfold topic_step. by rewrite El.
Qed.

(** C23: callers that get or create topics at the same time never deadlock; in
    every interleaving each call that reports success has its topic in the map,
    each refusal reports the limit and a count that has reached it, the counter
    is the number of topics whenever no insertion is under way, and the limit is
    exceeded by at most one topic for every caller but one. *)
Theorem concurrent_topic_limit (todos : list (list string)) (sch : list nat) :
  todos ≠ [] → max_topics + Z.of_nat (length todos) ≤ U64_MAX →
  let c := run_schedule topic_step sch (callers todos) in
  let s := shared c in
  Z.of_nat (size (tp_topics s)) ≤ max_topics + Z.of_nat (length todos) - 1 ∧
  (tp_locked s = ∅ → tp_count s = Z.of_nat (size (tp_topics s))) ∧
  (∀ i l r, threads c !! i = Some l → r ∈ tt_results l → reported s r) ∧
  ((∀ i l, threads c !! i = Some l → topic_step i l s = None) →
   ∀ i l, threads c !! i = Some l → finished l).
Proof.
  intros Hne Hmax c s. pose proof (run_inv todos sch Hne Hmax) as Hi. fold c in Hi.
  pose proof (ti_bound _ _ Hi) as Hb. pose proof (ti_exact _ _ Hi) as He. fold s in Hb, He. split_and!.
  - lia.
  - intros Hlk. rewrite <- He. cut (count inserting c = 0%nat); [lia|].
    apply count_zero. intros i l Hl. pose proof (ti_ok _ _ Hi i l Hl) as [_ Hok].
    unfold inserting. destruct (tt_state l); try done. fold s in Hok. rewrite Hlk in Hok.
    by destruct Hok as [Hok _].
  - intros i l r Hl Hr. pose proof (ti_ok _ _ Hi i l Hl) as [Hok _]. by eapply Forall_forall in Hr.
  - intros Hstuck i l Hl. apply dec_stable. intros Hnf.
    destruct (no_deadlock _ c i l Hi Hl Hnf) as (j & m & Hm & Hs). fold s in Hs.
    rewrite (Hstuck j m Hm) in Hs. by destruct Hs.
Qed.
End topics.

(** The bound is reached: three callers that pass the check of a limit of one
    together create three topics. *)
Lemma topic_limit_exceeded :
  let c := run_schedule (topic_step 1 8 (λ _, 0%nat))
             ([0; 1; 2] ++ [0; 1; 2] ++ [0; 0] ++ [1; 1] ++ [2; 2])%nat
             (callers [["a"]; ["b"]; ["c"]]) in
  size (tp_topics (shared c)) = 3%nat ∧
  (λ l, snd <$> tt_results l) <$> threads c = [[Ok tt]; [Ok tt]; [Ok tt]].
Proof. vm_compute. by split. Qed.

Lemma concurrent_topic_limit_witness :
  let c := run_schedule (topic_step 1 8 (λ _, 0%nat))
             ([0; 1; 2] ++ [0; 1; 2] ++ [0; 1; 0] ++ [1; 1] ++ [2; 2])%nat
             (callers [["a"]; ["b"]; ["c"]]) in
  Z.of_nat (size (tp_topics (shared c))) ≤ 3.
Proof.
  intros c. apply (concurrent_topic_limit 1 8 (λ _, 0%nat) ltac:(lia) [["a"]; ["b"]; ["c"]]).
  - done.
  - vm_compute. congruence.
Defined.
