(* ===== verification/Subscribers.v ===== *)
(** * Subscriber notification (src/topic_queue.rs, [notify_subscribers])

    Subscribers receive entries through bounded crossbeam channels.  The
    channel is a parameter: [Channel] lists the operations the code calls and
    what the crate documents about them.  A channel is shared by the sender in
    the subscriber list and the receiver in the stream, so channels live in a
    store and both sides name them. *)

From S2P Require Import Prelude DdlTypes.
#[local] Open Scope Z_scope.

(** ** The channel interface *)

Inductive try_send_result := Sent | Full | Disconnected.

(** [chan_send] is the blocking send: [None] while it waits for room. *)
Class Channel (C : Type) : Type := {
  chan_bounded : Z → C;
  chan_queue : C → list Entry;
  chan_cap : C → Z;
  chan_connected : C → bool;
  chan_is_full : C → bool;
  chan_try_send : Entry → C → try_send_result * C;
  chan_send : Entry → C → option (bool * C);
  chan_try_recv : C → option Entry * C;
  chan_drop_receiver : C → C;

  chan_bounded_spec : ∀ n, chan_queue (chan_bounded n) = [] ∧
    chan_cap (chan_bounded n) = n ∧ chan_connected (chan_bounded n) = true;
  chan_is_full_spec : ∀ c,
    chan_is_full c = bool_decide (chan_cap c ≤ Z.of_nat (length (chan_queue c)));
  chan_try_send_disconnected : ∀ e c, chan_connected c = false →
    chan_try_send e c = (Disconnected, c);
  chan_try_send_full : ∀ e c, chan_connected c = true → chan_is_full c = true →
    chan_try_send e c = (Full, c);
  chan_try_send_room : ∀ e c, chan_connected c = true → chan_is_full c = false →
    ∃ c', chan_try_send e c = (Sent, c') ∧ chan_queue c' = chan_queue c ++ [e] ∧
      chan_cap c' = chan_cap c ∧ chan_connected c' = true;
  (** a blocking send waits exactly while the non-blocking one finds no room *)
  chan_send_spec : ∀ e c, chan_send e c =
    match chan_try_send e c with
    | (Full, _) => None
    | (Sent, c') => Some (true, c')
    | (Disconnected, c') => Some (false, c')
    end;
  chan_try_recv_spec : ∀ c,
    match chan_queue c with
    | [] => chan_try_recv c = (None, c)
    | e :: es => ∃ c', chan_try_recv c = (Some e, c') ∧ chan_queue c' = es ∧
        chan_cap c' = chan_cap c ∧ chan_connected c' = chan_connected c
    end;
  chan_drop_receiver_spec : ∀ c, chan_connected (chan_drop_receiver c) = false;
}.

Record SubscriberInfo := mkSub { sub_sender : Z; sub_created_at : option Z }.

(** [|a, b| b.cmp(a)]: descending order. *)
Definition desc (a b : nat) : Prop := (b <= a)%nat.

#[export] Instance desc_dec : RelDecision desc.
Proof. intros a b. unfold desc. apply _. Defined.
#[export] Instance desc_total : Total desc.
Proof. intros a b. unfold desc. lia. Qed.
#[export] Instance desc_trans : Transitive desc.
Proof. intros a b c. unfold desc. lia. Qed.
#[export] Instance desc_antisymm : AntiSymm (=) desc.
Proof. intros a b. unfold desc. lia. Qed.

Section subscribers.
Context {C : Type} `{!Channel C}.

Abbreviation store := (gmap Z C).

(** The outcome of one subscriber's turn. *)
Inductive turn := Delivered | Dropped | Gone | Refused.

(** One iteration of the loop; [None] while a blocking send waits. A sender
    whose channel is gone from the store has no receiver. *)
Definition notify_one (mode : BackpressureMode) (e : Entry) (c : C) : option (turn * C) :=
  match mode with
  | Block =>
      '(ok, c') ← chan_send e c;
      Some (if ok : bool then Delivered else Gone, c')
  | DropOldest =>
      Some (match chan_try_send e c with
            | (Full, c') => (Dropped, c')
            | (Disconnected, c') => (Gone, c')
            | (Sent, c') => (Delivered, c')
            end)
  | DropNewest =>
      if chan_is_full c then Some (Dropped, c)
      else Some (match chan_try_send e c with
                 | (Sent, c') => (Delivered, c')
                 | (Disconnected, c') => (Gone, c')
                 | (Full, c') => (Dropped, c')
                 end)
  | Error =>
      if chan_is_full c then Some (Refused, c)
      else Some (match chan_try_send e c with
                 | (Sent, c') => (Delivered, c')
                 | (Disconnected, c') => (Gone, c')
                 | (Full, c') => (Dropped, c')
                 end)
  end.

(** The loop over the topic's subscribers from index [idx] on: the indices of
    disconnected ones, or the early return of [Error] mode. *)
Fixpoint notify_loop (mode : BackpressureMode) (topic : string) (e : Entry) (idx : nat)
    (infos : list SubscriberInfo) (disc : list nat) (st : store) :
    option (result DdlError (list nat) * store) :=
  match infos with
  | [] => Some (Ok disc, st)
  | info :: infos =>
      match st !! sub_sender info with
      | None => notify_loop mode topic e (S idx) infos (disc ++ [idx]) st
      | Some c =>
          '(t, c') ← notify_one mode e c;
          let st' := <[sub_sender info := c']> st in
          match t with
          | Refused => Some (Err (SubscriberBufferFull topic), st)
          | Gone => notify_loop mode topic e (S idx) infos (disc ++ [idx]) st'
          | Delivered | Dropped => notify_loop mode topic e (S idx) infos disc st'
          end
      end
  end.

(** [sort_by(|a, b| b.cmp(a))], then [remove(idx)] for each index in range. *)
Definition sort_desc (idxs : list nat) : list nat := merge_sort desc idxs.

Definition remove_at (infos : list SubscriberInfo) (idx : nat) : list SubscriberInfo :=
  if bool_decide (idx < length infos)%nat then delete idx infos else infos.

Definition cleanup (idxs : list nat) (infos : list SubscriberInfo) : list SubscriberInfo :=
  fold_left remove_at (sort_desc idxs) infos.

Definition notify_subscribers (mode : BackpressureMode) (topic : string) (e : Entry)
    (subs : gmap string (list SubscriberInfo)) (st : store) :
    option (result DdlError unit * gmap string (list SubscriberInfo) * store) :=
  match subs !! topic with
  | None => Some (Ok tt, subs, st)
  | Some infos =>
      '(r, st') ← notify_loop mode topic e 0 infos [] st;
      match r with
      | Err err => Some (Err err, subs, st')
      | Ok [] => Some (Ok tt, subs, st')
      | Ok idxs => Some (Ok tt, <[topic := cleanup idxs infos]> subs, st')
      end
  end.

(** ** One subscriber *)

(** What a subscriber's turn should do, by the state of its channel. *)
Definition expected_turn (mode : BackpressureMode) (c : C) : turn :=
  match mode with
  | Block | DropOldest =>
      if chan_connected c then if chan_is_full c then Dropped else Delivered else Gone
  | DropNewest =>
      if chan_is_full c then Dropped else if chan_connected c then Delivered else Gone
  | Error =>
      if chan_is_full c then Refused else if chan_connected c then Delivered else Gone
  end.

Lemma notify_one_spec mode e c :
  (mode = Block → chan_connected c = true → chan_is_full c = false) →
  ∃ c', notify_one mode e c = Some (expected_turn mode c, c') ∧
    match expected_turn mode c with
    | Delivered => chan_queue c' = chan_queue c ++ [e] ∧ chan_cap c' = chan_cap c ∧
        chan_connected c' = true
    | _ => c' = c
    end.
Proof.
  intros Hblock. unfold notify_one, expected_turn.
  destruct mode; rewrite ?chan_send_spec;
    destruct (chan_connected c) eqn:Hc; destruct (chan_is_full c) eqn:Hf;
    try (by rewrite ?chan_try_send_disconnected by done; eexists);
    try (by rewrite ?chan_try_send_full by done; eexists);
    try (by specialize (Hblock eq_refl eq_refl));
    destruct (chan_try_send_room e c Hc Hf) as (c' & -> & Hq); by exists c'.
Qed.

(** Only the blocking mode can wait. *)
Lemma notify_loop_returns mode topic e idx infos disc st :
  mode ≠ Block → is_Some (notify_loop mode topic e idx infos disc st).
Proof.
  intros Hm. revert idx disc st. induction infos as [|info infos IH]; intros idx disc st; simpl; [eauto|].
  destruct (st !! sub_sender info) as [c|]; [|apply IH].
  destruct (notify_one_spec mode e c) as (c' & -> & _); [done|]. simpl.
  destruct (expected_turn mode c); eauto.
Qed.

Lemma notify_returns mode topic e subs st :
  mode ≠ Block → is_Some (notify_subscribers mode topic e subs st).
Proof.
  intros Hm. unfold notify_subscribers. destruct (subs !! topic) as [infos|]; [|eauto].
  destruct (notify_loop_returns mode topic e 0 infos [] st Hm) as [[[[|? ?]|?] st'] ->]; simpl; eauto.
Qed.

(** A blocking send waits exactly when the channel is connected and full. *)
Lemma notify_one_blocks mode e c :
  notify_one mode e c = None ↔ mode = Block ∧ chan_connected c = true ∧ chan_is_full c = true.
Proof.
  split.
  - intros Hn. destruct (decide (mode = Block ∧ chan_connected c = true ∧ chan_is_full c = true))
      as [|Hno]; [done|].
    destruct (notify_one_spec mode e c) as (c' & Hs & _); [|congruence].
    intros -> Hc. destruct (chan_is_full c); naive_solver.
  - intros (-> & Hc & Hf). unfold notify_one. rewrite chan_send_spec, chan_try_send_full; done.
Qed.

(** ** The whole list *)

Definition gone (mode : BackpressureMode) (st : store) (info : SubscriberInfo) : bool :=
  match st !! sub_sender info with
  | Some c => match expected_turn mode c with Gone => true | _ => false end
  | None => true
  end.

(** The positions, counted from [idx], of the subscribers that are gone. *)
Fixpoint gone_idxs (mode : BackpressureMode) (st : store) (idx : nat)
    (infos : list SubscriberInfo) : list nat :=
  match infos with
  | [] => []
  | info :: infos =>
      if gone mode st info then idx :: gone_idxs mode st (S idx) infos
      else gone_idxs mode st (S idx) infos
  end.

Lemma gone_idxs_ge mode st idx infos :
  Forall (λ i, (idx <= i)%nat) (gone_idxs mode st idx infos).
Proof.
  revert idx. induction infos as [|info infos IH]; intros idx; simpl; [done|].
  assert (Forall (λ i, (idx <= i)%nat) (gone_idxs mode st (S idx) infos)).
  { eapply Forall_impl; [apply IH|]. simpl. lia. }
  destruct (gone mode st info); [constructor; [lia|done]|done].
Qed.

Lemma sort_desc_gone mode st idx infos :
  sort_desc (gone_idxs mode st idx infos) = reverse (gone_idxs mode st idx infos).
Proof.
  apply (StronglySorted_unique desc); [apply (StronglySorted_merge_sort _)| |].
  - revert idx. induction infos as [|info infos IH]; intros idx; simpl; [constructor|].
    destruct (gone mode st info); [|apply IH]. rewrite reverse_cons.
    apply StronglySorted_app. split_and!; [|apply IH|repeat constructor].
    intros a b Ha ->%list_elem_of_singleton. unfold desc.
    rewrite elem_of_reverse in Ha.
    pose proof (gone_idxs_ge mode st (S idx) infos) as Hge. rewrite Forall_forall in Hge.
    apply Hge in Ha. lia.
  - unfold sort_desc. by rewrite merge_sort_Permutation, reverse_Permutation.
Qed.

(** Removing by descending index removes exactly the subscribers that are gone. *)
Lemma cleanup_gone mode st infos :
  cleanup (gone_idxs mode st 0 infos) infos = filter (λ info, gone mode st info = false) infos.
Proof.
  unfold cleanup. rewrite sort_desc_gone.
  assert (Hgen : ∀ pre, fold_left remove_at (reverse (gone_idxs mode st (length pre) infos))
    (pre ++ infos) = pre ++ filter (λ info, gone mode st info = false) infos).
  { induction infos as [|info infos IH]; intros pre; simpl; [done|]. rewrite filter_cons.
    specialize (IH (pre ++ [info])).
    rewrite length_app, Nat.add_1_r, <- !app_assoc in IH. simpl in IH.
    destruct (gone mode st info); simpl.
    - rewrite reverse_cons, fold_left_app, IH. simpl. unfold remove_at.
      rewrite bool_decide_true by (rewrite length_app; simpl; lia).
      by rewrite delete_middle.
    - rewrite IH. done. }
  apply (Hgen []).
Qed.

(** Every send of the loop succeeds or is dropped: nothing waits and nothing
    refuses. *)
Definition unobstructed (mode : BackpressureMode) (st : store) (infos : list SubscriberInfo) : Prop :=
  ∀ info c, info ∈ infos → st !! sub_sender info = Some c →
    (mode = Block → chan_connected c = true → chan_is_full c = false) ∧
    (mode = Error → chan_is_full c = false).

(** The channel of a subscriber before and after. *)
Definition after_turn (mode : BackpressureMode) (e : Entry) (c c' : C) : Prop :=
  match expected_turn mode c with
  | Delivered => chan_queue c' = chan_queue c ++ [e] ∧ chan_cap c' = chan_cap c ∧
      chan_connected c' = true
  | _ => c' = c
  end.

Lemma expected_not_refused mode c :
  (mode = Error → chan_is_full c = false) → expected_turn mode c ≠ Refused.
Proof.
  intros H. destruct mode; simpl; repeat case_match; try done. by specialize (H eq_refl).
Qed.

Lemma notify_loop_spec mode topic e infos idx disc st :
  NoDup (sub_sender <$> infos) → unobstructed mode st infos →
  ∃ st', notify_loop mode topic e idx infos disc st =
           Some (Ok (disc ++ gone_idxs mode st idx infos), st') ∧
    (∀ i, i ∉ sub_sender <$> infos → st' !! i = st !! i) ∧
    (∀ info, info ∈ infos → option_Forall2 (after_turn mode e)
       (st !! sub_sender info) (st' !! sub_sender info)).
Proof.
  revert idx disc st. induction infos as [|info infos IH]; intros idx disc st Hnd Hun; simpl.
  { exists st. rewrite app_nil_r. split_and!; [done|done|]. by intros ? ?%not_elem_of_nil. }
  apply NoDup_cons in Hnd as [Hni Hnd].
  assert (Htail : ∀ c', unobstructed mode (<[sub_sender info := c']> st) infos ∧
    ∀ k, gone_idxs mode (<[sub_sender info := c']> st) k infos = gone_idxs mode st k infos).
  { intros c'. assert (Hl : ∀ i, i ∈ infos →
      <[sub_sender info := c']> st !! sub_sender i = st !! sub_sender i).
    { intros i Hi. apply lookup_insert_ne. intros Heq. apply Hni. rewrite Heq.
      by apply list_elem_of_fmap_2. }
    split.
    - intros i c Hi. rewrite Hl by done. apply Hun. by right.
    - clear -Hl. induction infos as [|i infos IH']; intros k; simpl; [done|].
      unfold gone. rewrite (Hl i) by left. rewrite IH'; [done|]. intros j Hj. apply Hl. by right. }
  destruct (st !! sub_sender info) as [c|] eqn:Hc.
  - destruct (Hun info c) as [Hb Hr]; [left|done|].
    destruct (notify_one_spec mode e c Hb) as (c' & -> & Hc'). simpl.
    destruct (Htail c') as [Hun' Hg]. pose proof (expected_not_refused mode c Hr).
    set (disc' := match expected_turn mode c with Gone => disc ++ [idx] | _ => disc end).
    destruct (IH (S idx) disc' (<[sub_sender info := c']> st) Hnd Hun') as (st' & Hl & Hfr & Hin).
    exists st'. split_and!.
    + unfold gone. rewrite Hc, <- (Hg (S idx)). unfold disc' in Hl.
      destruct (expected_turn mode c); try done; rewrite Hl; try done.
      by rewrite <- app_assoc.
    + intros i Hi. rewrite not_elem_of_cons in Hi. rewrite Hfr by naive_solver.
      by rewrite lookup_insert_ne by naive_solver.
    + intros i [->|Hi]%elem_of_cons.
      * rewrite Hc, Hfr, lookup_insert_eq by done. constructor. unfold after_turn.
        by destruct (expected_turn mode c).
      * specialize (Hin i Hi). rewrite lookup_insert_ne in Hin; [done|].
        intros Heq. apply Hni. rewrite Heq. by apply list_elem_of_fmap_2.
  - destruct (IH (S idx) (disc ++ [idx]) st Hnd) as (st' & Hl & Hfr & Hin).
    { intros i c' Hi. apply Hun. by right. }
    exists st'. split_and!.
    + unfold gone. rewrite Hc, Hl. by rewrite <- app_assoc.
    + intros i Hi. rewrite not_elem_of_cons in Hi. apply Hfr. naive_solver.
    + intros i [->|Hi]%elem_of_cons; [|by apply Hin]. rewrite Hc, Hfr, Hc by done. constructor.
Qed.

Lemma notify_unobstructed mode topic e subs infos st :
  subs !! topic = Some infos → NoDup (sub_sender <$> infos) → unobstructed mode st infos →
  ∃ st', notify_subscribers mode topic e subs st =
      Some (Ok tt, <[topic := filter (λ info, gone mode st info = false) infos]> subs, st') ∧
    (∀ i, i ∉ sub_sender <$> infos → st' !! i = st !! i) ∧
    (∀ info, info ∈ infos → option_Forall2 (after_turn mode e)
       (st !! sub_sender info) (st' !! sub_sender info)).
Proof.
  intros Hs Hnd Hun. unfold notify_subscribers. rewrite Hs.
  destruct (notify_loop_spec mode topic e infos 0 [] st Hnd Hun) as (st' & -> & Hfr & Hin).
  simpl. exists st'. split; [|done]. rewrite <- cleanup_gone.
  destruct (gone_idxs mode st 0 infos); [|done].
  by rewrite insert_id.
Qed.

(** What can come out of a notification at all. *)
Lemma notify_result mode topic e subs st r subs' st' :
  notify_subscribers mode topic e subs st = Some (r, subs', st') →
  r = Ok tt ∨ (r = Err (SubscriberBufferFull topic) ∧ mode = Error).
Proof.
  unfold notify_subscribers. destruct (subs !! topic) as [infos|]; [|naive_solver].
  assert (Hloop : ∀ infos idx disc st0 r0 st1,
    notify_loop mode topic e idx infos disc st0 = Some (r0, st1) →
    is_ok r0 = true ∨ (r0 = Err (SubscriberBufferFull topic) ∧ mode = Error)).
  { induction infos0 as [|i infos0 IH]; intros idx disc st0 r0 st1; simpl; [naive_solver|].
    destruct (st0 !! sub_sender i) as [c|]; [|apply IH].
    destruct (notify_one mode e c) as [[t c']|] eqn:H1; simpl; [|done].
    destruct t; try apply IH. intros [= <- <-]. right. split; [done|].
    revert H1. destruct mode; simpl; repeat case_match; try done; try (by destruct (chan_send e c) as [[[] ?]|]). }
  destruct (notify_loop mode topic e 0 infos [] st) as [[r0 st1]|] eqn:Hl; simpl; [|done].
  apply Hloop in Hl. destruct r0 as [[|]|]; naive_solver.
Qed.

(** The loop over a list in two parts, when the first part does not fail. *)
Lemma notify_loop_app mode topic e l1 l2 idx disc st0 d st1 :
  notify_loop mode topic e idx l1 disc st0 = Some (Ok d, st1) →
  notify_loop mode topic e idx (l1 ++ l2) disc st0 =
  notify_loop mode topic e (idx + length l1) l2 d st1.
Proof.
  revert idx disc st0. induction l1 as [|i l1 IH]; intros idx disc st0; simpl.
  - intros [= -> ->]. by rewrite Nat.add_0_r.
  - rewrite <- Nat.add_succ_comm. destruct (st0 !! sub_sender i) as [c|]; [|apply IH].
    destruct (notify_one mode e c) as [[t c']|]; simpl; [|done].
    destruct t; try apply IH; done.
Qed.
End subscribers.

(** ** Properties *)

Section subscriber_properties.
Context {C : Type} `{!Channel C}.
Abbreviation store := (gmap Z C).

(** C25: delivery. Let every subscriber of the topic have a channel of its own. When
    no blocking send has to wait and no [Error]-mode channel is full, notification
    succeeds; each subscriber whose channel is connected and has room gets the entry
    appended once, a full channel is left as it is, channels of other topics are
    untouched, and the subscribers found disconnected are removed from the topic's
    list, the others staying in order. *)
Theorem notify_delivers (mode : BackpressureMode) (topic : string) (e : Entry)
    (subs : gmap string (list SubscriberInfo)) (infos : list SubscriberInfo) (st : store) :
  subs !! topic = Some infos → NoDup (sub_sender <$> infos) → unobstructed mode st infos →
  ∃ st', notify_subscribers mode topic e subs st =
      Some (Ok tt, <[topic := filter (λ info, gone mode st info = false) infos]> subs, st') ∧
    (∀ i, i ∉ sub_sender <$> infos → st' !! i = st !! i) ∧
    (∀ info, info ∈ infos → option_Forall2 (after_turn mode e)
       (st !! sub_sender info) (st' !! sub_sender info)).
Proof.
  apply notify_unobstructed.
Qed.

(** In [Error] mode a full subscriber stops the notification in the
    middle: the call fails with [SubscriberBufferFull], the subscribers before
    it have already received the entry, it and the later ones have not, and
    disconnected subscribers are not removed. *)
Theorem error_mode_partial (topic : string) (e : Entry)
    (subs : gmap string (list SubscriberInfo)) (before after : list SubscriberInfo)
    (info : SubscriberInfo) (c : C) (st : store) :
  subs !! topic = Some (before ++ info :: after) →
  NoDup (sub_sender <$> before ++ info :: after) → unobstructed Error st before →
  st !! sub_sender info = Some c → chan_is_full c = true →
  ∃ st', notify_subscribers Error topic e subs st =
      Some (Err (SubscriberBufferFull topic), subs, st') ∧
    (∀ i, i ∉ sub_sender <$> before → st' !! i = st !! i) ∧
    (∀ i, i ∈ before → option_Forall2 (after_turn Error e)
       (st !! sub_sender i) (st' !! sub_sender i)).
Proof.
  intros Hs Hnd Hun Hc Hf. unfold notify_subscribers. rewrite Hs.
  rewrite fmap_app in Hnd. apply NoDup_app in Hnd as (Hnd & Hdis & _).
  assert (Hi : sub_sender info ∉ sub_sender <$> before).
  { intros Hi. by apply (Hdis _ Hi); left. }
  destruct (notify_loop_spec Error topic e before 0 [] st Hnd Hun) as (st' & Hl & Hfr & Hin).
  exists st'. split; [|done].
  rewrite (notify_loop_app _ _ _ _ _ _ _ _ _ _ Hl). simpl. rewrite Hfr, Hc by done. simpl. by rewrite Hf.
Qed.

(** "drop oldest" drops the newest. For a connected subscriber the two
    dropping modes do exactly the same: with room the entry is appended, and
    on a full channel the new entry is discarded and the old ones stay. *)
Theorem drop_oldest_drops_newest (e : Entry) (c : C) :
  chan_connected c = true →
  notify_one DropOldest e c = notify_one DropNewest e c ∧
  (chan_is_full c = true → notify_one DropOldest e c = Some (Dropped, c)).
Proof.
  intros Hc. unfold notify_one. destruct (chan_is_full c) eqn:Hf.
  - by rewrite chan_try_send_full by done.
  - destruct (chan_try_send_room e c Hc Hf) as (c' & -> & _). done.
Qed.
End subscriber_properties.

(** ** A concrete channel *)

Record list_chan := mkChan { lc_queue : list Entry; lc_cap : Z; lc_connected : bool }.

Definition lc_try_send (e : Entry) (c : list_chan) : try_send_result * list_chan :=
  if lc_connected c then
    if bool_decide (lc_cap c ≤ Z.of_nat (length (lc_queue c))) then (Full, c)
    else (Sent, mkChan (lc_queue c ++ [e]) (lc_cap c) true)
  else (Disconnected, c).

Definition lc_send (e : Entry) (c : list_chan) : option (bool * list_chan) :=
  match lc_try_send e c with
  | (Full, _) => None
  | (Sent, c') => Some (true, c')
  | (Disconnected, c') => Some (false, c')
  end.

Definition lc_try_recv (c : list_chan) : option Entry * list_chan :=
  match lc_queue c with
  | [] => (None, c)
  | e :: es => (Some e, mkChan es (lc_cap c) (lc_connected c))
  end.

#[export] Program Instance list_channel : Channel list_chan := {|
  chan_bounded n := mkChan [] n true;
  chan_queue := lc_queue;
  chan_cap := lc_cap;
  chan_connected := lc_connected;
  chan_is_full c := bool_decide (lc_cap c ≤ Z.of_nat (length (lc_queue c)));
  chan_try_send := lc_try_send;
  chan_send := lc_send;
  chan_try_recv := lc_try_recv;
  chan_drop_receiver c := mkChan (lc_queue c) (lc_cap c) false |}.
Next Obligation. done. Qed.
Next Obligation. done. Qed.
Next Obligation. intros e c Hc. unfold lc_try_send. by rewrite Hc. Qed.
Next Obligation. intros e c Hc Hf. unfold lc_try_send. by rewrite Hc, Hf. Qed.
Next Obligation. intros e c Hc Hf. unfold lc_try_send. rewrite Hc, Hf. by eexists. Qed.
Next Obligation. done. Qed.
Next Obligation. intros c. unfold lc_try_recv. destruct (lc_queue c); [done|by eexists]. Qed.
Next Obligation. done. Qed.

Definition sample : Entry := mkEntry 3 100 "t" [1; 2].
Definition old_entry : Entry := mkEntry 2 90 "t" [0].

(** Room, full, disconnected. *)
Definition sample_store : gmap Z list_chan :=
  <[1 := mkChan [] 1 true]> (<[2 := mkChan [old_entry] 1 true]> (<[3 := mkChan [] 1 false]> ∅)).
Definition sample_infos : list SubscriberInfo := [mkSub 1 None; mkSub 3 None; mkSub 2 None].

Lemma notify_delivers_witness :
  ∃ st', notify_subscribers DropOldest "t" sample {[ "t" := sample_infos ]} sample_store =
      Some (Ok tt, {[ "t" := [mkSub 1 None; mkSub 2 None] ]}, st').
Proof.
  destruct (notify_delivers DropOldest "t" sample {[ "t" := sample_infos ]} sample_infos
    sample_store) as (st' & H & _).
  - reflexivity.
  - apply (bool_decide_unpack _). by vm_compute.
  - by intros info c.
  - exists st'. exact H.
Defined.

Lemma error_mode_partial_witness :
  ∃ st', notify_subscribers Error "t" sample {[ "t" := [mkSub 1 None; mkSub 2 None] ]} sample_store =
      Some (Err (SubscriberBufferFull "t"), {[ "t" := [mkSub 1 None; mkSub 2 None] ]}, st').
Proof.
  destruct (error_mode_partial "t" sample {[ "t" := [mkSub 1 None; mkSub 2 None] ]}
    [mkSub 1 None] [] (mkSub 2 None) (mkChan [old_entry] 1 true) sample_store)
    as (st' & H & _).
  - reflexivity.
  - apply (bool_decide_unpack _). by vm_compute.
  - intros info c ->%list_elem_of_singleton Hc. by vm_compute in Hc; simplify_eq.
  - reflexivity.
  - reflexivity.
  - exists st'. exact H.
Defined.

Lemma drop_oldest_drops_newest_witness :
  notify_one DropOldest sample (mkChan [old_entry] 1 true) =
  notify_one DropNewest sample (mkChan [old_entry] 1 true).
Proof. by apply (drop_oldest_drops_newest sample (mkChan [old_entry] 1 true)). Defined.
