(* ===== verification/Spmc.v ===== *)
(** * The single-producer multi-consumer queue (src/queue/spmc_lockfree_queue.rs)

    The queue keeps its entries in a [CircularBuffer] of a third-party crate
    and counts the pushes in [tail]; each consumer counts its own reads.  The
    buffer is an interface whose documented behaviour is given by its list of
    items from front to back.  A consumer borrows the queue, and [push] needs
    the queue exclusively, so that no push happens during a consumer's life:
    its operations take the queue as it was when it was created. *)

From S2P Require Import Prelude Interleaving.
#[local] Open Scope Z_scope.

(** [circular_buffer::CircularBuffer<N, A>]: pushing onto a full buffer drops
    the front; [buffer[i]] is the [i]-th item from the front and panics beyond
    the last one. *)
Class CircularBuffer (N : Z) (B : Type → Type) : Type := {
  cb_new : ∀ {A}, B A;
  cb_items : ∀ {A}, B A → list A;
  cb_push_back : ∀ {A}, A → B A → B A;
  cb_new_items : ∀ {A}, cb_items (cb_new : B A) = [];
  cb_push_back_items : ∀ {A} (x : A) (b : B A),
    cb_items (cb_push_back x b) =
      (if bool_decide (Z.of_nat (length (cb_items b)) = N) then tail (cb_items b) else cb_items b)
      ++ [x];
}.

Section spmc.
Context {N : Z} {B : Type → Type} `{!CircularBuffer N B} {T : Type}.

(** ** The producer *)

Record SPMCLockFreeQueue := mkSpmc {
  spmc_tail : Z;
  spmc_buffer : B (Z * T);
  spmc_mask : Z;
}.

Definition spmc_new : SPMCLockFreeQueue := mkSpmc 0 cb_new (u64_wrap (N - 1)).

Definition spmc_len (q : SPMCLockFreeQueue) : Z := Z.of_nat (length (cb_items (spmc_buffer q))).
Definition spmc_capacity (q : SPMCLockFreeQueue) : Z := N.
Definition get_size (q : SPMCLockFreeQueue) : Z := spmc_len q.
Definition spmc_is_empty (q : SPMCLockFreeQueue) : bool := bool_decide (spmc_len q = 0).
Definition spmc_is_full (q : SPMCLockFreeQueue) : bool := bool_decide (spmc_len q = N).
Definition dropped_count (q : SPMCLockFreeQueue) : Z :=
  if bool_decide (N < spmc_tail q) then spmc_tail q - N else 0.

Definition spmc_push (now : Z) (data : T) (q : SPMCLockFreeQueue) : bool * SPMCLockFreeQueue :=
  (true, mkSpmc (u64_add (spmc_tail q) 1) (cb_push_back (now, data) (spmc_buffer q)) (spmc_mask q)).

(** [QueueTrait::publish] *)
Definition publish (now : Z) (data : T) (q : SPMCLockFreeQueue) : SPMCLockFreeQueue :=
  (spmc_push now data q).2.

(** ** Consumers *)

Record SPMCConsumer := mkConsumer { head_position : Z }.

Definition consumer : SPMCConsumer := mkConsumer 0.

Definition consumer_is_empty (q : SPMCLockFreeQueue) (c : SPMCConsumer) : bool :=
  bool_decide (spmc_tail q ≤ head_position c).
Definition has_data (q : SPMCLockFreeQueue) (c : SPMCConsumer) : bool := negb (consumer_is_empty q c).
Definition consumer_clone (c : SPMCConsumer) : SPMCConsumer := mkConsumer (head_position c).
Definition available (q : SPMCLockFreeQueue) (c : SPMCConsumer) : Z :=
  Z.min (saturating_sub (spmc_tail q) (head_position c)) N.

(** [self.buffer[i & mask]]: [None] is a panic. *)
Definition buffer_at (q : SPMCLockFreeQueue) (i : Z) : option (Z * T) :=
  cb_items (spmc_buffer q) !! Z.to_nat (Z.land i (spmc_mask q)).

(** The outer [None] is a panic; an entry stamped 0 counts as absent. *)
Definition pop_inner (consume : bool) (q : SPMCLockFreeQueue) (c : SPMCConsumer) :
    option (option (Z * T) * SPMCConsumer) :=
  if bool_decide (spmc_tail q ≤ head_position c) then Some (None, c)
  else
    item ← buffer_at q (head_position c);
    if bool_decide (item.1 ≠ 0) then
      Some (Some item, if consume then mkConsumer (u64_add (head_position c) 1) else c)
    else Some (None, c).

Definition pop := pop_inner true.
Definition peek := pop_inner false.

(** The loop of [pop_batch] from offset [i] on. *)
Fixpoint batch_from (q : SPMCLockFreeQueue) (h i : Z) (n : nat) : option (list (Z * T)) :=
  match n with
  | O => Some []
  | S n =>
      item ← buffer_at q (u64_add h i);
      rest ← batch_from q h (i + 1) n;
      Some (if bool_decide (item.1 ≠ 0) then item :: rest else rest)
  end.

Definition pop_batch (max_count : Z) (q : SPMCLockFreeQueue) (c : SPMCConsumer) :
    option (list (Z * T) * SPMCConsumer) :=
  let count := Z.min (available q c) max_count in
  if bool_decide (count = 0) then Some ([], c)
  else
    result ← batch_from q (head_position c) 0 (Z.to_nat count);
    Some (result, match result with
                  | [] => c
                  | _ => mkConsumer (u64_add (head_position c) (Z.of_nat (length result)))
                  end).

Definition drain (q : SPMCLockFreeQueue) (c : SPMCConsumer) := pop_batch U64_MAX q c.

(** The [QueueTrait] reads, each through a consumer of its own. *)
Definition get_latest (q : SPMCLockFreeQueue) : option (option (Z * T)) :=
  fst <$> pop q consumer.
Definition get_latest_n (n : Z) (q : SPMCLockFreeQueue) : option (list T) :=
  (λ r, r.1.*2) <$> drain q consumer.

(** ** What the queue holds *)

Definition run_pushes (ps : list (Z * T)) (q : SPMCLockFreeQueue) : SPMCLockFreeQueue :=
  fold_left (λ q p, (spmc_push p.1 p.2 q).2) ps q.

(** The last [n] elements. *)
Definition last_n {A} (n : nat) (l : list A) : list A := drop (length l - n) l.

Lemma length_last_n {A} n (l : list A) : length (last_n n l) = Nat.min n (length l).
Proof. unfold last_n. rewrite length_drop. lia. Qed.

Lemma last_n_snoc {A} n (l : list A) x : (0 < n)%nat →
  last_n n (l ++ [x]) = (if decide (n ≤ length l)%nat then tail (last_n n l) else last_n n l) ++ [x].
Proof.
  intros Hn. unfold last_n. rewrite length_app. simpl. case_decide.
  - rewrite drop_app_le by lia. f_equal.
    replace (length l + 1 - n)%nat with (S (length l - n)) by lia.
    rewrite <- Nat.add_1_r, <- drop_drop.
    by destruct (drop (length l - n) l).
  - replace (length l + 1 - n)%nat with O by lia. by replace (length l - n)%nat with O by lia.
Qed.

(** The producer's invariant: the buffer holds the last [N] entries pushed. *)
Record holds_pushes (ps : list (Z * T)) (q : SPMCLockFreeQueue) : Prop := {
  hp_tail : spmc_tail q = Z.of_nat (length ps);
  hp_items : cb_items (spmc_buffer q) = last_n (Z.to_nat N) ps;
  hp_mask : spmc_mask q = N - 1;
}.

Context (k : Z) (k_range : 0 ≤ k < 64) (N_pow : N = 2 ^ k).

Lemma N_range : 1 ≤ N ≤ 2 ^ 63.
Proof using k_range N_pow.
  rewrite N_pow. split; [apply (Z.pow_le_mono_r 2 0); lia|apply Z.pow_le_mono_r; lia].
Qed.

Lemma spmc_new_holds : holds_pushes [] spmc_new.
Proof using k_range N_pow.
  pose proof N_range. split; simpl; [done|by rewrite cb_new_items|].
  apply u64_wrap_small. unfold u64_ok, U64_MAX. lia.
Qed.

Lemma spmc_push_holds ps q now x :
  holds_pushes ps q → Z.of_nat (length ps) < U64_MAX →
  holds_pushes (ps ++ [(now, x)]) (spmc_push now x q).2.
Proof using k_range N_pow.
  pose proof N_range. intros [Ht Hi Hm] Hlen. split; simpl; [| |done].
  - rewrite Ht, u64_add_small by (unfold u64_ok; lia). rewrite length_app. simpl. lia.
  - rewrite cb_push_back_items, Hi, last_n_snoc by lia. rewrite length_last_n. f_equal.
    destruct (decide (Z.to_nat N ≤ length ps)%nat).
    + by rewrite bool_decide_true by lia.
    + by rewrite bool_decide_false by lia.
Qed.

Lemma run_pushes_holds ps : Z.of_nat (length ps) ≤ U64_MAX → holds_pushes ps (run_pushes ps spmc_new).
Proof using k_range N_pow.
  induction ps as [|[now x] ps IH] using rev_ind; intros Hlen; [apply spmc_new_holds|].
  rewrite length_app in Hlen. simpl in Hlen. unfold run_pushes. rewrite fold_left_app. simpl.
  apply spmc_push_holds; [apply IH|]; lia.
Qed.

(** An unread position indexes the buffer. *)
Lemma buffer_at_window ps q h :
  holds_pushes ps q → 0 ≤ h < Z.of_nat (length ps) →
  buffer_at q h = last_n (Z.to_nat N) ps !! Z.to_nat (h `mod` N) ∧
  is_Some (buffer_at q h).
Proof using k_range N_pow.
  pose proof N_range. intros [Ht Hi Hm] Hh. unfold buffer_at. rewrite Hi, Hm, N_pow.
  rewrite land_mask_mod by lia. rewrite <- N_pow. split; [done|].
  apply lookup_lt_is_Some. rewrite length_last_n.
  pose proof (Z.mod_pos_bound h N ltac:(lia)). pose proof (Z.mod_le h N ltac:(lia) ltac:(lia)). lia.
Qed.

Definition stamped (ps : list (Z * T)) : Prop := Forall (λ p, p.1 ≠ 0) ps.

Lemma buffer_at_stamped ps q h item :
  holds_pushes ps q → stamped ps → buffer_at q h = Some item → item.1 ≠ 0.
Proof.
  intros [_ Hi _] Hst. unfold buffer_at. rewrite Hi. intros Hl%list_elem_of_lookup_2.
  unfold last_n in Hl. apply (subseteq_drop (length ps - Z.to_nat N)) in Hl.
  by eapply Forall_forall in Hst.
Qed.

Lemma batch_from_window ps q : ∀ n i,
  holds_pushes ps q → stamped ps → 0 ≤ i →
  i + Z.of_nat n ≤ Z.min N (Z.of_nat (length ps)) →
  batch_from q 0 i n = Some (take n (drop (Z.to_nat i) (last_n (Z.to_nat N) ps))).
Proof using k_range N_pow.
  pose proof N_range as HN. induction n as [|n IH]; intros i Hh Hst Hi Hn; simpl; [done|].
  rewrite u64_add_small, Z.add_0_l by (unfold u64_ok, U64_MAX; lia).
  destruct (buffer_at_window ps q i Hh) as [Hb [item Hit]]; [lia|].
  rewrite Hit. simpl. rewrite IH by (done || lia). simpl.
  rewrite bool_decide_true by (by eapply buffer_at_stamped).
  rewrite Hit, Z.mod_small in Hb by lia. rewrite Z2Nat.inj_add by lia.
  symmetry in Hb. rewrite (drop_S _ _ _ Hb). simpl. do 2 f_equal. f_equal. f_equal. lia.
Qed.

(** C34: what a consumer sees. After any pushes (with a clock past the epoch),
    draining a new consumer gives exactly the last [N] entries in push order;
    the [h]-th single pop succeeds for every [h] up to the number of pushes and
    gives item [h mod N] of those, so that once the queue has overflowed a
    consumer that pops one by one starts over from the oldest entry after the
    newest; and [get_latest] answers the oldest entry held. *)
Theorem spmc_consumer_reads (ps : list (Z * T)) (h : Z) :
  stamped ps → Z.of_nat (length ps) ≤ U64_MAX → 0 ≤ h →
  let q := run_pushes ps spmc_new in
  let window := last_n (Z.to_nat N) ps in
  (∃ c, drain q consumer = Some (window, c)) ∧
  (h < Z.of_nat (length ps) → ∃ item, window !! Z.to_nat (h `mod` N) = Some item ∧
     pop q (mkConsumer h) = Some (Some item, mkConsumer (h + 1))) ∧
  (Z.of_nat (length ps) ≤ h → pop q (mkConsumer h) = Some (None, mkConsumer h)) ∧
  (get_latest q = Some (head window)) ∧
  dropped_count q = Z.of_nat (length ps - length window).
Proof using k_range N_pow.
  pose proof N_range as HN. intros Hst Hlen Hh q window.
  pose proof (run_pushes_holds ps Hlen) as Hq. fold q in Hq. pose proof Hq as [Ht Hi Hm].
  assert (Hpop : ∀ h, 0 ≤ h < Z.of_nat (length ps) →
    ∃ item, window !! Z.to_nat (h `mod` N) = Some item ∧
      pop q (mkConsumer h) = Some (Some item, mkConsumer (h + 1))).
  { intros j Hj. destruct (buffer_at_window ps q j Hq Hj) as [Hb [item Hit]].
    exists item. split; [by rewrite <- Hit, Hb|]. unfold pop, pop_inner. simpl.
    rewrite bool_decide_false by lia. rewrite Hit. simpl.
    rewrite bool_decide_true by (by eapply buffer_at_stamped).
    by rewrite u64_add_small by (unfold u64_ok; lia). }
  split_and!.
  - unfold drain, pop_batch, available. simpl. rewrite Ht.
    unfold saturating_sub. rewrite Z.sub_0_r.
    replace (Z.min (Z.min (Z.max (Z.of_nat (length ps)) 0) N) U64_MAX)
      with (Z.of_nat (length window)) by (unfold window; rewrite length_last_n; unfold U64_MAX; lia).
    case_bool_decide as H0.
    + assert (window = []) as -> by (apply nil_length_inv; lia). eauto.
    + rewrite (batch_from_window ps) by
        (done || unfold window; rewrite ?length_last_n; lia). simpl.
      rewrite Nat2Z.id, take_ge by done. eauto.
  - intros Hlt. by apply Hpop.
  - intros Hge. unfold pop, pop_inner. simpl. by rewrite bool_decide_true by lia.
  - unfold get_latest. destruct (decide (ps = [])) as [->|Hne].
    + unfold pop, pop_inner. rewrite bool_decide_true by (simpl in *; lia). done.
    + destruct (Hpop 0) as (item & Hw & Hp); [destruct ps; simpl in *; [done|lia]|].
      unfold consumer. rewrite Hp. simpl. rewrite Z.mod_0_l in Hw by lia.
      destruct window; simpl in *; congruence.
  - unfold dropped_count, window. rewrite length_last_n, Ht. case_bool_decide; lia.
Qed.
End spmc.

(** ** A concrete queue *)

#[export] Instance list_buffer : CircularBuffer 2 list.
Proof.
  refine {| cb_new A := []; cb_items A b := b;
    cb_push_back A x b := (if bool_decide (Z.of_nat (length b) = 2) then tail b else b) ++ [x] |};
  done.
Defined.

Lemma spmc_consumer_reads_witness :
  let q := run_pushes [(5, 1); (6, 2); (7, 3)] (spmc_new (B := list)) in
  (∃ c, drain q consumer = Some ([(6, 2); (7, 3)], c)) ∧ get_latest q = Some (Some (6, 2)).
Proof.
  destruct (spmc_consumer_reads (B := list) 1 ltac:(lia) eq_refl [(5, 1); (6, 2); (7, 3)] 0
    ltac:(by repeat constructor) ltac:(done) ltac:(done)) as (H1 & _ & _ & H2 & _).
  split; [exact H1|exact H2].
Defined.

(** ** A consumer shared between threads

    A consumer is declared shareable, and its methods take it by reference: two
    threads can pop from one.  A pop loads the head, copies the slot and then adds
    one to the head. *)

Module Shared.
Section shared.
Context {N : Z} {B : Type → Type} `{!CircularBuffer N B} {T : Type}.
Variable q : @SPMCLockFreeQueue B T.

(** Where a [pop] is: it found an item at the head it loaded, or it ended. *)
Inductive PThread := PopStart | PopFound (item : Z * T) | PopDone (r : option (Z * T)) | PopPanic.

Definition pop_load (c : SPMCConsumer) : PThread :=
  if bool_decide (spmc_tail q ≤ head_position c) then PopDone None
  else match buffer_at q (head_position c) with
  | None => PopPanic
  | Some item => if bool_decide (item.1 ≠ 0) then PopFound item else PopDone None
  end.

Definition pop_advance (c : SPMCConsumer) : SPMCConsumer := mkConsumer (u64_add (head_position c) 1).

Definition pstep (i : nat) (l : PThread) (c : SPMCConsumer) : option (PThread * SPMCConsumer) :=
  match l with
  | PopStart => Some (pop_load c, c)
  | PopFound item => Some (PopDone (Some item), pop_advance c)
  | PopDone _ | PopPanic => None
  end.

(** Undisturbed, the actions are the operation. *)
Lemma pop_alone c ls i :
  ls !! i = Some PopStart →
  run_schedule pstep [i; i] (mkMachine c ls) =
    match pop q c with
    | Some (r, c') => mkMachine c' (<[i := PopDone r]> ls)
    | None => mkMachine c (<[i := PopPanic]> ls)
    end.
Proof.
  intros Hi. pose proof (run_alone_schedule pstep 2 i _ c ls Hi) as Hr. simpl replicate in Hr.
  rewrite Hr. simpl. unfold pop_load, pop, pop_inner. case_bool_decide; [done|].
  destruct (buffer_at q (head_position c)) as [item|]; simpl; [|done]. by case_bool_decide.
Qed.
End shared.

(** Two overlapping pops return the same entry, and the next one is skipped. *)
Lemma shared_consumer_skips :
  let q := run_pushes [(5, 1); (6, 2)] (spmc_new (B := list)) in
  let c := run_schedule (pstep q) [0; 1; 0; 1; 2]%nat (mkMachine consumer [PopStart; PopStart; PopStart]) in
  threads c = [PopDone (Some (5, 1)); PopDone (Some (5, 1)); PopDone None].
Proof. vm_compute. reflexivity. Qed.
End Shared.
