(* ===== verification/Peer.v ===== *)
(** * Peer requests (src/peer/)

    Fetching a metric from another node: request ids, the circuit breaker, the
    response cache, the tracker of pending requests, the registry of peers,
    service advertisements, routing, health checks, the versioned codec and the
    fetcher that composes them.  Time is an argument; [Instant]s and
    [Duration]s are nanoseconds, the circuit breaker counts in seconds. *)

From S2P Require Import Prelude DdlTypes.
#[local] Open Scope Z_scope.

Definition secs (n : Z) : Z := n * 1000000000.

(** ** Types (src/peer/types.rs, request.rs, response.rs, error.rs) *)

(** [((node_id as u128) << 64) | (seq as u128)] *)
Definition request_id_of (node_id seq : Z) : Z := Z.lor (Z.shiftl node_id 64) seq.

(** [RequestId::new]: the process-wide sequence counter is read and bumped. *)
Definition RequestId_new (node_id seq : Z) : Z * Z := (request_id_of node_id seq, u64_add seq 1).

Record PeerRequest := mkPeerRequest {
  pr_request_id : Z;
  pr_source_node : Z;
  pr_target_node : Z;
  pr_metric_key : string;
  pr_timestamp : Z;
  pr_payload : bytes;
}.

Record PeerResponse := mkPeerResponse {
  ps_request_id : Z;
  ps_source_node : Z;
  ps_success : bool;
  ps_payload : bytes;
  ps_timestamp : Z;
  ps_error_message : option string;
}.

Inductive PeerError :=
| Timeout (duration_ms : Z)
| PeerUnavailable (peer_id : Z)
| RequestCancelled (request_id : string)
| CircuitOpen (peer_id : Z)
| CacheMiss (key : string)
| CodecError (message : string)
| RoutingError (message : string).

(** [#[error(...)]]: the messages. *)
Definition PeerError_fmt (e : PeerError) : string :=
  match e with
  | Timeout ms => "request timed out after " +:+ pretty ms +:+ "ms"
  | PeerUnavailable p => "peer " +:+ pretty p +:+ " is unavailable"
  | RequestCancelled r => "request " +:+ r +:+ " was cancelled"
  | CircuitOpen p => "circuit breaker is open for peer " +:+ pretty p
  | CacheMiss k => "cache miss for key " +:+ k
  | CodecError m => "codec error: " +:+ m
  | RoutingError m => "routing error: " +:+ m
  end.

(** [PeerRequest::new] draws an id of its own. *)
Definition PeerRequest_new (now_millis source target : Z) (key : string) (payload : bytes)
    (seq : Z) : PeerRequest * Z :=
  let '(id, seq') := RequestId_new source seq in
  (mkPeerRequest id source target key now_millis payload, seq').

Definition PeerResponse_success (now_millis id source : Z) (payload : bytes) : PeerResponse :=
  mkPeerResponse id source true payload now_millis None.

Definition PeerResponse_failure (now_millis id source : Z) (error : string) : PeerResponse :=
  mkPeerResponse id source false [] now_millis (Some error).

(** ** Circuit breaker (src/peer/circuit_breaker.rs) *)

Inductive BreakerState := CLOSED | OPEN | HALF_OPEN.

#[export] Instance BreakerState_eq_dec : EqDecision BreakerState.
Proof. solve_decision. Defined.

Record CircuitBreaker := mkBreaker {
  cb_state : BreakerState;
  failure_count : Z;
  last_failure : Z;
  threshold : Z;
  reset_timeout : Z;
}.

Definition breaker_new (config : PeerConfig) : CircuitBreaker :=
  mkBreaker CLOSED 0 0 (circuit_breaker_threshold config) (circuit_breaker_reset_secs config).

Definition allow_request (now_secs : Z) (b : CircuitBreaker) : bool * CircuitBreaker :=
  match cb_state b with
  | CLOSED | HALF_OPEN => (true, b)
  | OPEN =>
      if bool_decide (u64_add (last_failure b) (reset_timeout b) ≤ now_secs) then
        (true, mkBreaker HALF_OPEN (failure_count b) (last_failure b) (threshold b)
                 (reset_timeout b))
      else (false, b)
  end.

Definition record_success (b : CircuitBreaker) : CircuitBreaker :=
  match cb_state b with
  | OPEN => b
  | _ => mkBreaker CLOSED 0 (last_failure b) (threshold b) (reset_timeout b)
  end.

(** [failure_count] is a [u32]. *)
Definition record_failure (now_secs : Z) (b : CircuitBreaker) : CircuitBreaker :=
  let count := (failure_count b + 1) `mod` 2 ^ 32 in
  if bool_decide (threshold b ≤ count) then
    mkBreaker OPEN count now_secs (threshold b) (reset_timeout b)
  else mkBreaker (cb_state b) count (last_failure b) (threshold b) (reset_timeout b).

Definition breaker_state_name (b : CircuitBreaker) : string :=
  match cb_state b with CLOSED => "closed" | OPEN => "open" | HALF_OPEN => "half_open" end.

(** ** Cache (src/peer/cache.rs) *)

Record CacheEntry (V : Type) := mkCacheEntry { ce_value : V; ce_expires_at : Z }.
Arguments mkCacheEntry {V} _ _.
Arguments ce_value {V} _.
Arguments ce_expires_at {V} _.

Record PeerCache (V : Type) := mkCache {
  cache_entries : gmap string (CacheEntry V);
  cache_default_ttl : Z;
  max_entries : Z;
}.
Arguments mkCache {V} _ _ _.
Arguments cache_entries {V} _.
Arguments cache_default_ttl {V} _.
Arguments max_entries {V} _.

Section cache.
Context {V : Type} `{HashOrder}.
Implicit Types c : PeerCache V.

Definition cache_new (default_ttl_secs max : Z) : PeerCache V :=
  mkCache ∅ (secs default_ttl_secs) max.

Definition with_entries c m : PeerCache V := mkCache m (cache_default_ttl c) (max_entries c).

Definition cache_get (now : Z) (key : string) c : option V * PeerCache V :=
  match cache_entries c !! key with
  | Some e =>
      if bool_decide (now < ce_expires_at e) then (Some (ce_value e), c)
      else (None, with_entries c (delete key (cache_entries c)))
  | None => (None, with_entries c (delete key (cache_entries c)))
  end.

(** The first key in iteration order is evicted. *)
Definition evict_one (m : gmap string (CacheEntry V)) : gmap string (CacheEntry V) :=
  match hm_iter m with (k, _) :: _ => delete k m | [] => m end.

Definition cache_set (now : Z) (key : string) (value : V) (ttl : option Z) c : PeerCache V :=
  let m := if bool_decide (max_entries c ≤ Z.of_nat (size (cache_entries c))) &&
              bool_decide (cache_entries c !! key = None)
           then evict_one (cache_entries c) else cache_entries c in
  with_entries c (<[key := mkCacheEntry value (now + default (cache_default_ttl c) ttl)]> m).

Definition set_with_default_ttl (now : Z) (key : string) (value : V) c : PeerCache V :=
  cache_set now key value None c.

Definition cache_invalidate (key : string) c : option V * PeerCache V :=
  (ce_value <$> cache_entries c !! key, with_entries c (delete key (cache_entries c))).

Definition clear_expired (now : Z) c : nat * PeerCache V :=
  let kept := filter (λ kv, now < ce_expires_at kv.2) (cache_entries c) in
  ((size (cache_entries c) - size kept)%nat, with_entries c kept).

Definition cache_len c : nat := size (cache_entries c).
Definition cache_is_empty c : bool := bool_decide (cache_len c = 0%nat).

(** *** Properties of the cache *)

Lemma size_evict_one m : m ≠ ∅ → (size (evict_one m) < size m)%nat.
Proof.
  intros Hm. unfold evict_one. destruct (hm_iter m) as [|[k v] l] eqn:Hit.
  - pose proof (length_hm_iter m) as Hl. rewrite Hit in Hl. simpl in Hl.
    symmetry in Hl. by apply map_size_empty_inv in Hl.
  - assert (m !! k = Some v) by (apply elem_of_hm_iter; rewrite Hit; left).
    rewrite map_size_delete_Some by done. apply map_size_non_empty_iff in Hm. lia.
Qed.

(** C40: one store in the cache, undisturbed by others. It leaves at most [max(max_entries, 1)]
    entries if there were no more before, whichever entry the map iterates
    first and evicts; right after it the stored value is found until its
    deadline, and not from it on; and every entry of another key is still what it was,
    but one at most, which was evicted, and that only when the cache was full and
    the key new. *)
Theorem cache_set_spec (now : Z) (key : string) (value : V) (ttl : option Z) c :
  let c' := cache_set now key value ttl c in
  let deadline := now + default (cache_default_ttl c) ttl in
  (Z.of_nat (cache_len c) ≤ Z.max (max_entries c) 1 →
   Z.of_nat (cache_len c') ≤ Z.max (max_entries c) 1) ∧
  (∀ t, (cache_get t key c').1 = if bool_decide (t < deadline) then Some value else None) ∧
  (∃ victim, ∀ k, k ≠ key →
     cache_entries c' !! k = if decide (victim = Some k) then None else cache_entries c !! k) ∧
  (Z.of_nat (cache_len c) < max_entries c ∨ is_Some (cache_entries c !! key) →
   ∀ k, k ≠ key → cache_entries c' !! k = cache_entries c !! k).
Proof.
  intros c' deadline. unfold cache_len, c', cache_set, cache_get; simpl. split_and!.
  - intros Hle. destruct (decide (cache_entries c !! key = None)) as [Hn|Hs].
    + rewrite (bool_decide_true _ Hn), andb_true_r. case_bool_decide as Hfull.
      * destruct (decide (cache_entries c = ∅)) as [He|Hne].
        { rewrite He. unfold evict_one. assert (hm_iter (∅ : gmap string (CacheEntry V)) = []) as ->.
          { apply Permutation_nil_r. rewrite hm_iter_perm. by rewrite map_to_list_empty. }
          rewrite map_size_insert_None, map_size_empty by apply lookup_empty. lia. }
        pose proof (size_evict_one _ Hne) as Hlt.
        rewrite map_size_insert. destruct (evict_one _ !! key); simpl; lia.
      * rewrite map_size_insert_None by done. lia.
    + rewrite (bool_decide_false _ Hs), andb_false_r.
      apply not_eq_None_Some in Hs. rewrite map_size_insert_Some by done. lia.
  - intros t. rewrite lookup_insert_eq; simpl. fold deadline. by case_bool_decide.
  - exists (if bool_decide (max_entries c ≤ Z.of_nat (size (cache_entries c))) &&
      bool_decide (cache_entries c !! key = None) then head (hm_iter (cache_entries c)).*1 else None).
    intros k Hk. rewrite lookup_insert_ne by done. destruct (_ && _); [|done].
    unfold evict_one. destruct (hm_iter _) as [|[k' ?] ?]; [done|]. simpl.
    rewrite lookup_delete. repeat case_decide; congruence.
  - intros Hroom k Hk. rewrite lookup_insert_ne by done.
    destruct (bool_decide _ && bool_decide _) eqn:Hb; [|done].
    apply andb_true_iff in Hb as [Hb1%bool_decide_eq_true Hb2%bool_decide_eq_true].
    destruct Hroom as [|[? ?]]; [lia|congruence].
Qed.
End cache.

(** ** Pending requests (src/peer/pending.rs)

    A oneshot channel is a cell both ends name: waiting, holding the response,
    or closed because its sender was dropped. *)

Inductive oneshot := Waiting | Got (r : PeerResponse) | Closed.

Record PendingEntry := mkPending { pe_sender : Z; pe_expires_at : Z }.

Record PendingRequestTracker := mkTracker {
  pending : gmap Z PendingEntry;
  cells : gmap Z oneshot;
  next_cell : Z;
  default_timeout : Z;
}.

Definition tracker_new (config : PeerConfig) : PendingRequestTracker :=
  mkTracker ∅ ∅ 0 (secs (request_timeout_secs config)).

(** Dropping a sender that has not sent closes its cell. *)
Definition drop_sender (e : option PendingEntry) (cs : gmap Z oneshot) : gmap Z oneshot :=
  match e with Some e => <[pe_sender e := Closed]> cs | None => cs end.

(** [register]: returns the receiver's cell; inserting over an entry drops the
    old sender. *)
Definition register (now request_id : Z) (t : PendingRequestTracker) : Z * PendingRequestTracker :=
  let cell := next_cell t in
  (cell,
   mkTracker (<[request_id := mkPending cell (now + default_timeout t)]> (pending t))
     (<[cell := Waiting]> (drop_sender (pending t !! request_id) (cells t)))
     (next_cell t + 1) (default_timeout t)).

Definition complete (request_id : Z) (r : PeerResponse) (t : PendingRequestTracker) :
    bool * PendingRequestTracker :=
  match pending t !! request_id with
  | Some e =>
      (true, mkTracker (delete request_id (pending t)) (<[pe_sender e := Got r]> (cells t))
               (next_cell t) (default_timeout t))
  | None => (false, t)
  end.

(** [cancel_expired]: the removed senders are dropped. *)
Definition cancel_expired (now : Z) (t : PendingRequestTracker) : nat * PendingRequestTracker :=
  let expired := filter (λ kv, pe_expires_at kv.2 ≤ now) (pending t) in
  (size expired,
   mkTracker (filter (λ kv, now < pe_expires_at kv.2) (pending t))
     (map_fold (λ _ e cs, drop_sender (Some e) cs) (cells t) expired)
     (next_cell t) (default_timeout t)).

(** ** Registry (src/peer/registry.rs) *)

Record PeerInfo := mkPeerInfo {
  pi_node_id : Z;
  pi_address : string;
  pi_capabilities : list string;
  pi_last_seen : Z;
  pi_is_alive : bool;
}.

Abbreviation PeerRegistry := (gmap Z PeerInfo).

Definition registry_register (info : PeerInfo) (r : PeerRegistry) : option PeerInfo * PeerRegistry :=
  (r !! pi_node_id info, <[pi_node_id info := info]> r).

Definition registry_unregister (node_id : Z) (r : PeerRegistry) : option PeerInfo * PeerRegistry :=
  (r !! node_id, delete node_id r).

Definition registry_get (node_id : Z) (r : PeerRegistry) : option PeerInfo := r !! node_id.

Definition list_alive `{HashOrder} (r : PeerRegistry) : list PeerInfo :=
  filter (λ p, pi_is_alive p = true) (hm_values r).

Definition update_heartbeat (now node_id : Z) (r : PeerRegistry) : bool * PeerRegistry :=
  (bool_decide (is_Some (r !! node_id)),
   alter (λ p, mkPeerInfo (pi_node_id p) (pi_address p) (pi_capabilities p) now true) node_id r).

Definition mark_dead (node_id : Z) (r : PeerRegistry) : bool * PeerRegistry :=
  (bool_decide (is_Some (r !! node_id)),
   alter (λ p, mkPeerInfo (pi_node_id p) (pi_address p) (pi_capabilities p) (pi_last_seen p)
                 false) node_id r).

(** ** Advertisements (src/peer/advertisement.rs) *)

Record ServiceAdvertisement := mkAd {
  ad_node_id : Z;
  ad_metrics_offered : list string;
  ad_address : string;
  ad_timestamp : Z;
}.

Record AdvertisementManager := mkAdMgr {
  advertisements : gmap Z ServiceAdvertisement;
  inserted_at : gmap Z Z;
  ad_ttl : Z;
}.

Definition ad_new (ttl_secs : Z) : AdvertisementManager := mkAdMgr ∅ ∅ (secs ttl_secs).

Definition advertise (now : Z) (ad : ServiceAdvertisement) (m : AdvertisementManager) :
    AdvertisementManager :=
  mkAdMgr (<[ad_node_id ad := ad]> (advertisements m)) (<[ad_node_id ad := now]> (inserted_at m))
    (ad_ttl m).

Definition ad_remove (node_id : Z) (m : AdvertisementManager) :
    option ServiceAdvertisement * AdvertisementManager :=
  (advertisements m !! node_id,
   mkAdMgr (delete node_id (advertisements m)) (delete node_id (inserted_at m)) (ad_ttl m)).

Definition ad_is_expired (now node_id : Z) (m : AdvertisementManager) : bool :=
  match inserted_at m !! node_id with
  | Some t => bool_decide (ad_ttl m < now - t)
  | None => true
  end.

Definition offers (now : Z) (key : string) (m : AdvertisementManager)
    (kv : Z * ServiceAdvertisement) : bool :=
  bool_decide (key ∈ ad_metrics_offered kv.2) && negb (ad_is_expired now kv.1 m).

Definition find_provider `{HashOrder} (now : Z) (key : string) (m : AdvertisementManager) :
    option ServiceAdvertisement :=
  match filter (λ kv, offers now key m kv = true) (hm_iter (advertisements m)) with
  | (_, ad) :: _ => Some ad
  | [] => None
  end.

Definition ad_get (now node_id : Z) (m : AdvertisementManager) :
    option ServiceAdvertisement * AdvertisementManager :=
  if ad_is_expired now node_id m then (None, (ad_remove node_id m).2)
  else (advertisements m !! node_id, m).

Definition list_providers `{HashOrder} (now : Z) (m : AdvertisementManager) :
    list ServiceAdvertisement :=
  (filter (λ kv, ad_is_expired now kv.1 m = false) (hm_iter (advertisements m))).*2.

(** ** Routing (src/peer/routing.rs) *)

Record PeerRouter := mkRouter {
  rt_registry : PeerRegistry;
  rt_ads : AdvertisementManager;
  round_robin_counter : Z;
}.

Definition get_peer_info (node_id : Z) (rt : PeerRouter) : option PeerInfo :=
  registry_get node_id (rt_registry rt).

Definition router_new (r : PeerRegistry) (m : AdvertisementManager) : PeerRouter := mkRouter r m 0.

Section routing.
Context `{HashOrder}.

Definition advertised_alive (now : Z) (key : string) (rt : PeerRouter) : option Z :=
  ad ← find_provider now key (rt_ads rt);
  p ← registry_get (ad_node_id ad) (rt_registry rt);
  if pi_is_alive p then Some (ad_node_id ad) else None.

Definition route (now : Z) (key : string) (rt : PeerRouter) : result PeerError Z * PeerRouter :=
  match advertised_alive now key rt with
  | Some node => (Ok node, rt)
  | None =>
      let alive := list_alive (rt_registry rt) in
      if bool_decide (alive = []) then (Err (RoutingError "no alive peers"), rt)
      else
        let i := Z.to_nat (round_robin_counter rt `mod` Z.of_nat (length alive)) in
        (ok_or (pi_node_id <$> alive !! i) (RoutingError "index out of range"),
         mkRouter (rt_registry rt) (rt_ads rt) (u64_add (round_robin_counter rt) 1))
  end.
End routing.

(** ** Health (src/peer/health.rs) *)

Inductive HealthStatus := Healthy | Suspect | Dead.

(** [interval_secs * threshold] is a [u64] product. *)
Definition health_timeout (config : PeerConfig) : Z :=
  secs (u64_wrap (pc_heartbeat_interval_secs config * circuit_breaker_threshold config)).

(** [Instant::duration_since] saturates at zero. *)
Definition elapsed (now since : Z) : Z := Z.max 0 (now - since).

(** One tick of the monitoring task. *)
Definition monitoring_tick `{HashOrder} (config : PeerConfig) (now : Z) (r : PeerRegistry) :
    PeerRegistry :=
  fold_left (λ r p,
    if bool_decide (health_timeout config < elapsed now (pi_last_seen p))
    then (mark_dead (pi_node_id p) r).2 else r) (list_alive r) r.

Definition check_health (config : PeerConfig) (now node_id : Z) (r : PeerRegistry) : HealthStatus :=
  match registry_get node_id r with
  | None => Dead
  | Some p =>
      let e := elapsed now (pi_last_seen p) in
      if bool_decide (health_timeout config < e) then Dead
      else if bool_decide (health_timeout config `div` 2 < e) then Suspect
      else Healthy
  end.

(** The monitor's handle on its task, and the tasks that run.  A spawned task goes
    on when its handle is dropped, and ends when it is aborted. *)
Record HealthMonitor := mkMonitor {
  hm_handle : option nat;
  hm_tasks : list nat;
  hm_spawned : nat;
}.

Definition monitor_new : HealthMonitor := mkMonitor None [] 0.

Definition start_monitoring (m : HealthMonitor) : HealthMonitor :=
  mkMonitor (Some (hm_spawned m)) (hm_tasks m ++ [hm_spawned m]) (S (hm_spawned m)).

Definition stop_monitoring (m : HealthMonitor) : HealthMonitor :=
  match hm_handle m with
  | Some h => mkMonitor None (filter (λ t, t ≠ h) (hm_tasks m)) (hm_spawned m)
  | None => m
  end.

Definition monitor_drop (m : HealthMonitor) : HealthMonitor := stop_monitoring m.

(** A monitor started twice keeps a task that nothing stops any more. *)
Lemma second_start_leaks_task :
  hm_tasks (monitor_drop (stop_monitoring (start_monitoring (start_monitoring monitor_new)))) = [0%nat].
Proof. reflexivity. Qed.

(** ** Codec (src/peer/codec.rs): a version byte before bincode's encoding *)

Definition VERSION : Z := 1.

Section codec.
Context {T : Type} `{!Codec T}.

Definition encode_with_version (version : Z) (value : T) : result PeerError bytes :=
  match enc value with
  | Some b => Ok (version :: b)
  | None => Err (CodecError "bincode")
  end.

Definition decode_with_version (version : Z) (b : bytes) : result PeerError T :=
  match b with
  | [] => Err (CodecError "empty input")
  | v :: rest =>
      if bool_decide (v = version) then ok_or (dec rest) (CodecError "bincode")
      else Err (CodecError ("invalid version: expected " +:+ pretty version +:+
                            ", got " +:+ pretty v))
  end.
End codec.

Definition encode_request `{!Codec PeerRequest} (r : PeerRequest) := encode_with_version VERSION r.
Definition decode_request `{!Codec PeerRequest} (b : bytes) : result PeerError PeerRequest :=
  decode_with_version VERSION b.
Definition encode_response `{!Codec PeerResponse} (r : PeerResponse) := encode_with_version VERSION r.
Definition decode_response `{!Codec PeerResponse} (b : bytes) : result PeerError PeerResponse :=
  decode_with_version VERSION b.

(** ** The fetcher (src/peer/fetcher.rs) *)

Record PeerFetcher := mkFetcher {
  pf_node_id : Z;
  pf_config : PeerConfig;
  pf_router : PeerRouter;
  pf_pending : PendingRequestTracker;
  pf_breaker : CircuitBreaker;
  pf_cache : PeerCache bytes;
  pf_has_gossip : bool;
  pf_sequence : Z;
}.

Definition fetcher_new (node_id : Z) (config : PeerConfig) (rt : PeerRouter)
    (cache_ttl cache_max : Z) (has_gossip : bool) (sequence : Z) : PeerFetcher :=
  mkFetcher node_id config rt (tracker_new config) (breaker_new config)
    (cache_new cache_ttl cache_max) has_gossip sequence.

Definition with_router f x := mkFetcher (pf_node_id f) (pf_config f) x (pf_pending f)
  (pf_breaker f) (pf_cache f) (pf_has_gossip f) (pf_sequence f).
Definition with_pending f x := mkFetcher (pf_node_id f) (pf_config f) (pf_router f) x
  (pf_breaker f) (pf_cache f) (pf_has_gossip f) (pf_sequence f).
Definition with_breaker f x := mkFetcher (pf_node_id f) (pf_config f) (pf_router f) (pf_pending f)
  x (pf_cache f) (pf_has_gossip f) (pf_sequence f).
Definition with_cache f x := mkFetcher (pf_node_id f) (pf_config f) (pf_router f) (pf_pending f)
  (pf_breaker f) x (pf_has_gossip f) (pf_sequence f).
Definition with_sequence f x := mkFetcher (pf_node_id f) (pf_config f) (pf_router f) (pf_pending f)
  (pf_breaker f) (pf_cache f) (pf_has_gossip f) x.

(** [handle_response] *)
Definition handle_response (r : PeerResponse) (f : PeerFetcher) : bool * PeerFetcher :=
  let '(found, t) := complete (ps_request_id r) r (pf_pending f) in (found, with_pending f t).

(** What happens around one fetch: clocks, how publishing ends, and the
    responses handled before the timeout. *)
Record FetchEnv := mkEnv {
  env_now : Z;
  env_now_secs : Z;
  env_now_millis : Z;
  env_publish : result string unit;
  env_responses : list PeerResponse;
}.

Definition handle_responses (rs : list PeerResponse) (f : PeerFetcher) : PeerFetcher :=
  fold_left (λ f r, (handle_response r f).2) rs f.

Section fetcher.
Context `{HashOrder} `{!Codec PeerRequest}.

(** Steps 8 and 9: wait on the receiver's cell. *)
Definition await_response (env : FetchEnv) (key : string) (request_id cell : Z) (f : PeerFetcher) :
    result PeerError bytes * PeerFetcher :=
  let f1 := handle_responses (env_responses env) f in
  match cells (pf_pending f1) !! cell with
  | Some (Got r) =>
      (Ok (ps_payload r),
       with_breaker (with_cache f1 (cache_set (env_now env) key (ps_payload r) None (pf_cache f1)))
         (record_success (pf_breaker f1)))
  | Some Closed =>
      (Err (RequestCancelled (pretty request_id)),
       with_breaker f1 (record_failure (env_now_secs env) (pf_breaker f1)))
  | Some Waiting | None =>
      (Err (Timeout (u64_wrap (request_timeout_secs (pf_config f1) * 1000))),
       with_breaker f1 (record_failure (env_now_secs env) (pf_breaker f1)))
  end.

(** The request that goes out, the id that is waited for, and the sequence
    counter after both were drawn. *)
Definition make_request (env : FetchEnv) (target : Z) (key : string) (payload : bytes)
    (f : PeerFetcher) : PeerRequest * Z * Z :=
  let '(request_id, seq1) := RequestId_new (pf_node_id f) (pf_sequence f) in
  let '(request, seq2) := PeerRequest_new (env_now_millis env) (pf_node_id f) target key payload
                            seq1 in
  (request, request_id, seq2).

Definition fetch_metric (env : FetchEnv) (key : string) (payload : bytes) (f : PeerFetcher) :
    result PeerError bytes * PeerFetcher :=
  let '(cached, cache') := cache_get (env_now env) key (pf_cache f) in
  let f := with_cache f cache' in
  match cached with
  | Some v => (Ok v, f)
  | None =>
      let '(routed, rt') := route (env_now env) key (pf_router f) in
      let f := with_router f rt' in
      match routed with
      | Err e => (Err e, f)
      | Ok target =>
          let '(allowed, b') := allow_request (env_now_secs env) (pf_breaker f) in
          let f := with_breaker f b' in
          if allowed then
            let '(request, request_id, seq') := make_request env target key payload f in
            let '(cell, t') := register (env_now env) request_id (pf_pending f) in
            let f := with_pending (with_sequence f seq') t' in
            match encode_request request with
            | Err e => (Err e, f)
            | Ok _ =>
                if pf_has_gossip f then
                  match env_publish env with
                  | Err e => (Err (RoutingError ("Gossip publish failed: " +:+ e)), f)
                  | Ok _ => await_response env key request_id cell f
                  end
                else (Err (RoutingError "No gossip coordinator available"), f)
            end
          else (Err (CircuitOpen target), f)
      end
  end.
End fetcher.
