(* ===== verification/PeerProps.v ===== *)
(** * Properties of the peer request path (src/peer/) *)

From S2P Require Import Prelude DdlTypes Peer.
#[local] Open Scope Z_scope.

(** ** Request ids *)

Lemma request_id_sum node seq : u64_ok seq → request_id_of node seq = node * 2 ^ 64 + seq.
Proof.
  intros Hs. unfold request_id_of. rewrite Z.shiftl_mul_pow2 by lia.
  rewrite <- Z.add_lor_land. assert (Z.land (node * 2 ^ 64) seq = 0) as ->; [|lia].
  apply Z.bits_inj'. intros n Hn. rewrite Z.land_spec, Z.bits_0.
  destruct (Z.lt_ge_cases n 64).
  - by rewrite Z.mul_pow2_bits_low by lia.
  - assert (Z.testbit seq n = false) as ->; [|by rewrite andb_false_r].
    unfold u64_ok, U64_MAX in Hs. destruct (decide (seq = 0)) as [->|]; [apply Z.bits_0|].
    apply Z.bits_above_log2; [lia|].
    apply Z.log2_lt_pow2; [lia|]. apply (Z.lt_le_trans _ (2 ^ 64)); [lia|].
    apply Z.pow_le_mono_r; lia.
Qed.

(** Request ids are unique: two ids drawn by 64-bit nodes at 64-bit
    sequence numbers are equal only if node and sequence number are; each id
    fits in 128 bits and gives both back. *)
Theorem request_id_injective (n1 s1 n2 s2 : Z) :
  u64_ok n1 → u64_ok s1 → u64_ok n2 → u64_ok s2 →
  (request_id_of n1 s1 = request_id_of n2 s2 ↔ n1 = n2 ∧ s1 = s2) ∧
  0 ≤ request_id_of n1 s1 < 2 ^ 128 ∧
  Z.shiftr (request_id_of n1 s1) 64 = n1 ∧ request_id_of n1 s1 `mod` 2 ^ 64 = s1.
Proof.
  intros Hn1 Hs1 Hn2 Hs2. rewrite !request_id_sum by done.
  unfold u64_ok, U64_MAX in *. split_and!; try lia.
  - rewrite Z.shiftr_div_pow2 by lia. rewrite Z.div_add_l by lia.
    rewrite Z.div_small by lia. lia.
  - rewrite Z.add_comm, Z_mod_plus_full. apply Z.mod_small. lia.
Qed.

Lemma request_id_injective_witness :
  request_id_of 3 7 = request_id_of 3 7 ↔ 3 = 3 ∧ 7 = 7.
Proof. apply (request_id_injective 3 7 3 7); by vm_compute. Defined.

(** ** Circuit breaker *)

Inductive breaker_event := EvAllow (now : Z) | EvSuccess | EvFailure (now : Z).

Definition breaker_step (b : CircuitBreaker) (ev : breaker_event) : CircuitBreaker :=
  match ev with
  | EvAllow now => (allow_request now b).2
  | EvSuccess => record_success b
  | EvFailure now => record_failure now b
  end.

Definition run_breaker (evs : list breaker_event) (b : CircuitBreaker) : CircuitBreaker :=
  fold_left breaker_step evs b.

(** Closed exactly while fewer failures than the threshold were counted;
    [n] bounds the counter. *)
Record breaker_ok (n : Z) (b : CircuitBreaker) : Prop := {
  bk_threshold : 1 ≤ threshold b;
  bk_count : 0 ≤ failure_count b ≤ n;
  bk_closed : cb_state b = CLOSED ↔ failure_count b < threshold b;
}.

Lemma breaker_step_ok n b ev :
  breaker_ok n b → n < 2 ^ 32 - 1 → breaker_ok (n + 1) (breaker_step b ev).
Proof.
  intros [Ht Hc Hcl] Hn.
  assert (Hsame : breaker_ok (n + 1) b) by (split; [done|lia|done]).
  assert (Hopen : cb_state b ≠ CLOSED → threshold b ≤ failure_count b).
  { intros Hne. apply Z.nlt_ge. intros Hlt. by apply Hne, Hcl. }
  destruct ev; simpl.
  - unfold allow_request. destruct (cb_state b) eqn:Hst; [done| |done].
    case_bool_decide; [|done]. specialize (Hopen ltac:(done)).
    split; simpl; [done|lia|]. split; [done|lia].
  - unfold record_success.
    destruct (cb_state b) eqn:Hst; [|done|]; (split; simpl; [done|lia|split; [lia|done]]).
  - unfold record_failure. rewrite Z.mod_small by lia.
    case_bool_decide; split; simpl; try lia.
    + split; [done|lia].
    + split; [lia|]. intros _. apply Hcl. lia.
Qed.

Lemma run_breaker_ok evs n b :
  breaker_ok n b → n + Z.of_nat (length evs) < 2 ^ 32 →
  breaker_ok (n + Z.of_nat (length evs)) (run_breaker evs b).
Proof.
  unfold run_breaker. revert n b. induction evs as [|ev evs IH]; intros n b Hb Hlen; simpl in *.
  - by rewrite Z.add_0_r.
  - replace (n + Z.of_nat (S (length evs))) with (n + 1 + Z.of_nat (length evs)) by lia.
    apply IH; [|lia]. apply breaker_step_ok; [done|lia].
Qed.

Lemma breaker_new_ok config :
  1 ≤ circuit_breaker_threshold config → breaker_ok 0 (breaker_new config).
Proof. intros Ht. split; simpl; [done|lia|]. split; [lia|done]. Qed.

(** The circuit breaker. After any run of fewer than 2^32 events from a
    fresh breaker with a positive threshold: it is closed exactly while fewer
    failures than the threshold have been counted; a request is refused exactly
    when it is open and the reset time has not passed since the failure that
    opened it; once it has, the first request is let through half-open; then a
    success closes it and clears the count, and a failure opens it again at
    once. *)
Theorem breaker_behaviour (config : PeerConfig) (evs : list breaker_event) (now : Z) :
  1 ≤ circuit_breaker_threshold config → Z.of_nat (length evs) < 2 ^ 32 - 1 →
  let b := run_breaker evs (breaker_new config) in
  (cb_state b = CLOSED ↔ failure_count b < threshold b) ∧
  ((allow_request now b).1 = false ↔
     cb_state b = OPEN ∧ now < u64_add (last_failure b) (reset_timeout b)) ∧
  (cb_state b = OPEN → (allow_request now b).1 = true →
     cb_state (allow_request now b).2 = HALF_OPEN) ∧
  (cb_state b = HALF_OPEN →
     cb_state (record_success b) = CLOSED ∧ failure_count (record_success b) = 0 ∧
     cb_state (record_failure now b) = OPEN ∧ last_failure (record_failure now b) = now).
Proof.
  intros Ht Hlen b.
  pose proof (run_breaker_ok evs 0 _ (breaker_new_ok config Ht) ltac:(lia)) as [H1 H2 H3].
  fold b in H1, H2, H3. split_and!.
  - done.
  - unfold allow_request. destruct (cb_state b); simpl; [naive_solver| |naive_solver].
    case_bool_decide; simpl; [|naive_solver lia]. split; [done|lia].
  - unfold allow_request. intros ->. by case_bool_decide.
  - intros Hh. assert (threshold b ≤ failure_count b).
    { apply Z.nlt_ge. intros Hlt%H3. congruence. }
    unfold record_success, record_failure. rewrite Hh, Z.mod_small by lia.
    by rewrite bool_decide_true by lia.
Qed.

Lemma breaker_behaviour_witness :
  let b := run_breaker (replicate 5 (EvFailure 100) ++ [EvAllow 130]) (breaker_new PeerConfig_default) in
  cb_state b = CLOSED ↔ failure_count b < threshold b.
Proof.
  apply (breaker_behaviour PeerConfig_default (replicate 5 (EvFailure 100) ++ [EvAllow 130]) 131);
    by vm_compute.
Defined.

(** ** Routing *)

(** Peers are registered under their own id. *)
Definition registry_wf (r : PeerRegistry) : Prop := ∀ i p, r !! i = Some p → pi_node_id p = i.

Section routing_properties.
Context `{HashOrder}.

Lemma elem_of_list_alive r p :
  p ∈ list_alive r ↔ pi_is_alive p = true ∧ ∃ i, r !! i = Some p.
Proof. unfold list_alive. by rewrite list_elem_of_filter, elem_of_hm_values. Qed.

Lemma advertised_alive_Some now key rt n :
  advertised_alive now key rt = Some n →
  ∃ p, rt_registry rt !! n = Some p ∧ pi_is_alive p = true.
Proof.
  unfold advertised_alive, registry_get. destruct (find_provider _ _ _) as [ad|]; simpl; [|done].
  destruct (rt_registry rt !! ad_node_id ad) as [p|] eqn:Hp; simpl; [|done].
  destruct (pi_is_alive p) eqn:Ha; [|done]. intros [= <-]. eauto.
Qed.

(** Routing. A metric is routed to a peer the registry holds alive, and it
    fails only when no peer is alive; an unexpired advertisement of the metric
    by a live peer, when the map finds one first, decides the target and leaves
    the round-robin counter alone. *)
Theorem route_to_live_peer (now : Z) (key : string) (rt : PeerRouter) :
  registry_wf (rt_registry rt) → u64_ok (round_robin_counter rt) →
  match (route now key rt).1 with
  | Ok n => ∃ p, rt_registry rt !! n = Some p ∧ pi_is_alive p = true
  | Err _ => ∀ i p, rt_registry rt !! i = Some p → pi_is_alive p = false
  end ∧
  (∀ ad p, find_provider now key (rt_ads rt) = Some ad →
     rt_registry rt !! ad_node_id ad = Some p → pi_is_alive p = true →
     route now key rt = (Ok (ad_node_id ad), rt)).
Proof.
  intros Hwf Hrr. split; [|intros ad p Hf Hp Ha; unfold route, advertised_alive, registry_get;
    rewrite Hf; simpl; rewrite Hp; simpl; by rewrite Ha].
  unfold route. destruct (advertised_alive now key rt) as [n|] eqn:Had; simpl.
  { by apply (advertised_alive_Some now key). }
  case_bool_decide as Hal; simpl.
  - intros i p Hp. destruct (pi_is_alive p) eqn:Ha; [|done]. exfalso.
    assert (p ∈ list_alive (rt_registry rt)) as Hin by (apply elem_of_list_alive; eauto).
    rewrite Hal in Hin. by apply not_elem_of_nil in Hin.
  - set (l := list_alive _) in *. set (i := Z.to_nat _).
    assert (Hlen : 0 < Z.of_nat (length l)) by (destruct l; [done|simpl; lia]).
    destruct (lookup_lt_is_Some_2 l i) as [p Hp].
    { unfold i. pose proof (Z.mod_pos_bound (round_robin_counter rt) _ Hlen). lia. }
    rewrite Hp; simpl. apply list_elem_of_lookup_2, elem_of_list_alive in Hp as [Ha [j Hj]].
    rewrite (Hwf _ _ Hj). eauto.
Qed.
End routing_properties.

Definition one_peer : PeerRegistry := {[ 2 := mkPeerInfo 2 "h:1" [] 0 true ]}.

Lemma one_peer_wf : registry_wf one_peer.
Proof. unfold one_peer. intros i p [<- <-]%lookup_singleton_Some. done. Qed.

Lemma route_to_live_peer_witness :
  ∃ p, one_peer !! 2 = Some p ∧ pi_is_alive p = true.
Proof.
  apply (@route_to_live_peer canonical_order 0 "m" (router_new one_peer (ad_new 300)));
    [exact one_peer_wf|by vm_compute].
Defined.

(** ** Codec *)

(** The versioned codec. What a node encodes it decodes back, and bytes that
    are empty or start with another version are refused. *)
Theorem versioned_roundtrip {T : Type} `{!Codec T} (x : T) (b : bytes) (v : Z) :
  (encode_with_version VERSION x = Ok b → decode_with_version VERSION b = Ok x) ∧
  is_ok (decode_with_version VERSION [] : result PeerError T) = false ∧
  (v ≠ VERSION → is_ok (decode_with_version VERSION (v :: b) : result PeerError T) = false).
Proof.
  unfold encode_with_version, decode_with_version. split_and!.
  - destruct (enc x) as [b'|] eqn:He; [|done]. intros [= <-].
    by rewrite bool_decide_true, (dec_enc _ _ He).
  - done.
  - intros Hv. by rewrite bool_decide_false.
Qed.

(** ** The fetcher *)

(** Every pending entry was given a cell of its own, already handed out. *)
Definition tracker_wf (t : PendingRequestTracker) : Prop :=
  ∀ id e, pending t !! id = Some e → pe_sender e < next_cell t.

(** The cell of a registered request keeps waiting while only other ids are
    answered. *)
Lemma other_responses_leave_waiting rs f id cell :
  Forall (λ r, ps_request_id r ≠ id) rs →
  (∀ id' e, pending (pf_pending f) !! id' = Some e → pe_sender e = cell → id' = id) →
  cells (pf_pending f) !! cell = Some Waiting →
  cells (pf_pending (handle_responses rs f)) !! cell = Some Waiting ∧
  pf_config (handle_responses rs f) = pf_config f ∧
  pf_breaker (handle_responses rs f) = pf_breaker f.
Proof.
  unfold handle_responses. revert f.
  induction rs as [|r rs IH]; intros f Hrs Hown Hc; [done|].
  inversion Hrs as [|?? Hr Hrs']; subst. simpl. unfold handle_response, complete.
  destruct (pending (pf_pending f) !! ps_request_id r) as [e|] eqn:He;
    [|by apply (IH (with_pending f (pf_pending f)))].
  apply (IH (with_pending f _)); simpl; [done| |].
  - intros id' e' [_ He']%lookup_delete_Some. by apply Hown.
  - rewrite lookup_insert_ne; [done|]. intros Heq. by apply Hr, (Hown _ e).
Qed.

Section fetcher_properties.
Context `{HashOrder} `{!Codec PeerRequest}.

(** A fetch that has to ask a peer always times out. The id it waits for
    and the id inside the request it sends are drawn separately and differ, so
    answers to the request it sent complete nothing: on a cache miss, with a
    live peer, a breaker that lets the request through and a publication that
    succeeds, the result is [Timeout], whatever responses carrying the request's
    id arrive, and the failure is recorded. *)
Theorem fetch_times_out (env : FetchEnv) (key : string) (payload : bytes) (f : PeerFetcher)
    (target : Z) (rt' : PeerRouter) (b' : CircuitBreaker) (out : bytes) :
  tracker_wf (pf_pending f) → u64_ok (pf_node_id f) → u64_ok (pf_sequence f) →
  (cache_get (env_now env) key (pf_cache f)).1 = None →
  route (env_now env) key (pf_router f) = (Ok target, rt') →
  allow_request (env_now_secs env) (pf_breaker f) = (true, b') →
  pf_has_gossip f = true → env_publish env = Ok tt →
  let request := (make_request env target key payload f).1.1 in
  encode_request request = Ok out →
  Forall (λ r, ps_request_id r = pr_request_id request) (env_responses env) →
  ∃ f', fetch_metric env key payload f =
      (Err (Timeout (u64_wrap (request_timeout_secs (pf_config f) * 1000))), f') ∧
    pf_breaker f' = record_failure (env_now_secs env) b'.
Proof.
  intros Hwf Hn Hs Hmiss Hroute Hallow Hg Hpub request Henc Hrs.
  unfold fetch_metric. destruct (cache_get _ _ _) as [c0 cache'] eqn:Hc. simpl in Hmiss. subst c0.
  simpl. rewrite Hroute. simpl. rewrite Hallow. simpl.
  set (seq1 := u64_add (pf_sequence f) 1) in *.
  change (mkPeerRequest _ _ _ _ _ _) with request. rewrite Henc, Hg, Hpub.
  set (id := request_id_of (pf_node_id f) (pf_sequence f)).
  set (f1 := with_pending _ _). unfold await_response.
  destruct (other_responses_leave_waiting (env_responses env) f1 id (next_cell (pf_pending f)))
    as (Hw & Hcfg & Hbr).
  - eapply Forall_impl; [exact Hrs|]. simpl. intros r -> Heq.
    assert (Hne : seq1 = pf_sequence f).
    { unfold request in Heq; simpl in Heq. unfold id in Heq. fold seq1 in Heq.
      rewrite !request_id_sum in Heq by (try done; apply u64_wrap_range). lia. }
    revert Hne. unfold seq1, u64_add, u64_wrap.
    unfold u64_ok, U64_MAX in Hs. destruct (decide (pf_sequence f = 2 ^ 64 - 1)) as [->|].
    + by vm_compute.
    + rewrite Z.mod_small by lia. lia.
  - intros id' e. unfold f1; simpl. map_cases id' id; [done|]. intros He Hse.
    apply Hwf in He. lia.
  - unfold f1; simpl. by rewrite lookup_insert_eq.
  - rewrite Hw, Hcfg. eexists. split; [done|]. simpl. by rewrite Hbr.
Qed.

(** A failure response is treated as data: it is returned as success, cached
    and recorded as a success. *)
Lemma failure_response_is_cached env key id cell f r :
  cells (pf_pending (handle_responses (env_responses env) f)) !! cell = Some (Got r) →
  ps_success r = false → ps_payload r = [] →
  0 < cache_default_ttl (pf_cache (handle_responses (env_responses env) f)) →
  ∃ f', await_response env key id cell f = (Ok [], f') ∧
    (cache_get (env_now env) key (pf_cache f')).1 = Some [].
Proof.
  intros Hc Hf Hp Httl. unfold await_response. rewrite Hc, Hp. eexists. split; [done|].
  unfold cache_get; simpl. rewrite lookup_insert_eq; simpl. by rewrite bool_decide_true by lia.
Qed.
End fetcher_properties.

(** ** Concrete runs *)

#[local] Instance PeerRequest_eq_dec : EqDecision PeerRequest.
Proof. solve_decision. Defined.
#[local] Instance PeerRequest_countable : Countable PeerRequest.
Proof.
  apply (inj_countable'
    (λ r, (pr_request_id r, pr_source_node r, pr_target_node r, pr_metric_key r,
           pr_timestamp r, pr_payload r))
    (λ '(a, b, c, d, e, f), mkPeerRequest a b c d e f)). by intros [].
Defined.

Definition request_codec : Codec PeerRequest := bits_codec PeerRequest.

Definition sample_request : PeerRequest := mkPeerRequest 5 1 2 "m" 10 [7].

Lemma versioned_roundtrip_witness :
  @decode_with_version _ request_codec VERSION (1 :: 1 :: pos_bits (encode sample_request)) =
  Ok sample_request.
Proof.
  refine (proj1 (@versioned_roundtrip _ request_codec sample_request _ 2) _). reflexivity.
Defined.

Definition sample_fetcher : PeerFetcher :=
  fetcher_new 1 PeerConfig_default (router_new one_peer (ad_new 300)) 60 1000 true 41.

(** The peer answers the request it received. *)
Definition sample_env : FetchEnv :=
  mkEnv 0 0 0 (Ok tt) [PeerResponse_success 1 (request_id_of 1 42) 2 [9]].

Lemma fetch_times_out_witness :
  ∃ f', @fetch_metric canonical_order request_codec sample_env "m" [7] sample_fetcher =
    (Err (Timeout 5000), f') ∧ pf_breaker f' = record_failure 0 (pf_breaker sample_fetcher).
Proof.
  eapply (@fetch_times_out canonical_order request_codec sample_env "m" [7] sample_fetcher 2
    (mkRouter one_peer (ad_new 300) 1) (pf_breaker sample_fetcher)).
  - intros id e He. simpl in He. by rewrite lookup_empty in He.
  - by vm_compute.
  - by vm_compute.
  - reflexivity.
  - reflexivity.
  - reflexivity.
  - reflexivity.
  - reflexivity.
  - reflexivity.
  - repeat constructor.
Defined.
