(* ===== verification/ConcurrentPeer.v ===== *)
(** * Concurrent use of the circuit breaker and the peer cache
    (src/peer/circuit_breaker.rs, src/peer/cache.rs)

    Requests of a peer run as tasks of their own, and share one breaker and one
    cache.  The breaker's fields are separate atomics and a call loads and stores
    them one at a time; a call on the cache is several accesses of a concurrent
    map.  Here every access is an action of a thread. *)

From S2P Require Import Prelude DdlTypes Peer Interleaving.
#[local] Open Scope Z_scope.

(** ** The circuit breaker *)

Module Breaker.

(** Where a call is; the clock it reads is part of it.  A failure keeps the
    count it drew. *)
Inductive BThread :=
| Allow (now : Z)
| AllowOpen (now : Z)
| AllowStore
| Allowed (b : bool)
| Success
| SuccessStore
| SuccessReset
| SuccessDone
| Failure (now : Z)
| FailureOver (now count : Z)
| FailureStamp (now count : Z)
| FailureDone (count : Z).

Definition store_state (st : BreakerState) (b : CircuitBreaker) : CircuitBreaker :=
  mkBreaker st (failure_count b) (last_failure b) (threshold b) (reset_timeout b).

(** *** [allow_request] *)

Definition allow_load (now : Z) (b : CircuitBreaker) : BThread :=
  match cb_state b with CLOSED | HALF_OPEN => Allowed true | OPEN => AllowOpen now end.

Definition allow_check (now : Z) (b : CircuitBreaker) : BThread :=
  if bool_decide (u64_add (last_failure b) (reset_timeout b) ≤ now) then AllowStore else Allowed false.

(** *** [record_success] *)

Definition success_load (b : CircuitBreaker) : BThread :=
  match cb_state b with OPEN => SuccessDone | _ => SuccessStore end.

Definition success_reset (b : CircuitBreaker) : CircuitBreaker :=
  mkBreaker (cb_state b) 0 (last_failure b) (threshold b) (reset_timeout b).

(** *** [record_failure] *)

Definition failure_add (now : Z) (b : CircuitBreaker) : BThread * CircuitBreaker :=
  let count := (failure_count b + 1) `mod` 2 ^ 32 in
  (if bool_decide (threshold b ≤ count) then FailureOver now count else FailureDone count,
   mkBreaker (cb_state b) count (last_failure b) (threshold b) (reset_timeout b)).

Definition failure_stamp (now : Z) (b : CircuitBreaker) : CircuitBreaker :=
  mkBreaker (cb_state b) (failure_count b) now (threshold b) (reset_timeout b).

Definition bstep (i : nat) (l : BThread) (b : CircuitBreaker) : option (BThread * CircuitBreaker) :=
  match l with
  | Allow now => Some (allow_load now b, b)
  | AllowOpen now => Some (allow_check now b, b)
  | AllowStore => Some (Allowed true, store_state HALF_OPEN b)
  | Success => Some (success_load b, b)
  | SuccessStore => Some (SuccessReset, store_state CLOSED b)
  | SuccessReset => Some (SuccessDone, success_reset b)
  | Failure now => Some (failure_add now b)
  | FailureOver now count => Some (FailureStamp now count, store_state OPEN b)
  | FailureStamp now count => Some (FailureDone count, failure_stamp now b)
  | Allowed _ | SuccessDone | FailureDone _ => None
  end.

(** *** Undisturbed, the actions are the operations *)

Ltac alone Hi b :=
  pose proof (run_alone_schedule bstep 3 _ _ b _ Hi) as Hr; simpl replicate in Hr; rewrite Hr; simpl.

Lemma allow_alone now b ls i :
  ls !! i = Some (Allow now) →
  run_schedule bstep [i; i; i] (mkMachine b ls) =
    mkMachine (allow_request now b).2 (<[i := Allowed (allow_request now b).1]> ls).
Proof.
  intros Hi. alone Hi b. unfold allow_load, allow_request.
  destruct (cb_state b); simpl; [done| |done]. unfold allow_check. by case_bool_decide.
Qed.

Lemma success_alone b ls i :
  ls !! i = Some Success →
  run_schedule bstep [i; i; i] (mkMachine b ls) = mkMachine (record_success b) (<[i := SuccessDone]> ls).
Proof. intros Hi. alone Hi b. unfold success_load, record_success. by destruct (cb_state b). Qed.

Lemma failure_alone now b ls i :
  ls !! i = Some (Failure now) →
  run_schedule bstep [i; i; i] (mkMachine b ls) =
    mkMachine (record_failure now b) (<[i := FailureDone ((failure_count b + 1) `mod` 2 ^ 32)]> ls).
Proof. intros Hi. alone Hi b. unfold failure_add, record_failure. by case_bool_decide. Qed.

(** *** Failures and admissions in any interleaving *)

(** The count a failure drew. *)
Definition drawn (l : BThread) : option Z :=
  match l with FailureOver _ n | FailureStamp _ n | FailureDone n => Some n | _ => None end.

Definition counted (l : BThread) : bool := bool_decide (is_Some (drawn l)).

(** A thread of a run without successes. *)
Definition bthread_ok (l : BThread) (b : CircuitBreaker) : Prop :=
  (∀ n, drawn l = Some n → n ≤ failure_count b) ∧
  match l with
  | FailureOver _ n => threshold b ≤ n
  | FailureStamp _ _ | AllowOpen _ | AllowStore => cb_state b ≠ CLOSED
  | FailureDone n => threshold b ≤ n → cb_state b ≠ CLOSED
  | Success | SuccessStore | SuccessReset | SuccessDone => False
  | _ => True
  end.

Record breaker_inv (thr : Z) (n : nat) (c : Machine) : Prop := {
  bi_threads : length (threads c) = n;
  bi_threshold : threshold (shared c) = thr;
  bi_count : failure_count (shared c) = Z.of_nat (count counted c);
  bi_top : 0 < failure_count (shared c) →
    ∃ i l, threads c !! i = Some l ∧ drawn l = Some (failure_count (shared c));
  bi_state : cb_state (shared c) ≠ CLOSED → thr ≤ failure_count (shared c);
  bi_ok : ∀ i l, threads c !! i = Some l → bthread_ok l (shared c);
}.

(** What the other threads of such a run see: the count does not go down, and a
    breaker that has left the closed state does not return to it. *)
Definition advances (b b' : CircuitBreaker) : Prop :=
  threshold b' = threshold b ∧ failure_count b ≤ failure_count b' ∧
  (cb_state b ≠ CLOSED → cb_state b' ≠ CLOSED).

Lemma bthread_ok_frame l b b' : advances b b' → bthread_ok l b → bthread_ok l b'.
Proof.
  intros (Ht & Hc & Hs) [Hd Hl]. split; [intros n Hn; specialize (Hd n Hn); lia|].
  destruct l; rewrite ?Ht; auto.
Qed.

(** One action: the counter moves exactly when a failure draws its count. *)
Lemma bstep_ok thr c i l l' b' :
  threads c !! i = Some l → breaker_inv thr (length (threads c)) c →
  Z.of_nat (length (threads c)) < 2 ^ 32 → bstep i l (shared c) = Some (l', b') →
  advances (shared c) b' ∧ bthread_ok l' b' ∧
  (cb_state b' ≠ CLOSED → thr ≤ failure_count b') ∧
  (drawn l' = drawn l ∧ failure_count b' = failure_count (shared c) ∨
   drawn l = None ∧ drawn l' = Some (failure_count b') ∧
   failure_count b' = failure_count (shared c) + 1).
Proof.
  intros Hl Hi Hmax Hs. destruct c as [b ls]. simpl in *.
  pose proof (bi_count _ _ _ Hi) as Hc. pose proof (bi_state _ _ _ Hi) as Hst.
  pose proof (bi_threshold _ _ _ Hi) as Hthr.
  pose proof (bi_ok _ _ _ Hi i l Hl) as [Hd Hok]. simpl in *.
  destruct l as [now|now| |a| | | | |now|now n|now n|n]; simpl in Hs; try done; simplify_eq.
  - unfold allow_load. destruct (cb_state b') eqn:Es; simpl;
      (split_and!; [done| |rewrite ?Es; done|by left]); split; simpl; by rewrite ?Es.
  - unfold allow_check. case_bool_decide; (split_and!; [done| |done|by left]); by split.
  - split_and!; [by split_and!|by split|by auto|by left].
  - assert (count counted (mkMachine b ls) < length ls)%nat as Hlt.
    { pose proof (count_step counted b b ls i _ (FailureDone 0) Hl) as Hn.
      pose proof (count_le counted (mkMachine b (<[i := FailureDone 0]> ls))) as Hle.
      simpl in Hle. rewrite length_insert in Hle. simpl in Hn. lia. }
    assert ((failure_count b + 1) `mod` 2 ^ 32 = failure_count b + 1) as Hmod
      by (apply Z.mod_small; lia).
    injection Hs as <- <-. rewrite Hmod. unfold advances. cbn [threshold failure_count cb_state].
    split_and!; [done|lia|done| |intros ?; specialize (Hst ltac:(done)); lia|right].
    + case_bool_decide; (split; [intros ? [= <-]; simpl; lia|simpl; lia]).
    + split_and!; [done|by case_bool_decide|done].
  - split_and!; [by split_and!|by split|intros _; simpl; specialize (Hd n eq_refl); lia|by left].
  - split_and!; [by split_and!|by split|by auto|by left].
Qed.

Lemma breaker_inv_step thr n c i :
  Z.of_nat n < 2 ^ 32 → breaker_inv thr n c → breaker_inv thr n (run_thread bstep c i).
Proof.
  intros Hmax Hi. apply run_thread_cases; [done|]. intros l l' b' Hl Hs.
  pose proof (bi_threads _ _ _ Hi) as Hn. subst n.
  destruct (bstep_ok thr c i l l' b' Hl Hi Hmax Hs) as (Hadv & Hok & Hst & Hdr).
  pose proof (count_step counted (shared c) b' (threads c) i l l' Hl) as Hcs.
  pose proof (bi_count _ _ _ Hi) as Hc. destruct c as [b ls]. cbn [shared threads] in *.
  pose proof (lookup_lt_Some _ _ _ Hl) as Hlt.
  split; cbn [shared threads].
  - apply length_insert.
  - destruct Hadv as [-> _]. apply (bi_threshold _ _ _ Hi).
  - unfold counted in *. destruct Hdr as [[Hd ->]|(Hd & Hd' & ->)]; rewrite ?Hd, ?Hd' in Hcs;
      simpl in Hcs; lia.
  - intros Hpos. destruct Hdr as [[Hd Hf]|(Hd & Hd' & Hf)].
    + rewrite Hf in *. destruct (bi_top _ _ _ Hi Hpos) as (j & m & Hm & Hdm). cbn [shared threads] in *.
      destruct (decide (i = j)) as [<-|Hne].
      * exists i, l'. rewrite list_lookup_insert_eq by done. split; [done|congruence].
      * exists j, m. by rewrite list_lookup_insert_ne.
    + exists i, l'. by rewrite list_lookup_insert_eq.
  - done.
  - intros j m. destruct (decide (i = j)) as [<-|Hne].
    + rewrite list_lookup_insert_eq by done. by intros [= <-].
    + rewrite list_lookup_insert_ne by done. intros Hm.
      by eapply bthread_ok_frame, (bi_ok _ _ _ Hi).
Qed.

Definition starts (l : BThread) : Prop := match l with Allow _ | Failure _ => True | _ => False end.

Definition ended (l : BThread) : Prop := match l with Allowed _ | FailureDone _ => True | _ => False end.

Definition is_failure (l : BThread) : bool :=
  match l with Failure _ | FailureOver _ _ | FailureStamp _ _ | FailureDone _ => true | _ => false end.

Lemma breaker_inv_start config ls :
  0 < circuit_breaker_threshold config → Forall starts ls →
  breaker_inv (circuit_breaker_threshold config) (length ls) (mkMachine (breaker_new config) ls).
Proof.
  intros Hthr Hls. split; simpl; try done.
  - rewrite count_zero; [done|]. intros i l Hl. pose proof (Forall_lookup_1 _ _ _ _ Hls Hl). by destruct l.
  - intros i l Hl. pose proof (Forall_lookup_1 _ _ _ _ Hls Hl). by destruct l.
Qed.

Lemma is_failure_step i l b l' b' : bstep i l b = Some (l', b') → is_failure l' = is_failure l.
Proof.
  intros Hs. destruct l; simpl in Hs; simplify_eq; unfold allow_load, allow_check, success_load; simpl;
    repeat (case_match || case_bool_decide); try done.
  injection Hs as <- _. by case_bool_decide.
Qed.

Lemma failures_kept sch c : count is_failure (run_schedule bstep sch c) = count is_failure c.
Proof.
  apply (run_schedule_ind bstep (λ c', count is_failure c' = count is_failure c)); [done|].
  intros c' i <-. apply (run_thread_cases bstep (λ c, count is_failure c = count is_failure c')); [done|].
  intros l l' b' Hl Hs. pose proof (count_step is_failure (shared c') b' (threads c') i l l' Hl) as Hn.
  rewrite (is_failure_step _ _ _ _ _ Hs) in Hn. destruct c'. simpl in *. lia.
Qed.

(** Once all calls have returned, the failures are the threads that drew a count. *)
Lemma ended_counts (c : @Machine CircuitBreaker BThread) :
  Forall ended (threads c) → count counted c = count is_failure c.
Proof.
  intros Hc. apply count_ext. intros l Hl. pose proof (proj1 (Forall_forall _ _) Hc l Hl). by destruct l.
Qed.

(** C37: the breaker counts concurrent failures exactly and opens on time.  When
    any number of failures and admissions interleave, in any order of their
    loads and stores, and all have returned, the count is the number of failures
    and the breaker is closed exactly when they are fewer than the threshold. *)
Theorem concurrent_failures (config : PeerConfig) (ls : list BThread) (sch : list nat) :
  0 < circuit_breaker_threshold config → Z.of_nat (length ls) < 2 ^ 32 → Forall starts ls →
  let c := run_schedule bstep sch (mkMachine (breaker_new config) ls) in
  let failures := Z.of_nat (count is_failure (mkMachine (breaker_new config) ls)) in
  Forall ended (threads c) →
  failure_count (shared c) = failures ∧
  (cb_state (shared c) = CLOSED ↔ failures < circuit_breaker_threshold config).
Proof.
  intros Hthr Hlen Hls c failures Hend.
  assert (breaker_inv (circuit_breaker_threshold config) (length ls) c) as Hi.
  { apply run_schedule_ind; [by apply breaker_inv_start|]. intros c' i. by apply breaker_inv_step. }
  assert (failure_count (shared c) = failures) as Hf.
  { rewrite (bi_count _ _ _ Hi), ended_counts by done. unfold failures. unfold c. by rewrite failures_kept. }
  split; [done|]. rewrite <- Hf. split.
  - intros Hst. destruct (decide (failure_count (shared c) < circuit_breaker_threshold config)); [done|].
    destruct (bi_top _ _ _ Hi) as (i & l & Hl & Hd); [lia|].
    pose proof (bi_ok _ _ _ Hi i l Hl) as [_ Hok]. pose proof (Forall_lookup_1 _ _ _ _ Hend Hl) as He.
    destruct l; simpl in *; try done; simplify_eq. rewrite (bi_threshold _ _ _ Hi) in Hok. exfalso. apply Hok; [lia|done].
  - intros Hlt. destruct (cb_state (shared c)) eqn:Es; [done|..];
      pose proof (bi_state _ _ _ Hi) as Hs; rewrite Es in Hs; specialize (Hs ltac:(done)); lia.
Qed.

(** *** What interleaving can do *)

(** The breaker of a peer with a threshold of [thr], its timer set to 30 seconds. *)
Definition fresh (thr : Z) : CircuitBreaker := breaker_new (mkPeerConfig 5 3 10 thr 30 60 1000).

(** A success that looked at the state before the breaker opened closes it: two
    failures reach the threshold and the next request is let through. *)
Lemma success_closes_open_breaker :
  let c := run_schedule bstep [0; 1; 1; 1; 2; 2; 2; 0; 0; 3]%nat
             (mkMachine (fresh 2) [Success; Failure 100; Failure 100; Allow 101]) in
  threads c = [SuccessDone; FailureDone 1; FailureDone 2; Allowed true] ∧
  cb_state (shared c) = CLOSED ∧ failure_count (shared c) = 0.
Proof. vm_compute. by split_and!. Qed.

(** The state is stored before the time of the failure: a request in between
    compares the clock with an old time and half-opens the breaker at once. *)
Lemma open_before_stamp :
  let c := run_schedule bstep [0; 0; 1; 1; 1; 0]%nat (mkMachine (fresh 1) [Failure 100; Allow 100]) in
  threads c = [FailureDone 1; Allowed true] ∧
  cb_state (shared c) = HALF_OPEN ∧ last_failure (shared c) = 100.
Proof. vm_compute. by split_and!. Qed.

Lemma concurrent_failures_witness :
  let ls := [Failure 100; Allow 100; Failure 100] in
  let c := run_schedule bstep [0; 2; 0; 2; 1; 2; 1; 0; 1]%nat (mkMachine (fresh 2) ls) in
  failure_count (shared c) = 2 ∧ ¬ cb_state (shared c) = CLOSED.
Proof.
  intros ls c.
  destruct (concurrent_failures (mkPeerConfig 5 3 10 2 30 60 1000) ls [0; 2; 0; 2; 1; 2; 1; 0; 1]%nat)
    as [Hf Hs].
  - simpl. lia.
  - reflexivity.
  - repeat constructor.
  - vm_compute. repeat constructor.
  - split; [exact Hf|]. intros Hc. apply Hs in Hc. by vm_compute in Hc.
Defined.
End Breaker.

(** ** The cache *)

Module Cache.
Section cache.
Context {V : Type} `{HashOrder}.

(** Where a call is: a [set] past its length check, past its lookup, with a key
    to evict, or about to insert; a [get] that found nothing valid. *)
Inductive CThread :=
| SetStart (now : Z) (key : string) (value : V) (ttl : option Z)
| SetFull (now : Z) (key : string) (value : V) (ttl : option Z)
| SetPick (now : Z) (key : string) (value : V) (ttl : option Z)
| SetEvict (victim : string) (now : Z) (key : string) (value : V) (ttl : option Z)
| SetInsert (now : Z) (key : string) (value : V) (ttl : option Z)
| SetDone
| GetStart (now : Z) (key : string)
| GetRemove (key : string)
| GetDone (r : option V).

Definition set_check_len now key value ttl (c : PeerCache V) : CThread :=
  if bool_decide (max_entries c ≤ Z.of_nat (size (cache_entries c)))
  then SetFull now key value ttl else SetInsert now key value ttl.

Definition set_check_key now key value ttl (c : PeerCache V) : CThread :=
  if bool_decide (cache_entries c !! key = None) then SetPick now key value ttl
  else SetInsert now key value ttl.

Definition set_pick now key value ttl (c : PeerCache V) : CThread :=
  match hm_iter (cache_entries c) with
  | (k, _) :: _ => SetEvict k now key value ttl
  | [] => SetInsert now key value ttl
  end.

Definition remove_key (key : string) (c : PeerCache V) : PeerCache V :=
  with_entries c (delete key (cache_entries c)).

Definition set_insert now key value ttl (c : PeerCache V) : PeerCache V :=
  with_entries c (<[key := mkCacheEntry value (now + default (cache_default_ttl c) ttl)]> (cache_entries c)).

Definition get_lookup now key (c : PeerCache V) : CThread :=
  match cache_entries c !! key with
  | Some e => if bool_decide (now < ce_expires_at e) then GetDone (Some (ce_value e)) else GetRemove key
  | None => GetRemove key
  end.

Definition cstep (i : nat) (l : CThread) (c : PeerCache V) : option (CThread * PeerCache V) :=
  match l with
  | SetStart now k v ttl => Some (set_check_len now k v ttl c, c)
  | SetFull now k v ttl => Some (set_check_key now k v ttl c, c)
  | SetPick now k v ttl => Some (set_pick now k v ttl c, c)
  | SetEvict victim now k v ttl => Some (SetInsert now k v ttl, remove_key victim c)
  | SetInsert now k v ttl => Some (SetDone, set_insert now k v ttl c)
  | GetStart now k => Some (get_lookup now k c, c)
  | GetRemove k => Some (GetDone None, remove_key k c)
  | SetDone | GetDone _ => None
  end.

(** Undisturbed, the actions are the operations. *)
Lemma set_alone now k v ttl c ls i :
  ls !! i = Some (SetStart now k v ttl) →
  run_schedule cstep (replicate 5 i) (mkMachine c ls) =
    mkMachine (cache_set now k v ttl c) (<[i := SetDone]> ls).
Proof.
  intros Hi. rewrite (run_alone_schedule cstep 5 i _ c ls Hi). simpl. unfold set_check_len, cache_set.
  case_bool_decide; simpl; [|done]. unfold set_check_key. case_bool_decide; simpl; [|done].
  unfold set_pick, evict_one. by destruct (hm_iter _) as [|[k' e] es].
Qed.

Lemma get_alone now k c ls i :
  ls !! i = Some (GetStart now k) →
  run_schedule cstep (replicate 2 i) (mkMachine c ls) =
    mkMachine (cache_get now k c).2 (<[i := GetDone (cache_get now k c).1]> ls).
Proof.
  intros Hi. rewrite (run_alone_schedule cstep 2 i _ c ls Hi). simpl. unfold get_lookup, cache_get.
  destruct (cache_entries c !! k); simpl; [|done]. by case_bool_decide.
Qed.
End cache.

(** *** What interleaving can do *)

Section races.
#[local] Existing Instance canonical_order.

Definition held (keys : list string) (max : Z) : PeerCache nat :=
  mkCache (list_to_map ((λ k, (k, mkCacheEntry 0%nat 1000)) <$> keys)) 60 max.

(** Two calls that store new keys in a full cache pick the same entry to evict:
    one goes and two come.  The next two do it again, so the cache exceeds its
    capacity by more and more. *)
Lemma cache_outgrows_capacity :
  let sets := (λ k, SetStart 1 k 7%nat None) <$> ["c"; "d"; "e"; "f"] in
  let c := run_schedule cstep ([0; 0; 0; 1; 1; 1] ++ [0; 0; 1; 1] ++ [2; 2; 2; 3; 3; 3] ++ [2; 2; 3; 3])%nat
             (mkMachine (held ["a"; "b"] 2) sets) in
  threads c = [SetDone; SetDone; SetDone; SetDone] ∧ cache_len (shared c) = 4%nat.
Proof. vm_compute. by split. Qed.

(** A lookup that found an expired entry removes the key afterwards, and with it
    a value that was stored in between. *)
Lemma get_removes_fresh_value :
  let c := run_schedule cstep ([0] ++ replicate 5 1 ++ [0; 2; 2])%nat
             (mkMachine (held ["a"] 2) [GetStart 2000 "a"; SetStart 2000 "a" 7%nat None; GetStart 2000 "a"]) in
  threads c = [GetDone None; SetDone; GetDone None].
Proof. vm_compute. reflexivity. Qed.
End races.
End Cache.
