(* ===== verification/Gossip.v ===== *)
(** * Gossip coordination (src/gossip_protocol.rs, src/gossip.rs)

    Eventually consistent topic ownership: nodes broadcast claims, releases,
    heartbeats and announcements and keep a local table of owners.  iroh (the
    transport), BLAKE3 (topic ids) and serde_json (the wire format) are
    parameters; what a node broadcasts is collected in order, and a message
    reaches other nodes, not its sender.  Each handler is one step of the state
    of the coordinator. *)

From S2P Require Import Prelude LockUtils Ownership OwnershipTopics Leases Storage StorageProps RaftCluster.
From S2P Require Import DdlTypes Peer.
#[local] Open Scope Z_scope.

(** Topic ids and their derivation from names. *)
Class TopicHash : Type := {
  TopicId : Type;
  TopicId_eq_dec :: EqDecision TopicId;
  TopicId_countable :: Countable TopicId;
  derive_topic_id : string → TopicId;
  topic_id_hex : TopicId → string;
}.

Inductive GossipError :=
| GIo (msg : string)
| GSerialization (msg : string)
| GGossip (msg : string)
| GParse (msg : string)
| GTopicNotFound (topic : string)
| GNotSubscribed (id : string)
| GChannel (msg : string)
| GAlreadyShutdown.

(** [From<serde_json::Error>] *)
Definition GossipError_from_json (msg : string) : GossipError := GSerialization msg.

(** [{:?}]: the variant and its string in quotes (escape sequences aside). *)
Definition quoted (s : string) : string :=
  let q := String (Ascii.ascii_of_nat 34) EmptyString in q +:+ s +:+ q.

Definition GossipError_debug (e : GossipError) : string :=
  match e with
  | GIo m => "Io(" +:+ m +:+ ")"
  | GSerialization m => "Serialization(" +:+ quoted m +:+ ")"
  | GGossip m => "Gossip(" +:+ quoted m +:+ ")"
  | GParse m => "Parse(" +:+ quoted m +:+ ")"
  | GTopicNotFound m => "TopicNotFound(" +:+ quoted m +:+ ")"
  | GNotSubscribed m => "NotSubscribed(" +:+ quoted m +:+ ")"
  | GChannel m => "Channel(" +:+ quoted m +:+ ")"
  | GAlreadyShutdown => "AlreadyShutdown"
  end.

(** ** Ownership records *)

Record TopicOwnership := mkOwnership {
  owner_node_id : Z;
  epoch : Z;
  claimed_at : Z;
  last_heartbeat : Z;
}.

#[export] Instance TopicOwnership_eq_dec : EqDecision TopicOwnership.
Proof. solve_decision. Defined.

Definition TopicOwnership_new (now node : Z) : TopicOwnership := mkOwnership node 1 now now.

Definition ownership_update_heartbeat (now : Z) (o : TopicOwnership) : TopicOwnership :=
  mkOwnership (owner_node_id o) (epoch o) (claimed_at o) now.

Definition is_timed_out (now timeout_nanos : Z) (o : TopicOwnership) : bool :=
  bool_decide (timeout_nanos < saturating_sub now (last_heartbeat o)).

Definition transfer_to (now new_owner : Z) (o : TopicOwnership) : TopicOwnership :=
  mkOwnership new_owner (saturating_add (epoch o) 1) now now.

(** [Duration::from_secs(n).as_nanos() as u64] *)
Definition nanos_of_secs (n : Z) : Z := u64_wrap (secs n).

Section gossip.
Context `{TopicHash}.

Inductive GossipMessage :=
| TopicClaim (topic : string) (topic_id : TopicId) (node_id epoch timestamp : Z)
| TopicRelease (topic : string) (topic_id : TopicId) (node_id : Z)
| TopicHeartbeat (topic : string) (topic_id : TopicId) (node_id epoch timestamp : Z)
| NodeAnnounce (node_id : Z) (bind_addr : string) (owned : list string)
| NodeLeave (node_id : Z)
| TopicQuery (topic : string) (requestor : Z)
| TopicResponse (topic : string) (owner : option Z)
| PeerRequestMsg (request_id source target : Z) (metric_key : string) (payload : bytes)
    (timestamp : Z)
| PeerResponseMsg (request_id source : Z) (success : bool) (payload : bytes) (timestamp : Z)
    (error_message : option string)
| ServiceAdvertise (node_id : Z) (metrics_offered : list string) (address : string)
    (timestamp : Z).

Record InternalPeerInfo := mkPeer { ip_addr : string; ip_last_seen : Z }.

Record GossipCoordinator := mkGossip {
  g_node_id : Z;
  topic_senders : gset TopicId;
  topic_owners : gmap string TopicOwnership;
  owned_topics : list string;
  heartbeat_interval_secs : Z;
  owner_timeout_secs : Z;
  has_membership_tx : bool;
  g_events : list MembershipEvent;
  g_peers : gmap Z InternalPeerInfo;
  g_fetcher : option PeerFetcher;
  g_handler : option (PeerRequest → result string PeerResponse);
  g_ads : AdvertisementManager;
  g_sent : list (TopicId * bytes);
}.

Definition DEFAULT_HEARTBEAT_INTERVAL_SECS : Z := 5.
Definition DEFAULT_OWNER_TIMEOUT_SECS : Z := 30.
Definition MAX_MESSAGE_SIZE : Z := 1048576.

(** [GossipCoordinator::new], once the endpoint is bound. *)
Definition gossip_new (node_id : Z) : GossipCoordinator :=
  mkGossip node_id ∅ ∅ [] DEFAULT_HEARTBEAT_INTERVAL_SECS DEFAULT_OWNER_TIMEOUT_SECS
    false [] ∅ None None (ad_new 300) [].

Definition set_owners (g : GossipCoordinator) m :=
  mkGossip (g_node_id g) (topic_senders g) m (owned_topics g) (heartbeat_interval_secs g)
    (owner_timeout_secs g) (has_membership_tx g) (g_events g) (g_peers g) (g_fetcher g)
    (g_handler g) (g_ads g) (g_sent g).
Definition set_owned (g : GossipCoordinator) l :=
  mkGossip (g_node_id g) (topic_senders g) (topic_owners g) l (heartbeat_interval_secs g)
    (owner_timeout_secs g) (has_membership_tx g) (g_events g) (g_peers g) (g_fetcher g)
    (g_handler g) (g_ads g) (g_sent g).
Definition set_senders (g : GossipCoordinator) s :=
  mkGossip (g_node_id g) s (topic_owners g) (owned_topics g) (heartbeat_interval_secs g)
    (owner_timeout_secs g) (has_membership_tx g) (g_events g) (g_peers g) (g_fetcher g)
    (g_handler g) (g_ads g) (g_sent g).
Definition set_peers (g : GossipCoordinator) p evs :=
  mkGossip (g_node_id g) (topic_senders g) (topic_owners g) (owned_topics g)
    (heartbeat_interval_secs g) (owner_timeout_secs g) (has_membership_tx g) evs p
    (g_fetcher g) (g_handler g) (g_ads g) (g_sent g).
Definition set_fetcher (g : GossipCoordinator) f :=
  mkGossip (g_node_id g) (topic_senders g) (topic_owners g) (owned_topics g)
    (heartbeat_interval_secs g) (owner_timeout_secs g) (has_membership_tx g) (g_events g)
    (g_peers g) f (g_handler g) (g_ads g) (g_sent g).
Definition set_ads (g : GossipCoordinator) m :=
  mkGossip (g_node_id g) (topic_senders g) (topic_owners g) (owned_topics g)
    (heartbeat_interval_secs g) (owner_timeout_secs g) (has_membership_tx g) (g_events g)
    (g_peers g) (g_fetcher g) (g_handler g) m (g_sent g).
Definition add_sent (g : GossipCoordinator) x :=
  mkGossip (g_node_id g) (topic_senders g) (topic_owners g) (owned_topics g)
    (heartbeat_interval_secs g) (owner_timeout_secs g) (has_membership_tx g) (g_events g)
    (g_peers g) (g_fetcher g) (g_handler g) (g_ads g) (g_sent g ++ [x]).

Definition set_owned_topics (l : list string) (g : GossipCoordinator) := set_owned g l.

Definition set_intervals (heartbeat timeout : Z) (g : GossipCoordinator) :=
  mkGossip (g_node_id g) (topic_senders g) (topic_owners g) (owned_topics g) heartbeat timeout
    (has_membership_tx g) (g_events g) (g_peers g) (g_fetcher g) (g_handler g) (g_ads g) (g_sent g).

Definition heartbeat_interval (g : GossipCoordinator) : Z := heartbeat_interval_secs g.
Definition owner_timeout (g : GossipCoordinator) : Z := owner_timeout_secs g.
Definition is_functional (g : GossipCoordinator) : bool := true.
Definition advertisement_manager (g : GossipCoordinator) : AdvertisementManager := g_ads g.

Definition set_membership_channel (g : GossipCoordinator) :=
  mkGossip (g_node_id g) (topic_senders g) (topic_owners g) (owned_topics g)
    (heartbeat_interval_secs g) (owner_timeout_secs g) true (g_events g) (g_peers g)
    (g_fetcher g) (g_handler g) (g_ads g) (g_sent g).

Definition set_peer_fetcher (f : PeerFetcher) (g : GossipCoordinator) := set_fetcher g (Some f).

Context `{!Codec GossipMessage} `{!Codec PeerRequest} `{!Codec PeerResponse}.

(** ** Sending *)

(** Hand bytes to the sender of a topic; [bc] is how iroh's broadcast ends. *)
Definition send_bytes (bc : result string unit) (what : string) (id : TopicId) (b : bytes)
    (g : GossipCoordinator) : result GossipError unit * GossipCoordinator :=
  match bc with
  | Ok _ => (Ok tt, add_sent g (id, b))
  | Err e => (Err (GGossip (what +:+ e)), g)
  end.

Definition publish (bc : result string unit) (topic : string) (data : bytes)
    (g : GossipCoordinator) : result GossipError unit * GossipCoordinator :=
  match validate_topic topic with
  | Err e => (Err (GParse ("Invalid topic name: " +:+ DdlError_fmt e)), g)
  | Ok _ =>
      if bool_decide (MAX_MESSAGE_SIZE < Z.of_nat (length data)) then
        (Err (GSerialization ("Message too large: " +:+ pretty (length data) +:+
               " bytes (max: " +:+ pretty MAX_MESSAGE_SIZE +:+ ")")), g)
      else
        let id := derive_topic_id topic in
        if bool_decide (id ∈ topic_senders g) then send_bytes bc "Broadcast failed: " id data g
        else (Err (GNotSubscribed (topic_id_hex id)), g)
  end.

Definition broadcast_message (bc : result string unit) (id : TopicId) (msg : GossipMessage)
    (g : GossipCoordinator) : result GossipError unit * GossipCoordinator :=
  if bool_decide (id ∈ topic_senders g) then
    match enc msg with
    | None => (Err (GSerialization "json"), g)
    | Some b => send_bytes bc "Broadcast failed: " id b g
    end
  else (Err (GNotSubscribed (topic_id_hex id)), g).

Definition join_topic (sub : result string unit) (topic : string) (g : GossipCoordinator) :
    result GossipError unit * GossipCoordinator :=
  match validate_topic topic with
  | Err e => (Err (GParse ("Invalid topic name: " +:+ DdlError_fmt e)), g)
  | Ok _ =>
      let id := derive_topic_id topic in
      if bool_decide (id ∈ topic_senders g) then (Ok tt, g)
      else match sub with
      | Err e => (Err (GGossip ("Failed to subscribe: " +:+ e)), g)
      | Ok _ => (Ok tt, set_senders g ({[ id ]} ∪ topic_senders g))
      end
  end.

(** ** Receiving *)

Definition MAX_FUTURE_NANOS : Z := secs 60.

(** [timestamp > now.saturating_add(60s)] *)
Definition from_future (now timestamp : Z) : bool :=
  bool_decide (saturating_add now MAX_FUTURE_NANOS < timestamp).

(** The acceptance rule of claims. *)
Definition claim_wins (node_id ep : Z) (o : TopicOwnership) : bool :=
  bool_decide (epoch o < ep) ||
  (bool_decide (ep = epoch o) && bool_decide (node_id = owner_node_id o)) ||
  (bool_decide (ep = epoch o) && bool_decide (node_id < owner_node_id o)).

Definition handle_claim (now : Z) (topic : string) (topic_id : TopicId) (node_id ep timestamp : Z)
    (g : GossipCoordinator) : GossipCoordinator :=
  if from_future now timestamp then g
  else if bool_decide (topic_id = derive_topic_id topic) then
    let o := default (TopicOwnership_new now node_id) (topic_owners g !! topic) in
    let o' := if claim_wins node_id ep o then
                mkOwnership node_id ep (Z.max timestamp (claimed_at o))
                  (Z.max timestamp (last_heartbeat o))
              else o in
    set_owners g (<[topic := o']> (topic_owners g))
  else g.

Definition handle_release (topic : string) (node_id : Z) (g : GossipCoordinator) :
    GossipCoordinator :=
  match topic_owners g !! topic with
  | Some o => if bool_decide (owner_node_id o = node_id)
              then set_owners g (delete topic (topic_owners g)) else g
  | None => g
  end.

Definition handle_heartbeat (now : Z) (topic : string) (node_id ep timestamp : Z)
    (g : GossipCoordinator) : GossipCoordinator :=
  if from_future now timestamp then g
  else set_owners g (alter (λ o,
    if bool_decide (owner_node_id o = node_id) && bool_decide (ep = epoch o) then
      mkOwnership (owner_node_id o) (epoch o) (claimed_at o) (Z.max timestamp (last_heartbeat o))
    else o) topic (topic_owners g)).

Definition handle_announce (now node_id : Z) (topics : list string) (g : GossipCoordinator) :
    GossipCoordinator :=
  set_owners g (fold_left (λ m t, <[t := TopicOwnership_new now node_id]> m) topics
                  (topic_owners g)).

Definition handle_leave (node_id : Z) (g : GossipCoordinator) : GossipCoordinator :=
  set_owners g (filter (λ kv, owner_node_id kv.2 ≠ node_id) (topic_owners g)).

(** The response goes to a topic named after the requester and the request. *)
Definition response_topic (source request_id : Z) : string :=
  "peer.response." +:+ pretty source +:+ "." +:+ pretty request_id.

Definition handle_peer_request (bc : result string unit) (request_id source target : Z)
    (payload : bytes) (timestamp : Z) (g : GossipCoordinator) : GossipCoordinator :=
  if bool_decide (target = g_node_id g) then
    match decode_request payload, g_fetcher g, g_handler g with
    | Ok request, Some _, Some handler =>
        let reply success data err :=
          match enc (PeerResponseMsg request_id target success data timestamp err) with
          | Some b => (publish bc (response_topic source request_id) b g).2
          | None => g
          end in
        match handler request with
        | Ok response =>
            match encode_response response with
            | Ok data => reply true data None
            | Err _ => g
            end
        | Err e => reply false [] (Some e)
        end
    | _, _, _ => g
    end
  else g.

(** A query is answered by a log line only. *)
Definition handle_topic_query (topic : string) (requestor : Z) (g : GossipCoordinator) :
    GossipCoordinator := g.

Definition handle_topic_response (now : Z) (topic : string) (owner : option Z)
    (g : GossipCoordinator) : GossipCoordinator :=
  match owner with
  | Some owner => set_owners g (<[topic := TopicOwnership_new now owner]> (topic_owners g))
  | None => g
  end.

Definition handle_peer_response (r : PeerResponse) (g : GossipCoordinator) : GossipCoordinator :=
  match g_fetcher g with
  | Some f => set_fetcher g (Some (handle_response r f).2)
  | None => g
  end.

Definition handle_service_advertise (now : Z) (ad : ServiceAdvertisement) (g : GossipCoordinator) :
    GossipCoordinator := set_ads g (advertise now ad (g_ads g)).

Definition handle_gossip_message (now : Z) (bc : result string unit) (msg : GossipMessage)
    (g : GossipCoordinator) : GossipCoordinator :=
  match msg with
  | TopicClaim topic topic_id node_id ep timestamp =>
      handle_claim now topic topic_id node_id ep timestamp g
  | TopicRelease topic _ node_id => handle_release topic node_id g
  | TopicHeartbeat topic _ node_id ep timestamp => handle_heartbeat now topic node_id ep timestamp g
  | NodeAnnounce node_id _ topics => handle_announce now node_id topics g
  | NodeLeave node_id => handle_leave node_id g
  | TopicQuery topic requestor => handle_topic_query topic requestor g
  | TopicResponse topic owner => handle_topic_response now topic owner g
  | PeerRequestMsg request_id source target _ payload timestamp =>
      handle_peer_request bc request_id source target payload timestamp g
  | PeerResponseMsg request_id source success payload timestamp err =>
      handle_peer_response (mkPeerResponse request_id source success payload timestamp err) g
  | ServiceAdvertise node_id offered address timestamp =>
      handle_service_advertise now (mkAd node_id offered address timestamp) g
  end.

(** [handle_event] on received bytes; the other events only log.  The task of a
    topic works on the clone it took when the topic was joined: tables are
    shared with it, and the fetcher is the one set by then. *)
Definition handle_event (now : Z) (bc : result string unit) (content : bytes)
    (g : GossipCoordinator) : GossipCoordinator :=
  if bool_decide (MAX_MESSAGE_SIZE < Z.of_nat (length content)) then g
  else match dec content with
  | Some msg => handle_gossip_message now bc msg g
  | None => g
  end.

(** ** Calls *)

Definition g_claim_topic (now : Z) (bc : result string unit) (topic : string)
    (g : GossipCoordinator) : result GossipError unit * GossipCoordinator :=
  let o := default (TopicOwnership_new now (g_node_id g)) (topic_owners g !! topic) in
  (* both branches of the source bump the epoch and stamp the record *)
  let ep := saturating_add (epoch o) 1 in
  let g1 := set_owners g (<[topic := mkOwnership (g_node_id g) ep now now]> (topic_owners g)) in
  let g2 := set_owned g1 (if bool_decide (topic ∈ owned_topics g) then owned_topics g
                          else owned_topics g ++ [topic]) in
  let id := derive_topic_id topic in
  broadcast_message bc id (TopicClaim topic id (g_node_id g) ep now) g2.

Definition g_release_topic (bc : result string unit) (topic : string) (g : GossipCoordinator) :
    result GossipError unit * GossipCoordinator :=
  let g1 := set_owned g (retain_ne topic (owned_topics g)) in
  let g2 := set_owners g1 (delete topic (topic_owners g1)) in
  let id := derive_topic_id topic in
  broadcast_message bc id (TopicRelease topic id (g_node_id g)) g2.

Definition get_topic_owner (now : Z) (topic : string) (g : GossipCoordinator) : option Z :=
  o ← topic_owners g !! topic;
  if is_timed_out now (nanos_of_secs (owner_timeout_secs g)) o then None
  else Some (owner_node_id o).

Definition g_owns_topic (topic : string) (g : GossipCoordinator) : bool :=
  bool_decide (topic ∈ owned_topics g).

Definition query_topic_owner (bc : result string unit) (topic : string) (g : GossipCoordinator) :=
  broadcast_message bc (derive_topic_id topic) (TopicQuery topic (g_node_id g)) g.

(** [announce_node] stops at the first broadcast that fails; [bcs] is how the
    broadcast on each topic ends. *)
Fixpoint announce_each (bcs : TopicId → result string unit) (msg : GossipMessage)
    (ids : list TopicId) (g : GossipCoordinator) : result GossipError unit * GossipCoordinator :=
  match ids with
  | [] => (Ok tt, g)
  | id :: ids =>
      match enc msg with
      | None => (Err (GSerialization "json"), g)
      | Some b =>
          match send_bytes (bcs id) "Announce broadcast failed: " id b g with
          | (Ok _, g') => announce_each bcs msg ids g'
          | (Err e, g') => (Err e, g')
          end
      end
  end.

Definition announce_node `{HashOrder} (bcs : TopicId → result string unit) (bind_addr : string)
    (g : GossipCoordinator) : result GossipError unit * GossipCoordinator :=
  announce_each bcs (NodeAnnounce (g_node_id g) bind_addr (owned_topics g))
    (hm_keys (gset_to_gmap tt (topic_senders g))) g.

(** Broadcast if a sender is there; failures are only logged. *)
Definition try_broadcast (bc : result string unit) (id : TopicId) (msg : GossipMessage)
    (g : GossipCoordinator) : GossipCoordinator :=
  if bool_decide (id ∈ topic_senders g) then
    match enc msg with
    | Some b => (send_bytes bc "" id b g).2
    | None => g
    end
  else g.

(** ** Background tasks, one tick each *)

Definition heartbeat_tick (now : Z) (bc : result string unit) (g : GossipCoordinator) :
    GossipCoordinator :=
  fold_left (λ g topic,
    let ep := default 1 (epoch <$> topic_owners g !! topic) in
    let id := derive_topic_id topic in
    try_broadcast bc id (TopicHeartbeat topic id (g_node_id g) ep now) g) (owned_topics g) g.

(** The claim for one topic this node should own whose owner timed out. *)
Definition monitor_topic (now : Z) (bc : result string unit) (g : GossipCoordinator)
    (topic : string) : GossipCoordinator :=
  match topic_owners g !! topic with
  | Some o =>
      if is_timed_out now (nanos_of_secs (owner_timeout_secs g)) o &&
         bool_decide (owner_node_id o ≠ g_node_id g) then
        let ep := saturating_add (epoch o) 1 in
        let g1 := set_owners g (<[topic := mkOwnership (g_node_id g) ep now now]>
                                  (topic_owners g)) in
        let id := derive_topic_id topic in
        try_broadcast bc id (TopicClaim topic id (g_node_id g) ep now) g1
      else g
  | None => g
  end.

Definition ownership_monitor_tick (now : Z) (bc : result string unit) (g : GossipCoordinator) :
    GossipCoordinator :=
  fold_left (monitor_topic now bc) (owned_topics g) g.

(** The timeout is the one the task captured when the coordinator was made. *)
Definition cache_cleanup_tick (captured_timeout_secs now : Z) (g : GossipCoordinator) :
    GossipCoordinator :=
  let timeout := nanos_of_secs (u64_wrap (captured_timeout_secs * 2)) in
  set_owners g (filter (λ kv, is_timed_out now timeout kv.2 = false) (topic_owners g)).

Definition sender_cleanup_tick (g : GossipCoordinator) : GossipCoordinator :=
  let active : gset string := list_to_set (owned_topics g) ∪ dom (topic_owners g) in
  let ids : gset TopicId := set_map derive_topic_id active in
  set_senders g (filter (λ id, id ∈ ids) (topic_senders g)).

(** ** Peers *)

Definition emit_event (g : GossipCoordinator) (ev : MembershipEvent) : list MembershipEvent :=
  if has_membership_tx g then g_events g ++ [ev] else g_events g.

Definition peer_joined (now node_id : Z) (addr : string) (g : GossipCoordinator) :=
  set_peers g (<[node_id := mkPeer addr now]> (g_peers g)) (emit_event g (node_joined now node_id addr)).

Definition peer_left (now node_id : Z) (g : GossipCoordinator) :=
  set_peers g (delete node_id (g_peers g)) (emit_event g (node_left now node_id)).

Definition peer_failed (now node_id : Z) (g : GossipCoordinator) :=
  set_peers g (delete node_id (g_peers g)) (emit_event g (node_failed now node_id)).

Definition peer_heartbeat (now node_id : Z) (g : GossipCoordinator) :=
  set_peers g (alter (λ p, mkPeer (ip_addr p) now) node_id (g_peers g)) (g_events g).

Definition members (g : GossipCoordinator) : gmap Z NodeInfo :=
  map_imap (λ i p, Some (mkNodeInfo i (ip_addr p) (ip_last_seen p) false)) (g_peers g).

Definition failure_detection_tick `{HashOrder} (timeout_secs now : Z) (g : GossipCoordinator) :
    GossipCoordinator :=
  let failed := (filter (λ kv, secs timeout_secs < now - ip_last_seen kv.2)
                   (hm_iter (g_peers g))).*1 in
  fold_left (λ g i, peer_failed now i g) failed g.
End gossip.
