(* ===== verification/GossipProps.v ===== *)
(** * Properties of gossip ownership

    Order independence of claims, what protects and what breaks the epochs, and
    the life time of a claim at its own node. *)

From S2P Require Import Prelude RaftCluster DdlTypes Peer Gossip.
#[local] Open Scope Z_scope.

(** Inserting one value under every key of a list. *)
Lemma lookup_insert_all {V} (v : V) (ks : list string) (m : gmap string V) k :
  fold_left (λ m t, <[t := v]> m) ks m !! k = if decide (k ∈ ks) then Some v else m !! k.
Proof.
  revert m. induction ks as [|t ks IH]; intros m; simpl; [done|].
  rewrite IH. map_cases k t; repeat case_decide; try done; set_solver.
Qed.

Section claims.
Context `{TopicHash}.

(** A claim as it travels. *)
Record claim := mkClaim { cl_node : Z; cl_epoch : Z; cl_timestamp : Z }.

(** Claims of one topic handled one after the other, each with the receiver's
    clock at that moment. *)
Definition handle_claims (topic : string) (cs : list (Z * claim)) (g : GossipCoordinator) :
    GossipCoordinator :=
  fold_left (λ g '(now, c),
    handle_claim now topic (derive_topic_id topic) (cl_node c) (cl_epoch c) (cl_timestamp c) g) cs g.

(** Who a node believes owns the topic, and at which epoch. *)
Definition belief (topic : string) (g : GossipCoordinator) : option (Z * Z) :=
  (λ o, (owner_node_id o, epoch o)) <$> topic_owners g !! topic.

(** A later epoch wins; within an epoch the lower node id does. *)
Definition beats (c1 c2 : Z * Z) : bool :=
  bool_decide (c2.2 < c1.2) || (bool_decide (c1.2 = c2.2) && bool_decide (c1.1 ≤ c2.1)).

Definition merge_belief (b : option (Z * Z)) (c : Z * Z) : option (Z * Z) :=
  match b with
  | Some b => Some (if beats c b then c else b)
  | None => Some c
  end.

(** Claims receivers take seriously. *)
Definition claim_ok (nc : Z * claim) : Prop :=
  1 ≤ cl_epoch nc.2 ∧ from_future nc.1 (cl_timestamp nc.2) = false.

Lemma claim_wins_beats n ep o : claim_wins n ep o = beats (n, ep) (owner_node_id o, epoch o).
Proof. unfold claim_wins, beats; simpl. repeat case_bool_decide; try done; lia. Qed.

Lemma belief_handle_claim topic now c g :
  claim_ok (now, c) →
  belief topic (handle_claim now topic (derive_topic_id topic) (cl_node c) (cl_epoch c)
                  (cl_timestamp c) g) =
  merge_belief (belief topic g) (cl_node c, cl_epoch c).
Proof.
  intros [He Hf]. unfold handle_claim. simpl in *. rewrite Hf, bool_decide_true by done.
  unfold belief; simpl. rewrite lookup_insert_eq; simpl. rewrite claim_wins_beats.
  destruct (topic_owners g !! topic) as [o|]; simpl.
  - destruct (beats _ _); done.
  - destruct (beats (cl_node c, cl_epoch c) (cl_node c, 1)) eqn:Hb; simpl; [done|].
    revert Hb. unfold beats; simpl. repeat case_bool_decide; try done; try lia.
    all: by intros _; assert (cl_epoch c = 1) as -> by lia.
Qed.

Lemma belief_handle_claims topic cs g :
  Forall claim_ok cs →
  belief topic (handle_claims topic cs g) =
  fold_left merge_belief ((λ nc, (cl_node nc.2, cl_epoch nc.2)) <$> cs) (belief topic g).
Proof.
  unfold handle_claims. revert g. induction cs as [|[now c] cs IH]; intros g Hok; [done|].
  inversion Hok as [|?? Hc Hcs]; subst. simpl. rewrite IH by done.
  by rewrite belief_handle_claim.
Qed.

(** Merging is commutative in the claims. *)
Lemma merge_belief_comm b c1 c2 :
  merge_belief (merge_belief b c1) c2 = merge_belief (merge_belief b c2) c1.
Proof.
  destruct c1 as [n1 e1], c2 as [n2 e2]. unfold merge_belief.
  destruct b as [[n e]|]; unfold beats; simpl;
    repeat (case_bool_decide; simpl in *); try done; try (exfalso; lia); repeat f_equal; lia.
Qed.

Lemma fold_merge_perm cs1 cs2 b :
  cs1 ≡ₚ cs2 → fold_left merge_belief cs1 b = fold_left merge_belief cs2 b.
Proof.
  intros Hp. revert b. induction Hp; intros b; simpl; [done|done|by rewrite merge_belief_comm|].
  by rewrite IHHp1.
Qed.

Lemma beats_refl x : beats x x = true.
Proof. unfold beats. repeat (case_bool_decide; simpl); try done; lia. Qed.

Lemma beats_trans x y z : beats x y = true → beats y z = true → beats x z = true.
Proof. unfold beats. repeat (case_bool_decide; simpl); try done; lia. Qed.

Lemma beats_total x y : beats x y = false → beats y x = true.
Proof. unfold beats. repeat (case_bool_decide; simpl); try done; lia. Qed.

(** Merging keeps the best claim seen. *)
Lemma fold_merge_best cs b x :
  beats b x = true → ∃ b', fold_left merge_belief cs (Some b) = Some b' ∧ beats b' x = true.
Proof.
  revert b. induction cs as [|y cs IH]; intros b Hx; simpl; [eauto|].
  apply IH. destruct (beats y b) eqn:Hy; [|done]. by apply (beats_trans y b x).
Qed.

(** Claims converge. Two nodes with the same belief about a topic (say,
    none) that receive the same claims in different orders and at different
    times end with the same owner and the same epoch; the winner is the claim
    with the highest epoch and, within it, the lowest node id. *)
Theorem claims_converge (topic : string) (cs1 cs2 : list (Z * claim)) (g1 g2 : GossipCoordinator) :
  Forall claim_ok cs1 → Forall claim_ok cs2 → cs1.*2 ≡ₚ cs2.*2 →
  belief topic g1 = belief topic g2 →
  belief topic (handle_claims topic cs1 g1) = belief topic (handle_claims topic cs2 g2) ∧
  (∀ c, c ∈ cs1.*2 → ∃ b, belief topic (handle_claims topic cs1 g1) = Some b ∧
     beats b (cl_node c, cl_epoch c) = true).
Proof.
  intros H1 H2 Hp Hb. rewrite !belief_handle_claims, Hb by done. split.
  - apply fold_merge_perm.
    pose proof (fmap_Permutation (λ c, (cl_node c, cl_epoch c)) _ _ Hp) as Hp'.
    by rewrite <- !list_fmap_compose in Hp'.
  - intros c Hc. apply list_elem_of_fmap in Hc as ([now c'] & -> & Hin). simpl.
    apply list_elem_of_split in Hin as (l1 & l2 & ->).
    rewrite fmap_app, fold_left_app. simpl.
    destruct (fold_left merge_belief (_ <$> l1) _) as [b|]; simpl; apply fold_merge_best;
      [|apply beats_refl].
    destruct (beats (cl_node c', cl_epoch c') b) eqn:Hy; [apply beats_refl|by apply beats_total].
Qed.

(** Claims and heartbeats never move a topic back: after either, the record
    of a topic that had one has at least the epoch it had, at the same epoch an
    owner with at most the same id, and no earlier heartbeat; a heartbeat
    changes neither owner nor epoch. *)
Theorem claims_monotone (now : Z) (topic topic' : string) (id : TopicId) (n ep ts : Z)
    (g : GossipCoordinator) (o : TopicOwnership) :
  topic_owners g !! topic = Some o →
  (∃ o', topic_owners (handle_claim now topic' id n ep ts g) !! topic = Some o' ∧
     beats (owner_node_id o', epoch o') (owner_node_id o, epoch o) = true ∧
     last_heartbeat o ≤ last_heartbeat o') ∧
  (∃ o', topic_owners (handle_heartbeat now topic' n ep ts g) !! topic = Some o' ∧
     owner_node_id o' = owner_node_id o ∧ epoch o' = epoch o ∧
     last_heartbeat o ≤ last_heartbeat o').
Proof.
  intros Ho. pose proof (beats_refl (owner_node_id o, epoch o)). split.
  - unfold handle_claim. destruct (from_future now ts); [by exists o|].
    case_bool_decide; [|by exists o]. simpl.
    destruct (decide (topic' = topic)) as [->|Hne]; [|rewrite lookup_insert_ne by done; by exists o].
    rewrite lookup_insert_eq, Ho. simpl. rewrite claim_wins_beats.
    destruct (beats (n, ep) _) eqn:Hb; [|by exists o]. eexists. split_and!; [done|done|simpl; lia].
  - unfold handle_heartbeat. destruct (from_future now ts); [by exists o|]. simpl.
    destruct (decide (topic' = topic)) as [->|Hne]; [|rewrite lookup_alter_ne by done; by exists o].
    rewrite lookup_alter_eq, Ho. simpl. destruct (_ && _); [|by exists o].
    eexists. split_and!; try done. simpl. lia.
Qed.

(** But an announcement or a query response does. Either replaces the record
    of the topics it names by the sender's at epoch 1, whatever epoch they had
    reached, and a claim of an earlier epoch, rejected before, is then
    accepted. *)
Theorem announce_resets_epoch `{!Codec GossipMessage} `{!Codec PeerRequest} `{!Codec PeerResponse}
    (now now' : Z) (bc : result string unit) (topic addr : string) (topics : list string)
    (n n' ep ts : Z) (g : GossipCoordinator) (o : TopicOwnership) :
  topic_owners g !! topic = Some o → topic ∈ topics →
  1 < ep < epoch o → from_future now' ts = false →
  let stale := TopicClaim topic (derive_topic_id topic) n' ep ts in
  let announced := handle_gossip_message now bc (NodeAnnounce n addr topics) g in
  let answered := handle_gossip_message now bc (TopicResponse topic (Some n)) g in
  belief topic (handle_gossip_message now' bc stale g) = Some (owner_node_id o, epoch o) ∧
  belief topic announced = Some (n, 1) ∧
  belief topic answered = Some (n, 1) ∧
  belief topic (handle_gossip_message now' bc stale announced) = Some (n', ep).
Proof.
  intros Ho Hin Hep Hf stale announced answered.
  assert (Ha : topic_owners announced !! topic = Some (TopicOwnership_new now n)).
  { unfold announced; simpl. by rewrite lookup_insert_all, decide_True. }
  assert (Hstale : ∀ g', belief topic (handle_gossip_message now' bc stale g') =
    merge_belief (belief topic g') (n', ep)).
  { intros g'. apply (belief_handle_claim topic now' (mkClaim n' ep ts)). split; [simpl; lia|done]. }
  rewrite !Hstale. unfold belief. rewrite Ha, Ho. simpl. unfold beats; simpl.
  rewrite lookup_insert_eq; simpl. split_and!; try done;
    repeat (case_bool_decide; simpl); try done; lia.
Qed.
End claims.

(** ** The owner's own record *)

Section own_record.
Context `{TopicHash} `{!Codec GossipMessage} `{!Codec PeerRequest} `{!Codec PeerResponse}.

Lemma broadcast_message_owners bc id msg g :
  topic_owners (broadcast_message bc id msg g).2 = topic_owners g ∧
  owner_timeout_secs (broadcast_message bc id msg g).2 = owner_timeout_secs g ∧
  owned_topics (broadcast_message bc id msg g).2 = owned_topics g.
Proof.
  unfold broadcast_message, send_bytes.
  case_bool_decide; [|done]. destruct (enc msg); [|done]. by destruct bc.
Qed.

Lemma try_broadcast_owners bc id msg g :
  topic_owners (try_broadcast bc id msg g) = topic_owners g ∧
  owner_timeout_secs (try_broadcast bc id msg g) = owner_timeout_secs g.
Proof.
  unfold try_broadcast, send_bytes.
  case_bool_decide; [|done]. destruct (enc msg); [|done]. by destruct bc.
Qed.

Lemma heartbeat_tick_owners now bc g :
  topic_owners (heartbeat_tick now bc g) = topic_owners g ∧
  owner_timeout_secs (heartbeat_tick now bc g) = owner_timeout_secs g.
Proof.
  unfold heartbeat_tick. generalize (owned_topics g). intros l. revert g.
  induction l as [|t l IH]; intros g; simpl; [done|].
  set (g' := try_broadcast _ _ _ g). destruct (IH g') as [-> ->].
  apply try_broadcast_owners.
Qed.

Definition heartbeat_ticks (ticks : list (Z * result string unit)) (g : GossipCoordinator) :=
  fold_left (λ g '(now, bc), heartbeat_tick now bc g) ticks g.

Lemma heartbeat_ticks_owners ticks g :
  topic_owners (heartbeat_ticks ticks g) = topic_owners g ∧
  owner_timeout_secs (heartbeat_ticks ticks g) = owner_timeout_secs g.
Proof.
  unfold heartbeat_ticks. revert g. induction ticks as [|[now bc] ticks IH]; intros g; [done|].
  simpl. destruct (IH (heartbeat_tick now bc g)) as [-> ->]. apply heartbeat_tick_owners.
Qed.

(** An owner forgets itself. The heartbeats a node sends for its topics
    refresh the record at the other nodes only; at the owner the record keeps
    the time of the claim, so that after the owner timeout, however many
    heartbeats were sent, the owner no longer answers itself as the owner,
    although the topic is still in its list of owned topics. *)
Theorem owner_forgets_itself (now later : Z) (bc : result string unit) (topic : string)
    (ticks : list (Z * result string unit)) (g : GossipCoordinator) :
  0 ≤ now → nanos_of_secs (owner_timeout_secs g) < later - now →
  let g1 := (g_claim_topic now bc topic g).2 in
  let g2 := heartbeat_ticks ticks g1 in
  get_topic_owner now topic g1 = Some (g_node_id g) ∧
  g_owns_topic topic g1 = true ∧
  get_topic_owner later topic g2 = None.
Proof.
  intros Hnow Hlater g1 g2.
  assert (Ho : ∃ ep, topic_owners g1 !! topic = Some (mkOwnership (g_node_id g) ep now now) ∧
               owner_timeout_secs g1 = owner_timeout_secs g).
  { unfold g1, g_claim_topic. rewrite (proj1 (broadcast_message_owners _ _ _ _)).
    rewrite (proj1 (proj2 (broadcast_message_owners _ _ _ _))). simpl. rewrite lookup_insert_eq. eauto. }
  destruct Ho as (ep & Ho & Ht). destruct (heartbeat_ticks_owners ticks g1) as [Ho2 Ht2].
  fold g2 in Ho2, Ht2. split_and!.
  - unfold get_topic_owner, is_timed_out. rewrite Ho, Ht; simpl.
    rewrite bool_decide_false; [done|]. pose proof (u64_wrap_range (secs (owner_timeout_secs g))).
    unfold nanos_of_secs, saturating_sub, u64_ok in *. lia.
  - unfold g1, g_claim_topic, g_owns_topic.
    rewrite (proj2 (proj2 (broadcast_message_owners _ _ _ _))). simpl.
    apply bool_decide_eq_true. case_bool_decide; [done|]. apply elem_of_app. right. by left.
  - unfold get_topic_owner, is_timed_out. rewrite Ho2, Ho, Ht2, Ht; simpl.
    rewrite bool_decide_true; [done|]. unfold saturating_sub. lia.
Qed.
End own_record.

(** ** Concrete runs *)

Section concrete.

(** Names as their own ids. *)
#[local] Instance name_hash : TopicHash :=
  {| TopicId := string; derive_topic_id t := t; topic_id_hex t := t |}.

(** A wire format that refuses every message. *)
#[local] Program Instance no_codec T : Codec T := {| enc _ := None; dec _ := None |}.
Next Obligation. done. Qed.

Lemma claims_converge_witness :
  belief "t" (handle_claims "t" [(9, mkClaim 5 2 3); (9, mkClaim 4 2 3)] (gossip_new 1)) =
  belief "t" (handle_claims "t" [(8, mkClaim 4 2 3); (7, mkClaim 5 2 3)] (gossip_new 2)).
Proof.
  refine (proj1 (claims_converge "t" [(9, mkClaim 5 2 3); (9, mkClaim 4 2 3)]
    [(8, mkClaim 4 2 3); (7, mkClaim 5 2 3)] (gossip_new 1) (gossip_new 2) _ _ _ _)).
  - repeat constructor; by vm_compute.
  - repeat constructor; by vm_compute.
  - apply perm_swap.
  - reflexivity.
Defined.

Definition epoch_five : GossipCoordinator :=
  set_owners (gossip_new 1) {[ "t" := mkOwnership 3 5 0 0 ]}.

Lemma claims_monotone_witness :
  ∃ o', topic_owners (handle_claim 9 "t" "t" 2 6 8 epoch_five) !! "t" = Some o' ∧
    beats (owner_node_id o', epoch o') (3, 5) = true ∧ 0 ≤ last_heartbeat o'.
Proof.
  refine (proj1 (claims_monotone 9 "t" "t" "t" 2 6 8 epoch_five (mkOwnership 3 5 0 0) _)).
  reflexivity.
Defined.

Lemma announce_resets_epoch_witness :
  belief "t" (handle_gossip_message 9 (Ok tt) (TopicClaim "t" "t" 8 2 3)
    (handle_gossip_message 9 (Ok tt) (NodeAnnounce 7 "a" ["t"]) epoch_five)) = Some (8, 2).
Proof.
  refine (proj2 (proj2 (proj2 (announce_resets_epoch 9 9 (Ok tt) "t" "a" ["t"] 7 8 2 3 epoch_five
    (mkOwnership 3 5 0 0) _ _ _ _)))).
  - reflexivity.
  - left.
  - by vm_compute.
  - reflexivity.
Defined.

Lemma owner_forgets_itself_witness :
  get_topic_owner 40000000000 "t"
    (heartbeat_ticks [(5000000000, Ok tt); (35000000000, Ok tt)]
       (g_claim_topic 0 (Ok tt) "t" (gossip_new 1)).2) = None.
Proof.
  refine (proj2 (proj2 (owner_forgets_itself 0 40000000000 (Ok tt) "t"
    [(5000000000, Ok tt); (35000000000, Ok tt)] (gossip_new 1) _ _))); by vm_compute.
Defined.
End concrete.
