(* ===== verification/GossipTasks.v ===== *)
(** * The background tasks of the gossip coordinator (src/gossip.rs)

    Every periodic task and every message loop of a topic is spawned with a
    receiver of the shutdown signal, and its handle is kept: in the list of
    handles, or for the heartbeat in a cell of its own.  Handlers of peer requests
    are spawned without either.  Tasks live in a store; handles are indices. *)

From S2P Require Import Prelude.

Inductive TaskKind :=
| TopicLoop | Heartbeat | FailureDetection | OwnershipMonitor | TaskCleanup | CacheCleanup
| SenderCleanup | RequestHandler.

#[export] Instance TaskKind_eq_dec : EqDecision TaskKind.
Proof. solve_decision. Defined.

(** Whether a shutdown signal waits in the task's receiver, and whether it ended. *)
Record Task := mkTask { tk_kind : TaskKind; tk_signalled : bool; tk_finished : bool }.

Record Tasks := mkTasks {
  ts_tasks : list Task;
  task_handles : list nat;
  heartbeat_handle : option nat;
}.

Definition tasks_new : Tasks := mkTasks [] [] None.

Definition spawned (k : TaskKind) (t : Tasks) : list Task := ts_tasks t ++ [mkTask k false false].

(** The end of [join_topic] and of the [start_] functions but one. *)
Definition spawn_kept (k : TaskKind) (t : Tasks) : Tasks :=
  mkTasks (spawned k t) (task_handles t ++ [length (ts_tasks t)]) (heartbeat_handle t).

Definition start_failure_detection : Tasks → Tasks := spawn_kept FailureDetection.
Definition start_ownership_monitor : Tasks → Tasks := spawn_kept OwnershipMonitor.
Definition start_task_cleanup : Tasks → Tasks := spawn_kept TaskCleanup.
Definition start_cache_cleanup : Tasks → Tasks := spawn_kept CacheCleanup.
Definition start_sender_cleanup : Tasks → Tasks := spawn_kept SenderCleanup.

(** [start_heartbeat]: the new handle replaces an earlier one. *)
Definition start_heartbeat (t : Tasks) : Tasks :=
  mkTasks (spawned Heartbeat t) (task_handles t) (Some (length (ts_tasks t))).

(** The task that answers a peer request keeps no handle and no receiver. *)
Definition spawn_request (t : Tasks) : Tasks :=
  mkTasks (spawned RequestHandler t) (task_handles t) (heartbeat_handle t).

Definition finish (x : Task) : Task := mkTask (tk_kind x) (tk_signalled x) true.

(** A task ends: a request is answered, or the stream of a topic ends. *)
Definition task_ends (i : nat) (t : Tasks) : Tasks :=
  mkTasks (alter (λ x, match tk_kind x with TopicLoop | RequestHandler => finish x | _ => x end) i
             (ts_tasks t)) (task_handles t) (heartbeat_handle t).

(** The branch [_ = shutdown_rx.recv() => break] of a task. *)
Definition task_sees_signal (i : nat) (t : Tasks) : Tasks :=
  mkTasks (alter (λ x, if tk_signalled x then finish x else x) i (ts_tasks t))
    (task_handles t) (heartbeat_handle t).

Definition is_finished (t : Tasks) (h : nat) : bool :=
  match ts_tasks t !! h with Some x => tk_finished x | None => true end.

(** One tick of the task cleanup. *)
Definition task_cleanup_tick (t : Tasks) : Tasks :=
  mkTasks (ts_tasks t) (filter (λ h, is_finished t h = false) (task_handles t)) (heartbeat_handle t).

(** Sending the signal reaches every receiver there is. *)
Definition signal (x : Task) : Task :=
  match tk_kind x with
  | RequestHandler => x
  | _ => mkTask (tk_kind x) true (tk_finished x)
  end.

Definition abort_all (hs : list nat) (xs : list Task) : list Task :=
  foldl (λ xs h, alter finish h xs) xs hs.

Definition gossip_shutdown (t : Tasks) : Tasks :=
  mkTasks (abort_all (option_list (heartbeat_handle t)) (abort_all (task_handles t) (signal <$> ts_tasks t)))
    (task_handles t) None.

(** ** What a shutdown stops *)

Inductive gstep : Tasks → Tasks → Prop :=
| gs_spawn k t : k ≠ Heartbeat → k ≠ RequestHandler → gstep t (spawn_kept k t)
| gs_heartbeat t : gstep t (start_heartbeat t)
| gs_request t : gstep t (spawn_request t)
| gs_ends i t : gstep t (task_ends i t)
| gs_sees i t : gstep t (task_sees_signal i t)
| gs_cleanup t : gstep t (task_cleanup_tick t)
| gs_shutdown t : gstep t (gossip_shutdown t).

(** A running loop has its handle in the list; heartbeats may have lost theirs,
    and those no longer held have the signal or their turn to get it. *)
Definition handles_ok (t : Tasks) : Prop :=
  ∀ i x, ts_tasks t !! i = Some x → tk_finished x = false →
    tk_kind x = Heartbeat ∨ tk_kind x = RequestHandler ∨ i ∈ task_handles t.

Lemma lookup_abort_all hs xs i :
  abort_all hs xs !! i = (if decide (i ∈ hs) then finish else id) <$> xs !! i.
Proof.
  revert xs. induction hs as [|h hs IH]; intros xs; cbn [abort_all foldl].
  { rewrite decide_False by apply not_elem_of_nil. by rewrite option_fmap_id. }
  change (foldl _ _ hs) with (abort_all hs (alter finish h xs)). rewrite IH.
  destruct (decide (i = h)) as [->|Hne].
  - rewrite list_lookup_alter_eq, (decide_True (P := h ∈ h :: hs)) by left.
    case_decide; destruct (xs !! h); done.
  - rewrite list_lookup_alter_ne by done. repeat case_decide; try done; set_solver.
Qed.

Lemma handles_ok_alter f i t :
  (∀ x, tk_kind (f x) = tk_kind x) → (∀ x, tk_finished (f x) = false → tk_finished x = false) →
  handles_ok t → handles_ok (mkTasks (alter f i (ts_tasks t)) (task_handles t) (heartbeat_handle t)).
Proof.
  intros Hk Hf Hok j x Hj Hfin. simpl in *. destruct (decide (i = j)) as [->|Hne].
  - rewrite list_lookup_alter_eq in Hj. apply fmap_Some in Hj as (y & Hy & ->).
    rewrite Hk. apply (Hok j y); auto.
  - rewrite list_lookup_alter_ne in Hj by done. by apply (Hok j).
Qed.

Lemma gstep_ok t t' : gstep t t' → handles_ok t → handles_ok t'.
Proof.
  destruct 1 as [k t|t|t|i t|i t|t|t]; intros Hok.
  1-3: intros i x [[_ Hi]|[-> <-]]%lookup_snoc_Some Hf; simpl;
    [destruct (Hok i x Hi Hf) as [?|[?|?]]; set_solver|set_solver].
  - apply handles_ok_alter; [| |done]; intros x; by destruct x as [[] ? ?].
  - apply handles_ok_alter; [| |done]; intros [? [] ?]; done.
  - intros i x Hi Hf. simpl in *. destruct (Hok i x Hi Hf) as [?|[?|?]]; [auto..|].
    right; right. apply list_elem_of_filter. split; [|done]. unfold is_finished. by rewrite Hi.
  - intros i x. simpl. rewrite !lookup_abort_all, list_lookup_fmap. intros Hi Hf.
    destruct (ts_tasks t !! i) as [y|] eqn:Hy; [|done]. simpl in Hi. simplify_eq.
    destruct (Hok i y Hy) as [Hk|[Hk|Hk]].
    + destruct y as [[] ? []]; repeat case_decide; done.
    + left. destruct y as [[] ? ?]; repeat case_decide; done.
    + right; left. destruct y as [[] ? ?]; repeat case_decide; done.
    + by right; right.
Qed.

(** A shutdown ends every loop but those of earlier heartbeats at once; these,
    too, end when they next look at their receiver.  Handlers of requests run on. *)
Lemma shutdown_stops_loops t i x :
  rtc gstep tasks_new t → ts_tasks (gossip_shutdown t) !! i = Some x → tk_finished x = false →
  tk_kind x = RequestHandler ∨
  (tk_kind x = Heartbeat ∧ heartbeat_handle t ≠ Some i ∧
   tk_finished <$> ts_tasks (task_sees_signal i (gossip_shutdown t)) !! i = Some true).
Proof.
  intros Hr Hi Hf.
  assert (handles_ok t) as Hok.
  { clear Hi. revert t Hr. apply rtc_ind_r; [intros i' x' Hx; by destruct i'|].
    intros; by eapply gstep_ok. }
  unfold task_sees_signal. cbn [ts_tasks]. rewrite list_lookup_alter_eq, Hi. simpl.
  unfold gossip_shutdown in Hi. cbn [ts_tasks] in Hi. rewrite !lookup_abort_all, list_lookup_fmap in Hi.
  destruct (ts_tasks t !! i) as [y|] eqn:Hy; [|done]. simpl in Hi. simplify_eq.
  destruct (decide (i ∈ option_list (heartbeat_handle t))) as [Hh|Hh]; [done|].
  destruct (decide (i ∈ task_handles t)) as [Hh'|Hh']; [done|]. simpl in *.
  assert (tk_finished y = false) as Hfy by (by destruct y as [[] ? ?]).
  destruct (Hok i y Hy Hfy) as [Hk|[Hk|Hk]]; [right|left|done].
  - destruct y as [k ? ?]. simpl in *. subst. split_and!; [done| |done].
    intros He. apply Hh. rewrite He. by apply list_elem_of_singleton.
  - by destruct y as [[] ? ?].
Qed.

(** A task started after the shutdown knows nothing of it. *)
Lemma started_after_shutdown_runs t :
  last (ts_tasks (start_ownership_monitor (gossip_shutdown t))) =
    Some (mkTask OwnershipMonitor false false).
Proof. apply last_snoc. Qed.
