(* ===== verification/GossipNetwork.v ===== *)
(** * Coordinators that gossip (src/gossip.rs)

    Several gossip coordinators and the messages between them.  What a node
    broadcast may reach any node at any time, any number of times, in any order,
    or never: delivery is an event that picks a message any node ever sent.  The
    events are calls and background ticks of one node each; a run is a list of
    events from nodes just made. *)

From S2P Require Import Prelude RaftCluster DdlTypes Peer Gossip GossipProps.
#[local] Open Scope Z_scope.

(** Of two claims that beat each other there is only one. *)
Lemma beats_antisymm x y : beats x y = true → beats y x = true → x = y.
Proof.
  destruct x as [n e], y as [n' e']. unfold beats; simpl.
  repeat (case_bool_decide; simpl); try done; intros _ _; f_equal; lia.
Qed.

Section network.
Context `{TopicHash} `{!Codec GossipMessage} `{!Codec PeerRequest} `{!Codec PeerResponse}.

(** ** Events *)

Inductive NetEvent :=
| NJoin (i : nat) (sub : result string unit) (topic : string)
| NClaim (i : nat) (now : Z) (bc : result string unit) (topic : string)
| NHeartbeat (i : nat) (now : Z) (bc : result string unit)
| NMonitor (i : nat) (now : Z) (bc : result string unit)
| NQuery (i : nat) (bc : result string unit) (topic : string)
| NSenderCleanup (i : nat)
| NCacheCleanup (i : nat) (captured_timeout_secs now : Z)
| NDeliver (i j k : nat) (now : Z) (bc : result string unit).

(** The [k]-th message node [j] sent. *)
Definition sent_by (j k : nat) (ns : list GossipCoordinator) : option (TopicId * bytes) :=
  g ← ns !! j; g_sent g !! k.

Definition net_step (ns : list GossipCoordinator) (ev : NetEvent) : list GossipCoordinator :=
  match ev with
  | NJoin i sub topic => alter (λ g, (join_topic sub topic g).2) i ns
  | NClaim i now bc topic => alter (λ g, (g_claim_topic now bc topic g).2) i ns
  | NHeartbeat i now bc => alter (heartbeat_tick now bc) i ns
  | NMonitor i now bc => alter (ownership_monitor_tick now bc) i ns
  | NQuery i bc topic => alter (λ g, (query_topic_owner bc topic g).2) i ns
  | NSenderCleanup i => alter sender_cleanup_tick i ns
  | NCacheCleanup i timeout now => alter (cache_cleanup_tick timeout now) i ns
  | NDeliver i j k now bc =>
      match sent_by j k ns with
      | Some (_, content) => alter (handle_event now bc content) i ns
      | None => ns
      end
  end.

Definition net_run (evs : list NetEvent) (ns : list GossipCoordinator) : list GossipCoordinator :=
  fold_left net_step evs ns.

(** A cleanup of the table of owners that finds no record too old to keep. *)
Definition harmless (ev : NetEvent) (ns : list GossipCoordinator) : Prop :=
  match ev with
  | NCacheCleanup i timeout now =>
      ∀ g, ns !! i = Some g → topic_owners (cache_cleanup_tick timeout now g) = topic_owners g
  | _ => True
  end.

Fixpoint nothing_expires (evs : list NetEvent) (ns : list GossipCoordinator) : Prop :=
  match evs with
  | [] => True
  | ev :: evs => harmless ev ns ∧ nothing_expires evs (net_step ns ev)
  end.

(** Events in which no node claims anything. *)
Definition quiet (ev : NetEvent) : bool :=
  match ev with NClaim _ _ _ _ | NMonitor _ _ _ => false | _ => true end.

(** ** Knowledge *)

(** The node holds the claim or one that beats it. *)
Definition knows (t : string) (c : Z * Z) (g : GossipCoordinator) : Prop :=
  ∃ b, belief t g = Some b ∧ beats b c = true.

(** The beliefs of a node only go up. *)
Definition learns (g g' : GossipCoordinator) : Prop := ∀ t c, knows t c g → knows t c g'.

#[local] Instance learns_preorder : PreOrder learns.
Proof. split; [by intros ???|]. intros g1 g2 g3 H12 H23 t c Hk. by apply H23, H12. Qed.

Lemma belief_eq_learns g g' : (∀ t, belief t g' = belief t g) → learns g g'.
Proof. intros Hb t c. unfold knows. by rewrite Hb. Qed.

Lemma belief_owners t g g' : topic_owners g' = topic_owners g → belief t g' = belief t g.
Proof. unfold belief. by intros ->. Qed.

Lemma knows_self t b g : belief t g = Some b → knows t b g.
Proof. exists b. by rewrite beats_refl. Qed.

(** What a node may send in such a run: claims of its own that it knows of, and
    messages that change nobody's belief. *)
Definition msg_ok (B : Z) (g : GossipCoordinator) (msg : GossipMessage) : Prop :=
  match msg with
  | TopicClaim t id n e _ =>
      id = derive_topic_id t ∧ n = g_node_id g ∧ 1 ≤ e ≤ B ∧ knows t (n, e) g
  | TopicHeartbeat _ _ _ _ _ | TopicQuery _ _ => True
  | _ => False
  end.

(** Epochs up to [B], and only such messages sent. *)
Record node_ok (B : Z) (g : GossipCoordinator) : Prop := {
  nk_epochs t b : belief t g = Some b → 1 ≤ b.2 ≤ B;
  nk_sent x msg : x ∈ g_sent g → dec x.2 = Some msg → msg_ok B g msg;
}.

(** Every node is, and whoever is believed to own a topic claimed it. *)
Record net_ok (B : Z) (ns : list GossipCoordinator) : Prop := {
  nt_nodes i g : ns !! i = Some g → node_ok B g;
  nt_claimed i g t b : ns !! i = Some g → belief t g = Some b →
    ∃ j g', ns !! j = Some g' ∧ g_node_id g' = b.1 ∧ knows t b g';
}.

Lemma msg_ok_mono B B' g g' msg :
  B ≤ B' → g_node_id g' = g_node_id g → learns g g' → msg_ok B g msg → msg_ok B' g' msg.
Proof.
  intros HB Hid Hl. destruct msg; simpl; try done. rewrite Hid. intros (? & ? & ? & ?).
  split_and!; [done|done|lia|lia|by apply Hl].
Qed.

(** ** What one node does *)

(** [g'] is [g] and claims made by the node itself, one epoch up at most, and
    the messages about them. *)
Record claims_from (B : Z) (g g' : GossipCoordinator) : Prop := {
  cf_id : g_node_id g' = g_node_id g;
  cf_belief t : belief t g' = belief t g ∨
    ∃ e, belief t g' = Some (g_node_id g, e) ∧ 1 ≤ e ≤ B + 1 ∧
      ∀ b, belief t g = Some b → beats (g_node_id g, e) b = true;
  cf_sent x : x ∈ g_sent g' → x ∈ g_sent g ∨ ∃ msg, enc msg = Some x.2 ∧ msg_ok (B + 1) g' msg;
}.

Lemma claims_from_refl B g : claims_from B g g.
Proof. split; auto. Qed.

Lemma claims_from_learns B g g' : claims_from B g g' → learns g g'.
Proof.
  intros Hc t c (b & Hb & Hbc). destruct (cf_belief _ _ _ Hc t) as [He|(e & He & _ & Hbt)].
  - exists b. by rewrite He.
  - eexists. split; [done|]. by apply (beats_trans _ b), Hbc; apply Hbt.
Qed.

(** Sending is [g] or one message more. *)
Definition sends (id : TopicId) (msg : GossipMessage) (g g' : GossipCoordinator) : Prop :=
  g' = g ∨ ∃ b, enc msg = Some b ∧ g' = add_sent g (id, b).

Lemma broadcast_message_sends bc id msg g : sends id msg g (broadcast_message bc id msg g).2.
Proof.
  unfold broadcast_message, send_bytes, sends. case_bool_decide; [|by left].
  destruct (enc msg) as [b|]; [|by left]. destruct bc; [right; eauto|by left].
Qed.

Lemma try_broadcast_sends bc id msg g : sends id msg g (try_broadcast bc id msg g).
Proof.
  unfold try_broadcast, send_bytes, sends. case_bool_decide; [|by left].
  destruct (enc msg) as [b|]; [|by left]. destruct bc; [right; eauto|by left].
Qed.

Lemma claims_from_sends B g g1 g2 id msg :
  claims_from B g g1 → msg_ok (B + 1) g1 msg → sends id msg g1 g2 → claims_from B g g2.
Proof.
  intros Hc Hm [->|(b & Hb & ->)]; [done|]. destruct Hc as [Hid Hbel Hs]. split; [done|done|].
  intros x [Hx| ->%list_elem_of_singleton]%elem_of_app.
  - destruct (Hs x Hx) as [?|(msg' & ? & Hm')]; [by left|]. right. exists msg'. split; [done|].
    revert Hm'. by apply msg_ok_mono; [lia|..|intros ???].
  - right. exists msg. split; [done|]. revert Hm. by apply msg_ok_mono; [lia|..|intros ???].
Qed.

(** A claim of a topic the node has not claimed yet in this step. *)
Lemma claims_from_claim B g g1 t now :
  node_ok B g → 1 ≤ B → B + 1 < U64_MAX → claims_from B g g1 → belief t g1 = belief t g →
  let e := saturating_add (default 1 (epoch <$> topic_owners g1 !! t)) 1 in
  let g2 := set_owners g1 (<[t := mkOwnership (g_node_id g1) e now now]> (topic_owners g1)) in
  claims_from B g g2 ∧ msg_ok (B + 1) g2 (TopicClaim t (derive_topic_id t) (g_node_id g1) e now).
Proof.
  intros Hok HB1 HB Hc Ht e g2.
  assert (He : 1 ≤ e ≤ B + 1 ∧ ∀ b, belief t g = Some b → beats (g_node_id g, e) b = true).
  { unfold e. pose proof (nk_epochs _ _ Hok t) as Hep. rewrite <- Ht in *. unfold belief in *.
    destruct (topic_owners g1 !! t) as [o|]; simpl in *.
    - specialize (Hep _ eq_refl). simpl in Hep. unfold saturating_add in *.
      split; [lia|]. intros b [= <-]. unfold beats; simpl. rewrite bool_decide_true; [done|lia].
    - unfold saturating_add. split; [lia|done]. }
  destruct He as [He Hbt]. destruct Hc as [Hid Hbel Hs].
  assert (Hb2 : ∀ t', belief t' g2 = if decide (t' = t) then Some (g_node_id g, e) else belief t' g1).
  { intros t'. unfold g2, belief. simpl. rewrite Hid. case_decide as Hd; [subst|];
      [by rewrite lookup_insert_eq|by rewrite lookup_insert_ne]. }
  assert (learns g1 g2) as Hl.
  { intros t' c (b & Hb & Hbc). unfold knows. rewrite Hb2. case_decide as Hd; [|by exists b].
    subst. eexists. split; [done|]. apply (beats_trans _ b); [|done]. apply Hbt. by rewrite <- Ht. }
  split; [split|].
  - done.
  - intros t'. rewrite Hb2. case_decide; [subst; right; eauto|]. apply Hbel.
  - intros x [?|(msg & ? & Hm)]%Hs; [by left|]. right. exists msg. split; [done|].
    revert Hm. by apply msg_ok_mono; [lia|..].
  - simpl. split_and!; [done|done|lia|lia|]. apply knows_self. rewrite Hb2, decide_True by done.
    by rewrite Hid.
Qed.

(** The local part of an event: the node and what it does. *)
Definition local_step (ev : NetEvent) : option (nat * (GossipCoordinator → GossipCoordinator)) :=
  match ev with
  | NJoin i sub topic => Some (i, λ g, (join_topic sub topic g).2)
  | NClaim i now bc topic => Some (i, λ g, (g_claim_topic now bc topic g).2)
  | NHeartbeat i now bc => Some (i, heartbeat_tick now bc)
  | NMonitor i now bc => Some (i, ownership_monitor_tick now bc)
  | NQuery i bc topic => Some (i, λ g, (query_topic_owner bc topic g).2)
  | NSenderCleanup i => Some (i, sender_cleanup_tick)
  | NCacheCleanup i timeout now => Some (i, cache_cleanup_tick timeout now)
  | NDeliver _ _ _ _ _ => None
  end.

Lemma net_step_local ev i f ns : local_step ev = Some (i, f) → net_step ns ev = alter f i ns.
Proof. by destruct ev; intros [= <- <-]. Qed.

Section local.
Context (B : Z) (g : GossipCoordinator).
Context (Hok : node_ok B g) (HB1 : 1 ≤ B) (HB : B + 1 < U64_MAX).

Lemma claims_from_eq g1 g2 :
  claims_from B g g1 → g_node_id g2 = g_node_id g1 → topic_owners g2 = topic_owners g1 →
  g_sent g2 = g_sent g1 → claims_from B g g2.
Proof.
  intros [Hid Hbel Hs] Hid2 Ho Hs2. split; [congruence| |].
  - intros t. rewrite (belief_owners t g1 g2 Ho). apply Hbel.
  - rewrite Hs2. intros x [?|(msg & ? & Hm)]%Hs; [by left|]. right. exists msg. split; [done|].
    revert Hm. apply msg_ok_mono; [lia|done|]. apply belief_eq_learns. intros t. by apply belief_owners.
Qed.

Lemma g_claim_topic_claims now bc t : claims_from B g (g_claim_topic now bc t g).2.
Proof.
  destruct (claims_from_claim B g g t now Hok HB1 HB (claims_from_refl B g) eq_refl) as [Hc Hm].
  unfold g_claim_topic.
  assert (epoch (default (TopicOwnership_new now (g_node_id g)) (topic_owners g !! t)) =
          default 1 (epoch <$> topic_owners g !! t)) as ->
    by (by destruct (topic_owners g !! t)).
  eapply claims_from_sends; [| |apply broadcast_message_sends]; [by eapply claims_from_eq|].
  revert Hm. by apply msg_ok_mono; [lia|..|intros ???].
Qed.

Lemma monitor_topic_claims now bc t g1 :
  claims_from B g g1 → claims_from B g (monitor_topic now bc g1 t).
Proof.
  intros Hc. unfold monitor_topic.
  destruct (topic_owners g1 !! t) as [o|] eqn:Ho; [|done].
  destruct (is_timed_out _ _ o); simpl; [|done]. case_bool_decide as Hn; [|done].
  assert (belief t g1 = Some (owner_node_id o, epoch o)) as Hb by (unfold belief; by rewrite Ho).
  assert (belief t g1 = belief t g) as Ht.
  { destruct (cf_belief _ _ _ Hc t) as [?|(e & He & _)]; [done|]. rewrite Hb in He.
    injection He as He _. by rewrite (cf_id _ _ _ Hc) in Hn. }
  destruct (claims_from_claim B g g1 t now Hok HB1 HB Hc Ht) as [Hc' Hm]. rewrite Ho in Hc', Hm.
  eapply claims_from_sends; [exact Hc'|exact Hm|apply try_broadcast_sends].
Qed.

Lemma heartbeat_tick_claims now bc : claims_from B g (heartbeat_tick now bc g).
Proof.
  unfold heartbeat_tick. generalize (owned_topics g). pose proof (claims_from_refl B g) as Hc.
  revert Hc. generalize g at 2 4 as g1. intros g1 Hc l. revert g1 Hc.
  induction l as [|t l IH]; intros g1 Hc; simpl; [done|]. apply IH.
  by eapply claims_from_sends; [done| |apply try_broadcast_sends].
Qed.

Lemma monitor_tick_claims now bc : claims_from B g (ownership_monitor_tick now bc g).
Proof.
  unfold ownership_monitor_tick. generalize (owned_topics g). pose proof (claims_from_refl B g) as Hc.
  revert Hc. generalize g at 2 4 as g1. intros g1 Hc l. revert g1 Hc.
  induction l as [|t l IH]; intros g1 Hc; simpl; [done|]. by apply IH, monitor_topic_claims.
Qed.

Lemma join_topic_same sub t :
  g_node_id (join_topic sub t g).2 = g_node_id g ∧
  topic_owners (join_topic sub t g).2 = topic_owners g ∧ g_sent (join_topic sub t g).2 = g_sent g.
Proof.
  unfold join_topic. destruct (validate_topic t); [|done]. case_bool_decide; [done|]. by destruct sub.
Qed.

Lemma local_step_claims ev i f ns :
  local_step ev = Some (i, f) → ns !! i = Some g → harmless ev ns → claims_from B g (f g).
Proof.
  destruct ev; intros [= <- <-] Hg Hh.
  - destruct (join_topic_same sub topic) as (? & ? & ?).
    by eapply claims_from_eq; [apply claims_from_refl|..].
  - apply g_claim_topic_claims.
  - apply heartbeat_tick_claims.
  - apply monitor_tick_claims.
  - by eapply claims_from_sends; [apply claims_from_refl| |apply broadcast_message_sends].
  - by eapply claims_from_eq; [apply claims_from_refl|..].
  - eapply claims_from_eq; [apply claims_from_refl|done|by apply Hh|done].
Qed.

Lemma node_ok_claims g' : claims_from B g g' → node_ok (B + 1) g'.
Proof.
  intros Hc. pose proof (claims_from_learns _ _ _ Hc) as Hl. split.
  - intros t b Hb. destruct (cf_belief _ _ _ Hc t) as [He|(e & He & Hr & _)].
    + rewrite He in Hb. pose proof (nk_epochs _ _ Hok t b Hb). lia.
    + rewrite He in Hb. by injection Hb as <-.
  - intros x msg Hx Hd. destruct (cf_sent _ _ _ Hc x Hx) as [Hx'|(msg' & Hm & Hok')].
    + pose proof (nk_sent _ _ Hok x msg Hx' Hd) as Hm. revert Hm.
      apply msg_ok_mono; [lia|apply Hc|done].
    + apply dec_enc in Hm. by simplify_eq.
Qed.
End local.

(** Events that claim nothing leave the tables of their node alone. *)
Lemma quiet_owners ev i f g ns :
  local_step ev = Some (i, f) → ns !! i = Some g → harmless ev ns → quiet ev = true →
  topic_owners (f g) = topic_owners g.
Proof.
  destruct ev; intros [= <- <-] Hg Hh; try done; intros _.
  - apply join_topic_same.
  - apply heartbeat_tick_owners.
  - apply broadcast_message_owners.
  - by apply Hh.
Qed.

(** ** Deliveries *)

Lemma belief_handle_heartbeat t now topic n ep ts g :
  belief t (handle_heartbeat now topic n ep ts g) = belief t g.
Proof.
  unfold handle_heartbeat, belief. destruct (from_future now ts); [done|]. simpl.
  destruct (decide (topic = t)) as [->|Hne]; [|by rewrite lookup_alter_ne].
  rewrite lookup_alter_eq. destruct (topic_owners g !! t) as [o|]; [|done]. simpl.
  by destruct (_ && _).
Qed.

(** A claim changes at most the belief about its topic, to what it says. *)
Lemma belief_after_claim t now topic id n ep ts g :
  1 ≤ ep →
  belief t (handle_claim now topic id n ep ts g) = belief t g ∨
  (t = topic ∧ belief t (handle_claim now topic id n ep ts g) = Some (n, ep)).
Proof.
  intros He. destruct (from_future now ts) eqn:Hf.
  { left. unfold handle_claim. by rewrite Hf. }
  destruct (decide (id = derive_topic_id topic)) as [->|Hid].
  2: { left. unfold handle_claim. by rewrite Hf, bool_decide_false. }
  destruct (decide (topic = t)) as [->|Hne].
  - rewrite (belief_handle_claim t now (mkClaim n ep ts)) by done. unfold merge_belief; simpl.
    destruct (belief t g) as [b|]; [|by right]. destruct (beats _ _); [by right|by left].
  - left. unfold handle_claim, belief. rewrite Hf, bool_decide_true by done. simpl.
    by rewrite lookup_insert_ne.
Qed.

Lemma handle_claim_learns now topic id n ep ts g : learns g (handle_claim now topic id n ep ts g).
Proof.
  intros t c (b & Hb & Hbc). unfold belief in Hb.
  destruct (topic_owners g !! t) as [o|] eqn:Ho; [|done]. injection Hb as <-.
  destruct (claims_monotone now t topic id n ep ts g o Ho) as [(o' & Ho' & Hbt & _) _].
  exists (owner_node_id o', epoch o'). split; [unfold belief; by rewrite Ho'|].
  by apply (beats_trans _ (owner_node_id o, epoch o)).
Qed.

Lemma handle_claim_frame now topic id n ep ts g :
  g_node_id (handle_claim now topic id n ep ts g) = g_node_id g ∧
  g_sent (handle_claim now topic id n ep ts g) = g_sent g.
Proof. unfold handle_claim. destruct (from_future now ts); [done|]. by case_bool_decide. Qed.

(** What a message of a node [gs] does to the node [g] that gets it. *)
Record hears (B : Z) (gs g g' : GossipCoordinator) : Prop := {
  hr_id : g_node_id g' = g_node_id g;
  hr_sent : g_sent g' = g_sent g;
  hr_learns : learns g g';
  hr_belief t : belief t g' = belief t g ∨
    ∃ c, belief t g' = Some c ∧ 1 ≤ c.2 ≤ B ∧ c.1 = g_node_id gs ∧ knows t c gs;
}.

Lemma handle_event_hears B gs id content now bc g :
  node_ok B gs → (id, content) ∈ g_sent gs → hears B gs g (handle_event now bc content g).
Proof.
  intros Hok Hin. unfold handle_event.
  assert (hears B gs g g) as Hrefl by (split; auto; by intros ???).
  case_bool_decide; [done|]. destruct (dec content) as [msg|] eqn:Hd; [|done].
  pose proof (nk_sent _ _ Hok _ _ Hin Hd) as Hm. destruct msg as [topic tid n ep ts| |topic tid n ep ts| | | | | | |];
    simpl in Hm; try done; simpl.
  - destruct Hm as (_ & -> & He & Hk).
    destruct (handle_claim_frame now topic tid (g_node_id gs) ep ts g) as [? ?].
    split; [done|done|apply handle_claim_learns|]. intros t.
    destruct (belief_after_claim t now topic tid (g_node_id gs) ep ts g)
      as [?|[-> ?]]; [lia|by left|]. right. by exists (g_node_id gs, ep).
  - split; [| |apply belief_eq_learns; intros; apply belief_handle_heartbeat|
            left; apply belief_handle_heartbeat];
      unfold handle_heartbeat; by destruct (from_future _ _).
Qed.

(** ** The network *)

Lemma node_ok_mono B B' g : B ≤ B' → node_ok B g → node_ok B' g.
Proof.
  intros HB [He Hs]. split; [intros t b Hb; specialize (He t b Hb); lia|].
  intros x msg Hx Hd. specialize (Hs x msg Hx Hd). revert Hs. by apply msg_ok_mono.
Qed.

(** Replacing one node by one that knows more keeps who claimed what. *)
Lemma net_ok_alter B ns i f :
  net_ok B ns →
  (∀ g, ns !! i = Some g → g_node_id (f g) = g_node_id g ∧ learns g (f g) ∧ node_ok (B + 1) (f g) ∧
     ∀ t b, belief t (f g) = Some b → belief t g = Some b ∨
       ∃ j g', alter f i ns !! j = Some g' ∧ g_node_id g' = b.1 ∧ knows t b g') →
  net_ok (B + 1) (alter f i ns).
Proof.
  intros [Hn Hc] Hf.
  assert (Hclaimed : ∀ t b, (∃ j g', ns !! j = Some g' ∧ g_node_id g' = b.1 ∧ knows t b g') →
    ∃ j g', alter f i ns !! j = Some g' ∧ g_node_id g' = b.1 ∧ knows t b g').
  { intros t b (j & g' & Hj & Hid & Hk). destruct (decide (i = j)) as [->|Hne].
    - destruct (Hf g' Hj) as (Hid' & Hl & _). exists j, (f g'). rewrite list_lookup_alter_eq, Hj.
      split_and!; [done|congruence|by apply Hl].
    - exists j, g'. by rewrite list_lookup_alter_ne. }
  split.
  - intros j g'. destruct (decide (i = j)) as [->|Hne].
    + rewrite list_lookup_alter_eq. intros (g & Hg & ->)%fmap_Some. by apply Hf.
    + rewrite list_lookup_alter_ne by done. intros Hg. apply (node_ok_mono B); [lia|by eapply Hn].
  - intros j g' t b. destruct (decide (i = j)) as [->|Hne].
    + rewrite list_lookup_alter_eq. intros (g & Hg & ->)%fmap_Some Hb.
      destruct (Hf g Hg) as (_ & _ & _ & Hb'). destruct (Hb' t b Hb) as [Hold|?]; [|done].
      apply Hclaimed. by eapply Hc.
    + rewrite list_lookup_alter_ne by done. intros Hg Hb. apply Hclaimed. by eapply Hc.
Qed.

Lemma net_ok_mono B B' ns : B ≤ B' → net_ok B ns → net_ok B' ns.
Proof. intros HB [Hn Hc]. split; [|done]. intros i g Hg. by eapply node_ok_mono, Hn. Qed.

Lemma sent_by_Some j k ns id content :
  sent_by j k ns = Some (id, content) → ∃ gs, ns !! j = Some gs ∧ (id, content) ∈ g_sent gs.
Proof.
  unfold sent_by. destruct (ns !! j) as [gs|]; [|done]. simpl. intros Hk.
  exists gs. split; [done|]. by eapply list_elem_of_lookup_2.
Qed.

Lemma hears_node_ok B gs g g' : node_ok B g → hears B gs g g' → node_ok B g'.
Proof.
  intros Hok [Hid Hs Hl Hb]. split.
  - intros t b Hb'. destruct (Hb t) as [He|(c & He & Hr & _)]; rewrite He in Hb'.
    + by eapply nk_epochs.
    + by injection Hb' as <-.
  - rewrite Hs. intros x msg Hx Hd. pose proof (nk_sent _ _ Hok x msg Hx Hd) as Hm. revert Hm.
    by apply msg_ok_mono; [lia|..].
Qed.

Lemma alter_learns (ns : list GossipCoordinator) (i : nat) f :
  (∀ g, ns !! i = Some g → learns g (f g)) →
  ∀ j g, ns !! j = Some g → ∃ g', alter f i ns !! j = Some g' ∧ learns g g'.
Proof.
  intros Hf j g Hg. destruct (decide (i = j)) as [->|Hne].
  - exists (f g). rewrite list_lookup_alter_eq, Hg. auto.
  - exists g. by rewrite list_lookup_alter_ne.
Qed.

(** One event: the invariant, and beliefs that only go up. *)
Lemma net_step_ok B ns ev :
  1 ≤ B → B + 1 < U64_MAX → harmless ev ns → net_ok B ns →
  net_ok (B + 1) (net_step ns ev) ∧
  (∀ i g, ns !! i = Some g → ∃ g', net_step ns ev !! i = Some g' ∧ learns g g').
Proof.
  intros HB1 HB Hh Hok. destruct (local_step ev) as [[i f]|] eqn:Hev.
  - rewrite (net_step_local _ _ _ ns Hev).
    assert (Hf : ∀ g, ns !! i = Some g → claims_from B g (f g)).
    { intros g Hg. by eapply local_step_claims; [eapply nt_nodes|..]. }
    split; [|apply alter_learns; intros; by eapply claims_from_learns, Hf].
    apply net_ok_alter; [done|]. intros g Hg. pose proof (Hf g Hg) as Hc. split_and!.
    + apply Hc.
    + by eapply claims_from_learns.
    + by eapply node_ok_claims; [eapply nt_nodes|..].
    + intros t b Hb. destruct (cf_belief _ _ _ Hc t) as [He|(e & He & _)]; rewrite He in Hb.
      * by left.
      * injection Hb as <-. right. exists i, (f g). rewrite list_lookup_alter_eq, Hg.
        split_and!; [done|apply Hc|by apply knows_self].
  - destruct ev as [| | | | | | |i j k now bc]; try done. simpl.
    destruct (sent_by j k ns) as [[id content]|] eqn:Hs.
    2: { split; [by eapply net_ok_mono, Hok; lia|]. intros i' g Hg. by exists g. }
    apply sent_by_Some in Hs as (gs & Hj & Hin).
    assert (Hhr : ∀ g, hears B gs g (handle_event now bc content g)).
    { intros g. by eapply handle_event_hears; [eapply nt_nodes|]. }
    split; [|apply alter_learns; intros; by eapply hr_learns].
    apply net_ok_alter; [done|]. intros g Hg. destruct (Hhr g) as [Hid Hsent Hl Hb]. split_and!.
    + done.
    + done.
    + apply (node_ok_mono B); [lia|]. by eapply hears_node_ok; [eapply nt_nodes|].
    + intros t b Hb'. destruct (Hb t) as [He|(c & He & _ & Hid' & Hk)]; rewrite He in Hb'; [by left|].
      injection Hb' as <-. right.
      destruct (alter_learns ns i (handle_event now bc content)) with j gs as (gs' & Hgs & Hl');
        [intros; by eapply hr_learns|done|].
      exists j, gs'. split_and!; [done| |by apply Hl'].
      revert Hgs. destruct (decide (i = j)) as [->|Hne].
      * rewrite list_lookup_alter_eq, Hj. intros [= <-]. by rewrite (hr_id _ _ _ _ (Hhr gs)).
      * rewrite list_lookup_alter_ne, Hj by done. by intros [= <-].
Qed.

Lemma net_run_ok B ns evs :
  1 ≤ B → B + Z.of_nat (length evs) < U64_MAX → nothing_expires evs ns → net_ok B ns →
  net_ok (B + Z.of_nat (length evs)) (net_run evs ns) ∧
  (∀ i g, ns !! i = Some g → ∃ g', net_run evs ns !! i = Some g' ∧ learns g g').
Proof.
  unfold net_run. revert B ns. induction evs as [|ev evs IH]; intros B ns HB1 HB Hh Hok; simpl in *.
  { rewrite Z.add_0_r. split; [done|]. intros i g Hg. by exists g. }
  destruct Hh as [Hh1 Hh]. destruct (net_step_ok B ns ev) as [Hok' Hl]; [lia|lia|done|done|].
  destruct (IH (B + 1) (net_step ns ev)) as [Hok'' Hl']; [lia|lia|done|done|].
  split; [by replace (B + Z.of_nat (S (length evs))) with (B + 1 + Z.of_nat (length evs)) by lia|].
  intros i g Hg. destruct (Hl i g Hg) as (g1 & Hg1 & H1). destruct (Hl' i g1 Hg1) as (g2 & Hg2 & H2).
  exists g2. split; [done|]. by etrans.
Qed.

(** Nodes just made, with their ids. *)
Definition net_new (ids : list Z) : list GossipCoordinator := gossip_new <$> ids.

Lemma net_new_ok ids : net_ok 1 (net_new ids).
Proof.
  assert (Hb : ∀ i g t, net_new ids !! i = Some g → belief t g = None ∧ g_sent g = []).
  { intros i g t. unfold net_new. rewrite list_lookup_fmap. by intros (n & _ & ->)%fmap_Some. }
  split.
  - intros i g Hg. split.
    + intros t b. by destruct (Hb i g t Hg) as [-> _].
    + intros x msg. destruct (Hb i g EmptyString Hg) as [_ ->]. by intros ?%not_elem_of_nil.
  - intros i g t b Hg. by destruct (Hb i g t Hg) as [-> _].
Qed.

(** ** Convergence *)

(** No node holds a claim of the topic that [c] does not beat. *)
Definition dominates (t : string) (c : Z * Z) (ns : list GossipCoordinator) : Prop :=
  ∀ i g b, ns !! i = Some g → belief t g = Some b → beats c b = true.

(** The [k]-th message of node [j] carries the claim, and a node whose clock
    says [now] takes it. *)
Definition carries (t : string) (c : Z * Z) (now : Z) (j k : nat) (ns : list GossipCoordinator) : bool :=
  match sent_by j k ns with
  | Some (_, content) =>
      match dec content with
      | Some (TopicClaim t' id n e ts) =>
          bool_decide (t' = t) && bool_decide (id = derive_topic_id t) && bool_decide ((n, e) = c) &&
          negb (from_future now ts) && bool_decide (Z.of_nat (length content) ≤ MAX_MESSAGE_SIZE)
      | _ => false
      end
  | None => false
  end.

(** At some point of the run the claim is delivered to node [i]. *)
Definition delivered (t : string) (c : Z * Z) (i : nat) (evs : list NetEvent)
    (ns : list GossipCoordinator) : Prop :=
  ∃ evs1 j k now bc evs2, evs = evs1 ++ NDeliver i j k now bc :: evs2 ∧
    carries t c now j k (net_run evs1 ns) = true.

Lemma carries_knows t c now bc i j k ns g :
  1 ≤ c.2 → carries t c now j k ns = true → net_step ns (NDeliver i j k now bc) !! i = Some g → knows t c g.
Proof.
  unfold carries. simpl. intros Hc. destruct (sent_by j k ns) as [[id content]|]; [|done].
  destruct (dec content) as [[t' tid n e ts| | | | | | | | |]|] eqn:Hd; try done.
  rewrite !andb_true_iff, !bool_decide_eq_true, negb_true_iff.
  intros [[[[-> ->] <-] Hf] Hlen].
  rewrite list_lookup_alter_eq. intros (g0 & _ & ->)%fmap_Some.
  unfold handle_event. rewrite bool_decide_false, Hd by lia. simpl.
  unfold knows. rewrite (belief_handle_claim t now (mkClaim n e ts)) by done. simpl.
  destruct (belief t g0) as [b|]; simpl; eexists; (split; [done|]); [|apply beats_refl].
  destruct (beats (n, e) b) eqn:Hb; [apply beats_refl|by apply beats_total].
Qed.

(** Without claims the best claim stays the best. *)
Lemma dominates_quiet B t c ns ev :
  net_ok B ns → harmless ev ns → quiet ev = true → dominates t c ns → dominates t c (net_step ns ev).
Proof.
  intros Hok Hh Hq Hd. destruct (local_step ev) as [[i f]|] eqn:Hev.
  - rewrite (net_step_local _ _ _ ns Hev). intros j g b. destruct (decide (i = j)) as [->|Hne].
    + rewrite list_lookup_alter_eq. intros (g0 & Hg & ->)%fmap_Some.
      pose proof (quiet_owners _ _ _ g0 ns Hev Hg Hh Hq) as Ho. rewrite (belief_owners t _ _ Ho).
      by eapply Hd.
    + rewrite list_lookup_alter_ne by done. by eapply Hd.
  - destruct ev as [| | | | | | |i j k now bc]; try done. simpl.
    destruct (sent_by j k ns) as [[id content]|] eqn:Hs; [|done].
    apply sent_by_Some in Hs as (gs & Hj & Hin). intros i' g b.
    destruct (decide (i = i')) as [->|Hne].
    2: { rewrite list_lookup_alter_ne by done. by eapply Hd. }
    rewrite list_lookup_alter_eq. intros (g0 & Hg & ->)%fmap_Some Hb.
    destruct (handle_event_hears B gs id content now bc g0) as [_ _ _ Hb']; [by eapply nt_nodes|done|].
    destruct (Hb' t) as [He|(c' & He & _ & _ & (bs & Hbs & Hbc))]; rewrite He in Hb;
      [by eapply Hd|]. injection Hb as <-. apply (beats_trans _ bs); [by apply (Hd j gs)|done].
Qed.

Lemma net_run_app evs1 evs2 ns : net_run (evs1 ++ evs2) ns = net_run evs2 (net_run evs1 ns).
Proof. apply fold_left_app. Qed.

Lemma nothing_expires_app evs1 evs2 ns :
  nothing_expires (evs1 ++ evs2) ns ↔
  nothing_expires evs1 ns ∧ nothing_expires evs2 (net_run evs1 ns).
Proof.
  unfold net_run. revert ns. induction evs1 as [|ev evs1 IH]; intros ns; simpl; [tauto|].
  rewrite IH. tauto.
Qed.

Lemma dominates_run B t c ns evs :
  1 ≤ B → B + Z.of_nat (length evs) < U64_MAX → nothing_expires evs ns →
  net_ok B ns → Forall (λ ev, quiet ev = true) evs → dominates t c ns → dominates t c (net_run evs ns).
Proof.
  intros HB1 HB Hh Hok Hq Hd. revert HB Hh.
  induction evs as [|ev evs IH] using rev_ind; intros HB Hh; [done|].
  apply nothing_expires_app in Hh as [Hh [Hhev _]].
  apply Forall_app in Hq as [Hq [Hev _]%Forall_cons]. rewrite length_app in HB. simpl in HB.
  rewrite net_run_app. simpl. destruct (net_run_ok B ns evs) as [Hok' _]; [lia|lia|done|done|].
  eapply dominates_quiet; [done|done|done|]. apply IH; [done|lia|done].
Qed.

Lemma net_run_length evs ns : length (net_run evs ns) = length ns.
Proof.
  induction evs as [|ev evs IH] using rev_ind; [done|]. rewrite net_run_app. simpl. rewrite <- IH.
  destruct ev; simpl; rewrite ?length_alter; try done.
  destruct (sent_by _ _ _) as [[? ?]|]; by rewrite ?length_alter.
Qed.

Lemma delivered_knows B t c i evs ns g :
  1 ≤ B → B + Z.of_nat (length evs) < U64_MAX → nothing_expires evs ns → net_ok B ns → 1 ≤ c.2 →
  delivered t c i evs ns → net_run evs ns !! i = Some g → knows t c g.
Proof.
  intros HB1 HB Hh Hok Hc (evs1 & j & k & now & bc & evs2 & -> & Hcar) Hg.
  apply nothing_expires_app in Hh as [Hh1 [Hh2 Hh3]].
  rewrite length_app in HB. simpl in HB. rewrite net_run_app in Hg.
  change (net_run (_ :: evs2) ?x) with (net_run evs2 (net_step x (NDeliver i j k now bc))) in Hg.
  destruct (net_run_ok B ns evs1) as [Hok1 _]; [lia|lia|done|done|].
  eapply net_step_ok in Hok1 as [Hok2 _]; [|lia|lia|exact Hh2].
  eapply (net_run_ok _ _ evs2) in Hok2 as [_ Hl]; [|lia|lia|exact Hh3].
  assert (is_Some (net_step (net_run evs1 ns) (NDeliver i j k now bc) !! i)) as [g1 Hg1].
  { apply lookup_lt_is_Some. rewrite <- (net_run_length evs2). apply lookup_lt_is_Some. eauto. }
  destruct (Hl i g1 Hg1) as (g2 & Hg2 & Hl2). simplify_eq.
  apply Hl2. by eapply carries_knows.
Qed.

(** C12: gossip converges. Nodes start empty and join, claim, send heartbeats,
    query and take over topics whose owners timed out, in any order, while
    their messages are lost, duplicated, delayed and reordered at will; the
    cleanup of old records finds none, and nothing else happens (no releases,
    announcements, leaves, query responses or published data, which may replace or
    remove records). (1) Every
    owner a node believes in is a node of the network that claimed the topic.
    (2) A belief is only ever replaced by one that beats it. (3) Let the claims
    pause when [c] is the best belief about a topic, and let a message with [c]
    get through to every node that does not hold [c] yet: then every node
    believes in [c], whatever else was delivered before and after, old claims
    and heartbeats included. *)
Theorem gossip_converges (ids : list Z) (evs pause : list NetEvent) (t : string) :
  Z.of_nat (length (evs ++ pause)) + 1 < U64_MAX → nothing_expires (evs ++ pause) (net_new ids) →
  let ns := net_run evs (net_new ids) in
  let ns' := net_run pause ns in
  (∀ i g b, ns !! i = Some g → belief t g = Some b →
     ∃ j g', ns !! j = Some g' ∧ g_node_id g' = b.1 ∧ knows t b g') ∧
  (∀ i g b, ns !! i = Some g → belief t g = Some b →
     ∃ g' b', ns' !! i = Some g' ∧ belief t g' = Some b' ∧ beats b' b = true) ∧
  (∀ c, Forall (λ ev, quiet ev = true) pause → dominates t c ns → 1 ≤ c.2 →
     (∀ i g, ns !! i = Some g → belief t g = Some c ∨ delivered t c i pause ns) →
     ∀ i g, ns' !! i = Some g → belief t g = Some c).
Proof.
  rewrite length_app, nothing_expires_app. intros HB [Hh1 Hh2] ns ns'.
  destruct (net_run_ok 1 (net_new ids) evs) as [Hok _]; [lia|lia|done|apply net_new_ok|]. fold ns in Hok.
  pose proof Hok as Hl. eapply (net_run_ok _ ns pause) in Hl as [_ Hl]; [|lia|lia|done]. fold ns' in Hl.
  split_and!.
  - intros i g b. by apply nt_claimed with (1 := Hok).
  - intros i g b Hg Hb. destruct (Hl i g Hg) as (g' & Hg' & Hlg).
    destruct (Hlg t b (knows_self t b g Hb)) as (b' & ? & ?). eauto 6.
  - intros c Hq Hd Hc Hdel i g Hg.
    assert (knows t c g) as (b & Hb & Hbc).
    { assert (is_Some (ns !! i)) as [g0 Hg0].
      { apply lookup_lt_is_Some. rewrite <- (net_run_length pause). apply lookup_lt_is_Some. eauto. }
      destruct (Hdel i g0 Hg0) as [Hb|Hdl].
      - destruct (Hl i g0 Hg0) as (g' & Hg' & Hlg). simplify_eq. by apply Hlg, knows_self.
      - eapply delivered_knows; [| |exact Hh2|exact Hok|done..]; lia. }
    assert (dominates t c ns') as Hd' by (eapply dominates_run; [| |exact Hh2|exact Hok|done..]; lia).
    rewrite Hb. f_equal. apply beats_antisymm; [done|]. by eapply Hd'.
Qed.

(** A claim that got lost is never made up for: heartbeats refresh the record of
    the same owner at the same epoch only, and make none. Whatever heartbeats
    reach a node, its beliefs stay. *)
Lemma heartbeats_teach_nothing t (hs : list (Z * (string * TopicId * Z * Z * Z))) bc g :
  belief t (fold_left (λ g '(now, (topic, id, n, ep, ts)),
    handle_gossip_message now bc (TopicHeartbeat topic id n ep ts) g) hs g) = belief t g.
Proof.
  revert g. induction hs as [|[now [[[[topic id] n] ep] ts]] hs IH]; intros g; [done|].
  simpl. rewrite IH. apply belief_handle_heartbeat.
Qed.

(** Data and control messages share the topics. Bytes a node publishes on a
    topic that read as a claim are one to every node that receives them: whoever
    the claim names becomes the owner, without having claimed. *)
Lemma published_data_claims now bc t n e ts b g gr :
  validate_topic t = Ok tt → derive_topic_id t ∈ topic_senders g →
  enc (TopicClaim t (derive_topic_id t) n e ts) = Some b →
  Z.of_nat (length b) ≤ MAX_MESSAGE_SIZE → from_future now ts = false → 1 ≤ e →
  belief t gr = None →
  g_sent (publish (Ok tt) t b g).2 = g_sent g ++ [(derive_topic_id t, b)] ∧
  topic_owners (publish (Ok tt) t b g).2 = topic_owners g ∧
  belief t (handle_event now bc b gr) = Some (n, e).
Proof.
  intros Hv Hs Henc Hlen Hf He Hgr. apply Z.le_ngt in Hlen. unfold publish, handle_event.
  rewrite Hv, !(bool_decide_false (_ < _)) by done. rewrite bool_decide_true by done. simpl.
  split_and!; [done|done|]. rewrite (dec_enc _ _ Henc). simpl.
  rewrite (belief_handle_claim t now (mkClaim n e ts)) by done. by rewrite Hgr.
Qed.
End network.

(** ** A concrete run *)

Section concrete.
#[local] Existing Instance name_hash.
#[local] Existing Instance no_codec.

(** Claims as the numbers of their fields; other messages have no encoding. *)
Definition claim_enc (m : GossipMessage) : option bytes :=
  match m with
  | TopicClaim t id n e ts => Some (pos_bits (encode (t, id, n, e, ts)))
  | _ => None
  end.

Definition claim_dec (b : bytes) : option GossipMessage :=
  (λ '(t, id, n, e, ts), TopicClaim t id n e ts) <$>
    (decode (bits_pos b) : option (string * TopicId * Z * Z * Z)).

Lemma claim_dec_enc m b : claim_enc m = Some b → claim_dec b = Some m.
Proof.
  destruct m; try done. intros [= <-]. unfold claim_dec. by rewrite bits_pos_bits, decode_encode.
Qed.

#[local] Instance claim_codec : Codec GossipMessage :=
  {| enc := claim_enc; dec := claim_dec; dec_enc := claim_dec_enc |}.

(** Three nodes join a topic; the first two claim it at the same time, then the
    first claims it again. *)
Definition three_claims : list NetEvent :=
  [NJoin 0 (Ok tt) "t"; NJoin 1 (Ok tt) "t"; NJoin 2 (Ok tt) "t";
   NClaim 0 5 (Ok tt) "t"; NClaim 1 5 (Ok tt) "t"; NClaim 0 6 (Ok tt) "t"].

(** The second node gets the last claim before the first one, twice; the third
    gets the second node's claim last, and a cleanup passes. *)
Definition late_messages : list NetEvent :=
  [NDeliver 1 0 1 7 (Ok tt); NDeliver 1 0 0 8 (Ok tt); NDeliver 1 0 1 9 (Ok tt);
   NDeliver 2 0 1 9 (Ok tt); NDeliver 2 1 0 9 (Ok tt); NCacheCleanup 1 30 9].

Lemma beliefs_at t (ns : list GossipCoordinator) l (i : nat) g :
  belief t <$> ns = l → ns !! i = Some g → l !! i = Some (belief t g).
Proof. intros <- Hg. by rewrite list_lookup_fmap, Hg. Qed.

Lemma after_three_claims :
  belief "t" <$> net_run three_claims (net_new [10; 20; 30]) = [Some (10, 3); Some (20, 2); None].
Proof. by vm_compute. Qed.

Lemma late_messages_delivered i :
  (i = 1 ∨ i = 2)%nat →
  delivered "t" (10, 3) i late_messages (net_run three_claims (net_new [10; 20; 30])).
Proof.
  intros [-> | ->].
  - exists [], 0%nat, 1%nat, 7, (Ok tt), (drop 1 late_messages). by vm_compute.
  - exists (take 3 late_messages), 0%nat, 1%nat, 9, (Ok tt), (drop 4 late_messages). by vm_compute.
Qed.

(** The record of the second node when the cleanup passes. *)
Lemma late_record :
  topic_owners <$> net_run (three_claims ++ take 5 late_messages) (net_new [10; 20; 30]) !! 1%nat =
  Some {[ "t" := mkOwnership 10 3 6 6 ]}.
Proof. by vm_compute. Qed.

Lemma late_messages_fresh : nothing_expires (three_claims ++ late_messages) (net_new [10; 20; 30]).
Proof.
  change (three_claims ++ late_messages) with ((three_claims ++ take 5 late_messages) ++ [NCacheCleanup 1 30 9]).
  apply nothing_expires_app. split; [by repeat split|]. split; [|done].
  intros g Hg. pose proof late_record as Hr. rewrite Hg in Hr. injection Hr as Hr.
  unfold cache_cleanup_tick. cbn [topic_owners set_owners]. rewrite Hr. by vm_compute.
Qed.

Lemma gossip_converges_witness :
  Forall (λ g, belief "t" g = Some (10, 3))
    (net_run late_messages (net_run three_claims (net_new [10; 20; 30]))).
Proof.
  destruct (gossip_converges [10; 20; 30] three_claims late_messages "t") as (_ & _ & Hc); [by vm_compute|exact late_messages_fresh|].
  apply Forall_lookup. pose proof after_three_claims as Hb. pose proof late_messages_delivered as Hd.
  revert Hc Hb Hd. generalize (net_run three_claims (net_new [10; 20; 30])). intros ns Hc Hb Hd.
  apply Hc; [repeat constructor| |done|].
  - intros i g b Hg Hgb. pose proof (beliefs_at _ _ _ i g Hb Hg) as Ha.
    rewrite Hgb in Ha. clear Hc Hd. destruct i as [|[|[|i]]]; by simplify_eq/=.
  - intros i g Hg. pose proof (beliefs_at _ _ _ i g Hb Hg) as Ha.
    clear Hc. destruct i as [|[|[|i]]]; [left|right; auto..|done].
    by injection Ha.
Defined.
End concrete.
