(* ===== verification/Ddl.v ===== *)
(** * The log service (src/ddl_distributed.rs)

    [DdlDistributed] composes the topic queues, the subscriber channels, and,
    in distributed mode, the Raft node, the gossip coordinator and the peer
    fetcher.  A call that blocks on a full subscriber channel ([Block] mode)
    returns [None]; the clock and the answers of openraft and iroh are
    arguments. *)

From S2P Require Import Prelude LockUtils Ownership OwnershipTopics Leases Storage StorageProps RaftCluster.
From S2P Require Import DdlTypes TopicQueue Subscribers Peer Gossip.
#[local] Open Scope Z_scope.

Section ddl.
Context {C : Type} `{!Channel C} `{TopicHash}.

Record DdlDistributed := mkDdl {
  d_config : DdlConfig;
  d_topics : gmap string TopicQueue;
  d_subscribers : gmap string (list SubscriberInfo);
  d_raft_cluster : option RaftClusterNode;
  d_gossip : option GossipCoordinator;
  d_topic_count : Z;
  d_peer_fetcher : option PeerFetcher;
  d_channels : gmap Z C;
  d_next_channel : Z;
}.

Definition set_topics (d : DdlDistributed) m count :=
  mkDdl (d_config d) m (d_subscribers d) (d_raft_cluster d) (d_gossip d) count
    (d_peer_fetcher d) (d_channels d) (d_next_channel d).
Definition set_subscribers (d : DdlDistributed) s ch next :=
  mkDdl (d_config d) (d_topics d) s (d_raft_cluster d) (d_gossip d) (d_topic_count d)
    (d_peer_fetcher d) ch next.
Definition set_raft (d : DdlDistributed) r :=
  mkDdl (d_config d) (d_topics d) (d_subscribers d) r (d_gossip d) (d_topic_count d)
    (d_peer_fetcher d) (d_channels d) (d_next_channel d).

(** ** Construction *)

(** Queues for the configured topics. *)
Definition precreated (config : DdlConfig) : gmap string TopicQueue :=
  fold_left (λ m t, <[t := queue_new (cfg_buffer_size config)]> m) (cfg_owned_topics config) ∅.

Definition new_standalone (config : DdlConfig) : DdlDistributed :=
  mkDdl config (precreated config) ∅ None None (Z.of_nat (length (cfg_owned_topics config)))
    None ∅ 0.

(** [DdlDistributed::default] *)
Definition ddl_default : DdlDistributed := new_standalone DdlConfig_default.

(** The node table of [create_raft_cluster]: this node, then peer [i] under id
    [i + 2]. *)
Definition raft_nodes (config : DdlConfig) : gmap Z NodeConfig :=
  fold_left (λ m '(i, peer), <[Z.of_nat i + 2 := mkNodeConfig (Z.of_nat i + 2) peer 8080 9090]> m)
    (imap pair (cfg_peers config))
    {[ cfg_node_id config := mkNodeConfig (cfg_node_id config) "localhost" 8080 9090 ]}.

(** The leadership loop: [leads i] is what the [i]-th check sees.  At most ten
    checks are made; the number of failed ones is returned on success. *)
Fixpoint await_leadership (leads : nat → bool) (attempt fuel : nat) : option nat :=
  match fuel with
  | O => None
  | S fuel =>
      if leads attempt then Some attempt
      else if bool_decide (10 <= S attempt)%nat then None
      else await_leadership leads (S attempt) fuel
  end.

(** [min(base_delay * 2^attempt, max_delay)], in milliseconds. *)
Definition backoff_delay_ms (attempt : Z) : Z := Z.min (100 * 2 ^ attempt) 5000.

Context `{HashOrder} `{!Codec GossipMessage} `{!Codec PeerRequest}.

(** What the outside answers while a distributed instance is set up. *)
Record SetupEnv := mkSetup {
  se_now : Z;
  se_raft_created : result string unit;
  se_initialized : result string unit;
  se_leads : nat → bool;
  se_claim_reply : string → raft_reply;
  se_gossip_created : result string unit;
  se_join : string → result string unit;
  se_sequence : Z;
}.

(** Claiming the configured topics in order, stopping at the first failure. *)
Fixpoint claim_all (env : SetupEnv) (topics : list string) (n : RaftClusterNode) :
    result DdlError RaftClusterNode :=
  match topics with
  | [] => Ok n
  | t :: topics =>
      match claim_topic (se_claim_reply env t) (se_now env) t n with
      | (Ok _, n') => claim_all env topics n'
      | (Err (Msg e), _) => Err (Network ("Failed to claim topic " +:+ t +:+ ": " +:+ e))
      | (Err ClusterPanic, _) => Err (Network "panicked")
      end
  end.

Definition setup_raft (env : SetupEnv) (config : DdlConfig) :
    result DdlError (option RaftClusterNode) :=
  if cfg_raft_enabled config then
    n ← map_err (λ e, Network ("Failed to create Raft cluster: " +:+ e))
          (cluster_new (cfg_node_id config) (raft_nodes config) (se_raft_created env));
    if cfg_is_bootstrap config then
      match initialize (se_now env) (se_initialized env) n with
      | (Err e, _) => Err (Network ("Failed to initialize Raft: " +:+ e))
      | (Ok _, n1) =>
          match await_leadership (se_leads env) 0 10 with
          | None => Err (Network "Leadership election timeout after 10 attempts")
          | Some _ => n2 ← claim_all env (cfg_owned_topics config) n1; Ok (Some n2)
          end
      end
    else Ok (Some n)
  else Ok None.

(** Joining the gossip topic of each configured topic, in order. *)
Fixpoint join_all (env : SetupEnv) (topics : list string) (g : GossipCoordinator) :
    result DdlError GossipCoordinator :=
  match topics with
  | [] => Ok g
  | t :: topics =>
      match join_topic (se_join env t) t g with
      | (Ok _, g') => join_all env topics g'
      | (Err e, _) => Err (Network ("Failed to join gossip for topic " +:+ t +:+ ": " +:+
                                    GossipError_debug e))
      end
  end.

Definition setup_gossip (env : SetupEnv) (config : DdlConfig) :
    result DdlError (option GossipCoordinator) :=
  if cfg_gossip_enabled config || cfg_raft_enabled config then
    match se_gossip_created env with
    | Err e => Err (Network ("Failed to create gossip: " +:+ e))
    | Ok _ =>
        let g := set_intervals (cfg_heartbeat_interval_secs config) (cfg_owner_timeout_secs config)
                   (gossip_new (cfg_node_id config)) in
        g' ← join_all env (cfg_owned_topics config) g;
        Ok (Some (set_owned_topics (cfg_owned_topics config) g'))
    end
  else Ok None.

(** The fetcher gets a cache of its own constants, not the configured ones. *)
Definition setup_fetcher (env : SetupEnv) (config : DdlConfig) (has_gossip : bool) :
    option PeerFetcher :=
  pc ← cfg_peer_config config;
  Some (fetcher_new (cfg_node_id config) pc (router_new ∅ (ad_new 300)) 60 1000 has_gossip
          (se_sequence env)).

Definition new_distributed (env : SetupEnv) (config : DdlConfig) : result DdlError DdlDistributed :=
  raft ← setup_raft env config;
  gossip ← setup_gossip env config;
  Ok (mkDdl config (match gossip with Some _ => precreated config | None => ∅ end) ∅ raft gossip
        (Z.of_nat (length (cfg_owned_topics config)))
        (setup_fetcher env config (bool_decide (is_Some gossip))) ∅ 0).

(** ** Modes *)

Definition is_standalone (d : DdlDistributed) : bool :=
  bool_decide (d_gossip d = None) && bool_decide (d_raft_cluster d = None).

Definition is_distributed (d : DdlDistributed) : bool :=
  bool_decide (is_Some (d_gossip d)) || bool_decide (is_Some (d_raft_cluster d)).

Definition is_raft_enabled (d : DdlDistributed) : bool := bool_decide (is_Some (d_raft_cluster d)).

(** ** Ownership *)

Definition owns_topic_internal (topic : string) (d : DdlDistributed) : bool :=
  if is_standalone d then true else bool_decide (topic ∈ cfg_owned_topics (d_config d)).

(** [DDL::owns_topic] of the trait. *)
Definition d_owns_topic (topic : string) (d : DdlDistributed) : bool := owns_topic_internal topic d.

Definition owns_topic_async (now : Z) (lin : raft_answer) (topic : string) (d : DdlDistributed) :
    bool :=
  if is_standalone d then true
  else match d_raft_cluster d with
  | Some raft => owns_topic lin topic raft
  | None =>
      if bool_decide (topic ∈ cfg_owned_topics (d_config d)) then true
      else match d_gossip d with
      | Some g => match get_topic_owner now topic g with
                  | Some owner => bool_decide (owner = cfg_node_id (d_config d))
                  | None => false
                  end
      | None => false
      end
  end.

(** [map_err(|e| DdlError::Network(format!("{prefix}: {e}")))] *)
Definition cluster_err (prefix : string) (e : ClusterError) : DdlError :=
  match e with
  | Msg m => Network (prefix +:+ ": " +:+ m)
  | ClusterPanic => Network (prefix +:+ ": panicked")
  end.

(** A call that needs Raft mode and changes the Raft node. *)
Definition via_raft {A} (prefix : string)
    (call : RaftClusterNode → result ClusterError A * RaftClusterNode) (d : DdlDistributed) :
    result DdlError A * DdlDistributed :=
  match d_raft_cluster d with
  | Some raft =>
      let '(r, raft') := call raft in (map_err (cluster_err prefix) r, set_raft d (Some raft'))
  | None => (Err (Network "Not in distributed Raft mode"), d)
  end.

Definition d_claim_topic (reply : raft_reply) (now : Z) (topic : string) :=
  via_raft "Raft claim failed" (claim_topic reply now topic).

Definition d_release_topic (reply : raft_reply) (topic : string) :=
  via_raft "Raft release failed" (release_topic reply topic).

Definition d_get_topic_owner (now : Z) (lin : raft_answer) (topic : string) (d : DdlDistributed) :
    result DdlError (option Z) :=
  match d_raft_cluster d, d_gossip d with
  | Some raft, _ => map_err (cluster_err "Raft query failed") (cluster_get_owner lin topic raft)
  | None, Some g => Ok (get_topic_owner now topic g)
  | None, None => Ok (Some (cfg_node_id (d_config d)))
  end.

Definition d_is_leader (m : RaftMetrics) (d : DdlDistributed) : bool :=
  match d_raft_cluster d with Some raft => is_leader m raft | None => true end.

(** The views of the cluster, in Raft mode only: a subscription to membership
    events starts after those already sent. *)
Definition subscribe_membership (d : DdlDistributed) : option nat :=
  (λ raft, length (rc_events raft)) <$> d_raft_cluster d.

Definition d_membership (now : Z) (m : RaftMetrics) (d : DdlDistributed) : option MembershipView :=
  cluster_membership now m <$> d_raft_cluster d.

Definition d_metrics (now : Z) (m : RaftMetrics) (d : DdlDistributed) : option DdlMetrics :=
  metrics now m <$> d_raft_cluster d.

(** ** Leases *)

Definition d_acquire_lease (reply : raft_reply) (after : list OwnershipCommand) (now : Z)
    (key : string) (ttl_secs : Z) :=
  via_raft "Lease acquisition failed" (cluster_acquire_lease reply after now key ttl_secs).

Definition d_renew_lease (reply : raft_reply) (now lease_id : Z) :=
  via_raft "Lease renewal failed" (renew_lease reply now lease_id).

Definition d_release_lease (reply : raft_reply) (key : string) :=
  via_raft "Lease release failed" (release_lease reply key).

Definition d_get_lease_owner (lin : raft_answer) (key : string) :=
  via_raft "Lease query failed" (λ n, (get_lease_owner lin key n, n)).

Definition d_list_leases (owner : Z) :=
  via_raft "Lease list failed" (λ n, (cluster_list_leases owner n, n)).

(** Releasing the configured topics on shutdown; errors are ignored. *)
Definition d_shutdown (reply : string → raft_reply) (d : DdlDistributed) : DdlDistributed :=
  match d_raft_cluster d with
  | Some raft =>
      set_raft d (Some (fold_left (λ n t, (release_topic (reply t) t n).2)
                          (cfg_owned_topics (d_config d)) raft))
  | None => d
  end.

Definition d_fetch_metric (env : FetchEnv) (key : string) (payload : bytes) (d : DdlDistributed) :
    result DdlError bytes * DdlDistributed :=
  match d_peer_fetcher d with
  | Some f =>
      let '(r, f') := fetch_metric env key payload f in
      (map_err (λ e, PeerRequestError (PeerError_fmt e)) r,
       mkDdl (d_config d) (d_topics d) (d_subscribers d) (d_raft_cluster d) (d_gossip d)
         (d_topic_count d) (Some f') (d_channels d) (d_next_channel d))
  | None => (Err (PeerRequestError "Peer fetching not available in standalone mode"), d)
  end.

(** ** Topics *)

Definition get_or_create_topic (topic : string) (d : DdlDistributed) :
    result DdlError TopicQueue * DdlDistributed :=
  match d_topics d !! topic with
  | Some q => (Ok q, d)
  | None =>
      let max := cfg_max_topics (d_config d) in
      if bool_decide (0 < max) && bool_decide (max ≤ d_topic_count d) then
        (Err (TopicLimitExceeded max (d_topic_count d)), d)
      else
        let q := queue_new (cfg_buffer_size (d_config d)) in
        (Ok q, set_topics d (<[topic := q]> (d_topics d)) (u64_add (d_topic_count d) 1))
  end.

(** Push one payload on the topic's queue and notify the subscribers: what
    [push] does after its checks, and [push_batch] for each payload.  The queue
    is shared, so the map holds its new state. *)
Definition push_and_notify (now : Z) (topic : string) (payload : bytes) (q : TopicQueue)
    (d : DdlDistributed) : option (result DdlError Z * TopicQueue * DdlDistributed) :=
  let '(r, q') := push now topic payload q in
  let d1 := set_topics d (<[topic := q']> (d_topics d)) (d_topic_count d) in
  match r with
  | Err e => Some (Err e, q', d1)
  | Ok id =>
      match read id q' with
      | None => Some (Ok id, q', d1)
      | Some entry =>
          '(n, subs, chans) ← notify_subscribers
            (cfg_subscription_backpressure (d_config d)) topic entry (d_subscribers d1)
            (d_channels d1);
          let d2 := set_subscribers d1 subs chans (d_next_channel d1) in
          match n with
          | Ok _ => Some (Ok id, q', d2)
          | Err e => Some (Err e, q', d2)
          end
      end
  end.

Definition d_push (now : Z) (lin : raft_answer) (topic : string) (payload : bytes)
    (d : DdlDistributed) : option (result DdlError Z * DdlDistributed) :=
  match validate_topic topic with
  | Err e => Some (Err e, d)
  | Ok _ =>
      if owns_topic_async now lin topic d then
        match get_or_create_topic topic d with
        | (Err e, d1) => Some (Err e, d1)
        | (Ok q, d1) => '(r, _, d2) ← push_and_notify now topic payload q d1; Some (r, d2)
        end
      else Some (Err (NotOwner topic), d)
  end.

(** What a payload of a batch meets when it is its turn: the clock, openraft's answer if
    it is asked, and the node's and the gossip's view of the cluster by then. *)
Record Turn := mkTurn {
  tn_now : Z;
  tn_lin : raft_answer;
  tn_raft : option RaftClusterNode;
  tn_gossip : option GossipCoordinator;
  tn_payload : bytes;
}.

Definition at_turn (tn : Turn) (d : DdlDistributed) : DdlDistributed :=
  mkDdl (d_config d) (d_topics d) (d_subscribers d) (tn_raft tn) (tn_gossip tn) (d_topic_count d)
    (d_peer_fetcher d) (d_channels d) (d_next_channel d).

(** The loop of [push_batch], stopping at the first error. *)
Fixpoint batch_loop (topic : string) (turns : list Turn) (last_id : Z)
    (q : TopicQueue) (d : DdlDistributed) : option (result DdlError Z * DdlDistributed) :=
  match turns with
  | [] => Some (Ok last_id, d)
  | tn :: turns =>
      '(r, q', d') ← push_and_notify (tn_now tn) topic (tn_payload tn) q (at_turn tn d);
      match r with
      | Ok id => batch_loop topic turns id q' d'
      | Err e => Some (Err e, d')
      end
  end.

(** Ownership is checked once, before the first payload. *)
Definition d_push_batch (topic : string) (turns : list Turn) (d : DdlDistributed) :
    option (result DdlError Z * DdlDistributed) :=
  match turns with
  | [] =>
      Some (Err (match validate_topic topic with Err e => e | Ok _ => BufferFull topic end), d)
  | tn :: _ =>
      let d0 := at_turn tn d in
      match validate_topic topic with
      | Err e => Some (Err e, d0)
      | Ok _ =>
          if owns_topic_async (tn_now tn) (tn_lin tn) topic d0 then
            match get_or_create_topic topic d0 with
            | (Err e, d1) => Some (Err e, d1)
            | (Ok q, d1) => batch_loop topic turns 0 q d1
            end
          else Some (Err (NotOwner topic), d0)
      end
  end.

(** The default [push_batch] of the trait: push one by one, each with a check of its
    own. *)
Fixpoint push_each (topic : string) (turns : list Turn) (last_id : Z) (d : DdlDistributed) :
    option (result DdlError Z * DdlDistributed) :=
  match turns with
  | [] => Some (Ok last_id, d)
  | tn :: turns =>
      '(r, d') ← d_push (tn_now tn) (tn_lin tn) topic (tn_payload tn) (at_turn tn d);
      match r with
      | Ok id => push_each topic turns id d'
      | Err e => Some (Err e, d')
      end
  end.

(** [subscribe]: returns the channel the stream reads. *)
Definition d_subscribe (now : Z) (topic : string) (d : DdlDistributed) :
    result DdlError EntryStream * DdlDistributed :=
  match validate_topic topic with
  | Err e => (Err e, d)
  | Ok _ =>
      match get_or_create_topic topic d with
      | (Err e, d1) => (Err e, d1)
      | (Ok _, d1) =>
          let ch := d_next_channel d1 in
          let created_at := match d_gossip d1 with Some _ => Some now | None => None end in
          let subs := <[topic := default [] (d_subscribers d1 !! topic) ++ [mkSub ch created_at]]>
                        (d_subscribers d1) in
          (Ok (EntryStream_with_backpressure ch (cfg_subscription_backpressure (d_config d1))),
           set_subscribers d1 subs
             (<[ch := chan_bounded (cfg_subscription_buffer_size (d_config d1))]> (d_channels d1))
             (ch + 1))
      end
  end.

(** [EntryStream::try_next] *)
Definition try_next (ch : Z) (d : DdlDistributed) : option Entry * DdlDistributed :=
  match d_channels d !! ch with
  | Some c =>
      let '(r, c') := chan_try_recv c in
      (r, set_subscribers d (d_subscribers d) (<[ch := c']> (d_channels d)) (d_next_channel d))
  | None => (None, d)
  end.

(** [EntryStream::next]: [None] while it waits.  It ends with the stream when every
    sender is gone, that is when the topic no longer lists the channel. *)
Definition stream_senders (ch : Z) (d : DdlDistributed) : bool :=
  existsb (λ kv, existsb (λ s, bool_decide (sub_sender s = ch)) kv.2) (map_to_list (d_subscribers d)).

Definition next (ch : Z) (d : DdlDistributed) : option (option Entry * DdlDistributed) :=
  match try_next ch d with
  | (Some e, d') => Some (Some e, d')
  | (None, d') => if stream_senders ch d then None else Some (None, d')
  end.

Definition d_ack (topic : string) (entry_id : Z) (d : DdlDistributed) :
    result DdlError unit * DdlDistributed :=
  match d_topics d !! topic with
  | Some q => (Ok tt, set_topics d (<[topic := ack entry_id q]> (d_topics d)) (d_topic_count d))
  | None => (Err (TopicNotFound topic), d)
  end.

Definition d_position (topic : string) (d : DdlDistributed) : result DdlError Z :=
  match d_topics d !! topic with
  | Some q => Ok (position q)
  | None => Err (TopicNotFound topic)
  end.
End ddl.
