(* ===== verification/DdlProps.v ===== *)
(** * Properties of the log service (src/ddl_distributed.rs) *)

From S2P Require Import Prelude LockUtils Ownership RaftCluster DdlTypes TopicQueue Subscribers Peer.
From S2P Require Import Gossip Ddl Interleaving ConcurrentTopics.
#[local] Open Scope Z_scope.

Section properties.
Context {C : Type} `{!Channel C} `{TopicHash} `{HashOrder}.
Context `{!Codec GossipMessage} `{!Codec PeerRequest}.
Implicit Types d : @DdlDistributed C _.

(** ** Frames *)

(** Two instances with the same configuration and ownership views. *)
Definition same_views d d' : Prop :=
  d_config d' = d_config d ∧ d_raft_cluster d' = d_raft_cluster d ∧ d_gossip d' = d_gossip d.

Lemma owns_same_views now lin topic d d' :
  same_views d d' → owns_topic_async now lin topic d' = owns_topic_async now lin topic d.
Proof.
  intros (Hc & Hr & Hg). unfold owns_topic_async, is_standalone. by rewrite Hc, Hr, Hg.
Qed.

(** What a push on a queue leaves behind, whether or not a subscriber refused. *)
Lemma push_and_notify_frame now topic payload q d r q' d' :
  push_and_notify now topic payload q d = Some (r, q', d') →
  q' = (push now topic payload q).2 ∧
  d_topics d' = <[topic := q']> (d_topics d) ∧ d_topic_count d' = d_topic_count d ∧
  d_next_channel d' = d_next_channel d ∧ same_views d d' ∧
  match (push now topic payload q).1 with
  | Err e => r = Err e
  | Ok id => r = Ok id ∨ (r = Err (SubscriberBufferFull topic) ∧
                          cfg_subscription_backpressure (d_config d) = Error)
  end.
Proof.
  unfold push_and_notify. destruct (push now topic payload q) as [rp q1] eqn:Hp. simpl.
  destruct rp as [id|e]; [|intros [= <- <- <-]; by split_and!].
  destruct (read id q1) as [entry|]; [|intros [= <- <- <-]; split_and!; auto; by split_and!].
  destruct (notify_subscribers _ _ _ _ _) as [[[n subs] chans]|] eqn:Hn; simpl; [|done].
  apply notify_result in Hn as Hres.
  destruct n as [[]|e]; intros [= <- <- <-]; split_and!; try done; naive_solver.
Qed.

Lemma get_or_create_frame topic d r d' :
  get_or_create_topic topic d = (r, d') →
  same_views d d' ∧ d_subscribers d' = d_subscribers d ∧ d_channels d' = d_channels d ∧
  match r with
  | Ok q => d_topics d' !! topic = Some q
  | Err e => d' = d ∧ ∃ m c, e = TopicLimitExceeded m c
  end.
Proof.
  unfold get_or_create_topic. destruct (d_topics d !! topic) as [q|] eqn:Hq.
  { intros [= <- <-]. by split_and!. }
  destruct (_ && _); intros [= <- <-]; split_and!; try done; [naive_solver|].
  simpl. by rewrite lookup_insert_eq.
Qed.

(** ** Batches *)

(** What the ownership check of a payload answers at its turn. *)
Definition owns_turn (topic : string) d (tn : Turn) : bool :=
  owns_topic_async (tn_now tn) (tn_lin tn) topic (at_turn tn d).

Lemma owns_turn_config topic d d' tn :
  d_config d' = d_config d → owns_turn topic d' tn = owns_turn topic d tn.
Proof. intros Hc. unfold owns_turn. apply owns_same_views. split_and!; simpl; congruence. Qed.

(** On an existing queue, while every check would pass, the batch loop is pushing one
    by one. *)
Lemma batch_loop_is_pushes topic turns id q d :
  validate_topic topic = Ok tt → Forall (λ tn, owns_turn topic d tn = true) turns →
  d_topics d !! topic = Some q → batch_loop topic turns id q d = push_each topic turns id d.
Proof.
  intros Hv. revert id q d. induction turns as [|tn turns IH]; intros id q d Ho Hq; simpl; [done|].
  apply Forall_cons in Ho as [Ho Hos]. unfold owns_turn in Ho.
  unfold d_push. rewrite Hv, Ho. unfold get_or_create_topic. cbn [at_turn d_topics]. rewrite Hq.
  fold (at_turn tn d). destruct (push_and_notify _ topic _ q _) as [[[r q'] d']|] eqn:Hp; simpl; [|done].
  destruct r as [id'|e]; [|done].
  apply push_and_notify_frame in Hp as (_ & Ht & _ & _ & (Hc & _) & _).
  apply IH; [|by rewrite Ht, lookup_insert_eq].
  eapply Forall_impl; [exact Hos|]. intros tn'. by rewrite (owns_turn_config _ d).
Qed.

Lemma at_turn_twice tn d d1 : tn_raft tn = d_raft_cluster d1 → tn_gossip tn = d_gossip d1 → at_turn tn d1 = d1.
Proof. intros Hr Hg. unfold at_turn. rewrite Hr, Hg. by destruct d1. Qed.

(** C22: the batched push and pushing one by one. [push_batch] validates, checks
    ownership and finds the queue once; the trait's default implementation pushes each
    payload on its own and checks again each time. Whatever the clock says at each
    payload, and however the node's view of the cluster moves between two of them: as
    long as the check of every payload would answer what the one of the first
    answers, both give the same result and leave the same state, failures
    and blocking included. Only the empty batch differs, which [push_batch] refuses. *)
Theorem push_batch_is_pushes (topic : string) (first : Turn) (rest : list Turn) d :
  (Forall (λ tn, owns_turn topic d tn = owns_turn topic d first) rest →
   d_push_batch topic (first :: rest) d = push_each topic (first :: rest) 0 d) ∧
  (validate_topic topic = Ok tt →
   d_push_batch topic [] d = Some (Err (BufferFull topic), d)).
Proof.
  split; [|intros Hv; simpl; by rewrite Hv]. intros Hsame. cbn [d_push_batch push_each].
  unfold d_push. destruct (validate_topic topic) as [[]|e] eqn:Hv; [|done].
  fold (owns_turn topic d first). destruct (owns_turn topic d first) eqn:Ho; [|done].
  destruct (get_or_create_topic topic (at_turn first d)) as [[q|e] d1] eqn:Hg; [|done].
  apply get_or_create_frame in Hg as ((Hc1 & Hr1 & Hg1) & _ & _ & Hq). cbn [batch_loop].
  rewrite (at_turn_twice first d d1) by done.
  destruct (push_and_notify _ topic _ q d1) as [[[r q'] d']|] eqn:Hp; simpl; [|done].
  destruct r as [id'|e]; [|done].
  apply push_and_notify_frame in Hp as (_ & Ht & _ & _ & (Hc & _) & _).
  apply batch_loop_is_pushes; [done| |by rewrite Ht, lookup_insert_eq].
  eapply Forall_impl; [exact Hsame|]. intros tn. rewrite (owns_turn_config _ d); [done|].
  rewrite Hc, Hc1. done.
Qed.

(** ** One push *)

Lemma push_and_notify_returns now topic payload q d :
  cfg_subscription_backpressure (d_config d) ≠ Block →
  is_Some (push_and_notify now topic payload q d).
Proof.
  intros Hm. unfold push_and_notify. destruct (push now topic payload q) as [[id|e] q']; [|eauto].
  destruct (read id q') as [entry|]; [|eauto].
  match goal with |- context [notify_subscribers ?m ?t ?e ?s ?c] =>
    destruct (notify_returns m t e s c Hm) as [[[[u|er] subs] chans] ->] end; simpl; eauto.
Qed.

(** C21: a push of an owned, valid topic whose queue holds the log [l]. Except in
    [Block] mode it always returns. With the ring full it fails with
    [BufferFull] and the queue is unchanged. Otherwise the entry is in the
    queue afterwards, under the next id, whatever the call returns: its id, or,
    in [Error] mode only, [SubscriberBufferFull], so that a caller who retries
    on that error stores the payload twice. *)
Theorem push_outcome (now : Z) (lin : raft_answer) (topic : string) (payload : bytes) d
    (k : Z) (l : Log) (q : TopicQueue) :
  validate_topic topic = Ok tt → owns_topic_async now lin topic d = true →
  d_topics d !! topic = Some q → represents k l q → acked l + 2 ^ k ≤ U64_MAX →
  (cfg_subscription_backpressure (d_config d) ≠ Block →
   is_Some (d_push now lin topic payload d)) ∧
  ∀ r d', d_push now lin topic payload d = Some (r, d') →
  if bool_decide (acked l + 2 ^ k ≤ log_len l) then
    r = Err (BufferFull topic) ∧ d_topics d' !! topic = Some q
  else
    (∃ q', d_topics d' !! topic = Some q' ∧
       represents k (mkLog (pushed l ++ [mkEntry (log_len l) now topic payload]) (acked l)) q') ∧
    (r = Ok (log_len l) ∨ (r = Err (SubscriberBufferFull topic) ∧
       cfg_subscription_backpressure (d_config d) = Error)).
Proof.
  intros Hv Ho Hq Hr Hmax. unfold d_push. rewrite Hv, Ho. unfold get_or_create_topic. rewrite Hq.
  split.
  { intros Hm. destruct (push_and_notify_returns now topic payload q d Hm) as [[[r q'] d'] ->]. eauto. }
  intros r d'.
  destruct (push_and_notify now topic payload q d) as [[[r0 q'] d1]|] eqn:Hp; simpl; [|done].
  intros [= -> ->]. apply push_and_notify_frame in Hp as (-> & Ht & _ & _ & _ & Hres).
  destruct (represents_push k l q now topic payload Hr Hmax) as [Hr' Hpr].
  rewrite Hpr in Hres. revert Hr' Hpr Ht. unfold log_step. case_bool_decide as Hfull; intros Hr' Hpr Ht.
  - split; [done|]. rewrite Ht, lookup_insert_eq. f_equal. revert Hpr. unfold push.
    pose proof Hr as [Hk Hc Hm Hlen Hpo Hw Ha Hpos Hb Hsl]. rewrite Hpo, Ha, Hc, Hw.
    rewrite u64_add_small by (unfold u64_ok; pose proof (Z.pow_nonneg 2 k); lia).
    by rewrite bool_decide_true.
  - split; [|done]. eexists. split; [by rewrite Ht, lookup_insert_eq|done].
Qed.

(** ** The topic limit *)

(** The calls that change an instance. *)
Inductive ddl_step : DdlDistributed → DdlDistributed → Prop :=
| step_push now lin topic payload d r d' :
    d_push now lin topic payload d = Some (r, d') → ddl_step d d'
| step_push_batch topic turns d r d' :
    d_push_batch topic turns d = Some (r, d') → ddl_step d d'
| step_subscribe now topic d r d' : d_subscribe now topic d = (r, d') → ddl_step d d'
| step_ack topic id d r d' : d_ack topic id d = (r, d') → ddl_step d d'
| step_try_next ch d r d' : try_next ch d = (r, d') → ddl_step d d'.

Definition within_limit (max : Z) d : Prop :=
  cfg_max_topics (d_config d) = max ∧ d_topic_count d = Z.of_nat (size (d_topics d)) ∧
  Z.of_nat (size (d_topics d)) ≤ max.

Lemma within_limit_create max topic d r d' :
  0 < max ≤ U64_MAX → within_limit max d → get_or_create_topic topic d = (r, d') →
  within_limit max d'.
Proof.
  intros Hm (Hc & Hn & Hle). unfold get_or_create_topic.
  destruct (d_topics d !! topic) eqn:Hq; [by intros [= _ <-]|].
  rewrite Hc. destruct (bool_decide (0 < max) && bool_decide (max ≤ d_topic_count d)) eqn:Hb;
    [by intros [= _ <-]|]. intros [= _ <-].
  rewrite bool_decide_true in Hb by lia. simpl in Hb. apply bool_decide_eq_false in Hb.
  split_and!; simpl; [done| |rewrite map_size_insert_None by done; lia].
  rewrite map_size_insert_None by done. rewrite u64_add_small by (unfold u64_ok; lia). lia.
Qed.

Lemma within_limit_reinsert max topic q q0 d d' :
  within_limit max d → d_topics d !! topic = Some q0 →
  d_config d' = d_config d → d_topics d' = <[topic := q]> (d_topics d) →
  d_topic_count d' = d_topic_count d → within_limit max d'.
Proof.
  intros (Hc & Hn & Hle) Hq E1 E2 E3. unfold within_limit.
  rewrite E1, E2, E3, map_size_insert_Some by eauto. done.
Qed.

Lemma within_limit_frame max d d' :
  within_limit max d → d_config d' = d_config d → d_topics d' = d_topics d →
  d_topic_count d' = d_topic_count d → within_limit max d'.
Proof. intros Hw E1 E2 E3. unfold within_limit. by rewrite E1, E2, E3. Qed.

Lemma within_limit_notify max now topic p q q0 d r q' d' :
  within_limit max d → d_topics d !! topic = Some q0 →
  push_and_notify now topic p q d = Some (r, q', d') → within_limit max d'.
Proof.
  intros Hw Hq Hn. apply push_and_notify_frame in Hn as (_ & Ht & Hc & _ & (Hcfg & _) & _).
  by apply (within_limit_reinsert max topic q' q0 d).
Qed.

Lemma within_limit_push max now lin topic p d r d' :
  0 < max ≤ U64_MAX → within_limit max d → d_push now lin topic p d = Some (r, d') → within_limit max d'.
Proof.
  intros Hm Hw. unfold d_push. destruct (validate_topic topic); [|by intros [= _ <-]].
  destruct (owns_topic_async now lin topic d); [|by intros [= _ <-]].
  destruct (get_or_create_topic topic d) as [[q|e] d2] eqn:Hg;
    [|intros [= _ <-]; by apply (within_limit_create max topic d _ d2) in Hg].
  pose proof (get_or_create_frame _ _ _ _ Hg) as (_ & _ & _ & Hq).
  apply (within_limit_create max) in Hg; [|done|done].
  destruct (push_and_notify now topic p q d2) as [[[r2 q2] d3]|] eqn:Hn; simpl; [|done].
  intros [= _ <-]. by eapply within_limit_notify.
Qed.

Lemma within_limit_batch_loop max topic turns id q q0 d r d' :
  within_limit max d → d_topics d !! topic = Some q0 →
  batch_loop topic turns id q d = Some (r, d') → within_limit max d'.
Proof.
  revert id q q0 d. induction turns as [|tn turns IH]; intros id q q0 d Hw Hq; simpl; [by intros [= _ <-]|].
  destruct (push_and_notify _ _ _ _ _) as [[[r1 q1] d1]|] eqn:Hn; simpl; [|done].
  assert (within_limit max d1) by (eapply (within_limit_notify max _ _ _ _ q0 (at_turn tn d)); [by eapply within_limit_frame|done..]).
  apply push_and_notify_frame in Hn as (_ & Ht & _).
  destruct r1; [|by intros [= _ <-]]. eapply (IH _ _ q1); [done|]. by rewrite Ht, lookup_insert_eq.
Qed.

Lemma within_limit_push_batch max topic turns d r d' :
  0 < max ≤ U64_MAX → within_limit max d → d_push_batch topic turns d = Some (r, d') → within_limit max d'.
Proof.
  intros Hm Hw. unfold d_push_batch. destruct turns as [|tn turns]; [by intros [= _ <-]|].
  assert (within_limit max (at_turn tn d)) as Hw0 by by eapply within_limit_frame.
  destruct (validate_topic topic); [|by intros [= _ <-]].
  destruct (owns_topic_async _ _ _ _); [|by intros [= _ <-]].
  destruct (get_or_create_topic topic (at_turn tn d)) as [r1 d2] eqn:Hg.
  pose proof (get_or_create_frame _ _ _ _ Hg) as (_ & _ & _ & Hq).
  apply (within_limit_create max) in Hg; [|done|done].
  destruct r1; [|by intros [= _ <-]]. by eapply within_limit_batch_loop.
Qed.

Lemma within_limit_step max d d' :
  0 < max ≤ U64_MAX → within_limit max d → ddl_step d d' → within_limit max d'.
Proof.
  intros Hm Hw Hs. destruct Hs as [now lin topic p d r d' Hp|topic turns d r d' Hp|
      now topic d r d' Hp|topic id d r d' Hp|ch d r d' Hp].
  - by eapply within_limit_push.
  - by eapply within_limit_push_batch.
  - revert Hp. unfold d_subscribe. destruct (validate_topic topic); [|by intros [= _ <-]].
    destruct (get_or_create_topic topic d) as [[q|e] d1] eqn:Hg;
      apply (within_limit_create max) in Hg; try done; by intros [= _ <-].
  - revert Hp. unfold d_ack. destruct (d_topics d !! topic) as [q|] eqn:Hq; [|by intros [= _ <-]].
    intros [= _ <-]. by apply (within_limit_reinsert max topic (ack id q) q d).
  - revert Hp. unfold try_next. destruct (d_channels d !! ch); [|by intros [= _ <-]].
    destruct (chan_try_recv _). by intros [= _ <-].
Qed.

(** The queues made at start-up. *)
Lemma size_precreated_aux (ts : list string) q (m : gmap string TopicQueue) :
  NoDup ts → (∀ t, t ∈ ts → m !! t = None) →
  size (fold_left (λ m t, <[t := q]> m) ts m) = (size m + length ts)%nat.
Proof.
  revert m. induction ts as [|t ts IH]; intros m Hnd Hfr; simpl; [lia|].
  inversion Hnd; subst. rewrite IH; [|done|].
  - rewrite map_size_insert_None by (apply Hfr; left). lia.
  - intros u Hu. rewrite lookup_insert_ne; [apply Hfr; by right|]. intros ->. done.
Qed.

(** C24: the topic limit. A standalone instance that starts with distinct
    configured topics, no more of them than the limit, never holds more topics
    than the limit, and its counter is exact, after any sequence of pushes,
    batches, subscriptions, acknowledgements and reads that run one after another
    (calls that overlap may exceed the limit). *)
Theorem topic_limit (config : DdlConfig) d :
  0 < cfg_max_topics config ≤ U64_MAX → NoDup (cfg_owned_topics config) →
  Z.of_nat (length (cfg_owned_topics config)) ≤ cfg_max_topics config →
  rtc ddl_step (new_standalone config) d →
  Z.of_nat (size (d_topics d)) ≤ cfg_max_topics config ∧
  d_topic_count d = Z.of_nat (size (d_topics d)).
Proof.
  intros Hm Hnd Hlen Hsteps.
  assert (Hinit : within_limit (cfg_max_topics config) (new_standalone config)).
  { unfold within_limit; simpl. unfold precreated.
    rewrite size_precreated_aux by (try done; intros; apply lookup_empty).
    rewrite map_size_empty. split_and!; try done; lia. }
  enough (within_limit (cfg_max_topics config) d) as (_ & ? & ?) by done.
  revert Hinit. induction Hsteps as [|x y z Hs _ IH]; intros Hw; [done|].
  apply IH. by apply (within_limit_step _ x).
Qed.

(** ** From push to stream *)

(** Subscriber [ch] of [topic] is connected and its channel is [c]. *)
Definition streaming (topic : string) (ch : Z) (c : C) d : Prop :=
  ∃ infos, d_subscribers d !! topic = Some infos ∧ NoDup (sub_sender <$> infos) ∧
    (∃ info, info ∈ infos ∧ sub_sender info = ch) ∧
    d_channels d !! ch = Some c ∧ chan_connected c = true.

Lemma streaming_push now topic payload ch c d k l q :
  cfg_subscription_backpressure (d_config d) = DropOldest →
  represents k l q → acked l + 2 ^ k ≤ U64_MAX →
  log_len l < acked l + 2 ^ k → streaming topic ch c d → chan_is_full c = false →
  let e := mkEntry (log_len l) now topic payload in
  ∃ d' q' c', push_and_notify now topic payload q d = Some (Ok (log_len l), q', d') ∧
    d_config d' = d_config d ∧ represents k (mkLog (pushed l ++ [e]) (acked l)) q' ∧
    streaming topic ch c' d' ∧ chan_queue c' = chan_queue c ++ [e] ∧ chan_cap c' = chan_cap c.
Proof.
  intros Hmode Hr Hmax Hroom (infos & Hs & Hnd & (info & Hin & <-) & Hc & Hcon) Hf e.
  destruct (represents_push k l q now topic payload Hr Hmax) as [Hr' Hpr].
  revert Hr' Hpr. unfold log_step. rewrite bool_decide_false by lia. fold e. intros Hr' Hpr.
  assert (Hread : read (log_len l) (push now topic payload q).2 = Some e).
  { rewrite (represents_read k _ _ _ Hr').
    - simpl. rewrite lookup_app_r by (unfold log_len; lia). unfold log_len.
      by rewrite Nat2Z.id, Nat.sub_diag.
    - pose proof (Z.pow_pos_nonneg 2 k ltac:(lia) (rep_exp _ _ _ Hr)).
      unfold log_len; simpl. rewrite length_app; simpl. lia.
    - unfold log_len. lia. }
  unfold push_and_notify. destruct (push now topic payload q) as [rp q1]. simpl in *. subst rp.
  rewrite Hread, Hmode.
  destruct (notify_unobstructed DropOldest topic e (d_subscribers d) infos (d_channels d))
    as (st' & -> & _ & Hafter); [done|done|done|]. simpl.
  specialize (Hafter info Hin). rewrite Hc in Hafter.
  inversion Hafter as [? c' Hturn Heq|]; subst. revert Hturn.
  unfold after_turn, expected_turn. rewrite Hcon, Hf. intros (Hq' & Hcap & Hcon').
  eexists _, q1, c'. split_and!; try done.
  eexists. split_and!; simpl; [by rewrite lookup_insert_eq| | |done|done].
  - apply (sublist_NoDup _ (sub_sender <$> infos)); [done|].
    apply fmap_sublist, sublist_filter.
  - exists info. split; [|done]. apply list_elem_of_filter. split; [|done].
    unfold gone. rewrite Hc. unfold expected_turn. by rewrite Hcon, Hf.
Qed.

(** The entries a batch makes. *)
Definition entries_of (topic : string) (first : Z) (turns : list Turn) : list Entry :=
  imap (λ i tn, mkEntry (first + Z.of_nat i) (tn_now tn) topic (tn_payload tn)) turns.

Lemma streaming_batch_loop topic turns id ch c d k l q :
  cfg_subscription_backpressure (d_config d) = DropOldest →
  represents k l q → acked l + 2 ^ k ≤ U64_MAX →
  log_len l + Z.of_nat (length turns) ≤ acked l + 2 ^ k →
  streaming topic ch c d →
  Z.of_nat (length (chan_queue c)) + Z.of_nat (length turns) ≤ chan_cap c →
  ∃ r d' c', batch_loop topic turns id q d = Some (Ok r, d') ∧ streaming topic ch c' d' ∧
    chan_queue c' = chan_queue c ++ entries_of topic (log_len l) turns.
Proof.
  revert id c d l q. induction turns as [|tn turns IH]; intros id c d l q Hmode Hr Hmax Hroom Hst Hcap.
  { exists id, d, c. unfold entries_of. by rewrite app_nil_r. }
  simpl in Hroom, Hcap. simpl.
  destruct (streaming_push (tn_now tn) topic (tn_payload tn) ch c (at_turn tn d) k l q) as
    (d1 & q1 & c1 & -> & Hc1 & Hr1 & Hst1 & Hqueue & Hcap1); try done; try lia.
  { rewrite chan_is_full_spec. apply bool_decide_eq_false. lia. }
  simpl. set (e := mkEntry _ _ _ _) in *.
  assert (Hlen : log_len (mkLog (pushed l ++ [e]) (acked l)) = log_len l + 1)
    by (unfold log_len; simpl; rewrite length_app; simpl; lia).
  destruct (IH (log_len l) c1 d1 (mkLog (pushed l ++ [e]) (acked l)) q1)
    as (r & d' & c' & Hp & Hs & Hqueue'); try done.
  - by rewrite Hc1.
  - rewrite Hlen. simpl. lia.
  - rewrite Hqueue, Hcap1, length_app. simpl. lia.
  - exists r, d', c'. split_and!; [done|done|]. rewrite Hqueue', Hqueue, <- app_assoc, Hlen.
    f_equal. unfold entries_of. rewrite imap_cons. simpl. f_equal; [by rewrite Z.add_0_r|].
    apply imap_ext. intros i x _. simpl. f_equal. lia.
Qed.

(** C10: from push to stream. In [DropOldest] mode, the default, a subscriber whose
    channel has room for a batch and a topic whose ring has room for it receive it
    whole: a batch of an instance that owns the topic when the batch starts succeeds,
    and the subscriber's channel then holds, after what it held, exactly the pushed
    payloads, in order, under consecutive ids from the topic's position on. *)
Theorem stream_receives_batch (topic : string) (first : Turn) (turns : list Turn)
    (ch : Z) (c : C) d (k : Z) (l : Log) (q : TopicQueue) :
  validate_topic topic = Ok tt → owns_turn topic d first = true →
  cfg_subscription_backpressure (d_config d) = DropOldest →
  d_topics d !! topic = Some q → represents k l q → acked l + 2 ^ k ≤ U64_MAX →
  let batch := first :: turns in
  log_len l + Z.of_nat (length batch) ≤ acked l + 2 ^ k →
  streaming topic ch c d →
  Z.of_nat (length (chan_queue c)) + Z.of_nat (length batch) ≤ chan_cap c →
  ∃ r d' c', d_push_batch topic batch d = Some (Ok r, d') ∧ streaming topic ch c' d' ∧
    chan_queue c' = chan_queue c ++ entries_of topic (log_len l) batch.
Proof.
  intros Hv Ho Hm Hq Hr Hmax batch Hroom Hs Hcap. unfold batch, d_push_batch.
  rewrite Hv. unfold owns_turn in Ho. rewrite Ho. unfold get_or_create_topic.
  cbn [at_turn d_topics]. rewrite Hq. by apply (streaming_batch_loop topic batch 0 ch c _ k l q).
Qed.

(** The actions of [ConcurrentTopics], undisturbed, are [get_or_create_topic]. *)
Lemma create_topic_alone topic (d : DdlDistributed (C := C)) rs (ls : list TThread) i shard :
  ls !! i = Some (mkTThread Idle [topic] rs) →
  let '(r, d') := get_or_create_topic topic d in
  run_schedule (topic_step (cfg_max_topics (d_config d)) (cfg_buffer_size (d_config d)) shard)
    (replicate 4 i) (mkMachine (mkTShared (d_topics d) (d_topic_count d) ∅) ls) =
  mkMachine (mkTShared (d_topics d') (d_topic_count d') ∅)
    (<[i := mkTThread Idle [] (rs ++ [(topic, match r with Ok _ => Ok tt | Err e => Err e end)])]> ls).
Proof.
  intros Hi. unfold get_or_create_topic.
  pose proof (λ mx bs s, run_alone_schedule (topic_step mx bs shard) 4 i _ s ls Hi) as Hr.
  destruct (d_topics d !! topic) as [q|] eqn:Hq.
  - rewrite Hr. simpl. unfold topic_step, lookup_topic. simpl. by rewrite lookup_empty, Hq.
  - assert (∀ l st, lookup_topic shard l topic st (mkTShared (d_topics d) (d_topic_count d) ∅) =
      Some (goto l st, mkTShared (d_topics d) (d_topic_count d) ∅)) as Hmiss.
    { intros l st. unfold lookup_topic. simpl. rewrite lookup_empty, Hq. by rewrite decide_False by (by intros []). }
    cbv zeta. destruct (bool_decide (0 < _) && _) eqn:Hm; rewrite Hr;
      erewrite run_alone_step by exact (Hmiss _ _);
      erewrite run_alone_step by (unfold topic_step, check_limit; simpl; by rewrite Hm).
    + erewrite run_alone_step by exact (Hmiss _ _). by erewrite run_alone_step by done.
    + erewrite run_alone_step
        by (unfold topic_step, enter; simpl; rewrite lookup_empty, Hq;
            by rewrite decide_False by (by intros [])).
      erewrite run_alone_step by done. simpl. by rewrite delete_insert_id by apply lookup_empty.
Qed.
End properties.

(** ** Concrete runs *)

Section concrete.
#[local] Instance name_hash : TopicHash :=
  {| TopicId := string; derive_topic_id t := t; topic_id_hex t := t |}.
#[local] Program Instance no_codec T : Codec T := {| enc _ := None; dec _ := None |}.
Next Obligation. done. Qed.
#[local] Existing Instance canonical_order.

(** A small ring and small channels. *)
Definition small_config (mode : BackpressureMode) : DdlConfig :=
  mkConfig 1 [] ["t"] 4 2 false "" [] "" false 2 mode 5 30 false false None.

Definition subscribed (mode : BackpressureMode) : @DdlDistributed list_chan _ :=
  (d_subscribe 0 "t" (new_standalone (small_config mode))).2.

Definition empty_ring_represents : represents 2 (mkLog [] 0) (queue_new 4) :=
  queue_new_represents 4 ltac:(done).

Lemma push_outcome_witness :
  is_Some (d_push 7 (Ok tt) "t" [1] (subscribed Error)) ∧
  ∀ r d', d_push 7 (Ok tt) "t" [1] (subscribed Error) = Some (r, d') →
    r = Ok 0 ∨ (r = Err (SubscriberBufferFull "t") ∧ Error = Error).
Proof.
  destruct (push_outcome 7 (Ok tt) "t" [1] (subscribed Error) 2 (mkLog [] 0) (queue_new 4))
    as [H1 H2]; [reflexivity|reflexivity|reflexivity|exact empty_ring_represents|done|].
  split; [by apply H1|]. intros r d' Hp. exact (proj2 (H2 r d' Hp)).
Defined.

Lemma topic_limit_witness :
  Z.of_nat (size (d_topics (subscribed DropOldest))) ≤ 2 ∧
  d_topic_count (subscribed DropOldest) = Z.of_nat (size (d_topics (subscribed DropOldest))).
Proof.
  apply (topic_limit (small_config DropOldest) (subscribed DropOldest)).
  - by vm_compute.
  - apply NoDup_singleton.
  - by vm_compute.
  - apply rtc_once. eapply step_subscribe. apply surjective_pairing.
Defined.

(** A turn in standalone mode. *)
Definition alone_turn (now : Z) (payload : bytes) : Turn := mkTurn now (Ok tt) None None payload.

Lemma stream_receives_batch_witness :
  ∃ r d' c', d_push_batch "t" [alone_turn 7 [1]; alone_turn 8 [2]] (subscribed DropOldest) = Some (Ok r, d') ∧
    streaming "t" 0 c' d' ∧
    chan_queue c' = [mkEntry 0 7 "t" [1]; mkEntry 1 8 "t" [2]].
Proof.
  destruct (stream_receives_batch "t" (alone_turn 7 [1]) [alone_turn 8 [2]] 0 (mkChan [] 2 true)
    (subscribed DropOldest) 2 (mkLog [] 0) (queue_new 4)) as (r & d' & c' & H1 & H2 & H3).
  - by vm_compute.
  - by vm_compute.
  - reflexivity.
  - reflexivity.
  - exact empty_ring_represents.
  - by vm_compute.
  - by vm_compute.
  - exists [mkSub 0 None]. split_and!; [reflexivity|apply NoDup_singleton| |reflexivity|reflexivity].
    exists (mkSub 0 None). split; [left|done].
  - by vm_compute.
  - exists r, d', c'. split; [exact H1|]. split; [exact H2|exact H3].
Defined.
(** Two turns of one batch in Raft mode: by the second payload the topic has been
    released. *)
Definition raft_turn (log : list OwnershipCommand) (now : Z) (payload : bytes) : Turn :=
  mkTurn now (Ok tt) (Some (mkNode 1 (lock_new (replay log Ownership.new)) ∅ [] false)) None payload.

Definition released_meanwhile : list Turn :=
  [raft_turn [ClaimTopic "t" 1 5] 7 [1]; raft_turn [ClaimTopic "t" 1 5; ReleaseTopic "t" 1] 8 [2]].

(** The batch stores both payloads, pushing one by one only the first. *)
Lemma batch_outlives_ownership :
  let d := new_standalone (small_config DropOldest) : @DdlDistributed list_chan _ in
  fst <$> d_push_batch "t" released_meanwhile d = Some (Ok 1) ∧
  fst <$> push_each "t" released_meanwhile 0 d = Some (Err (NotOwner "t")).
Proof. split; vm_compute; reflexivity. Qed.

(** Both payloads of the first batch find the topic owned. *)
Lemma push_batch_is_pushes_witness :
  let d := new_standalone (small_config DropOldest) : @DdlDistributed list_chan _ in
  let batch := [raft_turn [ClaimTopic "t" 1 5] 7 [1]; raft_turn [ClaimTopic "t" 1 5; ClaimTopic "u" 2 6] 8 [2]] in
  d_push_batch "t" batch d = push_each "t" batch 0 d.
Proof.
  refine (proj1 (push_batch_is_pushes "t" (raft_turn [ClaimTopic "t" 1 5] 7 [1]) _
    (new_standalone (small_config DropOldest))) _).
  repeat constructor; vm_compute; reflexivity.
Defined.
End concrete.
