(* ===== verification/Service.v ===== *)
(** * The log service in Raft mode (src/ddl_distributed.rs, src/cluster/raft_cluster.rs)

    One instance of the log service with its cluster node: the queues and subscribers
    of the instance, and the node it asks before a push who owns the topic.
    [create_raft_cluster] makes that node with [RaftClusterNode::new], whose network
    answers every request itself, so the node is a cluster of its own: its committed
    log holds what this instance proposes and nothing else, and no other instance sees
    it.  The log and how much of it is applied are kept beside the instance, as in a
    [Group] of one member; an event is a call on the instance, with openraft's outcome,
    or something the node does in between.  Calls run one after another; a push that
    waits for a subscriber is left to [DdlProps].

    The abstract specification is one map from topics to owners and one bounded log
    per topic. *)

From S2P Require Import Prelude LockUtils Ownership OwnershipTopics Leases Storage StorageProps RaftCluster.
From S2P Require Import DdlTypes TopicQueue Subscribers Peer Gossip Ddl DdlProps Group.
#[local] Open Scope Z_scope.

Inductive SEvent :=
| SPush (o : Outcome) (now : Z) (topic : string) (payload : bytes)
| SClaim (o : Outcome) (now : Z) (topic : string)
| SRelease (o : Outcome) (topic : string)
| SAcquire (o : Outcome) (now : Z) (key : string) (ttl_secs : Z)
| SRenew (o : Outcome) (now lease_id : Z)
| SReleaseLease (o : Outcome) (key : string)
| SGetOwner (o : Outcome) (now : Z) (topic : string)
| SSubscribe (now : Z) (topic : string)
| SNext (ch : Z)
| SAck (topic : string) (id : Z)
| SPosition (topic : string)
| SApply (k : nat)
| STick (now : Z).

Inductive SAnswer :=
| RId (r : result DdlError Z)
| RUnit (r : result DdlError unit)
| ROwner (r : result DdlError (option Z))
| RLease (r : result DdlError LeaseInfo)
| RStream (r : result DdlError EntryStream)
| REntry (e : option Entry)
| RNothing.

Section service.
Context {C : Type} `{!Channel C} `{TopicHash} `{HashOrder}.
Context `{!Codec GossipMessage} `{!Codec PeerRequest}.

(** An instance, the committed log of its node, and how much of it is applied. *)
Record Service := mkService {
  sv_ddl : @DdlDistributed C _;
  sv_log : list OwnershipCommand;
  sv_applied : nat;
}.

(** openraft's answer to a request that is not a write. *)
Definition answer_of (o : Outcome) : raft_answer :=
  match o with Acked => Ok tt | Refused e | Lost e => Err e end.

Definition on_raft (f : RaftClusterNode → RaftClusterNode) (d : @DdlDistributed C _) :=
  set_raft d (f <$> d_raft_cluster d).

Definition behind (s : Service) : list OwnershipCommand := drop (sv_applied s) (sv_log s).

(** Before a read that openraft declares linearizable, the node catches up. *)
Definition before_read (o : Outcome) (s : Service) : Service :=
  match o with
  | Acked => mkService (on_raft (apply_more (behind s)) (sv_ddl s)) (sv_log s) (length (sv_log s))
  | _ => s
  end.

(** A call that proposes a command through the instance. *)
Definition write_call {A} (o : Outcome) (wrap : result DdlError A → SAnswer)
    (cmd : RaftClusterNode → OwnershipCommand)
    (call : raft_reply → @DdlDistributed C _ → result DdlError A * @DdlDistributed C _)
    (s : Service) : SAnswer * Service :=
  let log := match o, cmd <$> d_raft_cluster (sv_ddl s) with
             | Refused _, _ | _, None => sv_log s
             | _, Some c => sv_log s ++ [c]
             end in
  match o with
  | Acked =>
      let '(r, d) := call (Committed (behind s)) (sv_ddl s) in
      (wrap r, mkService d log (length log))
  | Refused e | Lost e =>
      let '(r, d) := call (Rejected e) (sv_ddl s) in
      (wrap r, mkService d log (sv_applied s))
  end.

(** A call that touches the instance only. *)
Definition local_call {A} (wrap : A → SAnswer)
    (call : @DdlDistributed C _ → A * @DdlDistributed C _) (s : Service) : SAnswer * Service :=
  let '(r, d) := call (sv_ddl s) in (wrap r, mkService d (sv_log s) (sv_applied s)).

(** [None] while a push waits for a subscriber. *)
Definition sstep (ev : SEvent) (s : Service) : option (SAnswer * Service) :=
  match ev with
  | SPush o now t p =>
      let s1 := before_read o s in
      '(r, d) ← d_push now (answer_of o) t p (sv_ddl s1);
      Some (RId r, mkService d (sv_log s1) (sv_applied s1))
  | SClaim o now t =>
      Some (write_call o RUnit (λ n, ClaimTopic t (rc_node_id n) now) (λ r, d_claim_topic r now t) s)
  | SRelease o t =>
      Some (write_call o RUnit (λ n, ReleaseTopic t (rc_node_id n)) (λ r, d_release_topic r t) s)
  | SAcquire o now k ttl =>
      Some (write_call o RLease
              (λ n, AcquireLease k (rc_node_id n) (next_lease_id (node_state n)) ttl now)
              (λ r, d_acquire_lease r [] now k ttl) s)
  | SRenew o now id =>
      Some (write_call o RUnit (λ _, RenewLease id now) (λ r, d_renew_lease r now id) s)
  | SReleaseLease o k =>
      Some (write_call o RUnit (λ _, ReleaseLease k) (λ r, d_release_lease r k) s)
  | SGetOwner o now t =>
      let s1 := before_read o s in
      Some (ROwner (d_get_topic_owner now (answer_of o) t (sv_ddl s1)), s1)
  | SSubscribe now t => Some (local_call RStream (d_subscribe now t) s)
  | SNext ch => Some (local_call REntry (try_next ch) s)
  | SAck t id => Some (local_call RUnit (d_ack t id) s)
  | SPosition t => Some (local_call RId (λ d, (d_position t d, d)) s)
  | SApply k =>
      let cmds := take k (behind s) in
      Some (RNothing, mkService (on_raft (apply_more cmds) (sv_ddl s)) (sv_log s)
                        (sv_applied s + length cmds))
  | STick now =>
      Some (RNothing, mkService (on_raft (lease_expiration_tick now) (sv_ddl s)) (sv_log s) (sv_applied s))
  end.

Fixpoint srun (evs : list SEvent) (s : Service) : option (list SAnswer * Service) :=
  match evs with
  | [] => Some ([], s)
  | ev :: evs =>
      '(a, s1) ← sstep ev s;
      '(l, s2) ← srun evs s1;
      Some (a :: l, s2)
  end.

(** ** The abstract specification *)

Record Spec := mkSpec { sp_owners : gmap string Z; sp_logs : gmap string Log }.

(** The topic's log, made on first use while the limit allows. *)
Definition spec_create (c : DdlConfig) (t : string) (logs : gmap string Log) :
    result DdlError (gmap string Log) :=
  match logs !! t with
  | Some _ => Ok logs
  | None =>
      let max := cfg_max_topics c in
      if bool_decide (0 < max) && bool_decide (max ≤ Z.of_nat (size logs))
      then Err (TopicLimitExceeded max (Z.of_nat (size logs)))
      else Ok (<[t := mkLog [] 0]> logs)
  end.

Definition spec_cap (c : DdlConfig) : Z := next_power_of_two (cfg_buffer_size c).

Definition spec_push (c : DdlConfig) (owner : bool) (now : Z) (t : string) (p : bytes)
    (logs : gmap string Log) : result DdlError Z * gmap string Log :=
  match validate_topic t with
  | Err e => (Err e, logs)
  | Ok _ =>
      if owner then
        match spec_create c t logs with
        | Err e => (Err e, logs)
        | Ok logs1 =>
            let l := default (mkLog [] 0) (logs1 !! t) in
            (if bool_decide (acked l + spec_cap c ≤ log_len l) then Err (BufferFull t) else Ok (log_len l),
             <[t := log_step (spec_cap c) l (QPush now t p)]> logs1)
        end
      else (Err (NotOwner t), logs)
  end.

Definition spec_subscribe (c : DdlConfig) (t : string) (logs : gmap string Log) : gmap string Log :=
  match validate_topic t, spec_create c t logs with Ok _, Ok logs1 => logs1 | _, _ => logs end.

Definition spec_ack (t : string) (id : Z) (logs : gmap string Log) :
    result DdlError unit * gmap string Log :=
  match logs !! t with
  | Some l => (Ok tt, <[t := log_step 0 l (QAck id)]> logs)
  | None => (Err (TopicNotFound t), logs)
  end.

Definition spec_position (t : string) (logs : gmap string Log) : result DdlError Z :=
  match logs !! t with Some l => Ok (log_len l) | None => Err (TopicNotFound t) end.

(** One event at the instance configured by [c]; what streams receive and what the
    calls on leases answer is left open. *)
Definition service_spec_event (c : DdlConfig) (ev : SEvent) (sp : Spec) : option SAnswer * Spec :=
  let me := cfg_node_id c in
  let owners := sp_owners sp in
  let logs := sp_logs sp in
  let owns o t := bool_decide (o = Acked ∧ owners !! t = Some me) in
  match ev with
  | SPush o now t p =>
      let '(r, logs') := spec_push c (owns o t) now t p logs in (Some (RId r), mkSpec owners logs')
  | SClaim o now t =>
      (Some (RUnit (map_err (cluster_err "Raft claim failed") (failed o "Raft proposal failed: " tt))),
       mkSpec (if takes_effect o then spec_apply (ClaimTopic t me now) owners else owners) logs)
  | SRelease o t =>
      (Some (RUnit (map_err (cluster_err "Raft release failed") (failed o "Raft proposal failed: " tt))),
       mkSpec (if takes_effect o then spec_apply (ReleaseTopic t me) owners else owners) logs)
  | SGetOwner o _ t =>
      (Some (ROwner (map_err (cluster_err "Raft query failed")
                       (failed o "Linearizable read failed: " (owners !! t)))), sp)
  | SSubscribe _ t => (None, mkSpec owners (spec_subscribe c t logs))
  | SAck t id => let '(r, logs') := spec_ack t id logs in (Some (RUnit r), mkSpec owners logs')
  | SPosition t => (Some (RId (spec_position t logs)), sp)
  | SAcquire _ _ _ _ | SRenew _ _ _ | SReleaseLease _ _ | SNext _ => (None, sp)
  | SApply _ | STick _ => (Some RNothing, sp)
  end.

Fixpoint service_spec_run (c : DdlConfig) (evs : list SEvent) (sp : Spec) : list (option SAnswer) * Spec :=
  match evs with
  | [] => ([], sp)
  | ev :: evs =>
      let '(a, sp1) := service_spec_event c ev sp in
      let '(l, sp2) := service_spec_run c evs sp1 in (a :: l, sp2)
  end.

(** The answer the specification gives, or, in [Error] mode, the complaint about a
    subscriber in place of the id of a pushed entry. *)
Definition agrees (c : DdlConfig) (ev : SEvent) (spec : option SAnswer) (got : SAnswer) : Prop :=
  match spec with
  | None => True
  | Some a =>
      got = a ∨
      match ev, a with
      | SPush _ _ t _, RId (Ok _) =>
          got = RId (Err (SubscriberBufferFull t)) ∧ cfg_subscription_backpressure c = Error
      | _, _ => False
      end
  end.

(** ** One instance and its logs *)

Definition config_ok (c : DdlConfig) : Prop :=
  0 ≤ cfg_buffer_size c ∧ spec_cap c ≤ U64_MAX ∧ 0 ≤ cfg_max_topics c ≤ U64_MAX ∧
  cfg_subscription_backpressure c ≠ Block ∧ NoDup (cfg_owned_topics c) ∧
  (0 < cfg_max_topics c → Z.of_nat (length (cfg_owned_topics c)) ≤ cfg_max_topics c).

Definition log_rep (c : DdlConfig) (_ : string) (l : Log) (q : TopicQueue) : Prop :=
  represents (Z.log2_up (cfg_buffer_size c)) l q ∧ acked l + spec_cap c ≤ U64_MAX.

Record node_rep (c : DdlConfig) (logs : gmap string Log) (d : @DdlDistributed C _) : Prop := {
  nr_config : d_config d = c;
  nr_logs : map_Forall2 (log_rep c) logs (d_topics d);
  nr_count : 0 < cfg_max_topics c → within_limit (cfg_max_topics c) d;
}.

Lemma map_Forall2_size {A B} (R : string → A → B → Prop) (m1 : gmap string A) (m2 : gmap string B) :
  map_Forall2 R m1 m2 → size m1 = size m2.
Proof.
  intros Hm. rewrite <- !size_dom. f_equal. apply set_eq. intros k. rewrite !elem_of_dom.
  specialize (Hm k). by destruct (m1 !! k), (m2 !! k); split; intros [? ?]; try done; inversion Hm.
Qed.

Lemma node_rep_lookup c logs d t :
  node_rep c logs d → option_Forall2 (log_rep c t) (logs !! t) (d_topics d !! t).
Proof. intros [_ Hl _]. apply Hl. Qed.

Lemma new_log_rep c t : config_ok c → log_rep c t (mkLog [] 0) (queue_new (cfg_buffer_size c)).
Proof. intros (Hb & Hcap & _). split; [by apply queue_new_represents|done]. Qed.

Lemma create_rep c logs d t r d' :
  config_ok c → node_rep c logs d → get_or_create_topic t d = (r, d') →
  match spec_create c t logs with
  | Ok logs1 => node_rep c logs1 d' ∧
      ∃ q l, r = Ok q ∧ d_topics d' !! t = Some q ∧ logs1 !! t = Some l ∧ log_rep c t l q
  | Err e => r = Err e ∧ d' = d
  end.
Proof.
  intros Hc Hr Hg. pose proof Hr as [Hcfg Hl Hn]. pose proof (node_rep_lookup c logs d t Hr) as Ht.
  assert (Hlim : 0 < cfg_max_topics c → within_limit (cfg_max_topics c) d').
  { intros Hpos. pose proof Hc as (_ & _ & Hmax & _).
    apply (within_limit_create _ t d r d'); [lia|by apply Hn|done]. }
  revert Hg. unfold get_or_create_topic, spec_create. rewrite Hcfg.
  destruct (logs !! t) as [l|] eqn:Hl0, (d_topics d !! t) as [q|] eqn:Hq0; try by inversion Ht.
  { intros [= <- <-]. split; [done|]. inversion_clear Ht. by exists q, l. }
  assert (bool_decide (0 < cfg_max_topics c) && bool_decide (cfg_max_topics c ≤ Z.of_nat (size logs)) =
          bool_decide (0 < cfg_max_topics c) && bool_decide (cfg_max_topics c ≤ d_topic_count d)) as Hfull.
  { case_bool_decide as Hpos; [|done]. destruct (Hn Hpos) as (_ & -> & _).
    by rewrite (map_Forall2_size _ _ _ Hl). }
  rewrite Hfull. clear Hfull. destruct (_ && _) eqn:Hb; intros [= <- <-].
  - apply andb_true_iff in Hb as [Hpos _]. apply bool_decide_eq_true in Hpos.
    destruct (Hn Hpos) as (_ & -> & _). by rewrite (map_Forall2_size _ _ _ Hl).
  - split.
    + split; [done| |done]. simpl. by apply map_Forall2_insert_2; [apply new_log_rep|].
    + exists (queue_new (cfg_buffer_size c)), (mkLog [] 0). simpl. rewrite !lookup_insert_eq.
      split_and!; try done. by apply new_log_rep.
Qed.

(** A log and its queue replaced by the next. *)
Lemma node_rep_insert c logs d d' t l q l0 :
  node_rep c logs d → logs !! t = Some l0 → log_rep c t l q →
  d_config d' = d_config d → d_topics d' = <[t := q]> (d_topics d) → d_topic_count d' = d_topic_count d →
  node_rep c (<[t := l]> logs) d'.
Proof.
  intros Hr Hl0 Hlq E1 E2 E3. pose proof (node_rep_lookup c logs d t Hr) as Ht. rewrite Hl0 in Ht.
  destruct (d_topics d !! t) as [q0|] eqn:Hq0; [|by inversion Ht]. destruct Hr as [Hcfg Hl Hn]. split.
  - congruence.
  - rewrite E2. by apply map_Forall2_insert_2.
  - intros Hpos. by apply (within_limit_reinsert _ t q q0 d); [apply Hn|..].
Qed.

Lemma push_rep c logs d now lin t p n :
  config_ok c → node_rep c logs d → d_raft_cluster d = Some n →
  let '(r, logs') := spec_push c (owns_topic lin t n) now t p logs in
  ∃ r' d', d_push now lin t p d = Some (r', d') ∧ same_views d d' ∧ node_rep c logs' d' ∧
    (r' = r ∨ ((∃ id, r = Ok id) ∧ r' = Err (SubscriberBufferFull t) ∧
               cfg_subscription_backpressure c = Error)).
Proof.
  intros Hc Hr Hn. unfold spec_push, d_push.
  assert (same_views d d) as Hsv by done.
  destruct (validate_topic t); [|by exists (Err e), d; auto].
  assert (owns_topic_async now lin t d = owns_topic lin t n) as ->.
  { unfold owns_topic_async, is_standalone. by rewrite Hn, (bool_decide_false (Some n = None)), andb_false_r. }
  destruct (owns_topic lin t n); [|by eexists _, d; auto].
  destruct (get_or_create_topic t d) as [r1 d1] eqn:Hg.
  pose proof (create_rep c logs d t r1 d1 Hc Hr Hg) as Hcr.
  pose proof (get_or_create_frame t d r1 d1 Hg) as (Hsv1 & _).
  destruct (spec_create c t logs) as [logs1|e]; [|destruct Hcr as [-> ->]; by eexists _, d; auto].
  destruct Hcr as [Hr1 (q & l & -> & Hq & Hl & [Hrep Hack])]. rewrite Hl. simpl.
  destruct (push_and_notify_returns now t p q d1) as [[[r2 q2] d2] Hp].
  { rewrite (nr_config _ _ _ Hr1). apply Hc. }
  rewrite Hp. simpl. apply push_and_notify_frame in Hp as (-> & Ht2 & Hcnt & _ & Hsv2 & Hres).
  destruct (represents_push _ l q now t p Hrep Hack) as [Hrep' Hpr]. exists r2, d2. split_and!.
  - done.
  - destruct Hsv1 as (? & ? & ?), Hsv2 as (? & ? & ?). split_and!; congruence.
  - eapply node_rep_insert; [done|done| |apply Hsv2|done|done]. split; [done|].
    unfold log_step. by destruct (bool_decide _).
  - rewrite Hpr in Hres. unfold spec_cap, next_power_of_two in *. case_bool_decide; [by left|].
    rewrite (nr_config _ _ _ Hr1) in Hres. destruct Hres as [?|[? ?]]; eauto 10.
Qed.

Lemma node_rep_frame c logs d d' :
  node_rep c logs d → d_config d' = d_config d → d_topics d' = d_topics d →
  d_topic_count d' = d_topic_count d → node_rep c logs d'.
Proof.
  intros [Hcfg Hl Hn] E1 E2 E3. split; [congruence|by rewrite E2|].
  intros Hpos. unfold within_limit. rewrite E1, E2, E3. by apply Hn.
Qed.

Lemma subscribe_rep c logs d now t r d' :
  config_ok c → node_rep c logs d → d_subscribe now t d = (r, d') →
  same_views d d' ∧ node_rep c (spec_subscribe c t logs) d'.
Proof.
  intros Hc Hr. unfold d_subscribe, spec_subscribe. destruct (validate_topic t); [|by intros [= _ <-]].
  destruct (get_or_create_topic t d) as [r1 d1] eqn:Hg.
  pose proof (create_rep c logs d t r1 d1 Hc Hr Hg) as Hcr.
  pose proof (get_or_create_frame t d r1 d1 Hg) as (Hsv1 & _).
  destruct (spec_create c t logs) as [logs1|e].
  - destruct Hcr as [Hr1 (q & l & -> & _)]. intros [= _ <-]. split; [done|]. by eapply node_rep_frame.
  - destruct Hcr as [-> ->]. by intros [= _ <-].
Qed.

Lemma next_rep c logs d ch r d' :
  node_rep c logs d → try_next ch d = (r, d') → same_views d d' ∧ node_rep c logs d'.
Proof.
  intros Hr. unfold try_next. destruct (d_channels d !! ch) as [ch'|]; [|by intros [= _ <-]].
  destruct (chan_try_recv ch'). intros [= _ <-]. split; [done|]. by eapply node_rep_frame.
Qed.

Lemma ack_rep c logs d t id r d' :
  node_rep c logs d → id + spec_cap c ≤ U64_MAX → d_ack t id d = (r, d') →
  same_views d d' ∧ r = (spec_ack t id logs).1 ∧ node_rep c (spec_ack t id logs).2 d'.
Proof.
  intros Hr Hid. pose proof (node_rep_lookup c logs d t Hr) as Ht. unfold d_ack, spec_ack.
  destruct (logs !! t) as [l|] eqn:Hl0, (d_topics d !! t) as [q|] eqn:Hq0; try by inversion Ht.
  2: by intros [= <- <-].
  assert (log_rep c t l q) as [Hrep Hack] by by inversion Ht.
  intros [= <- <-]. split_and!; [done..|]. eapply node_rep_insert; try done.
  split; [by apply represents_ack|]. simpl. lia.
Qed.

Lemma position_rep c logs d t : node_rep c logs d → d_position t d = spec_position t logs.
Proof.
  intros Hr. pose proof (node_rep_lookup c logs d t Hr) as Ht. unfold d_position, spec_position.
  destruct (logs !! t) as [l|] eqn:Hl0, (d_topics d !! t) as [q|] eqn:Hq0; try by inversion Ht.
  assert (log_rep c t l q) as [Hrep _] by by inversion Ht.
  f_equal. apply (rep_write _ _ _ Hrep).
Qed.

(** ** The cluster underneath *)

(** The node of the instance, as the one member of a group. *)
Definition alone (s : Service) (n : RaftClusterNode) : Group :=
  mkGroup (sv_log s) [mkMember n (sv_applied s)] [].

(** A read: the node catches up exactly as in the group. *)
Lemma read_alone s n o c :
  d_raft_cluster (sv_ddl s) = Some n → command_of c n = None →
  ∃ n', d_raft_cluster (sv_ddl (before_read o s)) = Some n' ∧
    gstep (ECall 0 o c) (alone s n) =
      (Some (perform (Rejected "") (answer_of o) c n').1, alone (before_read o s) n').
Proof.
  intros Hr Hc. simpl. unfold call_step. simpl. rewrite Hc.
  assert (∀ e lin, perform (Rejected e) lin c n = perform (Rejected "") lin c n) as Hp
    by (intros; by destruct c).
  destruct o as [|e|e]; simpl.
  - rewrite Hr. by eexists.
  - exists n. by rewrite Hp.
  - exists n. by rewrite Hp.
Qed.

(** A write through the instance is the write of the group. *)
Lemma write_alone {A} s n o c (wrap : result DdlError A → SAnswer) ans cmd prefix call r0 a s' :
  d_raft_cluster (sv_ddl s) = Some n → command_of c n = Some (cmd n) → interleaved c = [] →
  (∀ reply, call reply (sv_ddl s) = via_raft prefix (r0 reply) (sv_ddl s)) →
  (∀ reply lin, perform reply lin c n = (ans (r0 reply n).1, (r0 reply n).2)) →
  write_call o wrap cmd call s = (a, s') →
  ∃ r n', gstep (ECall 0 o c) (alone s n) = (Some (ans r), alone s' n') ∧
    sv_ddl s' = set_raft (sv_ddl s) (Some n') ∧ a = wrap (map_err (cluster_err prefix) r).
Proof.
  intros Hr Hc Hi Hcall Hp Hw. unfold write_call in Hw. rewrite Hr in Hw. simpl in Hw.
  simpl. unfold call_step. simpl. rewrite Hc. unfold write_step. rewrite Hi.
  unfold missing. simpl. fold (behind s).
  destruct o as [|e|e]; rewrite Hcall, Hp in *; unfold via_raft in Hw; rewrite Hr in Hw;
    destruct (r0 _ n) as [r n']; simplify_eq; by exists r, n'.
Qed.

(** ** Refinement *)

(** The instance stands for the owners and the logs. *)
Record service_ok (c : DdlConfig) (s : Service) (sp : Spec) : Prop := {
  so_node : ∃ n, d_raft_cluster (sv_ddl s) = Some n ∧ group_ok [cfg_node_id c] (alone s n) (sp_owners sp);
  so_rep : node_rep c (sp_logs sp) (sv_ddl s);
}.

Section refinement.
Context {c : DdlConfig} {s : Service} {sp : Spec}.
Context (Hok : service_ok c s sp) (Hcfg : config_ok c).

(** The event ends in a state that stands for the new owners and logs. *)
Definition lands (ev : SEvent) (a : option SAnswer) (sp' : Spec) : Prop :=
  ∃ got s', sstep ev s = Some (got, s') ∧ agrees c ev a got ∧ service_ok c s' sp'.

(** What the group's step says, with the caller's id filled in. *)
Lemma call_ok n o call a g' :
  group_ok [cfg_node_id c] (alone s n) (sp_owners sp) →
  gstep (ECall 0 o call) (alone s n) = (a, g') →
  allows (spec_call (cfg_node_id c) o call (sp_owners sp)).1 a ∧
  group_ok [cfg_node_id c] g' (spec_call (cfg_node_id c) o call (sp_owners sp)).2.
Proof. intros Hg Hs. by apply (group_step_ok _ _ _ (ECall 0 o call) a g' eq_refl Hg). Qed.

Lemma local_lands ev {A} wrap call r d' logs' a :
  sstep ev s = Some (local_call (A := A) wrap call s) →
  call (sv_ddl s) = (r, d') → same_views (sv_ddl s) d' → node_rep c logs' d' →
  agrees c ev a (wrap r) → lands ev a (mkSpec (sp_owners sp) logs').
Proof.
  intros Hat Hcall (_ & Hr & _) Hrep Hag. unfold local_call in Hat. rewrite Hcall in Hat.
  eexists _, _. split; [exact Hat|]. split; [done|].
  destruct (so_node _ _ _ Hok) as (n & Hn & Hg). split; [|done]. exists n. split; [simpl; congruence|done].
Qed.

Lemma before_read_rep o : node_rep c (sp_logs sp) (sv_ddl (before_read o s)).
Proof. destruct o; [|apply Hok..]. by eapply node_rep_frame; [apply Hok|..]. Qed.

Lemma push_lands o now t p :
  let owner := bool_decide (o = Acked ∧ sp_owners sp !! t = Some (cfg_node_id c)) in
  let '(r, logs') := spec_push c owner now t p (sp_logs sp) in
  lands (SPush o now t p) (Some (RId r)) (mkSpec (sp_owners sp) logs').
Proof.
  intros owner. destruct (so_node _ _ _ Hok) as (n & Hn & Hg).
  destruct (read_alone s n o (COwns t) Hn eq_refl) as (n' & Hn' & Hs).
  destruct (call_ok n o (COwns t) _ _ Hg Hs) as [Hans Hgrp]. specialize (Hans _ eq_refl).
  injection Hans as Hown. fold owner in Hown.
  pose proof (push_rep c (sp_logs sp) _ now (answer_of o) t p _ Hcfg (before_read_rep o) Hn') as Hp.
  rewrite Hown in Hp. destruct (spec_push c owner now t p (sp_logs sp)) as [r logs'].
  destruct Hp as (r' & d' & Hd & (Hv1 & Hv2 & Hv3) & Hrep & Hres).
  eexists (RId r'), (mkService d' _ _). simpl. rewrite Hd. split; [done|]. split.
  - destruct Hres as [->|((id & ->) & -> & Hmode)]; [by left|by right].
  - split; [|done]. exists n'. split; [simpl; congruence|done].
Qed.

Lemma get_owner_lands o now t :
  lands (SGetOwner o now t)
    (Some (ROwner (map_err (cluster_err "Raft query failed")
                     (failed o "Linearizable read failed: " (sp_owners sp !! t))))) sp.
Proof.
  destruct (so_node _ _ _ Hok) as (n & Hn & Hg).
  destruct (read_alone s n o (CGetOwner t) Hn eq_refl) as (n' & Hn' & Hs).
  destruct (call_ok n o (CGetOwner t) _ _ Hg Hs) as [Hans Hgrp]. specialize (Hans _ eq_refl).
  injection Hans as Hown. eexists _, (before_read o s). split; [done|]. split.
  - left. unfold d_get_topic_owner. by rewrite Hn', Hown.
  - split; [by exists n'|apply before_read_rep].
Qed.

(** The writes. *)
Lemma write_lands {A} ev o call (wrap : result DdlError A → SAnswer) ans cmd prefix r0 dcall a :
  sstep ev s = Some (write_call o wrap cmd dcall s) →
  (∀ n, command_of call n = Some (cmd n)) → interleaved call = [] →
  (∀ reply, dcall reply (sv_ddl s) = via_raft prefix (r0 reply) (sv_ddl s)) →
  (∀ n reply lin, perform reply lin call n = (ans (r0 reply n).1, (r0 reply n).2)) →
  (∀ r, allows (spec_call (cfg_node_id c) o call (sp_owners sp)).1 (Some (ans r)) →
     agrees c ev a (wrap (map_err (cluster_err prefix) r))) →
  lands ev a (mkSpec (spec_call (cfg_node_id c) o call (sp_owners sp)).2 (sp_logs sp)).
Proof.
  intros Hat Hcmd Hi Hd Hp Hspec. destruct (so_node _ _ _ Hok) as (n & Hn & Hg).
  destruct (write_call o wrap cmd dcall s) as [got s'] eqn:Hw.
  destruct (write_alone s n o call wrap ans cmd prefix dcall r0 got s')
    as (r & n' & Hs & Hs' & ->); try done.
  destruct (call_ok n o call _ _ Hg Hs) as [Hans Hgrp]. eexists _, s'. split; [done|]. split; [by apply Hspec|].
  split; simpl.
  - exists n'. by rewrite Hs'.
  - rewrite Hs'. by eapply node_rep_frame; [apply Hok|..].
Qed.

(** What the node does on its own. *)
Lemma background_lands ev gev s' f :
  built_applied gev = true → (spec_event [cfg_node_id c] gev (sp_owners sp)).2 = sp_owners sp →
  sstep ev s = Some (RNothing, s') → sv_ddl s' = on_raft f (sv_ddl s) →
  (∀ n, (gstep gev (alone s n)).2 = alone s' (f n)) → lands ev (Some RNothing) sp.
Proof.
  intros Hb Hgev Hat Hd Halone. destruct (so_node _ _ _ Hok) as (n & Hn & Hg). specialize (Halone n).
  destruct (gstep gev (alone s n)) as [a g'] eqn:Hs. simpl in Halone. subst g'.
  destruct (group_step_ok _ _ _ gev _ _ Hb Hg Hs) as [_ Hgrp]. rewrite Hgev in Hgrp.
  eexists _, s'. split; [exact Hat|]. split; [by left|]. split.
  - exists (f n). rewrite Hd. simpl. by rewrite Hn.
  - rewrite Hd. by eapply node_rep_frame; [apply Hok|..].
Qed.

Definition ack_ok (ev : SEvent) : Prop :=
  match ev with SAck _ id => id + spec_cap c ≤ U64_MAX | _ => True end.

(** Every event does what the specification says. *)
Lemma service_lands ev :
  ack_ok ev → lands ev (service_spec_event c ev sp).1 (service_spec_event c ev sp).2.
Proof.
  pose proof (so_rep _ _ _ Hok) as Hr. assert (sp = mkSpec (sp_owners sp) (sp_logs sp)) as Hsp by by destruct sp.
  destruct ev as [o now t p|o now t|o t|o now k ttl|o now id|o k|o now t|now t|ch|t id|t|k|now];
    intros Hack; cbn [service_spec_event].
  - pose proof (push_lands o now t p) as Hp. simpl in Hp. by destruct (spec_push _ _ _ _ _ _).
  - apply (write_lands _ o (CClaim now t) RUnit AUnit (λ n, ClaimTopic t (rc_node_id n) now) "Raft claim failed"
      (λ reply, claim_topic reply now t) (λ r, d_claim_topic r now t)); try done.
    + intros n reply lin. simpl. by destruct (claim_topic _ _ _ _).
    + intros r Hans. specialize (Hans _ eq_refl). injection Hans as ->. by left.
  - apply (write_lands _ o (CRelease t) RUnit AUnit (λ n, ReleaseTopic t (rc_node_id n)) "Raft release failed"
      (λ reply, release_topic reply t) (λ r, d_release_topic r t)); try done.
    + intros n reply lin. simpl. by destruct (release_topic _ _ _).
    + intros r Hans. specialize (Hans _ eq_refl). injection Hans as ->. by left.
  - pose proof (write_lands (SAcquire o now k ttl) o (CAcquire now k ttl []) RLease ALease
      (λ n, AcquireLease k (rc_node_id n) (next_lease_id (node_state n)) ttl now) "Lease acquisition failed"
      (λ reply, cluster_acquire_lease reply [] now k ttl) (λ r, d_acquire_lease r [] now k ttl) None) as Hw.
    assert ((spec_call (cfg_node_id c) o (CAcquire now k ttl []) (sp_owners sp)).2 = sp_owners sp) as Hown
      by by destruct o.
    rewrite Hown, <- Hsp in Hw. apply Hw; try done.
    intros n reply lin. simpl. by destruct (cluster_acquire_lease _ _ _ _ _ _).
  - rewrite Hsp. apply (write_lands _ o (CRenew now id) RUnit AUnit (λ _, RenewLease id now) "Lease renewal failed"
      (λ reply, renew_lease reply now id) (λ r, d_renew_lease r now id)); try done.
    intros n reply lin. simpl. by destruct (renew_lease _ _ _ _).
  - rewrite Hsp. apply (write_lands _ o (CReleaseLease k) RUnit AUnit (λ _, ReleaseLease k) "Lease release failed"
      (λ reply, release_lease reply k) (λ r, d_release_lease r k)); try done.
    intros n reply lin. simpl. by destruct (release_lease _ _ _).
  - apply get_owner_lands.
  - destruct (d_subscribe now t (sv_ddl s)) as [r d'] eqn:Hd.
    destruct (subscribe_rep c (sp_logs sp) (sv_ddl s) now t r d' Hcfg Hr Hd) as [? ?].
    by eapply local_lands.
  - destruct (try_next ch (sv_ddl s)) as [r d'] eqn:Hd.
    destruct (next_rep c (sp_logs sp) (sv_ddl s) ch r d' Hr Hd) as [? ?]. rewrite Hsp. by eapply local_lands.
  - destruct (d_ack t id (sv_ddl s)) as [r d'] eqn:Hd.
    destruct (ack_rep c (sp_logs sp) (sv_ddl s) t id r d' Hr Hack Hd) as (? & -> & ?).
    destruct (spec_ack t id (sp_logs sp)) as [r logs']. eapply local_lands; try done. by left.
  - simpl fst. simpl snd. rewrite Hsp at 2. eapply local_lands; try done. left. simpl. by rewrite (position_rep c (sp_logs sp)).
  - by eapply (background_lands _ (EApply 0 k)).
  - by eapply (background_lands _ (ETick 0 now)).
Qed.
End refinement.

(** *** The theorem *)

(** What setting up the instance commits: on the bootstrap node, the claims of the
    configured topics. *)
Definition setup_log (env : SetupEnv) (c : DdlConfig) : list OwnershipCommand :=
  if cfg_is_bootstrap c
  then (λ t, ClaimTopic t (cfg_node_id c) (se_now env)) <$> cfg_owned_topics c else [].

Definition service_new (env : SetupEnv) (c : DdlConfig) (d : @DdlDistributed C _) : Service :=
  mkService d (setup_log env c) (length (setup_log env c)).

(** The configured topics start with empty logs, and owned on the bootstrap node. *)
Definition spec_new (env : SetupEnv) (c : DdlConfig) : Spec :=
  mkSpec (spec_replay (setup_log env c) ∅)
    (fold_left (λ m t, <[t := mkLog [] 0]> m) (cfg_owned_topics c) ∅).

(** Nobody else commits to the node's log while it claims its topics. *)
Definition claims_alone (env : SetupEnv) : Prop :=
  ∀ t before, se_claim_reply env t = Committed before → before = [].

Lemma claim_all_state env ts n n' :
  claims_alone env → lock_poisoned (rc_lock n) = false → claim_all env ts n = Ok n' →
  n' = with_state n (replay ((λ t, ClaimTopic t (rc_node_id n) (se_now env)) <$> ts) (node_state n)).
Proof.
  intros Halone. revert n. induction ts as [|t ts IH]; intros n Hp; simpl.
  { intros [= <-]. by destruct n as [? [] ? ? ?]. }
  destruct (se_claim_reply env t) as [e|before] eqn:Hr; [done|].
  apply Halone in Hr as ->. unfold claim_topic. rewrite propose_committed by done.
  intros Hc. apply IH in Hc; [|done]. rewrite Hc, node_state_with_state. done.
Qed.

(** The parts of a set-up instance. *)
Lemma new_distributed_parts env c (d : @DdlDistributed C _) :
  cfg_raft_enabled c = true → claims_alone env → new_distributed env c = Ok d →
  d_config d = c ∧ d_topics d = precreated c ∧
  d_topic_count d = Z.of_nat (length (cfg_owned_topics c)) ∧
  ∃ n, d_raft_cluster d = Some n ∧ rc_node_id n = cfg_node_id c ∧
    lock_poisoned (rc_lock n) = false ∧ node_state n = replay (setup_log env c) new.
Proof.
  intros Hraft Halone Hn. unfold new_distributed, setup_gossip in Hn. rewrite Hraft, orb_true_r in Hn.
  destruct (setup_raft env c) as [raft|] eqn:Hs; simpl in Hn; [|done].
  destruct (se_gossip_created env); simpl in Hn; [|done].
  destruct (join_all env (cfg_owned_topics c) _); simpl in Hn; [|done].
  injection Hn as <-. split_and!; try done. simpl.
  unfold setup_raft in Hs. rewrite Hraft in Hs. revert Hs.
  generalize (await_leadership (se_leads env) 0 10). intros led Hs. unfold cluster_new in Hs.
  destruct (se_raft_created env); simpl in Hs; [|done]. unfold setup_log.
  destruct (cfg_is_bootstrap c); [|injection Hs as <-; by eexists].
  unfold initialize in Hs. simpl in Hs. destruct (raft_nodes c !! cfg_node_id c); [|done].
  destruct (se_initialized env); [|done]. destruct led; [|done].
  destruct (claim_all _ _ _) as [n2|] eqn:Hc; simpl in Hs; [|done]. injection Hs as <-.
  apply claim_all_state in Hc as ->; [|done|done]. by eexists.
Qed.

Lemma service_new_ok env c d :
  config_ok c → cfg_raft_enabled c = true → claims_alone env → new_distributed env c = Ok d →
  service_ok c (service_new env c d) (spec_new env c).
Proof.
  intros Hc Hraft Halone Hn. pose proof Hc as (_ & _ & _ & _ & Hnd & Hle).
  destruct (new_distributed_parts env c d Hraft Halone Hn) as (Hcfg & Ht & Hcnt & n & Hd & Hid & Hlk & Hst).
  split; simpl.
  - exists n. split; [done|]. split; simpl; [by f_equal| |done|done].
    constructor; [|done]. split; simpl; [done|done| |]; rewrite ?take_ge by done; rewrite Hst.
    + apply replay_refines.
    + apply replay_keeps_index, new_index_ok.
  - split; [done| |].
    + rewrite Ht. unfold precreated.
      assert (map_Forall2 (log_rep c) (∅ : gmap string Log) (∅ : gmap string TopicQueue)) as Hm
        by apply map_Forall2_empty.
      revert Hm. generalize (∅ : gmap string Log) (∅ : gmap string TopicQueue).
      clear Ht Hcnt Hnd Hle. induction (cfg_owned_topics c) as [|t ts IH]; intros m1 m2 Hm; simpl; [done|].
      apply IH, map_Forall2_insert_2; [by apply new_log_rep|done].
    + intros Hpos. unfold within_limit. rewrite Hcfg, Hcnt, Ht. unfold precreated.
      rewrite size_precreated_aux by (try done; intros; apply lookup_empty). rewrite map_size_empty.
      split_and!; [done|done|]. by apply Hle.
Qed.


(** ** Owners *)

(** Only the instance itself ever owns a topic of its map, and nothing the node does
    on its own moves one: a claim has no deadline. *)
Definition background (ev : SEvent) : bool :=
  match ev with SApply _ | STick _ => true | _ => false end.

Lemma owners_do_not_expire c evs sp :
  Forall (λ ev, background ev = true) evs → (service_spec_run c evs sp).2 = sp.
Proof.
  intros Hb. revert sp. induction Hb as [|ev evs Hev Hb IH]; intros sp; [done|].
  assert ((service_spec_event c ev sp).2 = sp) as Ho by by destruct ev.
  simpl. destruct (service_spec_event c ev sp) as [a sp1]. simpl in Ho. subst sp1.
  specialize (IH sp). by destruct (service_spec_run c evs sp).
Qed.

Definition owned_by_self (c : DdlConfig) (sp : Spec) : Prop :=
  ∀ t x, sp_owners sp !! t = Some x → x = cfg_node_id c.

Lemma event_owned_by_self c ev sp :
  owned_by_self c sp → owned_by_self c (service_spec_event c ev sp).2.
Proof.
  intros Hs. destruct ev as [o now t p|o now t|o t|o now k ttl|o now id|o k|o now t|now t|ch|t id|t|k|now];
    simpl; try done.
  - by destruct (spec_push _ _ _ _ _ _).
  - destruct (takes_effect o); [|done]. intros t' x. simpl.
    rewrite lookup_insert_Some. intros [[_ <-]|[_ Hx]]; [done|by apply (Hs t')].
  - destruct (takes_effect o); [|done]. intros t' x. simpl. case_decide; [|apply Hs].
    rewrite lookup_delete_Some. intros [_ Hx]. by apply (Hs t').
  - by destruct (spec_ack _ _ _).
Qed.

Lemma run_owned_by_self env c evs : owned_by_self c (service_spec_run c evs (spec_new env c)).2.
Proof.
  assert (owned_by_self c (spec_new env c)) as Hs.
  { unfold owned_by_self, spec_new, setup_log, spec_replay. simpl. destruct (cfg_is_bootstrap c); [|done].
    assert (∀ t x, (∅ : gmap string Z) !! t = Some x → x = cfg_node_id c) as He by (intros ?? []%lookup_empty_Some).
    revert He. generalize (∅ : gmap string Z). induction (cfg_owned_topics c) as [|t ts IH]; intros m He; [done|].
    simpl. apply IH. intros t' x. rewrite lookup_insert_Some. intros [[_ <-]|[_ Hx]]; [done|by apply (He t')]. }
  revert Hs. generalize (spec_new env c). induction evs as [|ev evs IH]; intros sp Hs; [done|]. simpl.
  pose proof (event_owned_by_self c ev sp Hs) as Hs1. destruct (service_spec_event c ev sp) as [a sp1].
  specialize (IH sp1 Hs1). by destruct (service_spec_run c evs sp1).
Qed.
End service.

(** ** Runs of two instances *)

Section concrete.
#[local] Existing Instance DdlProps.name_hash.
#[local] Existing Instance DdlProps.no_codec.
#[local] Existing Instance canonical_order.

Definition raft_config (node : Z) : DdlConfig :=
  mkConfig node [] ["own"] 4 2 true "" [] "" false 2 Error 5 30 true true None.

Definition quick_env : SetupEnv :=
  mkSetup 0 (Ok tt) (Ok tt) (λ _, true) (λ _, Committed []) (Ok tt) (λ _, Ok tt) 0.

Definition instance (node : Z) : @DdlDistributed list_chan _ :=
  match new_distributed quick_env (raft_config node) with
  | Ok d => d
  | Err _ => new_standalone (raft_config node)
  end.

(** A push to a topic that is not claimed, claims, one of them lost on the way, and
    pushes until the log is full. *)
Definition busy_run : list SEvent :=
  [SPush Acked 3 "own" [7]; SPush Acked 4 "t" [9]; SClaim Acked 5 "t"; SPush Acked 6 "t" [1];
   SPush (Refused "no leader") 6 "t" [2]; SRelease (Lost "timeout") "t"; SApply 1; SPush Acked 7 "t" [2];
   SClaim (Lost "timeout") 8 "t"; SPush Acked 9 "t" [3]; SAck "t" 0; SPosition "t";
   SAcquire Acked 9 "k" 5; STick 99; SGetOwner Acked 99 "t"].

Lemma busy_run_answers :
  fst <$> srun busy_run (service_new quick_env (raft_config 1) (instance 1)) =
  Some [RId (Ok 0); RId (Err (NotOwner "t")); RUnit (Ok tt); RId (Ok 0); RId (Err (NotOwner "t"));
        RUnit (Err (Network "Raft release failed: Raft proposal failed: timeout")); RNothing;
        RId (Err (NotOwner "t")); RUnit (Err (Network "Raft claim failed: Raft proposal failed: timeout"));
        RId (Ok 1); RUnit (Ok tt); RId (Ok 2);
        RLease (Ok (mkLeaseInfo 0 "k" 1 9 5000000009 5)); RNothing; ROwner (Ok (Some 1))].
Proof. vm_compute. reflexivity. Qed.


(** Two instances never share a log: each of them claims the same topic, owns it and
    gives the same id to an entry of its own. *)
Lemma two_instances_accept :
  let run node := fst <$> srun [SClaim Acked 5 "t"; SPush Acked 6 "t" [node]; SGetOwner Acked 7 "t"]
                    (service_new quick_env (raft_config node) (instance node)) in
  run 1 = Some [RUnit (Ok tt); RId (Ok 0); ROwner (Ok (Some 1))] ∧
  run 2 = Some [RUnit (Ok tt); RId (Ok 0); ROwner (Ok (Some 2))].
Proof. split; vm_compute; reflexivity. Qed.
End concrete.
