(* ===== verification/Wal.v ===== *)
(** * The write-ahead log (src/wal.rs, src/ddl_wal.rs)

    One log file per topic, in a directory named after the topic, and the log
    service that appends every accepted entry to it.  The files are kept by the
    third-party crate waly, an interface here: what the code relies on is that
    opening a file keeps its records, that an append that succeeds adds one
    record at the end, and that reading gives all records in order.  A data
    directory is the map from the names of the directories under
    [data_dir/wal] to the log file in each. *)

From S2P Require Import Prelude DdlTypes.
#[local] Open Scope Z_scope.

Class Waly : Type := {
  wal_file : Type;
  wal_inst : Type;
  waly_new : option wal_file → result string (wal_inst * wal_file);
  waly_append : bytes → wal_inst → wal_file → result string (Z * wal_inst) * wal_file;
  waly_read_all : wal_inst → wal_file → result string (list (Z * bytes));
  waly_records : wal_file → list (Z * bytes);
  waly_new_records : ∀ o i f, waly_new o = Ok (i, f) →
    waly_records f = match o with Some f0 => waly_records f0 | None => [] end;
  waly_append_records : ∀ d i f id i' f', waly_append d i f = (Ok (id, i'), f') →
    waly_records f' = waly_records f ++ [(id, d)];
  waly_read_all_records : ∀ i f l, waly_read_all i f = Ok l → l = waly_records f;
}.

(** ** Errors *)

Inductive WalError :=
| WalIo (msg : string)
| WalSerialization (msg : string)
| WalWal (msg : string)
| WalTopicNotFound (topic : string)
| WalInvalidTopic (msg : string).

Definition WalError_fmt (e : WalError) : string :=
  match e with
  | WalIo m => "IO error: " +:+ m
  | WalSerialization m => "Serialization error: " +:+ m
  | WalWal m => "WAL error: " +:+ m
  | WalTopicNotFound t => "Topic not found: " +:+ t
  | WalInvalidTopic m => "Invalid topic name: " +:+ m
  end.

(** [From<DdlError> for WalError] and [From<WalError> for DdlError]. *)
Definition WalError_from (e : DdlError) : WalError :=
  match e with InvalidTopic m => WalInvalidTopic m | _ => WalWal (DdlError_fmt e) end.
Definition DdlError_from_wal (e : WalError) : DdlError := Wal (WalError_fmt e).

(** ** Topic names as directory names *)

(** The bytes of / \ : * ? quote < > and |, replaced by an underscore. *)
Definition unsafe_bytes : list nat := [47; 92; 58; 42; 63; 34; 60; 62; 124]%nat.

Definition sanitize_byte (c : Ascii.ascii) : Ascii.ascii :=
  if decide (Ascii.nat_of_ascii c ∈ unsafe_bytes) then Ascii.ascii_of_nat 95 else c.

Fixpoint replace_unsafe (s : string) : string :=
  match s with
  | EmptyString => EmptyString
  | String c s => String (sanitize_byte c) (replace_unsafe s)
  end.

Definition sanitize_topic (topic : string) : result WalError string :=
  match validate_topic topic with
  | Err e => Err (WalError_from e)
  | Ok _ => Ok (replace_unsafe topic)
  end.

Definition unsanitize_topic (sanitized : string) : string := sanitized.

(** [sort_by_key(|e| e.id)], a stable sort. *)
Fixpoint insert_by_id (e : Entry) (l : list Entry) : list Entry :=
  match l with
  | [] => [e]
  | x :: l' => if bool_decide (e_id e ≤ e_id x) then e :: l else x :: insert_by_id e l'
  end.

Definition sort_by_id (l : list Entry) : list Entry := foldr insert_by_id [] l.

Section wal.
Context `{Waly} `{!Codec Entry} `{HashOrder}.

Abbreviation files := (gmap string wal_file).

(** ** One topic *)

Record TopicWal := mkTopicWal {
  tw_wal : wal_inst;
  tw_topic : string;
  tw_path : string;
  tw_last_id : Z;
}.

(** [mkdir] is the result of [create_dir_all]. *)
Definition topic_wal_open (mkdir : result string unit) (topic : string) (fs : files) :
    result WalError TopicWal * files :=
  match sanitize_topic topic with
  | Err e => (Err e, fs)
  | Ok name =>
      match mkdir with
      | Err m => (Err (WalIo m), fs)
      | Ok _ =>
          match waly_new (fs !! name) with
          | Err m => (Err (WalWal m), fs)
          | Ok (wal, f) =>
              let last_id := match waly_read_all wal f with
                             | Ok es => foldr Z.max 0 es.*1
                             | Err _ => 0
                             end in
              (Ok (mkTopicWal wal topic name last_id), <[name := f]> fs)
          end
      end
  end.

(** The file of an open log exists; the branch without one is not reached. *)
Definition topic_wal_append (entry : Entry) (w : TopicWal) (fs : files) :
    result WalError Z * TopicWal * files :=
  match enc entry with
  | None => (Err (WalSerialization "json"), w, fs)
  | Some data =>
      match fs !! tw_path w with
      | None => (Err (WalIo "no such file"), w, fs)
      | Some f =>
          match waly_append data (tw_wal w) f with
          | (Err m, f') => (Err (WalWal m), w, <[tw_path w := f']> fs)
          | (Ok (id, wal'), f') =>
              (Ok id, mkTopicWal wal' (tw_topic w) (tw_path w) id, <[tw_path w := f']> fs)
          end
      end
  end.

(** A record that does not decode is skipped. *)
Definition read_entries (w : TopicWal) (fs : files) : result WalError (list Entry) * TopicWal :=
  match fs !! tw_path w with
  | None => (Err (WalIo "no such file"), w)
  | Some f =>
      match waly_read_all (tw_wal w) f with
      | Err m => (Err (WalWal m), w)
      | Ok log_entries =>
          let entries := sort_by_id (omap (λ r, dec r.2) log_entries) in
          (Ok entries,
           match last entries with
           | Some e => mkTopicWal (tw_wal w) (tw_topic w) (tw_path w) (e_id e)
           | None => w
           end)
      end
  end.

(** The file is flushed by every append. *)
Definition topic_wal_sync (w : TopicWal) : result WalError unit := Ok tt.
Definition last_id (w : TopicWal) : Z := tw_last_id w.

(** ** All topics

    The manager hands out clones that share the log and the last id, so a
    handle is the topic it is registered under. *)

Record WalManager := mkWalManager { wals : gmap string TopicWal }.

Definition wal_manager_new : WalManager := mkWalManager ∅.

Definition wal_get_or_create (mkdir : result string unit) (topic : string) (m : WalManager)
    (fs : files) : result WalError TopicWal * WalManager * files :=
  match wals m !! topic with
  | Some w => (Ok w, m, fs)
  | None =>
      match topic_wal_open mkdir topic fs with
      | (Err e, fs') => (Err e, m, fs')
      | (Ok w, fs') => (Ok w, mkWalManager (<[topic := w]> (wals m)), fs')
      end
  end.

Definition wal_append (mkdir : result string unit) (topic : string) (entry : Entry)
    (m : WalManager) (fs : files) : result WalError Z * WalManager * files :=
  match wal_get_or_create mkdir topic m fs with
  | (Err e, m1, fs1) => (Err e, m1, fs1)
  | (Ok w, m1, fs1) =>
      let '(r, w', fs2) := topic_wal_append entry w fs1 in
      (r, mkWalManager (<[topic := w']> (wals m1)), fs2)
  end.

(** One directory of the scan; directories that fail to open or to read are
    skipped with a warning. *)
Definition recover_dir (mkdir : result string unit) (name : string)
    (acc : gmap string (list Entry) * WalManager * files) :=
  let '(recovered, m, fs) := acc in
  let topic := unsanitize_topic name in
  match wal_get_or_create mkdir topic m fs with
  | (Err _, m1, fs1) => (recovered, m1, fs1)
  | (Ok w, m1, fs1) =>
      match read_entries w fs1 with
      | (Err _, w') => (recovered, mkWalManager (<[topic := w']> (wals m1)), fs1)
      | (Ok es, w') =>
          ((if bool_decide (es = []) then recovered else <[topic := es]> recovered),
           mkWalManager (<[topic := w']> (wals m1)), fs1)
      end
  end.

(** The names [read_dir] lists: topic "." has its file in the scanned directory
    itself, where it is not a directory. *)
Definition listed (fs : files) : list string := filter (λ name, name ≠ ".") (hm_keys fs).

(** [readable]: whether the directory can be read at all. *)
Definition recover_all (readable : bool) (mkdir : result string unit) (m : WalManager)
    (fs : files) : gmap string (list Entry) * WalManager * files :=
  if readable then fold_left (λ acc name, recover_dir mkdir name acc) (listed fs) (∅, m, fs)
  else (∅, m, fs).

(** [TopicWal::sync] does nothing, so this one cannot fail. *)
Definition sync_all (m : WalManager) : result WalError unit := Ok tt.
Definition list_topics (m : WalManager) : list string := hm_keys (wals m).
End wal.
