(* ===== verification/WalProps.v ===== *)
(** * Recovery from the write-ahead log (src/wal.rs) *)

From S2P Require Import Prelude DdlTypes Wal.
#[local] Open Scope Z_scope.

(** ** Directory names *)

Definition sanitized_nat (a : nat) : nat := if decide (a ∈ unsafe_bytes) then 95%nat else a.

Lemma sanitize_byte_nat c : Ascii.nat_of_ascii (sanitize_byte c) = sanitized_nat (Ascii.nat_of_ascii c).
Proof. unfold sanitize_byte, sanitized_nat. by case_decide. Qed.

Lemma replace_unsafe_bytes s : string_bytes (replace_unsafe s) = sanitized_nat <$> string_bytes s.
Proof. induction s as [|c s IH]; simpl; [done|]. by rewrite sanitize_byte_nat, IH. Qed.

Lemma sanitize_byte_idem c : sanitize_byte (sanitize_byte c) = sanitize_byte c.
Proof.
  unfold sanitize_byte at 2 3. case_decide as Hc; [by vm_compute|].
  unfold sanitize_byte. by rewrite decide_False.
Qed.

Lemma replace_unsafe_idem s : replace_unsafe (replace_unsafe s) = replace_unsafe s.
Proof. induction s as [|c s IH]; simpl; [done|]. by rewrite sanitize_byte_idem, IH. Qed.

(** A byte that is neither an underscore nor replaced was there before. *)
Lemma sanitized_nat_inv a b : sanitized_nat a = b → a = b ∨ b = 95%nat.
Proof. unfold sanitized_nat. case_decide; naive_solver. Qed.

Lemma replace_unsafe_valid s : validate_topic s = Ok tt → validate_topic (replace_unsafe s) = Ok tt.
Proof.
  rewrite !validate_topic_wf. unfold topic_wf. rewrite replace_unsafe_bytes.
  set (l := string_bytes s). rewrite length_fmap.
  assert (Hat : ∀ i b, (sanitized_nat <$> l) !! i = Some b → b = 95%nat ∨ l !! i = Some b).
  { intros i b. rewrite list_lookup_fmap. intros (a & Ha & ->)%fmap_Some.
    destruct (sanitized_nat_inv a _ eq_refl) as [Hs|]; [right; by rewrite <- Hs|by left]. }
  intros (Hlen & Hdot & Hctl & Hc1). split_and!; [lia..| | |].
  - intros i [?|Hi]%Hat; [done|]. intros [?|Hi']%Hat; [done|exact (Hdot i Hi Hi')].
  - intros i a [->|Hi]%Hat; [lia|exact (Hctl i a Hi)].
  - intros i a [?|Hi]%Hat; [lia|]. intros [->|Hi']%Hat; [lia|exact (Hc1 i a Hi Hi')].
Qed.

Lemma sanitize_topic_idem t name : sanitize_topic t = Ok name → sanitize_topic name = Ok name.
Proof.
  unfold sanitize_topic. destruct (validate_topic t) as [[]|] eqn:Hv; [|done]. intros [= <-].
  by rewrite (replace_unsafe_valid _ Hv), replace_unsafe_idem.
Qed.

(** ** Sorting *)

Lemma insert_by_id_perm e l : insert_by_id e l ≡ₚ e :: l.
Proof.
  induction l as [|x l IH]; simpl; [done|]. case_bool_decide; [done|].
  rewrite IH. apply Permutation_swap.
Qed.

Lemma sort_by_id_perm l : sort_by_id l ≡ₚ l.
Proof. induction l as [|e l IH]; simpl; [done|]. by rewrite insert_by_id_perm, IH. Qed.

Lemma sort_by_id_nil l : sort_by_id l = [] ↔ l = [].
Proof.
  split; [|by intros ->]. intros Hs. apply Permutation_nil_r. by rewrite <- (sort_by_id_perm l), Hs.
Qed.

Definition id_le (x y : Entry) : Prop := e_id x ≤ e_id y.

(** Entries that are already in order stay as they are. *)
Lemma sort_by_id_sorted l : StronglySorted id_le l → sort_by_id l = l.
Proof.
  induction 1 as [|e l Hs IH Hall]; simpl; [done|]. rewrite IH.
  destruct Hall; simpl; [done|]. by rewrite bool_decide_true.
Qed.

(** ** Appending *)

#[global] Instance WalError_eq_dec : EqDecision WalError.
Proof. solve_decision. Defined.
#[global] Instance result_eq_dec {E A} `{EqDecision E} `{EqDecision A} : EqDecision (result E A).
Proof. solve_decision. Defined.

Section recovery.
Context `{Waly} `{!Codec Entry} `{HashOrder}.
Implicit Types fs : gmap string wal_file.

(** Appends through one manager, each of which succeeds. *)
Fixpoint run_appends (apps : list (string * Entry)) (m : WalManager) fs :
    option (WalManager * gmap string wal_file) :=
  match apps with
  | [] => Some (m, fs)
  | (topic, e) :: apps =>
      match wal_append (Ok tt) topic e m fs with
      | (Ok _, m', fs') => run_appends apps m' fs'
      | _ => None
      end
  end.

(** The entries appended to topics whose directory is [name], in order. *)
Definition entries_in (name : string) (apps : list (string * Entry)) : list Entry :=
  omap (λ te, if decide (sanitize_topic te.1 = Ok name) then Some te.2 else None) apps.

Definition decoded (f : wal_file) : list Entry := omap (λ r, dec r.2) (waly_records f).

Record wal_inv (apps : list (string * Entry)) (m : WalManager) fs : Prop := {
  wi_handles : ∀ t w, wals m !! t = Some w →
    sanitize_topic t = Ok (tw_path w) ∧ is_Some (fs !! tw_path w);
  wi_files : ∀ name,
    match fs !! name with
    | Some f => sanitize_topic name = Ok name ∧ decoded f = entries_in name apps
    | None => entries_in name apps = []
    end;
}.

Lemma wal_inv_new : wal_inv [] wal_manager_new ∅.
Proof. split; simpl; [intros t w; by rewrite lookup_empty|intros name; by rewrite lookup_empty]. Qed.

Lemma decoded_new o i f : waly_new o = Ok (i, f) →
  decoded f = match o with Some f0 => decoded f0 | None => [] end.
Proof. intros Hn. unfold decoded. rewrite (waly_new_records _ _ _ Hn). by destruct o. Qed.

Lemma wal_get_or_create_inv apps topic m fs w m' fs' :
  wal_inv apps m fs → wal_get_or_create (Ok tt) topic m fs = (Ok w, m', fs') →
  wal_inv apps m' fs' ∧ wals m' !! topic = Some w.
Proof.
  intros [Hh Hf]. unfold wal_get_or_create. destruct (wals m !! topic) as [w0|] eqn:Hw.
  { intros [= <- <- <-]. by split. }
  unfold topic_wal_open. destruct (sanitize_topic topic) as [name|] eqn:Hs; [|done].
  destruct (waly_new (fs !! name)) as [[i f]|] eqn:Hn; [|done]. intros [= <- <- <-].
  split; [|simpl; by rewrite lookup_insert_eq]. split; simpl.
  - intros t w'. map_cases t topic.
    + intros [= <-]. simpl. by rewrite lookup_insert_eq.
    + intros [Hp Hl]%Hh. split; [done|]. map_cases (tw_path w') name; [done|done].
  - intros name'. specialize (Hf name'). map_cases name' name; [|done].
    rewrite (decoded_new _ _ _ Hn). split; [by eapply sanitize_topic_idem|].
    destruct (fs !! name); naive_solver.
Qed.

Lemma wal_append_inv apps topic e m fs id m' fs' :
  wal_inv apps m fs → wal_append (Ok tt) topic e m fs = (Ok id, m', fs') →
  wal_inv (apps ++ [(topic, e)]) m' fs'.
Proof.
  intros Hinv. unfold wal_append.
  destruct (wal_get_or_create (Ok tt) topic m fs) as [[[w|] m1] fs1] eqn:Hg; [|done].
  destruct (wal_get_or_create_inv _ _ _ _ _ _ _ Hinv Hg) as [[Hh Hf] Hw].
  destruct (Hh _ _ Hw) as [Hs [f Hfl]]. unfold topic_wal_append.
  destruct (enc e) as [data|] eqn:He; [|done]. rewrite Hfl.
  destruct (waly_append data (tw_wal w) f) as [[[id' wal']|] f'] eqn:Ha; [|done].
  intros [= <- <- <-]. split; simpl.
  - intros t w'. map_cases t topic.
    + intros [= <-]. simpl. by rewrite lookup_insert_eq.
    + intros [Hp Hl]%Hh. split; [done|]. map_cases (tw_path w') (tw_path w); [done|done].
  - intros name. specialize (Hf name). unfold entries_in. rewrite omap_app. simpl.
    map_cases name (tw_path w).
    + rewrite Hfl in Hf. destruct Hf as [? Hd]. split; [done|].
      rewrite decide_True by done. unfold decoded in *.
      rewrite (waly_append_records _ _ _ _ _ _ Ha), omap_app, Hd. simpl. by rewrite (dec_enc _ _ He).
    + rewrite decide_False by congruence. by rewrite app_nil_r.
Qed.

Lemma run_appends_inv apps : ∀ done m fs m' fs',
  wal_inv done m fs → run_appends apps m fs = Some (m', fs') → wal_inv (done ++ apps) m' fs'.
Proof.
  induction apps as [|[topic e] apps IH]; intros done m fs m' fs' Hinv; simpl.
  { intros [= <- <-]. by rewrite app_nil_r. }
  destruct (wal_append (Ok tt) topic e m fs) as [[[id|] m1] fs1] eqn:Ha; [|done].
  intros Hr. rewrite cons_middle, app_assoc. eapply IH, Hr. by eapply wal_append_inv.
Qed.

(** ** Recovering *)

(** Opening a file and reading it back do not fail. *)
Definition waly_reads : Prop :=
  ∀ f i f', waly_new (Some f) = Ok (i, f') → is_ok (waly_read_all i f') = true.
Definition waly_opens : Prop := ∀ f, is_ok (waly_new (Some f)) = true.

Lemma recover_dir_spec name rec m fs f :
  waly_opens → waly_reads →
  sanitize_topic name = Ok name → wals m !! name = None → fs !! name = Some f →
  ∃ w f', recover_dir (Ok tt) name (rec, m, fs) =
    (let es := sort_by_id (decoded f) in
     if bool_decide (es = []) then rec else <[name := es]> rec,
     mkWalManager (<[name := w]> (wals m)), <[name := f']> fs).
Proof.
  intros Ho Hr Hs Hm Hfs. unfold recover_dir, unsanitize_topic, wal_get_or_create, topic_wal_open.
  rewrite Hm, Hs, Hfs. specialize (Ho f).
  destruct (waly_new (Some f)) as [[i f']|] eqn:Hn; [|done]. specialize (Hr _ _ _ Hn).
  unfold read_entries. simpl. rewrite lookup_insert_eq.
  destruct (waly_read_all i f') as [l|] eqn:Hl; [|done].
  rewrite (waly_read_all_records _ _ _ Hl). change (omap _ (waly_records f')) with (decoded f').
  rewrite (decoded_new _ _ _ Hn). rewrite insert_insert_eq. eauto.
Qed.

Lemma recover_loop_spec names : ∀ rec m fs,
  waly_opens → waly_reads → NoDup names →
  (∀ name, name ∈ names → sanitize_topic name = Ok name ∧ wals m !! name = None ∧
     is_Some (fs !! name)) →
  let rec' := (fold_left (λ acc name, recover_dir (Ok tt) name acc) names (rec, m, fs)).1.1 in
  ∀ name, rec' !! name =
    if decide (name ∈ names)
    then (let es := sort_by_id (default [] (decoded <$> fs !! name)) in
          if bool_decide (es = []) then rec !! name else Some es)
    else rec !! name.
Proof.
  induction names as [|n names IH]; intros rec m fs Ho Hr Hnd Hok; cbn [fold_left].
  { intros name. rewrite decide_False by apply not_elem_of_nil. done. }
  apply NoDup_cons in Hnd as [Hn Hnd]. destruct (Hok n ltac:(left)) as (Hs & Hm & f & Hf).
  destruct (recover_dir_spec n rec m fs f Ho Hr Hs Hm Hf) as (w & f' & ->).
  intros name. rewrite IH; [|done..|].
  2:{ intros name' Hin. assert (name' ≠ n) by (by intros ->).
      destruct (Hok name' ltac:(by right)) as (? & ? & ?). simpl. by rewrite !lookup_insert_ne. }
  destruct (decide (name = n)) as [->|Hne].
  - rewrite decide_False by done. rewrite decide_True by left. rewrite Hf. simpl.
    case_bool_decide; [done|by rewrite lookup_insert_eq].
  - rewrite lookup_insert_ne by done.
    assert (Hrec : ∀ es : list Entry, (if bool_decide (es = []) then rec else <[n:=es]> rec) !! name
      = rec !! name) by (intros es; case_bool_decide; [done|by rewrite lookup_insert_ne]).
    rewrite Hrec. destruct (decide (name ∈ names)).
    + by rewrite decide_True by (by right).
    + by rewrite (decide_False (P := name ∈ n :: names)) by (by intros [|]%elem_of_cons).
Qed.

Lemma recover_all_lookup apps m fs name :
  waly_opens → waly_reads → wal_inv apps m fs →
  (recover_all true (Ok tt) wal_manager_new fs).1.1 !! name =
    if decide (name = "." ∨ entries_in name apps = []) then None
    else Some (sort_by_id (entries_in name apps)).
Proof.
  intros Ho Hr [_ Hf].
  unfold recover_all. rewrite recover_loop_spec; [|done|done| |].
  - unfold listed. specialize (Hf name). destruct (decide (name = ".")) as [->|Hdot].
    { rewrite (decide_True (P := _ ∨ _)) by (by left). rewrite decide_False; [done|].
      by rewrite list_elem_of_filter; intros [? _]. }
    destruct (decide (name ∈ _)) as [[_ Hin]%list_elem_of_filter|Hin].
    + apply elem_of_hm_keys in Hin as [f Hfl]. rewrite Hfl in *. destruct Hf as [_ Hd]. simpl.
      rewrite Hd. case_bool_decide as He.
      * rewrite decide_True; [done|]. right. by apply sort_by_id_nil.
      * rewrite decide_False; [done|]. intros [?|Hnil]; [done|]. destruct He. by apply sort_by_id_nil.
    + rewrite decide_True; [done|]. right. destruct (fs !! name) as [f|] eqn:Hfl; [|done].
      destruct Hin. apply list_elem_of_filter. split; [done|]. by apply elem_of_hm_keys.
  - apply NoDup_filter, NoDup_hm_keys.
  - intros n [_ Hn]%list_elem_of_filter. apply elem_of_hm_keys in Hn as [f Hn].
    specialize (Hf n). rewrite Hn in Hf. destruct Hf as [Hs _]. split_and!; [done|by apply lookup_empty|done].
Qed.

(** The directory of topic [t] is shared with no other topic of the run. *)
Definition own_directory (t : string) (apps : list (string * Entry)) : Prop :=
  ∀ t' e, (t', e) ∈ apps → sanitize_topic t' = Ok t → t' = t.

Definition entries_of_topic (t : string) (apps : list (string * Entry)) : list Entry :=
  (filter (λ te, te.1 = t) apps).*2.

Lemma entries_in_own t apps :
  sanitize_topic t = Ok t → own_directory t apps → entries_in t apps = entries_of_topic t apps.
Proof.
  intros Hs. induction apps as [|[t' e] apps IH]; intros Hown; [done|].
  assert (own_directory t apps) as Happs%IH by (intros ? ? ?; eapply Hown; by right).
  unfold entries_of_topic in *. rewrite filter_cons. simpl.
  destruct (decide (t' = t)) as [->|Hne]; unfold entries_in in *; simpl.
  - rewrite decide_True by done. simpl. f_equal. exact Happs.
  - rewrite decide_False; [exact Happs|]. intros Ht. apply Hne. eapply Hown; [left|done].
Qed.

(** C26: recovery. Start from an empty directory and append any entries to any
    topics, each append succeeding; a new manager that scans the directory
    recovers, under each directory name except ".", all entries of all topics
    with that name after replacing unsafe characters, merged and sorted by id,
    and nothing else. So a topic with a directory of its own, whose name needs
    no replacing, gets back exactly its entries in the order of their ids, and
    two topics whose names differ only in unsafe characters get each other's. *)
Theorem wal_recovers (apps : list (string * Entry)) (m : WalManager)
    (fs : gmap string wal_file) :
  waly_opens → waly_reads → run_appends apps wal_manager_new ∅ = Some (m, fs) →
  let recovered := (recover_all true (Ok tt) wal_manager_new fs).1.1 in
  (∀ name, recovered !! name =
     if decide (name = "." ∨ entries_in name apps = []) then None
     else Some (sort_by_id (entries_in name apps))) ∧
  (∀ t, t ≠ "." → sanitize_topic t = Ok t → own_directory t apps →
     entries_of_topic t apps ≠ [] → StronglySorted id_le (entries_of_topic t apps) →
     recovered !! t = Some (entries_of_topic t apps)).
Proof.
  intros Ho Hr Hrun recovered.
  pose proof (run_appends_inv apps [] _ _ _ _ wal_inv_new Hrun) as Hinv. split.
  - intros name. by apply (recover_all_lookup apps m).
  - intros t Hdot Hs Hown Hne Hsorted. unfold recovered.
    rewrite (recover_all_lookup apps m fs t Ho Hr Hinv), entries_in_own by done.
    rewrite decide_False by (by intros [?|?]). by rewrite sort_by_id_sorted.
Qed.
End recovery.

(** ** A concrete log: the list of its records, numbered from 1 *)

Section concrete.
#[local] Program Instance list_waly : Waly := {|
  wal_file := list (Z * bytes); wal_inst := unit;
  waly_new o := Ok (tt, default [] o);
  waly_append d _ f := (Ok (Z.of_nat (length f) + 1, tt), f ++ [(Z.of_nat (length f) + 1, d)]);
  waly_read_all _ f := Ok f;
  waly_records f := f |}.
Next Obligation. intros [f0|] i f [= _ <-]; done. Qed.
Next Obligation. intros d i f id i' f' [= <- _ <-]. done. Qed.
Next Obligation. by intros i f l [= <-]. Qed.

#[local] Program Instance Entry_countable : Countable Entry :=
  inj_countable' (λ e, (e_id e, e_timestamp e, e_topic e, e_payload e))
    (λ '(i, t, n, p), mkEntry i t n p) _.
Next Obligation. by intros []. Qed.
#[local] Instance entry_codec : Codec Entry := bits_codec Entry.
#[local] Existing Instance canonical_order.

(** Two topics whose directories coincide, and one with its own. *)
Definition sample_apps : list (string * Entry) :=
  [("a/b", mkEntry 0 1 "a/b" [10]); ("t", mkEntry 0 2 "t" [7]);
   ("a:b", mkEntry 0 3 "a:b" [20]); ("t", mkEntry 1 4 "t" [8])].

Lemma wal_recovers_witness :
  ∃ m fs, run_appends sample_apps wal_manager_new ∅ = Some (m, fs) ∧
    let recovered := (recover_all true (Ok tt) wal_manager_new fs).1.1 in
    recovered !! "a_b" = Some [mkEntry 0 1 "a/b" [10]; mkEntry 0 3 "a:b" [20]] ∧
    recovered !! "t" = Some [mkEntry 0 2 "t" [7]; mkEntry 1 4 "t" [8]].
Proof.
  eexists _, _. split; [reflexivity|].
  destruct (wal_recovers sample_apps _ _ ltac:(by intros f) ltac:(by intros f i f' [= <- <-])
    eq_refl) as [H1 _].
  split; [rewrite (H1 "a_b")|rewrite (H1 "t")]; reflexivity.
Defined.
End concrete.
