(* ===== verification/ConcurrentWal.v ===== *)
(** * Concurrent use of the write-ahead log ([WalManager], src/wal.rs)

    Handles on a topic's log share one open instance.  [get_or_create] looks the
    topic up under the read lock, opens the file without a lock and registers the
    instance under the write lock; appending takes the instance's own lock.  The
    instances are in a store here and a handle is an index into it, so that
    sharing is visible. *)

From S2P Require Import Prelude DdlTypes Wal Interleaving.
#[local] Open Scope Z_scope.

Section wal.
Context `{Waly} `{!Codec Entry}.

Record WShared := mkWShared {
  ws_wals : gmap string nat;
  ws_instances : list TopicWal;
  ws_files : gmap string wal_file;
}.

(** Where an [append] is: not begun, missed the topic, opened an instance, has a
    handle, ended with the handle it used. *)
Inductive WThread :=
| AppendStart (topic : string) (entry : Entry)
| AppendMissed (topic : string) (entry : Entry)
| AppendOpened (topic : string) (entry : Entry) (handle : nat)
| AppendReady (topic : string) (entry : Entry) (handle : nat)
| AppendDone (topic : string) (handle : option nat) (r : result WalError Z).

(** [self.wals.read()] and the lookup *)
Definition wal_lookup (topic : string) (entry : Entry) (s : WShared) : WThread :=
  match ws_wals s !! topic with
  | Some h => AppendReady topic entry h
  | None => AppendMissed topic entry
  end.

(** [TopicWal::open] *)
Definition wal_open (mkdir : result string unit) (topic : string) (entry : Entry) (s : WShared) :
    WThread * WShared :=
  match topic_wal_open mkdir topic (ws_files s) with
  | (Err e, fs) => (AppendDone topic None (Err e), mkWShared (ws_wals s) (ws_instances s) fs)
  | (Ok w, fs) =>
      (AppendOpened topic entry (length (ws_instances s)),
       mkWShared (ws_wals s) (ws_instances s ++ [w]) fs)
  end.

(** [wals.insert(topic, wal.clone())] *)
Definition wal_store (topic : string) (entry : Entry) (h : nat) (s : WShared) : WThread * WShared :=
  (AppendReady topic entry h, mkWShared (<[topic := h]> (ws_wals s)) (ws_instances s) (ws_files s)).

(** [TopicWal::append] with the instance's lock held *)
Definition wal_write (topic : string) (entry : Entry) (h : nat) (s : WShared) :
    option (WThread * WShared) :=
  w ← ws_instances s !! h;
  let '(r, w', fs) := topic_wal_append entry w (ws_files s) in
  Some (AppendDone topic (Some h) r, mkWShared (ws_wals s) (<[h := w']> (ws_instances s)) fs).

Definition wstep (mkdir : result string unit) (i : nat) (l : WThread) (s : WShared) :
    option (WThread * WShared) :=
  match l with
  | AppendStart t e => Some (wal_lookup t e s, s)
  | AppendMissed t e => Some (wal_open mkdir t e s)
  | AppendOpened t e h => Some (wal_store t e h s)
  | AppendReady t e h => wal_write t e h s
  | AppendDone _ _ _ => None
  end.

(** ** One append, undisturbed *)

(** The manager as [Wal] has it: every topic with its instance. *)
Definition manager_of (s : WShared) : WalManager :=
  mkWalManager (omap (λ h, ws_instances s !! h) (ws_wals s)).

(** Handles are of instances that exist, each of one topic. *)
Definition handles_wf (s : WShared) : Prop :=
  (∀ t h, ws_wals s !! t = Some h → (h < length (ws_instances s))%nat) ∧
  (∀ t1 t2 h, ws_wals s !! t1 = Some h → ws_wals s !! t2 = Some h → t1 = t2).

(** The instance of a registered topic replaced. *)
Lemma manager_write s t h w fs :
  handles_wf s → ws_wals s !! t = Some h →
  manager_of (mkWShared (ws_wals s) (<[h := w]> (ws_instances s)) fs) =
  mkWalManager (<[t := w]> (wals (manager_of s))).
Proof.
  intros [Hlt Hinj] Ht. unfold manager_of. simpl. f_equal. apply map_eq. intros t'.
  rewrite lookup_omap. map_cases t' t; rewrite ?Ht; simpl.
  - apply list_lookup_insert_eq. by eapply Hlt.
  - rewrite lookup_omap. destruct (ws_wals s !! t') as [h'|] eqn:Ht'; [|done]. simpl.
    apply list_lookup_insert_ne. intros <-. by pose proof (Hinj t' t h Ht' Ht).
Qed.

(** An instance opened and registered. *)
Lemma manager_store s t w fs :
  handles_wf s →
  let s' := mkWShared (<[t := length (ws_instances s)]> (ws_wals s)) (ws_instances s ++ [w]) fs in
  manager_of s' = mkWalManager (<[t := w]> (wals (manager_of s))) ∧ handles_wf s'.
Proof.
  intros [Hlt Hinj]. simpl. split.
  - unfold manager_of. simpl. f_equal. apply map_eq. intros t'. rewrite lookup_omap.
    map_cases t' t; simpl; [by rewrite lookup_app_r, Nat.sub_diag|]. rewrite lookup_omap.
    destruct (ws_wals s !! t') as [h'|] eqn:Ht'; [|done]. simpl. apply lookup_app_l. by eapply Hlt.
  - split; simpl.
    + intros t' h. rewrite length_app. simpl. map_cases t' t; [intros [= <-]; lia|].
      intros Hh. specialize (Hlt t' h Hh). lia.
    + intros t1 t2 h. map_cases t1 t; map_cases t2 t; try done; [| |by apply Hinj].
      * intros [= <-] Hh. specialize (Hlt t2 _ Hh). lia.
      * intros Hh [= <-]. specialize (Hlt t1 _ Hh). lia.
Qed.

(** A thread that appends while nobody else runs does what [wal_append] does. *)
Lemma append_alone mkdir i t e s :
  handles_wf s →
  let '(r, m, fs) := wal_append mkdir t e (manager_of s) (ws_files s) in
  ∃ o s', run_alone (wstep mkdir) 4 i (AppendStart t e) s = (AppendDone t o r, s') ∧
    handles_wf s' ∧ manager_of s' = m ∧ ws_files s' = fs.
Proof.
  intros Hwf. pose proof Hwf as [Hlt _].
  assert (Hready : ∀ s h w, handles_wf s → ws_wals s !! t = Some h → ws_instances s !! h = Some w →
    let '(r, w', fs) := topic_wal_append e w (ws_files s) in
    ∃ s', wal_write t e h s = Some (AppendDone t (Some h) r, s') ∧ handles_wf s' ∧
      manager_of s' = mkWalManager (<[t := w']> (wals (manager_of s))) ∧ ws_files s' = fs).
  { intros s1 h w Hwf1 Hh Hw. unfold wal_write. rewrite Hw. simpl.
    destruct (topic_wal_append e w (ws_files s1)) as [[r w'] fs]. eexists. split; [done|].
    split_and!; [|by apply manager_write|done]. destruct Hwf1 as [Hl Hi].
    split; simpl; [intros t' h' Hh'; rewrite length_insert; by eapply Hl|done]. }
  unfold wal_append, wal_get_or_create. cbn [run_alone wstep]. unfold wal_lookup.
  unfold manager_of at 1. cbn [wals]. rewrite lookup_omap.
  destruct (ws_wals s !! t) as [h|] eqn:Hh; simpl.
  - destruct (lookup_lt_is_Some_2 (ws_instances s) h (Hlt t h Hh)) as [w Hw]. rewrite Hw.
    specialize (Hready s h w Hwf Hh Hw). destruct (topic_wal_append e w (ws_files s)) as [[r w'] fs].
    destruct Hready as (s' & Hs' & Hwf' & Hm & Hf). rewrite Hs'. exists (Some h), s'.
    by split_and!.
  - unfold wal_open. destruct (topic_wal_open mkdir t (ws_files s)) as [[w|er] fs].
    + simpl. destruct (manager_store s t w fs Hwf) as [Hm Hwf1].
      set (s1 := mkWShared (<[t := length (ws_instances s)]> (ws_wals s)) (ws_instances s ++ [w]) fs) in *.
      specialize (Hready s1 (length (ws_instances s)) w Hwf1 (lookup_insert_eq _ _ _)
                    (list_lookup_middle _ _ _ _ eq_refl)).
      cbn [ws_files s1] in Hready. destruct (topic_wal_append e w fs) as [[r w'] fs'].
      destruct Hready as (s' & Hs' & Hwf' & Hm' & Hf). unfold wal_store. simpl. fold s1. rewrite Hs'.
      exists (Some (length (ws_instances s))), s'. rewrite Hm in Hm'. by split_and!.
    + by exists None, (mkWShared (ws_wals s) (ws_instances s) fs).
Qed.

(** ** A topic that is open *)

(** Which handles a thread may hold for [topic], registered under [h]. *)
Definition uses_handle (topic : string) (h : nat) (l : WThread) : Prop :=
  match l with
  | AppendStart _ _ => True
  | AppendMissed t _ | AppendOpened t _ _ => t ≠ topic
  | AppendReady t _ h' => t = topic → h' = h
  | AppendDone t o _ => t = topic → o = Some h
  end.

Lemma uses_handle_step mkdir topic h i l s l' s' :
  ws_wals s !! topic = Some h → uses_handle topic h l → wstep mkdir i l s = Some (l', s') →
  ws_wals s' !! topic = Some h ∧ uses_handle topic h l'.
Proof.
  intros HJ HA Hst. destruct l as [t e|t e|t e h'|t e h'|t o r]; simpl in Hst, HA; [..|done].
  - injection Hst as <- <-. split; [done|]. unfold wal_lookup.
    destruct (ws_wals s !! t) eqn:Et; simpl; congruence.
  - injection Hst as Hst. unfold wal_open in Hst.
    destruct (topic_wal_open mkdir t (ws_files s)) as [[w|e'] fs]; simplify_eq/=; by split.
  - injection Hst as <- <-. simpl. by rewrite lookup_insert_ne.
  - unfold wal_write in Hst. destruct (ws_instances s !! h') as [w|]; simpl in Hst; [|done].
    destruct (topic_wal_append e w (ws_files s)) as [[r w'] fs]. simplify_eq. simpl.
    split; [done|]. intros Ht. by rewrite (HA Ht).
Qed.

(** Callers of a topic that is open all use the same instance, and it stays
    registered, whatever other topics are opened meanwhile. *)
Theorem open_topic_shared mkdir topic h (s : WShared) (ls : list WThread) (sch : list nat) :
  ws_wals s !! topic = Some h → Forall (λ l, ∃ t e, l = AppendStart t e) ls →
  let c := run_schedule (wstep mkdir) sch (mkMachine s ls) in
  ws_wals (shared c) !! topic = Some h ∧
  ∀ i o r, threads c !! i = Some (AppendDone topic o r) → o = Some h.
Proof.
  intros Hs Hls c. set (J := λ (_ : unit) s, ws_wals s !! topic = Some h).
  set (A := λ (_ : unit) (_ : nat) l (_ : WShared), uses_handle topic h l).
  assert (preserved (wstep mkdir) J A (=)) as Hp.
  { intros [] i l s1 l' s2 HJ HA Hst. exists tt.
    destruct (uses_handle_step _ _ _ _ _ _ _ _ HJ HA Hst) as [HJ' HA']. by split_and!. }
  assert (holds_with J A tt (mkMachine s ls)) as Hstart.
  { split; [done|]. intros i l Hl. by destruct (Forall_lookup_1 _ _ _ _ Hls Hl) as (t & e & ->). }
  destruct (owicki_gries (wstep mkdir) J A (=) tt _ sch Hp Hstart) as ([] & _ & HJ & HA).
  split; [done|]. intros i o r Hi. exact (HA i _ Hi eq_refl).
Qed.
End wal.

(** ** First appends to a topic *)

Section concrete.
#[local] Program Instance list_waly : Waly := {|
  wal_file := list (Z * bytes); wal_inst := unit;
  waly_new o := Ok (tt, default [] o);
  waly_append d _ f := (Ok (Z.of_nat (length f) + 1, tt), f ++ [(Z.of_nat (length f) + 1, d)]);
  waly_read_all _ f := Ok f;
  waly_records f := f |}.
Next Obligation. intros [f0|] i f [= _ <-]; done. Qed.
Next Obligation. intros d i f id i' f' [= <- _ <-]. done. Qed.
Next Obligation. by intros i f l [= <-]. Qed.

#[local] Program Instance Entry_countable : Countable Entry :=
  inj_countable' (λ e, (e_id e, e_timestamp e, e_topic e, e_payload e))
    (λ '(i, t, n, p), mkEntry i t n p) _.
Next Obligation. by intros []. Qed.
#[local] Instance entry_codec : Codec Entry := bits_codec Entry.

Definition first (n : Z) : WThread := AppendStart "t" (mkEntry n 1 "t" [n]).

(** Two first appends to a topic that overlap open its file twice and write to it
    through two instances, whose locks do not exclude each other. *)
Lemma first_appends_open_twice :
  let c := run_schedule (wstep (Ok tt)) [0; 1; 0; 1; 0; 1; 0; 1]%nat
             (mkMachine (mkWShared ∅ [] ∅) [first 0; first 1]) in
  threads c = [AppendDone "t" (Some 0%nat) (Ok 1); AppendDone "t" (Some 1%nat) (Ok 2)] ∧
  (tw_path <$> ws_instances (shared c)) = ["t"; "t"] ∧ ws_wals (shared c) !! "t" = Some 1%nat.
Proof. vm_compute. by split_and!. Qed.

(** The topic after a first append that ran alone. *)
Definition opened : WShared :=
  shared (run_schedule (wstep (Ok tt)) [0; 0; 0; 0]%nat (mkMachine (mkWShared ∅ [] ∅) [first 9])).

Lemma open_topic_shared_witness :
  let c := run_schedule (wstep (Ok tt)) [0; 1; 1; 0]%nat (mkMachine opened [first 0; first 1]) in
  threads c !! 0%nat = Some (AppendDone "t" (Some 0%nat) (Ok 3)) ∧ ws_wals (shared c) !! "t" = Some 0%nat.
Proof.
  split; [vm_compute; reflexivity|].
  apply (open_topic_shared (Ok tt) "t" 0 opened [first 0; first 1] [0; 1; 1; 0]%nat).
  - reflexivity.
  - repeat constructor; by eexists _, _.
Defined.
End concrete.
