(* ===== verification/DdlWal.v ===== *)
(** * The durable log service (src/ddl_wal.rs)

    [DdlWithWal] pushes to the in-memory service first and then appends the
    entry, stamped anew, to the topic's write-ahead log.  The data directory is
    threaded next to the instance; a new instance starts from the directory an
    earlier one left. *)

From S2P Require Import Prelude LockUtils Ownership RaftCluster DdlTypes TopicQueue Subscribers Peer.
From S2P Require Import Gossip Ddl DdlProps Wal WalProps.
#[local] Open Scope Z_scope.

Section durable.
Context {C : Type} `{!Channel C} `{TopicHash} `{HashOrder}.
Context `{!Codec GossipMessage} `{!Codec PeerRequest} `{Waly} `{!Codec Entry}.
Implicit Types d : @DdlDistributed C _.
Implicit Types fs : gmap string wal_file.

Record DdlWithWal := mkDurable {
  dw_inner : @DdlDistributed C _;
  dw_wal : WalManager;
  dw_sync_interval : Z;
  dw_entries_since_sync : Z;
}.

Definition ddl_with_wal_new (config : DdlConfig) : DdlWithWal :=
  mkDurable (new_standalone config) wal_manager_new 100 0.

(** The tail of [push]: count the entry, and sync and reset the counter once
    the interval is reached, if the sync lock is free. *)
Definition count_and_sync (lock_free : bool) (w : DdlWithWal) : DdlWithWal :=
  let count := dw_entries_since_sync w in
  let counted := u64_add count 1 in
  mkDurable (dw_inner w) (dw_wal w) (dw_sync_interval w)
    (if bool_decide (dw_sync_interval w ≤ count) && lock_free then 0 else counted).

(** [now] is the clock the in-memory entry is stamped with, [wal_now] the one
    of the logged entry; [None] while a blocking subscriber waits. *)
Definition dw_push (now wal_now : Z) (lin : raft_answer) (mkdir : result string unit)
    (lock_free : bool) (topic : string) (payload : bytes) (w : DdlWithWal) fs :
    option (result DdlError Z * DdlWithWal * gmap string wal_file) :=
  '(r, inner) ← d_push now lin topic payload (dw_inner w);
  let w1 := mkDurable inner (dw_wal w) (dw_sync_interval w) (dw_entries_since_sync w) in
  match r with
  | Err e => Some (Err e, w1, fs)
  | Ok id =>
      let entry := Entry_new wal_now id topic payload in
      let '(ra, wal', fs') := wal_append mkdir topic entry (dw_wal w) fs in
      let w2 := mkDurable inner wal' (dw_sync_interval w) (dw_entries_since_sync w) in
      match ra with
      | Err e => Some (Err (DdlError_from_wal e), w2, fs')
      | Ok _ => Some (Ok id, count_and_sync lock_free w2, fs')
      end
  end.

Definition with_inner (w : DdlWithWal) d : DdlWithWal :=
  mkDurable d (dw_wal w) (dw_sync_interval w) (dw_entries_since_sync w).

Definition dw_ack (topic : string) (id : Z) (w : DdlWithWal) : result DdlError unit * DdlWithWal :=
  let '(r, d) := d_ack topic id (dw_inner w) in (r, with_inner w d).

Definition dw_subscribe (now : Z) (topic : string) (w : DdlWithWal) :=
  let '(r, d) := d_subscribe now topic (dw_inner w) in (r, with_inner w d).

Definition dw_position (topic : string) (w : DdlWithWal) : result DdlError Z :=
  d_position topic (dw_inner w).

Definition dw_owns_topic (topic : string) (w : DdlWithWal) : bool :=
  owns_topic_internal topic (dw_inner w).

(** ** Ids *)

Definition next_id (t : string) d : Z :=
  match d_topics d !! t with Some q => position q | None => 0 end.

Lemma precreated_position config t q : precreated config !! t = Some q → position q = 0.
Proof.
  unfold precreated. set (m0 := ∅ : gmap string TopicQueue).
  assert (Hm0 : ∀ q, m0 !! t = Some q → position q = 0) by (intros q0; unfold m0; by rewrite lookup_empty).
  clearbody m0. revert m0 Hm0. induction (cfg_owned_topics config) as [|t' ts IH]; simpl; [auto|].
  intros m0 Hm0. apply IH. intros q0. map_cases t t'; [by intros [= <-]|apply Hm0].
Qed.

Lemma next_id_new config t : next_id t (new_standalone config) = 0.
Proof.
  unfold next_id. simpl. destruct (precreated config !! t) eqn:Hq; [|done].
  by eapply precreated_position.
Qed.

(** A push that is accepted takes the next id of its topic; one that fails may have
    taken it too, when a subscriber refused the stored entry; other topics are left
    alone. *)
Lemma d_push_next_id now lin topic payload d r d' :
  d_push now lin topic payload d = Some (r, d') →
  (∀ t, t ≠ topic → next_id t d' = next_id t d) ∧
  match r with
  | Ok id => id = next_id topic d ∧ next_id topic d' = u64_add id 1
  | Err _ => next_id topic d' = next_id topic d ∨ next_id topic d' = u64_add (next_id topic d) 1
  end.
Proof.
  unfold d_push. destruct (validate_topic topic) as [[]|]; [|intros [= <- <-]; auto].
  destruct (owns_topic_async now lin topic d); [|intros [= <- <-]; auto].
  destruct (get_or_create_topic topic d) as [r1 d1] eqn:Hg.
  assert (Hnext : (∀ q, r1 = Ok q → position q = next_id topic d) ∧ ∀ t, next_id t d1 = next_id t d).
  { revert Hg. unfold get_or_create_topic, next_id.
    destruct (d_topics d !! topic) as [q0|] eqn:Hq; [intros [= <- <-]; split; [by intros ? [= <-]|done]|].
    destruct (_ && _); intros [= <- <-]; (split; [by intros ? [= <-]|]); [done|].
    intros t. simpl. map_cases t topic; [by rewrite Hq|done]. }
  destruct Hnext as [Hpos Hother]. destruct r1 as [q|e]; [|intros [= <- <-]; auto].
  specialize (Hpos q eq_refl).
  destruct (push_and_notify now topic payload q d1) as [[[r2 q'] d2]|] eqn:Hp; [|done].
  intros [= <- <-]. apply push_and_notify_frame in Hp as (-> & Ht & _ & _ & _ & Hres).
  split; [intros t Hne; rewrite <- Hother; unfold next_id; by rewrite Ht, lookup_insert_ne|].
  assert (next_id topic d2 = position (push now topic payload q).2) as ->
    by (unfold next_id; by rewrite Ht, lookup_insert_eq).
  rewrite <- Hpos. revert Hres. unfold push. destruct (entries_poisoned q); simpl; [intros ->; auto|].
  case_bool_decide; simpl; [intros ->; auto|]. intros [->|[-> _]]; auto.
Qed.

Lemma next_id_get_or_create topic d r d1 t :
  get_or_create_topic topic d = (r, d1) → next_id t d1 = next_id t d.
Proof.
  unfold get_or_create_topic, next_id. destruct (d_topics d !! topic) as [q|] eqn:Hq.
  { by intros [= <- <-]. }
  destruct (_ && _); intros [= <- <-]; [done|]. simpl. map_cases t topic; [by rewrite Hq|done].
Qed.

Lemma next_id_ack topic id d t : next_id t (d_ack topic id d).2 = next_id t d.
Proof.
  unfold d_ack, next_id. destruct (d_topics d !! topic) as [q|] eqn:Hq; simpl; [|done].
  map_cases t topic; [|done]. rewrite Hq. unfold ack. by case_bool_decide.
Qed.

Lemma next_id_subscribe now topic d t : next_id t (d_subscribe now topic d).2 = next_id t d.
Proof.
  unfold d_subscribe. destruct (validate_topic topic); [|done].
  destruct (get_or_create_topic topic d) as [[q|e] d1] eqn:Hg; simpl;
    by rewrite <- (next_id_get_or_create _ _ _ _ t Hg).
Qed.

(** ** Runs *)

(** The calls of one life of the service. *)
Inductive durable_op :=
| DwPush (now wal_now : Z) (lin : raft_answer) (lock_free : bool) (topic : string) (payload : bytes)
| DwAck (topic : string) (id : Z)
| DwSubscribe (now : Z) (topic : string).

(** The entries of the pushes that returned an id, in order.  Pushes that the
    in-memory service refuses are part of a run; a push that waits for ever, or whose
    entry the write-ahead log fails to append, is not. *)
Fixpoint run_durable (ops : list durable_op) (w : DdlWithWal) fs :
    option (list (string * Entry) * DdlWithWal * gmap string wal_file) :=
  match ops with
  | [] => Some ([], w, fs)
  | DwPush now wal_now lin lock_free topic payload :: ops =>
      match d_push now lin topic payload (dw_inner w),
            dw_push now wal_now lin (Ok tt) lock_free topic payload w fs with
      | _, Some (Ok id, w', fs') =>
          '(acked, w2, fs2) ← run_durable ops w' fs';
          Some ((topic, mkEntry id wal_now topic payload) :: acked, w2, fs2)
      | Some (Err _, _), Some (Err _, w', fs') => run_durable ops w' fs'
      | _, _ => None
      end
  | DwAck topic id :: ops => run_durable ops (dw_ack topic id w).2 fs
  | DwSubscribe now topic :: ops => run_durable ops (dw_subscribe now topic w).2 fs
  end.

(** Several lives on one directory, each a new instance. *)
Fixpoint run_lives (config : DdlConfig) (lives : list (list durable_op)) fs :
    option (list (list (string * Entry)) * gmap string wal_file) :=
  match lives with
  | [] => Some ([], fs)
  | ops :: lives =>
      '(acked, _, fs') ← run_durable ops (ddl_with_wal_new config) fs;
      '(ackeds, fs2) ← run_lives config lives fs';
      Some (acked :: ackeds, fs2)
  end.

Lemma dw_push_inv apps now wal_now lin lf topic payload w fs id w' fs' :
  wal_inv apps (dw_wal w) fs →
  dw_push now wal_now lin (Ok tt) lf topic payload w fs = Some (Ok id, w', fs') →
  d_push now lin topic payload (dw_inner w) = Some (Ok id, dw_inner w') ∧
  wal_inv (apps ++ [(topic, mkEntry id wal_now topic payload)]) (dw_wal w') fs'.
Proof.
  intros Hinv. unfold dw_push.
  destruct (d_push now lin topic payload (dw_inner w)) as [[[id0|e] d1]|] eqn:Hp; simpl; [|done..].
  destruct (wal_append _ _ _ _ _) as [[[x|e] m1] fs1] eqn:Ha; [|done].
  intros [= <- <- <-]. split; [done|]. by eapply wal_append_inv.
Qed.

(** Ids of one topic's entries, in the order of the pushes: from [n] on, ascending. *)
Definition ascending_from (n : Z) (es : list Entry) : Prop :=
  StronglySorted id_le es ∧ Forall (λ e, n ≤ e_id e) es.

Lemma ascending_from_le n n' es : n' ≤ n → ascending_from n es → ascending_from n' es.
Proof. intros Hle [Hs Hf]. split; [done|]. eapply Forall_impl; [done|]. simpl. lia. Qed.

Lemma ascending_from_cons n e es :
  e_id e = n → ascending_from (n + 1) es → ascending_from n (e :: es).
Proof.
  intros He [Hs Hf]. split; constructor; try done; [|lia|].
  - eapply Forall_impl; [done|]. unfold id_le. simpl. lia.
  - eapply Forall_impl; [done|]. simpl. lia.
Qed.

Lemma run_durable_spec ops : ∀ n w fs apps new w' fs',
  wal_inv apps (dw_wal w) fs →
  (∀ t, next_id t (dw_inner w) = n t) → (∀ t, 0 ≤ n t ∧ n t + Z.of_nat (length ops) ≤ U64_MAX) →
  run_durable ops w fs = Some (new, w', fs') →
  wal_inv (apps ++ new) (dw_wal w') fs' ∧ ∀ t, ascending_from (n t) (entries_of_topic t new).
Proof.
  induction ops as [|op ops IH]; intros n w fs apps new w' fs' Hinv Hn Hmax; simpl.
  { intros [= <- <- <-]. rewrite app_nil_r. split; [done|]. intros t. split; constructor. }
  simpl in Hmax. destruct op as [now ts lin lf topic p|topic id|now topic].
  - destruct (dw_push _ _ _ _ _ _ _ _ _) as [[[[id|e] w1] fs1]|] eqn:Hp;
      [| |by destruct (d_push _ _ _ _ _) as [[[] ?]|]].
    + destruct (dw_push_inv _ _ _ _ _ _ _ _ _ _ _ _ Hinv Hp) as [Hd Hinv1].
      rewrite Hd. apply d_push_next_id in Hd as (Hother & Hid & Hnext).
      destruct (run_durable ops w1 fs1) as [[[new1 w2] fs2]|] eqn:Hrun; simpl; [|done].
      intros [= <- <- <-]. set (n' := λ t, if decide (topic = t) then n t + 1 else n t).
      destruct (λ H1 H2, IH n' w1 fs1 _ _ _ _ Hinv1 H1 H2 Hrun) as [Hinv' Hnew].
      * intros t. unfold n'. specialize (Hmax t). case_decide as Ht; [subst t|by rewrite Hother, Hn].
        rewrite Hnext, Hid, Hn, u64_add_small by (unfold u64_ok; lia). done.
      * intros t. unfold n'. specialize (Hmax t). case_decide; lia.
      * rewrite cons_middle, app_assoc. split; [done|]. intros t. specialize (Hnew t).
        unfold entries_of_topic, n' in *. rewrite filter_cons. simpl.
        destruct (decide (topic = t)) as [<-|]; [|done]. rewrite fmap_cons.
        apply ascending_from_cons; [by rewrite Hid, Hn|done].
    + destruct (d_push _ _ _ _ _) as [[[id0|e0] d1]|] eqn:Hd; [done| |done].
      revert Hp. unfold dw_push. rewrite Hd. simpl. intros [= <- <- <-]. intros Hrun.
      apply d_push_next_id in Hd as (Hother & Hnext).
      set (n' := λ t, next_id t d1).
      assert (∀ t, n t ≤ n' t ≤ n t + 1) as Hn'.
      { intros t. unfold n'. specialize (Hmax t). destruct (decide (t = topic)) as [->|Hne].
        - rewrite Hn in Hnext. destruct Hnext as [-> | ->]; [lia|]. rewrite u64_add_small by (unfold u64_ok; lia). lia.
        - rewrite Hother, Hn by done. lia. }
      assert (∀ t, 0 ≤ n' t ∧ n' t + Z.of_nat (length ops) ≤ U64_MAX) as Hmax'
        by (intros t; specialize (Hmax t); specialize (Hn' t); lia).
      destruct (IH n' (mkDurable d1 (dw_wal w) (dw_sync_interval w) (dw_entries_since_sync w)) fs _ _ _ _ Hinv
        (λ _, eq_refl) Hmax' Hrun) as [Hinv' Hnew].
      split; [done|]. intros t. eapply ascending_from_le, Hnew. apply Hn'.
  - intros Hrun. apply (IH n (dw_ack topic id w).2 fs); try done; unfold dw_ack;
      destruct (d_ack topic id (dw_inner w)) as [r d] eqn:Hd; simpl; [done| |].
    + intros t. rewrite <- Hn. change d with (r, d).2. rewrite <- Hd. apply next_id_ack.
    + intros t. specialize (Hmax t). lia.
  - intros Hrun. apply (IH n (dw_subscribe now topic w).2 fs); try done; unfold dw_subscribe;
      destruct (d_subscribe now topic (dw_inner w)) as [r d] eqn:Hd; simpl; [done| |].
    + intros t. rewrite <- Hn. change d with (r, d).2. rewrite <- Hd. apply next_id_subscribe.
    + intros t. specialize (Hmax t). lia.
Qed.

(** A new manager on the directory an earlier one left. *)
Lemma wal_inv_restart apps m fs : wal_inv apps m fs → wal_inv apps wal_manager_new fs.
Proof. intros [_ Hf]. split; [|done]. intros t w. simpl. by rewrite lookup_empty. Qed.

Lemma run_lives_spec config lives : ∀ apps fs ackeds fs',
  wal_inv apps wal_manager_new fs →
  Forall (λ ops, Z.of_nat (length ops) ≤ U64_MAX) lives →
  run_lives config lives fs = Some (ackeds, fs') →
  wal_inv (apps ++ mjoin ackeds) wal_manager_new fs' ∧
  Forall (λ acked, ∀ t, StronglySorted id_le (entries_of_topic t acked)) ackeds.
Proof.
  induction lives as [|ops lives IH]; intros apps fs ackeds fs' Hinv Hlen; simpl.
  { intros [= <- <-]. simpl. by rewrite app_nil_r. }
  apply Forall_cons in Hlen as [Hops Hlen].
  destruct (run_durable ops (ddl_with_wal_new config) fs) as [[[acked w] fs1]|] eqn:Hr; simpl; [|done].
  destruct (run_durable_spec ops (λ _, 0) (ddl_with_wal_new config) fs apps _ _ _ Hinv
    ltac:(intros; apply next_id_new) ltac:(intros; lia) Hr) as (Hinv1 & Hasc).
  destruct (run_lives config lives fs1) as [[ackeds1 fs2]|] eqn:Hl; simpl; [|done].
  intros [= <- <-]. destruct (IH _ _ _ _ (wal_inv_restart _ _ _ Hinv1) Hlen Hl) as (Hinv2 & Hrest).
  simpl. rewrite app_assoc. split; [done|]. constructor; [|done]. intros t. apply Hasc.
Qed.

(** C11: what a durable push survives. Let any number of instances live one after the
    other on a directory that was empty at first, each taking pushes, acknowledgements
    and subscriptions; pushes may fail in the in-memory service, while the appends to
    the write-ahead log succeed. Scanning the directory afterwards gives, for a topic
    other than "." whose name needs no sanitising and whose directory no other topic
    of the run shares, exactly the payloads of the pushes that returned an id, under
    these ids: after one life in the order of the pushes, after several merged by id.
    An instance does not read the directory when it starts, so each life numbers its
    pushes from 0 again. *)
Theorem durable_pushes (config : DdlConfig) (lives : list (list durable_op))
    (ackeds : list (list (string * Entry))) fs (t : string) :
  waly_opens → waly_reads → Forall (λ ops, Z.of_nat (length ops) ≤ U64_MAX) lives →
  run_lives config lives ∅ = Some (ackeds, fs) →
  t ≠ "." → sanitize_topic t = Ok t → own_directory t (mjoin ackeds) →
  entries_of_topic t (mjoin ackeds) ≠ [] →
  let recovered := (recover_all true (Ok tt) wal_manager_new fs).1.1 in
  recovered !! t = Some (sort_by_id (entries_of_topic t (mjoin ackeds))) ∧
  (∀ acked, ackeds = [acked] → recovered !! t = Some (entries_of_topic t acked)).
Proof.
  intros Ho Hr Hlen Hrun Hdot Hs Hown Hne recovered.
  destruct (run_lives_spec config lives [] ∅ ackeds fs wal_inv_new Hlen Hrun) as (Hinv & Hsorted).
  assert (Hrec : recovered !! t = Some (sort_by_id (entries_of_topic t (mjoin ackeds)))).
  { unfold recovered. rewrite (recover_all_lookup _ _ _ t Ho Hr Hinv). simpl.
    rewrite entries_in_own by done. by rewrite decide_False by (by intros [?|?]). }
  split; [done|]. intros acked ->. rewrite Hrec. simpl. rewrite app_nil_r.
  apply Forall_cons in Hsorted as [Hsorted _]. by rewrite sort_by_id_sorted by apply Hsorted.
Qed.
End durable.

(** ** A concrete run: two lives; in the first, a push to an invalid topic and one
    beyond the topic limit fail *)

Section concrete.
#[local] Instance name_hash : TopicHash :=
  {| TopicId := string; derive_topic_id t := t; topic_id_hex t := t |}.
#[local] Program Instance no_codec T : Codec T := {| enc _ := None; dec _ := None |}.
Next Obligation. done. Qed.
#[local] Existing Instance canonical_order.
#[local] Existing Instance list_waly.
#[local] Existing Instance entry_codec.

Definition two_lives : list (list durable_op) :=
  [[DwPush 1 1 (Ok tt) true "t" [10]; DwPush 2 2 (Ok tt) true "t" [20]; DwPush 3 3 (Ok tt) true "" [25];
    DwPush 3 3 (Ok tt) true "u" [30]; DwPush 4 4 (Ok tt) true "v" [40]];
   [DwPush 5 5 (Ok tt) true "t" [50]]].

Lemma durable_pushes_witness :
  ∃ ackeds fs, run_lives (C := list_chan) (small_config DropOldest) two_lives ∅ = Some (ackeds, fs) ∧
    (recover_all true (Ok tt) wal_manager_new fs).1.1 !! "t" =
      Some [mkEntry 0 1 "t" [10]; mkEntry 0 5 "t" [50]; mkEntry 1 2 "t" [20]].
Proof.
  eexists _, _. split; [reflexivity|].
  refine (proj1 (durable_pushes (C := list_chan) (small_config DropOldest) two_lives _ _ "t"
    _ _ _ eq_refl _ _ _ _)).
  - by intros f.
  - by intros f i f' [= <- <-].
  - by repeat constructor.
  - done.
  - reflexivity.
  - intros t' e Hin Hs. simpl in Hin.
    repeat (apply elem_of_cons in Hin as [[= -> _]|Hin]; [first [done|by vm_compute in Hs]|]).
    by apply elem_of_nil in Hin.
  - done.
Defined.
End concrete.
