(* ===== verification/Correlation.v ===== *)
(** * The correlation table (src/peer/correlation.rs)

    Request ids name the sending halves of one-shot channels.  The channels live
    in a store of cells; [alive] tells which receiving halves still exist. *)

From S2P Require Import Prelude DdlTypes Peer.
#[local] Open Scope Z_scope.
#[local] Arguments String.append : simpl never.

Record CorrelationTable := mkTable { ct_pending : gmap Z Z; ct_cells : gmap Z oneshot }.

Definition table_new (cells : gmap Z oneshot) : CorrelationTable := mkTable ∅ cells.

(** A sender that is dropped closes its cell. *)
Definition drop_cell (sender : option Z) (cells : gmap Z oneshot) : gmap Z oneshot :=
  match sender with Some c => <[c := Closed]> cells | None => cells end.

(** [insert]: the map takes the new sender in any case. *)
Definition table_insert (now request_id sender : Z) (t : CorrelationTable) :
    result PeerResponse unit * CorrelationTable :=
  let old := ct_pending t !! request_id in
  (match old with
   | Some _ => Err (PeerResponse_failure now request_id 0 ("duplicate: " +:+ pretty request_id))
   | None => Ok tt
   end,
   mkTable (<[request_id := sender]> (ct_pending t)) (drop_cell old (ct_cells t))).

(** [complete]: a send to a receiver that is gone fails. *)
Definition table_complete (alive : Z → bool) (request_id : Z) (response : PeerResponse)
    (t : CorrelationTable) : bool * CorrelationTable :=
  match ct_pending t !! request_id with
  | None => (false, t)
  | Some c =>
      (alive c, mkTable (delete request_id (ct_pending t))
                  (if alive c then <[c := Got response]> (ct_cells t) else ct_cells t))
  end.

(** [remove]: the sender goes to the caller. *)
Definition table_remove (request_id : Z) (t : CorrelationTable) : option Z * CorrelationTable :=
  (ct_pending t !! request_id, mkTable (delete request_id (ct_pending t)) (ct_cells t)).

(** ** What callers see *)

(** The senders in the table are distinct and have not sent. *)
Definition table_ok (t : CorrelationTable) : Prop :=
  (∀ r c, ct_pending t !! r = Some c → ct_cells t !! c = Some Waiting) ∧
  (∀ r r' c, ct_pending t !! r = Some c → ct_pending t !! r' = Some c → r = r').

Inductive table_step (alive : Z → bool) : CorrelationTable → CorrelationTable → Prop :=
| ts_insert now r c t :
    ct_cells t !! c = None →
    table_step alive t (table_insert now r c (mkTable (ct_pending t) (<[c := Waiting]> (ct_cells t)))).2
| ts_complete r resp t : table_step alive t (table_complete alive r resp t).2
| ts_remove r t : table_step alive t (table_remove r t).2.

Lemma table_step_ok alive t t' : table_step alive t t' → table_ok t → table_ok t'.
Proof.
  destruct 1 as [now r c t Hc|r resp t|r t]; intros [Hw Hi].
  - assert (∀ r', ct_pending t !! r' ≠ Some c) as Hfresh by (intros r' Hr'%Hw; congruence).
    split; simpl.
    + intros r' c'. map_cases r' r; intros Hr'; simplify_eq.
      * destruct (ct_pending t !! r) as [o|] eqn:Eo; simpl; [|by rewrite lookup_insert_eq].
        rewrite lookup_insert_ne by (intros ->; by apply (Hfresh r)). by rewrite lookup_insert_eq.
      * destruct (ct_pending t !! r) as [o|] eqn:Eo; simpl.
        { rewrite lookup_insert_ne by (intros ->; eauto).
          rewrite lookup_insert_ne by (intros ->; by eapply Hfresh). by eapply Hw. }
        rewrite lookup_insert_ne by (intros ->; by eapply Hfresh). by eapply Hw.
    + intros r1 r2 c'. map_cases r1 r; map_cases r2 r; intros H1 H2; simplify_eq; try done.
      * by apply Hfresh in H2.
      * by apply Hfresh in H1.
      * by eapply Hi.
  - unfold table_complete. destruct (ct_pending t !! r) as [c|] eqn:Er; [|done]. split; simpl.
    + intros r' c' [Hne Hr']%lookup_delete_Some. destruct (alive c); [|by eapply Hw].
      rewrite lookup_insert_ne by (intros ->; eauto). by eapply Hw.
    + intros r1 r2 c' [_ H1]%lookup_delete_Some [_ H2]%lookup_delete_Some. by eapply Hi.
  - split; simpl.
    + intros r' c' [_ Hr']%lookup_delete_Some. by eapply Hw.
    + intros r1 r2 c' [_ H1]%lookup_delete_Some [_ H2]%lookup_delete_Some. by eapply Hi.
Qed.

(** A response reaches the receiver of the request it answers and no other one,
    after any use of the table. *)
Lemma complete_reaches_requester alive t r c resp :
  rtc (table_step alive) (table_new ∅) t → ct_pending t !! r = Some c → alive c = true →
  let '(ok, t') := table_complete alive r resp t in
  ok = true ∧ ct_cells t' !! c = Some (Got resp) ∧ ct_pending t' !! r = None ∧
  ∀ r' c', r' ≠ r → ct_pending t !! r' = Some c' →
    ct_pending t' !! r' = Some c' ∧ ct_cells t' !! c' = Some Waiting.
Proof.
  intros Hr Hp Ha.
  assert (table_ok t) as [Hw Hi].
  { revert t Hr Hp. intros t Hr _. revert t Hr. apply rtc_ind_r; [|intros; by eapply table_step_ok].
    split; simpl; intros; by rewrite lookup_empty in *. }
  unfold table_complete. rewrite Hp, Ha. simpl. split; [done|]. split; [apply lookup_insert_eq|].
  split; [apply lookup_delete_eq|]. intros r' c' Hne Hr'.
  rewrite lookup_delete_ne by done. split; [done|].
  rewrite lookup_insert_ne by (intros ->; eauto). by eapply Hw.
Qed.

(** A duplicate insertion reports an error and yet replaces the first request:
    its receiver is closed, and the response goes to the second one. *)
Lemma duplicate_insert_replaces now r c1 c2 resp :
  c1 ≠ c2 →
  let t1 := (table_insert now r c1 (table_new {[c1 := Waiting; c2 := Waiting]})).2 in
  let '(e, t2) := table_insert now r c2 t1 in
  e = Err (PeerResponse_failure now r 0 ("duplicate: " +:+ pretty r)) ∧
  ct_cells t2 !! c1 = Some Closed ∧
  ct_cells (table_complete (λ _, true) r resp t2).2 !! c2 = Some (Got resp).
Proof.
  intros Hne. unfold table_insert, table_complete. simpl. rewrite lookup_insert_eq. simpl.
  split; [done|]. split; [apply lookup_insert_eq|]. rewrite lookup_insert_eq. simpl. apply lookup_insert_eq.
Qed.
