(* ===== verification/Framing.v ===== *)
(** * Loops and length-prefixed frames

    What the two TCP protocols of the crate share: a loop that runs until its
    body breaks, [read_exact] on a byte stream, and frames made of a big-endian
    [u32] length and the data.  A connection's input is the list of the bytes
    that arrive before it closes or stalls for longer than the read timeout. *)

From S2P Require Import Prelude.
#[local] Open Scope Z_scope.

(** ** Loops *)

(** What one iteration decides: go on, or leave the loop with a result. *)
Inductive flow (S X : Type) := Continue (s : S) | Break (x : X).
Arguments Continue {S X} s.
Arguments Break {S X} x.

(** [loop { body }], at most [fuel] iterations of it. *)
Fixpoint loop {S X} (body : S → flow S X) (fuel : nat) (s : S) : option X :=
  match fuel with
  | O => None
  | Datatypes.S fuel =>
      match body s with
      | Continue s' => loop body fuel s'
      | Break x => Some x
      end
  end.

Section loops.
Context {S X : Type} (body : S → flow S X).

(** A measure that every further iteration decreases bounds their number. *)
Lemma loop_terminates (m : S → nat) fuel s :
  (∀ s s', body s = Continue s' → (m s' < m s)%nat) →
  (m s < fuel)%nat → is_Some (loop body fuel s).
Proof.
  intros Hm. revert s. induction fuel as [|fuel IH]; intros s Hs; [lia|]; simpl.
  destruct (body s) as [s'|x] eqn:E; [|done].
  apply IH. specialize (Hm _ _ E). lia.
Qed.

Lemma loop_more fuel fuel' s x :
  loop body fuel s = Some x → (fuel ≤ fuel')%nat → loop body fuel' s = Some x.
Proof.
  revert fuel' s. induction fuel as [|fuel IH]; intros [|fuel'] s Hl Hf;
    simpl in *; try done; [lia|].
  destruct (body s) as [s'|]; [|done]. apply IH; [done|lia].
Qed.

(** Two bounds that are both enough give the same result. *)
Lemma loop_agree f f' s x x' :
  loop body f s = Some x → loop body f' s = Some x' → x = x'.
Proof.
  intros H1 H2. destruct (Nat.le_ge_cases f f').
  - apply (loop_more _ f') in H1; [congruence|done].
  - apply (loop_more _ f) in H2; [congruence|done].
Qed.

(** An invariant of the iterations holds when the loop is left. *)
Lemma loop_invariant (P : S → Prop) (Q : X → Prop) fuel s x :
  (∀ s s', P s → body s = Continue s' → P s') →
  (∀ s x, P s → body s = Break x → Q x) →
  P s → loop body fuel s = Some x → Q x.
Proof.
  intros Hc Hb. revert s. induction fuel as [|fuel IH]; intros s Hs Hl; [done|].
  simpl in Hl. destruct (body s) as [s'|x'] eqn:E; [eauto|]. simplify_eq. eauto.
Qed.
End loops.

(** ** Big-endian [u32] *)

(** [as u32]: the cast keeps the low 32 bits. *)
Definition as_u32 (n : Z) : Z := n `mod` 2 ^ 32.

(** [u32::to_be_bytes] *)
Definition to_be_bytes (n : Z) : bytes :=
  [(n / 2 ^ 24) `mod` 256; (n / 2 ^ 16) `mod` 256; (n / 2 ^ 8) `mod` 256; n `mod` 256].

(** [u32::from_be_bytes] *)
Definition from_be_bytes (b : bytes) : Z := fold_left (λ acc x, acc * 256 + x) b 0.

Lemma from_to_be_bytes n : 0 ≤ n < 2 ^ 32 → from_be_bytes (to_be_bytes n) = n.
Proof.
  intros Hn. unfold from_be_bytes, to_be_bytes. cbn [fold_left].
  change (2 ^ 24) with (256 * (256 * 256)). change (2 ^ 16) with (256 * 256).
  change (2 ^ 8) with 256. rewrite <- !Z.div_div by lia.
  pose proof (Z.div_mod n 256 ltac:(lia)).
  pose proof (Z.div_mod (n / 256) 256 ltac:(lia)).
  pose proof (Z.div_mod (n / 256 / 256) 256 ltac:(lia)).
  assert (n / 256 / 256 / 256 < 256).
  { repeat (apply Z.div_lt_upper_bound; [lia|]). lia. }
  assert (0 ≤ n / 256 / 256 / 256) by (repeat apply Z.div_pos; lia).
  rewrite (Z.mod_small (n / 256 / 256 / 256)) by lia. lia.
Qed.

Lemma length_to_be_bytes n : length (to_be_bytes n) = 4%nat.
Proof. done. Qed.

Definition byte_ok (x : Z) : Prop := 0 ≤ x < 256.

Lemma to_be_bytes_ok n : Forall byte_ok (to_be_bytes n).
Proof. repeat constructor; apply Z.mod_pos_bound; lia. Qed.

Lemma fold_be_bound b acc k :
  0 ≤ acc < 256 ^ k → 0 ≤ k → Forall byte_ok b →
  0 ≤ fold_left (λ acc x, acc * 256 + x) b acc < 256 ^ (k + Z.of_nat (length b)).
Proof.
  revert acc k. induction b as [|x b IH]; intros acc k Ha Hk Hb; simpl.
  { by rewrite Z.add_0_r. }
  apply Forall_cons in Hb as [Hx Hb]. unfold byte_ok in Hx.
  replace (k + Z.of_nat (S (length b))) with (Z.succ k + Z.of_nat (length b)) by lia.
  apply IH; [|lia|done]. rewrite Z.pow_succ_r by lia. lia.
Qed.

Lemma from_be_bytes_bound b : Forall byte_ok b → length b = 4%nat → 0 ≤ from_be_bytes b < 2 ^ 32.
Proof.
  intros Hb Hl. pose proof (fold_be_bound b 0 0 ltac:(simpl; lia) ltac:(lia) Hb) as H.
  rewrite Hl in H. exact H.
Qed.

(** ** Reading *)

(** [read_exact] into a buffer of [n] bytes: the bytes read and the rest of the
    stream, or nothing when the stream ends first. *)
Definition read_exact (n : nat) (s : bytes) : option (bytes * bytes) :=
  if decide (n ≤ length s)%nat then Some (take n s, drop n s) else None.

Lemma read_exact_app a b : read_exact (length a) (a ++ b) = Some (a, b).
Proof.
  unfold read_exact. rewrite decide_True by (rewrite length_app; lia).
  by rewrite take_app_length, drop_app_length.
Qed.

Lemma read_exact_Some n s a b :
  read_exact n s = Some (a, b) ↔ s = a ++ b ∧ length a = n.
Proof.
  split.
  - unfold read_exact. case_decide; [|done]. intros [= <- <-].
    rewrite take_drop, length_take. split; [done|lia].
  - intros [-> <-]. apply read_exact_app.
Qed.

Lemma read_exact_None n s : read_exact n s = None ↔ (length s < n)%nat.
Proof. unfold read_exact. case_decide; split; (done || lia). Qed.

(** The stream gets shorter by what was read. *)
Lemma read_exact_length n s a b :
  read_exact n s = Some (a, b) → (length s = n + length b)%nat.
Proof. intros [-> <-]%read_exact_Some. by rewrite length_app. Qed.

(** ** Frames *)

(** [write_all(&(data.len() as u32).to_be_bytes())], then [write_all(&data)]. *)
Definition frame (data : bytes) : bytes :=
  to_be_bytes (as_u32 (Z.of_nat (length data))) ++ data.

Lemma length_frame data : length (frame data) = (4 + length data)%nat.
Proof. unfold frame. by rewrite length_app. Qed.

(** A reader of a frame that fits 32 bits finds its length and its data. *)
Lemma read_frame data rest :
  Z.of_nat (length data) < 2 ^ 32 →
  ∃ lb, read_exact 4 (frame data ++ rest) = Some (lb, data ++ rest) ∧
        from_be_bytes lb = Z.of_nat (length data).
Proof.
  intros Hl. unfold frame, as_u32. rewrite Z.mod_small by lia.
  exists (to_be_bytes (Z.of_nat (length data))). split.
  - rewrite <- app_assoc. apply (read_exact_app (to_be_bytes _)).
  - apply from_to_be_bytes. lia.
Qed.

(** What a socket does with one frame: everything is written and flushed, or
    writing the length, writing the data or the flush fails (or times out), with
    the message [e], after [n] bytes of the frame reached the wire. *)
Inductive write_outcome :=
| Written
| LengthFailed (n : nat) (e : string)
| DataFailed (n : nat) (e : string)
| FlushFailed (n : nat) (e : string).

(** The bytes of the frame that reach the wire. *)
Definition wire_bytes (o : write_outcome) (data : bytes) : bytes :=
  match o with
  | Written => frame data
  | LengthFailed n _ => take n (take 4 (frame data))
  | DataFailed n _ => take n (frame data)
  | FlushFailed n _ => take n (frame data)
  end.

#[export] Hint Resolve to_be_bytes_ok length_to_be_bytes : ddl.
#[export] Hint Rewrite length_frame read_exact_app : ddl.
