(* ===== verification/TcpTransport.v ===== *)
(** * The TCP transport (src/network/tcp.rs, src/network/transport_traits.rs)

    A transport keeps one connection per peer: a bounded channel that a writer
    task drains onto the socket as length-prefixed JSON messages.  Every accepted
    connection has a reader that decodes frames and forwards the messages to the
    incoming channel all connections share, which is bounded too: while it is full
    the reader waits, until somebody receives.  The outcomes of socket operations,
    including how many bytes of a failed write reached the wire, are arguments. *)

From S2P Require Import Prelude DdlTypes Framing.
#[local] Open Scope Z_scope.

(** [TransportError]; the payload of [Io] and of the serialization errors is
    their message. *)
Inductive TransportError :=
| TrIo (e : string)
| TrSerialization (e : string)
| TrSerializationError (source : string)
| PeerNotFound (node_id : string)
| SendFailed (node_id : string)
| Backpressure (msg : string)
| ConnectionLimit
| TrTimeout (msg : string)
| ConnectionLost (remote_addr : string)
| NetworkUnreachable
| TransportShutdown
| InvalidMessage
| MessageTooLarge (n : Z).

#[export] Instance TransportError_eq_dec : EqDecision TransportError.
Proof. solve_decision. Defined.

Definition TransportError_fmt (e : TransportError) : string :=
  match e with
  | TrIo m => "IO error: " +:+ m
  | TrSerialization m => "Serialization error: " +:+ m
  | TrSerializationError m => "Generic serialization error: " +:+ m
  | PeerNotFound n => "Peer not found: " +:+ n
  | SendFailed n => "Send failed to peer: " +:+ n
  | Backpressure m => "Backpressure: " +:+ m
  | ConnectionLimit => "Connection limit reached"
  | TrTimeout m => "Operation timeout: " +:+ m
  | ConnectionLost a => "Connection lost to " +:+ a
  | NetworkUnreachable => "Network unreachable"
  | TransportShutdown => "Transport shutdown"
  | InvalidMessage => "Invalid message format"
  | MessageTooLarge n => "Message too large: " +:+ pretty n +:+ " bytes"
  end.

(** [const MAX_MESSAGE_SIZE: usize = 10 * 1024 * 1024] *)
Definition MAX_MESSAGE_SIZE : Z := 10 * 1024 * 1024.

Inductive NetworkMessage :=
| NmPush (topic : string) (entry : Entry)
| NmBatchPush (topic : string) (entries : list Entry)
| NmSubscribe (topic subscriber_id : string)
| NmAck (topic : string) (entry_id : Z)
| NmHeartbeat
| NmPeerReq (request_id source_node target_node : Z) (metric_key : string) (payload : bytes)
| NmPeerResp (request_id source_node : Z) (success : bool) (payload : bytes)
    (error_message : option string).

#[export] Instance NetworkMessage_eq_dec : EqDecision NetworkMessage.
Proof. solve_decision. Defined.

(** ** The writer task of a connection *)

(** The channel to a peer and its writer task: queued messages, whether a
    [PeerConnection] still holds the sending half, whether the task still runs,
    the bytes put on the wire and the number of messages serialized so far. *)
Record Link := mkLink {
  l_queue : list NetworkMessage;
  l_sender : bool;
  l_running : bool;
  l_wire : bytes;
  l_written : nat;
}.

(** [mpsc::channel(100)] and [Semaphore::new(100)] *)
Definition CHANNEL_CAPACITY : nat := 100.
Definition MAX_IN_FLIGHT : Z := 100.

Definition link_new : Link := mkLink [] true true [] 0.

(** Why the task returns from its loop, or that it waits in [recv]. *)
Inductive writer_end := Idle | ChannelClosed | WriteFailed.

Section messages.
Context `{Codec NetworkMessage}.

(** One iteration of [while let Some(msg) = rx.recv().await]. *)
Definition writer_body (io : nat → write_outcome) (l : Link) : flow Link (writer_end * Link) :=
  match l_queue l with
  | [] =>
      if l_sender l then Break (Idle, l)
      else Break (ChannelClosed, mkLink [] false false (l_wire l) (l_written l))
  | msg :: q =>
      match enc msg with
      | None => Continue (mkLink q (l_sender l) (l_running l) (l_wire l) (l_written l))
      | Some data =>
          let w := l_wire l ++ wire_bytes (io (l_written l)) data in
          match io (l_written l) with
          | Written => Continue (mkLink q (l_sender l) (l_running l) w (S (l_written l)))
          | LengthFailed _ _ | DataFailed _ _ | FlushFailed _ _ =>
              Break (WriteFailed, mkLink q (l_sender l) false w (S (l_written l)))
          end
      end
  end.

(** The task runs until its channel is empty or it ends. *)
Definition writer (io : nat → write_outcome) (l : Link) : option (writer_end * Link) :=
  loop (writer_body io) (S (length (l_queue l))) l.

(** ** The reader of an accepted connection *)

(** [mpsc::channel(1000)] of [TcpTransport::new] *)
Definition INCOMING_CAPACITY : nat := 1000.

(** The bytes that arrive until the connection closes or is silent for a minute, a
    message on its way to the incoming channel, and the messages put there. *)
Record Reader := mkReader {
  r_input : bytes;
  r_pending : option NetworkMessage;
  r_delivered : list NetworkMessage;
}.

Definition reader_new (s : bytes) : Reader := mkReader s None [].

(** What [sender.send(msg).await] finds: a channel with so many messages, where it
    waits while that is the capacity, or no receiver any more. *)
Inductive incoming_view := Holds (n : nat) | NoReceiver.

(** Why the reader leaves its loop, or that it waits for room. *)
Inductive reader_end :=
| TooLarge | EmptyMessage | ForwardFailed | ReadFailed | ConnectionClosed | AwaitRoom.

(** One turn of the loop of [handle_connection], up to the next [await] of the
    channel; [fwd i] is what the [i]-th send finds in the end. *)
Definition reader_body (fwd : nat → incoming_view) (r : Reader) : flow Reader (reader_end * Reader) :=
  match r_pending r with
  | Some msg =>
      match fwd (length (r_delivered r)) with
      | NoReceiver => Break (ForwardFailed, mkReader (r_input r) None (r_delivered r))
      | Holds n =>
          if decide (n < INCOMING_CAPACITY)%nat
          then Continue (mkReader (r_input r) None (r_delivered r ++ [msg]))
          else Break (AwaitRoom, r)
      end
  | None =>
      match read_exact 4 (r_input r) with
      | None => Break (ConnectionClosed, r)
      | Some (len_buf, rest) =>
          let len := from_be_bytes len_buf in
          if decide (MAX_MESSAGE_SIZE < len) then Break (TooLarge, mkReader rest None (r_delivered r))
          else if decide (len = 0) then Break (EmptyMessage, mkReader rest None (r_delivered r))
          else match read_exact (Z.to_nat len) rest with
          | None => Break (ReadFailed, mkReader rest None (r_delivered r))
          | Some (data, rest') => Continue (mkReader rest' (dec data) (r_delivered r))
          end
      end
  end.

(** [handle_connection] on the bytes [s]. *)
Definition handle_connection (fwd : nat → incoming_view) (s : bytes) : option (reader_end * Reader) :=
  loop (reader_body fwd) (S (length s)) (reader_new s).
End messages.

(** ** The transport *)

Record PeerConnection := mkPeerConnection { pc_sender : nat; pc_permits : Z }.

Record TcpTransport := mkTransport {
  t_bind_addr : string;
  t_peers : gmap string PeerConnection;
  t_links : list Link;
  t_incoming : list NetworkMessage;
  t_connection_permits : Z;
}.

(** [TcpTransport::new] *)
Definition transport_new (bind_addr : string) (max_connections : Z) : TcpTransport :=
  mkTransport bind_addr ∅ [] [] max_connections.

Definition with_peers (t : TcpTransport) peers links : TcpTransport :=
  mkTransport (t_bind_addr t) peers links (t_incoming t) (t_connection_permits t).

(** What [TcpStream::connect] under its timeout gives. *)
Inductive connect_outcome := Connected | ConnectTimeout | ConnectError (e : string).

(** Dropping a [PeerConnection] drops the sending half of its channel. *)
Definition drop_sender (l : Link) : Link :=
  mkLink (l_queue l) false (l_running l) (l_wire l) (l_written l).

Definition drop_peer (o : option PeerConnection) (links : list Link) : list Link :=
  match o with Some p => alter drop_sender (pc_sender p) links | None => links end.

Definition connect_to_peer (o : connect_outcome) (node_id addr : string) (t : TcpTransport) :
    result TransportError unit * TcpTransport :=
  match o with
  | ConnectTimeout => (Err (TrTimeout ("Connect timeout to " +:+ addr)), t)
  | ConnectError e => (Err (TrIo e), t)
  | Connected =>
      (Ok tt, with_peers t
        (<[node_id := mkPeerConnection (length (t_links t)) MAX_IN_FLIGHT]> (t_peers t))
        (drop_peer (t_peers t !! node_id) (t_links t) ++ [link_new]))
  end.

(** A call either completes or waits: for a permit, or (holding one) for room
    in the channel. *)
Inductive send_status := Sent (r : result TransportError unit) | AwaitPermit | AwaitChannel.

Definition push_link (msg : NetworkMessage) (l : Link) : Link :=
  mkLink (l_queue l ++ [msg]) (l_sender l) (l_running l) (l_wire l) (l_written l).

(** [sender.send(msg).await] on a channel: refused when the task has ended and
    dropped the receiving half, waiting when the channel is full. *)
Inductive channel_state := Room | Full | Gone.

Definition channel_state_of (links : list Link) (i : nat) : channel_state :=
  match links !! i with
  | Some l => if l_running l then
                if decide (length (l_queue l) < CHANNEL_CAPACITY)%nat then Room else Full
              else Gone
  | None => Gone
  end.

(** [acquire]: the semaphore is never closed, so it only waits. *)
Definition send_acquire (node_id : string) (p : PeerConnection) (t : TcpTransport) : TcpTransport :=
  with_peers t (<[node_id := mkPeerConnection (pc_sender p) (pc_permits p - 1)]> (t_peers t))
    (t_links t).

(** The permit is dropped when the call returns. *)
Definition send_release (node_id : string) (t : TcpTransport) : TcpTransport :=
  with_peers t (alter (λ p, mkPeerConnection (pc_sender p) (pc_permits p + 1)) node_id (t_peers t))
    (t_links t).

(** The rest of [send_to_peer] for a caller that holds a permit. *)
Definition send_deliver (node_id : string) (msg : NetworkMessage) (p : PeerConnection)
    (t : TcpTransport) : send_status * TcpTransport :=
  match channel_state_of (t_links t) (pc_sender p) with
  | Full => (AwaitChannel, t)
  | Gone => (Sent (Err (SendFailed node_id)), send_release node_id t)
  | Room =>
      (Sent (Ok tt),
       send_release node_id
         (with_peers t (t_peers t) (alter (push_link msg) (pc_sender p) (t_links t))))
  end.

Definition send_to_peer (node_id : string) (msg : NetworkMessage) (t : TcpTransport) :
    send_status * TcpTransport :=
  match t_peers t !! node_id with
  | None => (Sent (Err (PeerNotFound node_id)), t)
  | Some p =>
      if decide (0 < pc_permits p) then send_deliver node_id msg p (send_acquire node_id p t)
      else (AwaitPermit, t)
  end.

(** The loop of [broadcast] over the peers still to serve; it stops early when
    it waits for room, leaving the peers not served yet. *)
Fixpoint broadcast_loop (ids : list string) (msg : NetworkMessage) (t : TcpTransport) :
    list string * TcpTransport :=
  match ids with
  | [] => ([], t)
  | node_id :: ids' =>
      match t_peers t !! node_id with
      | None => broadcast_loop ids' msg t
      | Some p =>
          match channel_state_of (t_links t) (pc_sender p) with
          | Full => (ids, t)
          | Gone => broadcast_loop ids' msg t
          | Room => broadcast_loop ids' msg
                      (with_peers t (t_peers t) (alter (push_link msg) (pc_sender p) (t_links t)))
          end
      end
  end.

(** [broadcast]; [None] while it waits for room. *)
Definition broadcast `{HashOrder} (msg : NetworkMessage) (t : TcpTransport) :
    option (result TransportError unit) * TcpTransport :=
  let '(rest, t') := broadcast_loop (hm_keys (t_peers t)) msg t in
  (match rest with [] => Some (Ok tt) | _ => None end, t').

(** [recv]; [None] while it waits (the transport keeps a sender, so the channel
    never closes). *)
Definition recv (t : TcpTransport) : option NetworkMessage * TcpTransport :=
  match t_incoming t with
  | [] => (None, t)
  | m :: q => (Some m, mkTransport (t_bind_addr t) (t_peers t) (t_links t) q (t_connection_permits t))
  end.

Definition peer_count (t : TcpTransport) : nat := size (t_peers t).

(** The writer task of a link gets to run. *)
Definition run_writer `{Codec NetworkMessage} (io : nat → write_outcome) (i : nat)
    (t : TcpTransport) : TcpTransport :=
  match t_links t !! i with
  | Some l =>
      if l_running l then
        match writer io l with
        | Some (_, l') => with_peers t (t_peers t) (<[i := l']> (t_links t))
        | None => t
        end
      else t
  | None => t
  end.

(** [start_listener] up to spawning the accept loop: [bind] is the result of binding,
    or nothing after thirty seconds. *)
Definition start_listener (bind : option (result string unit)) (t : TcpTransport) :
    result TransportError unit :=
  match bind with
  | None => Err (TrTimeout ("Bind timeout to " +:+ t_bind_addr t))
  | Some r => map_err TrIo r
  end.

(** One iteration of the accept loop: a permit is taken before [accept]; it
    stays with the connection's task, or is dropped when [accept] fails.  [None]
    while no permit is free. *)
Definition accept_step (accepted : bool) (t : TcpTransport) : option TcpTransport :=
  if decide (0 < t_connection_permits t) then
    Some (if accepted then
            mkTransport (t_bind_addr t) (t_peers t) (t_links t) (t_incoming t)
              (t_connection_permits t - 1)
          else t)
  else None.

(** The task of an accepted connection does one turn of its reader's loop, on the
    incoming channel as it is; when the reader leaves the loop, the permit is
    released. *)
Definition connection_step `{Codec NetworkMessage} (r : Reader) (t : TcpTransport) :
    option Reader * TcpTransport :=
  let with_incoming q permits := mkTransport (t_bind_addr t) (t_peers t) (t_links t) q permits in
  match reader_body (λ _, Holds (length (t_incoming t))) r with
  | Continue r' =>
      (Some r', with_incoming (t_incoming t ++ drop (length (r_delivered r)) (r_delivered r'))
                  (t_connection_permits t))
  | Break (AwaitRoom, r') => (Some r', t)
  | Break _ => (None, with_incoming (t_incoming t) (t_connection_permits t + 1))
  end.
