(* ===== verification/TcpTransportProps.v ===== *)
(** * Theorems about the TCP transport

    The reader leaves its loop on every input, unless the incoming channel stays full,
    and delivers the messages whose frames arrived whole, in order; a message over the
    reader's limit loses everything after it; channels and semaphores keep their bounds
    under every sequence of operations; a broadcast reaches every live peer once. *)

From S2P Require Import Prelude DdlTypes Framing TcpTransport Concrete.
#[local] Open Scope Z_scope.

Section reader.
Context `{Codec NetworkMessage}.
Implicit Types (ms : list NetworkMessage) (l : Link) (r : Reader) (s : bytes).

(** A message the reader accepts. *)
Definition sendable (m : NetworkMessage) : Prop :=
  ∃ d, enc m = Some d ∧ 0 < Z.of_nat (length d) ≤ MAX_MESSAGE_SIZE.

(** The bytes a writer puts on the wire for a queue of messages. *)
Definition wire_of ms : bytes := mjoin (frame <$> omap enc ms).

Lemma wire_of_cons m ms : wire_of (m :: ms) = from_option frame [] (enc m) ++ wire_of ms.
Proof. unfold wire_of. simpl. by destruct (enc m). Qed.

Lemma wire_of_app ms ms' : wire_of (ms ++ ms') = wire_of ms ++ wire_of ms'.
Proof. unfold wire_of. by rewrite omap_app, fmap_app, join_app. Qed.

Lemma length_wire_sendable m ms :
  sendable m → (5 + length (wire_of ms) ≤ length (wire_of (m :: ms)))%nat.
Proof.
  intros (d & Hd & Hl). rewrite wire_of_cons, Hd. simpl.
  rewrite length_app. lia.
Qed.

(** A send that does not wait for ever and is not refused. *)
Definition has_room (v : incoming_view) : bool :=
  match v with Holds n => bool_decide (n < INCOMING_CAPACITY)%nat | NoReceiver => false end.

Definition in_hand r : nat := match r_pending r with Some _ => 1 | None => 0 end.

(** *** Termination *)

Lemma reader_body_shrinks fwd r r' :
  reader_body fwd r = Continue r' →
  (length (r_input r') + in_hand r' < length (r_input r) + in_hand r)%nat ∧
  (4 * (length (r_delivered r') + in_hand r') + length (r_input r') ≤
   4 * (length (r_delivered r) + in_hand r) + length (r_input r))%nat.
Proof.
  unfold reader_body, in_hand. destruct (r_pending r) as [msg|] eqn:Hp.
  { repeat case_match; intros; simplify_eq/=. rewrite length_app. simpl. lia. }
  destruct (read_exact 4 (r_input r)) as [[lb rest]|] eqn:E4; [|done].
  apply read_exact_length in E4. repeat case_decide; try done.
  destruct (read_exact _ rest) as [[d rest']|] eqn:Ed; [|done].
  apply read_exact_length in Ed. intros [= <-]. simpl.
  destruct (dec d); lia.
Qed.

Lemma reader_body_break fwd r e r' :
  reader_body fwd r = Break (e, r') →
  r_delivered r' = r_delivered r ∧
  (e = AwaitRoom → ∃ n, fwd (length (r_delivered r)) = Holds n ∧ (INCOMING_CAPACITY ≤ n)%nat).
Proof.
  unfold reader_body. intros Hb. repeat (case_match || case_decide); simplify_eq/=; split; try done.
  intros _. eexists. split; [done|lia].
Qed.

Lemma reader_terminates fwd fuel r :
  (length (r_input r) + in_hand r < fuel)%nat → is_Some (loop (reader_body fwd) fuel r).
Proof.
  apply (loop_terminates _ (λ r, length (r_input r) + in_hand r)%nat).
  intros ?? Hc%reader_body_shrinks. lia.
Qed.

(** C28: The reader of a connection stops on every input, valid or not, that ends with
    the connection closed or silent: it leaves its loop, or waits for ever to forward a
    message because the incoming channel stays full; that is the only thing it can wait
    for. It delivers at most one message per four bytes received. *)
Theorem reader_total fwd s :
  ∃ e r, handle_connection fwd s = Some (e, r) ∧ (4 * length (r_delivered r) ≤ length s)%nat ∧
    (e = AwaitRoom → ∃ n, fwd (length (r_delivered r)) = Holds n ∧ (INCOMING_CAPACITY ≤ n)%nat).
Proof.
  destruct (reader_terminates fwd (S (length s)) (reader_new s)) as [[e r] He]; [cbn; lia|].
  exists e, r. split; [done|].
  apply (loop_invariant _
    (λ r, (4 * (length (r_delivered r) + in_hand r) + length (r_input r) ≤ length s)%nat)
    (λ x, (4 * length (r_delivered x.2) ≤ length s)%nat ∧
          (x.1 = AwaitRoom → ∃ n, fwd (length (r_delivered x.2)) = Holds n ∧
                                  (INCOMING_CAPACITY ≤ n)%nat)) _ _ _) in He; [done|..].
  - intros r1 r2 Hi Hc%reader_body_shrinks. lia.
  - intros r1 [e1 r2] Hi [Hd Hw]%reader_body_break. simpl. rewrite Hd. split; [lia|done].
  - cbn. lia.
Qed.

(** *** Whole frames *)

Lemma reader_body_frame fwd m d rest del :
  enc m = Some d → 0 < Z.of_nat (length d) ≤ MAX_MESSAGE_SIZE →
  reader_body fwd (mkReader (frame d ++ rest) None del) = Continue (mkReader rest (Some m) del).
Proof.
  intros Hd Hl. unfold reader_body. cbn [r_input r_delivered r_pending].
  destruct (read_frame d rest) as (lb & -> & ->); [unfold MAX_MESSAGE_SIZE in Hl; lia|].
  rewrite decide_False by lia. rewrite decide_False by lia.
  by rewrite Nat2Z.id, read_exact_app, (dec_enc _ _ Hd).
Qed.

(** Forwarding the message in hand. *)
Lemma reader_body_forward fwd m rest del :
  let r := mkReader rest (Some m) del in
  if has_room (fwd (length del)) then reader_body fwd r = Continue (mkReader rest None (del ++ [m]))
  else ∃ e r', reader_body fwd r = Break (e, r') ∧ r_delivered r' = del.
Proof.
  unfold has_room, reader_body. simpl. destruct (fwd (length del)) as [n|]; [|by eexists _, _].
  case_bool_decide; [by rewrite decide_True|]. rewrite decide_False by done. by eexists _, _.
Qed.

(** Whole frames are delivered one after another, up to the first that finds no room. *)
Lemma reader_loop_wire fwd fuel ms rest del :
  Forall sendable ms →
  let start := loop (reader_body fwd) (2 * length ms + fuel) (mkReader (wire_of ms ++ rest) None del) in
  ((∀ i, (i < length ms)%nat → has_room (fwd (length del + i)%nat)) ∧
   start = loop (reader_body fwd) fuel (mkReader rest None (del ++ ms))) ∨
  ∃ i e r, (i < length ms)%nat ∧ has_room (fwd (length del + i)%nat) = false ∧
    start = Some (e, r) ∧ r_delivered r = del ++ take i ms.
Proof.
  intros Hs. revert del. induction Hs as [|m ms (d & Hd & Hl) _ IH]; intros del.
  { left. rewrite app_nil_r. split; [simpl; lia|done]. }
  rewrite wire_of_cons, Hd. cbn [length from_option].
  replace (2 * S (length ms) + fuel)%nat with (S (S (2 * length ms + fuel))) by lia. cbn [loop].
  rewrite <- app_assoc, (reader_body_frame _ m d) by done.
  pose proof (reader_body_forward fwd m (wire_of ms ++ rest) del) as Hf. cbn zeta in Hf.
  destruct (has_room (fwd (length del))) eqn:Hroom.
  - rewrite Hf. specialize (IH (del ++ [m])). rewrite length_app in IH. simpl length in IH.
    destruct IH as [[Hall ->]|(i & e & r & Hi & Hno & -> & Hr)].
    + left. rewrite <- app_assoc. split; [|done]. intros [|i] Hi; [by rewrite Nat.add_0_r, Hroom|].
      replace (length del + S i)%nat with (length del + 1 + i)%nat by lia. apply Hall. lia.
    + right. exists (S i), e, r. rewrite Hr, <- app_assoc. split_and!; [lia| |done..].
      by replace (length del + S i)%nat with (length del + 1 + i)%nat by lia.
  - destruct Hf as (e & r & -> & Hr). right. exists 0%nat, e, r. rewrite Nat.add_0_r, app_nil_r.
    split_and!; [lia|done..].
Qed.

(** The bytes after the whole frames decide how the loop ends, when every frame finds
    room; otherwise the first that does not is the last the reader reaches. *)
Lemma handle_connection_wire fwd ms rest e r :
  Forall sendable ms → reader_body fwd (mkReader rest None ms) = Break (e, r) →
  ((∀ i, (i < length ms)%nat → has_room (fwd i)) ∧ handle_connection fwd (wire_of ms ++ rest) = Some (e, r)) ∨
  ∃ i e' r', (i < length ms)%nat ∧ has_room (fwd i) = false ∧
    handle_connection fwd (wire_of ms ++ rest) = Some (e', r') ∧ r_delivered r' = take i ms.
Proof.
  intros Hs Hb. unfold handle_connection.
  destruct (reader_terminates fwd (S (length (wire_of ms ++ rest))) (reader_new (wire_of ms ++ rest)))
    as [x Hx]; [cbn; lia|]. rewrite Hx.
  destruct (reader_loop_wire fwd 1 ms rest [] Hs) as [[Hall Hloop]|(i & e' & r' & Hi & Hno & Hloop & Hr)].
  - left. split; [done|]. f_equal. apply (loop_agree _ _ (2 * length ms + 1) _ _ _ Hx).
    unfold reader_new. rewrite Hloop. cbn [loop app]. by rewrite Hb.
  - right. exists i, e', r'. split_and!; [done|done| |done]. f_equal.
    by apply (loop_agree _ _ _ _ _ _ Hx Hloop).
Qed.

(** A proper prefix of an acceptable frame is not delivered. *)
Lemma reader_body_partial fwd m d k ms :
  enc m = Some d → 0 < Z.of_nat (length d) ≤ MAX_MESSAGE_SIZE → (k < length (frame d))%nat →
  ∃ e r, reader_body fwd (mkReader (take k (frame d)) None ms) = Break (e, r) ∧
         r_delivered r = ms.
Proof.
  intros Hd Hl Hk. rewrite length_frame in Hk. unfold reader_body. cbn [r_input r_delivered r_pending].
  destruct (read_exact 4 (take k (frame d))) as [[lb rest]|] eqn:E4; [|by do 2 eexists].
  destruct (Nat.lt_ge_cases k 4) as [Hlt|Hge].
  { apply read_exact_length in E4. rewrite length_take in E4. lia. }
  assert (take k (frame d) =
    to_be_bytes (as_u32 (Z.of_nat (length d))) ++ take (k - 4) d) as Hfr.
  { unfold frame. rewrite take_app_ge by (rewrite length_to_be_bytes; lia).
    by rewrite length_to_be_bytes. }
  rewrite Hfr in E4. change 4%nat with (length (to_be_bytes (as_u32 (Z.of_nat (length d))))) in E4.
  rewrite read_exact_app in E4. simplify_eq.
  unfold as_u32. unfold MAX_MESSAGE_SIZE in *.
  rewrite Z.mod_small by lia. rewrite from_to_be_bytes, length_to_be_bytes by lia.
  rewrite decide_False by lia. rewrite decide_False by lia. rewrite Nat2Z.id.
  destruct (read_exact (length d) (take (k - 4) d)) as [[x y]|] eqn:Ex; [|by do 2 eexists].
  apply read_exact_length in Ex. rewrite length_take in Ex. lia.
Qed.

(** Cutting the wire after [k] bytes leaves whole frames and part of the next. *)
Lemma take_wire ms k :
  Forall sendable ms →
  ∃ j n, (j ≤ length ms)%nat ∧ (k = length (wire_of (take j ms)) + n ∨
                                 j = length ms ∧ length (wire_of ms) ≤ k)%nat ∧
    match ms !! j with
    | Some m => ∃ d, enc m = Some d ∧ (n < length (frame d))%nat ∧
                     take k (wire_of ms) = wire_of (take j ms) ++ take n (frame d)
    | None => j = length ms ∧ take k (wire_of ms) = wire_of ms
    end.
Proof.
  intros Hs. revert k. induction Hs as [|m ms (d & Hd & Hl) Hs IH]; intros k.
  { exists 0%nat, k. split_and!; [simpl; lia|left; done|split; [done|by destruct k]]. }
  rewrite wire_of_cons, Hd. cbn [from_option].
  destruct (Nat.lt_ge_cases k (length (frame d))) as [Hlt|Hge].
  - exists 0%nat, k. split_and!; [lia|left; done|]. exists d.
    by rewrite take_app_le by lia.
  - destruct (IH (k - length (frame d))%nat) as (j & n & Hj & Hk & Hm).
    exists (S j), n. cbn [take length lookup list_lookup].
    rewrite wire_of_cons, Hd. cbn [from_option]. rewrite length_app, !take_app_ge by lia.
    split_and!; [lia|rewrite length_app; lia|].
    destruct (ms !! j) as [m'|].
    + destruct Hm as (d' & ? & ? & ->). exists d'. by rewrite <- app_assoc.
    + destruct Hm as [-> ->]. done.
Qed.

Lemma length_wire_take ms j m d :
  ms !! j = Some m → enc m = Some d →
  length (wire_of (take (S j) ms)) = (length (wire_of (take j ms)) + length (frame d))%nat.
Proof.
  intros Hj Hd. rewrite (take_S_r _ _ _ Hj), wire_of_app, length_app.
  f_equal. rewrite wire_of_cons, Hd. cbn [from_option]. by rewrite app_nil_r.
Qed.

(** *** The writer *)

Lemma writer_loop io ms snd run w n fuel :
  (∀ i, io i = Written) → (length ms < fuel)%nat →
  loop (writer_body io) fuel (mkLink ms snd run w n) =
  Some (if snd then Idle else ChannelClosed,
        mkLink [] snd (if snd then run else false) (w ++ wire_of ms)
          (n + length (omap enc ms))).
Proof.
  intros Hio. revert w n fuel. induction ms as [|m ms IH]; intros w n [|fuel] Hf;
    try (simpl in Hf; lia); cbn [loop].
  - unfold writer_body, wire_of. cbn. rewrite app_nil_r, Nat.add_0_r. by destruct snd.
  - unfold writer_body at 1. cbn [l_queue l_sender l_running l_wire l_written].
    simpl in Hf. rewrite wire_of_cons.
    destruct (enc m) as [d|] eqn:Ed; cbn [from_option]; rewrite ?Hio, IH by lia;
      cbn [omap list_omap]; rewrite ?Ed; cbn [length];
      do 2 f_equal; f_equal; rewrite ?app_assoc; try done; simpl; lia.
Qed.

Lemma writer_drains io l :
  (∀ i, io i = Written) → l_running l = true → l_sender l = true →
  writer io l = Some (Idle, mkLink [] true true (l_wire l ++ wire_of (l_queue l))
                              (l_written l + length (omap enc (l_queue l)))).
Proof.
  intros Hio Hr Hs. destruct l as [q sd rn w n]; simpl in *; subst. unfold writer. cbn [l_queue].
  rewrite writer_loop by (done || lia). done.
Qed.

(** C27: From one end of a connection to the other. The messages queued at one end
    can all be sent (they are encoded, to between one byte and the limit of ten
    megabytes), the socket accepts the writer's frames, and their first [k] bytes
    reach the peer before the connection is lost. Then the peer's reader puts a prefix
    of the queued messages into the incoming channel, in the order they were queued,
    all of whose frames lie within those [k] bytes; and when the incoming channel gets
    room for every message, it is the longest such prefix. *)
Theorem tcp_delivers io l k fwd :
  (∀ i, io i = Written) → l_running l = true → l_sender l = true → l_wire l = [] →
  Forall sendable (l_queue l) →
  ∃ l' e r j, writer io l = Some (Idle, l') ∧
    handle_connection fwd (take k (l_wire l')) = Some (e, r) ∧
    r_delivered r = take j (l_queue l) ∧ (j ≤ length (l_queue l))%nat ∧
    (length (wire_of (take j (l_queue l))) ≤ k)%nat ∧
    ((∀ i, has_room (fwd i)) → j < length (l_queue l) →
     k < length (wire_of (take (S j) (l_queue l))))%nat.
Proof.
  intros Hio Hr Hsd Hw Hs. rewrite (writer_drains io l Hio Hr Hsd), Hw. cbn [app].
  destruct (take_wire (l_queue l) k Hs) as (j & n & Hj & Hk & Hm).
  assert (∃ rest e r, take k (wire_of (l_queue l)) = wire_of (take j (l_queue l)) ++ rest ∧
    reader_body fwd (mkReader rest None (take j (l_queue l))) = Break (e, r) ∧
    r_delivered r = take j (l_queue l) ∧ (length (wire_of (take j (l_queue l))) ≤ k)%nat ∧
    (j < length (l_queue l) → k < length (wire_of (take (S j) (l_queue l))))%nat)
    as (rest & e & r & Ht & Hb & Hdel & Hle & Hnext).
  { destruct (l_queue l !! j) as [m|] eqn:Em.
    - destruct Hm as (d & Hd & Hn & Ht).
      assert (sendable m) as (d' & Hd' & Hl) by (by eapply Forall_lookup_1). simplify_eq.
      destruct (reader_body_partial fwd m d n (take j (l_queue l)) Hd Hl Hn) as (e & r & Hb & Hdel).
      apply lookup_lt_Some in Em as Hlt. eexists _, e, r. rewrite (length_wire_take _ _ _ _ Em Hd).
      split_and!; [done|done|done|lia|lia].
    - destruct Hm as [-> Ht]. eexists [], _, _. rewrite firstn_all, app_nil_r.
      apply (f_equal length) in Ht as Hlen. rewrite length_take in Hlen. split_and!; [done..|lia|lia]. }
  eexists _.
  destruct (handle_connection_wire fwd (take j (l_queue l)) rest e r) as
    [[_ Hh]|(i & e' & r' & Hi & Hno & Hh & Hr')]; [by apply Forall_take|done| |]; rewrite <- Ht in Hh.
  - exists e, r, j. split_and!; [done|done|done|lia|lia|]. intros _. exact Hnext.
  - rewrite length_take in Hi. rewrite take_take, Nat.min_l in Hr' by lia.
    exists e', r', i. split_and!; [done|done|done|lia| |].
    + rewrite <- (take_drop i (take j (l_queue l))), take_take, Nat.min_l, wire_of_app, length_app in Hle by lia.
      lia.
    + intros Hall. specialize (Hall i). by rewrite Hno in Hall.
Qed.
End reader.

Section oversize.
Context `{Codec NetworkMessage}.

Lemma read_exact_frame_length d rest :
  read_exact 4 (frame d ++ rest) = Some (to_be_bytes (as_u32 (Z.of_nat (length d))), d ++ rest).
Proof. unfold frame. rewrite <- app_assoc. apply (read_exact_app (to_be_bytes _)). Qed.

Lemma as_u32_range n : 0 ≤ as_u32 n < 2 ^ 32.
Proof. apply Z.mod_pos_bound. lia. Qed.

(** The writer sends messages of any size, the reader closes the connection
    on a length over its limit or a length whose low 32 bits are zero: what was
    queued before such a message is delivered, the message and everything queued
    after it are lost. *)
Theorem oversize_closes io l ms big d ms' fwd :
  (∀ i, io i = Written) → (∀ i, has_room (fwd i)) → l_running l = true → l_sender l = true → l_wire l = [] →
  l_queue l = ms ++ big :: ms' → Forall sendable ms → enc big = Some d →
  as_u32 (Z.of_nat (length d)) = 0 ∨ MAX_MESSAGE_SIZE < as_u32 (Z.of_nat (length d)) →
  ∃ l' e r, writer io l = Some (Idle, l') ∧
    handle_connection fwd (l_wire l') = Some (e, r) ∧
    r_delivered r = ms ∧ (e = TooLarge ∨ e = EmptyMessage).
Proof.
  intros Hio Hroom Hr Hsd Hw Hq Hs Hd Hbig. rewrite (writer_drains io l Hio Hr Hsd), Hw, Hq.
  assert (∃ e r, reader_body fwd (mkReader (frame d ++ wire_of ms') None ms) = Break (e, r) ∧
            r_delivered r = ms ∧ (e = TooLarge ∨ e = EmptyMessage)) as (e & r & Hb & Hrest).
  { unfold reader_body. cbn [r_input r_delivered r_pending].
    rewrite read_exact_frame_length, from_to_be_bytes by apply as_u32_range.
    case_decide; [eauto 6|]. case_decide; [eauto 6|]. lia. }
  eexists _, e, r. split; [done|]. cbn [l_wire app]. split; [|done].
  rewrite wire_of_app, wire_of_cons, Hd.
  destruct (handle_connection_wire fwd ms (frame d ++ wire_of ms') e r Hs Hb) as [[_ ?]|(i & ? & ? & _ & Hno & _)];
    [done|]. specialize (Hroom i). by rewrite Hno in Hroom.
Qed.
End oversize.

(** ** Bounds under every sequence of operations *)

(** The transport with its suspended callers: those that wait for room in a
    channel (each holds a permit and the read lock of the peer table), and the
    readers of the accepted connections. *)
Record Sys := mkSys {
  sys_t : TcpTransport;
  sys_waiting : list (string * NetworkMessage);
  sys_readers : list Reader;
}.

Inductive tstep `{Codec NetworkMessage} : Sys → Sys → Prop :=
| ts_connect t a o id addr r t' :
    (* the write lock is free *)
    connect_to_peer o id addr t = (r, t') →
    tstep (mkSys t [] a) (mkSys t' [] a)
| ts_send t w a id m st t' :
    send_to_peer id m t = (st, t') →
    tstep (mkSys t w a)
      (mkSys t' (if st is AwaitChannel then w ++ [(id, m)] else w) a)
| ts_resume t w1 w2 a id m p r t' :
    t_peers t !! id = Some p → send_deliver id m p t = (Sent r, t') →
    tstep (mkSys t (w1 ++ (id, m) :: w2) a) (mkSys t' (w1 ++ w2) a)
| ts_broadcast t w a ids m :
    tstep (mkSys t w a) (mkSys (broadcast_loop ids m t).2 w a)
| ts_writer t w a io i :
    tstep (mkSys t w a) (mkSys (run_writer io i t) w a)
| ts_accept t w a s t' :
    (* [s]: what the accepted connection will carry; nothing when [accept] fails *)
    accept_step (bool_decide (is_Some s)) t = Some t' →
    tstep (mkSys t w a) (mkSys t' w (a ++ option_list (reader_new <$> s)))
| ts_connection t w a1 a2 r o t' :
    connection_step r t = (o, t') →
    tstep (mkSys t w (a1 ++ r :: a2)) (mkSys t' w (a1 ++ option_list o ++ a2))
| ts_recv t w a :
    tstep (mkSys t w a) (mkSys (recv t).2 w a).

Definition waiting_for (id : string) (w : list (string * NetworkMessage)) : Z :=
  Z.of_nat (length (filter (λ x, x.1 = id) w)).

Lemma waiting_for_app id w w' : waiting_for id (w ++ w') = waiting_for id w + waiting_for id w'.
Proof. unfold waiting_for. rewrite filter_app, length_app. lia. Qed.

Lemma waiting_for_cons id x w :
  waiting_for id (x :: w) = (if decide (x.1 = id) then 1 else 0) + waiting_for id w.
Proof. unfold waiting_for. rewrite filter_cons. case_decide; simpl length; lia. Qed.

Definition links_ok (t : TcpTransport) : Prop :=
  ∀ i l, t_links t !! i = Some l → (length (l_queue l) ≤ CHANNEL_CAPACITY)%nat.

(** Every peer has its own channel, and permits are held by the waiting callers. *)
Definition peers_ok (t : TcpTransport) (w : list (string * NetworkMessage)) : Prop :=
  (∀ id p, t_peers t !! id = Some p →
     (pc_sender p < length (t_links t))%nat ∧ 0 ≤ pc_permits p ∧
     pc_permits p + waiting_for id w = MAX_IN_FLIGHT) ∧
  (∀ id id' p p', t_peers t !! id = Some p → t_peers t !! id' = Some p' →
     pc_sender p = pc_sender p' → id = id').

Definition sys_ok (max : Z) (s : Sys) : Prop :=
  links_ok (sys_t s) ∧ peers_ok (sys_t s) (sys_waiting s) ∧
  (length (t_incoming (sys_t s)) ≤ INCOMING_CAPACITY)%nat ∧ 0 ≤ t_connection_permits (sys_t s) ∧
  t_connection_permits (sys_t s) + Z.of_nat (length (sys_readers s)) = max.

Lemma links_ok_alter t f i :
  links_ok t → (∀ l, t_links t !! i = Some l → (length (l_queue (f l)) ≤ CHANNEL_CAPACITY)%nat) →
  ∀ j l, alter f i (t_links t) !! j = Some l → (length (l_queue l) ≤ CHANNEL_CAPACITY)%nat.
Proof.
  intros Ht Hf j l. destruct (decide (i = j)) as [->|Hne].
  - rewrite list_lookup_alter_eq, fmap_Some. intros (l0 & Hl0 & ->). by apply Hf.
  - rewrite list_lookup_alter_ne by done. apply Ht.
Qed.

Lemma channel_room links i :
  channel_state_of links i = Room →
  ∃ l, links !! i = Some l ∧ l_running l = true ∧ (length (l_queue l) < CHANNEL_CAPACITY)%nat.
Proof. unfold channel_state_of. intros. repeat case_match; try done. repeat case_decide; eauto. Qed.

Lemma links_ok_push t i m :
  links_ok t → channel_state_of (t_links t) i = Room →
  links_ok (with_peers t (t_peers t) (alter (push_link m) i (t_links t))).
Proof.
  intros Ht (l & Hl & _ & Hlt)%channel_room. unfold links_ok. cbn [with_peers t_links].
  apply links_ok_alter; [done|]. intros l' ?. simplify_eq. simpl. rewrite length_app. simpl. lia.
Qed.

(** A queue only shrinks while the writer runs. *)
Lemma writer_shrinks `{Codec NetworkMessage} io l e l' :
  writer io l = Some (e, l') → (length (l_queue l') ≤ length (l_queue l))%nat.
Proof.
  intros Hw. unfold writer in Hw.
  apply (loop_invariant _ (λ l1, (length (l_queue l1) ≤ length (l_queue l))%nat)
    (λ x, (length (l_queue x.2) ≤ length (l_queue l))%nat)) in Hw; [done|..|done].
  - intros [[|m q] sd rn w n] l2 Hl; unfold writer_body; simpl in *; repeat case_match; intros; simplify_eq/=; lia.
  - intros [[|m q] sd rn w n] [e2 l2] Hl; unfold writer_body; simpl in *; repeat case_match; intros; simplify_eq/=; lia.
Qed.

Lemma send_deliver_links_ok id m p t st t' :
  links_ok t → send_deliver id m p t = (st, t') → links_ok t'.
Proof.
  intros Ht. unfold send_deliver. destruct (channel_state_of _ _) eqn:Ec; intros; simplify_eq;
    [|done..]. by apply (links_ok_push _ _ m) in Ec.
Qed.

Lemma peers_ok_links t t' w :
  t_peers t' = t_peers t → (length (t_links t) ≤ length (t_links t'))%nat →
  peers_ok t w → peers_ok t' w.
Proof.
  intros Hp Hl [H1 H2]. unfold peers_ok. rewrite Hp. split; [|done].
  intros id p Hid. destruct (H1 _ _ Hid). split; [lia|done].
Qed.

Lemma peers_ok_push t w m i :
  peers_ok t w → peers_ok (with_peers t (t_peers t) (alter (push_link m) i (t_links t))) w.
Proof. by apply peers_ok_links; [|simpl; rewrite length_alter]. Qed.

Lemma peers_ok_perm t w w' : w ≡ₚ w' → peers_ok t w → peers_ok t w'.
Proof.
  intros Hw. unfold peers_ok, waiting_for. intros [H1 H2]. split; [|done].
  intros id p Hid. destruct (H1 _ _ Hid) as (?&?&?). by rewrite <- Hw.
Qed.

(** Changing the permits of one peer by what its waiting callers change. *)
Lemma peers_ok_permits t w w' id p n :
  t_peers t !! id = Some p →
  waiting_for id w' = waiting_for id w - n → 0 ≤ pc_permits p + n →
  (∀ id', id' ≠ id → waiting_for id' w' = waiting_for id' w) →
  peers_ok t w →
  peers_ok (with_peers t (<[id := mkPeerConnection (pc_sender p) (pc_permits p + n)]> (t_peers t))
              (t_links t)) w'.
Proof.
  intros Hp Hn Hpos Hw [H1 H2]. unfold peers_ok. cbn [with_peers t_peers t_links]. split.
  - intros id' p'. map_cases id' id; intros Hp'.
    + simplify_eq/=. destruct (H1 _ _ Hp) as (?&?&?). split_and!; [done|lia|lia].
    + rewrite Hw by done. by apply H1.
  - intros id1 id2 p1 p2 Hp1 Hp2 He.
    apply (H2 id1 id2 (if decide (id1 = id) then p else p1) (if decide (id2 = id) then p else p2));
      repeat case_decide; subst; rewrite ?lookup_insert_eq in *;
      rewrite ?lookup_insert_ne in * by done; simplify_eq/=; done.
Qed.

Lemma send_acquire_peers_ok t w id m p :
  t_peers t !! id = Some p → 0 < pc_permits p → peers_ok t w →
  peers_ok (send_acquire id p t) ((id, m) :: w).
Proof.
  intros Hp Hpos Ht. apply (peers_ok_permits _ w _ id p (-1)); try done; [|lia|].
  - rewrite waiting_for_cons, decide_True by done. lia.
  - intros id' ?. rewrite waiting_for_cons, decide_False by (simpl; congruence). lia.
Qed.

Lemma send_release_peers_ok t w id m p :
  t_peers t !! id = Some p → peers_ok t ((id, m) :: w) → peers_ok (send_release id t) w.
Proof.
  intros Hp Ht. unfold send_release. rewrite (alter_alt_Some _ _ _ p) by done.
  apply (peers_ok_permits _ ((id, m) :: w) _ id p 1); try done.
  - rewrite waiting_for_cons, decide_True by done. lia.
  - destruct Ht as [H1 _]. destruct (H1 _ _ Hp). lia.
  - intros id' ?. rewrite waiting_for_cons, decide_False by (simpl; congruence). lia.
Qed.

Lemma send_deliver_peers_ok t w id m p q st t' :
  t_peers t !! id = Some q → peers_ok t ((id, m) :: w) → send_deliver id m p t = (st, t') →
  peers_ok t' (if st is AwaitChannel then (id, m) :: w else w).
Proof.
  intros Hq Ht. unfold send_deliver. destruct (channel_state_of _ _); intros; simplify_eq.
  - apply (send_release_peers_ok _ _ _ m q); [done|].
    by apply peers_ok_push.
  - done.
  - by apply (send_release_peers_ok _ _ _ m q).
Qed.

Section bounds.
Context `{Codec NetworkMessage}.

Lemma accept_step_frame ok t t' :
  accept_step ok t = Some t' →
  t_peers t' = t_peers t ∧ t_links t' = t_links t ∧ t_incoming t' = t_incoming t ∧
  t_connection_permits t' = t_connection_permits t - (if ok then 1 else 0) ∧ 0 < t_connection_permits t.
Proof. unfold accept_step. case_decide; [|done]. intros [= <-]. destruct ok; split_and!; simpl; (done || lia). Qed.

(** A turn of a reader: it stays, or leaves and gives its permit back; it forwards a
    message only while the incoming channel has room. *)
Lemma connection_step_frame r t o t' :
  connection_step r t = (o, t') →
  t_peers t' = t_peers t ∧ t_links t' = t_links t ∧
  t_connection_permits t' + Z.of_nat (length (option_list o)) = t_connection_permits t + 1 ∧
  ((length (t_incoming t) ≤ INCOMING_CAPACITY)%nat → (length (t_incoming t') ≤ INCOMING_CAPACITY)%nat).
Proof.
  unfold connection_step. destruct (reader_body _ r) as [r'|[e r']] eqn:Hb.
  2: { destruct e; intros [= <- <-]; split_and!; simpl; (done || lia). }
  intros [= <- <-]. split_and!; simpl; [done|done|lia|]. intros Hle. rewrite length_app, length_drop.
  unfold reader_body in Hb. repeat (case_match || case_decide); simplify_eq/=; rewrite ?length_app; simpl; lia.
Qed.

Lemma tstep_links_ok s s' : tstep s s' → links_ok (sys_t s) → links_ok (sys_t s').
Proof.
  destruct 1 as [t a o id addr r t' Hc|t w a id m st t' Hs|t w1 w2 a id m p r t' Hp Hs
                |t w a ids m|t w a io i|t w a s t' Ha|t w a1 a2 r o t' Hr|t w a]; cbn [sys_t]; intros Ht.
  - unfold connect_to_peer in Hc. destruct o; simplify_eq; try done.
    unfold links_ok. cbn [with_peers t_links].
    intros i l [Hl|[_ Hl]]%lookup_app_Some.
    + destruct (t_peers t !! id) as [p|]; [|by eapply Ht]. simpl in Hl.
      eapply links_ok_alter; [done| |done]. intros l0 Hl0. simpl. by eapply Ht.
    + apply list_lookup_singleton_Some in Hl as [_ <-]. simpl. lia.
  - unfold send_to_peer in Hs. destruct (t_peers t !! id) as [p|]; [|by simplify_eq].
    case_decide; [|by simplify_eq]. revert Hs. by apply send_deliver_links_ok.
  - revert Hs. by apply send_deliver_links_ok.
  - revert t Ht. induction ids as [|id ids IH]; intros t Ht; [done|]. simpl.
    destruct (t_peers t !! id); [|by apply IH].
    destruct (channel_state_of _ _) eqn:Ec; [|done|by apply IH].
    apply IH. by apply links_ok_push.
  - unfold run_writer. destruct (t_links t !! i) as [l|] eqn:El; [|done].
    destruct (l_running l); [|done]. destruct (writer io l) as [[e l']|] eqn:Ew; [|done].
    unfold links_ok. cbn [with_peers t_links]. intros j l1.
    destruct (decide (i = j)) as [->|Hne].
    + rewrite list_lookup_insert_eq by (by eapply lookup_lt_Some). intros [= <-].
      apply writer_shrinks in Ew. specialize (Ht _ _ El). lia.
    + rewrite list_lookup_insert_ne by done. apply Ht.
  - apply accept_step_frame in Ha as (_ & Hl & _). unfold links_ok. by rewrite Hl.
  - apply connection_step_frame in Hr as (_ & Hl & _). unfold links_ok. by rewrite Hl.
  - unfold recv. by destruct (t_incoming t).
Qed.

Lemma connect_peers_ok o id addr t r t' :
  connect_to_peer o id addr t = (r, t') → peers_ok t [] → peers_ok t' [].
Proof.
  intros Hc [H1 H2]. unfold connect_to_peer in Hc. destruct o; simplify_eq; try done.
  assert (length (drop_peer (t_peers t !! id) (t_links t)) = length (t_links t)) as Hl.
  { destruct (t_peers t !! id); [apply length_alter|done]. }
  unfold peers_ok. cbn [with_peers t_peers t_links]. rewrite length_app, Hl. split.
  - intros id' p. map_cases id' id; intros Hp.
    + simplify_eq/=. unfold MAX_IN_FLIGHT. split_and!; (lia || done).
    + destruct (H1 _ _ Hp) as (?&?&?). split_and!; [lia|done..].
  - intros id1 id2 p1 p2. map_cases id1 id; map_cases id2 id; intros Hp1 Hp2 He;
      simplify_eq/=; try done; try by eapply H2.
    + destruct (H1 _ _ Hp2). lia.
    + destruct (H1 _ _ Hp1). lia.
Qed.

Lemma broadcast_loop_frame ids m t :
  t_peers (broadcast_loop ids m t).2 = t_peers t ∧
  t_connection_permits (broadcast_loop ids m t).2 = t_connection_permits t ∧
  length (t_links (broadcast_loop ids m t).2) = length (t_links t).
Proof.
  revert t. induction ids as [|id ids IH]; intros t; [done|]. simpl.
  destruct (t_peers t !! id); [|by apply IH].
  destruct (channel_state_of _ _); [|done|by apply IH].
  destruct (IH (with_peers t (t_peers t) (alter (push_link m) (pc_sender p) (t_links t))))
    as (-> & -> & ->). simpl. by rewrite length_alter.
Qed.

Lemma run_writer_frame io i t :
  t_peers (run_writer io i t) = t_peers t ∧
  t_connection_permits (run_writer io i t) = t_connection_permits t ∧
  length (t_links (run_writer io i t)) = length (t_links t).
Proof.
  unfold run_writer. repeat case_match; try done. simpl. by rewrite length_insert.
Qed.

Lemma tstep_peers_ok s s' :
  tstep s s' → peers_ok (sys_t s) (sys_waiting s) → peers_ok (sys_t s') (sys_waiting s').
Proof.
  destruct 1 as [t a o id addr r t' Hc|t w a id m st t' Hs|t w1 w2 a id m p r t' Hp Hs
                |t w a ids m|t w a io i|t w a s t' Ha|t w a1 a2 r o t' Hr|t w a];
    cbn [sys_t sys_waiting]; intros Ht.
  - by eapply connect_peers_ok.
  - unfold send_to_peer in Hs. destruct (t_peers t !! id) as [p|] eqn:Hp; [|by simplify_eq].
    case_decide; [|by simplify_eq].
    eapply (send_deliver_peers_ok _ w _ m) in Hs; [|by apply lookup_insert_eq
      |by apply send_acquire_peers_ok].
    destruct st; try done. eapply peers_ok_perm; [|done]. by rewrite (comm (++)).
  - eapply (send_deliver_peers_ok _ (w1 ++ w2) _ m _ p) in Hs; [done..|].
    eapply peers_ok_perm; [|done]. by rewrite Permutation_middle.
  - destruct (broadcast_loop_frame ids m t) as (?&?&?). eapply peers_ok_links; [done|lia|done].
  - destruct (run_writer_frame io i t) as (?&?&?). eapply peers_ok_links; [done|lia|done].
  - apply accept_step_frame in Ha as (Hp & Hl & _). eapply peers_ok_links; [done|by rewrite Hl|done].
  - apply connection_step_frame in Hr as (Hp & Hl & _). eapply peers_ok_links; [done|by rewrite Hl|done].
  - unfold recv. by destruct (t_incoming t).
Qed.

Lemma tstep_incoming s s' :
  tstep s s' → (length (t_incoming (sys_t s)) ≤ INCOMING_CAPACITY)%nat →
  (length (t_incoming (sys_t s')) ≤ INCOMING_CAPACITY)%nat.
Proof.
  destruct 1 as [t a o id addr r t' Hc|t w a id m st t' Hs|t w1 w2 a id m p r t' Hp Hs
                |t w a ids m|t w a io i|t w a s t' Ha|t w a1 a2 r o t' Hr|t w a];
    cbn [sys_t]; intros Hle.
  - unfold connect_to_peer in Hc. by destruct o; simplify_eq.
  - unfold send_to_peer, send_deliver in Hs. repeat case_match; by simplify_eq.
  - unfold send_deliver in Hs. repeat case_match; by simplify_eq.
  - revert t Hle. induction ids as [|id ids IH]; intros t Hle; [done|]. simpl.
    destruct (t_peers t !! id); [|by apply IH]. destruct (channel_state_of _ _); [|done|by apply IH].
    by apply IH.
  - unfold run_writer. by repeat case_match.
  - apply accept_step_frame in Ha as (_ & _ & -> & _). done.
  - apply connection_step_frame in Hr as (_ & _ & _ & Hi). by apply Hi.
  - unfold recv. destruct (t_incoming t) eqn:Hi; simpl in *; rewrite ?Hi; simpl; lia.
Qed.

Lemma tstep_permits s s' :
  tstep s s' → 0 ≤ t_connection_permits (sys_t s) →
  t_connection_permits (sys_t s') + Z.of_nat (length (sys_readers s')) =
    t_connection_permits (sys_t s) + Z.of_nat (length (sys_readers s)) ∧
  0 ≤ t_connection_permits (sys_t s').
Proof.
  destruct 1 as [t a o id addr r t' Hc|t w a id m st t' Hs|t w1 w2 a id m p r t' Hp Hs
                |t w a ids m|t w a io i|t w a s t' Ha|t w a1 a2 r o t' Hr|t w a];
    cbn [sys_t sys_readers]; intros Hper.
  - unfold connect_to_peer in Hc. by destruct o; simplify_eq.
  - unfold send_to_peer, send_deliver in Hs. repeat case_match; by simplify_eq.
  - unfold send_deliver in Hs. repeat case_match; by simplify_eq.
  - destruct (broadcast_loop_frame ids m t) as (?&->&?). lia.
  - destruct (run_writer_frame io i t) as (?&->&?). lia.
  - apply accept_step_frame in Ha as (_ & _ & _ & Hp & Hpos). rewrite length_app.
    destruct s; simpl in *; lia.
  - apply connection_step_frame in Hr as (_ & _ & Hp & _). rewrite !length_app. simpl.
    destruct o; simpl in *; lia.
  - unfold recv. by destruct (t_incoming t).
Qed.

Lemma reachable_ok addr max s :
  0 ≤ max → rtc tstep (mkSys (transport_new addr max) [] []) s → sys_ok max s.
Proof.
  intros Hmax. revert s. apply rtc_ind_r.
  - split_and!; simpl; try lia; try done.
  - intros s1 s2 _ Hs (Hl & Hp & Hi & Hc & He).
    destruct (tstep_permits _ _ Hs Hc) as (?&?).
    split_and!; [by eapply tstep_links_ok|by eapply tstep_peers_ok|by eapply tstep_incoming|lia..].
Qed.

(** Whatever sequence of connects, sends, broadcasts, writer and connection
    tasks runs: no channel holds more than its capacity, the incoming channel no more
    than a thousand messages, at most a hundred callers wait on one peer, two peers never share a channel, and no more
    connections are served than the limit the transport was created with. *)
Theorem transport_bounds addr max s :
  0 ≤ max → rtc tstep (mkSys (transport_new addr max) [] []) s →
  (length (t_incoming (sys_t s)) ≤ 1000)%nat ∧
  (∀ i l, t_links (sys_t s) !! i = Some l → (length (l_queue l) ≤ 100)%nat) ∧
  (∀ id p, t_peers (sys_t s) !! id = Some p → waiting_for id (sys_waiting s) ≤ 100) ∧
  (∀ id id' p p', t_peers (sys_t s) !! id = Some p → t_peers (sys_t s) !! id' = Some p' →
     pc_sender p = pc_sender p' → id = id') ∧
  Z.of_nat (length (sys_readers s)) ≤ max.
Proof.
  intros Hmax Hr. destruct (reachable_ok _ _ _ Hmax Hr) as (Hl & [Hp Hi] & Ha & Hc & He).
  split_and!; [exact Ha|exact Hl| |exact Hi|lia].
  intros id p Hid. destruct (Hp _ _ Hid) as (?&?&?). unfold MAX_IN_FLIGHT in *. lia.
Qed.
End bounds.

(** ** Broadcast *)

Definition broadcast_link (msg : NetworkMessage) (l : Link) : Link :=
  if l_running l then push_link msg l else l.

Lemma broadcast_loop_spec ids msg t w t' :
  peers_ok t w → NoDup ids → broadcast_loop ids msg t = ([], t') →
  ∀ id p l, t_peers t !! id = Some p → t_links t !! pc_sender p = Some l →
    t_links t' !! pc_sender p = Some (if decide (id ∈ ids) then broadcast_link msg l else l).
Proof.
  revert t. induction ids as [|i ids IH]; intros t Ht Hnd Hb id p l Hp Hl.
  { simpl in Hb. simplify_eq. by rewrite decide_False by apply not_elem_of_nil. }
  apply NoDup_cons in Hnd as [Hni Hnd]. simpl in Hb.
  destruct (t_peers t !! i) as [q|] eqn:Hq.
  2: { rewrite (IH _ Ht Hnd Hb _ _ _ Hp Hl). apply f_equal.
       assert (id ≠ i) by congruence. repeat case_decide; try done; set_solver. }
  destruct (decide (id = i)) as [->|Hne].
  - simplify_eq. rewrite decide_True by left. unfold channel_state_of in Hb. rewrite Hl in Hb.
    unfold broadcast_link. destruct (l_running l) eqn:Hrun.
    + case_decide; [|done].
      rewrite (IH (with_peers t (t_peers t) (alter (push_link msg) (pc_sender q) (t_links t)))
                 (peers_ok_push t w msg _ Ht)
                 Hnd Hb i q (push_link msg l) Hq); [by rewrite decide_False|].
      simpl. by rewrite list_lookup_alter_eq, Hl.
    + rewrite (IH _ Ht Hnd Hb _ _ _ Hq Hl). by rewrite decide_False.
  - assert (pc_sender p ≠ pc_sender q) as Hsd.
    { intros He. destruct Ht as [_ Ht]. by specialize (Ht _ _ _ _ Hp Hq He). }
    destruct (channel_state_of _ _); [|done|].
    + rewrite (IH (with_peers t (t_peers t) (alter (push_link msg) (pc_sender q) (t_links t)))
                 (peers_ok_push t w msg _ Ht)
                 Hnd Hb id p l Hp);
        [|simpl; by rewrite list_lookup_alter_ne].
      apply f_equal. repeat case_decide; try done; set_solver.
    + rewrite (IH _ Ht Hnd Hb _ _ _ Hp Hl). apply f_equal.
      repeat case_decide; try done; set_solver.
Qed.

(** A broadcast that completes reports success, adds the message once to
    the channel of every peer whose writer still runs, and leaves the channels
    of the others alone. *)
Theorem broadcast_spec `{HashOrder} msg t w r t' :
  peers_ok t w → broadcast msg t = (Some r, t') →
  r = Ok tt ∧ t_peers t' = t_peers t ∧
  ∀ id p l, t_peers t !! id = Some p → t_links t !! pc_sender p = Some l →
    t_links t' !! pc_sender p = Some (if l_running l then push_link msg l else l).
Proof.
  intros Ht Hb. unfold broadcast in Hb.
  destruct (broadcast_loop (hm_keys (t_peers t)) msg t) as [[|??] t1] eqn:El; simplify_eq.
  split; [done|]. split.
  { destruct (broadcast_loop_frame (hm_keys (t_peers t)) msg t) as [Hp _].
    by rewrite El in Hp. }
  intros id p l Hp Hl. rewrite (broadcast_loop_spec _ _ _ _ _ Ht (NoDup_hm_keys _) El _ _ _ Hp Hl).
  rewrite decide_True by (apply elem_of_hm_keys; by exists p). done.
Qed.

(** ** Concrete runs *)

(** An encoding of heartbeats, acknowledgements and of one request that is just
    over the reader's limit. *)
Definition big_message : bytes := replicate (Z.to_nat (MAX_MESSAGE_SIZE + 1)) 7.

Definition sample_enc (m : NetworkMessage) : option bytes :=
  match m with
  | NmHeartbeat => Some [1]
  | NmAck "" n => Some [2; n]
  | NmSubscribe "" "" => Some big_message
  | _ => None
  end.

Definition sample_dec (b : bytes) : option NetworkMessage :=
  if decide (Z.of_nat (length b) = MAX_MESSAGE_SIZE + 1) then Some (NmSubscribe "" "")
  else match b with
  | [1] => Some NmHeartbeat
  | [2; n] => Some (NmAck "" n)
  | _ => None
  end.

Lemma sample_dec_enc m b : sample_enc m = Some b → sample_dec b = Some m.
Proof.
  intros Hm. destruct m as [| |tp sb|tp n| | |]; [done|done| | | |done|done].
  - destruct tp; [|done]. destruct sb; [|done].
    assert (Z.of_nat (length b) = MAX_MESSAGE_SIZE + 1) as Hb.
    { injection Hm as <-. unfold big_message. rewrite length_replicate. by apply Z2Nat.id. }
    unfold sample_dec. by rewrite decide_True.
  - destruct tp; [|done]. by injection Hm as <-.
  - by injection Hm as <-.
Qed.

Definition sample_codec : Codec NetworkMessage :=
  {| enc := sample_enc; dec := sample_dec; dec_enc := sample_dec_enc |}.

Definition sample_link : Link := mkLink [NmHeartbeat; NmAck "" 7; NmHeartbeat] true true [] 0.

Lemma tcp_delivers_witness :
  let _ := sample_codec in
  ∃ l' e r j, writer (λ _, Written) sample_link = Some (Idle, l') ∧
    handle_connection (λ _, Holds 7) (take 13 (l_wire l')) = Some (e, r) ∧
    r_delivered r = take j (l_queue sample_link) ∧ (j ≤ 3)%nat ∧
    (length (wire_of (take j (l_queue sample_link))) ≤ 13)%nat ∧
    (j < 3 → 13 < length (wire_of (take (S j) (l_queue sample_link))))%nat.
Proof.
  intros H. edestruct (tcp_delivers (λ _, Written) sample_link 13 (λ _, Holds 7))
    as (l' & e & r & j & H1 & H2 & H3 & H4 & H5 & H6);
    [..|exists l', e, r, j; split_and!; try done; by apply H6]; try done.
  repeat constructor; [exists [1]|exists [2; 7]|exists [1]]; (split; [reflexivity|]);
    unfold MAX_MESSAGE_SIZE; simpl; lia.
Defined.

Lemma oversize_closes_witness :
  let _ := sample_codec in
  ∃ l' e r, writer (λ _, Written)
              (mkLink [NmHeartbeat; NmSubscribe "" ""; NmHeartbeat] true true [] 0) = Some (Idle, l') ∧
    handle_connection (λ _, Holds 7) (l_wire l') = Some (e, r) ∧
    r_delivered r = [NmHeartbeat] ∧ (e = TooLarge ∨ e = EmptyMessage).
Proof.
  intros H. apply (oversize_closes (λ _, Written) _ [NmHeartbeat] (NmSubscribe "" "") big_message
    [NmHeartbeat] (λ _, Holds 7)); try done.
  - repeat constructor. exists [1]. split; [reflexivity|]. unfold MAX_MESSAGE_SIZE. simpl. lia.
  - right. unfold big_message, as_u32, MAX_MESSAGE_SIZE. rewrite length_replicate.
    rewrite Z2Nat.id by lia. reflexivity.
Defined.

(** With one free place in the incoming channel and nobody receiving, the reader
    forwards the first message and waits with the second. *)
Lemma full_channel_waits :
  let _ := sample_codec in
  handle_connection (λ i, Holds (999 + i)) (wire_of [NmHeartbeat; NmHeartbeat]) =
    Some (AwaitRoom, mkReader [] (Some NmHeartbeat) [NmHeartbeat]).
Proof. reflexivity. Qed.

(** A transport with one peer and one queued message. *)
Definition sample_connected : TcpTransport :=
  (connect_to_peer Connected "b" "h:1" (transport_new "a:0" 2)).2.

Definition sample_transport : TcpTransport := (send_to_peer "b" NmHeartbeat sample_connected).2.

Lemma sample_reachable :
  rtc (@tstep sample_codec) (mkSys (transport_new "a:0" 2) [] []) (mkSys sample_transport [] []).
Proof.
  apply (rtc_l _ _ (mkSys sample_connected [] [])).
  { by apply (@ts_connect sample_codec _ [] Connected "b" "h:1" (Ok tt)). }
  apply rtc_once.
  exact (@ts_send sample_codec sample_connected [] [] "b" NmHeartbeat (Sent (Ok tt)) sample_transport eq_refl).
Qed.

Lemma transport_bounds_witness :
  (length (t_incoming sample_transport) ≤ 1000)%nat ∧
  (∀ i l, t_links sample_transport !! i = Some l → (length (l_queue l) ≤ 100)%nat) ∧
  (∀ id p, t_peers sample_transport !! id = Some p → waiting_for id [] ≤ 100) ∧
  (∀ id id' p p', t_peers sample_transport !! id = Some p →
     t_peers sample_transport !! id' = Some p' → pc_sender p = pc_sender p' → id = id') ∧
  0 ≤ 2.
Proof.
  apply (@transport_bounds sample_codec "a:0" 2 (mkSys sample_transport [] []));
    [lia|apply sample_reachable].
Defined.

Lemma broadcast_spec_witness :
  let _ := canonical_order in
  ∃ r t', broadcast NmHeartbeat sample_transport = (Some r, t') ∧ r = Ok tt ∧
    t_links t' !! 0%nat = Some (mkLink [NmHeartbeat; NmHeartbeat] true true [] 0).
Proof.
  intros H. eexists _, _. split; [reflexivity|].
  destruct (@reachable_ok sample_codec "a:0" 2 _ ltac:(lia) sample_reachable) as (_ & Hp & _).
  edestruct (broadcast_spec NmHeartbeat sample_transport []) as (? & ? & Hl);
    [exact Hp|reflexivity|].
  split; [done|]. by apply (Hl "b" (mkPeerConnection 0 100) (mkLink [NmHeartbeat] true true [] 0)).
Defined.
