(* ===== verification/TcpNetwork.v ===== *)
(** * Raft RPCs over TCP (src/network/tcp_network.rs, src/cluster/raft_router.rs)

    A client opens a connection per RPC, sends one frame (a type byte and the
    encoded request) and reads one frame back; the server decodes frames in a
    loop and hands the requests to the local Raft instance.  openraft's request
    and response types, its handlers and the serializer are parameters. *)

From S2P Require Import Prelude Framing.
#[local] Open Scope Z_scope.

(** [const MAX_MESSAGE_SIZE: usize = 16 * 1024 * 1024] *)
Definition MAX_MESSAGE_SIZE : Z := 16 * 1024 * 1024.

(** [const DEFAULT_TIMEOUT], in seconds. *)
Definition DEFAULT_TIMEOUT : Z := 5.

Inductive RpcType := AppendEntries | Vote | InstallSnapshot.

#[export] Instance RpcType_eq_dec : EqDecision RpcType.
Proof. solve_decision. Defined.

(** [rpc_type as u8] *)
Definition rpc_code (t : RpcType) : Z :=
  match t with AppendEntries => 1 | Vote => 2 | InstallSnapshot => 3 end.

(** [TryFrom<u8>] *)
Definition rpc_try_from (value : Z) : result string RpcType :=
  if decide (value = 1) then Ok AppendEntries
  else if decide (value = 2) then Ok Vote
  else if decide (value = 3) then Ok InstallSnapshot
  else Err ("Unknown RPC type: " +:+ pretty value).

(** ** Configuration *)

Record TcpNetworkConfig := mkTcpConfig {
  tc_bind_addr : string;
  tc_peers : gmap Z string;
  tc_timeout : Z;
  tc_max_connections_per_peer : Z;
}.

Definition tcp_config_default : TcpNetworkConfig :=
  mkTcpConfig "0.0.0.0:9090" ∅ DEFAULT_TIMEOUT 3.

Definition tcp_config_new (node_id port : Z) : TcpNetworkConfig :=
  mkTcpConfig ("0.0.0.0:" +:+ pretty port) ∅ DEFAULT_TIMEOUT 3.

Definition add_peer (node_id : Z) (addr : string) (c : TcpNetworkConfig) : TcpNetworkConfig :=
  mkTcpConfig (tc_bind_addr c) (<[node_id := addr]> (tc_peers c)) (tc_timeout c)
    (tc_max_connections_per_peer c).

Definition with_bind_addr (addr : string) (c : TcpNetworkConfig) : TcpNetworkConfig :=
  mkTcpConfig addr (tc_peers c) (tc_timeout c) (tc_max_connections_per_peer c).

Definition with_timeout (timeout : Z) (c : TcpNetworkConfig) : TcpNetworkConfig :=
  mkTcpConfig (tc_bind_addr c) (tc_peers c) timeout (tc_max_connections_per_peer c).

(** ** The local Raft instance *)

Class RaftTypes : Type := {
  AppendEntriesRequest : Type;
  AppendEntriesResponse : Type;
  VoteRequest : Type;
  VoteResponse : Type;
  InstallSnapshotRequest : Type;
  InstallSnapshotResponse : Type;
}.

(** The instance's state and its handlers; an error is its debug output. *)
Class Raft `{RaftTypes} : Type := {
  raft : Type;
  raft_append_entries : raft → AppendEntriesRequest → raft * result string AppendEntriesResponse;
  raft_vote : raft → VoteRequest → raft * result string VoteResponse;
  raft_install_snapshot :
    raft → InstallSnapshotRequest → raft * result string InstallSnapshotResponse;
}.

(** ** The client *)

Record TcpNetwork := mkNetwork { net_target : Z; net_config : TcpNetworkConfig }.

(** [TcpNetworkFactory::new_client] *)
Definition new_client (config : TcpNetworkConfig) (target : Z) : TcpNetwork :=
  mkNetwork target config.

(** What connecting under the timeout gives. *)
Inductive connect_result := ConnectOk | ConnectTimedOut | ConnectFailed (e : string).

Definition get_connection (o : connect_result) (n : TcpNetwork) : result string unit :=
  addr ← ok_or (tc_peers (net_config n) !! net_target n)
           ("Unknown peer " +:+ pretty (net_target n));
  match o with
  | ConnectOk => Ok tt
  | ConnectTimedOut => Err ("Connection timeout to " +:+ addr)
  | ConnectFailed e => Err ("Connection failed: " +:+ e)
  end.

(** The bytes that arrive on a connection, and what follows them: silence, or
    an end of the stream reported as the error [e]. *)
Inductive stream_end := Stalled | Ended (e : string).

Record Incoming := mkIncoming { in_bytes : bytes; in_end : stream_end }.

Section client.
Context {Req Resp : Type} `{Codec Req} `{Codec Resp}.

(** The buffer [send_rpc] writes: the type byte and the encoded request. *)
Definition rpc_request (rpc_type : RpcType) (request : Req) : result string bytes :=
  data ← ok_or (enc request) "Serialize error";
  Ok (rpc_code rpc_type :: data).

(** The outcome of writing and flushing under one timeout; [None] when the
    timeout fires. *)
Definition send_result (n : TcpNetwork) (timed_out : bool) (o : write_outcome) :
    result string unit :=
  if timed_out then Err ("Send timeout to peer " +:+ pretty (net_target n))
  else match o with
  | Written => Ok tt
  | LengthFailed _ e => Err ("Write length error: " +:+ e)
  | DataFailed _ e => Err ("Write data error: " +:+ e)
  | FlushFailed _ e => Err ("Flush error: " +:+ e)
  end.

(** Reading the response. *)
Definition rpc_response (n : TcpNetwork) (i : Incoming) : result string Resp :=
  match read_exact 4 (in_bytes i) with
  | None =>
      Err (match in_end i with
           | Stalled => "Receive timeout from peer " +:+ pretty (net_target n)
           | Ended e => "Read length error: " +:+ e
           end)
  | Some (len_bytes, rest) =>
      let response_len := from_be_bytes len_bytes in
      if decide (MAX_MESSAGE_SIZE < response_len) then
        Err ("Response too large: " +:+ pretty response_len +:+ " bytes")
      else match read_exact (Z.to_nat response_len) rest with
      | None =>
          Err (match in_end i with
               | Stalled => "Receive data timeout from peer " +:+ pretty (net_target n)
               | Ended e => "Read data error: " +:+ e
               end)
      | Some (buf, _) => ok_or (dec buf) "Deserialize error"
      end
  end.

(** [send_rpc]: its result and the bytes it puts on the wire. *)
Definition send_rpc (n : TcpNetwork) (o : connect_result) (timed_out : bool) (w : write_outcome)
    (i : Incoming) (rpc_type : RpcType) (request : Req) : result string Resp * bytes :=
  match get_connection o n with
  | Err e => (Err e, [])
  | Ok _ =>
      match rpc_request rpc_type request with
      | Err e => (Err e, [])
      | Ok buf =>
          (_ ← send_result n timed_out w; rpc_response n i, wire_bytes w buf)
      end
  end.
End client.

Section network.
Context `{RaftTypes}.
Context `{Codec AppendEntriesRequest} `{Codec AppendEntriesResponse} `{Codec VoteRequest}
  `{Codec VoteResponse} `{Codec InstallSnapshotRequest} `{Codec InstallSnapshotResponse}.
Variables (n : TcpNetwork) (o : connect_result) (timed_out : bool) (w : write_outcome) (i : Incoming).

(** The methods of [RaftNetwork]; every error becomes [RPCError::Network]. *)
Definition append_entries (rpc : AppendEntriesRequest) :
    result string AppendEntriesResponse * bytes := send_rpc n o timed_out w i AppendEntries rpc.

Definition install_snapshot (rpc : InstallSnapshotRequest) :
    result string InstallSnapshotResponse * bytes := send_rpc n o timed_out w i InstallSnapshot rpc.

Definition vote (rpc : VoteRequest) : result string VoteResponse * bytes :=
  send_rpc n o timed_out w i Vote rpc.
End network.

(** ** The server *)

(** A connection being served: what arrives, what was answered, how many
    answers. *)
Record Served := mkServed { sv_in : Incoming; sv_out : bytes; sv_count : nat }.

(** How serving a connection ends: with an error, or never because a frame
    stays incomplete (the data is read without a timeout). *)
Inductive serve_end := Failed (e : string) | Hangs.

Section server.
Context `{Raft}.
Context `{Codec AppendEntriesRequest} `{Codec AppendEntriesResponse} `{Codec VoteRequest}
  `{Codec VoteResponse} `{Codec InstallSnapshotRequest} `{Codec InstallSnapshotResponse}.

(** [RaftMessageRouter] (src/cluster/raft_router.rs) *)
Record RaftMessageRouter := mkRouter { router_raft : raft }.

Definition router_append_entries (r : RaftMessageRouter) (rpc : AppendEntriesRequest) :
    RaftMessageRouter * result string AppendEntriesResponse :=
  let '(s, a) := raft_append_entries (router_raft r) rpc in (mkRouter s, a).

Definition router_vote (r : RaftMessageRouter) (rpc : VoteRequest) :
    RaftMessageRouter * result string VoteResponse :=
  let '(s, a) := raft_vote (router_raft r) rpc in (mkRouter s, a).

Definition router_install_snapshot (r : RaftMessageRouter) (rpc : InstallSnapshotRequest) :
    RaftMessageRouter * result string InstallSnapshotResponse :=
  let '(s, a) := raft_install_snapshot (router_raft r) rpc in (mkRouter s, a).

Definition encode_response {T} `{Codec T} (a : result string T) : result string bytes :=
  response ← map_err (λ e, "Raft error: " +:+ e) a;
  ok_or (enc response) "Serialize error".

Definition handle_append_entries (r : RaftMessageRouter) (data : bytes) :
    RaftMessageRouter * result string bytes :=
  match dec data with
  | None => (r, Err "Deserialize error")
  | Some request =>
      let '(r', a) := router_append_entries r request in (r', encode_response a)
  end.

Definition handle_vote (r : RaftMessageRouter) (data : bytes) :
    RaftMessageRouter * result string bytes :=
  match dec data with
  | None => (r, Err "Deserialize error")
  | Some request => let '(r', a) := router_vote r request in (r', encode_response a)
  end.

Definition handle_install_snapshot (r : RaftMessageRouter) (data : bytes) :
    RaftMessageRouter * result string bytes :=
  match dec data with
  | None => (r, Err "Deserialize error")
  | Some request =>
      let '(r', a) := router_install_snapshot r request in (r', encode_response a)
  end.

(** [match rpc_type { 1 => .., 2 => .., 3 => .., _ => Err }] *)
Definition dispatch (r : RaftMessageRouter) (rpc_type : Z) (data : bytes) :
    RaftMessageRouter * result string bytes :=
  if decide (rpc_type = 1) then handle_append_entries r data
  else if decide (rpc_type = 2) then handle_vote r data
  else if decide (rpc_type = 3) then handle_install_snapshot r data
  else (r, Err ("Unknown RPC type: " +:+ pretty rpc_type)).

(** One iteration of the loop of [handle_connection]. *)
Definition serve_body (io : nat → write_outcome) (st : RaftMessageRouter * Served) :
    flow (RaftMessageRouter * Served) (serve_end * (RaftMessageRouter * Served)) :=
  let '(r, c) := st in
  match read_exact 4 (in_bytes (sv_in c)) with
  | None =>
      Break (Failed (match in_end (sv_in c) with
                     | Stalled => "Read timeout"
                     | Ended e => "Read error: " +:+ e
                     end), (r, c))
  | Some (len_bytes, rest) =>
      let len := from_be_bytes len_bytes in
      let c1 := mkServed (mkIncoming rest (in_end (sv_in c))) (sv_out c) (sv_count c) in
      if decide (MAX_MESSAGE_SIZE < len) then
        Break (Failed ("Message too large: " +:+ pretty len +:+ " bytes"), (r, c1))
      else match read_exact (Z.to_nat len) rest with
      | None =>
          Break (match in_end (sv_in c) with
                 | Stalled => Hangs
                 | Ended e => Failed ("Read data error: " +:+ e)
                 end, (r, c1))
      | Some (buf, rest') =>
          let c2 := mkServed (mkIncoming rest' (in_end (sv_in c))) (sv_out c) (sv_count c) in
          match buf with
          | [] => Break (Failed "Empty message", (r, c2))
          | rpc_type :: request_data =>
              match dispatch r rpc_type request_data with
              | (r', Err e) => Break (Failed e, (r', c2))
              | (r', Ok response) =>
                  let o := io (sv_count c) in
                  let c3 := mkServed (sv_in c2) (sv_out c ++ wire_bytes o response)
                              (S (sv_count c)) in
                  match o with
                  | Written => Continue (r', c3)
                  | LengthFailed _ e => Break (Failed ("Write length error: " +:+ e), (r', c3))
                  | DataFailed _ e => Break (Failed ("Write data error: " +:+ e), (r', c3))
                  | FlushFailed _ e => Break (Failed ("Flush error: " +:+ e), (r', c3))
                  end
              end
          end
      end
  end.

(** [handle_connection] of the server. *)
Definition serve (io : nat → write_outcome) (r : RaftMessageRouter) (i : Incoming) :
    option (serve_end * (RaftMessageRouter * Served)) :=
  loop (serve_body io) (S (length (in_bytes i))) (r, mkServed i [] 0).

(** The spawned task of a connection. *)
Inductive ServeTask := Serving (c : Served) | Finished (e : serve_end) (c : Served).

(** The listening server: its accepted connections share the router. *)
Record TcpRaftServer := mkServer {
  srv_node_id : Z;
  srv_addr : string;
  srv_router : RaftMessageRouter;
  srv_tasks : list ServeTask;
}.

(** [TcpRaftServer::bind] *)
Definition server_bind (o : result string unit) (addr : string) (node_id : Z)
    (r : RaftMessageRouter) : result string TcpRaftServer :=
  _ ← map_err (λ e, "Failed to bind TCP server: " +:+ e) o;
  Ok (mkServer node_id addr r []).

Definition local_addr (o : result string unit) (s : TcpRaftServer) : result string string :=
  _ ← map_err (λ e, "Failed to get local address: " +:+ e) o; Ok (srv_addr s).

(** One iteration of the accept loop of [run]. *)
Definition run_accept (o : result string Incoming) (s : TcpRaftServer) : TcpRaftServer :=
  match o with
  | Ok i => mkServer (srv_node_id s) (srv_addr s) (srv_router s) (srv_tasks s ++ [Serving (mkServed i [] 0)])
  | Err _ => s
  end.

(** The task of the [k]-th connection serves one request. *)
Definition run_task (io : nat → write_outcome) (k : nat) (s : TcpRaftServer) : TcpRaftServer :=
  match srv_tasks s !! k with
  | Some (Serving c) =>
      let '(r', c') := match serve_body io (srv_router s, c) with
                       | Continue (r', c') => (r', Serving c')
                       | Break (e, (r', c')) => (r', Finished e c')
                       end in
      mkServer (srv_node_id s) (srv_addr s) r' (<[k := c']> (srv_tasks s))
  | _ => s
  end.
End server.
