(* ===== verification/TcpNetworkProps.v ===== *)
(** * Theorems about Raft RPCs over TCP

    An RPC carries the request to the peer's Raft instance and its response
    back; every connection that is closed is served to its end; an error of the
    remote Raft instance reaches the client only as a lost connection; a frame
    that stays incomplete is waited for without limit. *)

From S2P Require Import Prelude Framing TcpNetwork.
#[local] Open Scope Z_scope.

Section rpc.
Context `{Raft}.
Context `{!Codec AppendEntriesRequest} `{!Codec AppendEntriesResponse} `{!Codec VoteRequest}
  `{!Codec VoteResponse} `{!Codec InstallSnapshotRequest} `{!Codec InstallSnapshotResponse}.

(** The three RPCs as one family. *)
Definition request (k : RpcType) : Type :=
  match k with
  | AppendEntries => AppendEntriesRequest
  | Vote => VoteRequest
  | InstallSnapshot => InstallSnapshotRequest
  end.

Definition response (k : RpcType) : Type :=
  match k with
  | AppendEntries => AppendEntriesResponse
  | Vote => VoteResponse
  | InstallSnapshot => InstallSnapshotResponse
  end.

#[export] Instance request_codec k : Codec (request k).
Proof. destruct k; simpl; apply _. Defined.

#[export] Instance response_codec k : Codec (response k).
Proof. destruct k; simpl; apply _. Defined.

(** The handler of the Raft instance for an RPC. *)
Definition raft_call (k : RpcType) (s : raft) : request k → raft * result string (response k) :=
  match k with
  | AppendEntries => raft_append_entries s
  | Vote => raft_vote s
  | InstallSnapshot => raft_install_snapshot s
  end.

(** The client method for an RPC. *)
Definition client_call (n : TcpNetwork) o t w i (k : RpcType) :
    request k → result string (response k) * bytes :=
  match k with
  | AppendEntries => append_entries n o t w i
  | Vote => vote n o t w i
  | InstallSnapshot => install_snapshot n o t w i
  end.

Lemma client_call_ok n k rq d addr :
  tc_peers (net_config n) !! net_target n = Some addr → enc rq = Some d →
  ∀ i, client_call n ConnectOk false Written i k rq =
       (rpc_response n i, frame (rpc_code k :: d)).
Proof.
  intros Ha Hd i. trans (send_rpc n ConnectOk false Written i k rq : result string (response k) * _);
    [by destruct k|].
  unfold send_rpc, get_connection, rpc_request. rewrite Ha. cbn. by rewrite Hd.
Qed.

Lemma dispatch_spec r k (rq : request k) d :
  enc rq = Some d →
  dispatch r (rpc_code k) d =
  (mkRouter (raft_call k (router_raft r) rq).1,
   encode_response (raft_call k (router_raft r) rq).2).
Proof.
  intros Hd%dec_enc. destruct k; simpl in *;
    unfold dispatch; repeat (case_decide; try done);
    unfold handle_append_entries, handle_vote, handle_install_snapshot; simpl; rewrite Hd;
    unfold router_append_entries, router_vote, router_install_snapshot;
    [destruct (raft_append_entries _ _)|destruct (raft_vote _ _)
    |destruct (raft_install_snapshot _ _)]; done.
Qed.

(** *** Termination *)

Lemma serve_body_shrinks io r c r' c' :
  serve_body io (r, c) = Continue (r', c') →
  (4 + length (in_bytes (sv_in c')) ≤ length (in_bytes (sv_in c)))%nat ∧
  in_end (sv_in c') = in_end (sv_in c).
Proof.
  unfold serve_body. destruct (read_exact 4 _) as [[lb rest]|] eqn:E4; [|done].
  apply read_exact_length in E4. case_decide; [done|].
  destruct (read_exact _ rest) as [[buf rest']|] eqn:Ed; [|done].
  apply read_exact_length in Ed. repeat case_match; intros; simplify_eq/=; split; (lia || done).
Qed.

Lemma serve_terminates io fuel st :
  (length (in_bytes (sv_in st.2)) < fuel)%nat → is_Some (loop (serve_body io) fuel st).
Proof.
  apply (loop_terminates _ (λ st, length (in_bytes (sv_in st.2)))).
  intros [r c] [r' c'] [? _]%serve_body_shrinks. simpl. lia.
Qed.

(** Serving a connection that the peer ends returns on every input, with
    an error; serving one that only falls silent returns or waits without limit
    for the rest of a frame. *)
Theorem serve_total io r i :
  ∃ e st, serve io r i = Some (e, st) ∧
    match in_end i with Ended _ => e ≠ Hangs | Stalled => True end.
Proof.
  destruct (serve_terminates io (S (length (in_bytes i))) (r, mkServed i [] 0)) as [[e st] He];
    [simpl; lia|].
  exists e, st. split; [done|]. destruct (in_end i) as [|m] eqn:Ei; [done|].
  apply (loop_invariant _ (λ st, in_end (sv_in st.2) = Ended m) (λ x, x.1 ≠ Hangs)) in He;
    [done|..|done].
  - intros [r1 c1] [r2 c2] Hi [_ Hc]%serve_body_shrinks. simpl in *. congruence.
  - intros [r1 c1] [e2 [r2 c2]] Hi. simpl in Hi. unfold serve_body. rewrite Hi.
    repeat case_match; intros; simplify_eq/=; done.
Qed.

(** *** One RPC *)

(** A request that fits a frame is read back by the server. *)
Lemma serve_body_request io r k (rq : request k) d rest en out cnt :
  enc rq = Some d → Z.of_nat (length d) < MAX_MESSAGE_SIZE →
  serve_body io (r, mkServed (mkIncoming (frame (rpc_code k :: d) ++ rest) en) out cnt) =
  let c2 := mkServed (mkIncoming rest en) out cnt in
  match dispatch r (rpc_code k) d with
  | (r', Err e) => Break (Failed e, (r', c2))
  | (r', Ok resp) =>
      let c3 := mkServed (mkIncoming rest en) (out ++ wire_bytes (io cnt) resp) (S cnt) in
      match io cnt with
      | Written => Continue (r', c3)
      | LengthFailed _ e => Break (Failed ("Write length error: " +:+ e), (r', c3))
      | DataFailed _ e => Break (Failed ("Write data error: " +:+ e), (r', c3))
      | FlushFailed _ e => Break (Failed ("Flush error: " +:+ e), (r', c3))
      end
  end.
Proof.
  intros Hd Hl. unfold serve_body. cbn [sv_in in_bytes in_end sv_out sv_count].
  destruct (read_frame (rpc_code k :: d) rest) as (lb & -> & ->);
    [unfold MAX_MESSAGE_SIZE in Hl; simpl length; lia|].
  rewrite decide_False by (simpl length; lia). by rewrite Nat2Z.id, read_exact_app.
Qed.

Lemma rpc_response_frame {Resp} `{Codec Resp} n (a : Resp) d rest en :
  enc a = Some d → Z.of_nat (length d) ≤ MAX_MESSAGE_SIZE →
  rpc_response n (mkIncoming (frame d ++ rest) en) = Ok a.
Proof.
  intros Hd Hl. unfold rpc_response. cbn [in_bytes in_end].
  destruct (read_frame d rest) as (lb & -> & ->); [unfold MAX_MESSAGE_SIZE in Hl; lia|].
  rewrite decide_False by lia. by rewrite Nat2Z.id, read_exact_app, (dec_enc _ _ Hd).
Qed.

(** Serving the frame of one RPC, after which the client closes the connection. *)
Lemma serve_one io r k rq d s' a e0 :
  enc rq = Some d → Z.of_nat (length d) < MAX_MESSAGE_SIZE → io 0%nat = Written →
  raft_call k (router_raft r) rq = (s', a) →
  serve io r (mkIncoming (frame (rpc_code k :: d)) (Ended e0)) =
  Some (match encode_response a with
        | Ok resp => (Failed ("Read error: " +:+ e0),
                      (mkRouter s', mkServed (mkIncoming [] (Ended e0)) (frame resp) 1))
        | Err e => (Failed e, (mkRouter s', mkServed (mkIncoming [] (Ended e0)) [] 0))
        end).
Proof.
  intros Hd Hl Hio Hc. unfold serve. cbn [in_bytes]. rewrite length_frame.
  cbn [Nat.add loop]. rewrite <- (app_nil_r (frame (rpc_code k :: d))) at 1.
  rewrite (serve_body_request io r k rq) by done. rewrite (dispatch_spec _ _ _ _ Hd), Hc.
  cbn [fst snd]. destruct (encode_response a) as [resp|e]; [|done]. by rewrite Hio.
Qed.

(** C29: An RPC between two nodes: the bytes the client's [append_entries],
    [vote] or [install_snapshot] sends make the server hand exactly that request
    to its Raft instance, and from the bytes the server answers the client
    returns exactly the instance's response, for every request and response that
    fit the size limit. *)
Theorem rpc_roundtrip n k rq d io r s' resp rd e0 addr :
  tc_peers (net_config n) !! net_target n = Some addr →
  enc rq = Some d → Z.of_nat (length d) < MAX_MESSAGE_SIZE → io 0%nat = Written →
  raft_call k (router_raft r) rq = (s', Ok resp) →
  enc resp = Some rd → Z.of_nat (length rd) ≤ MAX_MESSAGE_SIZE →
  ∃ sent e c,
    (∀ i, (client_call n ConnectOk false Written i k rq).2 = sent) ∧
    serve io r (mkIncoming sent (Ended e0)) = Some (e, (mkRouter s', c)) ∧
    ∀ en, (client_call n ConnectOk false Written (mkIncoming (sv_out c) en) k rq).1 = Ok resp.
Proof.
  intros Ha Hd Hl Hio Hc Hrd Hrl.
  exists (frame (rpc_code k :: d)), (Failed ("Read error: " +:+ e0)),
    (mkServed (mkIncoming [] (Ended e0)) (frame rd) 1).
  pose proof (client_call_ok n k rq d addr Ha Hd) as Hcl.
  split_and!.
  - intros i. by rewrite Hcl.
  - rewrite (serve_one io r k rq d s' (Ok resp) e0) by done.
    unfold encode_response. cbn. by rewrite Hrd.
  - intros en. rewrite Hcl. cbn [fst].
    rewrite <- (app_nil_r (frame rd)). by apply (rpc_response_frame _ _ rd).
Qed.

(** An error of the remote Raft instance is not transported: the server
    closes the connection without an answer, and what the client returns is the
    same for every error. *)
Theorem raft_error_not_transported n k rq d io r s' err e0 addr :
  tc_peers (net_config n) !! net_target n = Some addr →
  enc rq = Some d → Z.of_nat (length d) < MAX_MESSAGE_SIZE → io 0%nat = Written →
  raft_call k (router_raft r) rq = (s', Err err) →
  ∃ sent c, (∀ i, (client_call n ConnectOk false Written i k rq).2 = sent) ∧
    serve io r (mkIncoming sent (Ended e0)) =
      Some (Failed ("Raft error: " +:+ err), (mkRouter s', c)) ∧
    ∀ e1, (client_call n ConnectOk false Written (mkIncoming (sv_out c) (Ended e1)) k rq).1 =
      Err ("Read length error: " +:+ e1).
Proof.
  intros Ha Hd Hl Hio Hc.
  exists (frame (rpc_code k :: d)), (mkServed (mkIncoming [] (Ended e0)) [] 0).
  pose proof (client_call_ok n k rq d addr Ha Hd) as Hcl.
  split_and!.
  - intros i. by rewrite Hcl.
  - by rewrite (serve_one io r k rq d s' (Err err) e0).
  - intros e1. by rewrite Hcl.
Qed.

(** The data of a frame is awaited without a timeout. *)
Lemma incomplete_frame_hangs io r data k :
  Z.of_nat (length data) ≤ MAX_MESSAGE_SIZE → (k < length data)%nat →
  ∃ st, serve io r (mkIncoming (to_be_bytes (as_u32 (Z.of_nat (length data))) ++ take k data)
                      Stalled) = Some (Hangs, st).
Proof.
  intros Hl Hk. unfold serve. cbn [loop serve_body sv_in in_bytes in_end].
  change 4%nat with (length (to_be_bytes (as_u32 (Z.of_nat (length data))))).
  rewrite read_exact_app. unfold MAX_MESSAGE_SIZE, as_u32 in *.
  rewrite Z.mod_small, from_to_be_bytes by lia. rewrite decide_False by lia.
  assert (read_exact (Z.to_nat (Z.of_nat (length data))) (take k data) = None) as ->.
  { apply read_exact_None. rewrite length_take. lia. }
  by eexists.
Qed.
End rpc.

(** ** A concrete instance *)

Module Sample.

Definition byte_enc (z : Z) : option bytes := Some [z].
Definition byte_dec (b : bytes) : option Z := match b with [z] => Some z | _ => None end.

Lemma byte_dec_enc z b : byte_enc z = Some b → byte_dec b = Some z.
Proof. by intros [= <-]. Qed.

#[export] Instance byte_codec : Codec Z :=
  {| enc := byte_enc; dec := byte_dec; dec_enc := byte_dec_enc |}.

#[export] Instance types : RaftTypes :=
  {| AppendEntriesRequest := Z; AppendEntriesResponse := Z; VoteRequest := Z;
     VoteResponse := Z; InstallSnapshotRequest := Z; InstallSnapshotResponse := Z |}.

(** A log that is only a counter, and votes refused for old terms. *)
#[export] Instance counter : Raft :=
  {| raft := Z;
     raft_append_entries s n := (s + n, Ok (s + n));
     raft_vote s term := (s, if decide (term < s) then Err "stale term" else Ok term);
     raft_install_snapshot s n := (n, Ok n) |}.

Definition net : TcpNetwork := new_client (add_peer 2 "h:1" tcp_config_default) 2.

Lemma rpc_roundtrip_witness :
  ∃ sent e c,
    (∀ i, (client_call net ConnectOk false Written i AppendEntries 5).2 = sent) ∧
    serve (λ _, Written) (mkRouter 10) (mkIncoming sent (Ended "eof")) =
      Some (e, (mkRouter 15, c)) ∧
    ∀ en, (client_call net ConnectOk false Written (mkIncoming (sv_out c) en) AppendEntries 5).1 =
          Ok 15.
Proof.
  by apply (@rpc_roundtrip types counter byte_codec byte_codec byte_codec byte_codec byte_codec
    byte_codec net AppendEntries 5 [5] (λ _, Written) (@mkRouter types counter 10) 15 15 [15] "eof" "h:1").
Defined.

Lemma raft_error_not_transported_witness :
  ∃ sent c, (∀ i, (client_call net ConnectOk false Written i Vote 3).2 = sent) ∧
    serve (λ _, Written) (mkRouter 10) (mkIncoming sent (Ended "eof")) =
      Some (Failed "Raft error: stale term", (mkRouter 10, c)) ∧
    ∀ e1, (client_call net ConnectOk false Written (mkIncoming (sv_out c) (Ended e1)) Vote 3).1 =
          Err ("Read length error: " +:+ e1).
Proof.
  by apply (@raft_error_not_transported types counter byte_codec byte_codec byte_codec byte_codec
    byte_codec byte_codec net Vote 3 [3] (λ _, Written) (@mkRouter types counter 10) 10
    "stale term" "eof" "h:1").
Defined.
End Sample.
