(* ===== verification/Text.v ===== *)
(** * Text

    The string functions of Rust's standard library that the parsers of the
    crate use, on strings of UTF-8 bytes: [trim], [split], [split_whitespace],
    [lines], integer parsing; with the round trips between printing and parsing
    that the parsers' theorems share. *)

From Stdlib Require Import Ascii.
From S2P Require Import Prelude DdlTypes.
#[local] Open Scope Z_scope.
#[local] Arguments String.append !_ _ /.

(** ** White space *)

(** The number of bytes of the white-space character (Unicode [White_Space])
    that a text starts with; 0 when it starts with another character. *)
Definition ws_len (s : string) : nat :=
  match string_bytes s with
  | a :: b =>
      if bool_decide (9 ≤ a ≤ 13)%nat || bool_decide (a = 32%nat) then 1
      else match b with
      | b :: c =>
          if bool_decide (a = 194%nat) && bool_decide (b ∈ [133; 160])%nat then 2
          else match c with
          | c :: _ =>
              if (bool_decide (a = 225%nat) && bool_decide (b = 154%nat) && bool_decide (c = 128%nat))
                 || (bool_decide (a = 226%nat) && bool_decide (b = 128%nat) &&
                     (bool_decide (128 ≤ c ≤ 138)%nat || bool_decide (c ∈ [168; 169; 175])%nat))
                 || (bool_decide (a = 226%nat) && bool_decide (b = 129%nat) && bool_decide (c = 159%nat))
                 || (bool_decide (a = 227%nat) && bool_decide (b = 128%nat) && bool_decide (c = 128%nat))
              then 3 else 0
          | [] => 0
          end
      | [] => 0
      end
  | [] => 0
  end.

(** [trim_start]; [k] bytes of the white-space character at hand remain. *)
Fixpoint trim_start_go (k : nat) (s : string) : string :=
  match s with
  | "" => ""
  | String _ s' =>
      match k with
      | S k => trim_start_go k s'
      | O => match ws_len s with O => s | S k => trim_start_go k s' end
      end
  end.

Definition trim_start (s : string) : string := trim_start_go 0 s.

(** [trim_end]: cut at the first position from which only white space follows. *)
Fixpoint trim_end (s : string) : string :=
  match s with
  | "" => ""
  | String c s' => if decide (trim_start s = "") then "" else String c (trim_end s')
  end.

Definition trim (s : string) : string := trim_end (trim_start s).

Definition push_char (s : string) (c : Ascii.ascii) : string := s +:+ String c "".

(** A word collected so far, unless it is empty. *)
Definition flush (cur : string) : list string := if decide (cur = "") then [] else [cur].

Fixpoint split_whitespace_go (k : nat) (cur s : string) : list string :=
  match s with
  | "" => flush cur
  | String c s' =>
      match k with
      | S k => split_whitespace_go k cur s'
      | O => match ws_len s with
             | O => split_whitespace_go 0 (push_char cur c) s'
             | S k => flush cur ++ split_whitespace_go k "" s'
             end
      end
  end.

(** [split_whitespace] *)
Definition split_whitespace (s : string) : list string := split_whitespace_go 0 "" s.

(** ** Splitting at a character *)

Fixpoint split_go (sep : Ascii.ascii) (cur s : string) : list string :=
  match s with
  | "" => [cur]
  | String c s' =>
      if decide (c = sep) then cur :: split_go sep "" s' else split_go sep (push_char cur c) s'
  end.

(** [s.split(sep)] for an ASCII character *)
Definition split (sep : Ascii.ascii) (s : string) : list string := split_go sep "" s.

(** Joining with a separator. *)
Fixpoint join (sep : string) (l : list string) : string :=
  match l with
  | [] => ""
  | [s] => s
  | s :: l => s +:+ sep +:+ join sep l
  end.

Fixpoint has_char (c : Ascii.ascii) (s : string) : bool :=
  match s with "" => false | String d s => bool_decide (d = c) || has_char c s end.

Definition newline : Ascii.ascii := Ascii.ascii_of_nat 10.
Definition carriage_return : Ascii.ascii := Ascii.ascii_of_nat 13.

Fixpoint strip_cr (s : string) : string :=
  match s with
  | "" => ""
  | String c s' => if decide (c = carriage_return ∧ s' = "") then "" else String c (strip_cr s')
  end.

(** [AsyncBufReadExt::lines] on a stream that ends: the text between line feeds,
    without a final carriage return; a last line without a line feed counts when
    it is not empty. *)
Fixpoint lines_go (cur s : string) : list string :=
  match s with
  | "" => flush cur
  | String c s' =>
      if decide (c = newline) then strip_cr cur :: lines_go "" s' else lines_go (push_char cur c) s'
  end.

Definition text_lines (s : string) : list string := lines_go "" s.

(** ** Unsigned integers *)

Definition digit (c : Ascii.ascii) : option Z :=
  let n := Ascii.nat_of_ascii c in
  if decide (48 ≤ n ≤ 57)%nat then Some (Z.of_nat n - 48) else None.

Fixpoint parse_digits (max acc : Z) (s : string) : option Z :=
  match s with
  | "" => Some acc
  | String c s =>
      d ← digit c;
      if decide (acc * 10 + d ≤ max) then parse_digits max (acc * 10 + d) s else None
  end.

(** [s.parse::<uN>().ok()] for the unsigned type with the given maximum. *)
Definition parse_uint (max : Z) (s : string) : option Z :=
  match s with
  | "" => None
  | String "+"%char "" => None
  | String "+"%char s => parse_digits max 0 s
  | s => parse_digits max 0 s
  end.

Definition U16_MAX : Z := 2 ^ 16 - 1.
Definition parse_u64 : string → option Z := parse_uint U64_MAX.
Definition parse_u16 : string → option Z := parse_uint U16_MAX.

(** ** Round trips *)

Lemma string_app_assoc (a b c : string) : (a +:+ b) +:+ c = a +:+ b +:+ c.
Proof. induction a as [|x a IH]; simpl; [done|by rewrite IH]. Qed.

Lemma string_app_nil_r (a : string) : a +:+ "" = a.
Proof. induction a as [|x a IH]; simpl; [done|by rewrite IH]. Qed.

Lemma push_char_app s c r : push_char s c +:+ r = s +:+ String c r.
Proof. unfold push_char. by rewrite string_app_assoc. Qed.

Lemma split_go_word sep w cur s :
  has_char sep w = false → split_go sep cur (w +:+ s) = split_go sep (cur +:+ w) s.
Proof.
  revert cur. induction w as [|c w IH]; intros cur Hw; simpl in *; [by rewrite string_app_nil_r|].
  apply orb_false_iff in Hw as [Hc Hw]. apply bool_decide_eq_false in Hc.
  rewrite decide_False by done. rewrite IH by done. by rewrite push_char_app.
Qed.

(** Splitting what was joined from parts without the separator. *)
Lemma split_join sep l :
  l ≠ [] → Forall (λ w, has_char sep w = false) l → split sep (join (String sep "") l) = l.
Proof.
  intros Hne Hl. unfold split. induction Hl as [|w l Hw Hl IH]; [done|].
  destruct l as [|w' l].
  - simpl. rewrite <- (string_app_nil_r w) at 1. by rewrite split_go_word.
  - change (join (String sep "") (w :: w' :: l)) with
      (w +:+ String sep (join (String sep "") (w' :: l))).
    rewrite split_go_word by done. cbn [split_go]. rewrite decide_True by done.
    by rewrite IH.
Qed.

Lemma ws_len_visible c s : (33 ≤ Ascii.nat_of_ascii c ≤ 126)%nat → ws_len (String c s) = 0%nat.
Proof.
  intros Hc. unfold ws_len. simpl. rewrite bool_decide_false by lia.
  rewrite (bool_decide_false (_ = 32%nat)) by lia. simpl.
  destruct (string_bytes s) as [|b [|d l]]; [done|..];
    rewrite !(bool_decide_false (Ascii.nat_of_ascii c = _)) by lia; done.
Qed.

(** Text of visible ASCII characters. *)
Definition visible (s : string) : Prop :=
  ∀ a c b, s = a +:+ String c b → (33 ≤ Ascii.nat_of_ascii c ≤ 126)%nat.

Lemma visible_cons c s :
  visible (String c s) ↔ (33 ≤ Ascii.nat_of_ascii c ≤ 126)%nat ∧ visible s.
Proof.
  split.
  - intros Hv. split; [by apply (Hv "" c s)|]. intros a d b ->. by apply (Hv (String c a) d b).
  - intros [Hc Hs] [|x a] d b Hd; simplify_eq/=; [done|]. by eapply Hs.
Qed.

Lemma split_ws_word w cur s :
  visible w → split_whitespace_go 0 cur (w +:+ s) = split_whitespace_go 0 (cur +:+ w) s.
Proof.
  revert cur. induction w as [|c w IH]; intros cur Hw; simpl; [by rewrite string_app_nil_r|].
  apply visible_cons in Hw as [Hc Hw]. rewrite ws_len_visible by done.
  rewrite IH by done. by rewrite push_char_app.
Qed.

(** The words of a line are read back. *)
Lemma split_whitespace_join l :
  Forall (λ w, w ≠ "" ∧ visible w) l → split_whitespace (join " " l) = l.
Proof.
  unfold split_whitespace. intros Hl. induction Hl as [|w l [Hne Hw] Hl IH]; [done|].
  destruct l as [|w' l].
  - simpl. rewrite <- (string_app_nil_r w) at 1. rewrite split_ws_word by done. simpl.
    unfold flush. by rewrite decide_False.
  - change (join " " (w :: w' :: l)) with (w +:+ String " "%char (join " " (w' :: l))).
    rewrite split_ws_word by done. cbn [split_whitespace_go].
    replace (ws_len _) with 1%nat by done. rewrite IH. unfold flush. by rewrite decide_False.
Qed.

(** *** Numbers *)

Lemma digit_pretty d : (d < 10)%N → digit (pretty_N_char d) = Some (Z.of_N d).
Proof.
  intros Hd. assert (d = 0 ∨ d = 1 ∨ d = 2 ∨ d = 3 ∨ d = 4 ∨ d = 5 ∨ d = 6 ∨ d = 7 ∨ d = 8 ∨ d = 9)%N
    as Hc by lia.
  repeat (destruct Hc as [->|Hc]; [done|]). by subst.
Qed.

Lemma parse_digits_pretty_go max x s :
  Z.of_N x ≤ max →
  parse_digits max 0 (pretty_N_go x s) = parse_digits max (Z.of_N x) s.
Proof.
  revert s. induction x as [x IH] using (well_founded_induction N.lt_wf_0). intros s Hx.
  destruct (N.eq_0_gt_0_cases x) as [->|Hpos]; [by rewrite pretty_N_go_0|].
  rewrite pretty_N_go_step by done.
  pose proof (N.div_lt x 10 Hpos ltac:(lia)).
  pose proof (N.mod_lt x 10 ltac:(lia)). pose proof (N.div_mod x 10 ltac:(lia)) as Hdm.
  rewrite IH by lia. simpl. rewrite digit_pretty by done. simpl.
  replace (Z.of_N (x `div` 10) * 10 + Z.of_N (x `mod` 10)) with (Z.of_N x) by lia.
  by rewrite decide_True by lia.
Qed.

(** The decimal form of a number starts with a digit. *)
Lemma pretty_N_go_head x s :
  (0 < x)%N → ∃ d r, (d < 10)%N ∧ pretty_N_go x s = String (pretty_N_char d) r.
Proof.
  revert s. induction x as [x IH] using (well_founded_induction N.lt_wf_0). intros s Hx.
  rewrite pretty_N_go_step by done. pose proof (N.mod_lt x 10 ltac:(lia)).
  destruct (N.eq_0_gt_0_cases (x `div` 10)) as [E|Hpos].
  - rewrite E, pretty_N_go_0. eauto.
  - apply IH; [|done]. apply N.div_lt; lia.
Qed.

Lemma pretty_nonneg z : 0 ≤ z → pretty z = pretty (Z.to_N z).
Proof. by destruct z. Qed.

Lemma parse_uint_digits max s :
  (∃ d r, (d < 10)%N ∧ s = String (pretty_N_char d) r) → parse_uint max s = parse_digits max 0 s.
Proof.
  intros (d & r & Hd & ->).
  assert (d = 0 ∨ d = 1 ∨ d = 2 ∨ d = 3 ∨ d = 4 ∨ d = 5 ∨ d = 6 ∨ d = 7 ∨ d = 8 ∨ d = 9)%N
    as Hc by lia.
  repeat (destruct Hc as [->|Hc]; [done|]). by subst.
Qed.

Lemma pretty_head z : 0 ≤ z → ∃ d r, (d < 10)%N ∧ pretty z = String (pretty_N_char d) r.
Proof.
  intros Hz. rewrite pretty_nonneg by done. unfold pretty, pretty_N.
  case_decide as Hd; [|by apply pretty_N_go_head; lia].
  exists 0%N, "". done.
Qed.

(** Parsing a printed number gives it back. *)
Lemma parse_uint_pretty max z : 0 ≤ z ≤ max → parse_uint max (pretty z) = Some z.
Proof.
  intros Hz. rewrite parse_uint_digits by (apply pretty_head; lia).
  rewrite pretty_nonneg by lia. unfold pretty, pretty_N. case_decide as Hd.
  - change (parse_digits max 0 "0") with (if decide (0 ≤ max) then Some 0 else None).
    rewrite decide_True by lia. f_equal. lia.
  - rewrite parse_digits_pretty_go by lia. simpl. f_equal. lia.
Qed.

Lemma parse_digits_range max acc s z :
  0 ≤ acc ≤ max → parse_digits max acc s = Some z → 0 ≤ z ≤ max.
Proof.
  revert acc. induction s as [|c s IH]; intros acc Ha; simpl; [by intros [= <-]|].
  unfold digit. case_decide; simpl; [|done]. case_decide; [|done]. apply IH. lia.
Qed.

Lemma parse_uint_range max s z : 0 ≤ max → parse_uint max s = Some z → 0 ≤ z ≤ max.
Proof.
  intros Hm. unfold parse_uint. intros Hs.
  assert (∃ s', parse_digits max 0 s' = Some z) as [s' Hs'].
  { repeat case_match; simplify_eq; eauto. }
  eapply parse_digits_range; [|done]. lia.
Qed.

(** Digits are visible and none of the separators. *)
Lemma pretty_go_chars (P : ascii → Prop) x s :
  (∀ d, (d < 10)%N → P (pretty_N_char d)) →
  (∀ a c b, s = a +:+ String c b → P c) →
  ∀ a c b, pretty_N_go x s = a +:+ String c b → P c.
Proof.
  intros HP. revert s. induction x as [x IH] using (well_founded_induction N.lt_wf_0). intros s Hs.
  destruct (N.eq_0_gt_0_cases x) as [->|Hpos]; [by rewrite pretty_N_go_0|].
  rewrite pretty_N_go_step by done. apply IH; [by apply N.div_lt; lia|].
  intros [|y a] c b Heq; simplify_eq/=; [|by eapply Hs].
  apply HP. apply N.mod_lt. lia.
Qed.

Lemma pretty_chars (P : ascii → Prop) z :
  0 ≤ z → (∀ d, (d < 10)%N → P (pretty_N_char d)) →
  ∀ a c b, pretty z = a +:+ String c b → P c.
Proof.
  intros Hz HP. rewrite pretty_nonneg by done. unfold pretty, pretty_N. case_decide as Hd.
  - intros [|y a] c b Heq; simplify_eq/=; [by apply (HP 0%N)|]. by destruct a.
  - apply pretty_go_chars; [done|]. by intros [|] ? ? ?.
Qed.

Lemma has_char_spec c s : has_char c s = true ↔ ∃ a b, s = a +:+ String c b.
Proof.
  induction s as [|d s IH]; simpl.
  - split; [done|]. by intros ([|]&?&?).
  - rewrite orb_true_iff, bool_decide_eq_true, IH. split.
    + intros [->|(a & b & ->)]; [by exists "", s|by exists (String d a), b].
    + intros ([|e a] & b & He); simplify_eq/=; eauto.
Qed.

Lemma pretty_no_char c z : 0 ≤ z → digit c = None → has_char c (pretty z) = false.
Proof.
  intros Hz Hc. apply not_true_iff_false. rewrite has_char_spec. intros (a & b & He).
  eapply (pretty_chars (λ d, digit d ≠ None)) in He; [done..|].
  intros d Hd. by rewrite digit_pretty.
Qed.

Lemma pretty_visible z : 0 ≤ z → visible (pretty z) ∧ pretty z ≠ "".
Proof.
  intros Hz. split; [|by destruct (pretty_head z Hz) as (? & ? & _ & ->)].
  unfold visible. apply pretty_chars; [done|]. intros d Hd.
  assert (d = 0 ∨ d = 1 ∨ d = 2 ∨ d = 3 ∨ d = 4 ∨ d = 5 ∨ d = 6 ∨ d = 7 ∨ d = 8 ∨ d = 9)%N
    as Hc by lia.
  repeat (destruct Hc as [->|Hc]; [vm_compute; lia|]). subst. vm_compute. lia.
Qed.

(** *** Trimming *)

Lemma trim_start_visible c s : visible (String c s) → trim_start (String c s) = String c s.
Proof.
  intros [Hc _]%visible_cons. unfold trim_start. cbn [trim_start_go]. by rewrite ws_len_visible.
Qed.

Lemma trim_visible s : visible s → trim s = s.
Proof.
  unfold trim. destruct s as [|c s]; [done|]. intros Hv. rewrite trim_start_visible by done.
  revert c Hv. induction s as [|d s IH]; intros c Hv.
  - cbn [trim_end]. by rewrite trim_start_visible by done.
  - cbn [trim_end] in *. rewrite trim_start_visible by done. rewrite decide_False by done.
    f_equal. apply visible_cons in Hv as [_ Hv]. by apply (IH d).
Qed.

(** *** Lines of words *)

(** Spaces and visible characters. *)
Definition printable (s : string) : Prop :=
  ∀ a c b, s = a +:+ String c b → (32 ≤ Ascii.nat_of_ascii c ≤ 126)%nat.

Lemma printable_cons c s :
  printable (String c s) ↔ (32 ≤ Ascii.nat_of_ascii c ≤ 126)%nat ∧ printable s.
Proof.
  split.
  - intros Hv. split; [by apply (Hv "" c s)|]. intros a d b ->. by apply (Hv (String c a) d b).
  - intros [Hc Hs] [|x a] d b Hd; simplify_eq/=; [done|]. by eapply Hs.
Qed.

Lemma printable_app a b : printable a → printable b → printable (a +:+ b).
Proof.
  induction a as [|c a IH]; intros Ha Hb; simpl; [done|].
  apply printable_cons in Ha as [Hc Ha]. apply printable_cons. auto.
Qed.

Lemma visible_printable s : visible s → printable s.
Proof. intros Hs a c b Hc%Hs. lia. Qed.

Definition visible_char (c : ascii) : Prop := (33 ≤ Ascii.nat_of_ascii c ≤ 126)%nat.

Lemma visible_last w : visible w → w ≠ "" → ∃ s c, w = s +:+ String c "" ∧ printable s ∧ visible_char c.
Proof.
  induction w as [|d w IH]; intros Hv Hne; [done|]. apply visible_cons in Hv as [Hd Hv].
  destruct (decide (w = "")) as [->|Hw].
  - exists "", d. split_and!; [done|by intros [|] ? ? ?|done].
  - destruct (IH Hv Hw) as (s & c & -> & Hs & Hc). exists (String d s), c.
    split_and!; [done|apply printable_cons; split; [lia|done]|done].
Qed.

Lemma trim_start_last s c : printable s → visible_char c → trim_start (s +:+ String c "") ≠ "".
Proof.
  intros Hs Hc. induction s as [|d s IH]; simpl.
  - rewrite trim_start_visible; [done|]. apply visible_cons. split; [done|by intros [|] ? ? ?].
  - apply printable_cons in Hs as [Hd Hs]. unfold trim_start. cbn [trim_start_go].
    destruct (decide (Ascii.nat_of_ascii d = 32%nat)) as [E|E].
    + assert (ws_len (String d (s +:+ String c "")) = 1%nat) as ->; [|by apply IH].
      unfold ws_len. simpl. rewrite E. done.
    + by rewrite ws_len_visible by lia.
Qed.

Lemma trim_end_last s c :
  printable s → visible_char c → trim_end (s +:+ String c "") = s +:+ String c "".
Proof.
  intros Hs Hc. induction s as [|d s IH]; cbn [String.append trim_end].
  - rewrite decide_False; [done|]. by apply (trim_start_last "").
  - rewrite decide_False by (by apply (trim_start_last (String d s))).
    f_equal. apply IH. by apply printable_cons in Hs as [_ ?].
Qed.

Definition words (l : list string) : Prop := Forall (λ w, w ≠ "" ∧ visible w) l.

Lemma join_last l :
  l ≠ [] → words l →
  ∃ s c, join " " l = s +:+ String c "" ∧ printable s ∧ visible_char c.
Proof.
  intros Hne Hl. induction Hl as [|w l [Hw Hv] Hl IH]; [done|]. destruct l as [|w' l].
  - by apply visible_last.
  - destruct IH as (s & c & Hj & Hs & Hc); [done|]. exists (w +:+ " " +:+ s), c.
    change (join " " (w :: w' :: l)) with (w +:+ " " +:+ join " " (w' :: l)). rewrite Hj.
    rewrite !string_app_assoc. split_and!; [done| |done].
    apply printable_app; [by apply visible_printable|]. simpl. apply printable_cons.
    split; [vm_compute; lia|done].
Qed.

(** A line of words is its own trimming. *)
Lemma trim_join l : l ≠ [] → words l → trim (join " " l) = join " " l ∧ join " " l ≠ "".
Proof.
  intros Hne Hl. destruct (join_last l Hne Hl) as (s & c & Hj & Hs & Hc). split.
  2: { rewrite Hj. by destruct s. }
  unfold trim. rewrite Hj.
  assert (trim_start (s +:+ String c "") = s +:+ String c "") as ->; [|by apply trim_end_last].
  rewrite <- Hj. destruct Hl as [|w l [Hw Hv] _]; [done|]. destruct w as [|d w]; [done|].
  apply visible_cons in Hv as [Hd _]. unfold trim_start.
  destruct l; simpl; by rewrite ws_len_visible.
Qed.

(** *** Splitting into lines *)

Lemma strip_cr_printable s : printable s → strip_cr s = s.
Proof.
  induction s as [|c s IH]; intros Hs; [done|]. apply printable_cons in Hs as [Hc Hs]. simpl.
  rewrite decide_False by (intros [-> _]; vm_compute in Hc; lia). by rewrite IH.
Qed.

Lemma lines_go_printable l cur s :
  printable l → lines_go cur (l +:+ s) = lines_go (cur +:+ l) s.
Proof.
  revert cur. induction l as [|c l IH]; intros cur Hl; simpl; [by rewrite string_app_nil_r|].
  apply printable_cons in Hl as [Hc Hl].
  rewrite decide_False by (intros ->; vm_compute in Hc; lia).
  rewrite IH by done. by rewrite push_char_app.
Qed.

(** The first line of a text. *)
Lemma text_lines_cons l s :
  printable l → text_lines (l +:+ String newline s) = l :: text_lines s.
Proof.
  intros Hl. unfold text_lines. rewrite lines_go_printable by done. cbn [lines_go].
  rewrite decide_True by done. by rewrite strip_cr_printable.
Qed.
