(* ===== verification/DdlNode.v ===== *)
(** * The node binary (src/bin/ddl-node.rs)

    Command-line arguments, the configuration built from them, the steps of
    [main] up to a running node, and the line protocol of the client API over
    the calls of the cluster node.  The outcomes of socket and file operations
    and the answers of openraft are arguments. *)

From Stdlib Require Import Ascii.
From S2P Require Import Prelude DdlTypes LockUtils Ownership OwnershipTopics Leases.
From S2P Require Import RaftCluster Text TcpNetwork.
#[local] Open Scope Z_scope.
#[local] Arguments String.append : simpl never.

(** ** Arguments *)

Record Args := mkArgs {
  a_id : Z;
  a_port : Z;
  a_peers : list (Z * string);
  a_bootstrap : bool;
  a_data_dir : string;
  a_host : string;
  a_api_port : Z;
}.

(** The local variables of [parse_args]. *)
Record Options := mkOptions {
  o_id : option Z;
  o_port : option Z;
  o_raw_peers : list (Z * string);
  o_bootstrap : bool;
  o_data_dir : option string;
  o_host : string;
  o_api_port : option Z;
}.

Definition options_init : Options := mkOptions None None [] false None "0.0.0.0" None.

Definition set_id (v : Z) (o : Options) :=
  mkOptions (Some v) (o_port o) (o_raw_peers o) (o_bootstrap o) (o_data_dir o) (o_host o) (o_api_port o).
Definition set_port (v : Z) (o : Options) :=
  mkOptions (o_id o) (Some v) (o_raw_peers o) (o_bootstrap o) (o_data_dir o) (o_host o) (o_api_port o).
Definition add_peers (l : list (Z * string)) (o : Options) :=
  mkOptions (o_id o) (o_port o) (o_raw_peers o ++ l) (o_bootstrap o) (o_data_dir o) (o_host o)
    (o_api_port o).
Definition set_bootstrap (o : Options) :=
  mkOptions (o_id o) (o_port o) (o_raw_peers o) true (o_data_dir o) (o_host o) (o_api_port o).
Definition set_data_dir (v : string) (o : Options) :=
  mkOptions (o_id o) (o_port o) (o_raw_peers o) (o_bootstrap o) (Some v) (o_host o) (o_api_port o).
Definition set_host (v : string) (o : Options) :=
  mkOptions (o_id o) (o_port o) (o_raw_peers o) (o_bootstrap o) (o_data_dir o) v (o_api_port o).
Definition set_api_port (v : Z) (o : Options) :=
  mkOptions (o_id o) (o_port o) (o_raw_peers o) (o_bootstrap o) (o_data_dir o) (o_host o) (Some v).

(** An error message, or the exit after printing the help. *)
Inductive args_exit := ArgsError (e : string) | HelpShown.

#[export] Instance args_exit_eq_dec : EqDecision args_exit.
Proof. solve_decision. Defined.

(** One element of the list after [--peers], already trimmed. *)
Definition parse_peer (s : string) : result args_exit (Z * string) :=
  match split "@"%char s with
  | [p0; p1] =>
      node_id ← ok_or (parse_u64 p0) (ArgsError ("Invalid node_id in peer: " +:+ p0));
      Ok (node_id, p1)
  | _ => Err (ArgsError ("Invalid peer format '" +:+ s +:+ "'. Expected: node_id@host:port"))
  end.

(** [for peer_str in peers_str.split(',')] *)
Fixpoint parse_peers (l : list string) : result args_exit (list (Z * string)) :=
  match l with
  | [] => Ok []
  | s :: l =>
      let s := trim s in
      if decide (s = "") then parse_peers l
      else p ← parse_peer s; ps ← parse_peers l; Ok (p :: ps)
  end.

Definition numeric (max : Z) (arg : option string) (msg : string) : result args_exit Z :=
  ok_or (arg ≫= parse_uint max) (ArgsError msg).

(** The loop over the arguments. *)
Fixpoint parse_loop (o : Options) (args : list string) : result args_exit Options :=
  match args with
  | [] => Ok o
  | arg :: rest =>
      if decide (arg ∈ ["--id"; "-i"]) then
        v ← numeric U64_MAX (head rest) "--id requires a numeric argument";
        match rest with _ :: rest => parse_loop (set_id v o) rest | [] => Ok o end
      else if decide (arg ∈ ["--port"; "-p"]) then
        v ← numeric U16_MAX (head rest) "--port requires a numeric argument";
        match rest with _ :: rest => parse_loop (set_port v o) rest | [] => Ok o end
      else if decide (arg = "--peers") then
        match rest with
        | [] => Err (ArgsError "--peers requires an argument")
        | s :: rest => ps ← parse_peers (split ","%char s); parse_loop (add_peers ps o) rest
        end
      else if decide (arg ∈ ["--bootstrap"; "-b"]) then parse_loop (set_bootstrap o) rest
      else if decide (arg ∈ ["--data-dir"; "-d"]) then
        match rest with s :: rest => parse_loop (set_data_dir s o) rest | [] => Ok o end
      else if decide (arg ∈ ["--host"; "-h"]) then
        match rest with s :: rest => parse_loop (set_host s o) rest | [] => Ok o end
      else if decide (arg ∈ ["--api-port"; "-a"]) then
        v ← numeric U16_MAX (head rest) "--api-port requires a numeric argument";
        match rest with _ :: rest => parse_loop (set_api_port v o) rest | [] => Ok o end
      else if decide (arg = "--help") then Err HelpShown
      else Err (ArgsError ("Unknown argument: " +:+ arg))
  end.

(** [PathBuf::push] of a relative name *)
Fixpoint ends_with_slash (s : string) : bool :=
  match s with "" => false | String c "" => bool_decide (c = "/"%char) | String _ s => ends_with_slash s end.

Definition path_push (dir name : string) : string :=
  if ends_with_slash dir || bool_decide (dir = "") then dir +:+ name else dir +:+ "/" +:+ name.

(** The defaults. *)
Definition finish_args (temp_dir : string) (o : Options) : result args_exit Args :=
  id ← ok_or (o_id o) (ArgsError "--id is required");
  Ok (mkArgs id (default 6967 (o_port o)) (o_raw_peers o) (o_bootstrap o)
        (default (path_push temp_dir ("ddl-node-" +:+ pretty id)) (o_data_dir o))
        (o_host o) (default 8080 (o_api_port o))).

(** [parse_args] on the arguments after the program name. *)
Definition parse_args (temp_dir : string) (args : list string) : result args_exit Args :=
  o ← parse_loop options_init args; finish_args temp_dir o.

(** ** The configuration that [main] builds *)

(** [u16::saturating_sub] *)
Definition sub_port (p k : Z) : Z := Z.max (p - k) 0.

Definition network_config (a : Args) : TcpNetworkConfig :=
  foldl (λ c p, add_peer p.1 p.2 c)
    (with_bind_addr (a_host a +:+ ":" +:+ pretty (a_port a)) (tcp_config_new (a_id a) (a_port a)))
    (a_peers a).

Definition own_config (a : Args) : NodeConfig :=
  mkNodeConfig (a_id a) (a_host a) (sub_port (a_port a) 3) (a_port a).

Definition peer_config (p : Z * string) : option NodeConfig :=
  match split ":"%char (p.2) with
  | [host; port] => port ← parse_u16 port; Some (mkNodeConfig (p.1) host (sub_port port 3) port)
  | _ => None
  end.

Definition nodes_config (a : Args) : gmap Z NodeConfig :=
  foldl (λ m p, match peer_config p with Some c => <[p.1 := c]> m | None => m end)
    {[ a_id a := own_config a ]} (a_peers a).

(** ** [RaftClusterNode::new_tcp] (src/cluster/raft_cluster.rs) *)

(** What arrives on the channel that reports the server's bind. *)
Inductive bind_report := Bound | BindFailed (e : string) | BindDropped | BindTimeout.

Definition new_tcp (storage : result string OwnershipState) (created : raft_answer)
    (bind : bind_report) (node_id : Z) (nodes : gmap Z NodeConfig) (net : TcpNetworkConfig) :
    result string (RaftClusterNode * TcpNetworkConfig) :=
  s ← map_err (λ e, "Storage error: " +:+ e) storage;
  _ ← map_err (λ e, "Raft error: " +:+ e) created;
  match bind with
  | Bound => Ok (mkNode node_id (lock_new s) nodes [] false, net)
  | BindFailed e => Err ("TCP server bind failed on " +:+ tc_bind_addr net +:+ ": " +:+ e)
  | BindDropped => Err ("TCP server bind channel dropped on " +:+ tc_bind_addr net)
  | BindTimeout => Err ("Timeout waiting for TCP server to bind on " +:+ tc_bind_addr net +:+
                        " (waited 5s)")
  end.

(** ** [main], up to the running node *)

(** The outcomes of its system calls and of openraft, in order. *)
Record MainIo := mkMainIo {
  io_create_dir : result string unit;
  io_storage : result string OwnershipState;
  io_raft : raft_answer;
  io_bind : bind_report;
  io_connect : result string unit;
  io_initialize : raft_answer;
  io_now : Z;
  io_api_bind : result string unit;
}.

(** A node ready to serve: whether its client API listens and whether its lease
    expiration task runs. *)
Record Running := mkRunning {
  run_node : RaftClusterNode;
  run_api : bool;
  run_expiration : bool;
}.

Definition start_node (io : MainIo) (a : Args) : result string Running :=
  _ ← map_err (λ e, "Failed to create data directory: " +:+ e) (io_create_dir io);
  '(node, _) ← map_err (λ e, "Failed to create TCP node: " +:+ e)
    (new_tcp (io_storage io) (io_raft io) (io_bind io) (a_id a) (nodes_config a) (network_config a));
  _ ← map_err (λ e, "TCP server failed to bind: " +:+ e) (io_connect io);
  node ← (if a_bootstrap a then
            match initialize (io_now io) (io_initialize io) node with
            | (Ok _, node) => Ok node
            | (Err e, _) => Err e
            end
          else if decide (a_peers a = []) then Err "Non-bootstrap nodes require --peers argument"
          else Ok node);
  if decide (0 < a_api_port a) then
    _ ← map_err (λ e, "Failed to bind API port " +:+ pretty (a_api_port a) +:+ ": " +:+ e)
          (io_api_bind io);
    Ok (mkRunning node true (a_bootstrap a))
  else Ok (mkRunning node false (a_bootstrap a)).

(** ** The client API *)

(** What happens around one request: commands that reached the local state
    machine since the previous one, openraft's answers, the clock, and what
    commits between an acquisition and its read. *)
Record ApiEnv := mkApiEnv {
  ae_applied : list OwnershipCommand;
  ae_reply : raft_reply;
  ae_after : list OwnershipCommand;
  ae_lin : raft_answer;
  ae_now : Z;
}.

(** The answer to a line, the end of the session, or a panic of the task. *)
Inductive answer := Answer (s : string) | Quit | Panic.

Definition NL : string := String newline "".

Definition WELCOME : string := "DDL Node Ready. Type HELP for commands." +:+ NL.

Definition HELP : string :=
  "Commands:" +:+ NL +:+
  "CLAIM <topic> - Claim topic ownership" +:+ NL +:+
  "RELEASE <topic> - Release topic ownership" +:+ NL +:+
  "GET_OWNER <topic> - Get topic owner" +:+ NL +:+
  "ACQUIRE_LEASE <resource> <ttl_sec> - Acquire lease" +:+ NL +:+
  "RELEASE_LEASE <resource> - Release lease" +:+ NL +:+
  "PING - Health check" +:+ NL +:+
  "HELP - Show this help" +:+ NL +:+
  "QUIT - Close connection" +:+ NL.

(** [Err(e) => format!("ERROR: {}\n", e)], or the panic of the call. *)
Definition answer_error (e : ClusterError) : answer :=
  match e with Msg m => Answer ("ERROR: " +:+ m +:+ NL) | ClusterPanic => Panic end.

Definition answer_unit (r : result ClusterError unit) : answer :=
  match r with Ok _ => Answer ("OK" +:+ NL) | Err e => answer_error e end.

Definition usage (s : string) : answer := Answer ("ERROR: USAGE: " +:+ s +:+ NL).

(** The commands that reached the node's state machine meanwhile. *)
Definition catch_up `{HashOrder} (cmds : list OwnershipCommand) (n : RaftClusterNode) : RaftClusterNode :=
  with_state n (replay cmds (node_state n)).

(** [match *command] *)
Definition execute `{HashOrder} (env : ApiEnv) (parts : list string) (n : RaftClusterNode) :
    answer * RaftClusterNode :=
  let command := default "" (head parts) in
  if decide (command = "CLAIM") then
    match parts with
    | [_; topic] =>
        let '(r, n') := claim_topic (ae_reply env) (ae_now env) topic n in (answer_unit r, n')
    | _ => (usage "CLAIM <topic>", n)
    end
  else if decide (command = "RELEASE") then
    match parts with
    | [_; topic] => let '(r, n') := release_topic (ae_reply env) topic n in (answer_unit r, n')
    | _ => (usage "RELEASE <topic>", n)
    end
  else if decide (command = "GET_OWNER") then
    match parts with
    | [_; topic] =>
        (match cluster_get_owner (ae_lin env) topic n with
         | Ok (Some owner) => Answer ("OK " +:+ pretty owner +:+ NL)
         | Ok None => Answer ("OK NONE" +:+ NL)
         | Err e => answer_error e
         end, n)
    | _ => (usage "GET_OWNER <topic>", n)
    end
  else if decide (command = "ACQUIRE_LEASE") then
    match parts with
    | [_; resource; ttl] =>
        let ttl := default 0 (parse_u64 ttl) in
        if decide (ttl = 0) then (Answer ("ERROR: TTL must be > 0" +:+ NL), n)
        else
          let '(r, n') :=
            cluster_acquire_lease (ae_reply env) (ae_after env) (ae_now env) resource ttl n in
          (match r with
           | Ok lease => Answer ("OK " +:+ pretty (li_owner lease) +:+ " " +:+
                                 pretty (li_expires_at lease) +:+ NL)
           | Err e => answer_error e
           end, n')
    | _ => (usage "ACQUIRE_LEASE <resource> <ttl_sec>", n)
    end
  else if decide (command = "RELEASE_LEASE") then
    match parts with
    | [_; resource] =>
        let '(r, n') := release_lease (ae_reply env) resource n in (answer_unit r, n')
    | _ => (usage "RELEASE_LEASE <resource>", n)
    end
  else if decide (command = "PING") then (Answer ("PONG" +:+ NL), n)
  else if decide (command = "HELP") then (Answer HELP, n)
  else if decide (command = "QUIT") then (Quit, n)
  else (Answer ("ERROR: Unknown command '" +:+ command +:+ "'. Type HELP for commands." +:+ NL), n).

(** How a session ends: the client closed or quit, a write failed, a panic. *)
Inductive session_end := SessionOver | SessionError (e : string) | SessionPanic.

Section session.
Context `{HashOrder}.
(** Per line: what happens around it, and whether writing its answer works. *)
Variables (env : nat → ApiEnv) (io : nat → option string).

(** [while let Ok(Some(line)) = lines.next_line().await], from line [i] on;
    [out] is what was written so far. *)
Fixpoint client_loop (i : nat) (lines : list string) (out : string) (n : RaftClusterNode) :
    session_end * string * RaftClusterNode :=
  match lines with
  | [] => (SessionOver, out, n)
  | line :: lines =>
      let line := trim line in
      if decide (line = "") then client_loop (S i) lines out n
      else
        let '(a, n') := execute (env i) (split_whitespace line) (catch_up (ae_applied (env i)) n) in
        match a with
        | Panic => (SessionPanic, out, n')
        | Quit =>
            match io i with
            | Some e => (SessionError ("Write error: " +:+ e), out, n')
            | None => (SessionOver, out +:+ "Bye!" +:+ NL, n')
            end
        | Answer s =>
            match io i with
            | Some e => (SessionError ("Write error: " +:+ e), out, n')
            | None => client_loop (S i) lines (out +:+ s) n'
            end
        end
  end.

(** [handle_client] on the text [input]; the welcome is the first write. *)
Definition handle_client (welcome : option string) (input : string) (n : RaftClusterNode) :
    session_end * string * RaftClusterNode :=
  match welcome with
  | Some e => (SessionError ("Write error: " +:+ e), "", n)
  | None => client_loop 0 (text_lines input) WELCOME n
  end.
End session.
