(* ===== verification/DdlNodeProps.v ===== *)
(** * Theorems about the node binary

    Arguments that are printed are parsed back, parsed arguments are in range and
    give a usable cluster configuration, a claim made through the client API is
    visible to the next request, and requests that are malformed or refused by
    the cluster leave owners and leases alone. *)

From Stdlib Require Import Ascii.
From S2P Require Import Prelude DdlTypes LockUtils Ownership OwnershipTopics Leases.
From S2P Require Import RaftCluster Text TcpNetwork DdlNode.
#[local] Open Scope Z_scope.
#[local] Arguments String.append : simpl never.

(** ** Arguments *)

Definition render_peer (p : Z * string) : string := pretty p.1 +:+ "@" +:+ p.2.

(** The command line for given arguments. *)
Definition render (a : Args) : list string :=
  ["--id"; pretty (a_id a); "--port"; pretty (a_port a); "--peers";
   join "," (render_peer <$> a_peers a)] ++
  (if a_bootstrap a then ["--bootstrap"] else []) ++
  ["--data-dir"; a_data_dir a; "--host"; a_host a; "--api-port"; pretty (a_api_port a)].

Definition u16_ok (z : Z) : Prop := 0 ≤ z ≤ U16_MAX.

(** A peer whose address has no separator of the list syntax. *)
Definition peer_ok (p : Z * string) : Prop :=
  u64_ok p.1 ∧ visible p.2 ∧ has_char "," p.2 = false ∧ has_char "@" p.2 = false.

Definition args_ok (a : Args) : Prop :=
  u64_ok (a_id a) ∧ u16_ok (a_port a) ∧ u16_ok (a_api_port a) ∧ Forall peer_ok (a_peers a).

Lemma parse_loop_id o v z rest :
  parse_uint U64_MAX v = Some z → parse_loop o ("--id" :: v :: rest) = parse_loop (set_id z o) rest.
Proof.
  intros Hv. change (parse_loop o ("--id" :: v :: rest)) with
    (x ← numeric U64_MAX (Some v) "--id requires a numeric argument"; parse_loop (set_id x o) rest).
  unfold numeric. simpl. by rewrite Hv.
Qed.

Lemma parse_loop_port o v z rest :
  parse_uint U16_MAX v = Some z → parse_loop o ("--port" :: v :: rest) = parse_loop (set_port z o) rest.
Proof.
  intros Hv. change (parse_loop o ("--port" :: v :: rest)) with
    (x ← numeric U16_MAX (Some v) "--port requires a numeric argument"; parse_loop (set_port x o) rest).
  unfold numeric. simpl. by rewrite Hv.
Qed.

Lemma parse_loop_api_port o v z rest :
  parse_uint U16_MAX v = Some z →
  parse_loop o ("--api-port" :: v :: rest) = parse_loop (set_api_port z o) rest.
Proof.
  intros Hv. change (parse_loop o ("--api-port" :: v :: rest)) with
    (x ← numeric U16_MAX (Some v) "--api-port requires a numeric argument";
     parse_loop (set_api_port x o) rest).
  unfold numeric. simpl. by rewrite Hv.
Qed.

Lemma parse_loop_peers o s ps rest :
  parse_peers (split "," s) = Ok ps →
  parse_loop o ("--peers" :: s :: rest) = parse_loop (add_peers ps o) rest.
Proof.
  intros Hs. change (parse_loop o ("--peers" :: s :: rest)) with
    (x ← parse_peers (split "," s); parse_loop (add_peers x o) rest).
  by rewrite Hs.
Qed.

Lemma parse_loop_bootstrap o rest :
  parse_loop o ("--bootstrap" :: rest) = parse_loop (set_bootstrap o) rest.
Proof. done. Qed.

Lemma visible_app a b : visible a → visible b → visible (a +:+ b).
Proof.
  intros Ha Hb. induction a as [|c a IH]; [done|].
  change (String c a +:+ b) with (String c (a +:+ b)).
  apply visible_cons in Ha as [Hc Ha]. apply visible_cons. auto.
Qed.

Lemma render_peer_visible p : peer_ok p → visible (render_peer p) ∧ render_peer p ≠ "".
Proof.
  intros (Hid & Hv & _). destruct (pretty_visible p.1) as [Hp Hne]; [by destruct Hid|].
  unfold render_peer. split.
  - apply visible_app; [done|]. apply (visible_app "@"); [|done].
    apply visible_cons. split; [vm_compute; lia|]. by intros [|] ? ? ?.
  - by destruct (pretty p.1).
Qed.

Lemma has_char_app c a b : has_char c (a +:+ b) = has_char c a || has_char c b.
Proof.
  induction a as [|d a IH]; [done|]. change (String d a +:+ b) with (String d (a +:+ b)).
  simpl. by rewrite IH, orb_assoc.
Qed.

Lemma parse_render_peer p : peer_ok p → parse_peer (render_peer p) = Ok p.
Proof.
  destruct p as [id addr]. intros (Hid & Hv & _ & Hat). simpl in *. unfold parse_peer.
  change (render_peer (id, addr)) with (join (String "@" "") [pretty id; addr]).
  rewrite split_join; [|done|].
  - unfold parse_u64. rewrite parse_uint_pretty by done. done.
  - repeat constructor; [|done]. apply pretty_no_char; [by destruct Hid|done].
Qed.

Lemma parse_render_peers ps :
  Forall peer_ok ps → parse_peers (split "," (join "," (render_peer <$> ps))) = Ok ps.
Proof.
  intros Hps. destruct ps as [|p ps]; [done|]. rewrite (split_join ","); [|done|].
  - induction Hps as [|q qs Hq _ IH]; [done|]. rewrite fmap_cons. cbn [parse_peers].
    destruct (render_peer_visible q Hq) as [Hv Hne].
    rewrite trim_visible, decide_False by done. rewrite parse_render_peer by done.
    simpl. by rewrite IH.
  - apply Forall_fmap. eapply Forall_impl; [exact Hps|]. intros [id addr] (Hid & _ & Hc & _).
    unfold compose, render_peer. cbn [fst snd] in *. rewrite !has_char_app, Hc, orb_false_r.
    rewrite pretty_no_char; [done|by destruct Hid|done].
Qed.

(** C31: Every combination of arguments can be given on the command line: parsing
    the options printed for it returns exactly these arguments, peers included. *)
Theorem args_roundtrip temp_dir a : args_ok a → parse_args temp_dir (render a) = Ok a.
Proof.
  intros (Hid & Hport & Hapi & Hps). unfold parse_args, render. cbn [app].
  rewrite (parse_loop_id _ _ (a_id a)) by (by apply parse_uint_pretty).
  rewrite (parse_loop_port _ _ (a_port a)) by (by apply parse_uint_pretty).
  rewrite (parse_loop_peers _ _ (a_peers a)) by (by apply parse_render_peers).
  assert (∀ o, parse_loop o ["--data-dir"; a_data_dir a; "--host"; a_host a; "--api-port";
                             pretty (a_api_port a)] =
               Ok (set_api_port (a_api_port a) (set_host (a_host a) (set_data_dir (a_data_dir a) o))))
    as Htail.
  { intros o. change (parse_loop o ["--data-dir"; a_data_dir a; "--host"; a_host a; "--api-port";
      pretty (a_api_port a)]) with (parse_loop (set_host (a_host a) (set_data_dir (a_data_dir a) o))
      ["--api-port"; pretty (a_api_port a)]).
    by rewrite (parse_loop_api_port _ _ (a_api_port a)) by (by apply parse_uint_pretty). }
  destruct a as [id port ps [] dd host api];
    cbn [app a_id a_port a_peers a_bootstrap a_data_dir a_host a_api_port] in *.
  - by rewrite parse_loop_bootstrap, Htail.
  - by rewrite Htail.
Qed.

(** *** Ranges *)

Definition options_ok (o : Options) : Prop :=
  (∀ z, o_id o = Some z → u64_ok z) ∧ (∀ z, o_port o = Some z → u16_ok z) ∧
  (∀ z, o_api_port o = Some z → u16_ok z) ∧ Forall (λ p, u64_ok p.1) (o_raw_peers o).

Lemma numeric_ok max arg msg z : 0 ≤ max → numeric max arg msg = Ok z → 0 ≤ z ≤ max.
Proof.
  unfold numeric. intros Hm. destruct (arg ≫= parse_uint max) as [v|] eqn:E; [|done].
  simpl. intros [= <-]. apply bind_Some in E as (s & _ & Hs). by eapply parse_uint_range.
Qed.

Lemma parse_peers_ok l ps : parse_peers l = Ok ps → Forall (λ p, u64_ok p.1) ps.
Proof.
  revert ps. induction l as [|s l IH]; intros ps; cbn [parse_peers]; [by intros [= <-]|].
  case_decide; [apply IH|].
  intros (p & Hp & (ps' & Hps & [= <-])%bind_Ok)%bind_Ok. constructor; [|by apply IH].
  unfold parse_peer in Hp. destruct (split "@" (trim s)) as [|p0 [|p1 [|]]]; try done.
  apply bind_Ok in Hp as (z & Hz & [= <-]). unfold parse_u64 in Hz.
  destruct (parse_uint U64_MAX p0) eqn:E; simplify_eq/=.
  by eapply parse_uint_range in E.
Qed.

Lemma parse_loop_ok args o o' : options_ok o → parse_loop o args = Ok o' → options_ok o'.
Proof.
  revert o. induction args as [args IH] using (induction_ltof1 _ (@length string)).
  unfold ltof in IH. intros o Ho. destruct args as [|arg rest]; cbn [parse_loop].
  { by intros [= <-]. }
  assert (∀ o r, options_ok o → (length r ≤ length rest)%nat → parse_loop o r = Ok o' →
    options_ok o') as IH'.
  { intros o1 r Ho1 Hr. apply IH; [simpl; lia|done]. }
  clear IH. assert (0 ≤ U64_MAX ∧ 0 ≤ U16_MAX) as [M1 M2] by (unfold U64_MAX, U16_MAX; lia).
  destruct Ho as (H1 & H2 & H3 & H4).
  assert (∀ o1, o_id o1 = o_id o → o_port o1 = o_port o → o_api_port o1 = o_api_port o →
    o_raw_peers o1 = o_raw_peers o → options_ok o1) as Hsame.
  { intros o1 E1 E2 E3 E4. unfold options_ok. by rewrite E1, E2, E3, E4. }
  case_decide; [|case_decide; [|case_decide; [|case_decide; [|case_decide; [|case_decide;
    [|case_decide; [|by case_decide]]]]]]].
  - intros (z & Hz%numeric_ok & Hl)%bind_Ok; [|done]. destruct rest as [|s rest]; simplify_eq; [done|].
    apply (IH' (set_id z o) rest); [|simpl; lia|done]. split_and!; [by intros ? [= <-]|done..].
  - intros (z & Hz%numeric_ok & Hl)%bind_Ok; [|done]. destruct rest as [|s rest]; simplify_eq; [done|].
    apply (IH' (set_port z o) rest); [|simpl; lia|done]. split_and!; [done|by intros ? [= <-]|done..].
  - destruct rest as [|s rest]; [done|]. intros (ps & Hps%parse_peers_ok & Hl)%bind_Ok.
    apply (IH' (add_peers ps o) rest); [|simpl; lia|done].
    split_and!; [done..|]. by apply Forall_app.
  - apply IH'; [|lia]. by apply Hsame.
  - destruct rest as [|s rest]; [by intros [= <-]|]. apply IH'; [by apply Hsame|simpl; lia].
  - destruct rest as [|s rest]; [by intros [= <-]|]. apply IH'; [by apply Hsame|simpl; lia].
  - intros (z & Hz%numeric_ok & Hl)%bind_Ok; [|done]. destruct rest as [|s rest]; simplify_eq; [done|].
    apply (IH' (set_api_port z o) rest); [|simpl; lia|done]. split_and!; [done|done|by intros ? [= <-]|done].
Qed.

Lemma nodes_config_ind (P : Z → NodeConfig → Prop) a :
  P (a_id a) (own_config a) →
  (∀ p c, p ∈ a_peers a → peer_config p = Some c → P p.1 c) →
  is_Some (nodes_config a !! a_id a) ∧ ∀ id c, nodes_config a !! id = Some c → P id c.
Proof.
  intros Ho Hp. unfold nodes_config.
  assert (is_Some (({[a_id a := own_config a]} : gmap Z NodeConfig) !! a_id a) ∧
    ∀ id c, ({[a_id a := own_config a]} : gmap Z NodeConfig) !! id = Some c → P id c) as Hm.
  { rewrite lookup_singleton_eq. split; [done|].
    intros id c [<- <-]%lookup_singleton_Some. done. }
  revert Hm Hp. generalize ({[a_id a := own_config a]} : gmap Z NodeConfig) as m.
  induction (a_peers a) as [|p ps IH]; intros m [Hm1 Hm2] Hp; [done|]. simpl.
  apply IH; [|intros; by apply Hp; [right|]].
  destruct (peer_config p) as [c|] eqn:Ec; [|done]. split.
  - map_cases (a_id a) p.1; [|done]. by eexists.
  - intros id c'. map_cases id p.1; [|by apply Hm2]. intros [= <-]. apply Hp; [by left|done].
Qed.

(** C30: Whatever command line is accepted, the node id and every peer id are
    [u64] values, both ports are [u16] values, the cluster configuration built
    from them contains the node itself, and each of its entries is filed under
    its own id with ports in range. *)
Theorem parsed_args_wf temp_dir args a :
  parse_args temp_dir args = Ok a →
  u64_ok (a_id a) ∧ u16_ok (a_port a) ∧ u16_ok (a_api_port a) ∧
  Forall (λ p, u64_ok p.1) (a_peers a) ∧
  is_Some (nodes_config a !! a_id a) ∧
  ∀ id c, nodes_config a !! id = Some c →
    nc_node_id c = id ∧ u16_ok (nc_communication_port c) ∧ u16_ok (nc_coordination_port c) ∧
    nc_communication_port c = sub_port (nc_coordination_port c) 3.
Proof.
  intros (o & Ho%parse_loop_ok & Hf)%bind_Ok; [|by split_and!].
  destruct Ho as (H1 & H2 & H3 & H4). apply bind_Ok in Hf as (id & Hid & [= <-]).
  destruct (o_id o) as [z|]; simplify_eq/=.
  assert (u16_ok (default 6967 (o_port o)) ∧ u16_ok (default 8080 (o_api_port o))) as [H5 H6].
  { split; [destruct (o_port o)|destruct (o_api_port o)]; simpl; auto;
      unfold u16_ok, U16_MAX; lia. }
  split; [by apply H1|]. do 3 (split; [done|]).
  assert (∀ p, u16_ok p → u16_ok (sub_port p 3)) as Hsub.
  { intros p. unfold u16_ok, sub_port. lia. }
  apply nodes_config_ind; simpl.
  - split_and!; auto.
  - intros p c _. unfold peer_config.
    destruct (split ":" p.2) as [|h [|port [|]]]; try done.
    intros (v & Hv & [= <-])%bind_Some. simpl.
    assert (u16_ok v).
    { eapply parse_uint_range; [|exact Hv]. unfold U16_MAX. lia. }
    split_and!; auto.
Qed.

(** ** The client API *)

Section sessions.
Context `{HashOrder}.
Variables (env : nat → ApiEnv) (io : nat → option string).

Lemma client_loop_words i ws lines out n :
  ws ≠ [] → words ws → io i = None →
  client_loop env io i (join " " ws :: lines) out n =
  match execute (env i) ws (catch_up (ae_applied (env i)) n) with
  | (Panic, n') => (SessionPanic, out, n')
  | (Quit, n') => (SessionOver, out +:+ "Bye!" +:+ NL, n')
  | (Answer s, n') => client_loop env io (S i) lines (out +:+ s) n'
  end.
Proof.
  intros Hne Hws Hio. destruct (trim_join ws Hne Hws) as [Ht Hj].
  cbn [client_loop]. rewrite Ht, decide_False by done.
  rewrite split_whitespace_join by done. rewrite Hio.
  destruct (execute _ _ _) as [[] ?]; done.
Qed.

Lemma words_printable ws : words ws → printable (join " " ws).
Proof.
  intros Hws. induction Hws as [|w ws [Hne Hw] Hws IH]; [by intros [|] ? ? ?|].
  destruct ws as [|w' ws]; [by apply visible_printable|].
  change (join " " (w :: w' :: ws)) with (w +:+ " " +:+ join " " (w' :: ws)).
  apply printable_app; [by apply visible_printable|]. apply (printable_app " "); [|done].
  apply printable_cons. split; [vm_compute; lia|by intros [|] ? ? ?].
Qed.

Lemma text_lines_words ws s :
  words ws → text_lines (join " " ws +:+ NL +:+ s) = join " " ws :: text_lines s.
Proof. intros Hws. apply (text_lines_cons _ s). by apply words_printable. Qed.

Lemma node_state_catch_up cmds n : node_state (catch_up cmds n) = replay cmds (node_state n).
Proof. apply node_state_with_state. Qed.

Lemma keyword_word s : forallb (λ c, bool_decide (33 ≤ c ≤ 126)%nat) (string_bytes s) = true →
  visible s.
Proof.
  induction s as [|c s IH]; [by intros _ [|] ? ? ?|]. simpl.
  intros [Hc%bool_decide_eq_true Hs]%andb_true_iff. apply visible_cons. auto.
Qed.

Lemma execute_claim e topic n :
  execute e ["CLAIM"; topic] n =
  let '(r, n') := claim_topic (ae_reply e) (ae_now e) topic n in (answer_unit r, n').
Proof. done. Qed.

Lemma execute_get_owner e topic n :
  execute e ["GET_OWNER"; topic] n =
  (match cluster_get_owner (ae_lin e) topic n with
   | Ok (Some owner) => Answer ("OK " +:+ pretty owner +:+ NL)
   | Ok None => Answer ("OK NONE" +:+ NL)
   | Err e => answer_error e
   end, n).
Proof. done. Qed.

(** The owner read after a committed claim and unrelated commands. *)
Lemma claimed_owner n cmds cmds' now topic before :
  lock_poisoned (rc_lock n) = false →
  (∀ s, get_owner (replay cmds' s) topic = get_owner s topic) →
  let n1 := catch_up cmds n in
  cluster_get_owner (Ok tt) topic
    (catch_up cmds' (with_state n1 (replay (before ++ [ClaimTopic topic (rc_node_id n1) now])
                                      (node_state n1)))) = Ok (Some (rc_node_id n)).
Proof.
  intros Hp Hc n1. unfold cluster_get_owner, read_state. simpl. rewrite Hp. simpl.
  rewrite node_state_catch_up, Hc, node_state_with_state, replay_app.
  unfold get_owner. simpl. by rewrite lookup_insert_eq.
Qed.

(** A client that claims a topic and then asks for its owner reads [OK] and
    the id of the node it talks to, when the claim commits and nothing about the
    topic is applied in between; quitting ends the session. *)
Theorem client_sees_claim before topic n :
  lock_poisoned (rc_lock n) = false → visible topic → topic ≠ "" → (∀ i, io i = None) →
  ae_reply (env 0) = Committed before → ae_lin (env 1) = Ok tt →
  (∀ s, get_owner (replay (ae_applied (env 1)) s) topic = get_owner s topic) →
  ∃ n', handle_client env io None
          ("CLAIM " +:+ topic +:+ NL +:+ "GET_OWNER " +:+ topic +:+ NL +:+ "QUIT" +:+ NL) n =
        (SessionOver, WELCOME +:+ "OK" +:+ NL +:+ "OK " +:+ pretty (rc_node_id n) +:+ NL +:+
                      "Bye!" +:+ NL, n').
Proof.
  intros Hp Hv Hne Hio Hre Hlin Happ. unfold handle_client.
  assert (words ["CLAIM"; topic] ∧ words ["GET_OWNER"; topic] ∧ words ["QUIT"]) as (W1 & W2 & W3).
  { unfold words. rewrite !Forall_cons, !Forall_nil.
    split_and!; try done; by apply keyword_word. }
  change ("CLAIM " +:+ topic +:+ NL +:+ "GET_OWNER " +:+ topic +:+ NL +:+ "QUIT" +:+ NL) with
    (join " " ["CLAIM"; topic] +:+ NL +:+ join " " ["GET_OWNER"; topic] +:+ NL +:+
     join " " ["QUIT"] +:+ NL +:+ "").
  rewrite !text_lines_words by done.
  rewrite client_loop_words, execute_claim, Hre by done. unfold claim_topic.
  rewrite propose_committed by done. cbn [answer_unit].
  rewrite client_loop_words, execute_get_owner, Hlin by done.
  rewrite (claimed_owner n _ _ (ae_now (env 0)) topic) by done.
  rewrite client_loop_words by done. eexists.
  change (execute ?e ["QUIT"] ?m) with (Quit, m). cbv beta iota.
  rewrite !string_app_assoc. reflexivity.
Qed.

(** The tables of owners and leases, which only committed commands change. *)
Definition same_tables (s s' : OwnershipState) : Prop :=
  ownership s' = ownership s ∧ node_topics s' = node_topics s ∧
  leases s' = leases s ∧ key_leases s' = key_leases s.

Lemma execute_rejected e err parts n a n' :
  ae_reply e = Rejected err → execute e parts n = (a, n') →
  same_tables (node_state n) (node_state n') ∧
  lock_poisoned (rc_lock n') = lock_poisoned (rc_lock n).
Proof.
  intros Hre Hex. unfold execute, claim_topic, release_topic, release_lease, propose, client_write,
    cluster_acquire_lease in Hex. rewrite Hre in Hex.
  repeat case_decide; repeat case_match; simplify_eq/=; try done.
  match goal with Hr : read_state n = Ok _ |- _ => unfold read_state in Hr; case_match end;
    unfold take_lease_id, propose, client_write in *; simplify_eq/=. split; [by split_and!|done].
Qed.

(** While the cluster refuses every proposal, a client session of any
    length, with any input and however it ends, changes no owner and no lease. *)
Theorem refused_session_keeps_tables welcome input n fin out n' :
  (∀ i, ∃ err, ae_reply (env i) = Rejected err) → (∀ i, ae_applied (env i) = []) →
  handle_client env io welcome input n = (fin, out, n') →
  same_tables (node_state n) (node_state n').
Proof.
  intros Hre Happ. unfold handle_client. destruct welcome as [e|]; [by intros [= _ _ <-]|].
  generalize (text_lines input) as lines, WELCOME as out0, 0%nat as i. intros lines.
  revert n. induction lines as [|line lines IH]; intros n out0 i; cbn [client_loop].
  { by intros [= _ _ <-]. }
  case_decide; [apply IH|]. rewrite Happ.
  destruct (execute _ _ _) as [a n1] eqn:Ex. destruct (Hre i) as [err Herr].
  eapply execute_rejected in Ex as [Hs _]; [|done].
  assert (same_tables (node_state n) (node_state n1)) as Hs1 by exact Hs.
  destruct a; [|by destruct (io i); intros [= _ _ <-]|by intros [= _ _ <-]].
  destruct (io i); [by intros [= _ _ <-]|]. intros Hl%IH.
  destruct Hs1 as (?&?&?&?), Hl as (?&?&?&?). split_and!; congruence.
Qed.
End sessions.

(** ** Concrete runs *)

Definition sample_args : Args :=
  mkArgs 2 7001 [(1, "localhost:7000"); (3, "h3:7002")] true "./data" "127.0.0.1" 0.

Lemma sample_args_ok : args_ok sample_args.
Proof.
  split_and!; try (unfold u64_ok, u16_ok, U64_MAX, U16_MAX; simpl; lia).
  unfold peer_ok. cbn [sample_args a_peers]. rewrite !Forall_cons, Forall_nil.
  split_and!; try done; try (unfold u64_ok, U64_MAX; simpl; lia); by apply keyword_word.
Qed.

Lemma args_roundtrip_witness : parse_args "/tmp" (render sample_args) = Ok sample_args.
Proof. apply (args_roundtrip "/tmp" sample_args), sample_args_ok. Defined.

Lemma parsed_args_wf_witness :
  parse_args "/tmp" ["--id"; "2"; "--peers"; "1@h:7000"] =
    Ok (mkArgs 2 6967 [(1, "h:7000")] false "/tmp/ddl-node-2" "0.0.0.0" 8080) ∧
  u64_ok 2.
Proof.
  split; [reflexivity|].
  by destruct (parsed_args_wf "/tmp" ["--id"; "2"; "--peers"; "1@h:7000"]
    (mkArgs 2 6967 [(1, "h:7000")] false "/tmp/ddl-node-2" "0.0.0.0" 8080) eq_refl) as [? _].
Defined.

Definition sample_node : RaftClusterNode := mkNode 1 (lock_new new) ∅ [] true.

Definition calm : ApiEnv := mkApiEnv [] (Committed []) [] (Ok tt) 5.

Lemma client_sees_claim_witness :
  let _ := canonical_order in
  ∃ n', handle_client (λ _, calm) (λ _, None) None
          ("CLAIM " +:+ "t" +:+ NL +:+ "GET_OWNER " +:+ "t" +:+ NL +:+ "QUIT" +:+ NL) sample_node =
        (SessionOver, WELCOME +:+ "OK" +:+ NL +:+ "OK " +:+ pretty 1 +:+ NL +:+
                      "Bye!" +:+ NL, n').
Proof.
  intros H. apply (client_sees_claim (λ _, calm) (λ _, None) [] "t" sample_node); try done.
  by apply keyword_word.
Defined.

Lemma refused_session_keeps_tables_witness :
  let _ := canonical_order in
  let env := λ _ : nat, mkApiEnv [] (Rejected "no quorum") [] (Ok tt) 5 in
  ∃ fin out n',
    handle_client env (λ _, None) None ("CLAIM t" +:+ NL +:+ "ACQUIRE_LEASE k 10" +:+ NL) sample_node =
      (fin, out, n') ∧
    same_tables (node_state sample_node) (node_state n').
Proof.
  intros H env. eexists _, _, _. split; [reflexivity|].
  eapply (refused_session_keeps_tables env (λ _, None) None
    ("CLAIM t" +:+ NL +:+ "ACQUIRE_LEASE k 10" +:+ NL) sample_node); [by eexists|done|reflexivity].
Defined.
