(* ===== verification/Config.v ===== *)
(** * Configuration (src/config.rs, src/constants.rs)

    Source and aggregation descriptions, the node table, the builder, the lookups
    and the generated configurations.  Unicode tables (what is alphanumeric, lower
    case) and the TOML format are parameters. *)

From Stdlib Require Import Ascii.
From S2P Require Import Prelude DdlTypes Text.
#[local] Open Scope Z_scope.
#[local] Arguments String.append : simpl never.

Inductive ConfigError :=
| CfgIo (e : string)
| CfgParse (e : string)
| CfgSerialize (e : string)
| CfgEnv (e : string)
| InvalidValue (e : string)
| NodeNotFound (name : string)
| InvalidSource (e : string)
| MissingField (e : string)
| ParseError (e : string).

#[export] Instance ConfigError_eq_dec : EqDecision ConfigError.
Proof. solve_decision. Defined.

Definition ConfigError_fmt (e : ConfigError) : string :=
  match e with
  | CfgIo m => "IO error: " +:+ m
  | CfgParse m => "TOML parse error: " +:+ m
  | CfgSerialize m => "TOML serialize error: " +:+ m
  | CfgEnv m => "Environment variable error: " +:+ m
  | InvalidValue m => "Invalid value: " +:+ m
  | NodeNotFound m => "Node not found: " +:+ m
  | InvalidSource m => "Invalid source format: " +:+ m
  | MissingField m => "Missing required field: " +:+ m
  | ParseError m => "Parse error: " +:+ m
  end.

(** ** Characters *)

(** The bytes of the UTF-8 character a text starts with. *)
Definition char_len (c : ascii) : nat :=
  let n := Ascii.nat_of_ascii c in
  if bool_decide (n < 192)%nat then 1
  else if bool_decide (n < 224)%nat then 2
  else if bool_decide (n < 240)%nat then 3 else 4.

(** [chars()]: each character as the string of its bytes; [k] bytes of the
    character [cur] are still to come. *)
Fixpoint chars_go (k : nat) (cur s : string) : list string :=
  match s with
  | "" => flush cur
  | String c s =>
      match k with
      | S k => chars_go k (push_char cur c) s
      | O => flush cur ++ chars_go (char_len c - 1) (String c "") s
      end
  end.

Definition chars (s : string) : list string := chars_go 0 "" s.

Definition ascii_alphanumeric (c : ascii) : bool :=
  let n := Ascii.nat_of_ascii c in
  bool_decide (48 ≤ n ≤ 57)%nat || bool_decide (65 ≤ n ≤ 90)%nat || bool_decide (97 ≤ n ≤ 122)%nat.

(** Unicode properties: what the code relies on for ASCII. *)
Class Unicode : Type := {
  is_alphanumeric : string → bool;
  to_lowercase : string → string;
  is_alphanumeric_ascii : ∀ c, (Ascii.nat_of_ascii c < 128)%nat →
      is_alphanumeric (String c "") = ascii_alphanumeric c;
}.

(** ** Sources *)

Inductive SourceType := Function (name : string) | Expression (expr : string).

#[export] Instance SourceType_eq_dec : EqDecision SourceType.
Proof. solve_decision. Defined.

(** [strip_prefix] *)
Fixpoint strip_prefix (p s : string) : option string :=
  match p, s with
  | "", s => Some s
  | String a p, String b s => if decide (a = b) then strip_prefix p s else None
  | String _ _, "" => None
  end.

Definition source_parse (s : string) : result ConfigError SourceType :=
  match strip_prefix "function:" s with
  | Some name => Ok (Function name)
  | None =>
      match strip_prefix "expression:" s with
      | Some expr => Ok (Expression expr)
      | None => Ok (Function s)
      end
  end.

Section variables.
Context `{Unicode}.

Definition is_var_char (c : string) : bool := is_alphanumeric c || bool_decide (c = "_").

Definition is_keyword (w : string) : bool := bool_decide (w = "true") || bool_decide (w = "false").

(** The loop of [extract_variables] over the characters: [vars], [current],
    [in_var]. *)
Fixpoint extract_go (vars : list string) (current : string) (in_var : bool) (l : list string) :
    list string :=
  match l with
  | [] => if in_var && negb (bool_decide (current = "")) then vars ++ [current] else vars
  | c :: l =>
      if is_var_char c then extract_go vars (current +:+ c) true l
      else if in_var then
        extract_go
          (if negb (bool_decide (current = "")) && negb (is_keyword current)
           then vars ++ [current] else vars) "" false l
      else extract_go vars current in_var l
  end.

Definition extract_variables (expr : string) : list string := extract_go [] "" false (chars expr).

Definition variables (s : SourceType) : list string :=
  match s with Function name => [name] | Expression expr => extract_variables expr end.
End variables.

(** ** Aggregations *)

Inductive AggregationType :=
| Avg | Max | Min | Sum | Stddev
| Count (pred : string)
| Percentile50 | Percentile95 | Percentile99.

#[export] Instance AggregationType_eq_dec : EqDecision AggregationType.
Proof. solve_decision. Defined.

Definition aggregation_from_str (s : string) : result ConfigError AggregationType :=
  if decide (s = "avg") then Ok Avg
  else if decide (s = "max") then Ok Max
  else if decide (s = "min") then Ok Min
  else if decide (s = "sum") then Ok Sum
  else if decide (s = "stddev") then Ok Stddev
  else if decide (s ∈ ["median"; "p50"]) then Ok Percentile50
  else if decide (s = "p95") then Ok Percentile95
  else if decide (s = "p99") then Ok Percentile99
  else match strip_prefix "count:" s with
  | Some pred => Ok (Count pred)
  | None => Err (InvalidValue ("Unknown aggregation type: " +:+ s))
  end.

(** ** Nodes, metrics and queues *)

Record NodeConfig := mkNodeCfg {
  nd_host : string;
  nd_communication_port : Z;
  nd_query_port : Z;
  nd_coordination_port : Z;
  nd_pubsub_port : Z;
}.

#[export] Instance NodeConfig_eq_dec : EqDecision NodeConfig.
Proof. solve_decision. Defined.

Record GlobalMetricConfig := mkGlobal {
  gm_aggregation : string;
  gm_sources : list string;
  gm_interval_ms : Z;
  gm_expression : option string;
}.

Record DebugConfig := mkDebug { dbg_verbose : bool; dbg_simulate_sensors : bool }.

Definition DebugConfig_default : DebugConfig := mkDebug false false.

Definition DEFAULT_CAPACITY : Z := 1024.
Definition DEFAULT_INTERVAL_MS : Z := 1000.

Record QueueConfig := mkQueueCfg { q_capacity : Z; q_default_interval : Z }.

Definition QueueConfig_default : QueueConfig := mkQueueCfg DEFAULT_CAPACITY DEFAULT_INTERVAL_MS.

(** [PersistenceConfig] (src/queue/persistence.rs) *)
Record PersistenceConfig := mkPersistence {
  ps_data_dir : string;
  ps_max_file_size : Z;
  ps_flush_interval_ms : Z;
  ps_include_timestamp : bool;
  ps_compress_old : bool;
}.

Definition PersistenceConfig_default : PersistenceConfig :=
  mkPersistence "data" (100 * 1024 * 1024) 1000 true false.

Record Config := mkCfg {
  c_nodes : gmap string NodeConfig;
  c_local : gmap string string;
  c_global : gmap string GlobalMetricConfig;
  c_queue : QueueConfig;
  c_debug : DebugConfig;
  c_persistence : option PersistenceConfig;
}.

Definition Config_default : Config :=
  mkCfg ∅ ∅ ∅ QueueConfig_default DebugConfig_default None.

(** [LocalMetricConfig::parse] *)
Definition local_metric_parse (s : string) : result ConfigError SourceType := source_parse s.

(** ** The builder: each method updates the configuration it carries *)

Definition with_nodes (c : Config) nodes : Config :=
  mkCfg nodes (c_local c) (c_global c) (c_queue c) (c_debug c) (c_persistence c).
Definition with_local (c : Config) l : Config :=
  mkCfg (c_nodes c) l (c_global c) (c_queue c) (c_debug c) (c_persistence c).
Definition with_global (c : Config) g : Config :=
  mkCfg (c_nodes c) (c_local c) g (c_queue c) (c_debug c) (c_persistence c).

Definition add_node (name host : string) (communication query coordination pubsub : Z)
    (c : Config) : Config :=
  with_nodes c (<[name := mkNodeCfg host communication query coordination pubsub]> (c_nodes c)).

Definition add_local_metric (name source : string) (c : Config) : Config :=
  with_local c (<[name := source]> (c_local c)).

Definition add_global_aggregation (name aggregation : string) (sources : list string)
    (interval_ms : Z) (c : Config) : Config :=
  with_global c (<[name := mkGlobal aggregation sources interval_ms None]> (c_global c)).

Definition add_expression_aggregation (name expression aggregation : string) (sources : list string)
    (interval_ms : Z) (c : Config) : Config :=
  with_global c
    (<[name := mkGlobal aggregation sources interval_ms (Some expression)]> (c_global c)).

Definition capacity (n : Z) (c : Config) : Config :=
  mkCfg (c_nodes c) (c_local c) (c_global c) (mkQueueCfg n (q_default_interval (c_queue c)))
    (c_debug c) (c_persistence c).

Definition default_interval (ms : Z) (c : Config) : Config :=
  mkCfg (c_nodes c) (c_local c) (c_global c) (mkQueueCfg (q_capacity (c_queue c)) ms)
    (c_debug c) (c_persistence c).

Definition simulate_sensors (b : bool) (c : Config) : Config :=
  mkCfg (c_nodes c) (c_local c) (c_global c) (c_queue c)
    (mkDebug (dbg_verbose (c_debug c)) b) (c_persistence c).

Definition verbose (b : bool) (c : Config) : Config :=
  mkCfg (c_nodes c) (c_local c) (c_global c) (c_queue c)
    (mkDebug b (dbg_simulate_sensors (c_debug c))) (c_persistence c).

Definition persistence (p : PersistenceConfig) (c : Config) : Config :=
  mkCfg (c_nodes c) (c_local c) (c_global c) (c_queue c) (c_debug c) (Some p).

(** ** Files *)

Section files.
Context `{Codec Config}.

(** [Config::load] on what reading the file gives *)
Definition config_load (read : result string bytes) : result ConfigError Config :=
  content ← map_err CfgIo read;
  ok_or (dec content) (CfgParse "invalid").

(** [Config::save]: the bytes written, unless serialization or writing fails *)
Definition config_save (write : result string unit) (c : Config) : result ConfigError bytes :=
  content ← ok_or (enc c) (CfgSerialize "invalid");
  _ ← map_err CfgIo write;
  Ok content.
End files.

(** ** Lookups *)

Definition node_name (node_id : Z) : string := "node" +:+ pretty node_id.

Definition my_node (node_id : Z) (c : Config) : result ConfigError NodeConfig :=
  ok_or (c_nodes c !! node_name node_id) (NodeNotFound (node_name node_id)).

Section lookups.
Context `{HashOrder}.

(** [collect_nodes] and [all_nodes] *)
Definition all_nodes (c : Config) : list (string * NodeConfig) := hm_iter (c_nodes c).

Definition other_nodes (node_id : Z) (c : Config) : list (string * NodeConfig) :=
  filter (λ x, x.1 ≠ node_name node_id) (all_nodes c).

Context `{Unicode}.

(** The loop of [detect_node_id]: the nodes from position [i] on. *)
Fixpoint detect_loop (c : Config) (hostname : string) (i : Z) (l : list (string * NodeConfig)) :
    option Z :=
  match l with
  | [] => None
  | (name, _) :: l =>
      if decide (to_lowercase name = to_lowercase hostname) then Some (i + 1)
      else match my_node (i + 1) c with
      | Ok config =>
          if decide (nd_host config = hostname) then Some (i + 1)
          else detect_loop c hostname (i + 1) l
      | Err _ => detect_loop c hostname (i + 1) l
      end
  end.

(** [detect_node_id] with the three environment variables it reads. *)
Definition detect_node_id (node_id_var hostname_var host_var : option string) (c : Config) :
    result ConfigError Z :=
  match node_id_var with
  | Some id => ok_or (parse_u64 id) (InvalidValue "Invalid NODE_ID")
  | None =>
      hostname ← ok_or (match hostname_var with Some h => Some h | None => host_var end)
                   (InvalidValue "Cannot determine hostname");
      ok_or (detect_loop c hostname 0 (all_nodes c))
        (InvalidValue ("Hostname '" +:+ hostname +:+ "' not found in node list"))
  end.
End lookups.

Definition local_source (name : string) (c : Config) : option SourceType :=
  s ← c_local c !! name;
  match source_parse s with Ok t => Some t | Err _ => None end.

Definition global_metric (name : string) (c : Config) : option GlobalMetricConfig :=
  c_global c !! name.

(** ** Generated configurations *)

(** [u16] arithmetic of the release build *)
Definition u16_wrap (z : Z) : Z := z `mod` 2 ^ 16.

Definition generated_node (host : string) (port : Z) : NodeConfig :=
  mkNodeCfg host port (u16_wrap (port + 2)) (u16_wrap (port + 3)) (u16_wrap (port + 4)).

(** [base_port + (i as u16 * port_offset)] *)
Definition local_port (base_port i : Z) : Z :=
  u16_wrap (base_port + u16_wrap (u16_wrap i * 100)).

Definition local_nodes (num_nodes base_port : Z) : gmap string NodeConfig :=
  foldl (λ m i, <[node_name i := generated_node "127.0.0.1" (local_port base_port i)]> m) ∅
    (seqZ 1 num_nodes).

Definition local_test (num_nodes base_port : Z) : Config :=
  verbose true (simulate_sensors true
    (add_expression_aggregation "node_health_score" "(100 - cpu) + memory_free" "avg"
       ["cpu"; "memory_free"] 1000
    (add_global_aggregation "temperature_max" "max" ["temperature"] 2000
    (add_global_aggregation "cpu_avg" "avg" ["cpu"] 1000
    (add_local_metric "temperature" "function:sensor_temp"
    (add_local_metric "memory_free" "function:memory_free"
    (add_local_metric "memory" "function:memory"
    (add_local_metric "cpu" "function:cpu"
    (with_nodes Config_default (local_nodes num_nodes base_port)))))))))).

(** [6967 + (i as u16 * 100)] *)
Definition production_port (i : Z) : Z := u16_wrap (6967 + u16_wrap (u16_wrap i * 100)).

Definition production_nodes (nodes : list (string * string)) : gmap string NodeConfig :=
  foldl (λ m x, <[x.2.1 := generated_node x.2.2 (production_port x.1)]> m) ∅
    (zip (seqZ 0 (Z.of_nat (length nodes))) nodes).

Definition production (nodes : list (string * string)) : Config :=
  add_local_metric "memory_free" "function:memory_free"
  (add_local_metric "memory" "function:memory"
  (add_local_metric "cpu" "function:cpu"
  (with_nodes Config_default (production_nodes nodes)))).
