(* ===== verification/ConfigProps.v ===== *)
(** * Theorems about the configuration

    Which names an expression's variables are, how the lookups divide the node
    table, how the detected node id depends on the iteration order of the table,
    and that a generated test cluster has no port conflict. *)

From Stdlib Require Import Ascii.
From S2P Require Import Prelude DdlTypes Text Config.
#[local] Open Scope Z_scope.
#[local] Arguments String.append : simpl never.

(** ** Variables of an expression *)

Section variables.
Context `{Unicode}.

(** Reference: the maximal runs of variable characters. *)
Fixpoint tokens_go (cur : string) (l : list string) : list string :=
  match l with
  | [] => flush cur
  | c :: l => if is_var_char c then tokens_go (cur +:+ c) l else flush cur ++ tokens_go "" l
  end.

Definition tokens (expr : string) : list string := tokens_go "" (chars expr).

(** Whether the text ends inside a run, of which [b] says whether one is open. *)
Fixpoint ends_in_token (b : bool) (l : list string) : bool :=
  match l with [] => b | c :: l => ends_in_token (is_var_char c) l end.

Definition not_keyword (w : string) : Prop := is_keyword w = false.
#[local] Instance not_keyword_dec w : Decision (not_keyword w).
Proof. unfold not_keyword. apply _. Defined.

Lemma app_nonempty (a b : string) : b ≠ "" → a +:+ b ≠ "".
Proof. by destruct a. Qed.

Lemma extract_go_spec vars cur l :
  Forall (λ c, c ≠ "") l →
  ∃ front back, tokens_go cur l = front ++ back ∧
    extract_go vars cur (negb (bool_decide (cur = ""))) l = vars ++ filter not_keyword front ++ back ∧
    length back = if ends_in_token (negb (bool_decide (cur = ""))) l then 1%nat else 0%nat.
Proof.
  intros Hl. revert vars cur. induction Hl as [|c l Hc Hl IH]; intros vars cur; simpl.
  { unfold flush. case_decide; [rewrite bool_decide_true by done|rewrite bool_decide_false by done];
      simpl; [exists [], []|exists [], [cur]]; by rewrite ?app_nil_r. }
  destruct (is_var_char c) eqn:Ec.
  - destruct (IH vars (cur +:+ c)) as (fr & bk & Ht & He & Hb).
    rewrite (bool_decide_false (_ +:+ c = "")) in He, Hb by (by apply app_nonempty).
    exists fr, bk. done.
  - unfold flush. case_decide as Hcur.
    + subst. rewrite bool_decide_true by done. simpl.
      destruct (IH vars "") as (fr & bk & Ht & He & Hb). exists fr, bk. done.
    + rewrite bool_decide_false by done. simpl.
      destruct (IH (if negb (is_keyword cur) then vars ++ [cur] else vars) "")
        as (fr & bk & Ht & He & Hb).
      exists (cur :: fr), bk. split; [by rewrite Ht|]. split; [|done].
      rewrite bool_decide_true in He by done. simpl in He. rewrite He.
      rewrite filter_cons. destruct (is_keyword cur) eqn:Ek; simpl.
      * by rewrite decide_False by (unfold not_keyword; congruence).
      * rewrite decide_True by done. by rewrite <- !app_assoc.
Qed.

Lemma flush_nonempty s : Forall (λ c, c ≠ "") (flush s).
Proof. unfold flush. case_decide; by repeat constructor. Qed.

Lemma chars_go_nonempty k cur s : Forall (λ c, c ≠ "") (chars_go k cur s).
Proof.
  revert k cur. induction s as [|c s IH]; intros k cur; simpl; [apply flush_nonempty|].
  destruct k; [|apply IH]. apply Forall_app. split; [apply flush_nonempty|apply IH].
Qed.

(** [extract_variables] returns the maximal runs of letters, digits and
    underscores of the expression, in order, without the words true and false,
    except that a run at the very end is returned whatever it is. *)
Theorem extract_variables_spec expr :
  ∃ front back, tokens expr = front ++ back ∧
    extract_variables expr = filter not_keyword front ++ back ∧
    length back = if ends_in_token false (chars expr) then 1%nat else 0%nat.
Proof. apply (extract_go_spec [] "" (chars expr)), chars_go_nonempty. Qed.
End variables.

(** ** The node table *)

Section nodes.
Context `{HashOrder}.

(** A node's own entry and the other nodes together are the whole table:
    with an entry for [node_id], all nodes are that entry and [other_nodes], each
    once; without one, [my_node] reports the missing name and [other_nodes] are
    all nodes. *)
Theorem nodes_partition node_id (c : Config) :
  match my_node node_id c with
  | Ok n => all_nodes c ≡ₚ (node_name node_id, n) :: other_nodes node_id c
  | Err e => e = NodeNotFound (node_name node_id) ∧ other_nodes node_id c = all_nodes c
  end.
Proof.
  unfold my_node, other_nodes, all_nodes.
  destruct (c_nodes c !! node_name node_id) as [n|] eqn:En; simpl.
  - assert (NoDup (hm_iter (c_nodes c))) as Hnd.
    { apply (NoDup_fmap_1 fst). apply (NoDup_hm_keys (c_nodes c)). }
    apply NoDup_Permutation; [done| |].
    + apply NoDup_cons. split; [rewrite list_elem_of_filter; simpl; naive_solver|].
      by apply NoDup_filter.
    + intros [name m]. rewrite elem_of_cons, list_elem_of_filter, elem_of_hm_iter. simpl.
      destruct (decide (name = node_name node_id)) as [->|Hne]; naive_solver.
  - split; [done|]. apply filter_all.
    intros [name m] Hin%elem_of_hm_iter. simpl. congruence.
Qed.
End nodes.

(** *** Detection *)

(** One possible reading of the Unicode tables: ASCII only. *)
Definition ascii_lower (c : ascii) : ascii :=
  let n := Ascii.nat_of_ascii c in
  if decide (65 ≤ n ≤ 90)%nat then Ascii.ascii_of_nat (n + 32) else c.

Fixpoint string_map (f : ascii → ascii) (s : string) : string :=
  match s with "" => "" | String c s => String (f c) (string_map f s) end.

Definition single_alphanumeric (s : string) : bool :=
  match s with String c "" => ascii_alphanumeric c | _ => false end.

Definition ascii_unicode : Unicode :=
  {| is_alphanumeric := single_alphanumeric;
     to_lowercase := string_map ascii_lower;
     is_alphanumeric_ascii c _ := eq_refl |}.

(** Two nodes, named and addressed differently. *)
Definition two_nodes : Config :=
  add_node "node1" "alpha" 1 2 3 4 (add_node "node2" "beta" 5 6 7 8 Config_default).

(** [detect_node_id] without NODE_ID returns the position of the matching
    node in an iteration over a hash map, which is not fixed: on the same machine
    and configuration two iteration orders give two different ids, so the
    detected id need not be the one the configuration names the node with. *)
Theorem detect_depends_on_order :
  let detect := λ order : HashOrder,
    @detect_node_id order ascii_unicode None (Some "node2") None two_nodes in
  ∃ i j, detect canonical_order = Ok i ∧ detect reverse_order = Ok j ∧ i ≠ j ∧
    ∃ n, my_node 2 two_nodes = Ok n ∧ nd_host n = "beta".
Proof.
  eexists _, _. split; [reflexivity|]. split; [reflexivity|]. split; [done|].
  eexists. split; reflexivity.
Qed.

(** ** Generated clusters *)

Section inserts.
Context {V : Type} (k : Z → string) (v : Z → V).

Definition insert_all (l : list Z) (m : gmap string V) : gmap string V :=
  foldl (λ m i, <[k i := v i]> m) m l.

Lemma insert_all_Some l m name x :
  insert_all l m !! name = Some x →
  (∃ i, i ∈ l ∧ name = k i ∧ x = v i) ∨ m !! name = Some x.
Proof.
  unfold insert_all. revert m. induction l as [|i l IH]; intros m Hl; simpl in Hl; [by right|].
  apply IH in Hl as [(j & Hj & ? & ?)|Hl].
  - left. exists j. split; [by right|done].
  - map_cases name (k i); [|by right]. simplify_eq. left. exists i. split; [by left|done].
Qed.

Lemma insert_all_lookup `{!Inj (=) (=) k} l m i :
  i ∈ l ∨ m !! k i = Some (v i) → insert_all l m !! k i = Some (v i).
Proof.
  unfold insert_all. revert m. induction l as [|j l IH]; intros m Hl; simpl.
  { destruct Hl as [Hl|]; [by apply not_elem_of_nil in Hl|done]. }
  apply IH. destruct (decide (j = i)) as [->|Hne].
  - right. apply lookup_insert_eq.
  - destruct Hl as [[->|Hl]%elem_of_cons|Hl]; [done|by left|right].
    rewrite lookup_insert_ne; [done|]. by intros ?%(inj k).
Qed.
End inserts.

#[export] Instance node_name_inj : Inj (=) (=) node_name.
Proof. intros i j Hij. unfold node_name in Hij. by simplify_eq. Qed.

Definition ports (n : NodeConfig) : list Z :=
  [nd_communication_port n; nd_query_port n; nd_coordination_port n; nd_pubsub_port n].

(** The node number [i] of a generated cluster, while the ports fit 16 bits. *)
Definition plain_node (base i : Z) : NodeConfig :=
  let p := base + 100 * i in mkNodeCfg "127.0.0.1" p (p + 2) (p + 3) (p + 4).

Lemma u16_wrap_small z : 0 ≤ z ≤ U16_MAX → u16_wrap z = z.
Proof. intros Hz. apply Z.mod_small. unfold U16_MAX in Hz. lia. Qed.

Lemma generated_plain base n i :
  0 ≤ base → base + 100 * n + 4 ≤ U16_MAX → 1 ≤ i ≤ n →
  generated_node "127.0.0.1" (local_port base i) = plain_node base i.
Proof.
  intros Hb Hn Hi. unfold generated_node, local_port, plain_node.
  rewrite (u16_wrap_small i) by lia. rewrite (u16_wrap_small (i * 100)) by lia.
  rewrite !u16_wrap_small by (rewrite ?u16_wrap_small; lia). f_equal; lia.
Qed.

(** In a generated test cluster whose ports fit 16 bits, node [i] is found
    under its number with ports counted from the base, there are exactly the
    requested nodes, and no two listeners of the cluster use the same port. *)
Theorem local_test_ports `{HashOrder} n base :
  0 ≤ n → 0 ≤ base → base + 100 * n + 4 ≤ U16_MAX →
  let c := local_test n base in
  (∀ i, 1 ≤ i ≤ n → my_node i c = Ok (plain_node base i)) ∧
  Z.of_nat (length (all_nodes c)) = n ∧
  NoDup ((all_nodes c).*2 ≫= ports).
Proof.
  intros Hn Hb Hfit c.
  assert (∀ i, 1 ≤ i ≤ n → c_nodes c !! node_name i = Some (plain_node base i)) as Hlook.
  { intros i Hi. rewrite <- (generated_plain base n) by done.
    apply (insert_all_lookup node_name
      (λ i, generated_node "127.0.0.1" (local_port base i))).
    left. by rewrite elem_of_seqZ; lia. }
  assert (all_nodes c ≡ₚ (λ i, (node_name i, plain_node base i)) <$> seqZ 1 n) as Hperm.
  { apply NoDup_Permutation.
    - apply (NoDup_fmap_1 fst), (NoDup_hm_keys (c_nodes c)).
    - apply NoDup_fmap_2; [|apply NoDup_seqZ]. intros i j Hij. by simplify_eq.
    - intros [name x]. unfold all_nodes. rewrite elem_of_hm_iter, list_elem_of_fmap. split.
      + intros [(i & Hi & -> & ->)|?]%insert_all_Some; [|done].
        apply elem_of_seqZ in Hi. exists i. rewrite elem_of_seqZ.
        rewrite (generated_plain base n) by lia. split; [done|lia].
      + intros (i & [= -> ->] & Hi%elem_of_seqZ). apply Hlook. lia. }
  split; [|split].
  - intros i Hi. unfold my_node. by rewrite Hlook.
  - rewrite Hperm, length_fmap, length_seqZ. lia.
  - rewrite Hperm, <- list_fmap_compose, list_fmap_bind. apply NoDup_bind.
    + intros i j y _ _. unfold ports, plain_node. simpl. rewrite !elem_of_cons, !elem_of_nil. lia.
    + intros i _. unfold ports, plain_node. simpl.
      repeat (apply NoDup_cons; split; [rewrite ?elem_of_cons, ?elem_of_nil; lia|]).
      apply NoDup_nil_2.
    + apply NoDup_seqZ.
Qed.

Lemma local_test_ports_witness :
  let _ := canonical_order in
  (∀ i, 1 ≤ i ≤ 3 → my_node i (local_test 3 7000) = Ok (plain_node 7000 i)) ∧
  Z.of_nat (length (all_nodes (local_test 3 7000))) = 3 ∧
  NoDup ((all_nodes (local_test 3 7000)).*2 ≫= ports).
Proof. intros H. apply (local_test_ports 3 7000); unfold U16_MAX; lia. Defined.
