(* ===== verification/Floats.v ===== *)
(** * Floating point

    Rust's [f64] as the Standard Library's specification of IEEE binary64
    (53 bits of precision, greatest exponent 1024, one NaN): arithmetic, the
    order of [partial_cmp], [f64::max] and [f64::min], rounding, and the
    saturating casts to and from integers. *)

From Stdlib Require Import SpecFloat.
From S2P Require Import Prelude.
#[local] Open Scope Z_scope.

Abbreviation f64 := spec_float.

#[export] Instance f64_eq_dec : EqDecision f64.
Proof. solve_decision. Defined.

Definition f64_add : f64 → f64 → f64 := SFadd 53 1024.
Definition f64_sub : f64 → f64 → f64 := SFsub 53 1024.
Definition f64_mul : f64 → f64 → f64 := SFmul 53 1024.
Definition f64_div : f64 → f64 → f64 := SFdiv 53 1024.

(** [z as f64], and literals: the nearest double, ties to even. *)
Definition f64_of_Z (z : Z) : f64 := binary_normalize 53 1024 z 0 false.

(** The literal [m * 2^e]. *)
Definition f64_lit (m e : Z) : f64 := binary_normalize 53 1024 m e false.

Definition NEG_INFINITY : f64 := S754_infinity true.
Definition INFINITY : f64 := S754_infinity false.

Definition is_nan (x : f64) : bool := match x with S754_nan => true | _ => false end.

(** [a.partial_cmp(b)] *)
Definition partial_cmp : f64 → f64 → option comparison := SFcompare.

(** [f64::max] and [f64::min]: a NaN argument is ignored; which of two equal
    zeros is returned is not specified, and the first is taken here. *)
Definition f64_max (a b : f64) : f64 :=
  if is_nan a then b
  else match partial_cmp a b with Some Lt => b | _ => a end.

Definition f64_min (a b : f64) : f64 :=
  if is_nan a then b
  else match partial_cmp a b with Some Gt => b | _ => a end.

(** ** Integers *)

(** The integer part, truncated towards zero. *)
Definition trunc_Z (s : bool) (m : positive) (e : Z) : Z :=
  let n := if decide (0 ≤ e) then Z.pos m * 2 ^ e else Z.pos m / 2 ^ (- e) in
  if s then - n else n.

(** The nearest integer, halves away from zero. *)
Definition round_Z (s : bool) (m : positive) (e : Z) : Z :=
  let n := if decide (0 ≤ e) then Z.pos m * 2 ^ e else (Z.pos m + 2 ^ (- e - 1)) / 2 ^ (- e) in
  if s then - n else n.

(** A saturating cast to the integers from [lo] to [hi]; NaN gives 0. *)
Definition f64_cast (f : bool → positive → Z → Z) (lo hi : Z) (x : f64) : Z :=
  match x with
  | S754_nan | S754_zero _ => 0
  | S754_infinity s => if s then lo else hi
  | S754_finite s m e => Z.max lo (Z.min hi (f s m e))
  end.

(** [x as u64] and [x as usize] *)
Definition f64_as_u64 : f64 → Z := f64_cast trunc_Z 0 U64_MAX.
(** [x as i64] *)
Definition f64_as_i64 : f64 → Z := f64_cast trunc_Z (- 2 ^ 63) (2 ^ 63 - 1).
(** [x.round() as usize]: the rounded value is an integer, so the cast is exact. *)
Definition f64_round_usize : f64 → Z := f64_cast round_Z 0 U64_MAX.

Lemma f64_cast_range f lo hi x : lo ≤ 0 ≤ hi → lo ≤ f64_cast f lo hi x ≤ hi.
Proof. intros H. destruct x as [|[]| |]; simpl; lia. Qed.

(** ** Order

    Apart from NaN, doubles are compared by sign, then exponent, then mantissa. *)

Definition f64_key (x : f64) : Z * Z * Z :=
  match x with
  | S754_infinity true => (-2, 0, 0)
  | S754_finite true m e => (-1, - e, - Z.pos m)
  | S754_zero _ => (0, 0, 0)
  | S754_finite false m e => (1, e, Z.pos m)
  | S754_infinity false => (2, 0, 0)
  | S754_nan => (3, 0, 0)
  end.

Definition key_cmp (a b : Z * Z * Z) : comparison :=
  match a.1.1 ?= b.1.1 with
  | Eq => match a.1.2 ?= b.1.2 with Eq => a.2 ?= b.2 | c => c end
  | c => c
  end.

Lemma partial_cmp_key x y :
  is_nan x = false → is_nan y = false → partial_cmp x y = Some (key_cmp (f64_key x) (f64_key y)).
Proof.
  unfold key_cmp. destruct x as [[]|[]| |[] m e], y as [[]|[]| |[] m' e']; intros; try done;
    cbn; f_equal.
  rewrite (Z.compare_opp e e'), (Z.compare_antisym e e').
  by destruct (e ?= e').
Qed.

Lemma partial_cmp_nan x y : partial_cmp x y = None ↔ is_nan x = true ∨ is_nan y = true.
Proof.
  split.
  - destruct x, y; simpl; try done; auto.
  - destruct x, y; simpl; intuition done.
Qed.

(** [a <= b] on numbers *)
Definition f64_le (a b : f64) : Prop := key_cmp (f64_key a) (f64_key b) ≠ Gt.

#[export] Instance f64_le_dec : RelDecision f64_le.
Proof. intros a b. unfold f64_le. apply _. Defined.

Lemma key_cmp_lex a b :
  key_cmp a b ≠ Gt ↔
  a.1.1 < b.1.1 ∨ (a.1.1 = b.1.1 ∧ (a.1.2 < b.1.2 ∨ (a.1.2 = b.1.2 ∧ a.2 ≤ b.2))).
Proof.
  unfold key_cmp. destruct (Z.compare_spec a.1.1 b.1.1), (Z.compare_spec a.1.2 b.1.2),
    (Z.compare_spec a.2 b.2); split; intros; try done; lia.
Qed.

#[export] Instance f64_le_preorder : PreOrder f64_le.
Proof.
  split; unfold f64_le.
  - intros x. rewrite key_cmp_lex. lia.
  - intros x y z. rewrite !key_cmp_lex. lia.
Qed.

#[export] Instance f64_le_total : Total f64_le.
Proof. intros x y. unfold f64_le. rewrite !key_cmp_lex. lia. Qed.

Lemma partial_cmp_le x y :
  is_nan x = false → is_nan y = false → f64_le x y ↔ partial_cmp x y ≠ Some Gt.
Proof. intros Hx Hy. rewrite (partial_cmp_key x y Hx Hy). unfold f64_le. split; congruence. Qed.

Lemma f64_le_flip a b : key_cmp (f64_key a) (f64_key b) ≠ Lt → f64_le b a.
Proof.
  intros Hn. destruct (total f64_le b a) as [|Hab]; [done|].
  unfold f64_le in *. apply key_cmp_lex. apply key_cmp_lex in Hab.
  revert Hn. unfold key_cmp. destruct (Z.compare_spec (f64_key a).1.1 (f64_key b).1.1),
    (Z.compare_spec (f64_key a).1.2 (f64_key b).1.2),
    (Z.compare_spec (f64_key a).2 (f64_key b).2); intros; try done; lia.
Qed.

(** The maximum of two numbers is one of them and above both. *)
Lemma f64_max_spec a b :
  is_nan a = false → is_nan b = false →
  f64_le a (f64_max a b) ∧ f64_le b (f64_max a b) ∧ (f64_max a b = a ∨ f64_max a b = b).
Proof.
  intros Ha Hb. unfold f64_max. rewrite Ha, partial_cmp_key by done.
  destruct (key_cmp _ _) eqn:E; split_and!; auto; try reflexivity;
    try (apply f64_le_flip; congruence); unfold f64_le; congruence.
Qed.

(** The minimum of two numbers is one of them and below both. *)
Lemma f64_min_spec a b :
  is_nan a = false → is_nan b = false →
  f64_le (f64_min a b) a ∧ f64_le (f64_min a b) b ∧ (f64_min a b = a ∨ f64_min a b = b).
Proof.
  intros Ha Hb. unfold f64_min. rewrite Ha, partial_cmp_key by done.
  destruct (key_cmp _ _) eqn:E; split_and!; auto; try reflexivity;
    try (apply f64_le_flip; congruence); unfold f64_le; congruence.
Qed.

Lemma f64_le_neg_infinity x : f64_le NEG_INFINITY x.
Proof. unfold f64_le. rewrite key_cmp_lex. destruct x as [[]|[]| |[] m e]; simpl; lia. Qed.

Lemma f64_le_infinity x : is_nan x = false → f64_le x INFINITY.
Proof. unfold f64_le. rewrite key_cmp_lex. destruct x as [[]|[]| |[] m e]; simpl; try done; lia. Qed.

(** ** Sorting

    [sort_by(|a, b| a.partial_cmp(b).unwrap())]: a stable sort by insertion. *)

Fixpoint f64_insert (x : f64) (l : list f64) : list f64 :=
  match l with
  | [] => [x]
  | y :: l' => if decide (f64_le x y) then x :: l else y :: f64_insert x l'
  end.

Fixpoint f64_sort (l : list f64) : list f64 :=
  match l with [] => [] | x :: l => f64_insert x (f64_sort l) end.

Lemma f64_insert_perm x l : f64_insert x l ≡ₚ x :: l.
Proof.
  induction l as [|y l IH]; simpl; [done|]. case_decide; [done|]. rewrite IH. constructor.
Qed.

Lemma f64_sort_perm l : f64_sort l ≡ₚ l.
Proof. induction l as [|x l IH]; simpl; [done|]. by rewrite f64_insert_perm, IH. Qed.

Lemma f64_insert_sorted x l : Sorted f64_le l → Sorted f64_le (f64_insert x l).
Proof.
  induction 1 as [|y l Hl IH Hy]; simpl; [by repeat constructor|].
  case_decide as Hxy; [by repeat constructor|].
  assert (f64_le y x) as Hyx by (by destruct (total f64_le x y)).
  constructor; [done|]. destruct l as [|z l]; simpl; [by constructor|].
  case_decide; constructor; [done|]. by inversion Hy.
Qed.

Lemma f64_sort_sorted l : StronglySorted f64_le (f64_sort l).
Proof.
  apply Sorted_StronglySorted; [apply _|].
  induction l as [|x l IH]; simpl; [constructor|]. by apply f64_insert_sorted.
Qed.
