(* ===== verification/MetricsNode.v ===== *)
(** * The metrics node (src/node.rs)

    Local metrics are sampled and published every second, metrics of other nodes
    are received into a table, and global metrics are aggregated from both.  Each
    background task is a step on the node's tables; iteration over hash maps is
    in any order, the network is an argument. *)

From Stdlib Require Import SpecFloat.
From S2P Require Import Prelude DdlTypes Text Config Floats.
#[local] Open Scope Z_scope.
#[local] Arguments String.append : simpl never.

(** [RemoteMetric] and [MetricMessage] have the same fields. *)
Record MetricMessage := mkMetric {
  mm_node_id : Z;
  mm_metric_name : string;
  mm_value : f64;
  mm_timestamp : Z;
}.

(** ** Aggregation *)

Module aggregation.
Section aggregation.
(** The sign of the zero that [Sum<f64>] starts from; the Standard Library
    changed it from positive to negative. *)
Variable sum_sign : bool.

Definition sum (values : list f64) : f64 := foldl f64_add (S754_zero sum_sign) values.

Definition avg (values : list f64) : f64 :=
  match values with
  | [] => S754_zero false
  | _ => f64_div (sum values) (f64_of_Z (Z.of_nat (length values)))
  end.
End aggregation.

Definition max (values : list f64) : f64 := foldl f64_max NEG_INFINITY values.

Definition min (values : list f64) : f64 := foldl f64_min INFINITY values.

(** Sorting compares every value of a list of two or more; comparing a NaN
    panics. *)
Definition sort_panics (values : list f64) : bool :=
  bool_decide (2 ≤ length values)%nat && existsb is_nan values.

(** [(p / 100.0 * (len - 1) as f64).round() as usize], at most [len - 1] *)
Definition percentile_index (p : f64) (len : nat) : nat :=
  Nat.min
    (Z.to_nat (f64_round_usize (f64_mul (f64_div p (f64_of_Z 100)) (f64_of_Z (Z.of_nat len - 1)))))
    (len - 1).

(** [None] is a panic. *)
Definition percentile (values : list f64) (p : f64) : option f64 :=
  match values with
  | [] => Some (S754_zero false)
  | _ =>
      if sort_panics values then None
      else f64_sort values !! percentile_index p (length values)
  end.

Definition health_score (cpu memory_free : f64) : f64 :=
  f64_add (f64_sub (f64_of_Z 100) cpu) memory_free.
End aggregation.

(** ** The node *)

Record AutoQueuesNode := mkAqNode {
  aq_node_id : Z;
  aq_local : gmap string f64;
  aq_global : gmap string f64;
  aq_remote : gmap string (gmap Z f64);
  aq_running : bool;
  aq_config : Config;
  aq_my_config : NodeConfig;
}.

Section node.
Context `{HashOrder} `{Unicode}.
Variable sum_sign : bool.

(** [AutoQueuesNode::new] with the environment variables and the results of
    creating the two sockets. *)
Definition aq_new (node_id_var hostname_var host_var : option string)
    (broker client : result string unit) (c : Config) : result ConfigError AutoQueuesNode :=
  node_id ← detect_node_id node_id_var hostname_var host_var c;
  my_config ← my_node node_id c;
  _ ← map_err CfgIo broker;
  _ ← map_err CfgIo client;
  Ok (mkAqNode node_id ∅ ∅ ∅ false c my_config).

(** [NodeConfig::pubsub_addr]; whether a text is a socket address is decided by
    [parse_addr]. *)
Definition pubsub_addr (parse_addr : string → result string unit) (n : NodeConfig) :
    result ConfigError string :=
  let a := nd_host n +:+ ":" +:+ pretty (nd_pubsub_port n) in
  _ ← map_err (λ e, ParseError ("Invalid pubsub address: " +:+ e)) (parse_addr a);
  Ok a.

Definition communication_addr (parse_addr : string → result string unit) (n : NodeConfig) :
    result ConfigError string :=
  let a := nd_host n +:+ ":" +:+ pretty (nd_communication_port n) in
  _ ← map_err (λ e, ParseError ("Invalid communication address: " +:+ e)) (parse_addr a);
  Ok a.

Definition query_addr (parse_addr : string → result string unit) (n : NodeConfig) :
    result ConfigError string :=
  let a := nd_host n +:+ ":" +:+ pretty (nd_query_port n) in
  _ ← map_err (λ e, ParseError ("Invalid query address: " +:+ e)) (parse_addr a);
  Ok a.

Definition coordination_addr (parse_addr : string → result string unit) (n : NodeConfig) :
    result ConfigError string :=
  let a := nd_host n +:+ ":" +:+ pretty (nd_coordination_port n) in
  _ ← map_err (λ e, ParseError ("Invalid coordination address: " +:+ e)) (parse_addr a);
  Ok a.

Fixpoint collect_results {E A} (l : list (result E A)) : result E (list A) :=
  match l with [] => Ok [] | x :: l => a ← x; al ← collect_results l; Ok (a :: al) end.

Definition set_running (b : bool) (n : AutoQueuesNode) : AutoQueuesNode :=
  mkAqNode (aq_node_id n) (aq_local n) (aq_global n) (aq_remote n) b (aq_config n) (aq_my_config n).

(** [run] up to waiting for the signal: the addresses to subscribe to, or the
    error it returns with; the publishing task is spawned before. *)
Definition aq_run (parse_addr : string → result string unit) (c : Config) (n : AutoQueuesNode) :
    result ConfigError (list string) * AutoQueuesNode :=
  (collect_results (pubsub_addr parse_addr <$> (other_nodes (aq_node_id n) c).*2),
   set_running true n).

(** [*self.running.write().await = false] after the signal *)
Definition aq_stop (n : AutoQueuesNode) : AutoQueuesNode := set_running false n.

(** ** Sampling and publishing *)

(** The simulated metrics at a tick; the sums are [u64] additions. *)
Definition noise (node_id tick_count : Z) : f64 :=
  f64_sub (f64_div (f64_of_Z (u64_add (u64_wrap (node_id * 7919)) (tick_count `mod` 100)))
             (f64_of_Z 100)) (f64_lit 1 (-1)).

Definition time_factor (tick_count : Z) : f64 :=
  f64_div (f64_of_Z (tick_count `mod` 60)) (f64_of_Z 60).

Definition per_node (node_id base step : Z) (x : f64) : f64 :=
  f64_add (f64_add (f64_of_Z base) (f64_mul (f64_of_Z node_id) (f64_of_Z step))) x.

Definition sample_cpu (node_id t : Z) : f64 :=
  per_node node_id 40 5 (f64_mul (noise node_id t) (f64_of_Z 10)).
Definition sample_memory (node_id t : Z) : f64 :=
  per_node node_id 50 3 (f64_mul (noise node_id t) (f64_of_Z 8)).
Definition sample_memory_free (node_id t : Z) : f64 :=
  f64_sub (f64_of_Z 100) (sample_memory node_id t).
Definition sample_temperature (node_id t : Z) : f64 :=
  per_node node_id 60 2 (f64_mul (time_factor t) (f64_of_Z 5)).
Definition sample_vibration (node_id t : Z) : f64 :=
  f64_add (f64_of_Z 10) (f64_mul (noise node_id t) (f64_of_Z 5)).

Definition sampled (node_id t : Z) (l : gmap string f64) : gmap string f64 :=
  <["vibration" := sample_vibration node_id t]>
  (<["temperature" := sample_temperature node_id t]>
  (<["memory_free" := sample_memory_free node_id t]>
  (<["memory" := sample_memory node_id t]>
  (<["cpu" := sample_cpu node_id t]> l)))).

(** One iteration of [collect_and_publish] with the tick count it reaches: the
    topics and messages handed to the broker, if there is one. *)
Definition collect_tick (tick_count now : Z) (publisher : bool) (n : AutoQueuesNode) :
    list (string * MetricMessage) * AutoQueuesNode :=
  let l := sampled (aq_node_id n) tick_count (aq_local n) in
  ((if publisher then
      (λ x, ("metric:" +:+ x.1, mkMetric (aq_node_id n) x.1 x.2 now)) <$> hm_iter l
    else []),
   mkAqNode (aq_node_id n) l (aq_global n) (aq_remote n) (aq_running n) (aq_config n)
     (aq_my_config n)).

(** ** Receiving *)

(** One message of [subscribe_and_receive]: data that is not a metric message
    is skipped; the name is taken from the topic. *)
Definition receive_one `{Codec MetricMessage} (r : gmap string (gmap Z f64))
    (m : string * bytes) : gmap string (gmap Z f64) :=
  match dec m.2 with
  | None => r
  | Some msg =>
      let name := default m.1 (strip_prefix "metric:" m.1) in
      <[name := <[mm_node_id msg := mm_value msg]> (default ∅ (r !! name))]> r
  end.

Definition receive_tick `{Codec MetricMessage} (ms : list (string * bytes)) (n : AutoQueuesNode) :
    AutoQueuesNode :=
  mkAqNode (aq_node_id n) (aq_local n) (aq_global n) (foldl receive_one (aq_remote n) ms)
    (aq_running n) (aq_config n) (aq_my_config n).

(** ** Global metrics *)

Definition collect_all_values (local : gmap string f64) (remote : gmap string (gmap Z f64))
    (sources : list string) : list f64 :=
  sources ≫= λ source,
    option_list (local !! source) ++
    match remote !! source with Some nodes => hm_values nodes | None => [] end.

(** [str::contains] *)
Fixpoint contains (pat s : string) : bool :=
  match strip_prefix pat s with
  | Some _ => true
  | None => match s with "" => false | String _ s => contains pat s end
  end.

Definition eval_expression (local : gmap string f64) (expression : string) : f64 :=
  if contains "100 - cpu" expression && contains "memory_free" expression then
    f64_add (f64_sub (f64_of_Z 100) (default (S754_zero false) (local !! "cpu")))
      (default (S754_zero false) (local !! "memory_free"))
  else
    foldl (λ sum source,
      if contains source expression then
        match local !! source with Some v => f64_add sum v | None => sum end
      else sum) (S754_zero false) ["cpu"; "memory"; "temperature"; "vibration"].

Definition compute_expression (local : gmap string f64) (remote : gmap string (gmap Z f64))
    (expression : string) (sources : list string) : f64 :=
  aggregation.avg sum_sign
    (eval_expression local expression ::
     (sources ≫= λ source,
        match remote !! source with Some nodes => hm_values nodes | None => [] end)).

(** The value of one global metric; [None] is a panic. *)
Definition aggregate_one (local : gmap string f64) (remote : gmap string (gmap Z f64))
    (c : GlobalMetricConfig) : option f64 :=
  let values := collect_all_values local remote (gm_sources c) in
  let a := gm_aggregation c in
  if decide (a = "avg") then Some (aggregation.avg sum_sign values)
  else if decide (a = "max") then Some (aggregation.max values)
  else if decide (a = "min") then Some (aggregation.min values)
  else if decide (a = "sum") then Some (aggregation.sum sum_sign values)
  else if decide (a = "p95") then aggregation.percentile values (f64_of_Z 95)
  else if decide (a = "p99") then aggregation.percentile values (f64_of_Z 99)
  else if decide (a ∈ ["p50"; "median"]) then aggregation.percentile values (f64_of_Z 50)
  else match gm_expression c with
  | Some expr => Some (compute_expression local remote expr (gm_sources c))
  | None => Some (S754_zero false)
  end.

(** The loop over the configured metrics; [false] when a panic ends the task. *)
Fixpoint aggregate_loop (local : gmap string f64) (remote : gmap string (gmap Z f64))
    (l : list (string * GlobalMetricConfig)) (g : gmap string f64) : bool * gmap string f64 :=
  match l with
  | [] => (true, g)
  | (name, c) :: l =>
      match aggregate_one local remote c with
      | None => (false, g)
      | Some v => aggregate_loop local remote l (<[name := v]> g)
      end
  end.

(** One iteration of [aggregate_global] *)
Definition aggregate_tick (global_config : gmap string GlobalMetricConfig) (n : AutoQueuesNode) :
    bool * AutoQueuesNode :=
  let '(ok, g) := aggregate_loop (aq_local n) (aq_remote n) (hm_iter global_config) (aq_global n) in
  (ok, mkAqNode (aq_node_id n) (aq_local n) g (aq_remote n) (aq_running n) (aq_config n)
         (aq_my_config n)).
End node.
