(* ===== verification/MetricsNodeProps.v ===== *)
(** * Theorems about the metrics node

    Percentiles are order statistics of the values, maxima and minima bound them,
    an aggregation round updates exactly the configured metrics, the table of
    remote metrics holds the latest value of each node, and where the code
    departs from its description. *)

From Stdlib Require Import SpecFloat.
From S2P Require Import Prelude DdlTypes Text Config ConfigProps Floats MetricsNode.
#[local] Open Scope Z_scope.
#[local] Arguments String.append : simpl never.
#[local] Arguments strip_prefix : simpl never.

(** ** Percentiles *)

Lemma percentile_index_lt p len : (0 < len → aggregation.percentile_index p len < len)%nat.
Proof. unfold aggregation.percentile_index. lia. Qed.

(** Up to a thousand values, the rank is [p] percent of the last index, rounded
    to the nearest with halves up, whatever the arithmetic of floats. *)
Lemma percentile_rank (p : Z) (len : nat) :
  p ∈ [50; 95; 99] → (0 < len ≤ 1000)%nat →
  aggregation.percentile_index (f64_of_Z p) len = Z.to_nat ((p * (Z.of_nat len - 1) + 50) / 100).
Proof.
  intros Hp Hlen.
  assert (Forall (λ p, Forall (λ len, aggregation.percentile_index (f64_of_Z p) len =
    Z.to_nat ((p * (Z.of_nat len - 1) + 50) / 100)) (seq 1 1000)) [50; 95; 99]) as Hall.
  { apply (bool_decide_unpack _). vm_compute. exact I. }
  eapply Forall_forall in Hall; [|exact Hp]. eapply Forall_forall in Hall; [exact Hall|].
  apply elem_of_seq. lia.
Qed.

(** [percentile] panics exactly on two or more values with a NaN among
    them; otherwise, on a non-empty list, it returns the element at the rounded
    rank of the values sorted by [<=], so one of the values, with that many of
    them below or equal and the others above or equal. *)
Theorem percentile_spec values p :
  (aggregation.percentile values p = None ↔
     (2 ≤ length values)%nat ∧ ∃ v, v ∈ values ∧ is_nan v = true) ∧
  ∀ v, values ≠ [] → aggregation.percentile values p = Some v →
    ∃ below above, values ≡ₚ below ++ v :: above ∧
      length below = aggregation.percentile_index p (length values) ∧
      Forall (λ x, f64_le x v) below ∧ Forall (λ x, f64_le v x) above.
Proof.
  assert (aggregation.sort_panics values = true ↔
     (2 ≤ length values)%nat ∧ ∃ v, v ∈ values ∧ is_nan v = true) as Hpanic.
  { unfold aggregation.sort_panics. rewrite andb_true_iff, bool_decide_eq_true, existsb_exists.
    by setoid_rewrite list_elem_of_In. }
  unfold aggregation.percentile. destruct values as [|x values]; [split; [split; [done|simpl; lia]|done]|].
  set (vs := x :: values) in *. split.
  - rewrite <- Hpanic. destruct (aggregation.sort_panics vs); [done|]. split; [|done].
    rewrite lookup_ge_None, f64_sort_perm.
    pose proof (percentile_index_lt p (length vs) ltac:(simpl; lia)). lia.
  - intros v _. destruct (aggregation.sort_panics vs); [done|]. intros Hv.
    pose proof (f64_sort_sorted vs) as Hs. pose proof (f64_sort_perm vs) as Hp.
    exists (take (aggregation.percentile_index p (length vs)) (f64_sort vs)),
      (drop (S (aggregation.percentile_index p (length vs))) (f64_sort vs)).
    pose proof (take_drop_middle _ _ _ Hv) as Hmid. rewrite <- Hmid in Hs. split_and!.
    + by rewrite Hmid.
    + rewrite length_take. apply lookup_lt_Some in Hv. lia.
    + apply Forall_forall. intros y Hy.
      eapply (StronglySorted_app_1_elem_of f64_le); [exact Hs|exact Hy|left].
    + apply StronglySorted_app_1_r in Hs. by apply StronglySorted_inv in Hs as [_ ?].
Qed.

Lemma percentile_spec_witness :
  ∃ below above, [f64_of_Z 10; f64_of_Z 30; f64_of_Z 20] ≡ₚ below ++ f64_of_Z 20 :: above ∧
    length below = 1%nat ∧
    Forall (λ x, f64_le x (f64_of_Z 20)) below ∧ Forall (λ x, f64_le (f64_of_Z 20) x) above.
Proof.
  destruct (percentile_spec [f64_of_Z 10; f64_of_Z 30; f64_of_Z 20] (f64_of_Z 50)) as [_ Hs].
  exact (Hs (f64_of_Z 20) ltac:(done) eq_refl).
Defined.

(** ** Maximum and minimum *)

Section extremes.
Context (op : f64 → f64 → f64) (R : f64 → f64 → Prop) `{!PreOrder R} (start : f64).
Hypothesis op_nan_r : ∀ a, is_nan a = false → op a S754_nan = a.
Hypothesis op_spec : ∀ a b, is_nan a = false → is_nan b = false →
  R a (op a b) ∧ R b (op a b) ∧ (op a b = a ∨ op a b = b).

Lemma fold_extreme acc values :
  is_nan acc = false →
  let r := foldl op acc values in
  is_nan r = false ∧ R acc r ∧ (∀ v, v ∈ values → is_nan v = false → R v r) ∧
  (r = acc ∨ r ∈ values).
Proof.
  revert acc. induction values as [|x values IH]; intros acc Ha; simpl.
  { split_and!; [done|reflexivity| |by left]. intros v Hv. by apply not_elem_of_nil in Hv. }
  destruct (is_nan x) eqn:Ex.
  - destruct x; try done. rewrite op_nan_r by done. destruct (IH acc Ha) as (H1 & H2 & H3 & H4).
    split_and!; [done|done| |].
    + intros v [->|Hv]%elem_of_cons Hn; [done|auto].
    + destruct H4; [by left|right; by right].
  - destruct (op_spec acc x Ha Ex) as (Hr1 & Hr2 & Hop).
    assert (is_nan (op acc x) = false) as Hn by (by destruct Hop as [-> | ->]).
    destruct (IH _ Hn) as (H1 & H2 & H3 & H4). split_and!; [done|by etrans| |].
    + intros v [->|Hv]%elem_of_cons Hv'; [by etrans|auto].
    + destruct H4 as [H4|]; [|right; by right]. rewrite H4.
      destruct Hop as [-> | ->]; [by left|right; by left].
Qed.
End extremes.

(** [max] and [min] ignore NaN: every other value lies between them, and
    each is one of the values or the infinity it starts from (which it is for an
    empty list). *)
Theorem max_min_spec values :
  (∀ v, v ∈ values → is_nan v = false →
     f64_le v (aggregation.max values) ∧ f64_le (aggregation.min values) v) ∧
  (aggregation.max values = NEG_INFINITY ∨ aggregation.max values ∈ values) ∧
  (aggregation.min values = INFINITY ∨ aggregation.min values ∈ values).
Proof.
  destruct (fold_extreme f64_max f64_le ltac:(by intros [] ?) f64_max_spec NEG_INFINITY values
    eq_refl) as (_ & _ & H1 & H2).
  destruct (fold_extreme f64_min (flip f64_le) ltac:(by intros [] ?) f64_min_spec INFINITY values
    eq_refl) as (_ & _ & H3 & H4).
  split_and!; [|done|done]. intros v Hv Hn. split; [by apply H1|by apply H3].
Qed.

Lemma max_min_spec_witness :
  f64_le (f64_of_Z 7) (aggregation.max [f64_of_Z 7; S754_nan; f64_of_Z 9]) ∧
  f64_le (aggregation.min [f64_of_Z 7; S754_nan; f64_of_Z 9]) (f64_of_Z 7).
Proof.
  destruct (max_min_spec [f64_of_Z 7; S754_nan; f64_of_Z 9]) as [H _].
  exact (H (f64_of_Z 7) ltac:(left) eq_refl).
Defined.

(** ** An aggregation round *)

Section rounds.
Context `{HashOrder}.
Variable sum_sign : bool.

(** The values of the sources, on this node and on the others: one for each
    source this node has and one for each node a source was received from. *)
Definition gathered (n : AutoQueuesNode) (sources : list string) : list f64 :=
  sources ≫= λ s, option_list (aq_local n !! s) ++ (map_to_list (default ∅ (aq_remote n !! s))).*2.

Definition gathered_remote (n : AutoQueuesNode) (sources : list string) : list f64 :=
  sources ≫= λ s, (map_to_list (default ∅ (aq_remote n !! s))).*2.

(** The sum from left to right, divided by the number; zero of nothing. *)
Definition is_mean (values : list f64) (v : f64) : Prop :=
  (values = [] ∧ v = S754_zero false) ∨
  (values ≠ [] ∧ v = f64_div (foldl f64_add (S754_zero sum_sign) values) (f64_of_Z (Z.of_nat (length values)))).

(** One of the values, with [rank] others below or equal and the rest above or
    equal; zero of nothing. *)
Definition is_percentile (p : Z) (values : list f64) (v : f64) : Prop :=
  (values = [] ∧ v = S754_zero false) ∨
  ∃ below above, values ≡ₚ below ++ v :: above ∧
    Forall (λ x, f64_le x v) below ∧ Forall (λ x, f64_le v x) above ∧
    length below = aggregation.percentile_index (f64_of_Z p) (length values) ∧
    (length values ≤ 1000 →
     length below = Z.to_nat ((p * (Z.of_nat (length values) - 1) + 50) / 100))%nat.

(** What the value [v] of a metric is, given the values [values] of its sources and
    those of the other nodes, [others]. *)
Record aggregated (n : AutoQueuesNode) (c : GlobalMetricConfig) (values others : list f64) (v : f64) :
    Prop := {
  ag_avg : gm_aggregation c = "avg" → is_mean values v;
  ag_sum : gm_aggregation c = "sum" → v = foldl f64_add (S754_zero sum_sign) values;
  ag_max : gm_aggregation c = "max" →
    (∀ x, x ∈ values → is_nan x = false → f64_le x v) ∧ (v ∈ values ∨ v = NEG_INFINITY);
  ag_min : gm_aggregation c = "min" →
    (∀ x, x ∈ values → is_nan x = false → f64_le v x) ∧ (v ∈ values ∨ v = INFINITY);
  ag_p50 : gm_aggregation c = "p50" ∨ gm_aggregation c = "median" → is_percentile 50 values v;
  ag_p95 : gm_aggregation c = "p95" → is_percentile 95 values v;
  ag_p99 : gm_aggregation c = "p99" → is_percentile 99 values v;
  ag_other : gm_aggregation c ∉ ["avg"; "sum"; "max"; "min"; "p50"; "median"; "p95"; "p99"] →
    match gm_expression c with
    | Some e => is_mean (eval_expression (aq_local n) e :: others) v
    | None => v = S754_zero false
    end;
}.

(** The percentiles of two or more values with a NaN among them. *)
Definition panics (c : GlobalMetricConfig) (values : list f64) : Prop :=
  gm_aggregation c ∈ ["p50"; "median"; "p95"; "p99"] ∧
  (2 ≤ length values)%nat ∧ ∃ x, x ∈ values ∧ is_nan x = true.

Lemma hm_values_perm `{Countable K} {V} (m : gmap K V) : hm_values m ≡ₚ (map_to_list m).*2.
Proof. unfold hm_values. by rewrite hm_iter_perm. Qed.

Lemma remote_values_perm (r : gmap string (gmap Z f64)) s :
  match r !! s with Some nodes => hm_values nodes | None => [] end ≡ₚ
  (map_to_list (default ∅ (r !! s))).*2.
Proof. destruct (r !! s); simpl; [apply hm_values_perm|by rewrite map_to_list_empty]. Qed.

Lemma bind_perm_ext {A B} (f g : A → list B) l : (∀ x, f x ≡ₚ g x) → l ≫= f ≡ₚ l ≫= g.
Proof. intros Hfg. induction l as [|x l IH]; [done|]. simpl. by rewrite Hfg, IH. Qed.

Lemma collect_all_values_perm n sources :
  collect_all_values (aq_local n) (aq_remote n) sources ≡ₚ gathered n sources.
Proof. apply bind_perm_ext. intros s. by rewrite remote_values_perm. Qed.

Lemma avg_is_mean values : is_mean values (aggregation.avg sum_sign values).
Proof. destruct values; [by left|by right]. Qed.

Lemma percentile_is_percentile p values v :
  p ∈ [50; 95; 99] → aggregation.percentile values (f64_of_Z p) = Some v → is_percentile p values v.
Proof.
  intros Hp Hv. destruct (decide (values = [])) as [->|Hne]; [left; by simplify_eq/=|right].
  destruct (proj2 (percentile_spec values (f64_of_Z p)) v Hne Hv) as (below & above & Hperm & Hl & Hb & Ha).
  exists below, above. split_and!; [done..|]. intros Hlen. rewrite Hl. apply percentile_rank; [done|].
  destruct values; simpl in *; [done|lia].
Qed.

Lemma percentile_Some p values :
  is_Some (aggregation.percentile values p) ↔
    ¬ ((2 ≤ length values)%nat ∧ ∃ x, x ∈ values ∧ is_nan x = true).
Proof.
  rewrite <- (proj1 (percentile_spec values p)). by rewrite not_eq_None_Some.
Qed.

Lemma aggregate_one_Some local remote c :
  is_Some (aggregate_one sum_sign local remote c) ↔
    ¬ panics c (collect_all_values local remote (gm_sources c)).
Proof.
  unfold aggregate_one, panics.
  set (values := collect_all_values _ _ _).
  assert (∀ (x : f64) (P Q : Prop), ¬ P → is_Some (Some x) ↔ ¬ (P ∧ Q)) as HS by (split; [tauto|by eexists]).
  assert (∀ p (P : Prop), P → is_Some (aggregation.percentile values p) ↔
    ¬ (P ∧ (2 ≤ length values)%nat ∧ ∃ x, x ∈ values ∧ is_nan x = true)) as HP
    by (intros p P HP; rewrite percentile_Some; tauto).
  generalize (gm_aggregation c) as a. intros a.
  do 4 (case_decide; [subst a; by apply HS, (bool_decide_unpack _)|]).
  do 2 (case_decide; [subst a; by apply HP, (bool_decide_unpack _)|]).
  case_decide as Hm; [apply HP; set_solver|].
  destruct (gm_expression c); apply HS; set_solver.
Qed.

Lemma aggregate_one_spec n c v :
  aggregate_one sum_sign (aq_local n) (aq_remote n) c = Some v →
  ∃ values others, values ≡ₚ gathered n (gm_sources c) ∧ others ≡ₚ gathered_remote n (gm_sources c) ∧
    aggregated n c values others v.
Proof.
  intros Hv. eexists (collect_all_values (aq_local n) (aq_remote n) (gm_sources c)), _.
  split_and!; [apply collect_all_values_perm| |].
  { apply bind_perm_ext. intros s. apply (remote_values_perm (aq_remote n) s). }
  unfold aggregate_one in Hv. set (values := collect_all_values _ _ _) in *.
  destruct (max_min_spec values) as (Hm & Hmax & Hmin).
  split; intros Ha; rewrite ?Ha in Hv; simplify_eq/=.
  - apply avg_is_mean.
  - done.
  - split; [intros x Hx Hn; by apply Hm|tauto].
  - split; [intros x Hx Hn; by apply Hm|tauto].
  - destruct Ha as [Ha|Ha]; rewrite Ha in Hv;
      (apply percentile_is_percentile; [set_solver|exact Hv]).
  - apply percentile_is_percentile; [set_solver|exact Hv].
  - apply percentile_is_percentile; [set_solver|exact Hv].
  - rewrite !decide_False in Hv by set_solver. destruct (gm_expression c); simplify_eq; [|done].
    apply avg_is_mean.
Qed.

Lemma aggregate_loop_spec local remote l g :
  NoDup l.*1 →
  let '(ok, g') := aggregate_loop sum_sign local remote l g in
  (ok = true ↔ ∀ name c, (name, c) ∈ l → is_Some (aggregate_one sum_sign local remote c)) ∧
  (ok = true → ∀ name c, (name, c) ∈ l → g' !! name = aggregate_one sum_sign local remote c) ∧
  (∀ name, name ∉ l.*1 → g' !! name = g !! name).
Proof.
  revert g. induction l as [|[name c] l IH]; intros g Hnd.
  { simpl. split_and!; [split; [|done]| |done]; intros _ ? ? Hin; by apply not_elem_of_nil in Hin. }
  cbn [aggregate_loop]. rewrite fmap_cons in Hnd. apply NoDup_cons in Hnd as [Hni Hnd].
  destruct (aggregate_one sum_sign local remote c) as [v|] eqn:Ev.
  - specialize (IH (<[name := v]> g) Hnd). destruct (aggregate_loop _ _ _ _ _) as [ok g'].
    destruct IH as (H1 & H2 & H3). split_and!.
    + rewrite H1. split; intros Hall name' c'.
      * intros [[= -> ->]|Hin]%elem_of_cons; [by rewrite Ev|by eapply Hall].
      * intros Hin. eapply Hall. by right.
    + intros Hok name' c' [[= -> ->]|Hin]%elem_of_cons; [|by apply H2].
      rewrite H3 by done. by rewrite lookup_insert_eq.
    + intros name' [Hne Hn]%not_elem_of_cons. rewrite H3 by done. by apply lookup_insert_ne.
  - split_and!; [|done..]. split; [done|]. intros Hall.
    destruct (Hall name c ltac:(left)) as [v Hv]. congruence.
Qed.

(** C33: A round of global aggregation completes exactly when no configured
    metric is a percentile of two or more values with a NaN among them (the
    panic that ends the task).  When it completes, the value of every configured
    metric is, over the values that this node and the others have of its
    sources: for [avg] the sum divided by their number, for [sum] the sum, for
    [max] and [min] the bound of all that are not NaN, and one of them or the
    infinity, for a percentile the value with its rank of them below or equal
    and the others above or equal (the rank being the percentage of the last
    index, rounded), and otherwise the mean of the expression on this node and
    the other nodes' values, or zero.  No other metric, and no local or
    remote value, changes in any round. *)
Theorem aggregate_tick_spec global_config n ok n' :
  aggregate_tick sum_sign global_config n = (ok, n') →
  (ok = true ↔ ∀ name c, global_config !! name = Some c → ¬ panics c (gathered n (gm_sources c))) ∧
  (ok = true → ∀ name c, global_config !! name = Some c →
     ∃ values others v, values ≡ₚ gathered n (gm_sources c) ∧
       others ≡ₚ gathered_remote n (gm_sources c) ∧
       aggregated n c values others v ∧ aq_global n' !! name = Some v) ∧
  (∀ name, global_config !! name = None → aq_global n' !! name = aq_global n !! name) ∧
  aq_local n' = aq_local n ∧ aq_remote n' = aq_remote n.
Proof.
  unfold aggregate_tick.
  pose proof (aggregate_loop_spec (aq_local n) (aq_remote n) (hm_iter global_config) (aq_global n)
    (NoDup_hm_keys global_config)) as Hl.
  destruct (aggregate_loop _ _ _ _ _) as [b g]. destruct Hl as (H1 & H2 & H3). intros [= <- <-].
  assert (b = true ↔ ∀ name c, global_config !! name = Some c →
    is_Some (aggregate_one sum_sign (aq_local n) (aq_remote n) c)) as H1'
    by (rewrite H1; by setoid_rewrite elem_of_hm_iter).
  split_and!; [| | |done..]; simpl.
  - rewrite H1'. setoid_rewrite aggregate_one_Some. unfold panics.
    by setoid_rewrite collect_all_values_perm.
  - intros Hok name c Hc. destruct (proj1 H1' Hok name c Hc) as [v Hv].
    destruct (aggregate_one_spec n c v Hv) as (values & others & Hp & Hq & Ha).
    exists values, others, v. split_and!; [done..|]. rewrite <- Hv. by apply H2, elem_of_hm_iter.
  - intros name Hn. apply H3. intros Hin%(elem_of_hm_keys global_config). rewrite Hn in Hin. by destruct Hin.
Qed.

(** The health score of the generated configuration names an expression, but
    its aggregation is [avg], so the expression is not used. *)
Lemma health_score_ignores_expression n base local remote c :
  c_global (local_test n base) !! "node_health_score" = Some c →
  gm_expression c = Some "(100 - cpu) + memory_free" ∧
  aggregate_one sum_sign local remote c =
    Some (aggregation.avg sum_sign (collect_all_values local remote ["cpu"; "memory_free"])).
Proof. intros Hc. vm_compute in Hc. by injection Hc as <-. Qed.
End rounds.

Lemma aggregate_tick_spec_witness :
  let _ := canonical_order in
  let n := mkAqNode 1 {["cpu" := f64_of_Z 5]} ∅ {["cpu" := {[2 := f64_of_Z 7]}]} true Config_default
             (mkNodeCfg "h" 1 2 3 4) in
  let c := mkGlobal "p95" ["cpu"] 1000 None in
  let n' := (aggregate_tick false {["m" := c]} n).2 in
  aq_global n' !! "m" = Some (f64_of_Z 7) ∧
  ∃ values others v, values ≡ₚ gathered n ["cpu"] ∧ others ≡ₚ gathered_remote n ["cpu"] ∧
    aggregated false n c values others v ∧ aq_global n' !! "m" = Some v.
Proof.
  intros H n c n'. split; [by vm_compute|].
  destruct (aggregate_tick_spec false {["m" := c]} n true n') as (_ & Hg & _); [by vm_compute|].
  exact (Hg eq_refl "m" c ltac:(by vm_compute)).
Defined.

(** ** Remote metrics *)

Section remote.
Context `{Codec MetricMessage}.

(** The value a received message carries for a metric of a node. *)
Definition message_value (name : string) (node : Z) (m : string * bytes) : option f64 :=
  msg ← dec m.2;
  if decide (default m.1 (strip_prefix "metric:" m.1) = name ∧ mm_node_id msg = node)
  then Some (mm_value msg) else None.

Definition remote_value (r : gmap string (gmap Z f64)) (name : string) (node : Z) : option f64 :=
  nodes ← r !! name; nodes !! node.

Lemma receive_one_value r m name node :
  remote_value (receive_one r m) name node =
  match message_value name node m with Some v => Some v | None => remote_value r name node end.
Proof.
  unfold receive_one, message_value, remote_value. destruct (dec m.2) as [msg|]; simpl; [|done].
  set (nm := default m.1 (strip_prefix "metric:" m.1)).
  case_decide as Hd.
  - destruct Hd as [-> <-]. rewrite lookup_insert_eq. simpl. by rewrite lookup_insert_eq.
  - destruct (decide (name = nm)) as [->|Hne]; [|by rewrite lookup_insert_ne by done].
    rewrite lookup_insert_eq. simpl. rewrite lookup_insert_ne by naive_solver.
    destruct (r !! nm); simpl; [done|apply lookup_empty].
Qed.

(** After any received messages the table of remote metrics holds, for each
    metric and node, the value of the latest message about it, and what it held
    before when there was none; data that cannot be decoded changes nothing. *)
Theorem receive_tick_latest ms n name node :
  remote_value (aq_remote (receive_tick ms n)) name node =
  match last (omap (message_value name node) ms) with
  | Some v => Some v
  | None => remote_value (aq_remote n) name node
  end.
Proof.
  unfold receive_tick. simpl. generalize (aq_remote n) as r. induction ms as [|m ms IH]; intros r; [done|].
  simpl. rewrite IH, receive_one_value.
  destruct (message_value name node m) as [v|]; [|done]. rewrite last_cons.
  by destruct (last _).
Qed.
End remote.

(** The simulated metrics leave their scale: already at the first tick of node 1
    the CPU load is over 100 percent and the free memory is negative, because the
    remainder applies to the tick count only. *)
Lemma simulated_metrics_out_of_range :
  partial_cmp (sample_cpu 1 1) (f64_of_Z 100) = Some Gt ∧
  partial_cmp (sample_memory_free 1 1) (S754_zero false) = Some Lt.
Proof. by vm_compute. Qed.
