(* ===== verification/Zmq.v ===== *)
(** * ZeroMQ publish and subscribe (src/network/pubsub/zmq.rs,
    src/network/pubsub/zmq/transport.rs, src/network/raft_transport.rs,
    src/network/hybrid.rs), and its use by the metrics node (src/node.rs)

    A broker hands publications to a thread that owns its PUB socket; subscribers
    are SUB sockets by name.  The sockets are ZeroMQ's: their calls end as the
    arguments say, and which messages a subscription takes is the interface
    [ZmqPattern]. *)

From S2P Require Import Prelude DdlTypes Text Config Floats MetricsNode TcpTransport.
#[local] Open Scope Z_scope.
#[local] Arguments String.append : simpl never.

(** ** Text as bytes *)

Definition str_bytes (s : string) : bytes := Z.of_nat <$> string_bytes s.

Fixpoint bytes_str (l : bytes) : string :=
  match l with [] => "" | b :: l => String (Ascii.ascii_of_nat (Z.to_nat b)) (bytes_str l) end.

Definition starts_in (lo hi : Z) (l : bytes) : bool :=
  match l with x :: _ => bool_decide (lo ≤ x ≤ hi) | [] => false end.

(** The character a byte string starts with: its length when it is well formed,
    or the length of the ill-formed part that one replacement stands for. *)
Definition utf8_head (l : bytes) : nat + nat :=
  match l with
  | [] => inr 0%nat
  | a :: r =>
      if bool_decide (a < 128) then inl 1%nat
      else if bool_decide (194 ≤ a ≤ 223) then
        if starts_in 128 191 r then inl 2%nat else inr 1%nat
      else if bool_decide (224 ≤ a ≤ 239) then
        if starts_in (if bool_decide (a = 224) then 160 else 128)
             (if bool_decide (a = 237) then 159 else 191) r then
          if starts_in 128 191 (tail r) then inl 3%nat else inr 2%nat
        else inr 1%nat
      else if bool_decide (240 ≤ a ≤ 244) then
        if starts_in (if bool_decide (a = 240) then 144 else 128)
             (if bool_decide (a = 244) then 143 else 191) r then
          if starts_in 128 191 (tail r) then
            if starts_in 128 191 (tail (tail r)) then inl 4%nat else inr 3%nat
          else inr 2%nat
        else inr 1%nat
      else inr 1%nat
  end.

Fixpoint lossy_go (fuel : nat) (l : bytes) : bytes :=
  match fuel, l with
  | S fuel, _ :: _ =>
      match utf8_head l with
      | inl n => take n l ++ lossy_go fuel (drop n l)
      | inr n => [239; 191; 189] ++ lossy_go fuel (drop n l)
      end
  | _, _ => []
  end.

(** [String::from_utf8_lossy] *)
Definition from_utf8_lossy (l : bytes) : string := bytes_str (lossy_go (length l) l).

(** Every Rust [String] is well-formed UTF-8. *)
Fixpoint utf8_go (fuel : nat) (l : bytes) : bool :=
  match fuel, l with
  | _, [] => true
  | S fuel, _ => match utf8_head l with inl n => utf8_go fuel (drop n l) | inr _ => false end
  | O, _ => false
  end.

Definition is_utf8 (s : string) : bool := utf8_go (length (str_bytes s)) (str_bytes s).

(** [str::split_once] *)
Fixpoint split_once (sep : Ascii.ascii) (s : string) : option (string * string) :=
  match s with
  | "" => None
  | String c s =>
      if decide (c = sep) then Some ("", s)
      else (λ p, (String c p.1, p.2)) <$> split_once sep s
  end.

(** ** Frames *)

Definition zmq_frame (topic : string) (data : bytes) : bytes := str_bytes topic ++ [0] ++ data.

(** Topic and payload around the first zero byte. *)
Fixpoint separator_pos (l : bytes) : option nat :=
  match l with
  | [] => None
  | b :: l => if decide (b = 0) then Some 0%nat else S <$> separator_pos l
  end.

Definition split_frame (data : bytes) : option (string * bytes) :=
  pos ← separator_pos data;
  Some (from_utf8_lossy (take pos data), drop (S pos) data).

(** ** The thread of the PUB socket *)

Inductive SocketCommand := Publish (topic : string) (data : bytes) | Connect (addr : string) | Shutdown.

(** The commands it has not received, whether it still receives, its socket when
    it has one, and the frames it sent. *)
Record PubThread := mkPub {
  pt_commands : list SocketCommand;
  pt_receiving : bool;
  pt_socket : bool;
  pt_sent : list bytes;
}.

(** The broker's thread ends at once when its socket cannot be made or bound. *)
Definition broker_thread_new (socket bind : result string unit) : PubThread :=
  match socket, bind with
  | Ok _, Ok _ => mkPub [] true true []
  | _, _ => mkPub [] false false []
  end.

(** The client's thread connects a socket later. *)
Definition client_thread_new : PubThread := mkPub [] true false [].

(** The frame of a publication, unless the send fails. *)
Definition send_frame (send : result string unit) (topic : string) (data : bytes) : list bytes :=
  match send with Ok _ => [zmq_frame topic data] | Err _ => [] end.

Definition broker_thread_step (send : result string unit) (t : PubThread) : PubThread :=
  if pt_receiving t then
    match pt_commands t with
    | [] => t
    | Publish topic data :: cs => mkPub cs true (pt_socket t) (pt_sent t ++ send_frame send topic data)
    | Connect _ :: cs => mkPub cs true (pt_socket t) (pt_sent t)
    | Shutdown :: cs => mkPub cs false false (pt_sent t)
    end
  else t.

(** [connected] is the outcome of making and connecting a new socket. *)
Definition client_thread_step (connected send : result string unit) (t : PubThread) : PubThread :=
  if pt_receiving t then
    match pt_commands t with
    | [] => t
    | Connect _ :: cs =>
        mkPub cs true (match connected with Ok _ => true | Err _ => pt_socket t end) (pt_sent t)
    | Publish topic data :: cs =>
        mkPub cs true (pt_socket t)
          (pt_sent t ++ if pt_socket t then send_frame send topic data else [])
    | Shutdown :: cs => mkPub cs false false (pt_sent t)
    end
  else t.

Definition send_command (what : string) (c : SocketCommand) (t : PubThread) :
    result string unit * PubThread :=
  if pt_receiving t then (Ok tt, mkPub (pt_commands t ++ [c]) true (pt_socket t) (pt_sent t))
  else (Err ("Failed to send " +:+ what +:+ " command: channel closed"), t).

(** [publish] of both, on the thread; [json_error] is serde's message. *)
Definition zmq_publish `{Codec T} (json_error : string) (topic : string) (data : T) (t : PubThread) :
    result string unit * PubThread :=
  match enc data with
  | None => (Err json_error, t)
  | Some message => send_command "publish" (Publish topic message) t
  end.

(** ** SUB sockets *)

(** ZMQ_SUBSCRIBE takes the messages that begin with the given bytes. *)
Class ZmqPattern := {
  accepts : bytes → bytes → bool;
  accepts_prefix : ∀ pattern message, accepts pattern message = true ↔ pattern `prefix_of` message;
}.

Record SubSocket := mkSub { ss_addr : string; ss_pattern : bytes; ss_inbox : list bytes }.

Definition arrive `{ZmqPattern} (s : SubSocket) (message : bytes) : SubSocket :=
  if accepts (ss_pattern s) message
  then mkSub (ss_addr s) (ss_pattern s) (ss_inbox s ++ [message]) else s.

(** The map of subscribers behind its lock. *)
Record Subscribers := mkSubscribers { sb_map : gmap string SubSocket; sb_poisoned : bool }.

Definition LOCK_SUBSCRIBERS : string := "Failed to lock subscribers: poisoned lock: another task failed inside".
Definition LOCK_SUBSCRIPTIONS : string := "Failed to lock subscriptions: poisoned lock: another task failed inside".

Definition subscriber_id (pattern addr : string) : string := pattern +:+ "@" +:+ addr.

(** Making the socket, connecting it and subscribing, each of which may fail. *)
Definition sub_subscribe (socket connect set_subscribe : result string unit)
    (topic_pattern connect_addr : string) (s : Subscribers) : result string string * Subscribers :=
  match (_ ← socket; _ ← connect; set_subscribe) with
  | Err e => (Err e, s)
  | Ok _ =>
      if sb_poisoned s then (Err LOCK_SUBSCRIBERS, s)
      else
        let id := subscriber_id topic_pattern connect_addr in
        (Ok id, mkSubscribers (<[id := mkSub connect_addr (str_bytes topic_pattern) []]> (sb_map s)) false)
  end.

(** [recv_error] is an error of the socket other than having no message. *)
Definition sub_receive (recv_error : option string) (id : string) (s : Subscribers) :
    result string (option (string * bytes)) * Subscribers :=
  if sb_poisoned s then (Err LOCK_SUBSCRIBERS, s)
  else match sb_map s !! id with
  | None => (Ok None, s)
  | Some k =>
      match recv_error, ss_inbox k with
      | Some e, _ => (Err e, s)
      | None, [] => (Ok None, s)
      | None, data :: inbox =>
          (Ok (split_frame data),
           mkSubscribers (<[id := mkSub (ss_addr k) (ss_pattern k) inbox]> (sb_map s)) false)
      end
  end.

Definition sub_unsubscribe (id : string) (s : Subscribers) : result string unit * Subscribers :=
  if sb_poisoned s then (Err LOCK_SUBSCRIBERS, s)
  else (Ok tt, mkSubscribers (delete id (sb_map s)) false).

(** ** The broker *)

Record ZmqPubSubBroker := mkBroker {
  zb_thread : PubThread;
  zb_subscribers : Subscribers;
  zb_subscriptions : gmap string (list string);
  zb_subscriptions_poisoned : bool;
}.

Definition DEFAULT_BIND : string := "tcp://*:6967".

(** Making a broker never fails: what the socket does shows in its thread. *)
Definition broker_with_bind_addr (socket bind : result string unit) (bind_addr : string) :
    result string ZmqPubSubBroker :=
  Ok (mkBroker (broker_thread_new socket bind) (mkSubscribers ∅ false) ∅ false).

Definition broker_new (socket bind : result string unit) : result string ZmqPubSubBroker :=
  broker_with_bind_addr socket bind DEFAULT_BIND.

Definition broker_publish `{Codec T} (json_error topic : string) (data : T) (b : ZmqPubSubBroker) :
    result string unit * ZmqPubSubBroker :=
  let '(r, t) := zmq_publish json_error topic data (zb_thread b) in
  (r, mkBroker t (zb_subscribers b) (zb_subscriptions b) (zb_subscriptions_poisoned b)).

Definition broker_subscribe (socket connect set_subscribe : result string unit)
    (topic_pattern connect_addr : string) (b : ZmqPubSubBroker) : result string string * ZmqPubSubBroker :=
  let '(r, s) := sub_subscribe socket connect set_subscribe topic_pattern connect_addr (zb_subscribers b) in
  match r with
  | Err e => (Err e, mkBroker (zb_thread b) s (zb_subscriptions b) (zb_subscriptions_poisoned b))
  | Ok id =>
      if zb_subscriptions_poisoned b
      then (Err LOCK_SUBSCRIPTIONS, mkBroker (zb_thread b) s (zb_subscriptions b) true)
      else (Ok id, mkBroker (zb_thread b) s
              (<[topic_pattern := default [] (zb_subscriptions b !! topic_pattern) ++ [connect_addr]]>
                 (zb_subscriptions b)) false)
  end.

Definition broker_receive (recv_error : option string) (id : string) (b : ZmqPubSubBroker) :
    result string (option (string * bytes)) * ZmqPubSubBroker :=
  let '(r, s) := sub_receive recv_error id (zb_subscribers b) in
  (r, mkBroker (zb_thread b) s (zb_subscriptions b) (zb_subscriptions_poisoned b)).

Definition subscription_stats (b : ZmqPubSubBroker) : gmap string nat :=
  if zb_subscriptions_poisoned b then ∅ else length <$> zb_subscriptions b.

Definition broker_unsubscribe (id : string) (b : ZmqPubSubBroker) :
    result string unit * ZmqPubSubBroker :=
  if sb_poisoned (zb_subscribers b) then (Err LOCK_SUBSCRIBERS, b)
  else if zb_subscriptions_poisoned b then (Err LOCK_SUBSCRIPTIONS, b)
  else
    let subscriptions :=
      match split_once (Ascii.ascii_of_nat 64) id with
      | Some (topic_pattern, connect_addr) =>
          alter (filter (λ addr, addr ≠ connect_addr)) topic_pattern (zb_subscriptions b)
      | None => zb_subscriptions b
      end in
    let '(r, s) := sub_unsubscribe id (zb_subscribers b) in
    (r, mkBroker (zb_thread b) s subscriptions false).

(** ** The client *)

Record ZmqPubSubClient := mkClient { zc_thread : PubThread; zc_subscribers : Subscribers }.

Definition client_new : result string ZmqPubSubClient :=
  Ok (mkClient client_thread_new (mkSubscribers ∅ false)).

Definition connect_publisher (addr : string) (c : ZmqPubSubClient) : result string unit * ZmqPubSubClient :=
  let '(r, t) := send_command "connect" (Connect addr) (zc_thread c) in (r, mkClient t (zc_subscribers c)).

Definition client_publish `{Codec T} (json_error topic : string) (data : T) (c : ZmqPubSubClient) :
    result string unit * ZmqPubSubClient :=
  let '(r, t) := zmq_publish json_error topic data (zc_thread c) in (r, mkClient t (zc_subscribers c)).

Definition client_subscribe (socket connect set_subscribe : result string unit)
    (topic_pattern connect_addr : string) (c : ZmqPubSubClient) : result string string * ZmqPubSubClient :=
  let '(r, s) := sub_subscribe socket connect set_subscribe topic_pattern connect_addr (zc_subscribers c) in
  (r, mkClient (zc_thread c) s).

Definition client_receive (recv_error : option string) (id : string) (c : ZmqPubSubClient) :
    result string (option (string * bytes)) * ZmqPubSubClient :=
  let '(r, s) := sub_receive recv_error id (zc_subscribers c) in (r, mkClient (zc_thread c) s).

Definition client_unsubscribe (id : string) (c : ZmqPubSubClient) : result string unit * ZmqPubSubClient :=
  let '(r, s) := sub_unsubscribe id (zc_subscribers c) in (r, mkClient (zc_thread c) s).

(** ** Subscriptions of the metrics node (src/node.rs) *)

(** The client subscribes to every address; a failure is passed over.  [connect]
    is what ZeroMQ answers for an endpoint. *)
Definition subscribe_metrics (connect : string → result string unit) (other_nodes : list string)
    (c : ZmqPubSubClient) : list string * ZmqPubSubClient :=
  foldl (λ '(ids, c) addr,
    match client_subscribe (Ok tt) (connect addr) (Ok tt) "metric:" addr c with
    | (Ok id, c') => (ids ++ [id], c')
    | (Err _, c') => (ids, c')
    end) ([], c) other_nodes.

(** [while let Ok(Some(_)) = cl.receive(sub_id)], at most [fuel] times. *)
Fixpoint drain_loop (fuel : nat) (id : string) (c : ZmqPubSubClient) :
    list (string * bytes) * ZmqPubSubClient :=
  match fuel with
  | O => ([], c)
  | S fuel =>
      match client_receive None id c with
      | (Ok (Some m), c') => let '(ms, c'') := drain_loop fuel id c' in (m :: ms, c'')
      | (_, c') => ([], c')
      end
  end.

(** More receptions than there are messages. *)
Definition drain_fuel (id : string) (c : ZmqPubSubClient) : nat :=
  S (match sb_map (zc_subscribers c) !! id with Some k => length (ss_inbox k) | None => 0 end).

(** One iteration of [subscribe_and_receive] over its subscriber ids. *)
Fixpoint receive_subscribed `{Codec MetricMessage} (ids : list string) (c : ZmqPubSubClient)
    (n : AutoQueuesNode) : ZmqPubSubClient * AutoQueuesNode :=
  match ids with
  | [] => (c, n)
  | id :: ids =>
      let '(ms, c') := drain_loop (drain_fuel id c) id c in
      receive_subscribed ids c' (receive_tick ms n)
  end.

(** ** Requests over a REQ socket (src/network/pubsub/zmq/transport.rs) *)

Inductive TransportType := Rdma | Tcp | InMemory | ZeroMQ.

Record ConnectionInfo := mkConnInfo {
  ci_remote_addr : string;
  ci_transport_type : TransportType;
  ci_connected_at : Z;
}.

(** The endpoints its socket was connected to, oldest first. *)
Record ZmqTransport := mkZmqTransport {
  zt_endpoints : list string;
  zt_connection_info : option ConnectionInfo;
  zt_remote_addr : string;
}.

Definition zmq_transport_new (socket : result string unit) : result string ZmqTransport :=
  _ ← socket; Ok (mkZmqTransport [] None "").

Inductive NodeMessage :=
| RequestValue (queue_name : string)
| ValueResponse (queue_name : string) (value : option f64)
| RequestExpression (sources : list string)
| ExpressionResponse (sources : list string) (score : option f64)
| RequestAggregation (queue_name operation : string) (args : list string)
| AggregationResponse (result : f64)
| BroadcastValue (queue_name : string) (value : f64).

Section requests.
(** [text.parse::<SocketAddr>()] printed back *)
Variable parse_socket_addr : string → option string.
Context `{Codec NodeMessage}.

Definition lost_at (addr : string) : TransportError :=
  ConnectionLost (default "0.0.0.0:0" (parse_socket_addr addr)).

Definition zmq_connect (connect : result string unit) (now : Z) (addr : string) (t : ZmqTransport) :
    result TransportError ConnectionInfo * ZmqTransport :=
  match connect with
  | Err _ => (Err (lost_at addr), t)
  | Ok _ => (Ok (mkConnInfo addr ZeroMQ now),
             mkZmqTransport (zt_endpoints t ++ [addr]) (zt_connection_info t) (zt_remote_addr t))
  end.

Definition zmq_send (send : result string unit) (t : ZmqTransport) : result TransportError unit :=
  map_err (λ _, lost_at (zt_remote_addr t)) send.

Definition zmq_recv (recv : result string bytes) (t : ZmqTransport) : result TransportError bytes :=
  map_err (λ _, lost_at (zt_remote_addr t)) recv.

Definition is_connected (t : ZmqTransport) : bool := bool_decide (is_Some (zt_connection_info t)).

(** What the socket answers during a request, and the messages of other crates. *)
Record RequestIo := mkRequestIo {
  rq_socket : result string unit;
  rq_connect : result string unit;
  rq_send : result string unit;
  rq_recv : result string bytes;
  rq_now : Z;
  rq_json_error : string;
}.

Definition send_message (io : RequestIo) (addr : string) (message : NodeMessage) (t : ZmqTransport) :
    result string bytes * ZmqTransport :=
  match enc message with
  | None => (Err (rq_json_error io), t)
  | Some data =>
      let '(c, t) := if negb (is_connected t) then
                       let '(r, t) := zmq_connect (rq_connect io) (rq_now io) addr t in
                       (_ ← map_err TransportError_fmt r; Ok tt, t)
                     else (Ok tt, t) in
      (_ ← c; _ ← map_err TransportError_fmt (zmq_send (rq_send io) t); Ok data, t)
  end.

(** The common course of the three requests: the bytes sent, and the answer. *)
Definition request {A} (io : RequestIo) (addr : string) (message : NodeMessage)
    (pick : NodeMessage → option A) : result string A :=
  t ← zmq_transport_new (rq_socket io);
  let '(s, t) := send_message io ("tcp://" +:+ addr) message t in
  _ ← s;
  data ← map_err TransportError_fmt (zmq_recv (rq_recv io) t);
  match dec data with
  | None => Err (rq_json_error io)
  | Some m => match pick m with Some a => Ok a | None => Err "Unexpected response type" end
  end.

Definition request_value (io : RequestIo) (addr queue_name : string) : result string (option f64) :=
  request io addr (RequestValue queue_name)
    (λ m, match m with ValueResponse _ v => Some v | _ => None end).

Definition request_expression_score (io : RequestIo) (addr : string) (sources : list string) :
    result string (option f64) :=
  request io addr (RequestExpression sources)
    (λ m, match m with ExpressionResponse _ v => Some v | _ => None end).

Definition request_aggregation (io : RequestIo) (addr queue_name operation : string) (args : list string) :
    result string f64 :=
  request io addr (RequestAggregation queue_name operation args)
    (λ m, match m with AggregationResponse r => Some r | _ => None end).
End requests.

(** ** The ZeroMQ Raft network (src/network/raft_transport.rs) *)

Record ZmqRaftNetwork := mkZmqRaft { zr_peers : gmap Z (string * Z) }.

Definition get_address (node_id : Z) (n : ZmqRaftNetwork) : string :=
  match zr_peers n !! node_id with
  | Some (host, port) => "tcp://" +:+ host +:+ ":" +:+ pretty port
  | None => "tcp://localhost:0"
  end.

(** [send_append_entries], [send_vote] and [send_install_snapshot] are alike: a
    socket is made and connected, nothing is sent, and the answer is empty. *)
Definition send_raft (socket : result string unit) (connect : string → result string unit)
    (target : Z) (data : bytes) (n : ZmqRaftNetwork) : result string bytes :=
  _ ← socket; _ ← connect (get_address target n); Ok [].

(** ** Choice of transport (src/network/hybrid.rs) *)

Inductive TransportConfig :=
| TcpConfig (bind_addr : string) (max_connections : Z)
| ZmqConfig (bind_addr : string).

Definition bind_addr (c : TransportConfig) : string :=
  match c with TcpConfig a _ => a | ZmqConfig a => a end.
Definition is_tcp (c : TransportConfig) : bool := match c with TcpConfig _ _ => true | _ => false end.
Definition is_zmq (c : TransportConfig) : bool := match c with ZmqConfig _ => true | _ => false end.
Definition TransportConfig_default : TransportConfig := TcpConfig "0.0.0.0:0" 100.

Definition create_tcp (c : TransportConfig) : result string TcpTransport :=
  match c with
  | TcpConfig a max_connections => Ok (transport_new a max_connections)
  | ZmqConfig _ => Err "TransportConfig is not TCP"
  end.
