(* ===== verification/ZmqProps.v ===== *)
(** * ZeroMQ publish and subscribe: what subscribers receive *)

From S2P Require Import Prelude DdlTypes Text Config Floats MetricsNode TcpTransport Zmq.
#[local] Open Scope Z_scope.
#[local] Arguments String.append : simpl never.

(** ** Text and frames *)

Lemma bytes_str_bytes s : bytes_str (str_bytes s) = s.
Proof.
  unfold str_bytes. induction s as [|c s IH]; [done|]. cbn [string_bytes fmap list_fmap bytes_str].
  rewrite Nat2Z.id, Ascii.ascii_nat_embedding. by f_equal.
Qed.

Lemma lossy_utf8 fuel l : utf8_go fuel l = true → lossy_go fuel l = l.
Proof.
  revert l. induction fuel as [|fuel IH]; intros [|b l] Hu; try done.
  cbn [utf8_go lossy_go] in *. destruct (utf8_head (b :: l)) as [n|n]; [|done].
  rewrite IH by done. apply take_drop.
Qed.

Lemma from_utf8_lossy_str s : is_utf8 s = true → from_utf8_lossy (str_bytes s) = s.
Proof. intros Hu. unfold from_utf8_lossy. rewrite lossy_utf8 by done. apply bytes_str_bytes. Qed.

(** Topics that survive the frame. *)
Definition plain (s : string) : Prop := is_utf8 s = true ∧ 0 ∉ str_bytes s.

#[export] Instance plain_dec s : Decision (plain s).
Proof. unfold plain. apply _. Defined.

Lemma separator_pos_app a d : 0 ∉ a → separator_pos (a ++ [0] ++ d) = Some (length a).
Proof.
  induction a as [|b a IH]; intros Hn; [done|]. simpl.
  rewrite decide_False by set_solver. simpl in IH. rewrite IH by set_solver. done.
Qed.

Lemma split_zmq_frame topic d : plain topic → split_frame (zmq_frame topic d) = Some (topic, d).
Proof.
  intros [Hu Hz]. unfold split_frame, zmq_frame. rewrite separator_pos_app by done. simpl.
  rewrite take_app_length, from_utf8_lossy_str by done.
  by rewrite drop_app_ge, Nat.sub_succ_l, Nat.sub_diag by lia.
Qed.

(** A topic with a zero byte is cut there, and the rest is taken for payload. *)
Lemma split_frame_nul : split_frame (zmq_frame (bytes_str [97; 0; 98]) [1]) = Some ("a", [98; 0; 1]).
Proof. reflexivity. Qed.

(** A pattern without a zero byte selects by the topic alone. *)
Lemma prefix_frame p topic d : 0 ∉ p → p `prefix_of` zmq_frame topic d ↔ p `prefix_of` str_bytes topic.
Proof.
  intros Hp. unfold zmq_frame. split.
  - generalize (str_bytes topic) as l. induction p as [|b p IH]; intros l Hl; [apply prefix_nil|].
    destruct l as [|a l]; simpl in Hl.
    + apply prefix_cons_inv_1 in Hl. set_solver.
    + pose proof (prefix_cons_inv_1 _ _ _ _ Hl) as ->. apply prefix_cons, IH; [set_solver|].
      by eapply prefix_cons_inv_2.
  - intros Hl. by apply prefix_app_r.
Qed.

(** ** The publishing thread *)

Definition publications {T} (pubs : list (string * T)) (ds : list bytes) : list SocketCommand :=
  zip_with Publish pubs.*1 ds.

Lemma publish_all `{Codec T} err (pubs : list (string * T)) ds cs :
  mapM enc pubs.*2 = Some ds →
  foldl (λ t p, (zmq_publish err p.1 p.2 t).2) (mkPub cs true true []) pubs =
    mkPub (cs ++ publications pubs ds) true true [].
Proof.
  revert ds cs. induction pubs as [|[topic x] pubs IH]; intros ds cs Hm; simpl in Hm.
  { simplify_eq. by rewrite app_nil_r. }
  apply bind_Some in Hm as (d & Hd & Hm). apply bind_Some in Hm as (ds' & Hds & [= <-]). simpl.
  unfold zmq_publish. rewrite Hd. simpl. rewrite (IH ds') by done. by rewrite <- app_assoc.
Qed.

(** The thread sends the frames whose send succeeds; the others are dropped. *)
Lemma thread_sends (topics : list string) ds sends sent :
  ∃ frames, pt_sent (foldl (flip broker_thread_step) (mkPub (zip_with Publish topics ds) true true sent) sends) =
      sent ++ frames ∧
    frames `sublist_of` zip_with zmq_frame topics ds ∧
    (Forall (eq (Ok tt)) sends → length topics ≤ length sends →
     frames = zip_with zmq_frame topics ds)%nat.
Proof.
  revert ds sends sent. induction topics as [|t topics IH]; intros ds sends sent.
  { exists []. rewrite app_nil_r. split_and!; [|done..]. by induction sends. }
  destruct ds as [|d ds].
  { exists []. rewrite app_nil_r. split_and!; [|done..]. by induction sends. }
  destruct sends as [|o sends].
  { exists []. rewrite app_nil_r. split_and!; [done|apply sublist_nil_l|simpl; lia]. }
  destruct (IH ds sends (sent ++ send_frame o t d)) as (frames & Hs & Hsub & Hall).
  exists (send_frame o t d ++ frames). split_and!.
  - by rewrite (assoc_L (++)).
  - destruct o; [by apply sublist_skip|by apply sublist_cons].
  - intros [<- Hok]%Forall_cons Hl. simpl in *. by rewrite Hall by (done || lia).
Qed.

(** ** The receiving socket *)

Lemma arrive_all `{ZmqPattern} s frames :
  foldl arrive s frames =
    mkSub (ss_addr s) (ss_pattern s) (ss_inbox s ++ filter (λ m, ss_pattern s `prefix_of` m) frames).
Proof.
  revert s. induction frames as [|m frames IH]; intros s; simpl.
  { rewrite filter_nil, app_nil_r. by destruct s. }
  rewrite IH. unfold arrive. rewrite filter_cons. destruct (accepts (ss_pattern s) m) eqn:Ha.
  - rewrite decide_True by (by apply accepts_prefix). simpl. by rewrite <- app_assoc.
  - rewrite decide_False; [done|]. intros Hp%accepts_prefix. congruence.
Qed.

(** Draining a socket whose frames all have a separator. *)
Lemma drain_inbox fuel id th m addr p inbox ms :
  (length inbox < fuel)%nat → mapM split_frame inbox = Some ms →
  (drain_loop fuel id (mkClient th (mkSubscribers (<[id := mkSub addr p inbox]> m) false))).1 = ms.
Proof.
  revert m inbox ms. induction fuel as [|fuel IH]; intros m inbox ms Hf Hm; [lia|].
  cbn [drain_loop]. unfold client_receive, sub_receive. simpl. rewrite lookup_insert_eq. simpl.
  destruct inbox as [|f inbox]; simpl in Hm; [by injection Hm as <-|].
  apply bind_Some in Hm as (x & Hx & Hm). apply bind_Some in Hm as (xs & Hxs & [= <-]).
  rewrite Hx. simpl in Hf.
  specialize (IH (<[id := mkSub addr p (f :: inbox)]> m) inbox xs ltac:(lia) Hxs).
  by destruct (drain_loop fuel id _) as [ms c]; simpl in *; subst.
Qed.

Lemma frames_split p (l : list (string * bytes)) :
  Forall plain l.*1 → 0 ∉ p →
  filter (λ m, p `prefix_of` m) (uncurry zmq_frame <$> l) =
    uncurry zmq_frame <$> filter (λ m, p `prefix_of` str_bytes m.1) l ∧
  mapM split_frame (uncurry zmq_frame <$> filter (λ m, p `prefix_of` str_bytes m.1) l) =
    Some (filter (λ m, p `prefix_of` str_bytes m.1) l).
Proof.
  intros Ht Hp. induction l as [|[t d] l IH]; [done|].
  apply Forall_cons in Ht as [Ht [IHf IHs]%IH]. rewrite fmap_cons, !filter_cons. simpl.
  destruct (decide (p `prefix_of` str_bytes t)) as [Hpt|Hpt].
  - rewrite (decide_True _ _) by (by apply prefix_frame).
    rewrite !fmap_cons, IHf. split; [done|]. apply mapM_Some in IHs. apply mapM_Some.
    constructor; [by apply split_zmq_frame|done].
  - by rewrite (decide_False _ _) by (by rewrite prefix_frame).
Qed.

Lemma sublist_fmap_inv {A B} (f : A → B) k (l : list A) :
  k `sublist_of` f <$> l → ∃ l', k = f <$> l' ∧ l' `sublist_of` l.
Proof.
  revert k. induction l as [|x l IH]; intros k Hk; simpl in Hk.
  { apply sublist_nil_r in Hk as ->. by exists []. }
  apply sublist_cons_r in Hk as [Hk|(k' & -> & Hk)]; destruct (IH _ Hk) as (l' & -> & Hl).
  - exists l'. split; [done|]. by apply sublist_cons.
  - exists (x :: l'). split; [done|]. by apply sublist_skip.
Qed.

Lemma filter_sublist {A} (P : A → Prop) `{∀ x, Decision (P x)} (k l : list A) :
  k `sublist_of` l → filter P k `sublist_of` filter P l.
Proof.
  induction 1 as [|x k l Hs IH|x k l Hs IH]; [done|..]; rewrite !filter_cons; case_decide; auto using sublist.
Qed.

Lemma Forall_sublist {A} (P : A → Prop) k l : k `sublist_of` l → Forall P l → Forall P k.
Proof. induction 1; intros Hf; [done|..]; apply Forall_cons in Hf as [? ?]; auto. Qed.

Lemma sublist_same_length {A} (k l : list A) : k `sublist_of` l → length k = length l → k = l.
Proof.
  induction 1 as [|x k l Hs IH|x k l Hs IH]; intros Hl; [done|f_equal; naive_solver|].
  apply sublist_length in Hs. simpl in Hl. lia.
Qed.

(** C32: publications may be lost: a send may fail (the thread only prints it),
    and of the frames sent any part may miss the subscriber's socket, as PUB and
    SUB sockets drop what is beyond their limits or before the subscription.  A
    subscriber that drains its socket gets one message for every frame that did
    reach it and begins with its pattern, in their order, each with the topic
    and the payload of its publication; so it gets a subsequence of the
    publications whose topic begins with its pattern, and all of them when every
    send succeeds and every frame arrives.  Every payload encodes (and may hold any bytes), topics
    and pattern no zero byte. *)
Theorem pubsub_delivers `{Codec T} `{ZmqPattern} err (pubs : list (string * T)) ds
    (sends : list (result string unit)) (reached : list bytes)
    (pattern addr id : string) (c : ZmqPubSubClient) :
  let queued := foldl (λ t p, (zmq_publish err p.1 p.2 t).2) (broker_thread_new (Ok tt) (Ok tt)) pubs in
  let sent := pt_sent (foldl (flip broker_thread_step) queued sends) in
  let received := (drain_loop (drain_fuel id c) id c).1 in
  let matching := filter (λ m, str_bytes pattern `prefix_of` str_bytes m.1) (zip pubs.*1 ds) in
  Forall plain pubs.*1 → 0 ∉ str_bytes pattern → mapM enc pubs.*2 = Some ds →
  sb_poisoned (zc_subscribers c) = false →
  reached `sublist_of` sent →
  sb_map (zc_subscribers c) !! id = Some (foldl arrive (mkSub addr (str_bytes pattern) []) reached) →
  uncurry zmq_frame <$> received = filter (λ m, str_bytes pattern `prefix_of` m) reached ∧
  received `sublist_of` matching ∧
  (Forall (eq (Ok tt)) sends → (length pubs ≤ length sends)%nat → reached = sent → received = matching).
Proof.
  intros queued sent received matching Ht Hp Hm Hpo Hr Hs. destruct c as [th [m po]].
  cbn [zc_subscribers sb_poisoned sb_map] in Hpo, Hs. subst po.
  unfold sent, queued, broker_thread_new in *. rewrite (publish_all _ _ ds) in * by done.
  destruct (thread_sends pubs.*1 ds sends []) as (frames & Hsent & Hsub & Hall).
  unfold publications in *. simpl in Hsent. simpl app in *. rewrite Hsent in *.
  assert (zip_with zmq_frame pubs.*1 ds = uncurry zmq_frame <$> zip pubs.*1 ds) as Hz.
  { clear. generalize pubs.*1. intros ts. revert ds. induction ts as [|t ts IH]; intros [|d ds]; try done.
    simpl. by rewrite IH. }
  rewrite Hz in *. assert (reached `sublist_of` uncurry zmq_frame <$> zip pubs.*1 ds) as Hr' by (by trans frames).
  apply sublist_fmap_inv in Hr' as (l & -> & Hl).
  assert (length pubs.*1 = length ds) as Hlen.
  { apply mapM_Some, Forall2_length in Hm. by rewrite !length_fmap in *. }
  assert (Forall plain l.*1) as Htl.
  { apply (Forall_sublist _ _ (zip pubs.*1 ds).*1); [by rewrite Hl|]. by rewrite fst_zip by lia. }
  destruct (frames_split (str_bytes pattern) l Htl Hp) as [Hff Hfs].
  rewrite arrive_all in Hs. simpl in Hs. rewrite Hff in Hs.
  assert (received = filter (λ m, str_bytes pattern `prefix_of` str_bytes m.1) l) as ->.
  { unfold received, drain_fuel. cbn [sb_map zc_subscribers]. rewrite Hs. cbn [ss_inbox].
    rewrite <- (insert_id m id _ Hs). apply drain_inbox; [lia|done]. }
  split_and!; [done|by apply filter_sublist|]. intros Hok Hle Heq.
  rewrite length_fmap in Hall. rewrite (Hall Hok Hle) in Heq.
  apply (f_equal length) in Heq. rewrite !length_fmap in Heq.
  unfold matching. f_equal. by apply sublist_same_length.
Qed.

(** ** The metrics node *)

Lemma strip_prefix_app p q s r : strip_prefix (p +:+ q) s = Some r →
  ∃ s', strip_prefix p s = Some s' ∧ strip_prefix q s' = Some r.
Proof.
  revert s. induction p as [|a p IH]; intros s Hs; [by exists s|].
  change (String a p +:+ q) with (String a (p +:+ q)) in Hs. simpl in *.
  destruct s as [|b s]; [done|]. destruct (decide (a = b)); [by apply IH|done].
Qed.

Lemma contains_tail p s s' : strip_prefix p s = Some s' → ∀ q, contains q s' = true → contains q s = true.
Proof.
  revert s. induction p as [|a p IH]; intros s Hs q Hq; simpl in Hs; [by simplify_eq|].
  destruct s as [|b s]; [done|]. destruct (decide (a = b)); [|done].
  simpl. destruct (strip_prefix q (String b s)); [done|]. by eapply IH.
Qed.

Lemma contains_prefix q s r : strip_prefix q s = Some r → contains q s = true.
Proof. intros Hs. destruct s; simpl; by rewrite Hs. Qed.

Lemma contains_app_r p q s : contains (p +:+ q) s = true → contains q s = true.
Proof.
  induction s as [|c s IH]; simpl; intros Hc;
    destruct (strip_prefix (p +:+ q) _) as [r|] eqn:E; try done.
  1,2: apply strip_prefix_app in E as (s' & Hs & Hq);
    apply (contains_tail _ _ _ Hs); by eapply contains_prefix.
  destruct (strip_prefix q (String c s)); [done|]. by apply IH.
Qed.

Lemma collect_results_Ok {E A} (l : list (result E A)) al :
  collect_results l = Ok al → l = Ok <$> al.
Proof.
  revert al. induction l as [|[x|e] l IH]; intros al Hc; simpl in Hc; [by simplify_eq| |done].
  destruct (collect_results l) as [al'|]; simplify_eq/=. by rewrite (IH al').
Qed.

Lemma subscribe_refused connect addrs ids c :
  Forall (λ a, ∃ e, connect a = Err e) addrs →
  foldl (λ '(ids, c) addr,
    match client_subscribe (Ok tt) (connect addr) (Ok tt) "metric:" addr c with
    | (Ok id, c') => (ids ++ [id], c')
    | (Err _, c') => (ids, c')
    end) (ids, c) addrs = (ids, c).
Proof.
  induction 1 as [|a addrs [e He] _ IH]; [done|]. cbn [foldl].
  unfold client_subscribe at 2, sub_subscribe. rewrite He. simpl. by destruct c.
Qed.

(** The metrics node never receives a metric of another node: the addresses
    it subscribes to lack the scheme that every ZeroMQ endpoint has, each
    subscription fails and is passed over, and receiving changes nothing. *)
Theorem node_subscribes_to_nothing `{HashOrder} `{Codec MetricMessage} parse_addr connect
    config n addrs n' c m :
  (∀ a, connect a = Ok tt → contains "://" a = true) →
  (∀ a, parse_addr a = Ok tt → contains "/" a = false) →
  aq_run parse_addr config n = (Ok addrs, n') →
  let '(ids, c') := subscribe_metrics connect addrs c in
  ids = [] ∧ receive_subscribed ids c' m = (c, m).
Proof.
  intros Hconn Hparse Hrun. unfold aq_run in Hrun. simplify_eq. rename H1 into Hrun.
  apply collect_results_Ok in Hrun.
  assert (Forall (λ a, ∃ e, connect a = Err e) addrs) as Hall.
  { apply Forall_forall. intros a Ha.
    assert (Ok a ∈ pubsub_addr parse_addr <$> (other_nodes (aq_node_id n) config).*2) as Hin.
    { rewrite Hrun. by apply list_elem_of_fmap_2. }
    apply list_elem_of_fmap in Hin as (cfg & Hcfg & _). unfold pubsub_addr in Hcfg.
    destruct (parse_addr _) as [[]|e] eqn:Ep; simpl in Hcfg; [|done]. simplify_eq.
    destruct (connect _) as [[]|e] eqn:Ec; [|by eexists].
    apply Hconn, (contains_app_r ":/" "/") in Ec. apply Hparse in Ep. congruence. }
  unfold subscribe_metrics. by rewrite subscribe_refused.
Qed.

(** ** Bookkeeping of subscriptions *)

(** The statistics count a pattern's addresses with repetitions; an unsubscribed
    address is taken out of them only when the pattern has no at sign, because the
    identifier is cut at the first one. *)
Lemma unsubscribe_at_sign b0 :
  broker_with_bind_addr (Ok tt) (Ok tt) "tcp://*:1" = Ok b0 →
  let twice := (broker_subscribe (Ok tt) (Ok tt) (Ok tt) "cpu" "tcp://a:1"
    (broker_subscribe (Ok tt) (Ok tt) (Ok tt) "cpu" "tcp://a:1" b0).2).2 in
  let at_sign := (broker_subscribe (Ok tt) (Ok tt) (Ok tt) "u@h" "tcp://a:1" b0).2 in
  subscription_stats twice !! "cpu" = Some 2%nat ∧
  size (sb_map (zb_subscribers twice)) = 1%nat ∧
  subscription_stats (broker_unsubscribe "cpu@tcp://a:1" twice).2 !! "cpu" = Some 0%nat ∧
  subscription_stats (broker_unsubscribe "u@h@tcp://a:1" at_sign).2 !! "u@h" = Some 1%nat ∧
  sb_map (zb_subscribers (broker_unsubscribe "u@h@tcp://a:1" at_sign).2) = ∅.
Proof. intros [= <-]. vm_compute. repeat split; reflexivity. Qed.

(** A broker whose socket cannot be bound is made all the same, and refuses
    every publication. *)
Lemma unbound_broker_refuses `{Codec T} err e topic (x : T) d b :
  broker_new (Ok tt) (Err e) = Ok b → enc x = Some d →
  broker_publish err topic x b = (Err "Failed to send publish command: channel closed", b).
Proof. intros [= <-] Hd. unfold broker_publish, zmq_publish. rewrite Hd. reflexivity. Qed.

(** A transport is never connected in its own account, so every message connects
    its socket once more. *)
Lemma send_message_reconnects `{Codec NodeMessage} parse io addr msg d t :
  zt_connection_info t = None → enc msg = Some d → rq_connect io = Ok tt →
  let t' := (send_message parse io addr msg t).2 in
  is_connected t' = false ∧ zt_endpoints t' = zt_endpoints t ++ [addr].
Proof.
  destruct t as [eps info ra]. simpl. intros -> Hd Hc. unfold send_message. rewrite Hd. simpl.
  unfold zmq_connect. rewrite Hc. done.
Qed.

(** ** Samples *)

Module Sample.
#[local] Instance prefix_pattern : ZmqPattern.
Proof.
  refine {| accepts p m := bool_decide (p `prefix_of` m) |}.
  intros p m. apply bool_decide_eq_true.
Defined.

#[local] Instance nat_json : Codec nat := bits_codec nat.

Definition pubs : list (string * nat) := 
  [("metric:cpu", 4%nat); ("log", 1%nat); ("metric:mem", 5%nat); ("metric:mem", 6%nat)].

(** The second send fails, and the last frame misses the socket. *)
Definition sends : list (result string unit) := [Ok tt; Err "would block"; Ok tt; Ok tt].

Definition reached : list bytes :=
  zip_with zmq_frame ["metric:cpu"; "metric:mem"] (default [] (mapM enc [4%nat; 5%nat])).

Definition receiver : ZmqPubSubClient :=
  mkClient client_thread_new
    (mkSubscribers {["id" := foldl arrive (mkSub "tcp://a:1" (str_bytes "metric:") []) reached]} false).

Lemma pubsub_delivers_witness :
  let received := (drain_loop (drain_fuel "id" receiver) "id" receiver).1 in
  uncurry zmq_frame <$> received = filter (λ m, str_bytes "metric:" `prefix_of` m) reached ∧
  received `sublist_of`
    [("metric:cpu", default [] (enc 4%nat)); ("metric:mem", default [] (enc 5%nat));
     ("metric:mem", default [] (enc 6%nat))].
Proof.
  edestruct (pubsub_delivers "" pubs (default [] (mapM enc pubs.*2)) sends reached "metric:" "tcp://a:1" "id" receiver)
    as (Hf & Hs & _).
  - apply (bool_decide_unpack _). vm_compute. exact I.
  - apply (bool_decide_unpack _). vm_compute. exact I.
  - reflexivity.
  - reflexivity.
  - unfold reached. vm_compute. do 2 apply sublist_skip. apply sublist_nil_l.
  - reflexivity.
  - split; [exact Hf|exact Hs].
Defined.

#[local] Instance no_json : Codec MetricMessage.
Proof. by refine {| enc _ := None; dec _ := None |}. Defined.

Definition zmq_endpoint (a : string) : result string unit :=
  if contains "://" a then Ok tt else Err "Invalid argument".

Definition socket_addr (a : string) : result string unit :=
  if contains "/" a then Err "invalid socket address syntax" else Ok tt.

Definition node : AutoQueuesNode :=
  mkAqNode 1 ∅ ∅ ∅ false (local_test 2 7000) (mkNodeCfg "127.0.0.1" 7100 7101 7102 7103).

Lemma node_subscribes_to_nothing_witness :
  let _ := canonical_order in
  ∃ a n', aq_run socket_addr (local_test 2 7000) node = (Ok [a], n') ∧
  let '(ids, c') := subscribe_metrics zmq_endpoint [a] receiver in
  ids = [] ∧ receive_subscribed ids c' n' = (receiver, n').
Proof.
  intros HO. eexists _, _. split; [vm_compute; reflexivity|].
  eapply (node_subscribes_to_nothing socket_addr zmq_endpoint (local_test 2 7000) node).
  - intros a. unfold zmq_endpoint. by destruct (contains "://" a).
  - intros a. unfold socket_addr. by destruct (contains "/" a).
  - vm_compute. reflexivity.
Defined.
End Sample.
