(* ===== verification/Persistence.v ===== *)
(** * Sample files (src/queue/persistence.rs)

    A background thread per queue appends the samples of the queue to a file
    through a buffer; a manager hands out reference-counted handles.  The text of
    a float printed with its shortest representation is a parameter.  How each
    write to the file ends, and how much of it a failed one wrote, is an argument;
    the source ignores the errors. *)

From Stdlib Require Import SpecFloat.
From S2P Require Import Prelude DdlTypes Text Config Floats.
#[local] Open Scope Z_scope.
#[local] Arguments String.append : simpl never.

Inductive PersistEvent := Data (timestamp : Z) (value : f64) | Flush | Shutdown.

(** ** Lines *)

(** [trunc()] and [fract()] *)
Definition f64_trunc (x : f64) : f64 :=
  match x with
  | S754_finite s m e =>
      let z := trunc_Z s m e in if decide (z = 0) then S754_zero s else f64_of_Z z
  | _ => x
  end.

Definition f64_fract (x : f64) : f64 := f64_sub x (f64_trunc x).

(** [{:03}] *)
Definition pad3 (n : Z) : string :=
  if decide (n < 10) then "00" +:+ pretty n
  else if decide (n < 100) then "0" +:+ pretty n
  else pretty n.

Definition thousandths (v : f64) : Z := f64_as_u64 (SFabs (f64_mul (f64_fract v) (f64_of_Z 1000))).

(** The first [n] characters of a text, and the others. *)
Fixpoint str_take (n : nat) (s : string) : string :=
  match n, s with S n, String a s => String a (str_take n s) | _, _ => "" end.

Fixpoint str_drop (n : nat) (s : string) : string :=
  match n, s with S n, String _ s => str_drop n s | _, _ => s end.

Section lines.
Variable show_f64 : f64 → string.

(** The pieces that one [writeln!] writes. *)
Definition line_pieces (c : PersistenceConfig) (timestamp : Z) (v : f64) : list string :=
  if ps_include_timestamp c then
    [pretty timestamp; ","; pretty (f64_as_i64 v); "."; pad3 (thousandths v); String newline ""]
  else [show_f64 v; String newline ""].

Definition line (c : PersistenceConfig) (timestamp : Z) (v : f64) : string :=
  join "" (line_pieces c timestamp v).

(** ** The buffered writer *)

(** The file, the buffer, and how many times the file was written to. *)
Record Writer := mkWriter { w_file : string; w_buf : string; w_writes : nat }.

(** [BufWriter::with_capacity(64 * 1024, file)] *)
Definition BUFFER_CAPACITY : nat := 64 * 1024.

(** A write of all bytes given, or an error after the first [n] of them. *)
Inductive disk_outcome := DiskOk | DiskError (n : nat).

Variable disk : nat → disk_outcome.

(** How much of a text reaches the file, and whether that is all of it. *)
Definition reached (o : disk_outcome) (s : string) : bool * nat :=
  match o with
  | DiskOk => (true, String.length s)
  | DiskError n => (false, Nat.min n (pred (String.length s)))
  end.

(** [BufWriter::flush_buf]: what a failed write took leaves the buffer, the rest
    stays for the next attempt. *)
Definition flush_buf (w : Writer) : bool * Writer :=
  if decide (w_buf w = "") then (true, w)
  else
    let '(ok, n) := reached (disk (w_writes w)) (w_buf w) in
    (ok, mkWriter (w_file w +:+ str_take n (w_buf w)) (str_drop n (w_buf w)) (S (w_writes w))).

(** [write_all] of one piece: the buffer is emptied first when the piece does
    not fit, and a piece as large as the buffer bypasses it. *)
Definition write_piece (p : string) (w : Writer) : bool * Writer :=
  let '(ok, w) := if decide (BUFFER_CAPACITY < String.length (w_buf w) + String.length p)%nat
                  then flush_buf w else (true, w) in
  if ok then
    if decide (BUFFER_CAPACITY ≤ String.length p)%nat then
      let '(ok, n) := reached (disk (w_writes w)) p in
      (ok, mkWriter (w_file w +:+ str_take n p) (w_buf w) (S (w_writes w)))
    else (true, mkWriter (w_file w) (w_buf w +:+ p) (w_writes w))
  else (false, w).

(** [writeln!]: the first piece that fails is the last. *)
Fixpoint write_pieces (ps : list string) (w : Writer) : bool * Writer :=
  match ps with
  | [] => (true, w)
  | p :: ps =>
      match write_piece p w with
      | (true, w') => write_pieces ps w'
      | (false, w') => (false, w')
      end
  end.

(** ** The thread *)

Record Thread := mkThread { th_writer : Writer; th_last_flush : Z; th_ended : bool }.

(** What [recv_timeout] gives, with the clock in milliseconds. *)
Inductive recv_result := Received (e : PersistEvent) | TimedOut (now : Z) | Disconnected.

Definition set_writer (t : Thread) (w : Writer) : Thread := mkThread w (th_last_flush t) (th_ended t).

(** Leaving the loop drops the writer, which tries to flush it. *)
Definition end_thread (t : Thread) : Thread :=
  mkThread (flush_buf (th_writer t)).2 (th_last_flush t) true.

(** One iteration of the loop of [persistence_thread]; the results of [writeln!] and
    [flush] are dropped. *)
Definition thread_step (c : PersistenceConfig) (t : Thread) (r : recv_result) : Thread :=
  if th_ended t then t
  else match r with
  | Received (Data timestamp value) =>
      set_writer t (write_pieces (line_pieces c timestamp value) (th_writer t)).2
  | Received Flush => set_writer t (flush_buf (th_writer t)).2
  | Received Shutdown => end_thread (set_writer t (flush_buf (th_writer t)).2)
  | TimedOut now =>
      if decide (ps_flush_interval_ms c ≤ now - th_last_flush t)
      then mkThread (flush_buf (th_writer t)).2 now (th_ended t)
      else t
  | Disconnected => end_thread t
  end.

Definition thread_run (c : PersistenceConfig) (t : Thread) (rs : list recv_result) : Thread :=
  foldl (thread_step c) t rs.
End lines.

(** ** Handles *)

(** A handle: the events sent and not yet received, whether its thread still
    receives, whether [handle] still holds the thread, and the number of [Arc]s. *)
Record QueuePersistence := mkQp {
  qp_events : list PersistEvent;
  qp_receiving : bool;
  qp_joinable : bool;
  qp_strong : nat;
}.

(** [QueuePersistence::new]; a thread that cannot open its file panics and with
    it goes the receiver. *)
Definition qp_new (create_dir : result string unit) (opened : bool) :
    result string QueuePersistence :=
  _ ← create_dir; Ok (mkQp [] opened true 1).

Definition send_event (e : PersistEvent) (q : QueuePersistence) : QueuePersistence :=
  if qp_receiving q
  then mkQp (qp_events q ++ [e]) (qp_receiving q) (qp_joinable q) (qp_strong q)
  else q.

Definition persist (now : Z) (value : f64) (q : QueuePersistence) : QueuePersistence :=
  send_event (Data now value) q.

Definition qp_flush (q : QueuePersistence) : QueuePersistence := send_event Flush q.

(** [shutdown] and the body of [Drop]: send, then join; after the join the
    thread has received everything up to the shutdown. *)
Definition join_thread (q : QueuePersistence) : QueuePersistence :=
  if qp_joinable q then mkQp [] false false (qp_strong q) else q.

Definition qp_shutdown (q : QueuePersistence) : QueuePersistence :=
  join_thread (send_event Shutdown q).

Definition qp_drop (q : QueuePersistence) : QueuePersistence :=
  if qp_joinable q then join_thread (send_event Shutdown q) else q.

(** [Arc::clone], and dropping an [Arc]: the value is dropped with the last one. *)
Definition set_strong (n : nat) (q : QueuePersistence) : QueuePersistence :=
  mkQp (qp_events q) (qp_receiving q) (qp_joinable q) n.

Definition arc_clone (q : QueuePersistence) : QueuePersistence := set_strong (S (qp_strong q)) q.

Definition arc_drop (q : QueuePersistence) : QueuePersistence :=
  let q' := set_strong (pred (qp_strong q)) q in
  if decide (qp_strong q' = 0%nat) then qp_drop q' else q'.

(** ** The manager *)

(** Handles live in a store; the map names them. *)
Record PersistenceManager := mkManager {
  pm_handles : gmap string nat;
  pm_default_config : PersistenceConfig;
  pm_store : list QueuePersistence;
  pm_poisoned : bool;
}.

Definition manager_new (c : PersistenceConfig) : PersistenceManager := mkManager ∅ c [] false.

Definition with_store (m : PersistenceManager) handles store : PersistenceManager :=
  mkManager handles (pm_default_config m) store (pm_poisoned m).

(** The returned handle is one more [Arc]. *)
Definition enable_for_queue (create_dir : result string unit) (opened : bool) (name : string)
    (m : PersistenceManager) : result string nat * PersistenceManager :=
  if pm_poisoned m then (Err "Lock poisoned", m)
  else match pm_handles m !! name with
  | Some h => (Ok h, with_store m (pm_handles m) (alter arc_clone h (pm_store m)))
  | None =>
      match qp_new create_dir opened with
      | Err e => (Err e, m)
      | Ok q =>
          let h := length (pm_store m) in
          (Ok h, with_store m (<[name := h]> (pm_handles m)) (pm_store m ++ [arc_clone q]))
      end
  end.

Definition get_handle (name : string) (m : PersistenceManager) :
    option nat * PersistenceManager :=
  if pm_poisoned m then (None, m)
  else match pm_handles m !! name with
  | Some h => (Some h, with_store m (pm_handles m) (alter arc_clone h (pm_store m)))
  | None => (None, m)
  end.

(** [shutdown_all]: clones every handle of the map, then drops the clones. *)
Definition shutdown_all `{HashOrder} (m : PersistenceManager) : PersistenceManager :=
  if pm_poisoned m then m
  else
    let hs := hm_values (pm_handles m) in
    let cloned := foldl (λ s h, alter arc_clone h s) (pm_store m) hs in
    with_store m (pm_handles m) (foldl (λ s h, alter arc_drop h s) cloned hs).
