(* ===== verification/PersistenceProps.v ===== *)
(** * Theorems about the sample files

    Everything a thread received before it ends is in its file, in order, when no
    write fails; whatever fails, nothing is written twice or out of order; a busy
    thread does not flush; shutting the manager down stops no thread; and values
    between -1 and 0 lose their sign. *)

From Stdlib Require Import SpecFloat.
From S2P Require Import Prelude DdlTypes Text Config Floats Persistence.
#[local] Open Scope Z_scope.
#[local] Arguments String.append : simpl never.

Section thread.
Variable show_f64 : f64 → string.
Variable disk : nat → disk_outcome.
Implicit Types (c : PersistenceConfig) (t : Thread) (w : Writer).

(** All text given to a writer, whether it reached the file or not. *)
Definition written w : string := w_file w +:+ w_buf w.

Abbreviation chars := String.list_ascii_of_string.

Lemma chars_app a b : chars (a +:+ b) = chars a ++ chars b.
Proof.
  induction a as [|x a IH]; [done|]. change (String x a +:+ b) with (String x (a +:+ b)).
  simpl. by rewrite IH.
Qed.

Lemma str_take_drop n s : str_take n s +:+ str_drop n s = s.
Proof.
  revert s. induction n as [|n IH]; intros [|a s]; try done. cbn [str_take str_drop].
  change (String a (str_take n s) +:+ str_drop n s) with (String a (str_take n s +:+ str_drop n s)).
  by rewrite IH.
Qed.

Lemma str_take_all s : str_take (String.length s) s = s.
Proof. induction s as [|a s IH]; [done|]. simpl. by rewrite IH. Qed.

Lemma str_drop_all s : str_drop (String.length s) s = "".
Proof. induction s as [|a s IH]; [done|]. simpl. by rewrite IH. Qed.

Lemma str_take_sub n s : sublist (chars (str_take n s)) (chars s).
Proof.
  rewrite <- (str_take_drop n s) at 2. rewrite chars_app. apply sublist_inserts_r. done.
Qed.

(** Flushing moves text to the file, whether it succeeds or not. *)
Lemma written_flush w : written (flush_buf disk w).2 = written w.
Proof.
  unfold written, flush_buf. case_decide; [done|]. destruct (reached _ _) as [ok n]. simpl.
  by rewrite string_app_assoc, str_take_drop.
Qed.

(** A piece is added whole, or in part, or not at all. *)
Lemma written_piece p w :
  sublist (chars (written (write_piece disk p w).2)) (chars (written w +:+ p)).
Proof.
  unfold write_piece. pose proof (written_flush w) as Hf. rewrite chars_app.
  destruct (decide (BUFFER_CAPACITY < _)%nat) as [Hc|Hc].
  - unfold flush_buf in *. destruct (decide (w_buf w = "")) as [He|He].
    + case_decide.
      * destruct (reached _ p) as [ok n]. unfold written. simpl. rewrite He, !string_app_nil_r, !chars_app.
        apply sublist_app; [done|apply str_take_sub].
      * unfold written. simpl. rewrite !chars_app, app_assoc. done.
    + unfold reached in *. destruct (disk (w_writes w)) as [|n].
      * rewrite str_take_all, str_drop_all. cbn [w_file w_buf w_writes]. case_decide.
        -- destruct (disk _) as [|n]; unfold written; simpl;
             rewrite !string_app_nil_r, !chars_app; (apply sublist_app; [done|apply str_take_sub]).
        -- unfold written. simpl. by rewrite !chars_app.
      * cbn [fst snd] in *. rewrite Hf. by apply sublist_inserts_r.
  - case_decide.
    + assert (w_buf w = "") as He.
      { destruct (w_buf w) as [|a b] eqn:E; [done|]. exfalso.
        change (String.length (String a b)) with (S (String.length b)) in Hc. lia. }
      destruct (reached _ p) as [ok n]. unfold written. simpl. rewrite He, !string_app_nil_r, !chars_app.
      apply sublist_app; [done|apply str_take_sub].
    + unfold written. simpl. by rewrite !chars_app, app_assoc.
Qed.

Lemma join_cons p ps : join "" (p :: ps) = p +:+ join "" ps.
Proof. destruct ps; [by rewrite string_app_nil_r|done]. Qed.

Lemma written_pieces ps w :
  sublist (chars (written (write_pieces disk ps w).2)) (chars (written w +:+ join "" ps)).
Proof.
  revert w. induction ps as [|p ps IH]; intros w; [cbn; by rewrite string_app_nil_r|].
  cbn [write_pieces]. pose proof (written_piece p w) as Hp. rewrite join_cons, <- string_app_assoc, chars_app.
  destruct (write_piece disk p w) as [[] w'].
  - etrans; [apply IH|]. rewrite chars_app. by apply sublist_app.
  - by apply sublist_inserts_r.
Qed.

(** The lines of the samples received before the thread ends. *)
Fixpoint received_lines c (rs : list recv_result) : string :=
  match rs with
  | [] => ""
  | Received (Data ts v) :: rs => line show_f64 c ts v +:+ received_lines c rs
  | Received Shutdown :: _ | Disconnected :: _ => ""
  | _ :: rs => received_lines c rs
  end.

Lemma thread_run_ended c t rs : th_ended t = true → thread_run show_f64 disk c t rs = t.
Proof.
  intros He. unfold thread_run. induction rs as [|r rs IH]; [done|]. cbn [foldl].
  unfold thread_step at 2. by rewrite He.
Qed.

Lemma thread_run_cons c t r rs :
  thread_run show_f64 disk c t (r :: rs) =
  thread_run show_f64 disk c (thread_step show_f64 disk c t r) rs.
Proof. done. Qed.

(** What a thread that ran has written, related to what it was given by [R]: one
    induction for both halves of the theorem. *)
Lemma thread_run_written (R : string → string → Prop) `{!Reflexive R} `{!Transitive R} c t rs :
  (∀ a b x, R a b → R (a +:+ x) (b +:+ x)) →
  (∀ ps w, R (written (write_pieces disk ps w).2) (written w +:+ join "" ps)) →
  th_ended t = false →
  R (written (th_writer (thread_run show_f64 disk c t rs)))
    (written (th_writer t) +:+ received_lines c rs).
Proof.
  intros Hadd Hps. revert t. induction rs as [|r rs IH]; intros t Ht.
  { cbn. by rewrite string_app_nil_r. }
  rewrite thread_run_cons. unfold thread_step. rewrite Ht.
  destruct r as [[ts v| |]|now|]; cbn [received_lines].
  - etrans; [by apply IH|]. cbn [set_writer th_writer]. rewrite <- string_app_assoc. apply Hadd, Hps.
  - etrans; [by apply IH|]. cbn [set_writer th_writer]. by rewrite written_flush.
  - rewrite thread_run_ended by done. cbn [end_thread set_writer th_writer].
    by rewrite !written_flush, string_app_nil_r.
  - case_decide; [|by apply IH]. etrans; [by apply IH|]. cbn [th_writer]. by rewrite written_flush.
  - rewrite thread_run_ended by done. cbn [end_thread th_writer]. by rewrite written_flush, string_app_nil_r.
Qed.

(** *** Without failures *)

Lemma flush_ok w : (∀ i, disk i = DiskOk) → (flush_buf disk w).1 = true ∧ w_buf (flush_buf disk w).2 = "".
Proof.
  intros Hd. unfold flush_buf, reached. case_decide; [done|]. rewrite Hd. simpl. by rewrite str_drop_all.
Qed.

Lemma write_piece_ok p w :
  (∀ i, disk i = DiskOk) →
  (write_piece disk p w).1 = true ∧ written (write_piece disk p w).2 = written w +:+ p.
Proof.
  intros Hd. unfold write_piece. pose proof (written_flush w) as Hf. destruct (flush_ok w Hd) as [Hok He].
  destruct (flush_buf disk w) as [ok w']. simpl in Hf, Hok, He. subst ok.
  unfold written, reached in *. rewrite He, string_app_nil_r in Hf.
  case_decide as Hc; case_decide; rewrite ?Hd; simpl; rewrite ?str_take_all; (split; [done|]).
  - by rewrite He, string_app_nil_r, Hf.
  - by rewrite He, Hf.
  - assert (w_buf w = "") as ->; [|by rewrite !string_app_nil_r].
    destruct (w_buf w) as [|a b]; [done|]. exfalso.
    change (String.length (String a b)) with (S (String.length b)) in Hc. lia.
  - by rewrite string_app_assoc.
Qed.

Lemma written_pieces_ok ps w :
  (∀ i, disk i = DiskOk) → written (write_pieces disk ps w).2 = written w +:+ join "" ps.
Proof.
  intros Hd. revert w. induction ps as [|p ps IH]; intros w; [cbn; by rewrite string_app_nil_r|].
  cbn [write_pieces]. destruct (write_piece_ok p w Hd) as [Hok Hw].
  destruct (write_piece disk p w) as [ok w']. simpl in Hok, Hw. subst ok.
  by rewrite IH, Hw, join_cons, string_app_assoc.
Qed.

Lemma ended_flushed c t rs :
  (∀ i, disk i = DiskOk) → th_ended t = false → th_ended (thread_run show_f64 disk c t rs) = true →
  w_buf (th_writer (thread_run show_f64 disk c t rs)) = "".
Proof.
  intros Hd. revert t. induction rs as [|r rs IH]; intros t Ht; [cbn; congruence|].
  rewrite thread_run_cons. destruct (th_ended (thread_step show_f64 disk c t r)) eqn:He; [|by apply IH].
  rewrite thread_run_ended by done. intros _. revert He. unfold thread_step. rewrite Ht.
  destruct r as [[ts v| |]|now|]; cbn [set_writer th_ended]; try congruence.
  - intros _. by apply flush_ok.
  - case_decide; cbn [th_ended]; congruence.
  - intros _. by apply flush_ok.
Qed.

(** A text with characters missing. *)
Definition part_of (a b : string) : Prop := sublist (chars a) (chars b).

#[local] Instance part_of_reflexive : Reflexive part_of.
Proof. intros a. unfold part_of. reflexivity. Qed.

#[local] Instance part_of_transitive : Transitive part_of.
Proof. intros a b d Hab Hbd. unfold part_of in *. by etrans. Qed.

(** C36: The file of a queue. When its thread ends, by a shutdown or because its
    handle is gone, and no write to the file failed, the file holds what it held
    before and then one line per sample received until then, in the order they were
    sent, whatever flushes and timeouts happened in between. The thread ignores
    errors of the file: whatever fails, at any time what the file holds is still that
    text with characters missing; nothing is written twice, out of order, or that
    was not given. *)
Theorem persist_complete c t rs :
  th_ended t = false →
  let t' := thread_run show_f64 disk c t rs in
  let text := w_file (th_writer t) +:+ w_buf (th_writer t) +:+ received_lines c rs in
  ((∀ i, disk i = DiskOk) → th_ended t' = true → w_file (th_writer t') = text) ∧
  part_of (w_file (th_writer t')) text.
Proof.
  intros Ht t' text. split.
  - intros Hd He. pose proof (thread_run_written eq c t rs) as Hw. fold t' in Hw.
    assert (written (th_writer t') = written (th_writer t) +:+ received_lines c rs) as Heq.
    { apply Hw; [by intros ??? ->| |done]. intros. by apply written_pieces_ok. }
    unfold written in Heq. pose proof (ended_flushed c t rs Hd Ht He) as Hb. fold t' in Hb.
    rewrite Hb, string_app_nil_r in Heq. unfold text. by rewrite Heq, string_app_assoc.
  - transitivity (written (th_writer t')).
    { unfold part_of, written. rewrite chars_app. by apply sublist_inserts_r. }
    unfold text. rewrite <- string_app_assoc.
    apply (thread_run_written part_of); [|apply written_pieces|done].
    intros a b x Hab. unfold part_of. rewrite !chars_app. by apply sublist_app.
Qed.

Lemma write_piece_small w p :
  (String.length (w_buf w) + String.length p < BUFFER_CAPACITY)%nat →
  write_piece disk p w = (true, mkWriter (w_file w) (w_buf w +:+ p) (w_writes w)).
Proof. intros Hl. unfold write_piece. rewrite !decide_False by lia. done. Qed.

Lemma string_length_app a b : String.length (a +:+ b) = (String.length a + String.length b)%nat.
Proof.
  induction a as [|x a IH]; [done|]. change (String x a +:+ b) with (String x (a +:+ b)).
  simpl. by rewrite IH.
Qed.

Lemma write_pieces_small ps w :
  (String.length (w_buf w) + String.length (join "" ps) < BUFFER_CAPACITY)%nat →
  (write_pieces disk ps w).2 = mkWriter (w_file w) (w_buf w +:+ join "" ps) (w_writes w).
Proof.
  revert w. induction ps as [|p ps IH]; intros w Hl.
  { destruct w. cbn. by rewrite string_app_nil_r. }
  rewrite join_cons, string_length_app in Hl. cbn [write_pieces].
  rewrite write_piece_small by lia. rewrite IH; cbn [w_buf w_file w_writes];
    [by rewrite join_cons, string_app_assoc|rewrite string_length_app; lia].
Qed.

(** The flush interval is only looked at when no sample arrives for 100 ms:
    while samples keep coming, less than a buffer of them leaves the file as it
    was. *)
Lemma busy_thread_keeps_file c t rs :
  th_ended t = false → Forall (λ r, ∃ ts v, r = Received (Data ts v)) rs →
  (String.length (w_buf (th_writer t)) + String.length (received_lines c rs) < BUFFER_CAPACITY)%nat →
  w_file (th_writer (thread_run show_f64 disk c t rs)) = w_file (th_writer t).
Proof.
  intros Ht Hrs. revert t Ht. induction Hrs as [|r rs (ts & v & ->) _ IH]; intros t Ht Hl; [done|].
  cbn [received_lines] in Hl. rewrite string_length_app in Hl.
  rewrite thread_run_cons. unfold thread_step. rewrite Ht. unfold line in *.
  rewrite write_pieces_small by lia. rewrite IH; [done|done|]. cbn [set_writer th_writer w_buf].
  rewrite string_length_app. lia.
Qed.
End thread.

(** The sign of the whole part is all that is printed of the sign. *)
Lemma negative_fraction_loses_sign show_f64 ts :
  line show_f64 PersistenceConfig_default ts (f64_lit (-1) (-1)) =
  line show_f64 PersistenceConfig_default ts (f64_lit 1 (-1)).
Proof. reflexivity. Qed.

Definition fresh_thread : Thread := mkThread (mkWriter "" "" 0) 0 false.

Lemma persist_complete_witness :
  let rs := [Received (Data 1 (f64_of_Z 2)); TimedOut 50; Received (Data 2 (f64_lit 5 (-1)));
             Received Shutdown] in
  w_file (th_writer (thread_run (λ _, "") (λ _, DiskOk) PersistenceConfig_default fresh_thread rs)) =
    "1,2.000" +:+ String newline ("2,2.500" +:+ String newline "").
Proof. exact (proj1 (persist_complete (λ _, "") (λ _, DiskOk) PersistenceConfig_default fresh_thread
  [Received (Data 1 (f64_of_Z 2)); TimedOut 50; Received (Data 2 (f64_lit 5 (-1)));
   Received Shutdown] eq_refl) (λ _, eq_refl) eq_refl). Defined.

(** One write that fails while a line is half buffered cuts that line off, newline
    included, and the next sample is appended to its stump: after a buffer with one free
    place, the samples 1,2.000 and 2,2.500 become the one line 12,2.500. *)
Lemma failed_write_joins_lines pad :
  (S (String.length pad) = BUFFER_CAPACITY)%nat →
  w_file (th_writer (thread_run (λ _, "") (λ i, match i with O => DiskError 0 | _ => DiskOk end)
    PersistenceConfig_default (mkThread (mkWriter "" pad 0) 0 false)
    [Received (Data 1 (f64_of_Z 2)); Received (Data 2 (f64_lit 5 (-1))); Received Shutdown])) =
  pad +:+ "12,2.500" +:+ String newline "".
Proof.
  intros Hpad. set (disk := λ i : nat, _). rewrite !thread_run_cons.
  assert (100 < BUFFER_CAPACITY)%nat as Hbig by (unfold BUFFER_CAPACITY; lia).
  assert (pad ≠ "") as Hne by (intros ->; change (String.length "") with 0%nat in Hpad; lia).
  assert (∀ s f b n, (String.length s = 1)%nat → (String.length b = BUFFER_CAPACITY) →
    write_piece disk s (mkWriter f b n) =
      let '(ok, w) := flush_buf disk (mkWriter f b n) in
      if ok then (true, mkWriter (w_file w) (w_buf w +:+ s) (w_writes w)) else (false, w)) as Hfull.
  { intros s f b n Hs Hb. unfold write_piece. cbn [w_buf].
    rewrite decide_True by lia. destruct (flush_buf _ _) as [[] w]; [|done]. by rewrite decide_False by lia. }
  assert (write_pieces disk (line_pieces (λ _, "") PersistenceConfig_default 1 (f64_of_Z 2))
    (mkWriter "" pad 0) = (false, mkWriter "" (pad +:+ "1") 1)) as E1.
  { change (line_pieces (λ _, "") PersistenceConfig_default 1 (f64_of_Z 2))
      with ["1"; ","; "2"; "."; "000"; String newline ""]. cbn [write_pieces].
    unfold write_piece at 1. cbn [w_buf].
    change (String.length "1") with 1%nat. rewrite decide_False, decide_False by lia.
    cbn [w_file w_buf w_writes].
    rewrite Hfull by (rewrite ?string_length_app; change (String.length "1") with 1%nat; done || lia).
    unfold flush_buf. cbn [w_buf w_file w_writes]. rewrite decide_False; [done|by destruct pad]. }
  assert ((write_pieces disk (line_pieces (λ _, "") PersistenceConfig_default 2 (f64_lit 5 (-1)))
    (mkWriter "" (pad +:+ "1") 1)).2 = mkWriter (pad +:+ "1") ("2,2.500" +:+ String newline "") 2) as E2.
  { change (line_pieces (λ _, "") PersistenceConfig_default 2 (f64_lit 5 (-1)))
      with ["2"; ","; "2"; "."; "500"; String newline ""].
    change (write_pieces disk ("2" :: ?ps) ?w) with
      (match write_piece disk "2" w with (true, w') => write_pieces disk ps w' | (false, w') => (false, w') end).
    rewrite Hfull by (rewrite ?string_length_app; change (String.length "1") with 1%nat; done || lia).
    unfold flush_buf. cbn [w_buf w_file w_writes]. rewrite decide_False by (by destruct pad).
    cbn [reached disk]. rewrite str_take_all, str_drop_all. cbn [w_file w_buf w_writes].
    rewrite write_pieces_small; [done|]. cbn [w_buf].
    match goal with |- (?n < _)%nat => change n with 8%nat end. lia. }
  cbn [thread_step th_ended th_writer set_writer th_last_flush]. rewrite E1. cbn [snd th_writer th_ended].
  rewrite E2. change ((pad +:+ "1") +:+ "2,2.500" +:+ String newline "" = pad +:+ "12,2.500" +:+ String newline "").
  by rewrite string_app_assoc.
Qed.

(** ** The manager *)

(** Every handle of the map exists, is named once and is held by the map. *)
Definition manager_ok (m : PersistenceManager) : Prop :=
  (∀ name h, pm_handles m !! name = Some h →
     ∃ q, pm_store m !! h = Some q ∧ (0 < qp_strong q)%nat) ∧
  (∀ name name' h, pm_handles m !! name = Some h → pm_handles m !! name' = Some h → name = name').

(** What callers do with a manager; dropping is of an [Arc] that the manager
    handed out, so never of the map's own. *)
Inductive mstep : PersistenceManager → PersistenceManager → Prop :=
| ms_enable o opened name m r m' : enable_for_queue o opened name m = (r, m') → mstep m m'
| ms_get name m r m' : get_handle name m = (r, m') → mstep m m'
| ms_event h e m : mstep m (with_store m (pm_handles m) (alter (send_event e) h (pm_store m)))
| ms_drop h q m :
    pm_store m !! h = Some q → (1 < qp_strong q)%nat →
    mstep m (with_store m (pm_handles m) (alter arc_drop h (pm_store m)))
| ms_shutdown `{HashOrder} m : mstep m (shutdown_all m).

Lemma lookup_alter_all (f : QueuePersistence → QueuePersistence) (hs : list nat) (s : list QueuePersistence) i :
  NoDup hs → foldl (λ s h, alter f h s) s hs !! i = (if decide (i ∈ hs) then f else id) <$> s !! i.
Proof.
  revert s. induction hs as [|h hs IH]; intros s Hnd; cbn [foldl].
  { rewrite decide_False by apply not_elem_of_nil. by rewrite option_fmap_id. }
  apply NoDup_cons in Hnd as [Hni Hnd]. rewrite IH by done.
  destruct (decide (i = h)) as [->|Hne].
  - rewrite decide_False by done. rewrite decide_True by left.
    by rewrite option_fmap_id, list_lookup_alter_eq.
  - rewrite list_lookup_alter_ne by done. repeat case_decide; try done; set_solver.
Qed.

(** Cloning and dropping the clone is no change while the map holds the handle. *)
Lemma arc_clone_drop q : (0 < qp_strong q)%nat → arc_drop (arc_clone q) = q.
Proof.
  intros Hq. destruct q as [ev rc jn n]. unfold arc_drop, arc_clone, set_strong. simpl in *.
  rewrite decide_False by lia. done.
Qed.

Lemma NoDup_handles `{HashOrder} m : manager_ok m → NoDup (hm_values (pm_handles m)).
Proof.
  intros [_ Hi]. unfold hm_values. apply NoDup_fmap_2_strong.
  - intros [n1 h1] [n2 h2] H1%elem_of_hm_iter H2%elem_of_hm_iter ?. simplify_eq/=.
    by rewrite (Hi _ _ _ H1 H2).
  - apply (NoDup_fmap_1 fst), (NoDup_hm_keys (pm_handles m)).
Qed.

Lemma shutdown_all_id `{HashOrder} m : manager_ok m → shutdown_all m = m.
Proof.
  intros Hm. unfold shutdown_all. destruct (pm_poisoned m) eqn:Ep; [done|].
  assert (foldl (λ s h, alter arc_drop h s)
    (foldl (λ s h, alter arc_clone h s) (pm_store m) (hm_values (pm_handles m)))
    (hm_values (pm_handles m)) = pm_store m) as ->.
  { apply list_eq. intros i. rewrite !lookup_alter_all by (by apply NoDup_handles).
    case_decide as Hin; [|by rewrite !option_fmap_id].
    apply elem_of_hm_values in Hin as [name Hn]. destruct Hm as [Hs _].
    destruct (Hs _ _ Hn) as (q & Hq & Hpos). rewrite Hq. simpl. by rewrite arc_clone_drop. }
  destruct m; simpl in *. by subst.
Qed.

Lemma alter_store_ok m f h :
  (∀ q, pm_store m !! h = Some q → 0 < qp_strong q → 0 < qp_strong (f q))%nat →
  manager_ok m → manager_ok (with_store m (pm_handles m) (alter f h (pm_store m))).
Proof.
  intros Hf [Hs Hi]. split; [|exact Hi]. simpl. intros name h' Hn.
  destruct (Hs _ _ Hn) as (q & Hq & Hpos). destruct (decide (h = h')) as [->|Hne].
  - exists (f q). rewrite list_lookup_alter_eq, Hq. split; [done|by apply Hf].
  - exists q. by rewrite list_lookup_alter_ne.
Qed.

Lemma mstep_ok m m' : mstep m m' → manager_ok m → manager_ok m'.
Proof.
  destruct 1 as [o opened name m r m' He|name m r m' Hg|h e m|h q m Hq Hpos|HO m]; intros Hm.
  - unfold enable_for_queue in He. destruct (pm_poisoned m); [by simplify_eq|].
    destruct (pm_handles m !! name) as [h|] eqn:En; simplify_eq.
    { apply alter_store_ok; [|done]. intros q _ _. simpl. lia. }
    unfold qp_new in He. destruct o; simplify_eq/=; [|done]. destruct Hm as [Hs Hi]. split; simpl.
    + intros name' h'. map_cases name' name; intros Hn; simplify_eq.
      * eexists. rewrite lookup_app_r, Nat.sub_diag by lia. split; [done|]. simpl. lia.
      * destruct (Hs _ _ Hn) as (q & Hq & Hpos). exists q. split; [|done].
        apply lookup_app_l_Some. done.
    + assert (∀ nm, pm_handles m !! nm ≠ Some (length (pm_store m))) as Hfresh.
      { intros nm Hn. destruct (Hs _ _ Hn) as (q & Hq & _). apply lookup_lt_Some in Hq. lia. }
      intros n1 n2 h'. map_cases n1 name; map_cases n2 name; intros H1 H2; simplify_eq; try done.
      * by apply Hfresh in H2.
      * by apply Hfresh in H1.
      * by eapply Hi.
  - unfold get_handle in Hg. destruct (pm_poisoned m); [by simplify_eq|].
    destruct (pm_handles m !! name) as [h|]; simplify_eq; [|done].
    apply alter_store_ok; [|done]. intros q _ _. simpl. lia.
  - apply alter_store_ok; [|done]. intros q _ Hp. unfold send_event. by destruct (qp_receiving q).
  - apply alter_store_ok; [|done]. intros q' Hq' _. simplify_eq. unfold arc_drop, set_strong. simpl.
    rewrite decide_False by lia. simpl. lia.
  - by rewrite shutdown_all_id.
Qed.

(** [shutdown_all] shuts no persistence thread down: after any use of the
    manager it leaves every handle as it was, because the map keeps a reference
    to each of them. *)
Theorem shutdown_all_stops_nothing `{HashOrder} c m :
  rtc mstep (manager_new c) m → shutdown_all m = m.
Proof.
  intros Hr. apply shutdown_all_id. revert m Hr. apply rtc_ind_r.
  - split; simpl; intros; by rewrite lookup_empty in *.
  - intros m1 m2 _ Hs. by apply mstep_ok.
Qed.

Lemma shutdown_all_stops_nothing_witness :
  let _ := canonical_order in
  let m := (enable_for_queue (Ok tt) true "cpu" (manager_new PersistenceConfig_default)).2 in
  shutdown_all m = m ∧ qp_receiving <$> pm_store m !! 0%nat = Some true.
Proof.
  intros H m. split; [|reflexivity].
  apply (shutdown_all_stops_nothing PersistenceConfig_default).
  apply rtc_once. by eapply (ms_enable (Ok tt) true "cpu").
Defined.
