(* ===== verification/Registry.v ===== *)
(** * Polling: intervals, sources and the queue registry
    (src/queue/interval.rs, src/queue/source.rs, src/queue/registry.rs,
    src/queue/queue_server.rs, src/types.rs)

    A registered source is a task that calls a function on a timer, publishes the
    result to its queue and persists it.  Queues, lifecycle flags, tasks and
    persistence handles are shared by reference: the registry keeps them in
    stores and refers to them by index. *)

From Stdlib Require Import SpecFloat.
From S2P Require Import Prelude DdlTypes Config Floats Persistence Spmc.
#[local] Open Scope Z_scope.
#[local] Arguments String.append : simpl never.

(** ** Statistics (src/types.rs) *)

Record AtomicQueueStats := mkStats { total_published : Z; last_updated : Z }.

Definition stats_new : AtomicQueueStats := mkStats 0 0.
(** The copy that [snapshot] reports has the same two fields. *)
Record QueueStats := mkQueueStats { qs_total_published : Z; qs_last_updated : Z }.
Definition QueueStats_new : QueueStats := mkQueueStats 0 0.
Definition stats_snapshot (s : AtomicQueueStats) : QueueStats :=
  mkQueueStats (total_published s) (last_updated s).

Definition increment_published (s : AtomicQueueStats) : AtomicQueueStats :=
  mkStats (u64_add (total_published s) 1) (last_updated s).
Definition update_timestamp (t : Z) (s : AtomicQueueStats) : AtomicQueueStats :=
  mkStats (total_published s) t.

(** The values sources produce, by the Rust type they have. *)
Inductive value :=
| VF64 (x : f64) | VF32 (x : spec_float) | VI64 (z : Z) | VI32 (z : Z) | VU64 (z : Z) | VU32 (z : Z)
| VOther (type_name : string) (z : Z).

Definition type_name (v : value) : string :=
  match v with
  | VF64 _ => "f64" | VF32 _ => "f32" | VI64 _ => "i64" | VI32 _ => "i32"
  | VU64 _ => "u64" | VU32 _ => "u32" | VOther t _ => t
  end.

(** [convert_to_f64]; a 32-bit float is a double of the same value. *)
Definition convert_to_f64 (v : value) : option f64 :=
  match v with
  | VF64 x => Some x
  | VF32 x => Some (SFldexp 53 1024 x 0)
  | VI64 z | VI32 z | VU64 z | VU32 z => Some (f64_of_Z z)
  | VOther _ _ => None
  end.

(** ** Errors *)

Inductive QueueError := QEmpty | PublishError (m : string) | ServerError (m : string) | QOther (m : string).

Inductive AutoQueuesError :=
| AqQueueError (e : QueueError)
| AqConfigError (m : string)
| SourceError (m : string)
| QueueAlreadyExists (name : string)
| QueueNotFound (name : string).

Definition QueueError_fmt (e : QueueError) : string :=
  match e with
  | QEmpty => "Queue is empty"
  | PublishError m => "Publish error: " +:+ m
  | ServerError m => "Server error: " +:+ m
  | QOther m => "Other error: " +:+ m
  end.

Definition AutoQueuesError_fmt (e : AutoQueuesError) : string :=
  match e with
  | AqQueueError e => "Queue error: " +:+ QueueError_fmt e
  | AqConfigError m => "Configuration error: " +:+ m
  | SourceError m => "Source error: " +:+ m
  | QueueAlreadyExists n => "Queue already exists: " +:+ n
  | QueueNotFound n => "Queue not found: " +:+ n
  end.

(** [QueueServerHandle::shutdown]: whether the signal is taken, how the task ends. *)
Definition server_shutdown (sent : bool) (joined : result string unit) : result QueueError unit :=
  if sent then map_err ServerError joined
  else Err (ServerError "Failed to send shutdown signal - server may have already stopped").

(** ** Intervals *)

Inductive IntervalConfig :=
| Constant (ms : Z)
| Adaptive (initial_ms min_ms max_ms additive_step_ms : Z) (multiplicative_factor : f64).

Definition IntervalConfig_default : IntervalConfig := Constant 1000.

Record AimdController := mkAimd {
  ai_config : IntervalConfig;
  ai_current_interval_ms : Z;
  ai_consecutive_successes : Z;
}.

Definition initial_interval (c : IntervalConfig) : Z :=
  match c with Constant ms => ms | Adaptive initial_ms _ _ _ _ => initial_ms end.

Definition aimd_new (c : IntervalConfig) : AimdController := mkAimd c (initial_interval c) 0.

(** The success counter is a [u32]. *)
Definition on_success (a : AimdController) : AimdController :=
  match ai_config a with
  | Constant _ => a
  | Adaptive _ min_ms _ step _ =>
      mkAimd (ai_config a)
        (if decide (min_ms < ai_current_interval_ms a)
         then Z.max (saturating_sub (ai_current_interval_ms a) step) min_ms
         else ai_current_interval_ms a)
        ((ai_consecutive_successes a + 1) `mod` 2 ^ 32)
  end.

Definition on_overflow (a : AimdController) : AimdController :=
  match ai_config a with
  | Constant _ => a
  | Adaptive _ _ max_ms _ factor =>
      mkAimd (ai_config a)
        (Z.min (f64_as_u64 (f64_mul (f64_of_Z (ai_current_interval_ms a)) factor)) max_ms) 0
  end.

(** ** The registry *)

Section registry.
Context {N : Z} {B : Type → Type} `{!CircularBuffer N B}.

Abbreviation queue := (@SPMCLockFreeQueue B value).

(** A queue behind its lock. *)
Record LockedQueue := mkLocked { lq_queue : queue; lq_poisoned : bool }.

Record SourceFlags := mkFlags { sf_paused : bool; sf_should_stop : bool }.

(** The task of [start]: its references, its function as the values of its
    successive calls, how often it was called, and where it is: at the top of its
    loop, waiting for a tick, or ended. *)
Inductive TaskState := AtTop | Waiting | Ended.

Record SourceTask := mkTask {
  tk_flags : nat;
  tk_queue : nat;
  tk_func : nat → value;
  tk_calls : nat;
  tk_interval_ms : Z;
  tk_persistence : option nat;
  tk_state : TaskState;
}.

Record QueueRegistry := mkRegistry {
  rg_queues : gmap string (string * nat);
  rg_sources : gmap string nat;
  rg_pm : PersistenceManager;
  rg_queue_store : list LockedQueue;
  rg_flag_store : list SourceFlags;
  rg_tasks : list SourceTask;
}.

Definition registry_new (c : Config) : QueueRegistry :=
  mkRegistry ∅ ∅ (manager_new (default PersistenceConfig_default (c_persistence c))) [] [] [].

Definition with_pm (rg : QueueRegistry) (pm : PersistenceManager) : QueueRegistry :=
  mkRegistry (rg_queues rg) (rg_sources rg) pm (rg_queue_store rg) (rg_flag_store rg) (rg_tasks rg).

(** A change of the handle a reference points to, if there is one. *)
Definition on_handle (f : QueuePersistence → QueuePersistence) (h : option nat)
    (rg : QueueRegistry) : QueueRegistry :=
  match h with
  | Some h => with_pm rg (with_store (rg_pm rg) (pm_handles (rg_pm rg)) (alter f h (pm_store (rg_pm rg))))
  | None => rg
  end.

(** [FunctionSource::new] and [start]: fresh flags and a task polling at the
    initial interval, with a second reference to its persistence handle.
    [tokio::time::interval] panics on a zero duration, and with the task its
    reference goes. *)
Definition start_source (func : nat → value) (q : nat) (interval : IntervalConfig)
    (persistence : option nat) (rg : QueueRegistry) : nat * QueueRegistry :=
  let f := length (rg_flag_store rg) in
  let panics := bool_decide (initial_interval interval = 0) in
  (f, on_handle (if panics then arc_drop else arc_clone) persistence
        (mkRegistry (rg_queues rg) (rg_sources rg) (rg_pm rg) (rg_queue_store rg)
           (rg_flag_store rg ++ [mkFlags false false])
           (rg_tasks rg ++ [mkTask f q func 0 (initial_interval interval) persistence
                              (if panics then Ended else AtTop)]))).

Definition add_queue_with_interval_and_persistence (create_dir : result string unit)
    (opened : bool) (name ty : string) (func : nat → value) (interval : IntervalConfig) (enable_persistence : bool)
    (rg : QueueRegistry) : result AutoQueuesError unit * QueueRegistry :=
  let '(persistence, pm) :=
    if enable_persistence then
      let '(r, pm) := enable_for_queue create_dir opened name (rg_pm rg) in
      (map_err (λ e, SourceError ("Persistence error: " +:+ e)) (h ← r; Ok (Some h)), pm)
    else (Ok None, rg_pm rg) in
  match persistence with
  | Err e => (Err e, mkRegistry (rg_queues rg) (rg_sources rg) pm (rg_queue_store rg)
                       (rg_flag_store rg) (rg_tasks rg))
  | Ok p =>
      let q := length (rg_queue_store rg) in
      let '(f, rg1) := start_source func q interval p
        (mkRegistry (rg_queues rg) (rg_sources rg) pm
           (rg_queue_store rg ++ [mkLocked spmc_new false]) (rg_flag_store rg) (rg_tasks rg)) in
      (Ok tt, mkRegistry (<[name := (ty, q)]> (rg_queues rg1)) (<[name := f]> (rg_sources rg1))
                (rg_pm rg1) (rg_queue_store rg1) (rg_flag_store rg1) (rg_tasks rg1))
  end.

Definition add_queue create_dir opened name ty func rg :=
  add_queue_with_interval_and_persistence create_dir opened name ty func IntervalConfig_default false rg.

Definition add_queue_with_persistence create_dir opened name ty func rg :=
  add_queue_with_interval_and_persistence create_dir opened name ty func IntervalConfig_default true rg.

Definition add_queue_with_interval create_dir opened name ty func interval rg :=
  add_queue_with_interval_and_persistence create_dir opened name ty func interval false rg.

Definition queue_exists (name : string) (rg : QueueRegistry) : bool :=
  bool_decide (is_Some (rg_queues rg !! name)).

(** [get_queue::<T>]: the reference, when the queue has that element type. *)
Definition get_queue (ty name : string) (rg : QueueRegistry) : result AutoQueuesError nat :=
  match rg_queues rg !! name with
  | Some (ty', q) =>
      if decide (ty' = ty) then Ok q else Err (AqQueueError (QOther "Queue type mismatch"))
  | None => Err (QueueNotFound name)
  end.

(** [start], [pause] and [resume] print a line and change nothing. *)
Definition registry_start (rg : QueueRegistry) : QueueRegistry := rg.
Definition registry_pause (name : string) (rg : QueueRegistry) : QueueRegistry := rg.
Definition registry_resume (name : string) (rg : QueueRegistry) : QueueRegistry := rg.

Definition registry_remove (name : string) (rg : QueueRegistry) : QueueRegistry :=
  mkRegistry (delete name (rg_queues rg)) (delete name (rg_sources rg)) (rg_pm rg)
    (rg_queue_store rg) (rg_flag_store rg) (rg_tasks rg).

Definition enable_persistence (create_dir : result string unit) (opened : bool) (name : string)
    (rg : QueueRegistry) :
    result AutoQueuesError unit * QueueRegistry :=
  let '(r, pm) := enable_for_queue create_dir opened name (rg_pm rg) in
  match r with
  | Ok h => (Ok tt, on_handle arc_drop (Some h) (with_pm rg pm))
  | Err e => (Err (SourceError ("Persistence error: " +:+ e)), with_pm rg pm)
  end.

Definition get_persistence_handle (name : string) (rg : QueueRegistry) : option nat * QueueRegistry :=
  let '(h, pm) := get_handle name (rg_pm rg) in (h, with_pm rg pm).

Definition shutdown_all_persistence `{HashOrder} (rg : QueueRegistry) : QueueRegistry :=
  with_pm rg (shutdown_all (rg_pm rg)).

(** A caller lets a handle go. *)
Definition drop_handle (h : nat) : QueueRegistry → QueueRegistry := on_handle arc_drop (Some h).

(** The methods of a source set its flags. *)
Definition set_flags (f : nat) (g : SourceFlags → SourceFlags) (rg : QueueRegistry) : QueueRegistry :=
  mkRegistry (rg_queues rg) (rg_sources rg) (rg_pm rg) (rg_queue_store rg)
    (alter g f (rg_flag_store rg)) (rg_tasks rg).

Definition source_pause (f : nat) := set_flags f (λ s, mkFlags true (sf_should_stop s)).
Definition source_resume (f : nat) := set_flags f (λ s, mkFlags false (sf_should_stop s)).
Definition source_remove (f : nat) := set_flags f (λ s, mkFlags (sf_paused s) true).

Definition publish (now : Z) (v : value) (q : LockedQueue) : LockedQueue :=
  if lq_poisoned q then q else mkLocked (spmc_push now v (lq_queue q)).2 false.

Definition set_task (i : nat) (t : SourceTask) (calls : nat) (st : TaskState)
    (rg : QueueRegistry) : QueueRegistry :=
  mkRegistry (rg_queues rg) (rg_sources rg) (rg_pm rg) (rg_queue_store rg) (rg_flag_store rg)
    (<[i := mkTask (tk_flags t) (tk_queue t) (tk_func t) calls (tk_interval_ms t)
              (tk_persistence t) st]> (rg_tasks rg)).

(** The loop of a task: the top, where it looks at [should_stop] ... *)
Definition source_check (i : nat) (rg : QueueRegistry) : QueueRegistry :=
  match rg_tasks rg !! i with
  | Some t =>
      match tk_state t, rg_flag_store rg !! tk_flags t with
      | AtTop, Some fl =>
          if sf_should_stop fl
          then on_handle (λ q, arc_drop (arc_drop q)) (tk_persistence t)
                 (set_task i t (tk_calls t) Ended rg)
          else set_task i t (tk_calls t) Waiting rg
      | _, _ => rg
      end
  | None => rg
  end.

(** ... the publication of a value ... *)
Definition deliver (now : Z) (t : SourceTask) (v : value) (rg : QueueRegistry) : QueueRegistry :=
  let rg1 := mkRegistry (rg_queues rg) (rg_sources rg) (rg_pm rg)
               (alter (publish now v) (tk_queue t) (rg_queue_store rg)) (rg_flag_store rg)
               (rg_tasks rg) in
  match convert_to_f64 v with
  | Some x => on_handle (persist now x) (tk_persistence t) rg1
  | None => rg1
  end.

(** ... and what follows the tick. *)
Definition source_tick (now : Z) (i : nat) (rg : QueueRegistry) : QueueRegistry :=
  match rg_tasks rg !! i with
  | Some t =>
      match tk_state t, rg_flag_store rg !! tk_flags t with
      | Waiting, Some fl =>
          if sf_paused fl then set_task i t (tk_calls t) AtTop rg
          else set_task i t (S (tk_calls t)) AtTop
                 (deliver now t (tk_func t (tk_calls t)) rg)
      | _, _ => rg
      end
  | None => rg
  end.
End registry.
