(* ===== verification/RegistryProps.v ===== *)
(** * Polling: what the queues of a registry hold, and what stops a source

    The registry and the tasks of its sources as one transition system, with the
    invariant that ties each queue to the function of its source. *)

From Stdlib Require Import SpecFloat.
From S2P Require Import Prelude DdlTypes Config Floats Persistence Spmc Registry.
#[local] Open Scope Z_scope.

(** ** Intervals *)

Inductive aimd_step : AimdController → AimdController → Prop :=
| as_success a : aimd_step a (on_success a)
| as_overflow a : aimd_step a (on_overflow a).

Definition aimd_ok (initial min_ms max_ms step : Z) (factor : f64) (a : AimdController) : Prop :=
  ai_config a = Adaptive initial min_ms max_ms step factor ∧
  ai_current_interval_ms a ≤ Z.max initial max_ms.

(** An adaptive interval never exceeds the larger of its initial and its maximal
    value, and a success never takes it below its minimal value. *)
Lemma aimd_upper initial min_ms max_ms step factor a :
  0 ≤ initial → 0 ≤ min_ms → 0 ≤ step →
  rtc aimd_step (aimd_new (Adaptive initial min_ms max_ms step factor)) a →
  ai_current_interval_ms a ≤ Z.max initial max_ms ∧
  (min_ms ≤ ai_current_interval_ms a → min_ms ≤ ai_current_interval_ms (on_success a)).
Proof.
  intros Hi Hm Hs Hr.
  assert (aimd_ok initial min_ms max_ms step factor a) as [Hc Hu].
  { revert a Hr. apply rtc_ind_r; [split; simpl; [done|lia]|].
    intros a a' _ Hst [Hc Hu]. destruct Hst; unfold aimd_ok, on_success, on_overflow; rewrite Hc; simpl.
    - split; [done|]. unfold saturating_sub. case_decide; lia.
    - split; [done|]. lia. }
  split; [done|]. intros Hge. unfold on_success. rewrite Hc. simpl.
  unfold saturating_sub. case_decide; lia.
Qed.

(** The minimal value bounds successes only: an overflow with a factor below one,
    or with no number, takes the interval below it, here to zero. *)
Lemma overflow_ignores_min :
  ai_current_interval_ms (on_overflow (aimd_new (Adaptive 100 50 1000 10 (f64_lit 1 (-1))))) = 50 ∧
  ai_current_interval_ms
    (on_overflow (on_overflow (aimd_new (Adaptive 100 50 1000 10 (f64_lit 1 (-1)))))) = 25 ∧
  ai_current_interval_ms (on_overflow (aimd_new (Adaptive 100 50 1000 10 S754_nan))) = 0.
Proof. repeat split; vm_compute; reflexivity. Qed.

(** ** The registry with its tasks *)

Section registry.
Context {N : Z} {B : Type → Type} `{!CircularBuffer N B}.

#[local] Abbreviation registry := (@QueueRegistry B).

(** The operations of the registry, the references its callers let go, and the
    steps of its tasks. *)
Inductive rstep : registry → registry → Prop :=
| rs_add create_dir opened name ty func interval p rg r rg' :
    add_queue_with_interval_and_persistence create_dir opened name ty func interval p rg = (r, rg') →
    rstep rg rg'
| rs_start rg : rstep rg (registry_start rg)
| rs_pause name rg : rstep rg (registry_pause name rg)
| rs_resume name rg : rstep rg (registry_resume name rg)
| rs_remove name rg : rstep rg (registry_remove name rg)
| rs_enable create_dir opened name rg r rg' :
    enable_persistence create_dir opened name rg = (r, rg') → rstep rg rg'
| rs_handle name rg r rg' : get_persistence_handle name rg = (r, rg') → rstep rg rg'
| rs_drop h rg : rstep rg (drop_handle h rg)
| rs_shutdown `{HashOrder} rg : rstep rg (shutdown_all_persistence rg)
| rs_check i rg : rstep rg (source_check i rg)
| rs_tick now i rg : rstep rg (source_tick now i rg).

(** The queue after the first [length times] calls of a function, published at [times]. *)
Definition filled (func : nat → value) (times : list Z) : LockedQueue (B := B) :=
  mkLocked (run_pushes (zip times (func <$> seq 0 (length times))) spmc_new) false.

Definition task_ok (rg : registry) (t : SourceTask) : Prop :=
  rg_flag_store rg !! tk_flags t = Some (mkFlags false false) ∧
  (tk_state t = Ended ↔ tk_interval_ms t = 0) ∧
  ∃ times, length times = tk_calls t ∧
    rg_queue_store rg !! tk_queue t = Some (filled (tk_func t) times).

Record registry_ok (rg : registry) : Prop := {
  ro_task : ∀ i t, rg_tasks rg !! i = Some t → task_ok rg t;
  ro_own : ∀ i j t u, rg_tasks rg !! i = Some t → rg_tasks rg !! j = Some u →
    tk_queue t = tk_queue u → i = j;
  ro_named : ∀ name ty q, rg_queues rg !! name = Some (ty, q) →
    ∃ i t, rg_tasks rg !! i = Some t ∧ tk_queue t = q;
}.

(** *** Persistence handles play no part *)

Lemma on_handle_pm f h (rg : registry) : ∃ pm, on_handle f h rg = with_pm rg pm.
Proof.
  destruct h; [by eexists|]. exists (rg_pm rg). by destruct rg.
Qed.

Lemma with_pm_ok (rg : registry) pm : registry_ok rg → registry_ok (with_pm rg pm).
Proof. by intros []. Qed.

Lemma on_handle_ok f h (rg : registry) : registry_ok rg → registry_ok (on_handle f h rg).
Proof. destruct (on_handle_pm f h rg) as [pm ->]. apply with_pm_ok. Qed.

(** *** Preservation *)

Lemma run_pushes_snoc ps now x (q : @SPMCLockFreeQueue B value) :
  run_pushes (ps ++ [(now, x)]) q = (spmc_push now x (run_pushes ps q)).2.
Proof. unfold run_pushes. by rewrite fold_left_app. Qed.

Lemma publish_filled func times now :
  publish now (func (length times)) (filled func times) = filled func (times ++ [now]).
Proof.
  unfold publish, filled. simpl. f_equal. rewrite length_app. simpl.
  rewrite Nat.add_1_r, seq_S, fmap_app, zip_with_app by (by rewrite length_fmap, length_seq).
  simpl. by rewrite run_pushes_snoc.
Qed.

Lemma task_ok_grow (rg rg' : registry) t :
  (∀ f x, rg_flag_store rg !! f = Some x → rg_flag_store rg' !! f = Some x) →
  (∀ q x, rg_queue_store rg !! q = Some x → rg_queue_store rg' !! q = Some x) →
  task_ok rg t → task_ok rg' t.
Proof. intros Hf Hq (? & ? & times & ? & ?). split; [by auto|]. split; [done|]. exists times. auto. Qed.

Lemma snoc_lookup_l {A} (l : list A) y i x : l !! i = Some x → (l ++ [y]) !! i = Some x.
Proof. apply lookup_app_l_Some. Qed.

Lemma add_ok cd op name ty func iv p (rg rg' : registry) r :
  add_queue_with_interval_and_persistence cd op name ty func iv p rg = (r, rg') →
  registry_ok rg → registry_ok rg'.
Proof.
  unfold add_queue_with_interval_and_persistence. intros Ha Hok.
  destruct (if p then _ else _) as [[h|e] pm]; [|simplify_eq; by apply (with_pm_ok rg pm)].
  unfold start_source in Ha. cbn zeta in Ha.
  match type of Ha with context [on_handle ?f ?h ?r] =>
    destruct (on_handle_pm f h r) as [pm' Hpm]; rewrite Hpm in Ha end.
  simplify_eq/=. clear Hpm.
  destruct Hok as [Ht Ho Hn].
  assert (∀ i t, rg_tasks rg !! i = Some t → (tk_queue t < length (rg_queue_store rg))%nat) as Hlt.
  { intros i t Hi. destruct (Ht i t Hi) as (_ & _ & ts & _ & Hq). by apply lookup_lt_Some in Hq. }
  split; simpl.
  - intros i t [[_ Hi]|[Hi <-]]%lookup_snoc_Some.
    + apply (task_ok_grow rg); simpl; [by eauto using snoc_lookup_l..|exact (Ht i t Hi)].
    + split; [by apply list_lookup_middle|]. split; [simpl; case_bool_decide; naive_solver|].
      exists []. split; [done|]. by apply list_lookup_middle.
  - intros i j t u [[_ Hi]|[Hi <-]]%lookup_snoc_Some [[_ Hj]|[Hj <-]]%lookup_snoc_Some; simpl; intros He.
    + by eapply Ho.
    + apply Hlt in Hi. lia.
    + apply Hlt in Hj. lia.
    + congruence.
  - intros name' ty' q. map_cases name' name; intros Hq; simplify_eq.
    + eexists _, _. split; [by apply list_lookup_middle|done].
    + destruct (Hn _ _ _ Hq) as (i & t & Hi & ?). exists i, t. by eauto using snoc_lookup_l.
Qed.

(** A step of task [i] that leaves the queues of the others alone. *)
Lemma set_task_ok i t calls st qs (rg : registry) :
  registry_ok rg → rg_tasks rg !! i = Some t →
  (st = Ended ↔ tk_interval_ms t = 0) →
  (∀ q, q ≠ tk_queue t → qs !! q = rg_queue_store rg !! q) →
  (∃ times, length times = calls ∧ qs !! tk_queue t = Some (filled (tk_func t) times)) →
  registry_ok (set_task i t calls st (mkRegistry (rg_queues rg) (rg_sources rg) (rg_pm rg) qs
    (rg_flag_store rg) (rg_tasks rg))).
Proof.
  intros [Ht Ho Hn] Hi Hst Hqs Hfill. pose proof (lookup_lt_Some _ _ _ Hi) as Hlt.
  assert (∀ j u, <[i:=mkTask (tk_flags t) (tk_queue t) (tk_func t) calls (tk_interval_ms t)
      (tk_persistence t) st]> (rg_tasks rg) !! j = Some u →
    ∃ u', rg_tasks rg !! j = Some u' ∧ tk_queue u = tk_queue u') as Hback.
  { intros j u. rewrite list_lookup_insert. case_decide as Hd; [|by eauto].
    destruct Hd as [<- _]. intros [= <-]. by exists t. }
  split; simpl.
  - intros j u. rewrite list_lookup_insert. case_decide as Hd.
    + intros [= <-]. by split; [apply (Ht i t Hi)|].
    + intros Hj. destruct (Ht j u Hj) as (Hf & Hs & times & Hl & Hq). split; [done|]. split; [done|].
      exists times. split; [done|]. simpl. rewrite Hqs; [done|]. intros He.
      apply Hd. split; [|done]. symmetry. by eapply Ho.
  - intros j k u v (u' & Hu & ->)%Hback (v' & Hv & ->)%Hback. by eapply Ho.
  - intros name ty q (j & u & Hj & Hq)%Hn. destruct (decide (i = j)) as [<-|Hne].
    + eexists i, _. rewrite list_lookup_insert_eq by done. split; [done|]. simplify_eq. done.
    + exists j, u. by rewrite list_lookup_insert_ne.
Qed.

Lemma registry_self (rg : registry) :
  mkRegistry (rg_queues rg) (rg_sources rg) (rg_pm rg) (rg_queue_store rg) (rg_flag_store rg)
    (rg_tasks rg) = rg.
Proof. by destruct rg. Qed.

Lemma check_ok i (rg : registry) : registry_ok rg → registry_ok (source_check i rg).
Proof.
  intros Hok. unfold source_check. destruct (rg_tasks rg !! i) as [t|] eqn:Hi; [|done].
  destruct (ro_task _ Hok i t Hi) as (Hf & Hst & times & Hl & Hq).
  rewrite Hf. destruct (tk_state t); [|done..].
  rewrite <- (registry_self rg) at 2. simpl. apply set_task_ok; [done..|naive_solver|done|by exists times].
Qed.

Lemma tick_ok now i (rg : registry) : registry_ok rg → registry_ok (source_tick now i rg).
Proof.
  intros Hok. unfold source_tick. destruct (rg_tasks rg !! i) as [t|] eqn:Hi; [|done].
  destruct (ro_task _ Hok i t Hi) as (Hf & Hst & times & Hl & Hq).
  rewrite Hf. destruct (tk_state t); [done| |done]. simpl.
  unfold deliver. match goal with |- registry_ok (set_task _ _ _ _ ?r) =>
    assert (∃ pm, r = with_pm (mkRegistry (rg_queues rg) (rg_sources rg) (rg_pm rg)
      (alter (publish now (tk_func t (tk_calls t))) (tk_queue t) (rg_queue_store rg))
      (rg_flag_store rg) (rg_tasks rg)) pm) as [pm ->] end.
  { destruct (convert_to_f64 _); [apply on_handle_pm|]. by exists (rg_pm rg). }
  match goal with |- registry_ok (set_task ?i ?t ?n ?st (with_pm ?r ?pm)) =>
    change (registry_ok (with_pm (set_task i t n st r) pm)) end.
  apply with_pm_ok, (set_task_ok i t _ _ _ rg); [done..|naive_solver| |].
  - intros q Hne. by apply list_lookup_alter_ne.
  - exists (times ++ [now]). split; [rewrite length_app; simpl; lia|].
    by rewrite list_lookup_alter_eq, Hq, <- Hl, <- publish_filled.
Qed.

Lemma rstep_ok (rg rg' : registry) : rstep rg rg' → registry_ok rg → registry_ok rg'.
Proof.
  destruct 1 as [cd op nm ty fn iv p rg r rg' Ha| | | |nm rg|cd op nm rg r rg' He|nm rg r rg' Hg|h rg|
    |i rg|now i rg]; intros Hok; try done.
  - by eapply add_ok.
  - destruct Hok as [Ht Ho Hn]. split; [done..|]. simpl. intros nm' ty q [_ Hq]%lookup_delete_Some. by eapply Hn.
  - unfold enable_persistence in He. destruct (enable_for_queue _ _ _ _) as [[] ?]; simplify_eq;
      [apply (on_handle_ok arc_drop (Some _))|]; by apply with_pm_ok.
  - unfold get_persistence_handle in Hg. destruct (get_handle _ _). simplify_eq. by apply with_pm_ok.
  - by apply (on_handle_ok arc_drop (Some _)).
  - by apply with_pm_ok.
  - by apply check_ok.
  - by apply tick_ok.
Qed.

Lemma registry_reachable_ok c (rg : registry) : rtc rstep (registry_new c) rg → registry_ok rg.
Proof.
  revert rg. apply rtc_ind_r; [|intros; by eapply rstep_ok].
  split; simpl; intros; by rewrite ?lookup_nil, ?lookup_empty in *.
Qed.

(** C35: a queue that [get_queue] hands out holds the last results of its source's
    function, as many as its capacity [N] or all of them while there are fewer:
    the results of the latest calls, each once and in the order of the calls, and
    its counter is their number (up to 2^64 - 1 calls), whatever the registry and
    the other sources did, as long as its users only read it; older results are
    dropped.  [N] is a power of two (1024 by default). *)
Theorem registered_queue_contents k c (rg : registry) ty name q :
  0 ≤ k < 64 → N = 2 ^ k →
  rtc rstep (registry_new c) rg → get_queue ty name rg = Ok q →
  ∃ i t sq, rg_tasks rg !! i = Some t ∧ tk_queue t = q ∧
    rg_queue_store rg !! q = Some (mkLocked sq false) ∧
    (Z.of_nat (tk_calls t) ≤ U64_MAX →
     spmc_tail sq = Z.of_nat (tk_calls t) ∧
     (cb_items (spmc_buffer sq)).*2 = last_n (Z.to_nat N) (tk_func t <$> seq 0 (tk_calls t))).
Proof.
  intros Hk HN Hok%registry_reachable_ok Hg. unfold get_queue in Hg.
  destruct (rg_queues rg !! name) as [[ty' q']|] eqn:Hq; [|done].
  case_decide; simplify_eq. destruct (ro_named _ Hok _ _ _ Hq) as (i & t & Hi & <-).
  destruct (ro_task _ Hok i t Hi) as (_ & _ & times & Hl & Hst).
  unfold filled in Hst. eexists i, t, _. split_and!; [done..|]. intros Hcalls.
  assert (length (tk_func t <$> seq 0 (length times)) = length times) as Hlen
    by by rewrite length_fmap, length_seq.
  destruct (run_pushes_holds k Hk HN (zip times (tk_func t <$> seq 0 (length times)))) as [Ht Hit _].
  { rewrite length_zip_with, Hlen, Nat.min_id. lia. }
  rewrite length_zip_with, Hlen, Nat.min_id in Ht. rewrite <- Hl. split; [done|]. rewrite Hit.
  unfold last_n. rewrite fmap_drop, snd_zip by lia. by rewrite length_zip_with, Hlen, Nat.min_id.
Qed.

(** [pause] and [remove] of the registry stop no source: however the
    registry was used, after both of them a source with a positive interval still
    publishes the next result of its function to its queue. *)
Theorem removed_source_keeps_polling c (rg : registry) i t name now :
  rtc rstep (registry_new c) rg → rg_tasks rg !! i = Some t → tk_interval_ms t ≠ 0 →
  let rg' := source_tick now i (source_check i (registry_remove name (registry_pause name rg))) in
  queue_exists name rg' = false ∧
  rg_queue_store rg' !! tk_queue t =
    publish now (tk_func t (tk_calls t)) <$> rg_queue_store rg !! tk_queue t ∧
  tk_calls <$> rg_tasks rg' !! i = Some (S (tk_calls t)).
Proof.
  intros Hok%registry_reachable_ok Hi Hiv rg'. pose proof (lookup_lt_Some _ _ _ Hi) as Hlt.
  destruct (ro_task _ Hok i t Hi) as (Hf & Hst & _).
  unfold rg', source_check, registry_remove, registry_pause. simpl. rewrite Hi, Hf. simpl.
  unfold source_tick, deliver.
  destruct (tk_state t) eqn:Es; [| |naive_solver]; simpl;
    rewrite ?list_lookup_insert_eq, ?Hi by done; simpl; rewrite ?Hf, ?Es; simpl;
    (destruct (convert_to_f64 _); [|simpl]); try (destruct (tk_persistence t); simpl);
    (split; [apply bool_decide_eq_false; simpl; rewrite lookup_delete_eq; by intros []|]);
    split; by rewrite ?list_lookup_alter_eq, ?list_insert_insert_eq, ?list_lookup_insert_eq by done.
Qed.
End registry.

(** ** A registry with one source, polled three times *)

Module Sample.
Definition added : QueueRegistry (B := list) :=
  (add_queue (Ok tt) true "cpu" "u64" (λ n, VU64 (Z.of_nat n)) (registry_new Config_default)).2.

Definition poll (now : Z) (rg : QueueRegistry (B := list)) : QueueRegistry :=
  source_tick now 0 (source_check 0 rg).

Definition polled : QueueRegistry := poll 20 (poll 10 added).

Definition polled_again : QueueRegistry := poll 30 polled.

Lemma polled_reachable : rtc rstep (registry_new Config_default) polled.
Proof.
  apply (rtc_l _ _ added).
  { apply (rs_add (Ok tt) true "cpu" "u64" (λ n, VU64 (Z.of_nat n)) IntervalConfig_default false _ (Ok tt)).
    reflexivity. }
  unfold polled, poll.
  eapply rtc_l; [apply (rs_check 0)|]. eapply rtc_l; [apply (rs_tick 10 0)|].
  eapply rtc_l; [apply (rs_check 0)|]. eapply rtc_l; [apply (rs_tick 20 0)|]. apply rtc_refl.
Qed.

Lemma polled_again_reachable : rtc rstep (registry_new Config_default) polled_again.
Proof.
  eapply rtc_r; [eapply rtc_r; [apply polled_reachable|apply (rs_check 0)]|apply (rs_tick 30 0)].
Qed.

(** The buffer of two entries has dropped the first of the three results. *)
Lemma registered_queue_contents_witness :
  get_queue "u64" "cpu" polled_again = Ok 0%nat ∧
  ∃ i t sq, rg_tasks polled_again !! i = Some t ∧ tk_queue t = 0%nat ∧
    rg_queue_store polled_again !! 0%nat = Some (mkLocked sq false) ∧
    (Z.of_nat (tk_calls t) ≤ U64_MAX →
     spmc_tail sq = Z.of_nat (tk_calls t) ∧
     (cb_items (spmc_buffer sq)).*2 = last_n 2 (tk_func t <$> seq 0 (tk_calls t))).
Proof.
  split; [reflexivity|].
  apply (registered_queue_contents (N := 2) 1 Config_default polled_again "u64" "cpu" 0%nat);
    [lia|reflexivity|apply polled_again_reachable|].
  reflexivity.
Defined.

Example polled_results :
  (λ l, (cb_items (spmc_buffer (lq_queue l))).*2) <$> rg_queue_store polled_again !! 0%nat = Some [VU64 1; VU64 2].
Proof. reflexivity. Qed.

Lemma removed_source_keeps_polling_witness :
  ∃ t, rg_tasks polled !! 0%nat = Some t ∧
  let rg' := poll 30 (registry_remove "cpu" (registry_pause "cpu" polled)) in
  queue_exists "cpu" rg' = false ∧
  rg_queue_store rg' !! tk_queue t =
    publish 30 (tk_func t (tk_calls t)) <$> rg_queue_store polled !! tk_queue t ∧
  tk_calls <$> rg_tasks rg' !! 0%nat = Some (S (tk_calls t)).
Proof.
  eexists. split; [reflexivity|].
  apply (removed_source_keeps_polling Config_default polled 0%nat); [apply polled_reachable|reflexivity|].
  vm_compute. discriminate.
Defined.
End Sample.
